(* ===== verification/_CoqProject ===== *)
-Q . S2P
Prelude.v
Text.v
Chunks.v
HostMaps.v
BrLock.v
MemState.v
MemTable.v
Vmm.v
VmmRange.v
Resolve.v
Lookup.v
Access.v
Samples.v
Batch.v
Strided.v
Runs.v
Copy.v
Rmw.v
Life.v
Calls.v
Contract.v
Traffic.v
HostGuard.v
Backing.v
BackingInv.v
BackingSafe.v
Scheduler.v
Faults.v
Visible.v
Slots.v
Yamlish.v
Codec.v
Lz4.v
Snappy.v
Alu.v
Isa.v
Warp.v
Lanes.v
Thread.v
Handlers.v
Tiers.v
Simt.v
Turn.v
Passes.v
Block.v
Spmd.v
