(* ===== verification/Prelude.v ===== *)
(** * PantheonSim: a verification library of the simulator's core

    PantheonSim runs GPU programs on the host. This library models, as Rocq
    functions translated from the C++ sources, the parts of it that every program
    goes through whatever the vendor: the device memory manager with the memory
    behind it, the lock that guards its tables, the schedulers that order warps,
    the injection of faults, the choice of visible devices and the profiles' parser;
    two of the codecs behind nvCOMP; and the PTX interpreter's core, from the
    arithmetic of one lane to a block of warps that diverge, meet and wait at
    barriers, for the integer, predicate and control instructions.

    ** The program's parts and how they meet

    A kernel or a copy names a device address. MemoryManager (src/core/memory.cpp,
    include/vgpu/memory.hpp) finds what is there: a mapped host buffer, a live
    allocation, memory of a handle mapped at the address, or a diagnosis (use
    after free, out of bounds, ...). Most lookups are answered by a memory of
    recent lookups that each thread keeps, trusted by the epochs of a big-reader
    lock (include/vgpu/brlock.hpp) and not by taking it. An allocation's bytes are
    64 KiB chunks that come into being on the first write; the host backing
    (src/core/memory_backing.cpp) hands them out, from RAM or from a spill file,
    and watches the host's memory. A kernel runs block by block
    (src/exec/interpreter.cpp): a scheduler (src/exec/scheduler.cpp) picks a warp, the
    warp takes a turn, one path of its threads at a time, and each instruction goes
    through the first of three tiers that takes it: its form decoded beforehand
    (build_micro, src/ptx/ast.cpp), a fast handler, the general one. The nvCOMP shim compresses and decompresses with host
    codecs of its own (nvidia/src/nvcomp_codecs.cpp).

    ** Files

    Shared:
    - [Prelude]: machine integers, errors ([Err], [exn]), the monad [M] of calls
      that may throw or be undefined ([outcome], [wp]), ordered maps
      ([floor_entry] is [upper_bound] and a step back), sums over tables, tactics.
    - [Text]: the C library's strtoull, isspace and NUL-ended strings; lists with
      commas; decimal printing and reading it back.

    Device memory:
    - [Chunks]: struct Allocation, its chunk slots (null, uniform, real) and the
      loops that read, write, fill, load and store through them; the class
      [HostBacking] is what they use of the backing. [content] is the flat array an
      allocation stands for, and every operation is specified on it.
    - [HostMaps]: HostMaps, host_pieces, lookup_host and its per-thread cache.
    - [BrLock]: [Epoch], the stamps and the ring of freed bases; [Lock], the
      reader/writer protocol as a step relation over its atomics.
    - [MemState], [MemTable]: the members of MemoryManager ([MM]), alloc, free, the
      quarantine, the device heap, resolve.
    - [Vmm], [VmmRange]: reserve, handles, map, unmap, set_access.
    - [Resolve]: what resolve answers for every address.
    - [Lookup]: LookupMemory and that it never changes an answer
      ([OrdinaryLookup], [OrdinaryLookupOk] are the interface the accesses use).
    - [Slots]: the table of slots in which a thread finds its LookupMemory, as a
      step relation of all threads.
    - [Access]: read, write, fill, load_scalar, store_scalar, load_quad,
      store_quad. Their specification is on cells (a location and an offset), so
      that a handle mapped twice is one memory.
    - [Batch], [Strided], [Runs], [Copy], [Rmw]: a warp's accesses at once, strided
      stores, host batches, runs, copies between devices, read-modify-writes
      (scalar, batched, lock-free against other threads), fields and texels.
    - [Life]: free_all, share, adopt, abandon, unlink_shared, export_handle,
      import_handle.
    - [Calls]: sequences of calls and what a call may assume; [Samples]: small
      concrete devices for the instances.
    - [Contract], [Traffic]: the properties, each with an instance.

    Memory behind the device:
    - [HostGuard]: look_at_host, the files it reads and the verdict.
    - [Backing]: acquire, release (in its phases), configure, pool, arenas, spill
      file, forked children. [BackingInv]: holders, the invariant, every step;
      [BackingSafe]: what a caller is promised.

    Running kernels:
    - [Alu]: the arithmetic of one lane, and what it is to compute on integers.
    - [Isa]: the instructions (include/vgpu/ptx/ast.hpp) and build_micro.
    - [Warp]: struct Warp and struct Path, the handlers of the three tiers,
      select_path, branches, returns, bar.sync, run_micro_batch and
      run_warp_until_yield.
    - [Thread]: one thread of a function on its own, a scalar machine ([tstep]): the
      specification of the rest.
    - [Lanes], [Handlers]: masks and loops over lanes; every general handler does to
      each lane what the scalar machine does to its thread.
    - [Tiers]: a faster tier does what the general handler does, or declines having
      changed nothing.
    - [Simt]: the invariant of a warp (each thread is on one path or has exited),
      what follows from a lane's own steps, branches and barriers; [Turn]: turns,
      and that they end; [Passes]: batches are as many passes of the plain loop.
    - [Block]: setup_block, step_block and run_block over any scheduler (the class
      [Picker], of which the three of [Scheduler] are instances); [Spmd]: the
      properties, and a kernel that diverges and meets at a barrier.

    Around it:
    - [Scheduler]: SplitMix64, RoundRobin, RandomOrder, Adversarial,
      make_scheduler, scheduler_from_env.
    - [Faults]: the plans of src/core/faults.cpp.
    - [Visible]: cuda_visible_devices and the UUIDs of describe_device.
    - [Yamlish]: the parser of device profiles (src/core/yamlish.cpp).
    - [Codec]: the sink, the hash table and the match searches of the codecs
      (nvidia/src/nvcomp_codecs.cpp); [Lz4] and [Snappy]: their compressors and
      decoders, and the two formats as relations.

    ** How the code is rendered

    A uint64_t is a [Z] with [u64] where the source can wrap; a std::map is a
    [gmap]; an exception is [Exn] with the state the call leaves behind; reading
    through a null or dangling pointer, or a loop that does not end, is [Undef],
    and the theorems exclude it. Message texts are left out: an error is its code.
    Code outside the repository (the kernel's mmap and fallocate, the files under
    /proc and /sys, other threads' stores) is an argument of the calls, with what
    is relied on as a hypothesis ([BackingInv.os_ok]: a mapping is memory nothing
    else is in).

    ** What is shown

    - Tables: no sequence of calls breaks them or is undefined; ranges never
      overlap and are never reused; accounting is exact; freed memory is diagnosed
      for ever; an access that resolves stays inside one object.
    - Bytes: copies, fills and stores change exactly the cells they name and are
      read back; failures leave a prefix.
    - Equivalence: each batched or run access is the scalar accesses it stands for,
      or declines having changed nothing; a lock-free atomic is one step of the
      word among other threads' stores; the lookup memory answers as the table,
      and no two threads share one.
    - The lock excludes and does not deadlock; a trusted epoch has seen no free of
      the allocation it remembers.
    - The backing hands each chunk to one holder, zero, under any interleaving of
      acquisitions, releases, forks and reconfigurations; its counters, pool and
      RAM limit are kept; its calls end.
    - Executor: the arithmetic is PTX's at every width and on every input; a block
      leaves each thread what the scalar machine computes for it alone, whatever the
      scheduler, the tiers, the divergence and the contents of reused buffers; turns
      and blocks end, and go wrong in five ways only; a barrier lets nobody through
      early.
    - Schedulers: bounded waiting, unbiased draws that end, maximal switching.
    - Selections of faults and of devices mean what they spell; a printed profile
      is parsed back to the same document.
    - Codecs: a decoder accepts exactly its format, inside its buffers; what is
      compressed fits the bound and is decompressed to itself.
    - Flaws found are theorems too: a kernel's store ignores a read-only mapping,
      set_access is not atomic, still_valid is one too lax, an ambiguous UUID
      prefix selects a device.

    ** Bounds and fuel

    Loops over memory recurse on the number of chunks or lanes. Where a loop has
    fuel it is shown to be enough: cgroup_walk takes as many steps as the path has
    characters ([HostGuard.look_at_host_total]), SplitMix64's below one more than
    its bound ([Scheduler.draw_some]), a profile's scalar one more than its length
    ([Yamlish.parse_scalar_total]), the codecs' loops
    one more than the bytes left; text scanners recurse on the text. A turn's loop has
    fuel for every step left in the warp's budget and every path that may retire in
    between ([Warp.loop_fuel], [Turn.turn_ok]); a batch, for the steps left; a block's
    steps are bounded by the weight of its warps ([Block.block_weight]). Address space and counters are taken not to be used up where a theorem says so
    ([va_room], [frees_left], [counts_fit]).

    ** Not modelled

    Of the PTX interpreter: memory, floating-point, conversion, shuffle, vote, matrix,
    call and asynchronous instructions, counted barriers and clusters, the gate at a
    warp's first store, the SIMD kernels of the fast paths (the portable loops are
    modelled), injected arithmetic faults, progress reports and statistics. The
    executors of the other instruction sets, grids and their worker pool, the PTX parser
    and the SASS front end, the DEFLATE, gzip and Zstandard codecs and the vendors' API
    shims; within the memory manager
    interned strings, statistics (resident_bytes, live_ranges) and the trace and
    usage hooks; the build for the address sanitizer. Weak memory: atomics are interleaved as single steps. *)

From stdpp Require Export prelude base gmap list numbers fin_maps.
From Stdlib Require Export ZArith Lia.

#[global] Open Scope Z_scope.

Declare Scope vgpu_scope.
Delimit Scope vgpu_scope with vgpu.
#[global] Open Scope vgpu_scope.

Create HintDb vgpu.

(** ** Machine integers

    A C++ [uint64_t] is a [Z] in [0, 2^64); [u64] is the wrap-around every
    unsigned operation of the source applies. *)

Definition u64_max : Z := 18446744073709551615.
Definition u64 (x : Z) : Z := x mod 18446744073709551616.
Definition u32 (x : Z) : Z := x mod 4294967296.
Definition is_u64 (x : Z) : Prop := 0 ≤ x < 18446744073709551616.
Definition is_byte (b : Z) : Prop := 0 ≤ b < 256.

Lemma u64_small x : is_u64 x → u64 x = x.
Proof. intros H. by apply Z.mod_small. Qed.

Lemma u64_range x : is_u64 (u64 x).
Proof. apply Z.mod_pos_bound. lia. Qed.

Lemma u64_wrap_add x y : is_u64 x → is_u64 y →
  u64 (x + y) = (if x + y <=? u64_max then x + y else x + y - 18446744073709551616).
Proof.
  unfold u64, is_u64, u64_max. intros. destruct (Z.leb_spec (x + y) 18446744073709551615).
  - apply Z.mod_small. lia.
  - symmetry. apply (Z.mod_unique_pos _ _ 1); lia.
Qed.

Lemma u64_wrap_sub x y : is_u64 x → is_u64 y →
  u64 (x - y) = (if y <=? x then x - y else x - y + 18446744073709551616).
Proof.
  unfold u64, is_u64. intros. destruct (Z.leb_spec y x).
  - apply Z.mod_small. lia.
  - symmetry. apply (Z.mod_unique_pos _ _ (-1)); lia.
Qed.

Lemma u64_neg x : - 18446744073709551616 ≤ x < 0 → u64 x = x + 18446744073709551616.
Proof. intros. symmetry. apply (Z.mod_unique_pos _ _ (-1)); lia. Qed.

Lemma u64_add_mul x y k : u64 (x + u64 y * k) = u64 (x + y * k).
Proof. unfold u64. rewrite <- Zplus_mod_idemp_r, Zmult_mod_idemp_l, Zplus_mod_idemp_r. done. Qed.

#[export] Hint Resolve u64_range : vgpu.

(** The allocator's rounding, [(v + to - 1) / to * to], without overflow. *)
Definition round_up (v to : Z) : Z := (v + to - 1) / to * to.

Lemma round_up_spec v to : 0 < to →
  v ≤ round_up v to < v + to ∧ round_up v to mod to = 0.
Proof.
  intros Ht. unfold round_up.
  pose proof (Z.mod_pos_bound (v + to - 1) to Ht).
  pose proof (Z.div_mod (v + to - 1) to ltac:(lia)).
  split; [nia|]. apply Z_mod_mult.
Qed.

(** It is the least multiple not below. *)
Lemma round_up_least v to x : 0 < to → (to | x) → v ≤ x → round_up v to ≤ x.
Proof.
  intros Ht [q ->] Hv. unfold round_up. apply Z.mul_le_mono_nonneg_r; [lia|].
  enough ((v + to - 1) / to < q + 1) by lia. apply Z.div_lt_upper_bound; lia.
Qed.

Lemma round_up_divide v to : (to | round_up v to).
Proof. unfold round_up. apply Z.divide_factor_r. Qed.

(** A power of two divides every larger power of two. *)
Lemma pow2_le_divide a b : 0 ≤ a ≤ b → (2 ^ a | 2 ^ b).
Proof.
  intros. exists (2 ^ (b - a)). rewrite <- Z.pow_add_r by lia. f_equal. lia.
Qed.

(** [x & (size - 1)] for a power of two is the remainder. *)
Lemma land_pow2_mod x k : 0 ≤ k → Z.land x (2 ^ k - 1) = x mod 2 ^ k.
Proof. intros. rewrite <- Z.land_ones by lia. f_equal. rewrite Z.ones_equiv. lia. Qed.
Lemma lor_shiftl_add v x k : 0 ≤ k → 0 ≤ v < 2 ^ k → Z.lor v (Z.shiftl x k) = v + 2 ^ k * x.
Proof.
  intros Hk Hv. rewrite (Z.mul_comm (2 ^ k)), <- Z.shiftl_mul_pow2 by lia.
  rewrite <- Z.lxor_lor, <- Z.add_nocarry_lxor; [done|..];
  (apply Z.bits_inj'; intros i Hi; rewrite Z.land_spec, Z.bits_0;
   destruct (Z.lt_ge_cases i k);
   [rewrite Z.shiftl_spec_low by lia; apply andb_false_r|
    rewrite <- (Z.mod_small v (2 ^ k)) by lia;
    rewrite Z.mod_pow2_bits_high by lia; done]).
Qed.

(** ** The error model (include/vgpu/error.hpp) *)

Inductive Err :=
  | UnknownGpu | ProfileParse | InvalidValue | OutOfMemory | InvalidPointer
  | UseAfterFree | DoubleFree | InvalidFree | OutOfBounds | MisalignedAccess
  | PtxParse | UnsupportedPtx | UninitializedRegister | DataRace | Trap
  | IllegalInstruction | DeviceAssert | LaunchConfig | LaunchResources
  | LaunchCluster | ExecLimit | EccUncorrectable | DeviceLost | NotFound
  | Unsupported | Internal.

#[global] Instance Err_eq_dec : EqDecision Err.
Proof. solve_decision. Defined.

(** What a call can throw: a [vgpu::Error], by its code, or the host's
    [std::bad_alloc]. Message texts are not modelled. *)
Inductive exn := Error (e : Err) | bad_alloc.

#[global] Instance exn_eq_dec : EqDecision exn.
Proof. solve_decision. Defined.

(** ** Stateful code that may throw

    A call maps the state to a returned value and the new state, to an
    exception and the state it leaves behind, or to undefined behaviour (an
    access outside the memory the program owns, or a loop that does not end). *)

Inductive outcome (S A : Type) :=
  | Ret (a : A) (s : S)
  | Exn (e : exn) (s : S)
  | Undef.
Arguments Ret {S A} a s.
Arguments Exn {S A} e s.
Arguments Undef {S A}.

Definition M (S A : Type) : Type := S → outcome S A.

Definition ret {S A} (a : A) : M S A := λ s, Ret a s.
Definition throw {S A} (e : Err) : M S A := λ s, Exn (Error e) s.
Definition undef {S A} : M S A := λ _, Undef.
Definition get {S} : M S S := λ s, Ret s s.
Definition put {S} (s : S) : M S unit := λ _, Ret tt s.
Definition modify {S} (f : S → S) : M S unit := λ s, Ret tt (f s).
Definition bind {S A B} (m : M S A) (k : A → M S B) : M S B := λ s,
  match m s with
  | Ret a s' => k a s'
  | Exn e s' => Exn e s'
  | Undef => Undef
  end.

Notation "x <- m ;; k" := (bind m (λ x, k))
  (at level 100, m at next level, right associativity) : vgpu_scope.
Notation "m ;;; k" := (bind m (λ _, k))
  (at level 100, right associativity) : vgpu_scope.

Definition when {S} (b : bool) (m : M S unit) : M S unit :=
  if b then m else ret tt.

(** The weakest precondition of an outcome: it is not undefined, a returned
    value satisfies [Q], a thrown exception satisfies [E]. *)
Definition wp {S A} (o : outcome S A) (Q : A → S → Prop) (E : exn → S → Prop) : Prop :=
  match o with
  | Ret a s => Q a s
  | Exn e s => E e s
  | Undef => False
  end.

Lemma wp_bind {S A B} (m : M S A) (k : A → M S B) s Q E :
  wp (m s) (λ a s', wp (k a s') Q E) E → wp (bind m k s) Q E.
Proof. unfold bind. by destruct (m s). Qed.

Lemma wp_mono {S A} (o : outcome S A) (Q Q' : A → S → Prop) (E E' : exn → S → Prop) :
  wp o Q E → (∀ a s, Q a s → Q' a s) → (∀ e s, E e s → E' e s) → wp o Q' E'.
Proof. destruct o; simpl; auto. Qed.

Lemma wp_conj {S A} (o : outcome S A) (Q Q' : A → S → Prop) (E E' : exn → S → Prop) :
  wp o Q E → wp o Q' E' →
  wp o (λ a s, Q a s ∧ Q' a s) (λ e s, E e s ∧ E' e s).
Proof. destruct o; simpl; auto. Qed.

Lemma bind_Ret_inv {S A B} (m : M S A) (k : A → M S B) s b s' :
  bind m k s = Ret b s' → ∃ a s1, m s = Ret a s1 ∧ k a s1 = Ret b s'.
Proof. unfold bind. destruct (m s) as [a s1| |]; [|done|done]. by exists a, s1. Qed.

Lemma bind_Ret {S A B} (m : M S A) (k : A → M S B) s a s' :
  m s = Ret a s' → bind m k s = k a s'.
Proof. unfold bind. by intros ->. Qed.

Lemma bind_Exn {S A B} (m : M S A) (k : A → M S B) s e s' :
  m s = Exn e s' → bind m k s = Exn e s'.
Proof. unfold bind. by intros ->. Qed.

(** Splits the conditionals of a goal, with their equations as propositions. *)
Ltac zify_bool :=
  repeat match goal with
  | H : (_ <=? _) = true |- _ => apply Z.leb_le in H
  | H : (_ <=? _) = false |- _ => apply Z.leb_gt in H
  | H : (_ <? _) = true |- _ => apply Z.ltb_lt in H
  | H : (_ <? _) = false |- _ => apply Z.ltb_ge in H
  | H : (_ =? _) = true |- _ => apply Z.eqb_eq in H
  | H : (_ =? _) = false |- _ => apply Z.eqb_neq in H
  | H : (_ && _) = true |- _ => apply andb_true_iff in H as [? ?]
  | H : (_ || _) = false |- _ => apply orb_false_iff in H as [? ?]
  | H : negb _ = true |- _ => apply negb_true_iff in H
  | H : negb _ = false |- _ => apply negb_false_iff in H
  end.

Ltac case_if :=
  match goal with
  | |- context [if ?b then _ else _] =>
      lazymatch type of b with
      | bool => destruct b eqn:?; zify_bool
      | _ => destruct b
      end
  end.

(** Case analysis on interval tests: what is left is linear arithmetic. *)
Ltac bool_cases :=
  repeat case_if;
  repeat (match goal with
    | H : _ && _ = false |- _ => apply andb_false_iff in H as [?|?]
    | H : _ || _ = true |- _ => apply orb_true_iff in H as [?|?]
    end; zify_bool);
  try discriminate; try lia.

(** Runs one monadic step of the goal. *)
Ltac wp_step :=
  match goal with
  | |- wp (bind _ _ _) _ _ => apply wp_bind
  | |- wp (ret _ _) _ _ => unfold ret; cbn [wp]
  | |- wp (throw _ _) _ _ => unfold throw; cbn [wp]
  | |- wp (get _) _ _ => unfold get; cbn [wp]
  | |- wp (put _ _) _ _ => unfold put; cbn [wp]
  | |- wp (modify _ _) _ _ => unfold modify; cbn [wp]
  | |- wp (when _ _ _) _ _ => unfold when
  | |- wp (Ret _ _) _ _ => cbn [wp]
  | |- wp (Exn _ _) _ _ => cbn [wp]
  end.

(** ** Ranges as lists *)

Lemma fmap_seqZ_ext {A} (f g : Z → A) o o' n :
  (∀ i, 0 ≤ i < n → f (o + i) = g (o' + i)) → f <$> seqZ o n = g <$> seqZ o' n.
Proof.
  intros Hfg. apply list_eq. intros i. rewrite !list_lookup_fmap.
  destruct (Z.lt_ge_cases (Z.of_nat i) n).
  - rewrite !lookup_seqZ_lt by lia. simpl. f_equal. apply Hfg. lia.
  - rewrite !lookup_seqZ_ge by lia. done.
Qed.

Lemma replicate_seqZ {A} (x : A) n : replicate (Z.to_nat n) x = (λ _, x) <$> seqZ 0 n.
Proof.
  apply list_eq. intros i. rewrite list_lookup_fmap.
  destruct (Z.lt_ge_cases (Z.of_nat i) n).
  - rewrite lookup_replicate_2, lookup_seqZ_lt by lia. done.
  - rewrite lookup_seqZ_ge by lia. apply lookup_replicate_None. lia.
Qed.

(** ** Ordered maps

    [std::map<uint64_t, T>] is a [gmap Z T]; the two ordered queries the
    memory manager makes are the entry before [upper_bound(k)] and the entry at
    [lower_bound(k)]. *)

Section ordered.
Context {A : Type}.
Implicit Types m : gmap Z A.

(** [auto up = m.upper_bound(k); if (up != m.begin()) std::prev(up)] *)
Definition floor_entry m (k : Z) : option (Z * A) :=
  map_fold (λ i x acc,
    if i <=? k then
      match acc with
      | Some (j, _) => if j <? i then Some (i, x) else acc
      | None => Some (i, x)
      end
    else acc) None m.

(** [m.lower_bound(k)] *)
Definition ceil_entry m (k : Z) : option (Z * A) :=
  map_fold (λ i x acc,
    if k <=? i then
      match acc with
      | Some (j, _) => if i <? j then Some (i, x) else acc
      | None => Some (i, x)
      end
    else acc) None m.

Definition is_floor m (k : Z) (r : option (Z * A)) : Prop :=
  match r with
  | Some (i, x) => m !! i = Some x ∧ i ≤ k ∧ ∀ j, is_Some (m !! j) → j ≤ k → j ≤ i
  | None => ∀ j, is_Some (m !! j) → k < j
  end.

Definition is_ceil m (k : Z) (r : option (Z * A)) : Prop :=
  match r with
  | Some (i, x) => m !! i = Some x ∧ k ≤ i ∧ ∀ j, is_Some (m !! j) → k ≤ j → i ≤ j
  | None => ∀ j, is_Some (m !! j) → j < k
  end.

Ltac case_lookup :=
  match goal with
  | |- context [<[?i:=_]> _ !! ?j] =>
      destruct (decide (i = j)) as [->|];
      [rewrite lookup_insert_eq | rewrite lookup_insert_ne by done]
  | H : context [<[?i:=_]> _ !! ?j] |- _ =>
      destruct (decide (i = j)) as [->|];
      [rewrite lookup_insert_eq in H | rewrite lookup_insert_ne in H by done]
  end.

Lemma floor_entry_spec m k : is_floor m k (floor_entry m k).
Proof.
  unfold floor_entry. apply (map_fold_weak_ind (λ r m, is_floor m k r)).
  - intros j [? H]. by rewrite lookup_empty in H.
  - intros i x m' [[j y]|] Hi; simpl.
    + intros (Hj & Hle & Hmax).
      assert (i ≠ j) by congruence.
      destruct (Z.leb_spec i k); [destruct (Z.ltb_spec j i)|]; simpl;
        rewrite ?lookup_insert_eq, ?lookup_insert_ne by done;
        (split; [done|split; [lia|]]); intros l Hl ?; case_lookup; try lia;
        specialize (Hmax l Hl); lia.
    + intros Hnone. destruct (Z.leb_spec i k); simpl.
      * rewrite lookup_insert_eq. split; [done|split; [lia|]].
        intros l Hl ?; case_lookup; [lia|]. specialize (Hnone l Hl). lia.
      * intros l Hl; case_lookup; [lia|]. by apply Hnone.
Qed.

Lemma ceil_entry_spec m k : is_ceil m k (ceil_entry m k).
Proof.
  unfold ceil_entry. apply (map_fold_weak_ind (λ r m, is_ceil m k r)).
  - intros j [? H]. by rewrite lookup_empty in H.
  - intros i x m' [[j y]|] Hi; simpl.
    + intros (Hj & Hle & Hmax).
      assert (i ≠ j) by congruence.
      destruct (Z.leb_spec k i); [destruct (Z.ltb_spec i j)|]; simpl;
        rewrite ?lookup_insert_eq, ?lookup_insert_ne by done;
        (split; [done|split; [lia|]]); intros l Hl ?; case_lookup; try lia;
        specialize (Hmax l Hl); lia.
    + intros Hnone. destruct (Z.leb_spec k i); simpl.
      * rewrite lookup_insert_eq. split; [done|split; [lia|]].
        intros l Hl ?; case_lookup; [lia|]. specialize (Hnone l Hl). lia.
      * intros l Hl; case_lookup; [lia|]. by apply Hnone.
Qed.

(** The floor is unique. *)
Lemma floor_entry_eq m k r : is_floor m k r → floor_entry m k = r.
Proof.
  intros Hr. pose proof (floor_entry_spec m k) as Hs.
  destruct (floor_entry m k) as [[i x]|], r as [[j y]|]; simpl in *; try done.
  - destruct Hr as (Hj & ? & Hj'), Hs as (Hi & ? & Hi').
    assert (i = j) as -> by
      (apply Z.le_antisymm; [apply Hj' | apply Hi']; eauto).
    by simplify_eq.
  - destruct Hs as (Hi & ? & _). specialize (Hr i ltac:(eauto)). lia.
  - destruct Hr as (Hi & ? & _). specialize (Hs j ltac:(eauto)). lia.
Qed.
End ordered.

(** ** Sums over tables *)

Definition map_sum {A} (f : A → Z) (t : gmap Z A) : Z := map_fold (λ _ x n, f x + n) 0 t.

Section sums.
Context {A : Type} (f : A → Z).

Lemma map_sum_empty : map_sum f ∅ = 0.
Proof. apply map_fold_empty. Qed.

Lemma map_sum_insert i x (t : gmap Z A) :
  t !! i = None → map_sum f (<[i:=x]> t) = f x + map_sum f t.
Proof. intros. unfold map_sum. rewrite map_fold_insert_L; [done|lia|done]. Qed.

Lemma map_sum_delete i x (t : gmap Z A) :
  t !! i = Some x → map_sum f t = f x + map_sum f (delete i t).
Proof. intros. unfold map_sum. by rewrite (map_fold_delete_L _ _ i x) by (done || lia). Qed.

Lemma map_sum_nonneg (t : gmap Z A) :
  (∀ i x, t !! i = Some x → 0 ≤ f x) → 0 ≤ map_sum f t.
Proof.
  induction t as [|i x t Hi IH] using map_ind; intros Hf; [by rewrite map_sum_empty|].
  rewrite map_sum_insert by done.
  pose proof (Hf i x (lookup_insert_eq _ _ _)).
  assert (0 ≤ map_sum f t).
  { apply IH. intros j y Hj. apply (Hf j). rewrite lookup_insert_ne; congruence. }
  lia.
Qed.

Lemma map_sum_replace i x y (t : gmap Z A) :
  t !! i = Some x → map_sum f (<[i:=y]> t) = map_sum f t - f x + f y.
Proof.
  intros Hi. rewrite <- insert_delete_eq. rewrite map_sum_insert by apply lookup_delete_eq.
  rewrite (map_sum_delete i x t) by done. lia.
Qed.

Lemma map_sum_update i x y (t : gmap Z A) :
  t !! i = Some x → f y = f x → map_sum f (<[i:=y]> t) = map_sum f t.
Proof. intros Hi Hf. rewrite (map_sum_replace i x) by done. lia. Qed.

Lemma map_sum_pos (t : gmap Z A) :
  (∀ i x, t !! i = Some x → 0 ≤ f x) → 0 < map_sum f t → ∃ i x, t !! i = Some x ∧ 0 < f x.
Proof.
  induction t as [|i x t Hi IH] using map_ind; intros Hf; [rewrite map_sum_empty; lia|].
  rewrite map_sum_insert by done. intros Hpos. destruct (decide (0 < f x)).
  - exists i, x. by rewrite lookup_insert_eq.
  - destruct IH as (j & y & Hj & Hy); [|lia|].
    + intros j y Hj. apply (Hf j). rewrite lookup_insert_ne; congruence.
    + exists j, y. rewrite lookup_insert_ne; [done|congruence].
Qed.

Lemma map_sum_ge (t : gmap Z A) i x :
  (∀ i x, t !! i = Some x → 0 ≤ f x) → t !! i = Some x → f x ≤ map_sum f t.
Proof.
  intros Hf Hi. rewrite (map_sum_delete i x) by done.
  assert (0 ≤ map_sum f (delete i t)); [|lia]. apply map_sum_nonneg.
  intros j y [_ Hj]%lookup_delete_Some. by apply (Hf j).
Qed.
End sums.
