(* ===== verification/Text.v ===== *)
(** * Text: C strings, numbers and lists

    The parts of the C library that the readers of files and variables use
    (strtoull, isspace, strings that end at a NUL), the items of a list with
    commas, and decimal printing, with what reading back a printed list gives. *)

From stdpp Require Import strings.
From Stdlib Require Import Ascii String.
From S2P Require Import Prelude.

Local Open Scope string_scope.
#[local] Open Scope Z_scope.

(** ** The C library *)

Definition chr (c : ascii) (n : N) : bool := N.eqb (N_of_ascii c) n.
Definition is_digit (c : ascii) : bool := N.leb 48 (N_of_ascii c) && N.leb (N_of_ascii c) 57.
Definition digit (c : ascii) : Z := Z.of_N (N_of_ascii c) - 48.
Definition isspace (c : ascii) : bool := chr c 32 || (N.leb 9 (N_of_ascii c) && N.leb (N_of_ascii c) 13).

(** Skips the characters that satisfy [p]. *)
Fixpoint skip_while (p : ascii → bool) (s : string) : string :=
  match s with
  | EmptyString => ""
  | String c s' => if p c then skip_while p s' else s
  end.

(** A C string ends at the first NUL. *)
Fixpoint c_str (s : string) : string :=
  match s with
  | EmptyString => ""
  | String c s' => if chr c 0 then "" else String c (c_str s')
  end.

(** [strchr(s, '\n') + 1], or null. *)
Fixpoint after_newline (s : string) : option string :=
  match s with
  | EmptyString => None
  | String c s' => if chr c 10 then Some s' else after_newline s'
  end.

(** The digits of strtoull. *)
Fixpoint digits (s : string) (v : Z) : Z * string :=
  match s with
  | EmptyString => (v, "")
  | String c s' => if is_digit c then digits s' (10 * v + digit c) else (v, s)
  end.

(** [strtoull(p, &end, 10)]: too large a number is ULLONG_MAX, whatever its sign;
    [None] when no digit is found ([end == p]). *)
Definition strtoull (p : string) : option (Z * string) :=
  let s := skip_while isspace p in
  let '(neg, s) := match s with
                   | String c s' => if chr c 45 then (true, s') else if chr c 43 then (false, s') else (false, s)
                   | EmptyString => (false, s)
                   end in
  match s with
  | String c _ =>
      if is_digit c then
        let '(v, rest) := digits s 0 in Some (if u64_max <? v then u64_max else if neg then u64 (- v) else v, rest)
      else None
  | EmptyString => None
  end.

(** The parts of a text between separators (a character's code), [item] the part of
    the current one already read. *)
Fixpoint fields (sep : N) (v item : string) : list string :=
  match v with
  | EmptyString => [item]
  | String c v' => if chr c sep then item :: fields sep v' "" else fields sep v' (item +:+ String c "")
  end.
(** A list with commas. *)
Definition items : string → string → list string := fields 44.

(** Drops the characters that satisfy [p] from the end. *)
Fixpoint trim_right (p : ascii → bool) (s : string) : string :=
  match s with
  | EmptyString => ""
  | String c s' =>
      match trim_right p s' with
      | EmptyString => if p c then "" else String c ""
      | r => String c r
      end
  end.
Definition trim (p : ascii → bool) (s : string) : string := trim_right p (skip_while p s).

(** Decimal digits, and the number in front of [rest]. *)
Definition digit_char (d : Z) : ascii := ascii_of_N (Z.to_N (48 + d)).
Fixpoint show (fuel : nat) (n : Z) (rest : string) : string :=
  match fuel with
  | O => rest
  | S fuel' =>
      if n <? 10 then String (digit_char n) rest else show fuel' (n / 10) (String (digit_char (n mod 10)) rest)
  end.
Definition show_u64 (n : Z) : string := show 20 n "".
Fixpoint join_with (sep : string) (l : list string) : string :=
  match l with
  | [] => ""
  | [x] => x
  | x :: l' => x +:+ sep +:+ join_with sep l'
  end.
Definition join : list string → string := join_with ",".

(** ** Strings of one kind of characters *)

Fixpoint every (P : ascii → Prop) (s : string) : Prop :=
  match s with EmptyString => True | String c s' => P c ∧ every P s' end.
Definition plain (c : ascii) : Prop := is_digit c = true.
Definition no_comma (c : ascii) : Prop := chr c 44 = false.
Definition no_nul (c : ascii) : Prop := chr c 0 = false.

Lemma every_impl (P Q : ascii → Prop) s : every P s → (∀ c, P c → Q c) → every Q s.
Proof. intros Hs HPQ. induction s as [|c s IH]; [done|]. destruct Hs. split; auto. Qed.
Lemma every_app P a b : every P (a +:+ b) ↔ every P a ∧ every P b.
Proof.
  induction a as [|c a IH]; [cbn; tauto|]. change (String c a +:+ b) with (String c (a +:+ b)). cbn [every]. tauto.
Qed.

Lemma append_assoc (a b c : string) : (a +:+ b) +:+ c = a +:+ (b +:+ c).
Proof. induction a as [|x a IH]; [done|]. exact (f_equal (String x) IH). Qed.
Lemma append_nil (a : string) : a +:+ "" = a.
Proof. induction a as [|x a IH]; [done|]. exact (f_equal (String x) IH). Qed.

Lemma length_append (a b : string) : String.length (a +:+ b) = (String.length a + String.length b)%nat.
Proof. induction a as [|c a IH]; [done|]. exact (f_equal S IH). Qed.

Lemma plain_not c k : plain c → (k < 48)%N → chr c k = false.
Proof.
  unfold plain, is_digit, chr. intros [H _]%andb_true_iff Hk. apply N.leb_le in H. apply N.eqb_neq. lia.
Qed.
Lemma plain_no_comma s : every plain s → every no_comma s.
Proof. intros Hs. eapply every_impl; [done|]. intros c Hc. by apply plain_not. Qed.
Lemma plain_not_space c : plain c → isspace c = false.
Proof.
  intros Hc. unfold isspace. rewrite plain_not by (done || lia). cbn. apply andb_false_iff. right. unfold plain, is_digit in Hc.
  apply andb_true_iff in Hc as [Hc _]. apply N.leb_le in Hc. apply N.leb_gt. lia.
Qed.

Lemma c_str_no_nul s : every no_nul s → c_str s = s.
Proof. induction s as [|c s IH]; [done|]. intros [Hc Hs]. cbn [c_str]. rewrite Hc. by rewrite IH. Qed.

(** ** Numbers in decimal *)

Lemma digit_char_digit d : 0 ≤ d < 10 → plain (digit_char d) ∧ digit (digit_char d) = d.
Proof.
  intros Hd. unfold plain, is_digit, digit, digit_char. rewrite N_ascii_embedding by lia.
  split; [apply andb_true_iff; split; apply N.leb_le; lia|lia].
Qed.

Lemma show_digits fuel n rest v : 0 ≤ n < 10 ^ Z.of_nat fuel → (0 < fuel)%nat →
  ∃ k, 0 ≤ k ∧ digits (show fuel n rest) v = digits rest (v * 10 ^ k + n).
Proof.
  revert n rest. induction fuel as [|fuel IH]; intros n rest Hn Hf; [lia|]. cbn [show].
  destruct (Z.ltb_spec n 10) as [Hlt|Hge].
  - destruct (digit_char_digit n ltac:(lia)) as [H1 H2]. exists 1. split; [lia|]. cbn [digits]. rewrite H1, H2. f_equal. lia.
  - destruct (digit_char_digit (n mod 10)) as [H1 H2]; [apply Z.mod_pos_bound; lia|].
    assert (0 < Z.of_nat fuel) by (destruct fuel; [cbn in Hn; lia|lia]).
    destruct (IH (n / 10) (String (digit_char (n mod 10)) rest)) as (k & Hk & ->); [|lia|].
    { split; [apply Z.div_pos; lia|]. apply Z.div_lt_upper_bound; [lia|]. rewrite Nat2Z.inj_succ, Z.pow_succ_r in Hn by lia. lia. }
    cbn [digits]. rewrite H1, H2. pose proof (Z.div_mod n 10 ltac:(lia)). exists (Z.succ k). split; [lia|]. f_equal.
    rewrite Z.pow_succ_r by done. lia.
Qed.

Lemma show_plain fuel n rest : 0 ≤ n → every plain rest → every plain (show fuel n rest).
Proof.
  revert n rest. induction fuel as [|fuel IH]; intros n rest Hn Hr; cbn [show]; [done|].
  destruct (Z.ltb_spec n 10) as [Hlt|Hge].
  - split; [|done]. apply digit_char_digit. lia.
  - apply IH; [apply Z.div_pos; lia|]. split; [|done]. apply digit_char_digit. apply Z.mod_pos_bound. lia.
Qed.

Lemma show_not_empty fuel n rest : (0 < fuel)%nat ∨ rest ≠ "" → show fuel n rest ≠ "".
Proof.
  revert n rest. induction fuel as [|fuel IH]; intros n rest H; cbn [show]; [destruct H; [lia|done]|].
  case_if; [done|]. apply IH. by right.
Qed.

Lemma show_u64_digits n : 0 ≤ n ≤ u64_max → digits (show_u64 n) 0 = (n, "").
Proof.
  intros Hn. destruct (show_digits 20 n "" 0) as (k & _ & E); [unfold u64_max in Hn; cbn; lia|lia|].
  unfold show_u64. rewrite E. cbn [digits]. replace (0 * 10 ^ k + n) with n by lia. done.
Qed.

Lemma show_u64_head n : 0 ≤ n → every plain (show_u64 n) ∧ ∃ c s, show_u64 n = String c s ∧ plain c.
Proof.
  intros Hn. pose proof (show_plain 20 n "" Hn I) as Hp. pose proof (show_not_empty 20 n "" ltac:(left; lia)) as Hne.
  unfold show_u64. split; [done|]. destruct (show 20 n "") as [|c s]; [done|]. exists c, s. split; [done|apply Hp].
Qed.

(** strtoull reads back what was printed. *)
Lemma strtoull_show n : 0 ≤ n ≤ u64_max → strtoull (show_u64 n) = Some (n, "").
Proof.
  intros Hn. pose proof (show_u64_digits n Hn) as E. destruct (show_u64_head n ltac:(lia)) as (_ & c & s & Es & Hc).
  rewrite Es in *. unfold strtoull. cbn [skip_while]. rewrite plain_not_space by done. rewrite !plain_not by (done || lia).
  rewrite Hc, E. destruct (Z.ltb_spec u64_max n); [lia|done].
Qed.

(** ** Lists with separators *)

Definition without (sep : N) (c : ascii) : Prop := chr c sep = false.

Lemma fields_skip sep s rest item : every (without sep) s → fields sep (s +:+ rest) item = fields sep rest (item +:+ s).
Proof.
  revert item. induction s as [|c s IH]; intros item Hs; [by rewrite append_nil|]. destruct Hs as [Hc Hs].
  change (String c s +:+ rest) with (String c (s +:+ rest)). cbn [fields].
  rewrite Hc. rewrite IH by done. by rewrite append_assoc.
Qed.

Lemma fields_join sep ch l : chr ch sep = true → l ≠ [] → Forall (every (without sep)) l →
  fields sep (join_with (String ch "") l) "" = l.
Proof.
  intros Hch Hne Hl. induction Hl as [|x l Hx Hl IH]; [done|]. destruct l as [|y l].
  - cbn [join_with]. rewrite <- (append_nil x) at 1. by rewrite fields_skip.
  - change (join_with (String ch "") (x :: y :: l)) with (x +:+ String ch (join_with (String ch "") (y :: l))).
    rewrite fields_skip by done. cbn [fields]. rewrite Hch. by rewrite IH.
Qed.

Lemma items_join l : l ≠ [] → Forall (every no_comma) l → items (join l) "" = l.
Proof. apply (fields_join 44 ","). reflexivity. Qed.

Lemma join_every P sep l : every P sep → Forall (every P) l → every P (join_with sep l).
Proof.
  intros Hc. induction 1 as [|x l Hx Hl IH]; [done|]. destruct l as [|y l]; [done|].
  change (join_with sep (x :: y :: l)) with (x +:+ sep +:+ join_with sep (y :: l)). rewrite !every_app. done.
Qed.

Lemma join_head (P : ascii → Prop) sep x l c s : x = String c s → P c → ∃ c' s', join_with sep (x :: l) = String c' s' ∧ P c'.
Proof. intros -> Hc. destruct l; cbn; eauto. Qed.

(** ** Trimming *)

(** The last character of a text that has one. *)
Fixpoint back (s : string) : ascii :=
  match s with
  | EmptyString => Ascii.zero
  | String c EmptyString => c
  | String _ s' => back s'
  end.

(** A text with no such character at either end is itself. *)
Lemma trim_ends p c s : p c = false → p (back (String c s)) = false → trim p (String c s) = String c s.
Proof.
  intros Hc Hb. unfold trim. cbn [skip_while]. rewrite Hc. clear Hc. revert c Hb. induction s as [|d s IH]; intros c Hb.
  - cbn in Hb. cbn [trim_right]. by rewrite Hb.
  - cbn [trim_right] in *. by rewrite (IH d Hb).
Qed.

Lemma trim_skip p c s : p c = true → trim p (String c s) = trim p s.
Proof. intros Hc. unfold trim. cbn [skip_while]. by rewrite Hc. Qed.

(** Trimming a text of other characters does nothing. *)
Lemma trim_none p s : every (λ c, p c = false) s → trim p s = s.
Proof.
  intros Hs. assert (Hr : trim_right p s = s).
  { induction s as [|c s IH]; [done|]. destruct Hs as [Hc Hs]. cbn [trim_right]. rewrite IH by done. destruct s; [by rewrite Hc|done]. }
  unfold trim. destruct s as [|c s]; [done|]. destruct Hs as [Hc _]. cbn [skip_while]. by rewrite Hc.
Qed.
