(* ===== verification/Chunks.v ===== *)
(** * Sparse chunks (include/vgpu/memory.hpp, src/core/memory.cpp)

    An allocation is an array of 64 KiB chunk slots. A slot is null (never
    written: reads as zero), a uniform chunk (one byte value throughout, stored
    as a tagged pointer) or a real chunk obtained from the host backing. This
    file models the slots, the loops that copy, fill, load and store through
    them, and proves that they implement a flat array of bytes. *)

From S2P Require Import Prelude.

Definition kChunkSize : Z := 65536.

(** ** Tagged chunk pointers *)
Module Tag.
Definition is_uniform (c : Z) : bool := negb (Z.land c 1 =? 0).
Definition uniform_byte (c : Z) : Z := Z.shiftr c 1 mod 256.
Definition uniform_chunk (b : Z) : Z := Z.lor (Z.shiftl b 1) 1.
End Tag.

(** ** The host backing, as the chunk code sees it

    [acquire] hands out a chunk that reads as zero, or throws; [release] takes
    one back with the number of leading bytes that may not be zero. *)
Class HostBacking (B : Type) := {
  acquire : B → (Z + exn) * B;
  release : Z → Z → B → B;
}.

Inductive chunk :=
  | Uniform (b : Z)
  | Real (p : Z) (bytes : Z → Z).

Record Allocation := mkAllocation {
  a_size : Z;
  chunk_count : Z;
  chunk_capacity : Z;
  chunks : option (gmap Z chunk);     (* the array; a missing index is a null slot *)
  external : bool;                    (* the chunks are pieces of one shared mapping *)
  external_len : Z;
  card_valid : Z;
}.

Definition empty_allocation : Allocation := mkAllocation 0 0 0 None false 0 0.

Definition set_chunks (a : Allocation) (t : gmap Z chunk) : Allocation :=
  mkAllocation (a_size a) (chunk_count a) (chunk_capacity a) (Some t)
    (external a) (external_len a) (card_valid a).

(** What a slot reads as at an offset inside the chunk. *)
Definition slot_byte (c : option chunk) (i : Z) : Z :=
  match c with
  | None => 0
  | Some (Uniform b) => b
  | Some (Real _ f) => f i
  end.

(** The flat array an allocation stands for. *)
Definition content (a : Allocation) (j : Z) : Z :=
  match chunks a with
  | None => 0
  | Some t => slot_byte (t !! (j / kChunkSize)) (j mod kChunkSize)
  end.

(** [f] with [n] bytes of [src] put at [off]. *)
Definition blit (f : Z → Z) (off : Z) (src : Z → Z) (n : Z) : Z → Z := λ j,
  if (off <=? j) && (j <? off + n) then src (j - off) else f j.

Definition chunk_ok (c : chunk) : Prop :=
  match c with
  | Uniform b => is_byte b
  | Real _ f => ∀ i, is_byte (f i)
  end.

Record wf_alloc (a : Allocation) : Prop := {
  wf_size : 0 ≤ a_size a;
  wf_count : chunk_count a = (a_size a + kChunkSize - 1) / kChunkSize;
  wf_chunks : ∃ t, chunks a = Some t ∧
    ∀ i c, t !! i = Some c → 0 ≤ i < chunk_count a ∧ chunk_ok c;
}.

(** What no access to the bytes changes. *)
Definition same_shape (a a' : Allocation) : Prop :=
  a_size a' = a_size a ∧ chunk_count a' = chunk_count a ∧
  chunk_capacity a' = chunk_capacity a ∧ external a' = external a ∧
  external_len a' = external_len a ∧ card_valid a' = card_valid a.

#[global] Instance same_shape_preorder : PreOrder same_shape.
Proof. split; unfold same_shape; [done | intros ???]; intuition congruence. Qed.

(** The bytes an allocation's slots cover. *)
Definition extent (a : Allocation) : Z := chunk_count a * kChunkSize.

(** ** Scalars in a chunk *)

(** The host's little-endian load of [n] bytes. *)
Fixpoint le_load (f : Z → Z) (off : Z) (n : nat) : Z :=
  match n with
  | O => 0
  | S n' => f off + 256 * le_load f (off + 1) n'
  end.

(** Byte [i] of a value. *)
Definition byte_of (v i : Z) : Z := Z.land (Z.shiftr v (8 * i)) 255.

Fixpoint load_unaligned_from (f : Z → Z) (off i : Z) (n : nat) (v : Z) : Z :=
  match n with
  | O => v
  | S n' => load_unaligned_from f off (i + 1) n' (Z.lor v (Z.shiftl (f (off + i)) (8 * i)))
  end.
Definition load_unaligned (f : Z → Z) (off size : Z) : Z :=
  load_unaligned_from f off 0 (Z.to_nat size) 0.

(** [p] is the chunk's address: the aligned access is one host load. *)
Definition load_at (p : Z) (f : Z → Z) (off size : Z) : Z :=
  if Z.land (p + off) (size - 1) =? 0 then
    (if size =? 1 then le_load f off 1
     else if size =? 2 then le_load f off 2
     else if size =? 4 then le_load f off 4
     else le_load f off 8)
  else load_unaligned f off size.

(** A store of the low [n] bytes of [v]. *)
Definition le_store (f : Z → Z) (off n v : Z) : Z → Z := blit f off (byte_of v) n.

Fixpoint store_unaligned_from (f : Z → Z) (off i : Z) (n : nat) (v : Z) : Z → Z :=
  match n with
  | O => f
  | S n' => store_unaligned_from
      (λ j, if j =? off + i then Z.land (Z.shiftr v (8 * i)) 255 else f j) off (i + 1) n' v
  end.
Definition store_unaligned (f : Z → Z) (off size v : Z) : Z → Z :=
  store_unaligned_from f off 0 (Z.to_nat size) v.

Definition store_at (p : Z) (f : Z → Z) (off size v : Z) : Z → Z :=
  if Z.land (p + off) (size - 1) =? 0 then
    (if size =? 1 then le_store f off 1 v
     else if size =? 2 then le_store f off 2 v
     else if size =? 4 then le_store f off 4 v
     else le_store f off 8 v)
  else store_unaligned f off size v.

(** A [size]-byte scalar whose every byte is [b]. *)
Definition repeated (b size : Z) : Z :=
  let all := u64 (72340172838076673 * b) in
  if size =? 8 then all else Z.land all (Z.shiftl 1 (8 * size) - 1).

Definition all_bytes (p : Z → Z) (n b : Z) : bool :=
  forallb (λ i, p i =? b) (seqZ 0 n).

(** A scalar width the engine accepts. *)
Definition scalar_size (size : Z) : bool :=
  (size =? 1) || (size =? 2) || (size =? 4) || (size =? 8).

(** ** Slot operations and loops *)

Section chunks.
Context {B : Type} `{HostBacking B}.
Local Abbreviation st := (Allocation * B)%type.

(** [a.chunks[idx].load()]; an index outside the array is undefined. *)
Definition chunk_at (idx : Z) : M st (option chunk) := λ s,
  match chunks (fst s) with
  | Some t => if (0 <=? idx) && (idx <? chunk_count (fst s)) then Ret (t !! idx) s else Undef
  | None => Undef
  end.

(** [a.chunks[idx].store(c)] *)
Definition chunk_store (idx : Z) (c : option chunk) : M st unit := λ s,
  match chunks (fst s) with
  | Some t =>
      if (0 <=? idx) && (idx <? chunk_count (fst s)) then
        Ret tt (set_chunks (fst s) (partial_alter (λ _, c) idx t), snd s)
      else Undef
  | None => Undef
  end.

(** Makes a slot real: from nothing, or from a uniform chunk's byte. *)
Definition materialize (idx : Z) : M st unit :=
  expected <- chunk_at idx ;;
  match expected with
  | Some (Real _ _) => ret tt
  | _ => λ s,
      match acquire (snd s) with
      | (inr e, b') => Exn e (fst s, b')
      | (inl p, b') =>
          let fresh := λ _, match expected with
                            | Some (Uniform u) => if negb (u =? 0) then u else 0
                            | _ => 0
                            end in
          chunk_store idx (Some (Real p fresh)) (fst s, b')
      end
  end.

(** A copy of [n] bytes into a real chunk at [coff]; anything else is undefined. *)
Definition chunk_update (idx coff n : Z) (g : Z → (Z → Z) → Z → Z) : M st unit :=
  c <- chunk_at idx ;;
  match c with
  | Some (Real p f) =>
      if (0 <=? coff) && (coff + n <=? kChunkSize)
      then chunk_store idx (Some (Real p (g p f))) else undef
  | _ => undef
  end.
Definition chunk_memcpy (idx coff : Z) (src : Z → Z) (n : Z) : M st unit :=
  chunk_update idx coff n (λ _ f, blit f coff src n).

Definition materialize_if_not_real (c : option chunk) (idx : Z) : M st unit :=
  match c with
  | Some (Real _ _) => ret tt
  | _ => materialize idx
  end.

(** The loop every bulk access makes over the chunks of a range. *)
Fixpoint chunk_loop (fuel : nat) (body : Z → Z → Z → Z → M st unit)
    (off len done : Z) : M st unit :=
  if len <=? 0 then ret tt else
  match fuel with
  | O => undef
  | S fuel' =>
      let chunk_idx := off / kChunkSize in
      let chunk_off := off mod kChunkSize in
      let n := Z.min len (kChunkSize - chunk_off) in
      body chunk_idx chunk_off n done ;;;
      chunk_loop fuel' body (off + n) (len - n) (done + n)
  end.
Definition chunk_fuel (len : Z) : nat := Z.to_nat (len / kChunkSize + 2).

(** MemoryManager::write, from the resolved allocation on. *)
Definition write_body (src : Z → Z) (idx coff n done : Z) : M st unit :=
  c <- chunk_at idx ;;
  let s := λ i, src (done + i) in
  if match c with Some (Uniform u) => all_bytes s n u | _ => false end then ret tt else
  materialize_if_not_real c idx ;;;
  chunk_memcpy idx coff s n.
Definition write_chunks (off : Z) (src : Z → Z) (len : Z) : M st unit :=
  chunk_loop (chunk_fuel len) (write_body src) off len 0.

(** MemoryManager::read_chunks *)
Fixpoint read_loop (fuel : nat) (off len : Z) : M st (list Z) :=
  if len <=? 0 then ret [] else
  match fuel with
  | O => undef
  | S fuel' =>
      let chunk_idx := off / kChunkSize in
      let chunk_off := off mod kChunkSize in
      let n := Z.min len (kChunkSize - chunk_off) in
      c <- chunk_at chunk_idx ;;
      piece <- (match c with
                | None => ret (replicate (Z.to_nat n) 0)
                | Some (Uniform u) => ret (replicate (Z.to_nat n) u)
                | Some (Real _ f) =>
                    if chunk_off + n <=? kChunkSize
                    then ret ((λ i, f (chunk_off + i)) <$> seqZ 0 n) else undef
                end) ;;
      rest <- read_loop fuel' (off + n) (len - n) ;;
      ret (piece ++ rest)
  end.
Definition read_chunks (off len : Z) : M st (list Z) := read_loop (chunk_fuel len) off len.

(** [p] as memory: the copies that double the bytes already written. *)
Fixpoint fill_double (fuel : nat) (p : Z → Z) (filled n : Z) : Z → Z :=
  match fuel with
  | O => p
  | S fuel' =>
      if filled <? n then
        let c := Z.min filled (n - filled) in
        fill_double fuel' (blit p filled p c) (filled + c) n
      else p
  end.

Definition fill_period (coff n done : Z) (pattern : list Z) (f : Z → Z) : Z → Z :=
  let pattern_len := Z.of_nat (length pattern) in
  let first := Z.min n pattern_len in
  let p := λ i, f (coff + i) in
  let p1 := blit p 0 (λ i, pattern !!! Z.to_nat ((done + i) mod pattern_len)) first in
  let p2 := fill_double (Z.to_nat n) p1 first n in
  λ j, if (coff <=? j) && (j <? coff + n) then p2 (j - coff) else f j.

(** MemoryManager::fill, from the resolved allocation on. *)
Definition fill_body (pattern : list Z) (idx coff n done : Z) : M st unit :=
  let pattern_len := Z.of_nat (length pattern) in
  let p0 := pattern !!! 0%nat in
  let all_zero := forallb (λ b, b =? 0) pattern in
  chunk <- chunk_at idx ;;
  s <- get ;;
  if (pattern_len =? 1) && (coff =? 0) && (n =? kChunkSize) && negb (external (fst s)) then
    chunk_store idx (if p0 =? 0 then None else Some (Uniform p0)) ;;;
    match chunk with
    | Some (Real p _) => modify (λ s, (fst s, release p u64_max (snd s)))
    | _ => ret tt
    end
  else if (pattern_len =? 1) && match chunk with Some (Uniform u) => u =? p0 | _ => false end then
    ret tt
  else if match chunk with None => false | _ => true end || negb all_zero then
    materialize_if_not_real chunk idx ;;;
    (if pattern_len =? 1 then chunk_memcpy idx coff (λ _, p0) n
     else chunk_update idx coff n (λ _, fill_period coff n done pattern))
  else ret tt.
Definition fill_chunks (off : Z) (pattern : list Z) (len : Z) : M st unit :=
  chunk_loop (chunk_fuel len) (fill_body pattern) off len 0.

(** A scalar load of an offset in the allocation (load_batch_in, one lane). *)
Definition load_word (off size : Z) : M st Z :=
  c <- chunk_at (off / kChunkSize) ;;
  match c with
  | None => ret 0
  | Some (Uniform u) => ret (repeated u size)
  | Some (Real p f) =>
      if off mod kChunkSize + size <=? kChunkSize
      then ret (load_at p f (off mod kChunkSize) size) else undef
  end.

(** A scalar store at an offset (store_batch_in, one lane): a uniform chunk is
    left alone by a store of its own byte. *)
Definition store_word (off size v : Z) : M st unit :=
  let idx := off / kChunkSize in
  c <- chunk_at idx ;;
  if match c with Some (Uniform u) => v =? repeated u size | _ => false end then ret tt else
  materialize_if_not_real c idx ;;;
  chunk_update idx (off mod kChunkSize) size
    (λ p f, store_at p f (off mod kChunkSize) size v).
End chunks.

(** ** Tagged pointers do not collide with real ones *)

Lemma uniform_chunk_is_uniform b : Tag.is_uniform (Tag.uniform_chunk b) = true.
Proof.
  unfold Tag.is_uniform, Tag.uniform_chunk.
  rewrite Z.land_lor_distr_l. change (Z.land 1 1) with 1.
  apply negb_true_iff, Z.eqb_neq. intros E.
  apply (f_equal (λ x, Z.testbit x 0)) in E.
  rewrite Z.lor_spec in E. change (Z.testbit 1 0) with true in E.
  by rewrite orb_true_r in E.
Qed.

Lemma uniform_byte_chunk b : is_byte b → Tag.uniform_byte (Tag.uniform_chunk b) = b.
Proof.
  unfold is_byte, Tag.uniform_byte, Tag.uniform_chunk. intros Hb.
  rewrite Z.shiftr_lor, Z.shiftr_shiftl_l by lia.
  change (Z.shiftr 1 1) with 0. rewrite Z.lor_0_r, Z.sub_diag, Z.shiftl_0_r.
  apply Z.mod_small. lia.
Qed.

Lemma aligned_not_uniform p : p mod 2 = 0 → Tag.is_uniform p = false.
Proof.
  intros Hp. unfold Tag.is_uniform.
  change 1 with (2 ^ 1 - 1). rewrite land_pow2_mod by lia.
  change (2 ^ 1) with 2. by rewrite Hp.
Qed.

(** ** Scalars *)


Lemma byte_of_range v i : is_byte (byte_of v i).
Proof.
  unfold byte_of, is_byte. change 255 with (2 ^ 8 - 1).
  rewrite land_pow2_mod by lia. by apply Z.mod_pos_bound.
Qed.

Lemma byte_of_div v i : 0 ≤ i → byte_of v i = v / 2 ^ (8 * i) mod 256.
Proof.
  intros. unfold byte_of. change 255 with (2 ^ 8 - 1).
  rewrite land_pow2_mod by lia. by rewrite Z.shiftr_div_pow2 by lia.
Qed.

Lemma le_load_range f off n : (∀ i, is_byte (f i)) → 0 ≤ le_load f off n < 2 ^ (8 * Z.of_nat n).
Proof.
  intros Hf. revert off. induction n as [|n IH]; intros off; simpl le_load; [lia|].
  specialize (IH (off + 1)). specialize (Hf off). unfold is_byte in Hf.
  replace (8 * Z.of_nat (S n)) with (8 + 8 * Z.of_nat n) by lia.
  rewrite Z.pow_add_r by lia. change (2 ^ 8) with 256. lia.
Qed.

Lemma le_load_ext f g off off' n :
  (∀ i, 0 ≤ i < Z.of_nat n → f (off + i) = g (off' + i)) → le_load f off n = le_load g off' n.
Proof.
  revert off off'. induction n as [|n IH]; intros off off' Hfg; [done|]. simpl.
  f_equal; [specialize (Hfg 0); rewrite !Z.add_0_r in Hfg; apply Hfg; lia|].
  f_equal. apply IH. intros i Hi.
  replace (off + 1 + i) with (off + (i + 1)) by lia.
  replace (off' + 1 + i) with (off' + (i + 1)) by lia. apply Hfg. lia.
Qed.

Lemma load_unaligned_from_spec f off i n v :
  (∀ j, is_byte (f j)) → 0 ≤ i → 0 ≤ v < 2 ^ (8 * i) →
  load_unaligned_from f off i n v = v + 2 ^ (8 * i) * le_load f (off + i) n.
Proof.
  intros Hf. revert i v. induction n as [|n IH]; intros i v Hi Hv; simpl; [lia|].
  specialize (Hf (off + i)). unfold is_byte in Hf.
  assert (Hp : 2 ^ (8 * (i + 1)) = 256 * 2 ^ (8 * i)).
  { replace (8 * (i + 1)) with (8 + 8 * i) by lia. rewrite Z.pow_add_r by lia. done. }
  rewrite lor_shiftl_add by lia. rewrite IH by nia.
  rewrite Hp, Z.add_assoc. ring.
Qed.

(** A misaligned host pointer reads the same value, a byte at a time. *)
Lemma load_at_le_load p f off size :
  (∀ j, is_byte (f j)) → scalar_size size = true →
  load_at p f off size = le_load f off (Z.to_nat size).
Proof.
  unfold scalar_size, load_at, load_unaligned. intros Hf Hs.
  destruct (Z.land (p + off) (size - 1) =? 0).
  - repeat case_if; subst; try done. simpl in Hs. zify_bool. by subst.
  - rewrite load_unaligned_from_spec by (done || simpl; lia).
    change (2 ^ (8 * 0)) with 1. rewrite Z.add_0_r. lia.
Qed.

Lemma store_unaligned_from_spec f off i n v j :
  store_unaligned_from f off i n v j =
    if (off + i <=? j) && (j <? off + i + Z.of_nat n) then byte_of v (j - off) else f j.
Proof.
  revert f i. induction n as [|n IH]; intros f i; cbn [store_unaligned_from].
  - repeat case_if; try done. lia.
  - rewrite IH. destruct (Z.eqb_spec j (off + i)) as [->|].
    + replace (off + i - off) with i by lia.
      destruct (Z.leb_spec (off + (i + 1)) (off + i)); [lia|]. simpl.
      destruct (Z.leb_spec (off + i) (off + i)); [|lia].
      destruct (Z.ltb_spec (off + i) (off + i + Z.of_nat (S n))); [done|lia].
    + bool_cases; done.
Qed.

Lemma store_at_le_store p f off size v j :
  scalar_size size = true → store_at p f off size v j = le_store f off size v j.
Proof.
  unfold scalar_size, store_at, store_unaligned. intros Hs.
  destruct (Z.land (p + off) (size - 1) =? 0).
  - repeat case_if; subst; try done. simpl in Hs. zify_bool. by subst.
  - rewrite store_unaligned_from_spec. unfold le_store, blit.
    assert (0 ≤ size) by (repeat (apply orb_true_iff in Hs as [Hs|Hs]); lia).
    rewrite Z2Nat.id, Z.add_0_r by lia. done.
Qed.

(** Reading back the bytes of a value gives the value, cut to their width. *)
Lemma le_load_byte_of v n : le_load (byte_of v) 0 n = v mod 2 ^ (8 * Z.of_nat n).
Proof.
  assert (Hg : ∀ i, 0 ≤ i → le_load (byte_of v) i n = v / 2 ^ (8 * i) mod 2 ^ (8 * Z.of_nat n)).
  { induction n as [|n IH]; intros i Hi; simpl le_load; [by rewrite Z.mod_1_r|].
    rewrite IH, byte_of_div by lia.
    replace (8 * (i + 1)) with (8 * i + 8) by lia.
    replace (8 * Z.of_nat (S n)) with (8 + 8 * Z.of_nat n) by lia.
    rewrite !Z.pow_add_r by lia. change (2 ^ 8) with 256.
    rewrite <- Z.div_div by lia. rewrite Z.rem_mul_r by lia. done. }
  rewrite Hg by lia. change (2 ^ (8 * 0)) with 1. by rewrite Z.div_1_r.
Qed.

Lemma le_load_le_store f off size v :
  0 ≤ size → le_load (le_store f off size v) off (Z.to_nat size) = v mod 2 ^ (8 * size).
Proof.
  intros. transitivity (le_load (byte_of v) 0 (Z.to_nat size)).
  - apply le_load_ext. intros i Hi. unfold le_store, blit.
    destruct (Z.leb_spec off (off + i)); [|lia].
    destruct (Z.ltb_spec (off + i) (off + size)); [|lia]. simpl. f_equal. lia.
  - rewrite le_load_byte_of. by rewrite Z2Nat.id by lia.
Qed.

Lemma repeated_le_load b size f off :
  is_byte b → scalar_size size = true → (∀ i, f i = b) →
  repeated b size = le_load f off (Z.to_nat size).
Proof.
  unfold is_byte, scalar_size, repeated. intros Hb Hs Hf.
  assert (Hc : ∀ m o, le_load f o m = le_load (λ _, b) 0 m).
  { intros m o. by apply le_load_ext. }
  rewrite Hc. rewrite (u64_small (72340172838076673 * b)) by (unfold is_u64; lia).
  assert (Hm : ∀ k x q, 0 ≤ k → 72340172838076673 * b = 2 ^ k * q + x → 0 ≤ x < 2 ^ k →
    Z.land (72340172838076673 * b) (Z.shiftl 1 k - 1) = x).
  { intros k x q Hk E Hx. rewrite Z.shiftl_1_l, land_pow2_mod by lia.
    symmetry. by apply (Z.mod_unique_pos _ _ q). }
  apply orb_true_iff in Hs as [Hs|Hs];
    [apply orb_true_iff in Hs as [Hs|Hs]; [apply orb_true_iff in Hs as [Hs|Hs]|]|];
    apply Z.eqb_eq in Hs as ->; simpl.
  - apply (Hm 8 _ (282578800148737 * b)); lia.
  - apply (Hm 16 _ (1103823438081 * b)); lia.
  - apply (Hm 32 _ (16843009 * b)); lia.
  - lia.
Qed.

(** ** Slots and loops *)

Lemma wf_lookup_ok a t i c : wf_alloc a → chunks a = Some t → t !! i = Some c → chunk_ok c.
Proof. intros [_ _ (t' & Ht' & Hok)] Ht Hc. simplify_eq. by eapply Hok. Qed.

Lemma content_range a j : wf_alloc a → is_byte (content a j).
Proof.
  intros Hwf. unfold content. destruct (chunks a) as [t|] eqn:Ht; [|unfold is_byte; lia].
  destruct (t !! (j / kChunkSize)) as [c|] eqn:Hc; [|unfold is_byte; simpl; lia].
  pose proof (wf_lookup_ok _ _ _ _ Hwf Ht Hc) as Hok.
  destruct c; simpl in *; auto.
Qed.

Lemma chunk_index_range a off : wf_alloc a → 0 ≤ off < extent a →
  0 ≤ off / kChunkSize < chunk_count a.
Proof.
  unfold extent, kChunkSize. intros _ Ho. split; [apply Z.div_pos; lia|].
  apply Z.div_lt_upper_bound; lia.
Qed.

(** The slots of a well-formed allocation cover its bytes. *)
Lemma size_le_extent a : wf_alloc a → a_size a ≤ extent a.
Proof.
  intros [Hs Hc _]. unfold extent. rewrite Hc. unfold kChunkSize.
  pose proof (Z.div_mod (a_size a + 65536 - 1) 65536 ltac:(lia)).
  pose proof (Z.mod_pos_bound (a_size a + 65536 - 1) 65536 ltac:(lia)). lia.
Qed.

Section wp.
Context {B : Type} `{HostBacking B}.
Local Abbreviation st := (Allocation * B)%type.

Lemma wp_chunk_at idx (s : st) Q E t :
  chunks (fst s) = Some t → 0 ≤ idx < chunk_count (fst s) →
  Q (t !! idx) s → wp (chunk_at idx s) Q E.
Proof.
  intros Ht Hi HQ. unfold chunk_at. rewrite Ht.
  destruct (Z.leb_spec 0 idx), (Z.ltb_spec idx (chunk_count (fst s))); try lia. done.
Qed.

Lemma wp_chunk_store idx c (s : st) Q E t :
  chunks (fst s) = Some t → 0 ≤ idx < chunk_count (fst s) →
  Q tt (set_chunks (fst s) (partial_alter (λ _, c) idx t), snd s) →
  wp (chunk_store idx c s) Q E.
Proof.
  intros Ht Hi HQ. unfold chunk_store. rewrite Ht.
  destruct (Z.leb_spec 0 idx), (Z.ltb_spec idx (chunk_count (fst s))); try lia. done.
Qed.

(** Replacing a slot keeps the allocation well-formed and changes the bytes of
    that chunk only. *)
Lemma wf_set_slot a t idx c :
  wf_alloc a → chunks a = Some t → 0 ≤ idx < chunk_count a →
  (∀ c', c = Some c' → chunk_ok c') →
  wf_alloc (set_chunks a (partial_alter (λ _, c) idx t)).
Proof.
  intros [Hs Hc (t' & Ht' & Hok)] Ht Hi Hcok. simplify_eq. split; [done..|].
  eexists; split; [done|]. intros i c' Hl. simpl.
  destruct (decide (idx = i)) as [->|].
  - rewrite lookup_partial_alter_eq in Hl. split; [done|]. by apply Hcok.
  - rewrite lookup_partial_alter_ne in Hl by done. by apply Hok.
Qed.

Lemma content_set_slot a t idx c j :
  chunks a = Some t →
  content (set_chunks a (partial_alter (λ _, c) idx t)) j =
    if j / kChunkSize =? idx then slot_byte c (j mod kChunkSize) else content a j.
Proof.
  intros Ht. unfold content. simpl. rewrite Ht.
  destruct (Z.eqb_spec (j / kChunkSize) idx) as [<-|].
  - by rewrite lookup_partial_alter_eq.
  - by rewrite lookup_partial_alter_ne by done.
Qed.

Lemma same_shape_set_chunks a t : same_shape a (set_chunks a t).
Proof. done. Qed.

(** What an access leaves: the same allocation with other bytes. *)
Definition now_holds (a : Allocation) (f : Z → Z) (s : st) : Prop :=
  wf_alloc (fst s) ∧ same_shape a (fst s) ∧ ∀ j, content (fst s) j = f j.

Lemma now_holds_refl a b : wf_alloc a → now_holds a (content a) (a, b).
Proof. intros. split; [done|split]; [reflexivity|done]. Qed.

Lemma now_holds_ext a f g s : now_holds a f s → (∀ j, f j = g j) → now_holds a g s.
Proof. intros (? & ? & Hf) Hg. split; [done|split; [done|]]. intros j. by rewrite Hf. Qed.

(** What making a chunk real may throw leaves the bytes as they were. *)
Lemma wp_materialize a f idx (s : st) Q :
  now_holds a f s → 0 ≤ idx < chunk_count a →
  (∀ s' t p g, now_holds a f s' → chunks (fst s') = Some t →
     t !! idx = Some (Real p g) → Q tt s') →
  wp (materialize idx s) Q (λ _ s', now_holds a f s').
Proof.
  intros (Hwf & Hsh & Hf) Hi HQ.
  destruct (wf_chunks _ Hwf) as (t & Ht & Hok).
  assert (Hi' : 0 ≤ idx < chunk_count (fst s)) by (destruct Hsh as (_ & -> & _); done).
  unfold materialize. wp_step. apply (wp_chunk_at idx s _ _ t Ht Hi').
  destruct (t !! idx) as [[u|p g]|] eqn:Hc.
  - destruct (acquire (snd s)) as [[p|e] b']; [|done].
    apply (wp_chunk_store _ _ (fst s, b') _ _ t Ht Hi').
    apply (HQ _ (partial_alter (λ _, Some (Real p (λ _, if negb (u =? 0) then u else 0))) idx t) p
             (λ _, if negb (u =? 0) then u else 0)); [|done|by rewrite lookup_partial_alter_eq].
    assert (Hu : (if negb (u =? 0) then u else 0) = u) by (destruct (Z.eqb_spec u 0); simpl; congruence).
    pose proof (wf_lookup_ok _ _ _ _ Hwf Ht Hc) as Hbok.
    split; [apply wf_set_slot; try done; intros c' [= <-] i; by rewrite Hu|].
    split; [etrans; [exact Hsh|apply same_shape_set_chunks]|]. intros j. cbn [fst].
    rewrite content_set_slot by done. rewrite <- Hf. unfold content. rewrite Ht.
    destruct (Z.eqb_spec (j / kChunkSize) idx) as [->|]; [|done]. by rewrite Hc.
  - cbn [ret wp]. apply (HQ _ t p g); done.
  - destruct (acquire (snd s)) as [[p|e] b']; [|done].
    apply (wp_chunk_store _ _ (fst s, b') _ _ t Ht Hi').
    apply (HQ _ (partial_alter (λ _, Some (Real p (λ _, 0))) idx t) p (λ _, 0)); 
      [|done|by rewrite lookup_partial_alter_eq].
    split; [apply wf_set_slot; try done; intros c' [= <-] i; unfold is_byte; lia|].
    split; [etrans; [exact Hsh|apply same_shape_set_chunks]|]. intros j. cbn [fst].
    rewrite content_set_slot by done. rewrite <- Hf. unfold content. rewrite Ht.
    destruct (Z.eqb_spec (j / kChunkSize) idx) as [->|]; [|done]. by rewrite Hc.
Qed.

Lemma chunk_offset_split idx coff j : 0 ≤ coff < kChunkSize →
  (j / kChunkSize =? idx) = (idx * kChunkSize <=? j) && (j <? idx * kChunkSize + kChunkSize).
Proof.
  intros _. unfold kChunkSize.
  pose proof (Z.div_mod j 65536 ltac:(lia)). pose proof (Z.mod_pos_bound j 65536 ltac:(lia)).
  destruct (Z.eqb_spec (j / 65536) idx), (Z.leb_spec (idx * 65536) j),
    (Z.ltb_spec j (idx * 65536 + 65536)); simpl; try done; nia.
Qed.

(** New bytes in a real chunk are new bytes of the allocation. *)
Lemma wp_chunk_update a f idx coff n g src (s : st) t p h (Q : unit → st → Prop) E :
  now_holds a f s → 0 ≤ idx < chunk_count a →
  chunks (fst s) = Some t → t !! idx = Some (Real p h) →
  0 ≤ coff → 0 ≤ n → coff + n ≤ kChunkSize →
  (∀ j, g p h j = blit h coff src n j) → (∀ i, 0 ≤ i < n → is_byte (src i)) →
  (∀ s', now_holds a (blit f (idx * kChunkSize + coff) src n) s' → Q tt s') →
  wp (chunk_update idx coff n g s) Q E.
Proof.
  intros (Hwf & Hsh & Hf) Hi Ht Hc Hco Hn Hle Hg Hsrc HQ.
  assert (Hi' : 0 ≤ idx < chunk_count (fst s)) by (destruct Hsh as (_ & -> & _); done).
  unfold chunk_update. wp_step. apply (wp_chunk_at idx s _ _ t Ht Hi'). rewrite Hc.
  destruct (Z.leb_spec 0 coff), (Z.leb_spec (coff + n) kChunkSize); try lia. simpl.
  apply (wp_chunk_store _ _ s _ _ t Ht Hi'). apply HQ.
  pose proof (wf_lookup_ok _ _ _ _ Hwf Ht Hc) as Hh. simpl in Hh.
  split; [|split].
  - apply wf_set_slot; try done. intros c' [= <-] i. rewrite Hg. unfold blit.
    destruct ((coff <=? i) && (i <? coff + n)) eqn:Eb; [|done]. apply Hsrc.
    zify_bool. lia.
  - etrans; [exact Hsh|apply same_shape_set_chunks].
  - intros j. cbn [fst]. rewrite content_set_slot by done.
    specialize (Hf j). unfold content in *. rewrite Ht in *.
    unfold blit in *. destruct (Z.eqb_spec (j / kChunkSize) idx) as [Ej|Ej].
    + rewrite Ej, Hc in Hf. cbn [slot_byte] in *. rewrite Hg.
      pose proof (Z.div_mod j kChunkSize ltac:(done)) as Hj. rewrite Ej in Hj.
      rewrite <- Hf. set (m := j mod kChunkSize) in *. clearbody m.
      replace (j - (idx * kChunkSize + coff)) with (m - coff) by lia.
      replace ((idx * kChunkSize + coff <=? j) && (j <? idx * kChunkSize + coff + n))
        with ((coff <=? m) && (m <? coff + n)); [done|].
      f_equal; lia.
    + rewrite Hf. bool_cases. exfalso. apply Ej. symmetry.
      apply (Z.div_unique_pos _ _ _ (j - idx * kChunkSize)); unfold kChunkSize in *; lia.
Qed.

(** Making the chunk real and then updating it. *)
Lemma wp_real_update a f idx coff n g src (s : st) c t (Q : unit → st → Prop) :
  now_holds a f s → 0 ≤ idx < chunk_count a →
  chunks (fst s) = Some t → t !! idx = c →
  0 ≤ coff → 0 ≤ n → coff + n ≤ kChunkSize →
  (∀ p h j, g p h j = blit h coff src n j) → (∀ i, 0 ≤ i < n → is_byte (src i)) →
  (∀ s', now_holds a (blit f (idx * kChunkSize + coff) src n) s' → Q tt s') →
  wp ((materialize_if_not_real c idx ;;; chunk_update idx coff n g) s) Q (λ _ s', now_holds a f s').
Proof.
  intros Hs Hi Ht Hc Hco Hn Hle Hg Hsrc HQ. wp_step.
  unfold materialize_if_not_real. destruct c as [[u|p h]|].
  - apply (wp_materialize a f); [done..|]. intros s' t' p' h' Hs' Ht' Hc'.
    by eapply (wp_chunk_update a f).
  - cbn [ret wp]. by eapply (wp_chunk_update a f).
  - apply (wp_materialize a f); [done..|]. intros s' t' p' h' Hs' Ht' Hc'.
    by eapply (wp_chunk_update a f).
Qed.

(** Writing what a uniform chunk already holds changes nothing. *)
Lemma uniform_blit_same a f (s : st) t idx u coff src n :
  now_holds a f s → chunks (fst s) = Some t → t !! idx = Some (Uniform u) →
  0 ≤ coff → coff + n ≤ kChunkSize → (∀ i, 0 ≤ i < n → src i = u) →
  now_holds a (blit f (idx * kChunkSize + coff) src n) s.
Proof.
  intros Hs Ht Hc Hco Hle Hu. eapply now_holds_ext; [exact Hs|]. intros j.
  destruct Hs as (_ & _ & Hf). rewrite <- Hf. unfold blit. bool_cases; [|done..].
  rewrite Hu by lia. unfold content. rewrite Ht.
  replace (j / kChunkSize) with idx; [by rewrite Hc|].
  apply (Z.div_unique_pos _ _ _ (j - idx * kChunkSize)); unfold kChunkSize in *; lia.
Qed.

Lemma all_bytes_spec p n b : all_bytes p n b = true ↔ ∀ i, 0 ≤ i < n → p i = b.
Proof.
  unfold all_bytes. rewrite forallb_forall. split.
  - intros Hall i Hi. apply Z.eqb_eq, Hall, list_elem_of_In, elem_of_seqZ. lia.
  - intros Hall i Hi%list_elem_of_In%elem_of_seqZ. apply Z.eqb_eq, Hall. lia.
Qed.

Lemma chunk_base off : off / kChunkSize * kChunkSize + off mod kChunkSize = off.
Proof. pose proof (Z.div_mod off kChunkSize ltac:(done)). lia. Qed.

Lemma chunk_next off :
  (off + (kChunkSize - off mod kChunkSize)) / kChunkSize = off / kChunkSize + 1.
Proof.
  pose proof (chunk_base off). symmetry. apply (Z.div_unique_pos _ _ _ 0); [done|lia].
Qed.

(** One pass per chunk touched: the fuel is enough. *)
Lemma chunk_fuel_enough off len : 0 ≤ off → 0 ≤ len →
  (off + len - 1) / kChunkSize - off / kChunkSize + 1 ≤ Z.of_nat (chunk_fuel len).
Proof.
  intros. assert (HK : 0 < kChunkSize) by done. unfold chunk_fuel.
  pose proof (chunk_base off). pose proof (Z.mod_pos_bound off kChunkSize HK).
  pose proof (chunk_base len). pose proof (Z.mod_pos_bound len kChunkSize HK).
  assert ((off + len - 1) / kChunkSize < off / kChunkSize + len / kChunkSize + 2)
    by (apply Z.div_lt_upper_bound; lia).
  assert (0 ≤ len / kChunkSize) by (apply Z.div_pos; lia).
  rewrite Z2Nat.id by lia. lia.
Qed.

(** The loop over the chunks of a range ends, whatever the range, and keeps
    what its body keeps. *)
Lemma wp_chunk_loop body off len (I : Z → st → Prop) E (s : st) :
  0 ≤ off → 0 ≤ len →
  (∀ d s', 0 ≤ d < len → I d s' →
     let n := Z.min (len - d) (kChunkSize - (off + d) mod kChunkSize) in
     0 < n → (off + d) mod kChunkSize + n ≤ kChunkSize →
     wp (body ((off + d) / kChunkSize) ((off + d) mod kChunkSize) n d s')
        (λ _ s'', I (d + n) s'') E) →
  I 0 s →
  wp (chunk_loop (chunk_fuel len) body off len 0 s) (λ _ s', I len s') E.
Proof.
  intros Hoff Hlen Hbody HI.
  assert (HK : 0 < kChunkSize) by done.
  assert (Hgen : ∀ fuel d s', 0 ≤ d ≤ len → I d s' →
    (d < len → (off + len - 1) / kChunkSize - (off + d) / kChunkSize + 1 ≤ Z.of_nat fuel) →
    wp (chunk_loop fuel body (off + d) (len - d) d s') (λ _ s'', I len s'') E).
  { induction fuel as [|fuel IH]; intros d s' Hd HId Hf; cbn [chunk_loop].
    - destruct (Z.leb_spec (len - d) 0); [wp_step; by replace len with d by lia|].
      specialize (Hf ltac:(lia)).
      pose proof (Z.div_le_mono (off + d) (off + len - 1) kChunkSize HK ltac:(lia)). lia.
    - destruct (Z.leb_spec (len - d) 0); [wp_step; by replace len with d by lia|].
      pose proof (Z.mod_pos_bound (off + d) kChunkSize HK).
      pose proof (Z.div_mod (off + d) kChunkSize ltac:(lia)) as Hdm.
      wp_step. eapply wp_mono; [apply Hbody; try done; lia| |done].
      intros [] s'' HI'.
      set (n := Z.min (len - d) (kChunkSize - (off + d) mod kChunkSize)) in *.
      replace (off + d + n) with (off + (d + n)) by lia.
      replace (len - d - n) with (len - (d + n)) by lia.
      apply IH; [lia|done|]. intros Hlt.
      assert (Hn : n = kChunkSize - (off + d) mod kChunkSize) by lia.
      pose proof (chunk_next (off + d)) as Hnext. rewrite <- Hn in Hnext.
      replace (off + d + n) with (off + (d + n)) in Hnext by lia.
      specialize (Hf ltac:(lia)). lia. }
  specialize (Hgen (chunk_fuel len) 0 s). rewrite Z.add_0_r, Z.sub_0_r in Hgen.
  apply Hgen; [lia|done|]. intros Hl. by apply chunk_fuel_enough.
Qed.

Lemma blit_0 f off src j : blit f off src 0 j = f j.
Proof. unfold blit. bool_cases; done. Qed.

Lemma blit_app f off src d n j :
  0 ≤ d → 0 ≤ n →
  blit (blit f off src d) (off + d) (λ i, src (d + i)) n j = blit f off src (d + n) j.
Proof. intros. unfold blit. bool_cases; f_equal; lia. Qed.

Lemma extent_index a off d len : 0 ≤ off → 0 ≤ d < len → off + len ≤ extent a →
  0 ≤ (off + d) / kChunkSize < chunk_count a.
Proof.
  unfold extent, kChunkSize. intros. split; [apply Z.div_pos; lia|].
  apply Z.div_lt_upper_bound; lia.
Qed.

End wp.

(** ** The bulk loops implement the flat array *)

Section bulk.
Context {B : Type} `{HostBacking B}.
Local Abbreviation st := (Allocation * B)%type.

(** The common shape of write and fill: each body puts its part of [src]. *)
Lemma wp_blit_loop body a off src len (s : st) :
  wf_alloc a → fst s = a → 0 ≤ off → 0 ≤ len → off + len ≤ extent a →
  (∀ f idx coff n d s', now_holds a f s' → 0 ≤ idx < chunk_count a →
     0 ≤ coff → 0 < n → coff + n ≤ kChunkSize → 0 ≤ d → d + n ≤ len →
     wp (body idx coff n d s')
       (λ _ s'', now_holds a (blit f (idx * kChunkSize + coff) (λ i, src (d + i)) n) s'')
       (λ _ s'', now_holds a f s'')) →
  wp (chunk_loop (chunk_fuel len) body off len 0 s)
    (λ _ s', now_holds a (blit (content a) off src len) s')
    (λ _ s', ∃ d, 0 ≤ d < len ∧ now_holds a (blit (content a) off src d) s').
Proof.
  intros Hwf Hs Hoff Hlen Hext Hbody.
  apply (wp_chunk_loop body off len (λ d, now_holds a (blit (content a) off src d))).
  - done.
  - done.
  - intros d s' Hd Hs' n Hn Hle.
    eapply wp_mono.
    + apply Hbody; [exact Hs'|by eapply extent_index|apply Z.mod_pos_bound; done|done|done|lia|lia].
    + intros [] s'' Hs''. eapply now_holds_ext; [exact Hs''|]. intros j.
      rewrite chunk_base. rewrite blit_app by lia. done.
    + intros e s'' Hs''. exists d. done.
  - destruct s as [a0 b]. simpl in Hs. subst a0.
    eapply now_holds_ext; [by apply now_holds_refl|]. intros j. by rewrite blit_0.
Qed.

(** A chunk's part of a write: the bytes, or nothing when the host gives no chunk. *)
Lemma wp_write_body a f src idx coff n d (s : st) :
  now_holds a f s → 0 ≤ idx < chunk_count a → 0 ≤ coff → 0 < n → coff + n ≤ kChunkSize →
  (∀ i, 0 ≤ i < n → is_byte (src (d + i))) →
  wp (write_body src idx coff n d s)
    (λ _ s', now_holds a (blit f (idx * kChunkSize + coff) (λ i, src (d + i)) n) s')
    (λ _ s', now_holds a f s').
Proof.
  intros Hs Hi Hco Hn Hle Hsrc. pose proof Hs as (Hwf & Hsh & Hf).
  destruct (wf_chunks _ Hwf) as (t & Ht & _).
  assert (Hi' : 0 ≤ idx < chunk_count (fst s)) by (destruct Hsh as (_ & -> & _); done).
  unfold write_body. wp_step. apply (wp_chunk_at _ _ _ _ t Ht Hi').
  match goal with |- context [if ?b then _ else _] => destruct b eqn:Eb end.
  - destruct (t !! idx) as [[u|]|] eqn:Hc; try done.
    rewrite all_bytes_spec in Eb. wp_step. by eapply uniform_blit_same.
  - by eapply (wp_real_update a f idx coff n _ (λ i, src (d + i))); try done; try lia.
Qed.

(** write: all of the bytes, or, when the host cannot give a chunk, a prefix. *)
Lemma wp_write_chunks a off src len (s : st) :
  wf_alloc a → fst s = a → 0 ≤ off → 0 ≤ len → off + len ≤ extent a →
  (∀ i, 0 ≤ i < len → is_byte (src i)) →
  wp (write_chunks off src len s)
    (λ _ s', now_holds a (blit (content a) off src len) s')
    (λ _ s', ∃ d, 0 ≤ d < len ∧ now_holds a (blit (content a) off src d) s').
Proof.
  intros Hwf Hs Hoff Hlen Hext Hsrc. apply wp_blit_loop; try done.
  intros f idx coff n d s' Hs' Hi Hco Hn Hle Hd Hdn. apply wp_write_body; try done.
  intros i Hi2. apply Hsrc. lia.
Qed.

(** The bytes of one chunk's part of a range. *)
Lemma content_piece a t off i :
  chunks a = Some t → 0 ≤ i → off mod kChunkSize + i < kChunkSize →
  content a (off + i) = slot_byte (t !! (off / kChunkSize)) (off mod kChunkSize + i).
Proof.
  intros Ht Hi Hlt. unfold content. rewrite Ht.
  pose proof (chunk_base off). pose proof (Z.mod_pos_bound off kChunkSize ltac:(done)).
  f_equal; [f_equal|]; symmetry.
  - apply (Z.div_unique_pos _ _ _ (off mod kChunkSize + i)); lia.
  - apply (Z.mod_unique_pos _ _ (off / kChunkSize)); lia.
Qed.

Lemma chunk_at_ret (s : st) t idx :
  chunks (fst s) = Some t → 0 ≤ idx < chunk_count (fst s) → chunk_at idx s = Ret (t !! idx) s.
Proof.
  intros Ht Hi. unfold chunk_at. rewrite Ht.
  destruct (Z.leb_spec 0 idx), (Z.ltb_spec idx (chunk_count (fst s))); try lia. done.
Qed.

Lemma read_loop_spec a (s : st) fuel off len :
  wf_alloc a → fst s = a → 0 ≤ off → 0 ≤ len → off + len ≤ extent a →
  (0 < len → (off + len - 1) / kChunkSize - off / kChunkSize + 1 ≤ Z.of_nat fuel) →
  read_loop fuel off len s = Ret (content a <$> seqZ off len) s.
Proof.
  assert (HK : 0 < kChunkSize) by done.
  intros Hwf Hs. revert off len.
  induction fuel as [|fuel IH]; intros off len Hoff Hlen Hext Hf; cbn [read_loop];
    destruct (Z.leb_spec len 0); try (by replace len with 0 by lia).
  { pose proof (Z.div_le_mono off (off + len - 1) kChunkSize HK ltac:(lia)). lia. }
  pose proof (Z.mod_pos_bound off kChunkSize HK). pose proof (chunk_base off).
  set (n := Z.min len (kChunkSize - off mod kChunkSize)).
  destruct (wf_chunks _ Hwf) as (t & Ht & _). rewrite <- Hs in Ht.
  erewrite bind_Ret by (apply (chunk_at_ret s t); [done|];
    rewrite Hs; apply chunk_index_range; [done|lia]).
  erewrite bind_Ret with (a := content a <$> seqZ off n) (s' := s).
  2:{ rewrite Hs in Ht.
      assert (Hp : ∀ i, 0 ≤ i < n → content a (off + i) =
        slot_byte (t !! (off / kChunkSize)) (off mod kChunkSize + i))
        by (intros; apply content_piece; [done|lia..]).
      destruct (t !! (off / kChunkSize)) as [[u|p h]|]; simpl in Hp; unfold ret;
        rewrite ?replicate_seqZ;
        [|destruct (Z.leb_spec (off mod kChunkSize + n) kChunkSize); [|lia]|];
        f_equal; apply fmap_seqZ_ext; intros; by rewrite Hp. }
  erewrite bind_Ret.
  2:{ apply IH; try lia. intros. pose proof (chunk_next off) as Hnext.
      replace (kChunkSize - off mod kChunkSize) with n in Hnext by lia.
      replace (off + n + (len - n) - 1) with (off + len - 1) by lia.
      specialize (Hf ltac:(lia)). lia. }
  unfold ret. rewrite <- fmap_app, <- seqZ_app by lia. do 3 f_equal. lia.
Qed.

(** read: the bytes, and nothing changes. *)
Lemma read_chunks_spec a (s : st) off len :
  wf_alloc a → fst s = a → 0 ≤ off → 0 ≤ len → off + len ≤ extent a →
  read_chunks off len s = Ret (content a <$> seqZ off len) s.
Proof.
  intros. apply read_loop_spec; try done. intros. by apply chunk_fuel_enough.
Qed.
End bulk.

(** ** Filling with a pattern *)

Section fill.
Context {B : Type} `{HostBacking B}.
Local Abbreviation st := (Allocation * B)%type.

(** Doubling the bytes already written continues the pattern. *)
Lemma fill_double_spec fuel p filled n L (pat : Z → Z) :
  0 < L → 0 < filled ≤ n → (L | filled) ∨ filled = n →
  (∀ i k, pat (i + k * L) = pat i) →
  (∀ i, 0 ≤ i < filled → p i = pat i) → n - filled ≤ Z.of_nat fuel →
  ∀ i, 0 ≤ i < n → fill_double fuel p filled n i = pat i.
Proof.
  intros HL. revert p filled.
  induction fuel as [|fuel IH]; intros p filled Hfill Hdiv Hper Hp Hfuel i Hi; cbn [fill_double].
  { apply Hp. lia. }
  destruct (Z.ltb_spec filled n); [|apply Hp; lia].
  destruct Hdiv as [[k Hk]|]; [|lia].
  apply IH; try done; try lia.
  - destruct (Z.min_spec filled (n - filled)) as [[? ->]|[? ->]]; [left|right; lia].
    exists (2 * k). lia.
  - intros j Hj. unfold blit. bool_cases; try (apply Hp; lia).
    rewrite Hp by lia. rewrite Hk. rewrite <- (Hper (j - k * L) k). f_equal. lia.
Qed.

Lemma fill_period_spec coff n done pattern f j :
  pattern ≠ [] → 0 < n → 0 ≤ done →
  fill_period coff n done pattern f j =
    blit f coff (λ i, pattern !!! Z.to_nat ((done + i) mod Z.of_nat (length pattern))) n j.
Proof.
  intros Hne Hn Hd. unfold fill_period, blit at 2.
  assert (0 < Z.of_nat (length pattern)) by (destruct pattern; [done|simpl; lia]).
  set (L := Z.of_nat (length pattern)) in *.
  destruct ((coff <=? j) && (j <? coff + n)) eqn:E; [|done]. zify_bool.
  apply (fill_double_spec _ _ _ _ L (λ i, pattern !!! Z.to_nat ((done + i) mod L)));
    try lia.
  - destruct (Z.min_spec n L) as [[? ->]|[? ->]]; [by right|left; exists 1; lia].
  - intros i k. rewrite Z.add_assoc, Z_mod_plus_full. done.
  - intros i Hi. unfold blit. bool_cases. by rewrite Z.sub_0_r.
Qed.

Definition pattern_at (pattern : list Z) (i : Z) : Z :=
  pattern !!! Z.to_nat (i mod Z.of_nat (length pattern)).

Lemma pattern_at_elem pattern i : pattern ≠ [] → pattern_at pattern i ∈ pattern.
Proof.
  intros Hne. unfold pattern_at.
  assert (0 < Z.of_nat (length pattern)) by (destruct pattern; [done|simpl; lia]).
  pose proof (Z.mod_pos_bound i (Z.of_nat (length pattern)) ltac:(lia)).
  apply list_elem_of_lookup_total_2. lia.
Qed.

Lemma pattern_at_byte pattern i : pattern ≠ [] → Forall is_byte pattern → is_byte (pattern_at pattern i).
Proof. intros Hne Hall. rewrite Forall_forall in Hall. by apply Hall, pattern_at_elem. Qed.

Lemma pattern_at_single b i : pattern_at [b] i = b.
Proof. unfold pattern_at. simpl. by rewrite Z.mod_1_r. Qed.

Lemma pattern_at_zero pattern i :
  pattern ≠ [] → forallb (λ b, b =? 0) pattern = true → pattern_at pattern i = 0.
Proof.
  intros Hne Hz. rewrite forallb_forall in Hz.
  by apply Z.eqb_eq, Hz, list_elem_of_In, pattern_at_elem.
Qed.

Lemma one_byte_pattern (pattern : list Z) :
  Z.of_nat (length pattern) = 1 → ∃ b, pattern = [b].
Proof. destruct pattern as [|b [|]]; simpl; [lia|by eexists|lia]. Qed.

(** A whole chunk of one byte: the slot becomes that byte. *)
Lemma wp_fill_whole a f idx p0 (c : option chunk) (s : st) t (Q : unit → st → Prop) E :
  now_holds a f s → 0 ≤ idx < chunk_count a → chunks (fst s) = Some t →
  is_byte p0 →
  (∀ s', now_holds a (blit f (idx * kChunkSize) (λ _, p0) kChunkSize) s' → Q tt s') →
  wp ((chunk_store idx (if p0 =? 0 then None else Some (Uniform p0)) ;;;
       match c with
       | Some (Real p _) => modify (λ s, (fst s, release p u64_max (snd s)))
       | _ => ret tt
       end) s) Q E.
Proof.
  intros (Hwf & Hsh & Hf) Hi Ht Hb HQ. wp_step.
  apply (wp_chunk_store _ _ _ _ _ t Ht); [destruct Hsh as (_ & -> & _); done|].
  set (a' := set_chunks _ _).
  assert (Hnow : ∀ b : B, now_holds a (blit f (idx * kChunkSize) (λ _, p0) kChunkSize) (a', b)).
  { intros b. split; [|split].
    - apply wf_set_slot; try done; [destruct Hsh as (_ & -> & _); done|].
      intros c'. destruct (p0 =? 0); [done|]. by intros [= <-].
    - etrans; [exact Hsh|apply same_shape_set_chunks].
    - intros j. cbn [fst]. unfold a'. rewrite content_set_slot by done.
      rewrite (chunk_offset_split idx 0) by done. unfold blit. rewrite <- Hf.
      destruct ((idx * kChunkSize <=? j) && (j <? idx * kChunkSize + kChunkSize)); [|done].
      by destruct (Z.eqb_spec p0 0) as [->|]. }
  destruct c as [[u|p g]|]; wp_step; apply HQ; apply Hnow.
Qed.

Lemma wp_fill_chunks a off pattern len (s : st) :
  wf_alloc a → fst s = a → 0 ≤ off → 0 ≤ len → off + len ≤ extent a →
  pattern ≠ [] → Forall is_byte pattern →
  wp (fill_chunks off pattern len s)
    (λ _ s', now_holds a (blit (content a) off (pattern_at pattern) len) s')
    (λ _ s', ∃ d, 0 ≤ d < len ∧ now_holds a (blit (content a) off (pattern_at pattern) d) s').
Proof.
  intros Hwf Hs Hoff Hlen Hext Hne Hbytes. apply wp_blit_loop; try done.
  intros f idx coff n d s' Hs' Hi Hco Hn Hle Hd Hdn.
  destruct Hs' as (Hwf' & Hsh' & Hf'). pose proof (conj Hwf' (conj Hsh' Hf')) as Hs'.
  destruct (wf_chunks _ Hwf') as (t & Ht & _).
  assert (Hi' : 0 ≤ idx < chunk_count (fst s')) by (destruct Hsh' as (_ & -> & _); done).
  unfold fill_body. wp_step. apply (wp_chunk_at _ _ _ _ t Ht Hi'). wp_step. wp_step.
  case_if; [|case_if; [|case_if]].
  - destruct (one_byte_pattern pattern) as [b ->]; [lia|]. subst coff n.
    eapply (wp_fill_whole a f); try done; [by inversion Hbytes|].
    intros s'' Hs''. rewrite Z.add_0_r. eapply now_holds_ext; [exact Hs''|].
    intros j. unfold blit. case_if; [by rewrite pattern_at_single|done].
  - wp_step. destruct (one_byte_pattern pattern) as [b ->]; [lia|].
    destruct (t !! idx) as [[u|]|] eqn:Hc; try done. zify_bool. simpl in *. subst u.
    eapply uniform_blit_same; try done. intros i _. apply pattern_at_single.
  - destruct (Z.eqb_spec (Z.of_nat (length pattern)) 1) as [Hone|_].
    + destruct (one_byte_pattern pattern Hone) as [b ->].
      eapply (wp_real_update a f idx coff n _ (λ i, pattern_at [b] (d + i))); try done; try lia.
      * intros p h j. unfold blit. case_if; [by rewrite pattern_at_single|done].
      * intros. by apply pattern_at_byte.
    + eapply (wp_real_update a f idx coff n _ (λ i, pattern_at pattern (d + i))); try done; try lia.
      * intros p h j. by apply fill_period_spec.
      * intros. by apply pattern_at_byte.
  - wp_step. zify_bool. destruct (t !! idx) eqn:Hc; [done|].
    eapply now_holds_ext; [exact Hs'|]. intros j. unfold blit. case_if; [|done].
    rewrite pattern_at_zero by done. rewrite <- Hf'. unfold content. rewrite Ht.
    replace (j / kChunkSize) with idx; [by rewrite Hc|].
    apply (Z.div_unique_pos _ _ _ (j - idx * kChunkSize)); unfold kChunkSize in *; lia.
Qed.
End fill.

(** ** Scalars through the slots *)

Lemma scalar_size_cases size :
  scalar_size size = true → size = 1 ∨ size = 2 ∨ size = 4 ∨ size = 8.
Proof.
  unfold scalar_size. intros Hs.
  repeat (apply orb_true_iff in Hs as [Hs|Hs]); apply Z.eqb_eq in Hs; tauto.
Qed.

(** A naturally aligned scalar never straddles two chunks. *)
Lemma aligned_in_chunk off size :
  scalar_size size = true → off mod size = 0 → off mod kChunkSize + size ≤ kChunkSize.
Proof.
  intros Hs Ha. unfold kChunkSize in *.
  assert (Hd : ∃ q, 65536 = q * size ∧ 0 < size).
  { apply scalar_size_cases in Hs as [->|[->|[->| ->]]];
      [exists 65536|exists 32768|exists 16384|exists 8192]; lia. }
  destruct Hd as (q & Hq & Hpos).
  assert (Hm : (off mod 65536) mod size = 0).
  { rewrite Hq, (Z.mul_comm q), Z.rem_mul_r by lia.
    rewrite Ha, Z.add_0_l, Z.mul_comm. apply Z_mod_mult. }
  pose proof (Z.mod_pos_bound off 65536 ltac:(lia)).
  pose proof (Z.div_mod (off mod 65536) size ltac:(lia)) as E. rewrite Hm in E.
  set (m := off mod 65536) in *. set (d := m / size) in *. clearbody m d.
  assert (d < q) by (apply (Z.mul_lt_mono_pos_l size); lia).
  assert (size * (d + 1) ≤ size * q) by (apply Z.mul_le_mono_nonneg_l; lia). lia.
Qed.

Lemma byte_of_le_load f off n i :
  (∀ j, is_byte (f j)) → 0 ≤ i < Z.of_nat n → byte_of (le_load f off n) i = f (off + i).
Proof.
  intros Hf. revert off i. induction n as [|n IH]; intros off i Hi; [lia|]. cbn [le_load].
  pose proof (Hf off) as Hb. unfold is_byte in Hb.
  destruct (decide (i = 0)) as [->|].
  - rewrite byte_of_div by lia. change (2 ^ (8 * 0)) with 1. rewrite Z.div_1_r, Z.add_0_r.
    rewrite Z.add_comm, Z.mul_comm, Z.add_comm, Z_mod_plus_full. by apply Z.mod_small.
  - replace (off + i) with (off + 1 + (i - 1)) by lia. rewrite <- IH by lia.
    rewrite !byte_of_div by lia. f_equal.
    replace (8 * i) with (8 + 8 * (i - 1)) by lia. rewrite Z.pow_add_r by lia.
    change (2 ^ 8) with 256. rewrite <- Z.div_div by lia. f_equal.
    rewrite Z.add_comm, Z.mul_comm, Z.div_add_l by lia. rewrite Z.div_small; lia.
Qed.

Section scalar.
Context {B : Type} `{HostBacking B}.
Local Abbreviation st := (Allocation * B)%type.

Lemma load_word_spec a (s : st) off size :
  wf_alloc a → fst s = a → scalar_size size = true → 0 ≤ off → off mod size = 0 →
  off + size ≤ extent a →
  load_word off size s = Ret (le_load (content a) off (Z.to_nat size)) s.
Proof.
  intros Hwf Hs Hsz Hoff Hal Hext.
  pose proof (aligned_in_chunk off size Hsz Hal) as Hin.
  assert (1 ≤ size) by (apply scalar_size_cases in Hsz; lia).
  destruct (wf_chunks _ Hwf) as (t & Ht & Hok).
  unfold load_word. erewrite bind_Ret by (apply (chunk_at_ret s t); rewrite Hs; [done|];
    apply chunk_index_range; [done|lia]).
  pose proof (λ i Hi, content_piece a t off i Ht Hi) as Hp.
  destruct (t !! (off / kChunkSize)) as [[u|p h]|] eqn:Hc; unfold ret; simpl in Hp.
  - f_equal. pose proof (wf_lookup_ok _ _ _ _ Hwf Ht Hc) as Hu. simpl in Hu.
    rewrite (repeated_le_load u size (λ _, u) off) by done. apply le_load_ext.
    intros i Hi. rewrite Hp; lia.
  - destruct (Z.leb_spec (off mod kChunkSize + size) kChunkSize); [|lia]. f_equal.
    pose proof (wf_lookup_ok _ _ _ _ Hwf Ht Hc) as Hh. simpl in Hh.
    rewrite load_at_le_load by done. apply le_load_ext. intros i Hi. rewrite Hp; lia.
  - f_equal. transitivity (le_load (λ _, 0) off (Z.to_nat size)).
    + by rewrite <- (repeated_le_load 0 size (λ _, 0) off);
        [apply scalar_size_cases in Hsz as [->|[->|[->| ->]]]|unfold is_byte; lia|..].
    + apply le_load_ext. intros i Hi. rewrite Hp; lia.
Qed.

(** A store either happens, or cannot get its chunk and leaves the bytes. *)
Lemma wp_store_word a f (s : st) off size v :
  now_holds a f s → scalar_size size = true → 0 ≤ off → off mod size = 0 →
  off + size ≤ extent a →
  wp (store_word off size v s)
    (λ _ s', now_holds a (blit f off (byte_of v) size) s')
    (λ _ s', now_holds a f s').
Proof.
  intros Hs Hsz Hoff Hal Hext.
  destruct Hs as (Hwf & Hsh & Hf). pose proof (conj Hwf (conj Hsh Hf)) as Hs.
  pose proof (aligned_in_chunk off size Hsz Hal) as Hin.
  assert (1 ≤ size) by (apply scalar_size_cases in Hsz; lia).
  assert (Hi : 0 ≤ off / kChunkSize < chunk_count a).
  { rewrite <- (Z.add_0_r off). apply (extent_index a off 0 size); lia. }
  assert (Hi' : 0 ≤ off / kChunkSize < chunk_count (fst s)) by (destruct Hsh as (_ & -> & _); done).
  destruct (wf_chunks _ Hwf) as (t & Ht & Hok).
  pose proof (Z.mod_pos_bound off kChunkSize ltac:(done)).
  unfold store_word. wp_step. apply (wp_chunk_at _ _ _ _ t Ht Hi').
  case_if.
  - destruct (t !! (off / kChunkSize)) as [[u|]|] eqn:Hc; try done. zify_bool. subst v. wp_step.
    pose proof (wf_lookup_ok _ _ _ _ Hwf Ht Hc) as Hu. simpl in Hu.
    rewrite <- (chunk_base off) at 1. eapply uniform_blit_same; try done; [lia|].
    intros i Hi2. rewrite (repeated_le_load u size (λ _, u) 0) by done.
    apply (byte_of_le_load (λ _, u) 0); [done|lia].
  - eapply (wp_real_update a f _ _ size _ (byte_of v)); try done; try lia.
    + intros p h j. by apply store_at_le_store.
    + intros. apply byte_of_range.
    + intros s' Hs'. by rewrite chunk_base in Hs'.
Qed.
End scalar.

(** ** The life of an allocation's chunk array

    A freed allocation's record, with its (small) array of slots, is kept for
    the next allocation: [recycle] empties it and [set_up] starts it over. *)

Definition kRecycledChunkEntries : Z := 16.
Definition kAllBytesDirty : Z := u64_max.

Section life.
Context {B : Type} `{HostBacking B}.

(** What may be non-zero in chunk [i] of the allocation. *)
Definition chunk_dirty (a : Allocation) (i : Z) : Z :=
  if i + 1 <? chunk_count a then kChunkSize else a_size a - i * kChunkSize.

(** Allocation::release: every real chunk goes back to the backing. *)
Definition release_allocation (a : Allocation) (b : B) : Allocation * B :=
  match chunks a with
  | None => (a, b)
  | Some t =>
      if external a then
        (mkAllocation (a_size a) (chunk_count a) (chunk_capacity a) (chunks a)
           false (external_len a) (card_valid a), b)
      else
        (a, foldl (λ b i, match t !! i with
                          | Some (Real p _) => release p (chunk_dirty a i) b
                          | _ => b
                          end) b (seqZ 0 (chunk_count a)))
  end.

(** Allocation::recycle *)
Definition recycle (a : Allocation) (b : B) : Allocation * B :=
  let '(a1, b1) := release_allocation a b in
  match chunks a1 with
  | Some t =>
      if (chunk_capacity a1 <=? kRecycledChunkEntries) && negb (external a1) then
        (mkAllocation 0 0 (chunk_capacity a1)
           (Some (foldl (λ t i, delete i t) t (seqZ 0 (chunk_count a1))))
           false 0 (card_valid a1), b1)
      else (mkAllocation 0 0 0 None false 0 (card_valid a1), b1)
  | None => (mkAllocation 0 0 0 None false 0 (card_valid a1), b1)
  end.
End life.

(** Allocation::set_up *)
Definition set_up (a : Allocation) (bytes : Z) : Allocation :=
  let count := (bytes + kChunkSize - 1) / kChunkSize in
  match chunks a with
  | Some t =>
      if chunk_capacity a <? count
      then mkAllocation bytes count count (Some ∅) (external a) (external_len a) 0
      else mkAllocation bytes count (chunk_capacity a) (Some t) (external a) (external_len a) 0
  | None => mkAllocation bytes count count (Some ∅) (external a) (external_len a) 0
  end.

(** A record ready for [set_up]: no slot of its array holds anything. *)
Definition spare (a : Allocation) : Prop :=
  external a = false ∧ ∀ t, chunks a = Some t → t = ∅.

Lemma spare_empty_allocation : spare empty_allocation.
Proof. done. Qed.

Lemma foldl_delete_lookup {A} (l : list Z) (t : gmap Z A) i :
  foldl (λ t i, delete i t) t l !! i = if decide (i ∈ l) then None else t !! i.
Proof.
  revert t. induction l as [|k l IH]; intros t; cbn [foldl].
  - by rewrite decide_False by set_solver.
  - rewrite IH. destruct (decide (i ∈ l)); [by rewrite decide_True by set_solver|].
    destruct (decide (k = i)) as [->|].
    + rewrite decide_True by set_solver. apply lookup_delete_eq.
    + rewrite decide_False by set_solver. by apply lookup_delete_ne.
Qed.

Lemma recycle_spare {B} `{HostBacking B} a (b : B) : wf_alloc a → spare (fst (recycle a b)).
Proof.
  intros [_ _ (t & Ht & Hok)]. unfold recycle, release_allocation. rewrite Ht.
  assert (Hempty : foldl (λ t i, delete i t) t (seqZ 0 (chunk_count a)) = ∅).
  { apply map_empty. intros i. rewrite foldl_delete_lookup.
    destruct (decide _) as [|Hn]; [done|]. destruct (t !! i) as [c|] eqn:Hc; [|done].
    destruct (Hok _ _ Hc). exfalso. apply Hn, elem_of_seqZ. lia. }
  destruct (external a) eqn:Hx; cbn [chunks chunk_capacity external chunk_count]; rewrite ?Ht, ?Hx;
    case_if; (split; [done|]); simpl; intros ? [= <-]; done.
Qed.

(** Every allocation starts with every byte zero, whatever its record held before. *)
Lemma set_up_fresh a bytes : spare a → 0 ≤ bytes →
  wf_alloc (set_up a bytes) ∧ a_size (set_up a bytes) = bytes ∧
  ∀ j, content (set_up a bytes) j = 0.
Proof.
  intros [Hx Hs] Hb. unfold set_up, content.
  destruct (chunks a) as [t|] eqn:Ht; [rewrite (Hs t eq_refl); case_if|];
    (split; [split; [done|done|eexists; split; [done|]; intros ?? Hl; by rewrite lookup_empty in Hl]|]);
    (split; [done|]; intros j; simpl; by rewrite lookup_empty).
Qed.
