(* ===== verification/HostMaps.v ===== *)
(** * Host buffers the device can address (src/core/memory.cpp, HostMaps)

    Managed, pinned and shared buffers live at host addresses; the memory
    manager keeps a vector of them, a bounded vector of the ones recently
    unmapped, and three conservative summaries (lowest and highest address ever
    mapped, and whether a device window was ever touched) that let a device
    access skip the lock. A per-thread cache remembers the last hits. *)

From S2P Require Import Prelude.

(** ** The device address windows (include/vgpu/memory.hpp) *)

Definition kDeviceVaBase : Z := 35184372088832.      (* 0x2000'0000'0000 *)
Definition kDeviceVaStride : Z := 1099511627776.     (* 1 TiB *)
Definition kDeviceVaWindows : Z := 16.
Definition kDeviceVaEnd : Z := kDeviceVaBase + kDeviceVaWindows * kDeviceVaStride.
Definition is_device_va (addr : Z) : bool := (kDeviceVaBase <=? addr) && (addr <? kDeviceVaEnd).

Record HostMap := mkHostMap {
  hm_base : Z;
  hm_len : Z;
  hm_host : Z;
  hm_read_only : bool;
}.

Record HostMaps := mkHostMaps {
  maps : list HostMap;
  retired : list HostMap;
  lo : Z;
  hi : Z;
  gen : Z;
  in_device_window : bool;
}.

Definition kRetiredHostMaps : nat := 256.

(** [fresh_generation] is a process-wide counter; the caller supplies its value. *)
Definition new_host_maps (g : Z) : HostMaps := mkHostMaps [] [] u64_max 0 g false.

Definition may_contain (h : HostMaps) (addr : Z) : bool :=
  if is_device_va addr && negb (in_device_window h) then false
  else (lo h <=? addr) && (addr <? hi h).

Definition may_overlap (h : HostMaps) (first last : Z) : bool :=
  if is_device_va first && is_device_va last && negb (in_device_window h) then false
  else (first <? hi h) && (lo h <=? last).

(** The test of find_host_map_locked and of the cache: both sums wrap. *)
Definition hit_test (base maplen addr len : Z) : bool :=
  (base <=? addr) && (u64 (addr + len) <=? u64 (base + maplen)).

Definition find_host_map_locked (h : HostMaps) (addr len : Z) : option HostMap :=
  list_find (λ m, hit_test (hm_base m) (hm_len m) addr len = true) (maps h) ≫= λ p, Some p.2.

Definition map_host (addr host len : Z) (read_only : bool) (g : Z) (h : HostMaps) : HostMaps :=
  {| maps := maps h ++ [mkHostMap addr len host read_only];
     retired := filter (λ r, negb ((hm_base r <? u64 (addr + len)) &&
                                   (addr <? u64 (hm_base r + hm_len r))) = true) (retired h);
     lo := if addr <? lo h then addr else lo h;
     hi := if hi h <? u64 (addr + len) then u64 (addr + len) else hi h;
     gen := g;
     in_device_window :=
       if (addr <? kDeviceVaEnd) && (kDeviceVaBase <? u64 (addr + len)) then true
       else in_device_window h |}.

(** [unmap_host]: the first mapping that starts there goes to the retired list. *)
Definition unmap_host (addr g : Z) (h : HostMaps) : HostMaps :=
  match list_find (λ m, hm_base m = addr) (maps h) with
  | Some (i, m) =>
      let r := if (kRetiredHostMaps <=? length (retired h))%nat then tail (retired h) else retired h in
      {| maps := take i (maps h) ++ drop (S i) (maps h);
         retired := r ++ [mkHostMap (hm_base m) (hm_len m) 0 false];
         lo := lo h; hi := hi h; gen := g; in_device_window := in_device_window h |}
  | None => h
  end.

Record HostPiece := mkHostPiece { hp_host : Z; hp_offset : Z; hp_len : Z }.

(** [host_pieces]: the mappings that hold [addr, addr + len) end to end;
    [inl None] is "false", and a read-only piece of a write traps. *)
Fixpoint host_pieces_loop (fuel : nat) (h : HostMaps) (addr at_ left : Z) (for_write : bool)
    (pieces : list HostPiece) : option (list HostPiece) + exn :=
  if left =? 0 then inl (Some pieces) else
  match fuel with
  | O => inl None
  | S fuel' =>
      match find_host_map_locked h at_ 1 with
      | None => inl None
      | Some m =>
          if for_write && hm_read_only m then inr (Error Trap) else
          let n := Z.min left (u64 (hm_base m + hm_len m - at_)) in
          host_pieces_loop fuel' h addr (u64 (at_ + n)) (left - n) for_write
            (pieces ++ [mkHostPiece (hm_host m + (at_ - hm_base m)) (at_ - addr) n])
      end
  end.
Definition host_pieces (h : HostMaps) (addr len : Z) (for_write : bool) :
    option (list HostPiece) + exn :=
  if negb (may_contain h addr) then inl None
  else host_pieces_loop (S (length (maps h))) h addr addr len for_write [].

(** ** The per-thread cache of hits ([lookup_host]) *)

Record HostHit := mkHostHit { hh_host : Z; hh_base : Z; hh_len : Z; hh_read_only : bool }.
Record HostEntry := mkHostEntry { he_owner : Z; he_gen : Z; he_hit : HostHit }.
Record HostCache := mkHostCache { entries : list HostEntry; next : nat }.

Definition hit_of (m : HostMap) : HostHit :=
  mkHostHit (hm_host m) (hm_base m) (hm_len m) (hm_read_only m).

(** [owner] identifies the manager's HostMaps; an empty cache slot is absent. *)
Definition lookup_host (cache_on : bool) (owner : Z) (h : HostMaps) (c : HostCache) (addr len : Z) :
    option HostHit * HostCache :=
  if negb cache_on then (hit_of <$> find_host_map_locked h addr len, c) else
  match list_find (λ e, he_owner e = owner ∧ he_gen e = gen h ∧
           hit_test (hh_base (he_hit e)) (hh_len (he_hit e)) addr len = true) (entries c) with
  | Some (_, e) => (Some (he_hit e), c)
  | None =>
      match find_host_map_locked h addr len with
      | None => (None, c)
      | Some m =>
          let e := mkHostEntry owner (gen h) (hit_of m) in
          let i := (next c mod 4)%nat in
          (Some (hit_of m),
           mkHostCache (if (i <? length (entries c))%nat then <[i:=e]> (entries c)
                        else entries c ++ [e]) (S (next c)))
      end
  end.

(** ** Invariant *)

(** A mapping is a real buffer of this process: it does not wrap. *)
Definition good_map (m : HostMap) : Prop :=
  0 ≤ hm_base m ∧ 0 ≤ hm_len m ∧ hm_base m + hm_len m ≤ u64_max.

Record host_inv (h : HostMaps) : Prop := {
  hi_good : Forall good_map (maps h);
  hi_bounds : ∀ m, m ∈ maps h → lo h ≤ hm_base m ∧ hm_base m + hm_len m ≤ hi h;
  hi_window : ∀ m, m ∈ maps h → hm_base m < kDeviceVaEnd →
    kDeviceVaBase < hm_base m + hm_len m → in_device_window h = true;
  hi_retired : (length (retired h) ≤ kRetiredHostMaps)%nat;
}.

(** A byte range inside a mapping. *)
Definition holds_range (m : HostMap) (addr len : Z) : Prop :=
  hm_base m ≤ addr ∧ addr + len ≤ hm_base m + hm_len m.

Lemma hit_test_holds m addr len :
  good_map m → 0 ≤ addr → 0 ≤ len → addr + len ≤ u64_max →
  hit_test (hm_base m) (hm_len m) addr len = true ↔ holds_range m addr len.
Proof.
  unfold good_map, hit_test, holds_range, u64_max. intros Hg Ha Hl Hw.
  rewrite !u64_small by (unfold is_u64; lia). rewrite andb_true_iff, !Z.leb_le. lia.
Qed.

Lemma find_host_map_Some h addr len m :
  find_host_map_locked h addr len = Some m →
  m ∈ maps h ∧ hit_test (hm_base m) (hm_len m) addr len = true.
Proof.
  unfold find_host_map_locked. destruct (list_find _ _) as [[i m']|] eqn:E; [|done].
  intros [= <-]. apply list_find_Some in E as (Hl & Hp & _).
  split; [by eapply list_elem_of_lookup_2|done].
Qed.

Lemma find_host_map_None h addr len :
  find_host_map_locked h addr len = None →
  ∀ m, m ∈ maps h → hit_test (hm_base m) (hm_len m) addr len = false.
Proof.
  unfold find_host_map_locked. destruct (list_find _ _) as [[i m']|] eqn:E; [done|].
  intros _ m Hm. apply list_find_None in E. rewrite Forall_forall in E.
  specialize (E m Hm). by destruct (hit_test _ _ _ _).
Qed.

Lemma host_inv_new g : host_inv (new_host_maps g).
Proof. split; simpl; [done|set_solver|set_solver|lia]. Qed.

Lemma host_inv_map addr host len ro g h :
  host_inv h → 0 ≤ addr → 0 ≤ len → addr + len ≤ u64_max →
  host_inv (map_host addr host len ro g h).
Proof.
  unfold u64_max. intros [Hg Hb Hw Hr] Ha Hl Hs.
  assert (Hu : u64 (addr + len) = addr + len) by (apply u64_small; unfold is_u64; lia).
  split; simpl; rewrite ?Hu.
  - apply Forall_app. split; [done|]. constructor; [|done]. split_and!; simpl; unfold u64_max; lia.
  - intros m [Hm|Hm]%elem_of_app.
    + destruct (Hb m Hm). repeat case_if; lia.
    + apply list_elem_of_singleton in Hm as ->. simpl. repeat case_if; lia.
  - intros m [Hm|Hm]%elem_of_app H1 H2; case_if; try done.
    + by eapply Hw.
    + apply list_elem_of_singleton in Hm as ->. simpl in *. bool_cases.
  - etrans; [|exact Hr]. apply length_filter.
Qed.

Lemma host_inv_unmap addr g h : host_inv h → host_inv (unmap_host addr g h).
Proof.
  intros [Hg Hb Hw Hr]. unfold unmap_host.
  destruct (list_find _ _) as [[i m]|] eqn:E; [|done].
  assert (Hsub : ∀ m', m' ∈ take i (maps h) ++ drop (S i) (maps h) → m' ∈ maps h).
  { intros m' [Hm|Hm]%elem_of_app; [by eapply subseteq_take|by eapply subseteq_drop]. }
  split; cbn [maps retired lo hi gen in_device_window].
  - rewrite Forall_forall in *. auto.
  - intros m' Hm. by apply Hb, Hsub.
  - intros m' Hm. by apply Hw, Hsub.
  - rewrite length_app. cbn [length].
    destruct (Nat.leb_spec kRetiredHostMaps (length (retired h))) as [Hle|Hle].
    + unfold kRetiredHostMaps in *. revert Hr Hle. destruct (retired h); cbn [length tail]; lia.
    + unfold kRetiredHostMaps in *. lia.
Qed.

(** ** The summaries are conservative *)

Lemma may_contain_hit h m addr :
  host_inv h → m ∈ maps h → hm_base m ≤ addr < hm_base m + hm_len m → may_contain h addr = true.
Proof.
  intros [Hg Hb Hw _] Hm Ha. destruct (Hb m Hm). unfold may_contain, is_device_va.
  destruct (in_device_window h) eqn:Ew; rewrite ?andb_false_r, ?andb_true_r; simpl;
    [bool_cases|].
  destruct ((kDeviceVaBase <=? addr) && (addr <? kDeviceVaEnd)) eqn:Ed; [|bool_cases].
  zify_bool. apply (Hw m Hm); lia.
Qed.

Lemma may_overlap_hit h m addr first last :
  host_inv h → m ∈ maps h → hm_base m ≤ addr < hm_base m + hm_len m →
  first ≤ addr ≤ last → may_overlap h first last = true.
Proof.
  intros [Hg Hb Hw _] Hm Ha Hr. destruct (Hb m Hm). unfold may_overlap, is_device_va.
  destruct (in_device_window h) eqn:Ew; rewrite ?andb_false_r, ?andb_true_r; simpl;
    [bool_cases|].
  case_if; [|bool_cases]. apply (Hw m Hm); lia.
Qed.

(** ** The pieces of a range *)

(** Mappings not yet behind [at_]. *)
Definition maps_after (h : HostMaps) (at_ : Z) : nat :=
  length (filter (λ m, at_ < hm_base m + hm_len m) (maps h)).

Lemma maps_after_decreases h m at_ at_' :
  m ∈ maps h → at_ < hm_base m + hm_len m → hm_base m + hm_len m ≤ at_' →
  (maps_after h at_' < maps_after h at_)%nat.
Proof.
  unfold maps_after. intros Hm Hlt Hge.
  induction (maps h) as [|m' l IH]; [set_solver|].
  assert (Hmono : (length (filter (λ m, (at_' < hm_base m + hm_len m)%Z) l)
            ≤ length (filter (λ m, (at_ < hm_base m + hm_len m)%Z) l))%nat).
  { clear -Hlt Hge. induction l as [|x l IHl]; [done|]. rewrite !filter_cons.
    repeat case_decide; simpl; lia. }
  rewrite !filter_cons. apply elem_of_cons in Hm as [<-|Hm].
  - rewrite decide_False, decide_True by lia. simpl. lia.
  - specialize (IH Hm). repeat case_decide; simpl; lia.
Qed.

(** Where byte [i] of the range lives, according to the pieces. *)
Fixpoint pieces_cover (h : HostMaps) (addr off : Z) (ps : list HostPiece) (len : Z) : Prop :=
  match ps with
  | [] => off = len
  | p :: ps' =>
      hp_offset p = off ∧ 0 < hp_len p ∧
      (∃ m, m ∈ maps h ∧ holds_range m (addr + off) (hp_len p) ∧
            hp_host p = hm_host m + (addr + off - hm_base m)) ∧
      pieces_cover h addr (off + hp_len p) ps' len
  end.

Lemma pieces_cover_app h addr off ps1 ps2 mid len :
  pieces_cover h addr off ps1 mid → pieces_cover h addr mid ps2 len →
  pieces_cover h addr off (ps1 ++ ps2) len.
Proof.
  revert off. induction ps1 as [|p ps IH]; intros off; simpl; [by intros ->|].
  intros (? & ? & ? & ?) ?. auto.
Qed.

Lemma host_pieces_loop_spec fuel h addr done left fw ps :
  host_inv h → 0 ≤ addr → 0 ≤ done → 0 ≤ left → addr + done + left ≤ u64_max →
  pieces_cover h addr 0 ps done → (maps_after h (addr + done) < fuel)%nat →
  match host_pieces_loop fuel h addr (addr + done) left fw ps with
  | inl (Some ps') => pieces_cover h addr 0 ps' (done + left)
  | inl None => ∃ i, done ≤ i < done + left ∧
      ∀ m, m ∈ maps h → ¬ hm_base m ≤ addr + i < hm_base m + hm_len m
  | inr e => e = Error Trap ∧ fw = true ∧ ∃ m i, m ∈ maps h ∧ hm_read_only m = true ∧
      done ≤ i < done + left ∧ hm_base m ≤ addr + i < hm_base m + hm_len m
  end.
Proof.
  intros Hinv Ha. revert done left ps.
  induction fuel as [|fuel IH]; intros done left ps Hd Hl Hs Hps Hf; [lia|].
  cbn [host_pieces_loop]. destruct (Z.eqb_spec left 0) as [->|Hl0]; [by rewrite Z.add_0_r|].
  destruct (find_host_map_locked h (addr + done) 1) as [m|] eqn:E.
  2:{ exists done. split; [lia|]. intros m Hm.
      pose proof (find_host_map_None _ _ _ E m Hm) as Hn. intros Hin.
      pose proof (proj1 (Forall_forall _ _) (hi_good _ Hinv) m Hm) as Hg.
      apply not_true_iff_false in Hn. apply Hn, hit_test_holds; try done; try lia.
      unfold holds_range. lia. }
  apply find_host_map_Some in E as [Hm Ht].
  pose proof (proj1 (Forall_forall _ _) (hi_good _ Hinv) m Hm) as Hg.
  apply hit_test_holds in Ht as [Hlo Hhi]; try done; try lia.
  destruct (fw && hm_read_only m) eqn:Er.
  { apply andb_true_iff in Er as [-> ?]. split; [done|split; [done|]]. exists m, done.
    split; [done|]. split; [done|]. lia. }
  destruct Hg as (? & ? & Hgw).
  rewrite (u64_small (hm_base m + hm_len m - (addr + done)))
    by (unfold is_u64, u64_max in *; lia).
  set (n := Z.min left (hm_base m + hm_len m - (addr + done))).
  rewrite u64_small by (unfold is_u64, u64_max in *; lia).
  assert (Hcov : pieces_cover h addr 0
    (ps ++ [mkHostPiece (hm_host m + (addr + done - hm_base m)) (addr + done - addr) n]) (done + n)).
  { eapply pieces_cover_app; [exact Hps|]. simpl. split; [lia|]. split; [lia|].
    split; [exists m; split; [done|]; unfold holds_range; split; [lia|done]|done]. }
  replace (addr + done + n) with (addr + (done + n)) by lia.
  destruct (Z.eqb_spec n left) as [En|En].
  - rewrite En, Z.sub_diag in *. destruct fuel; cbn [host_pieces_loop]; simpl; done.
  - assert (Hmf : (maps_after h (addr + (done + n)) < maps_after h (addr + done))%nat)
      by (apply (maps_after_decreases _ m); [done|lia..]).
    specialize (IH (done + n) (left - n) _ ltac:(lia) ltac:(lia) ltac:(lia) Hcov ltac:(lia)).
    replace (done + n + (left - n)) with (done + left) in IH by lia.
    destruct (host_pieces_loop _ _ _ _ _ _ _) as [[ps'|]|e]; [done| |].
    + destruct IH as (i & ? & ?). exists i. split; [lia|done].
    + destruct IH as (? & ? & m' & i & ? & ? & ? & ?). split; [done|split; [done|]].
      exists m', i. split; [done|]. split; [done|]. lia.
Qed.

(** ** The cache answers as the table does *)

(** Every remembered hit under the current generation is a mapping of the table. *)
Definition cache_valid (owner : Z) (h : HostMaps) (c : HostCache) : Prop :=
  ∀ e, e ∈ entries c → he_owner e = owner → he_gen e = gen h →
    ∃ m, m ∈ maps h ∧ he_hit e = hit_of m.

Lemma lookup_host_valid on owner h c addr len :
  cache_valid owner h c → cache_valid owner h (snd (lookup_host on owner h c addr len)).
Proof.
  intros Hc. unfold lookup_host. destruct on; cbn [negb snd]; [|done].
  destruct (list_find _ _) as [[i e]|]; [done|].
  destruct (find_host_map_locked h addr len) as [m|] eqn:E; [|done]. cbn [snd entries].
  apply find_host_map_Some in E as [Hm _].
  intros e He Ho Hg. cbn [snd entries] in He.
  destruct ((next c mod 4 <? length (entries c))%nat).
  - apply list_elem_of_lookup in He as [k Hk].
    apply list_lookup_insert_Some in Hk as [(_ & <- & _)|[_ Hk]]; [by exists m|].
    apply Hc; [by eapply list_elem_of_lookup_2|done..].
  - apply elem_of_app in He as [He|He]; [by apply Hc|].
    apply list_elem_of_singleton in He as ->. by exists m.
Qed.

Lemma lookup_host_sound on owner h c addr len hit :
  cache_valid owner h c → fst (lookup_host on owner h c addr len) = Some hit →
  ∃ m, m ∈ maps h ∧ hit = hit_of m ∧ hit_test (hm_base m) (hm_len m) addr len = true.
Proof.
  intros Hc. unfold lookup_host. destruct on; simpl.
  - destruct (list_find _ _) as [[i e]|] eqn:E.
    + intros [= <-]. apply list_find_Some in E as (Hl & (Ho & Hg & Ht) & _).
      destruct (Hc e) as (m & Hm & Hh); [by eapply list_elem_of_lookup_2|done..|].
      exists m. split; [done|]. split; [done|]. rewrite Hh in Ht. done.
    + destruct (find_host_map_locked h addr len) as [m|] eqn:F; [|done].
      intros [= <-]. apply find_host_map_Some in F as []. by exists m.
  - destruct (find_host_map_locked h addr len) as [m|] eqn:F; [|done].
    intros [= <-]. apply find_host_map_Some in F as []. by exists m.
Qed.

Lemma lookup_host_complete on owner h c addr len :
  cache_valid owner h c → fst (lookup_host on owner h c addr len) = None →
  find_host_map_locked h addr len = None.
Proof.
  intros Hc. unfold lookup_host. destruct on; simpl.
  - destruct (list_find _ _) as [[i e]|] eqn:E; [done|].
    by destruct (find_host_map_locked h addr len).
  - by destruct (find_host_map_locked h addr len).
Qed.
