(* ===== verification/BrLock.v ===== *)
(** * The big-reader lock and its epochs (include/vgpu/brlock.hpp)

    [Epoch]: the stamp readers remember answers under, the ring of the last
    frees, and when a remembered answer still holds, with the writer's stores and
    the reader's loads interleaved. [Lock]: readers counted in slots against one
    writer, as a step relation of any number of threads. *)

From S2P Require Import Prelude.

Module Epoch.

Definition kCountMask : Z := 65535.
Definition kRing : Z := 64.

(** [next_epoch]: the generator's state, the number drawn. *)
Definition next_epoch (state : Z) : Z * Z :=
  let state' := u64 (state + 11400714819323198485) in
  let z := u64 (Z.lxor state' (Z.shiftr state' 30) * 13787848793156543929) in
  let z := u64 (Z.lxor z (Z.shiftr z 27) * 10723151780598845931) in
  let z := Z.lxor z (Z.shiftr z 31) in
  let z := Z.land z (u64 (Z.lnot kCountMask)) in
  (if z =? 0 then kCountMask + 1 else z, state').

Record Stamps := mkStamps {
  stamp_ : Z;
  ring_ : gmap Z Z;   (* kRing slots; one never stored to holds 0 *)
}.

Definition ring_at (e : Stamps) (i : Z) : Z := default 0 (ring_ e !! i).

(** [note_free], as the writer's two stores: the ring's slot, then the stamp.
    [fresh] is the number drawn when the count is used up. *)
Definition note_free_ring (base : Z) (e : Stamps) : Stamps :=
  mkStamps (stamp_ e) (<[(stamp_ e + 1) mod kRing := base]> (ring_ e)).
Definition note_free_stamp (e : Stamps) : Stamps := mkStamps (u64 (stamp_ e + 1)) (ring_ e).
Definition bump (fresh : Z) (e : Stamps) : Stamps := mkStamps fresh (ring_ e).
Definition note_free (fresh base : Z) (e : Stamps) : Stamps :=
  if Z.land (stamp_ e) kCountMask =? kCountMask then bump fresh e
  else note_free_stamp (note_free_ring base e).

(** [still_valid]: the stamp is loaded from [e], slot [q]'s base from [er q],
    the last check of the stamp from [e2]; the result is the epoch to remember. *)
Fixpoint ring_scan (fuel : nat) (er : Z → Stamps) (q cur base : Z) : bool :=
  match fuel with
  | O => true
  | S fuel' =>
      if q <=? cur then
        if ring_at (er q) (q mod kRing) =? base then false else ring_scan fuel' er (q + 1) cur base
      else true
  end.
Definition still_valid (e : Stamps) (er : Z → Stamps) (e2 : Stamps) (seen base : Z) : option Z :=
  let cur := stamp_ e in
  if negb (Z.shiftr (Z.lxor seen cur) 16 =? 0) || (cur <? seen) || (kRing <? cur - seen) then None else
  if ring_scan (Z.to_nat (cur - seen)) er (seen + 1) cur base then
    if kRing <? u64 (stamp_ e2 - seen) then None else Some cur
  else None.

(** ** What the draws promise *)

Definition is_stamp (s : Z) : Prop := is_u64 s ∧ kCountMask < s.

Lemma next_epoch_range state : is_u64 state →
  let z := fst (next_epoch state) in is_u64 z ∧ kCountMask < z ∧ z mod 65536 = 0.
Proof.
  intros Hs. unfold next_epoch. cbn -[u64].
  match goal with |- context [Z.land ?x ?y] => set (z := x) in |- *; change y with (Z.shiftl (2 ^ 48 - 1) 16) end.
  assert (Hz : is_u64 z).
  { unfold z. match goal with |- is_u64 (Z.lxor ?a (Z.shiftr _ _)) => set (y := a) end.
    pose proof (u64_range 0) as _. assert (Hy : is_u64 y) by apply u64_range. clearbody y. clear -Hy.
    unfold is_u64 in *. split; [apply Z.lxor_nonneg; rewrite Z.shiftr_nonneg; lia|].
    destruct (decide (Z.lxor y (Z.shiftr y 31) = 0)) as [->|]; [lia|].
    assert (0 ≤ Z.lxor y (Z.shiftr y 31)) by (apply Z.lxor_nonneg; rewrite Z.shiftr_nonneg; lia).
    change 18446744073709551616 with (2 ^ 64). apply Z.log2_lt_pow2; [lia|].
    eapply Z.le_lt_trans; [apply Z.log2_lxor; [lia|apply Z.shiftr_nonneg; lia]|].
    destruct (decide (y = 0)) as [->|]; [by vm_compute|]. rewrite Z.log2_shiftr by lia.
    assert (Z.log2 y < 64) by (apply Z.log2_lt_pow2; lia). lia. }
  clearbody z. unfold is_u64 in *.
  replace (Z.land z (Z.shiftl (2 ^ 48 - 1) 16)) with (Z.shiftl (z / 65536) 16).
  2:{ apply Z.bits_inj'. intros n Hn. rewrite Z.land_spec. change 65536 with (2 ^ 16).
      rewrite <- Z.shiftr_div_pow2 by lia.
      destruct (Z.lt_ge_cases n 16); [rewrite !Z.shiftl_spec_low by lia; by rewrite andb_false_r|].
      rewrite !Z.shiftl_spec, Z.shiftr_spec by lia. rewrite Z.sub_add.
      change (2 ^ 48 - 1) with (Z.ones 48). destruct (Z.lt_ge_cases (n - 16) 48).
      - by rewrite Z.ones_spec_low, andb_true_r by lia.
      - rewrite Z.ones_spec_high, andb_false_r by lia.
        rewrite <- (Z.mod_small z (2 ^ 64)) by lia. by rewrite Z.mod_pow2_bits_high by lia. }
  rewrite Z.shiftl_mul_pow2 by lia. change (2 ^ 16) with 65536. unfold kCountMask.
  pose proof (Z.div_mod z 65536 ltac:(lia)). pose proof (Z.mod_pos_bound z 65536 ltac:(lia)).
  destruct (Z.eqb_spec (z / 65536 * 65536) 0); [done|].
  split; [lia|]. split; [lia|]. by apply Z_mod_mult.
Qed.

Lemma same_part seen cur : is_u64 seen → is_u64 cur →
  (Z.shiftr (Z.lxor seen cur) 16 =? 0) = (seen / 65536 =? cur / 65536).
Proof.
  intros Hs Hc. rewrite Z.shiftr_lxor, !Z.shiftr_div_pow2 by lia. change (2 ^ 16) with 65536.
  destruct (Z.eqb_spec (seen / 65536) (cur / 65536)) as [->|Hne]; [by rewrite Z.lxor_nilpotent|].
  apply Z.eqb_neq. by rewrite Z.lxor_eq_0_iff.
Qed.

(** ** A writer's run

    The writer's own history since a reader remembered an answer under [seen]:
    the frees completed, one under way, and whether everything was voided. *)
Record Writer := mkWriter {
  w_e : Stamps;
  w_pending : option Z;
  w_freed : list Z;
  w_void : bool;
}.

(** A number drawn later is unlike the one remembered: another random part, and
    not just above it. *)
Definition fresh_for (seen d : Z) : Prop :=
  is_u64 d ∧ d mod 65536 = 0 ∧ kCountMask < d ∧ d / 65536 ≠ seen / 65536 ∧ ¬ seen < d ≤ seen + kRing.

Inductive wstep (seen : Z) : Writer → Writer → Prop :=
  | W_ring e freed v base :
      Z.land (stamp_ e) kCountMask ≠ kCountMask →
      wstep seen (mkWriter e None freed v) (mkWriter (note_free_ring base e) (Some base) freed v)
  | W_stamp e base freed v :
      wstep seen (mkWriter e (Some base) freed v) (mkWriter (note_free_stamp e) None (freed ++ [base]) v)
  | W_bump e freed v d :
      fresh_for seen d →
      wstep seen (mkWriter e None freed v) (mkWriter (bump d e) None freed true).

Definition wrun (seen : Z) : Writer → Writer → Prop := rtc (wstep seen).

(** A whole [note_free] is a run of it. *)
Lemma note_free_run seen d base e freed v :
  fresh_for seen d →
  wrun seen (mkWriter e None freed v)
    (if Z.land (stamp_ e) kCountMask =? kCountMask
     then mkWriter (note_free d base e) None freed true
     else mkWriter (note_free d base e) None (freed ++ [base]) v).
Proof.
  intros Hd. unfold note_free. destruct (Z.eqb_spec (Z.land (stamp_ e) kCountMask) kCountMask).
  - by apply rtc_once, W_bump.
  - eapply rtc_l; [by apply W_ring|]. apply rtc_once, W_stamp.
Qed.

(** The slot a free's number takes holds its base until sixty-four frees later. *)
Definition held (seen : Z) (w : Writer) : Prop :=
  ∀ i b, w_freed w !! i = Some b →
    Z.of_nat (length (w_freed w)) + (if w_pending w is Some _ then 1 else 0) ≤ Z.of_nat i + kRing →
    ring_at (w_e w) ((seen + 1 + Z.of_nat i) mod kRing) = b.

Record winv (seen : Z) (w : Writer) : Prop := {
  wi_stamp : is_stamp (stamp_ (w_e w));
  wi_room : is_Some (w_pending w) → stamp_ (w_e w) mod 65536 < 65535;
  wi_pending : ∀ b, w_pending w = Some b → ring_at (w_e w) ((stamp_ (w_e w) + 1) mod kRing) = b;
  wi_void : w_void w = true →
    stamp_ (w_e w) / 65536 ≠ seen / 65536 ∧ ¬ seen < stamp_ (w_e w) ≤ seen + kRing;
  wi_count : w_void w = false → stamp_ (w_e w) = seen + Z.of_nat (length (w_freed w)) ∧
    seen / 65536 = stamp_ (w_e w) / 65536 ∧ held seen w;
}.

Lemma winv_start seen e : is_stamp seen → stamp_ e = seen → winv seen (mkWriter e None [] false).
Proof.
  intros Hs He. split; cbn; [by rewrite He|by intros []|done|done|].
  intros _. rewrite He, Z.add_0_r. by split_and!.
Qed.

Lemma land_mask s : Z.land s kCountMask = s mod 65536.
Proof. unfold kCountMask. change 65535 with (2 ^ 16 - 1). by rewrite land_pow2_mod by lia. Qed.

Lemma stamp_succ s : is_stamp s → s mod 65536 < 65535 →
  u64 (s + 1) = s + 1 ∧ is_stamp (s + 1) ∧ (s + 1) / 65536 = s / 65536.
Proof.
  unfold is_stamp, is_u64, kCountMask. intros Hs Hm.
  pose proof (Z.div_mod s 65536 ltac:(lia)).
  assert (s < 18446744073709551615).
  { destruct (decide (s = 18446744073709551615)) as [->|]; [by vm_compute in Hm|lia]. }
  split; [apply u64_small; unfold is_u64; lia|]. split; [lia|].
  symmetry. apply (Z.div_unique_pos _ _ _ (s mod 65536 + 1));
    pose proof (Z.mod_pos_bound s 65536); lia.
Qed.

Lemma winv_step seen w w' : is_stamp seen → winv seen w → wstep seen w w' → winv seen w'.
Proof.
  intros Hseen [Hst Hroom Hpend Hvoid Hcount] Hstep.
  destruct Hstep as [e freed v base Hm|e base freed v|e freed v d Hd]; cbn in *.
  - rewrite land_mask in Hm. unfold kCountMask in Hm. pose proof (Z.mod_pos_bound (stamp_ e) 65536).
    split; cbn; [done|intros _; lia| |done|].
    { intros b [= ->]. unfold ring_at. cbn. by rewrite lookup_insert_eq. }
    intros Hv. destruct (Hcount Hv) as (He & Hp & Hh).
    split_and!; try done. intros i b Hi Hle. cbn in *.
    pose proof (lookup_lt_Some _ _ _ Hi). specialize (Hh i b Hi ltac:(cbn; lia)). cbn in Hh.
    unfold ring_at, note_free_ring in *. cbn. rewrite lookup_insert_ne; [done|].
    rewrite He. intros E. apply Z.cong_iff_0 in E.
    apply Z.mod_divide in E as [k E]; unfold kRing in *; lia.
  - destruct (stamp_succ (stamp_ e) Hst) as (Hu & Hs & Hd); [apply Hroom; eauto|].
    split; cbn; rewrite ?Hu; [done|by intros []|done| |].
    + intros Hv. destruct (Hvoid Hv) as [H1 H2]. split; [lia|]. unfold kRing in *.
      intros H3. assert (stamp_ e = seen) as E by lia. by rewrite E in H1.
    + intros Hv. destruct (Hcount Hv) as (He & Hp & Hh). rewrite length_app. cbn.
      split; [lia|]. split; [lia|]. intros i b [Hi|[Hi Hb]]%lookup_app_Some Hle; cbn in *.
      * rewrite length_app in Hle. cbn in Hle. apply (Hh i b Hi). cbn. lia.
      * apply list_lookup_singleton_Some in Hb as [Hi' <-].
        rewrite <- (Hpend base eq_refl). unfold ring_at, note_free_stamp. cbn. do 3 f_equal. lia.
  - destruct Hd as (? & ? & ? & ? & ?). by split; cbn; [|intros []|..].
Qed.

Lemma winv_run seen w w' : is_stamp seen → winv seen w → wrun seen w w' → winv seen w'.
Proof. intros Hs Hi Hr. induction Hr; [done|]. by eauto using winv_step. Qed.

(** A run only adds frees, and never takes a void back. *)
Lemma wstep_grows seen w w' : wstep seen w w' →
  (∃ l, w_freed w' = w_freed w ++ l) ∧ (w_void w = true → w_void w' = true).
Proof.
  destruct 1; cbn; (split; [|done]); first [by exists [base] | exists []; by rewrite app_nil_r].
Qed.

Lemma wrun_grows seen w w' : wrun seen w w' →
  (∃ l, w_freed w' = w_freed w ++ l) ∧ (w_void w = true → w_void w' = true).
Proof.
  induction 1 as [w|w w1 w2 Hs Hr IH]; [split; [exists []; by rewrite app_nil_r|done]|].
  destruct (wstep_grows _ _ _ Hs) as [[l E] ?], IH as [[l' ->] ?]. rewrite E.
  split; [exists (l ++ l'); by rewrite app_assoc|auto].
Qed.

(** ** The reader *)

Lemma ring_scan_spec er fuel q cur base : cur - q + 1 ≤ Z.of_nat fuel →
  ring_scan fuel er q cur base = true →
  ∀ i, q ≤ i ≤ cur → ring_at (er i) (i mod kRing) ≠ base.
Proof.
  revert q. induction fuel as [|fuel IH]; intros q Hf Hs i Hi; [lia|]. cbn in Hs.
  destruct (Z.leb_spec q cur); [|lia].
  destruct (Z.eqb_spec (ring_at (er q) (q mod kRing)) base); [done|].
  destruct (decide (i = q)) as [->|]; [done|]. apply (IH (q + 1)); [lia|done|lia].
Qed.

(** The answers of the first loads, when nothing has been voided. *)
Lemma still_valid_first seen w er e2 base now :
  is_stamp seen → winv seen w → still_valid (w_e w) er e2 seen base = Some now →
  w_void w = false ∧ now = stamp_ (w_e w) ∧ u64 (stamp_ e2 - seen) ≤ kRing ∧
  ∀ i, (i < length (w_freed w))%nat →
    ring_at (er (seen + 1 + Z.of_nat i)) ((seen + 1 + Z.of_nat i) mod kRing) ≠ base.
Proof.
  intros [Hs1 Hs2] [[Hc1 Hc2] _ _ Hvoid Hcount]. unfold still_valid.
  rewrite same_part by done.
  destruct (Z.eqb_spec (seen / 65536) (stamp_ (w_e w) / 65536)); [|done]. cbn [negb orb].
  destruct (w_void w). { destruct (Hvoid eq_refl). lia. }
  destruct (Hcount eq_refl) as (He & _ & _).
  destruct (Z.ltb_spec (stamp_ (w_e w)) seen); [done|].
  destruct (Z.ltb_spec kRing (stamp_ (w_e w) - seen)); [done|]. cbn [orb].
  destruct (ring_scan _ _ _ _ _) eqn:Hscan; [|done].
  destruct (Z.ltb_spec kRing (u64 (stamp_ e2 - seen))); [done|]. intros [= <-].
  split_and!; try done. intros i Hi.
  eapply ring_scan_spec; [|exact Hscan|]; lia.
Qed.

Lemma void_far seen w : is_stamp seen → winv seen w → w_void w = true →
  kRing < u64 (stamp_ (w_e w) - seen).
Proof.
  intros [Hs1 Hs2] [[Hc1 Hc2] _ _ Hvoid _] Hv. destruct (Hvoid Hv) as [Hne Hno].
  unfold is_u64, kCountMask, kRing in *. assert (stamp_ (w_e w) ≠ seen) by (intros E; by rewrite E in Hne).
  rewrite u64_wrap_sub by (unfold is_u64; lia). destruct (Z.leb_spec seen (stamp_ (w_e w))); lia.
Qed.

(** A remembered answer still_valid lets pass was not voided, and the
    allocation is none of those freed since it was remembered: the writer may run
    between any two of the reader's loads, as long as the frees stay below the
    ring's size, or none is half noted when a slot is read. *)
Lemma still_valid_correct seen e0 wa wr w2 base now :
  is_stamp seen → stamp_ e0 = seen →
  wrun seen (mkWriter e0 None [] false) wa →
  (∀ q, wrun seen wa (wr q) ∧ wrun seen (wr q) w2) →
  still_valid (w_e wa) (λ q, w_e (wr q)) (w_e w2) seen base = Some now →
  u64 (stamp_ (w_e w2) - seen) < kRing ∨ (∀ q, w_pending (wr q) = None) →
  w_void wa = false ∧ (base ∉ w_freed wa) ∧ now = stamp_ (w_e wa).
Proof.
  intros Hs He Hra Hrr Hsv Hcond.
  assert (Hia : winv seen wa) by (eapply winv_run; [done|by apply winv_start|done]).
  destruct (still_valid_first _ _ _ _ _ _ Hs Hia Hsv) as (Hv & -> & Hfin & Hscan).
  split; [done|]. split; [|done]. intros [i Hi]%list_elem_of_lookup.
  destruct (Hrr (seen + 1 + Z.of_nat i)) as [Hr1 Hr2]. set (w := wr (seen + 1 + Z.of_nat i)) in *.
  assert (Hiw : winv seen w) by (by eapply winv_run). assert (Hi2 : winv seen w2) by (by eapply winv_run).
  assert (Hv2 : w_void w2 = false).
  { destruct (w_void w2) eqn:E; [|done]. pose proof (void_far seen w2 Hs Hi2 E). lia. }
  destruct (wrun_grows _ _ _ Hr1) as [[l1 E1] _], (wrun_grows _ _ _ Hr2) as [[l2 E2] Hvm].
  assert (Hvw : w_void w = false) by (destruct (w_void w); [rewrite Hvm in Hv2|]; done).
  destruct (wi_count _ _ Hiw Hvw) as (_ & _ & Hheld). destruct (wi_count _ _ Hi2 Hv2) as (Hst2 & _ & _).
  assert (Hlt := lookup_lt_Some _ _ _ Hi). apply (Hscan i Hlt). fold w. apply Hheld.
  - rewrite E1, lookup_app_l; done.
  - rewrite Hst2, E2, length_app in *. destruct (wi_stamp _ _ Hi2) as [[_ Hmax] _]. rewrite Hst2 in Hmax.
    rewrite u64_small in * by (destruct Hs as [[] _]; unfold is_u64, kRing in *; lia).
    destruct Hcond as [?|Hp]; [|rewrite (Hp _ : (w_pending w = None))]; [destruct (w_pending w)|]; lia.
Qed.

(** At sixty-four frees, with the sixty-fifth half noted, the slot of the first
    is already another's: still_valid lets the freed allocation pass. *)
Definition sixty_four_frees (n : nat) : Stamps :=
  foldl (λ e b, note_free 0 b e) (mkStamps 131072 ∅) (seqZ 1000 (Z.of_nat n)).

Lemma sixty_four_run n : (n ≤ 65)%nat →
  wrun 131072 (mkWriter (mkStamps 131072 ∅) None [] false)
    (mkWriter (sixty_four_frees n) None (seqZ 1000 (Z.of_nat n)) false).
Proof.
  induction n as [|n IH]; intros Hn; [apply rtc_refl|].
  etransitivity; [apply IH; lia|]. unfold sixty_four_frees.
  replace (Z.of_nat (S n)) with (Z.of_nat n + 1) by lia. rewrite seqZ_app, foldl_app by lia. cbn [foldl seqZ].
  fold (sixty_four_frees n).
  assert (Hst : stamp_ (sixty_four_frees n) = 131072 + Z.of_nat n).
  { clear IH. do 66 (destruct n as [|n]; [by vm_compute|]). lia. }
  assert (Hm : Z.land (stamp_ (sixty_four_frees n)) kCountMask ≠ kCountMask).
  { rewrite land_mask, Hst. unfold kCountMask. 
    rewrite <- (Z.mod_unique_pos _ 65536 2 (Z.of_nat n)) by lia. lia. }
  change (seqZ (1000 + Z.of_nat n) 1) with [1000 + Z.of_nat n]. cbn [foldl].
  unfold note_free. rewrite (proj2 (Z.eqb_neq _ _) Hm).
  eapply rtc_l; [by apply W_ring|]. apply rtc_once, W_stamp.
Qed.

(** ** Properties *)



(** The bound above is sharp, and the code's own test ([cur - seen > kRing])
    is one short of it: after exactly kRing frees, with the next one's base in the
    ring and its stamp still to come, still_valid lets the allocation freed first
    pass. *)
Theorem still_valid_misses :
  ∃ wa w2 base, wrun 131072 (mkWriter (mkStamps 131072 ∅) None [] false) wa ∧ wrun 131072 wa w2 ∧
    base ∈ w_freed wa ∧ is_Some (still_valid (w_e wa) (λ _, w_e w2) (w_e w2) 131072 base).
Proof.
  exists (mkWriter (sixty_four_frees 64) None (seqZ 1000 64) false),
    (mkWriter (note_free_ring 5 (sixty_four_frees 64)) (Some 5) (seqZ 1000 64) false), 1000.
  split_and!.
  - apply (sixty_four_run 64). lia.
  - apply rtc_once, W_ring. by vm_compute.
  - apply elem_of_seqZ. lia.
  - eexists. by vm_compute.
Qed.

End Epoch.

Module Lock.

(** Where a thread is in lock_shared/unlock_shared and in acquire/unlock: each
    constructor is just before the named operation. *)
Inductive pc :=
  | Idle
  | Announce          (* used_.fetch_or *)
  | Count             (* n.fetch_add *)
  | Test              (* writer_.load after counting *)
  | Back              (* n.fetch_sub: a writer was there *)
  | Spin              (* while (writer_) yield *)
  | Reading           (* holds the lock shared *)
  | SetOwner          (* mu_ held: owner_.store, depth_ = 1 *)
  | SetFlag           (* writer_.store(true) *)
  | LoadMask          (* m = used_.load *)
  | Scan (m : gset Z) (* while (m) wait for the lowest slot *)
  | Writing (depth : nat)
  | ClearOwner        (* writer_ is down: owner_.store(0) *)
  | Unlock.           (* mu_.unlock *)

Record thread := mkThread { th_slot : Z; th_pc : pc }.

Record state := mkState {
  threads : gmap Z thread;    (* by identity; the slot is fixed *)
  counts : Z → Z;             (* slots_[s].n *)
  used_ : gset Z;             (* the mask's bits *)
  writer_ : bool;
  owner_ : option Z;
  mu_ : option Z;
}.

Definition at_pc (st : state) (t : Z) (s : Z) (p : pc) : Prop := threads st !! t = Some (mkThread s p).
Definition go (st : state) (t s : Z) (p : pc) : gmap Z thread := <[t := mkThread s p]> (threads st).
Definition add_count (st : state) (s d : Z) : Z → Z := λ s', if s' =? s then counts st s' + d else counts st s'.

Inductive step : state → Z → state → Prop :=
  (* lock_shared *)
  | R_start st t s : at_pc st t s Idle → owner_ st ≠ Some t →
      step st t (mkState (go st t s (if bool_decide (s ∈ used_ st) then Count else Announce))
        (counts st) (used_ st) (writer_ st) (owner_ st) (mu_ st))
  | R_announce st t s : at_pc st t s Announce →
      step st t (mkState (go st t s Count) (counts st) ({[s]} ∪ used_ st) (writer_ st) (owner_ st) (mu_ st))
  | R_count st t s : at_pc st t s Count →
      step st t (mkState (go st t s Test) (add_count st s 1) (used_ st) (writer_ st) (owner_ st) (mu_ st))
  | R_test st t s : at_pc st t s Test →
      step st t (mkState (go st t s (if writer_ st then Back else Reading))
        (counts st) (used_ st) (writer_ st) (owner_ st) (mu_ st))
  | R_back st t s : at_pc st t s Back →
      step st t (mkState (go st t s Spin) (add_count st s (-1)) (used_ st) (writer_ st) (owner_ st) (mu_ st))
  | R_spin st t s : at_pc st t s Spin → writer_ st = false →
      step st t (mkState (go st t s Count) (counts st) (used_ st) (writer_ st) (owner_ st) (mu_ st))
  (* unlock_shared *)
  | R_unlock st t s : at_pc st t s Reading →
      step st t (mkState (go st t s Idle) (add_count st s (-1)) (used_ st) (writer_ st) (owner_ st) (mu_ st))
  (* acquire *)
  | W_lock st t s : at_pc st t s Idle → mu_ st = None →
      step st t (mkState (go st t s SetOwner) (counts st) (used_ st) (writer_ st) (owner_ st) (Some t))
  | W_owner st t s : at_pc st t s SetOwner →
      step st t (mkState (go st t s SetFlag) (counts st) (used_ st) (writer_ st) (Some t) (mu_ st))
  | W_flag st t s : at_pc st t s SetFlag →
      step st t (mkState (go st t s LoadMask) (counts st) (used_ st) true (owner_ st) (mu_ st))
  | W_mask st t s : at_pc st t s LoadMask →
      step st t (mkState (go st t s (Scan (used_ st))) (counts st) (used_ st) (writer_ st) (owner_ st) (mu_ st))
  | W_scan st t s m x : at_pc st t s (Scan m) → x ∈ m → (∀ y, y ∈ m → x ≤ y) → counts st x = 0 →
      step st t (mkState (go st t s (Scan (m ∖ {[x]}))) (counts st) (used_ st) (writer_ st) (owner_ st) (mu_ st))
  | W_enter st t s m : at_pc st t s (Scan m) → m = ∅ →
      step st t (mkState (go st t s (Writing 1)) (counts st) (used_ st) (writer_ st) (owner_ st) (mu_ st))
  (* a mutator that calls another: depth_ *)
  | W_nest st t s d : at_pc st t s (Writing d) → owner_ st = Some t →
      step st t (mkState (go st t s (Writing (S d))) (counts st) (used_ st) (writer_ st) (owner_ st) (mu_ st))
  | W_unnest st t s d : at_pc st t s (Writing (S (S d))) →
      step st t (mkState (go st t s (Writing (S d))) (counts st) (used_ st) (writer_ st) (owner_ st) (mu_ st))
  (* unlock at depth 1 *)
  | W_down st t s : at_pc st t s (Writing 1) →
      step st t (mkState (go st t s ClearOwner) (counts st) (used_ st) false (owner_ st) (mu_ st))
  | W_clear st t s : at_pc st t s ClearOwner →
      step st t (mkState (go st t s Unlock) (counts st) (used_ st) (writer_ st) None (mu_ st))
  | W_unlock st t s : at_pc st t s Unlock →
      step st t (mkState (go st t s Idle) (counts st) (used_ st) (writer_ st) (owner_ st) None).

Definition steps : state → state → Prop := rtc (λ st st', ∃ t, step st t st').

(** Threads that have not used the lock yet. *)
Definition initial (st : state) : Prop :=
  (∀ t th, threads st !! t = Some th → th_pc th = Idle) ∧ (∀ s, counts st s = 0) ∧
  used_ st = ∅ ∧ writer_ st = false ∧ owner_ st = None ∧ mu_ st = None.
Definition reachable (st : state) : Prop := ∃ st0, initial st0 ∧ steps st0 st.

(** ** Invariant *)

Definition counted (p : pc) : bool := match p with Test | Back | Reading => true | _ => false end.
Definition announced (p : pc) : bool :=
  match p with Count | Test | Back | Spin | Reading => true | _ => false end.
Definition holds_mu (p : pc) : bool :=
  match p with SetOwner | SetFlag | LoadMask | Scan _ | Writing _ | ClearOwner | Unlock => true | _ => false end.
Definition flag_up (p : pc) : bool :=
  match p with LoadMask | Scan _ | Writing _ => true | _ => false end.
Definition owns (p : pc) : bool :=
  match p with SetFlag | LoadMask | Scan _ | Writing _ | ClearOwner => true | _ => false end.

(** What is left for a writer to wait for. *)
Definition awaited (p : pc) : option (gset Z) :=
  match p with Scan m => Some m | Writing _ => Some ∅ | _ => None end.

Definition weight (s : Z) (th : thread) : Z := if (th_slot th =? s) && counted (th_pc th) then 1 else 0.

(** Where the holder of the mutex is. *)
Definition mu_pc (st : state) : option pc := t ← mu_ st; th_pc <$> threads st !! t.

Record inv (st : state) : Prop := {
  i_counts : ∀ s, counts st s = map_sum (weight s) (threads st);
  i_used : ∀ t s p, at_pc st t s p → announced p = true → s ∈ used_ st;
  i_mu : ∀ t s p, at_pc st t s p → holds_mu p = true → mu_ st = Some t;
  i_mu_in : ∀ t, mu_ st = Some t → ∃ s p, at_pc st t s p ∧ holds_mu p = true;
  i_writer : writer_ st = match mu_pc st with Some p => flag_up p | None => false end;
  i_owner : owner_ st = match mu_pc st with Some p => if owns p then mu_ st else None | None => None end;
  i_await : ∀ t s p m r sr, at_pc st t s p → awaited p = Some m → at_pc st r sr Reading → sr ∈ m;
  i_depth : ∀ t s d, at_pc st t s (Writing d) → d ≠ 0%nat;
}.

Lemma at_go st t s p r sr q :
  go st t s p !! r = Some (mkThread sr q) ↔ (r = t ∧ sr = s ∧ q = p) ∨ (r ≠ t ∧ at_pc st r sr q).
Proof.
  unfold go, at_pc. rewrite lookup_insert_Some. split.
  - intros [[-> [= -> ->]]|[? ?]]; auto.
  - intros [(-> & -> & ->)|[? ?]]; auto.
Qed.

Lemma at_fun st t s p s' p' : at_pc st t s p → at_pc st t s' p' → s' = s ∧ p' = p.
Proof. unfold at_pc. intros. by simplify_eq. Qed.

(** The counts follow the threads. *)
Lemma counts_go st t s p p' x : at_pc st t s p → (∀ s, counts st s = map_sum (weight s) (threads st)) →
  map_sum (weight x) (go st t s p') =
    counts st x + (if x =? s then (if counted p' then 1 else 0) - (if counted p then 1 else 0) else 0).
Proof.
  intros Hat Hc. unfold go. rewrite (map_sum_replace _ _ _ _ _ Hat), Hc. unfold weight. cbn.
  rewrite (Z.eqb_sym x s). destruct (s =? x), (counted p), (counted p'); cbn; lia.
Qed.

(** A step of a thread that neither holds nor takes the mutex. *)
Lemma mu_pc_other st t s p p' cs u w o :
  inv st → at_pc st t s p → holds_mu p = false →
  mu_pc (mkState (go st t s p') cs u w o (mu_ st)) = mu_pc st.
Proof.
  intros Hi Hat Hp. unfold mu_pc. cbn. destruct (mu_ st) as [r|] eqn:Hm; [|done]. cbn.
  unfold go. rewrite lookup_insert_ne; [done|]. intros ->.
  destruct (i_mu_in _ Hi _ Hm) as (s' & q & Hq & Hh). destruct (at_fun _ _ _ _ _ _ Hat Hq) as [-> ->]. congruence.
Qed.

Lemma mu_pc_self st t s p cs u w o : mu_pc (mkState (go st t s p) cs u w o (Some t)) = Some p.
Proof. unfold mu_pc, go. cbn. by rewrite lookup_insert_eq. Qed.

Lemma mu_holder st t s p : inv st → at_pc st t s p → holds_mu p = true →
  mu_ st = Some t ∧ mu_pc st = Some p.
Proof.
  intros Hi Hat Hh. pose proof (i_mu _ Hi _ _ _ Hat Hh) as Hm. split; [done|].
  unfold mu_pc. rewrite Hm. cbn. unfold at_pc in Hat. by rewrite Hat.
Qed.

(** Readers' steps. *)
Lemma inv_reader st t s p p' cs u :
  inv st → at_pc st t s p → holds_mu p = false → holds_mu p' = false →
  (∀ x, cs x = counts st x +
    (if x =? s then (if counted p' then 1 else 0) - (if counted p then 1 else 0) else 0)) →
  used_ st ⊆ u → (announced p' = true → s ∈ u) → (p' = Reading → p = Reading ∨ writer_ st = false) →
  inv (mkState (go st t s p') cs u (writer_ st) (owner_ st) (mu_ st)).
Proof.
  intros Hi Hat Hp Hp' Hcs Hu Hann Hrd.
  assert (Hno : ∀ q, awaited q ≠ None → holds_mu q = true) by (by intros []).
  split; cbn -[mu_pc]; rewrite ?(mu_pc_other st t s p) by done.
  - intros x. by rewrite Hcs, (counts_go st t s p) by (done || apply Hi).
  - intros r sr q [(-> & -> & ->)|[? Hr]]%at_go; [done|]. intros Ha. apply Hu. by eapply (i_used _ Hi).
  - intros r sr q [(-> & -> & ->)|[? Hr]]%at_go; [congruence|]. by eapply (i_mu _ Hi).
  - intros r Hm. destruct (i_mu_in _ Hi _ Hm) as (sr & q & Hq & Hh). exists sr, q. split; [|done].
    apply at_go. right. split; [|done]. intros ->. destruct (at_fun _ _ _ _ _ _ Hat Hq) as [-> ->]. congruence.
  - apply Hi.
  - apply Hi.
  - intros r sr q m rd srd [(-> & -> & ->)|[? Hr]]%at_go Hm.
    { assert (holds_mu p' = true) by (apply Hno; congruence). congruence. }
    intros [(-> & -> & Hpr)|[? Hrd']]%at_go; [|exact (i_await _ Hi _ _ _ _ _ _ Hr Hm Hrd')].
    symmetry in Hpr. destruct (Hrd Hpr) as [->|Hw]; [exact (i_await _ Hi _ _ _ _ _ _ Hr Hm Hat)|].
    exfalso. destruct (mu_holder st r sr q Hi Hr) as [_ Hmp]; [apply Hno; congruence|].
    rewrite (i_writer _ Hi), Hmp in Hw. by destruct q.
  - intros r sr d [(-> & -> & E)|[? Hr]]%at_go; [by subst p'|]. by eapply (i_depth _ Hi).
Qed.

(** The mutex holder's steps. *)
Lemma inv_writer st t s p p' w o mu :
  inv st → at_pc st t s p → counted p = false → counted p' = false → announced p' = false →
  mu_ st = None ∨ mu_ st = Some t →
  (holds_mu p' = true → mu = Some t ∧ w = flag_up p' ∧ o = (if owns p' then Some t else None)) →
  (holds_mu p' = false → mu = None ∧ w = false ∧ o = None) →
  (∀ m, awaited p' = Some m → ∀ r sr, r ≠ t → at_pc st r sr Reading → sr ∈ m) →
  p' ≠ Writing 0 →
  inv (mkState (go st t s p') (counts st) (used_ st) w o mu).
Proof.
  intros Hi Hat Hp Hp' Han Hmu Hyes Hno Haw Hd.
  assert (Hoth : ∀ r sr q, r ≠ t → at_pc st r sr q → holds_mu q = false).
  { intros r sr q Hne Hr. destruct (holds_mu q) eqn:E; [|done]. pose proof (i_mu _ Hi _ _ _ Hr E).
    destruct Hmu; congruence. }
  split; cbn -[mu_pc].
  - intros x. rewrite (counts_go st t s p) by (done || apply Hi). rewrite Hp, Hp'. destruct (x =? s); lia.
  - intros r sr q [(-> & -> & ->)|[? Hr]]%at_go; [congruence|]. by eapply (i_used _ Hi).
  - intros r sr q [(-> & -> & ->)|[? Hr]]%at_go; [intros E; by apply (Hyes E)|].
    intros E. by rewrite (Hoth r sr q) in E.
  - intros r Hm. destruct (holds_mu p') eqn:E; [|by destruct (Hno eq_refl) as [-> _]].
    destruct (Hyes eq_refl) as (-> & _ & _). simplify_eq. exists s, p'. split; [apply at_go; by left|done].
  - destruct (holds_mu p') eqn:E; [destruct (Hyes eq_refl) as (-> & -> & _)|destruct (Hno eq_refl) as (-> & -> & _)].
    + by rewrite mu_pc_self.
    + done.
  - destruct (holds_mu p') eqn:E; [destruct (Hyes eq_refl) as (-> & _ & ->)|destruct (Hno eq_refl) as (-> & _ & ->)].
    + by rewrite mu_pc_self.
    + done.
  - intros r sr q m rd srd [(-> & -> & ->)|[? Hr]]%at_go Hm [(-> & -> & Hpr)|[? Hrd']]%at_go.
    + by rewrite <- Hpr in Hp'.
    + by eapply Haw.
    + by rewrite <- Hpr in Hp'.
    + exact (i_await _ Hi _ _ _ _ _ _ Hr Hm Hrd').
  - intros r sr d [(-> & -> & E)|[? Hr]]%at_go; [congruence|]. by eapply (i_depth _ Hi).
Qed.

Lemma add_count_spec st s d x : add_count st s d x = counts st x + (if x =? s then d else 0).
Proof. unfold add_count. destruct (x =? s); lia. Qed.

Lemma no_reader_waits st t s p x : inv st → counts st x = 0 → at_pc st t s p → counted p = true → s ≠ x.
Proof.
  intros Hi Hc Hat Hp ->. assert (weight x (mkThread x p) ≤ counts st x).
  { rewrite (i_counts _ Hi). eapply map_sum_ge; [|exact Hat].
    intros i th _. unfold weight. by destruct ((th_slot th =? x) && counted (th_pc th)). }
  unfold weight in *. cbn in *. rewrite Z.eqb_refl, Hp in *. cbn in *. lia.
Qed.

Ltac writer_step Hi Hat :=
  destruct (mu_holder _ _ _ _ Hi Hat) as [Hmu Hmp]; [done|];
  pose proof (i_writer _ Hi) as Hwr; pose proof (i_owner _ Hi) as Hown; rewrite Hmp in Hwr, Hown; cbn in Hwr, Hown;
  eapply inv_writer; try done; cbn; auto; try congruence; try (intros _; split_and!; congruence).

Lemma inv_step st t st' : inv st → step st t st' → inv st'.
Proof.
  intros Hi Hst. destruct Hst as
    [st t s Hat Ho|st t s Hat|st t s Hat|st t s Hat|st t s Hat|st t s Hat Hw|st t s Hat
    |st t s Hat Hm|st t s Hat|st t s Hat|st t s Hat|st t s m x Hat Hx Hmin Hc|st t s m Hat Hm
    |st t s d Hat Ho|st t s d Hat|st t s Hat|st t s Hat|st t s Hat].
  - eapply inv_reader; try done; [by case_bool_decide| |..|by case_bool_decide].
    + intros x. case_bool_decide; cbn; destruct (x =? s); lia.
    + by case_bool_decide.
  - eapply inv_reader; try done; [|set_solver..]. intros x. cbn. destruct (x =? s); lia.
  - eapply inv_reader; try done; [intros x; apply add_count_spec|]. intros _. by eapply (i_used _ Hi).
  - eapply inv_reader; try done; [by destruct (writer_ st)| | |].
    + intros x. destruct (writer_ st); cbn; destruct (x =? s); lia.
    + intros _. by eapply (i_used _ Hi).
    + destruct (writer_ st); [done|auto].
  - eapply inv_reader; try done; [intros x; apply add_count_spec|]. intros _. by eapply (i_used _ Hi).
  - eapply inv_reader; try done; [intros x; cbn; destruct (x =? s); lia|]. intros _. by eapply (i_used _ Hi).
  - eapply inv_reader; try done. intros x; apply add_count_spec.
  - eapply inv_writer; try done; auto. intros _. cbn. pose proof (i_writer _ Hi) as Hwr.
    pose proof (i_owner _ Hi) as Hown. unfold mu_pc in *. rewrite Hm in *. done.
  - writer_step Hi Hat.
  - writer_step Hi Hat.
  - writer_step Hi Hat. intros m [= <-] r sr _ Hr. by eapply (i_used _ Hi).
  - writer_step Hi Hat. intros m' [= <-] r sr _ Hr. apply elem_of_difference.
    split; [exact (i_await _ Hi _ _ _ _ _ _ Hat eq_refl Hr)|].
    apply not_elem_of_singleton. exact (no_reader_waits _ _ _ _ _ Hi Hc Hr eq_refl).
  - writer_step Hi Hat. intros m' [= <-] r sr _ Hr. rewrite <- Hm. exact (i_await _ Hi _ _ _ _ _ _ Hat eq_refl Hr).
  - writer_step Hi Hat. intros m' [= <-] r sr _ Hr. exact (i_await _ Hi _ _ _ _ _ _ Hat eq_refl Hr).
  - writer_step Hi Hat. intros m' [= <-] r sr _ Hr. exact (i_await _ Hi _ _ _ _ _ _ Hat eq_refl Hr).
  - writer_step Hi Hat.
  - writer_step Hi Hat.
  - writer_step Hi Hat.
Qed.

Lemma inv_initial st : initial st → inv st.
Proof.
  intros (Hidle & Hc & Hu & Hw & Ho & Hm).
  assert (Hp : ∀ t s p, at_pc st t s p → p = Idle) by (intros t s p Hat; apply (Hidle _ _ Hat)).
  split.
  - intros s. rewrite Hc. symmetry. revert Hidle. clear. induction (threads st) as [|t th ths Ht IH] using map_ind;
      intros Hidle; [done|]. rewrite map_sum_insert, IH by
      (done || (intros t' th' Hl; apply (Hidle t'); rewrite lookup_insert_ne; congruence)).
    specialize (Hidle t th (lookup_insert_eq _ _ _)). unfold weight. rewrite Hidle. by rewrite andb_false_r.
  - intros t s p ->%Hp. done.
  - intros t s p ->%Hp. done.
  - rewrite Hm. done.
  - unfold mu_pc. by rewrite Hm.
  - unfold mu_pc. by rewrite Hm.
  - intros t s p m r sr ->%Hp. done.
  - intros t s d Hat. by apply Hp in Hat.
Qed.

Lemma inv_reachable st : reachable st → inv st.
Proof.
  intros (st0 & H0 & Hs). apply inv_initial in H0. induction Hs as [|? ? ? [t Ht] _ IH]; [done|].
  apply IH. by eapply inv_step.
Qed.

(** A thread at any operation but a blocked one can take it. *)
Definition blocked (st : state) (p : pc) : Prop :=
  match p with
  | Idle => True
  | Spin => writer_ st = true
  | Scan m => ∃ x, x ∈ m ∧ (∀ y, y ∈ m → x ≤ y) ∧ counts st x ≠ 0
  | _ => False
  end.

Lemma least_slot (m : gset Z) : m ≠ ∅ → ∃ x, x ∈ m ∧ ∀ y, y ∈ m → x ≤ y.
Proof.
  intros Hm. destruct (minimal_exists_elem_of_L Z.le m Hm) as (x & Hx & Hmin). exists x. split; [done|].
  intros y Hy. destruct (Z.le_ge_cases x y); [done|]. by apply (Hmin y).
Qed.

Lemma step_or_blocked st t s p : inv st → at_pc st t s p → blocked st p ∨ ∃ st', step st t st'.
Proof.
  intros Hi Hat. destruct p as [| | | | | | | | | |m|d| |]; try (by left); try (right; eexists; by econstructor).
  - destruct (writer_ st) eqn:E; [by left|]. right. eexists. by eapply R_spin.
  - destruct (decide (m = ∅)) as [->|Hne]; [right; eexists; by eapply W_enter|].
    destruct (least_slot m Hne) as (x & Hx & Hmin). destruct (decide (counts st x = 0)).
    + right. eexists. by eapply W_scan.
    + left. by exists x.
  - right. destruct d as [|[|d]]; [by destruct (i_depth _ Hi _ _ _ Hat)|eexists; by eapply W_down|].
    eexists. by eapply W_unnest.
Qed.

(** A counted thread is never blocked. *)
Lemma counted_steps st x : inv st → counts st x ≠ 0 → ∃ t s p st', at_pc st t s p ∧ counted p = true ∧ step st t st'.
Proof.
  intros Hi Hc. assert (Hnn : ∀ t th, threads st !! t = Some th → 0 ≤ weight x th).
  { intros t th _. unfold weight. by destruct (_ && _). }
  pose proof (map_sum_nonneg (weight x) (threads st) Hnn) as H0.
  destruct (map_sum_pos (weight x) (threads st) Hnn) as (t & [s p] & Ht & Hw); [rewrite (i_counts _ Hi) in Hc; lia|].
  unfold weight in Hw. cbn in Hw. destruct (s =? x), (counted p) eqn:E; try (cbn in Hw; lia).
  exists t, s, p. destruct (step_or_blocked st t s p Hi Ht) as [Hb|[st' Hs]]; [by destruct p|]. by exists st'.
Qed.

Lemma progress st t s p : inv st → at_pc st t s p → p ≠ Idle →
  ∃ r sr q st', at_pc st r sr q ∧ q ≠ Idle ∧ step st r st'.
Proof.
  intros Hi Hat Hp.
  assert (Hcount : ∀ x, counts st x ≠ 0 → ∃ r sr q st', at_pc st r sr q ∧ q ≠ Idle ∧ step st r st').
  { intros x Hx. destruct (counted_steps st x Hi Hx) as (r & sr & q & st' & Hr & Hq & Hs).
    exists r, sr, q, st'. split_and!; try done. by intros ->. }
  destruct (step_or_blocked st t s p Hi Hat) as [Hb|[st' Hs]]; [|by exists t, s, p, st'].
  destruct p; try done; [|by destruct Hb as (x & _ & _ & Hx); eapply Hcount].
  cbn in Hb. rewrite (i_writer _ Hi) in Hb. unfold mu_pc in Hb.
  destruct (mu_ st) as [r|] eqn:Hm; [|done]. destruct (i_mu_in _ Hi _ Hm) as (sr & q & Hr & Hq).
  destruct (step_or_blocked st r sr q Hi Hr) as [Hb'|[st' Hs]]; [|exists r, sr, q, st'; split_and!; [done|by intros ->|done]].
  destruct q; try done. destruct Hb' as (x & _ & _ & Hx). by eapply Hcount.
Qed.

(** ** Properties *)

(** C19: while a thread holds the lock for writing, no thread holds it shared
    and no other holds it for writing, in every state any interleaving of any
    number of threads reaches, threads that share a slot included. *)
Theorem lock_exclusion st t s d :
  reachable st → at_pc st t s (Writing d) →
  (∀ r sr, ¬ at_pc st r sr Reading) ∧ (∀ r sr d', at_pc st r sr (Writing d') → r = t).
Proof.
  intros Hi%inv_reachable Hat. split.
  - intros r sr Hr. by pose proof (i_await _ Hi _ _ _ _ _ _ Hat eq_refl Hr).
  - intros r sr d' Hr. pose proof (i_mu _ Hi _ _ _ Hat eq_refl). pose proof (i_mu _ Hi _ _ _ Hr eq_refl). congruence.
Qed.

(** C20: the lock does not deadlock: whenever some thread is inside lock_shared,
    unlock_shared, lock or unlock, some such thread can take its next step. *)
Theorem lock_progress st t s p :
  reachable st → at_pc st t s p → p ≠ Idle →
  ∃ r sr q st', at_pc st r sr q ∧ q ≠ Idle ∧ step st r st'.
Proof. intros Hi%inv_reachable. by apply progress. Qed.

(** One thread, and the steps by which it comes to write. *)
Definition solo (p : pc) (w : bool) (o mu : option Z) : state :=
  mkState {[1 := mkThread 5 p]} (λ _, 0) ∅ w o mu.

Lemma solo_writes : steps (solo Idle false None None) (solo (Writing 1) true (Some 1) (Some 1)).
Proof.
  eapply rtc_l; [exists 1; exact (W_lock (solo Idle false None None) 1 5 eq_refl eq_refl)|].
  eapply rtc_l; [exists 1; exact (W_owner (solo SetOwner false None (Some 1)) 1 5 eq_refl)|].
  eapply rtc_l; [exists 1; exact (W_flag (solo SetFlag false (Some 1) (Some 1)) 1 5 eq_refl)|].
  eapply rtc_l; [exists 1; exact (W_mask (solo LoadMask true (Some 1) (Some 1)) 1 5 eq_refl)|].
  apply rtc_once. exists 1. exact (W_enter (solo (Scan ∅) true (Some 1) (Some 1)) 1 5 ∅ eq_refl eq_refl).
Qed.

Lemma solo_reachable : reachable (solo (Writing 1) true (Some 1) (Some 1)).
Proof.
  exists (solo Idle false None None). split; [|apply solo_writes]. split_and!; try done.
  intros t th Ht. cbn in Ht. by apply lookup_singleton_Some in Ht as [_ <-].
Qed.

Lemma lock_exclusion_witness :
  let st := solo (Writing 1) true (Some 1) (Some 1) in
  (∀ r sr, ¬ at_pc st r sr Reading) ∧ (∀ r sr d', at_pc st r sr (Writing d') → r = 1).
Proof. exact (lock_exclusion _ 1 5 1 solo_reachable eq_refl). Defined.

Lemma lock_progress_witness :
  let st := solo (Writing 1) true (Some 1) (Some 1) in
  ∃ r sr q st', at_pc st r sr q ∧ q ≠ Idle ∧ step st r st'.
Proof. apply (lock_progress _ 1 5 (Writing 1) solo_reachable eq_refl). discriminate. Defined.

End Lock.
