(* ===== verification/MemState.v ===== *)
(** * The memory manager's state (include/vgpu/memory.hpp, class MemoryManager)

    One record with the source's members. The lock, the card gate, the usage
    observer and the trace hook are not part of it. [std::map]s are [gmap]s keyed
    by address or handle; an iterator kept in the quarantine's deque is the key
    of the entry it points to. *)

From stdpp Require Import strings.
From S2P Require Import Prelude Chunks HostMaps.

Definition kAllocAlign : Z := 256.
Definition kQuarantineEntries : Z := 4096.
Definition kVmmGranularity : Z := 2097152.

Record FreedRecord := mkFreedRecord { fr_size : Z; fr_seq : Z }.
Record Reservation := mkReservation { r_size : Z }.
Record Mapping := mkMapping {
  m_size : Z;
  m_offset : Z;
  m_handle : Z;
  m_readable : bool;
  m_writable : bool;
}.
Record Handle := mkHandle {
  h_size : Z;
  h_refs : Z;
  h_mapped : Z;
  h_types : Z;
  h_compressible : bool;
  h_fd : Z;
  h_mem : Allocation;
}.
Record SharedRegion := mkSharedRegion {
  s_va : Z;
  s_size : Z;
  s_host : Z;
  s_path : string;
  s_owner : bool;
}.
Record DeviceHeap := mkDeviceHeap {
  heap_used_ : Z;
  blocks : gmap Z Z;
  strings : gmap string Z;
}.

(** The fault hooks, as their virtual functions; a hook may throw. *)
Record AccessFault := mkAccessFault {
  on_load : Z → Z → Z → Z + exn;
  on_store : Z → Z → Z → Z + exn;
  on_read : Z → list Z → list Z;
  on_copy : Z → list Z → list Z + exn;
  copy_pending : bool;
  stuck_pending : bool;
  load_pending : bool;
  store_pending : bool;
}.

Record MM := mkMM {
  capacity_ : Z;
  va_base_ : Z;
  used_ : Z;
  next_va_ : Z;
  page_ : Z;
  alloc_align_ : Z;
  high_water_va_ : Z;
  live_ : gmap Z Allocation;   (* base -> allocation *)
  freed_ : gmap Z FreedRecord;
  freed_order_ : list Z;   (* entries of freed_, oldest first *)
  freed_front_seq_ : Z;
  spare_live_ : option Allocation;   (* the record of the last freed allocation *)
  reserved_ : gmap Z Reservation;
  maps_ : gmap Z Mapping;
  handles_ : gmap Z Handle;
  next_handle_ : Z;
  shared_ : gmap Z SharedRegion;
  host_maps_ : HostMaps;
  next_gen : Z;   (* fresh_generation's counter *)
  heap_ : DeviceHeap;
  access_fault_ : option AccessFault;
  host_mem : Z → Z;   (* the process's own memory, where mapped host buffers live *)
}.

(** Assignments to the members. *)
Definition set_capacity_ (v : Z) (m : MM) : MM :=
  mkMM v (va_base_ m) (used_ m) (next_va_ m) (page_ m) (alloc_align_ m) (high_water_va_ m) (live_
    m) (freed_ m) (freed_order_ m) (freed_front_seq_ m) (spare_live_ m) (reserved_ m) (maps_ m)
    (handles_ m) (next_handle_ m) (shared_ m) (host_maps_ m) (next_gen m) (heap_ m) (access_fault_
    m) (host_mem m).
Definition set_va_base_ (v : Z) (m : MM) : MM :=
  mkMM (capacity_ m) v (used_ m) (next_va_ m) (page_ m) (alloc_align_ m) (high_water_va_ m) (live_
    m) (freed_ m) (freed_order_ m) (freed_front_seq_ m) (spare_live_ m) (reserved_ m) (maps_ m)
    (handles_ m) (next_handle_ m) (shared_ m) (host_maps_ m) (next_gen m) (heap_ m) (access_fault_
    m) (host_mem m).
Definition set_used_ (v : Z) (m : MM) : MM :=
  mkMM (capacity_ m) (va_base_ m) v (next_va_ m) (page_ m) (alloc_align_ m) (high_water_va_ m)
    (live_ m) (freed_ m) (freed_order_ m) (freed_front_seq_ m) (spare_live_ m) (reserved_ m) (maps_
    m) (handles_ m) (next_handle_ m) (shared_ m) (host_maps_ m) (next_gen m) (heap_ m)
    (access_fault_ m) (host_mem m).
Definition set_next_va_ (v : Z) (m : MM) : MM :=
  mkMM (capacity_ m) (va_base_ m) (used_ m) v (page_ m) (alloc_align_ m) (high_water_va_ m) (live_
    m) (freed_ m) (freed_order_ m) (freed_front_seq_ m) (spare_live_ m) (reserved_ m) (maps_ m)
    (handles_ m) (next_handle_ m) (shared_ m) (host_maps_ m) (next_gen m) (heap_ m) (access_fault_
    m) (host_mem m).
Definition set_page_ (v : Z) (m : MM) : MM :=
  mkMM (capacity_ m) (va_base_ m) (used_ m) (next_va_ m) v (alloc_align_ m) (high_water_va_ m)
    (live_ m) (freed_ m) (freed_order_ m) (freed_front_seq_ m) (spare_live_ m) (reserved_ m) (maps_
    m) (handles_ m) (next_handle_ m) (shared_ m) (host_maps_ m) (next_gen m) (heap_ m)
    (access_fault_ m) (host_mem m).
Definition set_alloc_align_ (v : Z) (m : MM) : MM :=
  mkMM (capacity_ m) (va_base_ m) (used_ m) (next_va_ m) (page_ m) v (high_water_va_ m) (live_ m)
    (freed_ m) (freed_order_ m) (freed_front_seq_ m) (spare_live_ m) (reserved_ m) (maps_ m)
    (handles_ m) (next_handle_ m) (shared_ m) (host_maps_ m) (next_gen m) (heap_ m) (access_fault_
    m) (host_mem m).
Definition set_high_water_va_ (v : Z) (m : MM) : MM :=
  mkMM (capacity_ m) (va_base_ m) (used_ m) (next_va_ m) (page_ m) (alloc_align_ m) v (live_ m)
    (freed_ m) (freed_order_ m) (freed_front_seq_ m) (spare_live_ m) (reserved_ m) (maps_ m)
    (handles_ m) (next_handle_ m) (shared_ m) (host_maps_ m) (next_gen m) (heap_ m) (access_fault_
    m) (host_mem m).
Definition set_live_ (v : gmap Z Allocation) (m : MM) : MM :=
  mkMM (capacity_ m) (va_base_ m) (used_ m) (next_va_ m) (page_ m) (alloc_align_ m)
    (high_water_va_ m) v (freed_ m) (freed_order_ m) (freed_front_seq_ m) (spare_live_ m) (reserved_
    m) (maps_ m) (handles_ m) (next_handle_ m) (shared_ m) (host_maps_ m) (next_gen m) (heap_ m)
    (access_fault_ m) (host_mem m).
Definition set_freed_ (v : gmap Z FreedRecord) (m : MM) : MM :=
  mkMM (capacity_ m) (va_base_ m) (used_ m) (next_va_ m) (page_ m) (alloc_align_ m)
    (high_water_va_ m) (live_ m) v (freed_order_ m) (freed_front_seq_ m) (spare_live_ m) (reserved_
    m) (maps_ m) (handles_ m) (next_handle_ m) (shared_ m) (host_maps_ m) (next_gen m) (heap_ m)
    (access_fault_ m) (host_mem m).
Definition set_freed_order_ (v : list Z) (m : MM) : MM :=
  mkMM (capacity_ m) (va_base_ m) (used_ m) (next_va_ m) (page_ m) (alloc_align_ m)
    (high_water_va_ m) (live_ m) (freed_ m) v (freed_front_seq_ m) (spare_live_ m) (reserved_ m)
    (maps_ m) (handles_ m) (next_handle_ m) (shared_ m) (host_maps_ m) (next_gen m) (heap_ m)
    (access_fault_ m) (host_mem m).
Definition set_freed_front_seq_ (v : Z) (m : MM) : MM :=
  mkMM (capacity_ m) (va_base_ m) (used_ m) (next_va_ m) (page_ m) (alloc_align_ m)
    (high_water_va_ m) (live_ m) (freed_ m) (freed_order_ m) v (spare_live_ m) (reserved_ m) (maps_
    m) (handles_ m) (next_handle_ m) (shared_ m) (host_maps_ m) (next_gen m) (heap_ m)
    (access_fault_ m) (host_mem m).
Definition set_spare_live_ (v : option Allocation) (m : MM) : MM :=
  mkMM (capacity_ m) (va_base_ m) (used_ m) (next_va_ m) (page_ m) (alloc_align_ m)
    (high_water_va_ m) (live_ m) (freed_ m) (freed_order_ m) (freed_front_seq_ m) v (reserved_ m)
    (maps_ m) (handles_ m) (next_handle_ m) (shared_ m) (host_maps_ m) (next_gen m) (heap_ m)
    (access_fault_ m) (host_mem m).
Definition set_reserved_ (v : gmap Z Reservation) (m : MM) : MM :=
  mkMM (capacity_ m) (va_base_ m) (used_ m) (next_va_ m) (page_ m) (alloc_align_ m)
    (high_water_va_ m) (live_ m) (freed_ m) (freed_order_ m) (freed_front_seq_ m) (spare_live_ m) v
    (maps_ m) (handles_ m) (next_handle_ m) (shared_ m) (host_maps_ m) (next_gen m) (heap_ m)
    (access_fault_ m) (host_mem m).
Definition set_maps_ (v : gmap Z Mapping) (m : MM) : MM :=
  mkMM (capacity_ m) (va_base_ m) (used_ m) (next_va_ m) (page_ m) (alloc_align_ m)
    (high_water_va_ m) (live_ m) (freed_ m) (freed_order_ m) (freed_front_seq_ m) (spare_live_ m)
    (reserved_ m) v (handles_ m) (next_handle_ m) (shared_ m) (host_maps_ m) (next_gen m) (heap_ m)
    (access_fault_ m) (host_mem m).
Definition set_handles_ (v : gmap Z Handle) (m : MM) : MM :=
  mkMM (capacity_ m) (va_base_ m) (used_ m) (next_va_ m) (page_ m) (alloc_align_ m)
    (high_water_va_ m) (live_ m) (freed_ m) (freed_order_ m) (freed_front_seq_ m) (spare_live_ m)
    (reserved_ m) (maps_ m) v (next_handle_ m) (shared_ m) (host_maps_ m) (next_gen m) (heap_ m)
    (access_fault_ m) (host_mem m).
Definition set_next_handle_ (v : Z) (m : MM) : MM :=
  mkMM (capacity_ m) (va_base_ m) (used_ m) (next_va_ m) (page_ m) (alloc_align_ m)
    (high_water_va_ m) (live_ m) (freed_ m) (freed_order_ m) (freed_front_seq_ m) (spare_live_ m)
    (reserved_ m) (maps_ m) (handles_ m) v (shared_ m) (host_maps_ m) (next_gen m) (heap_ m)
    (access_fault_ m) (host_mem m).
Definition set_shared_ (v : gmap Z SharedRegion) (m : MM) : MM :=
  mkMM (capacity_ m) (va_base_ m) (used_ m) (next_va_ m) (page_ m) (alloc_align_ m)
    (high_water_va_ m) (live_ m) (freed_ m) (freed_order_ m) (freed_front_seq_ m) (spare_live_ m)
    (reserved_ m) (maps_ m) (handles_ m) (next_handle_ m) v (host_maps_ m) (next_gen m) (heap_ m)
    (access_fault_ m) (host_mem m).
Definition set_host_maps_ (v : HostMaps) (m : MM) : MM :=
  mkMM (capacity_ m) (va_base_ m) (used_ m) (next_va_ m) (page_ m) (alloc_align_ m)
    (high_water_va_ m) (live_ m) (freed_ m) (freed_order_ m) (freed_front_seq_ m) (spare_live_ m)
    (reserved_ m) (maps_ m) (handles_ m) (next_handle_ m) (shared_ m) v (next_gen m) (heap_ m)
    (access_fault_ m) (host_mem m).
Definition set_next_gen (v : Z) (m : MM) : MM :=
  mkMM (capacity_ m) (va_base_ m) (used_ m) (next_va_ m) (page_ m) (alloc_align_ m)
    (high_water_va_ m) (live_ m) (freed_ m) (freed_order_ m) (freed_front_seq_ m) (spare_live_ m)
    (reserved_ m) (maps_ m) (handles_ m) (next_handle_ m) (shared_ m) (host_maps_ m) v (heap_ m)
    (access_fault_ m) (host_mem m).
Definition set_heap_ (v : DeviceHeap) (m : MM) : MM :=
  mkMM (capacity_ m) (va_base_ m) (used_ m) (next_va_ m) (page_ m) (alloc_align_ m)
    (high_water_va_ m) (live_ m) (freed_ m) (freed_order_ m) (freed_front_seq_ m) (spare_live_ m)
    (reserved_ m) (maps_ m) (handles_ m) (next_handle_ m) (shared_ m) (host_maps_ m) (next_gen m) v
    (access_fault_ m) (host_mem m).
Definition set_access_fault_ (v : option AccessFault) (m : MM) : MM :=
  mkMM (capacity_ m) (va_base_ m) (used_ m) (next_va_ m) (page_ m) (alloc_align_ m)
    (high_water_va_ m) (live_ m) (freed_ m) (freed_order_ m) (freed_front_seq_ m) (spare_live_ m)
    (reserved_ m) (maps_ m) (handles_ m) (next_handle_ m) (shared_ m) (host_maps_ m) (next_gen m)
    (heap_ m) v (host_mem m).
Definition set_host_mem (v : Z → Z) (m : MM) : MM :=
  mkMM (capacity_ m) (va_base_ m) (used_ m) (next_va_ m) (page_ m) (alloc_align_ m)
    (high_water_va_ m) (live_ m) (freed_ m) (freed_order_ m) (freed_front_seq_ m) (spare_live_ m)
    (reserved_ m) (maps_ m) (handles_ m) (next_handle_ m) (shared_ m) (host_maps_ m) (next_gen m)
    (heap_ m) (access_fault_ m) v.

(** The constructor: an empty device with its window of the address space. *)
Definition new_MM (capacity_bytes device_ordinal g : Z) (mem : Z → Z) : MM :=
  let va_base := kDeviceVaBase + device_ordinal * kDeviceVaStride in
  {| capacity_ := capacity_bytes; va_base_ := va_base; used_ := 0; next_va_ := va_base;
     page_ := 0; alloc_align_ := kAllocAlign; high_water_va_ := va_base;
     live_ := ∅; freed_ := ∅; freed_order_ := []; freed_front_seq_ := 0; spare_live_ := None;
     reserved_ := ∅; maps_ := ∅; handles_ := ∅; next_handle_ := 1;
     shared_ := ∅; host_maps_ := new_host_maps g; next_gen := g + 1;
     heap_ := mkDeviceHeap 0 ∅ ∅; access_fault_ := None; host_mem := mem |}.

(** [fresh_generation()] *)
Definition fresh_generation : M MM Z := λ m, Ret (next_gen m) (set_next_gen (next_gen m + 1) m).

(** MemoryManager::map_host and unmap_host on the manager. *)
Definition mm_map_host (addr host len : Z) (ro : bool) : M MM unit :=
  g <- fresh_generation ;;
  modify (λ m, set_host_maps_ (map_host addr host len ro g (host_maps_ m)) m).
Definition mm_unmap_host (addr : Z) : M MM unit :=
  m <- get ;;
  match list_find (λ hm, hm_base hm = addr) (maps (host_maps_ m)) with
  | Some _ => g <- fresh_generation ;;
              modify (λ m, set_host_maps_ (unmap_host addr g (host_maps_ m)) m)
  | None => ret tt
  end.

(** [std::map::emplace]: an existing key keeps its value. *)
Definition emplace {K A} `{Countable K} (k : K) (v : A) (m : gmap K A) : gmap K A :=
  match m !! k with
  | Some _ => m
  | None => <[k:=v]> m
  end.

(** The armed tests of the fault hooks. *)
Definition any_stuck (m : MM) : bool :=
  match access_fault_ m with Some f => stuck_pending f | None => false end.
Definition load_armed (m : MM) : bool :=
  match access_fault_ m with Some f => load_pending f | None => false end.
Definition store_armed (m : MM) : bool :=
  match access_fault_ m with Some f => store_pending f | None => false end.
Definition copy_armed (m : MM) : bool :=
  match access_fault_ m with Some f => copy_pending f | None => false end.
Definition access_faults_armed (m : MM) : bool :=
  any_stuck m || load_armed m || store_armed m.
