(* ===== verification/MemTable.v ===== *)
(** * The allocation table (src/core/memory.cpp)

    alloc, free and the quarantine of freed ranges, the device heap, and the
    classification of an address (resolve). *)

From S2P Require Import Prelude Chunks HostMaps MemState.

(** ** Operations *)

(** MemoryManager::alloc *)
Definition alloc (sz request : Z) : M MM Z :=
  m <- get ;;
  if sz =? 0 then throw InvalidValue else
  if (capacity_ m <? u64 (used_ m + sz)) || (u64 (used_ m + sz) <? used_ m) then throw OutOfMemory else
  let align := Z.max (Z.max (alloc_align_ m) (page_ m)) request in
  if align =? 0 then undef else
  let base := u64 (next_va_ m + align - 1) / align * align in
  let padded := u64 (sz + align - 1) / align * align in
  let next := u64 (base + padded) in
  let node := match spare_live_ m with Some a => a | None => empty_allocation end in
  put (set_live_ (emplace base (set_up node sz) (live_ m))
      (set_spare_live_ None
      (set_used_ (u64 (used_ m + sz))
      (set_high_water_va_ next
      (set_next_va_ next m))))) ;;;
  ret base.

(** The eviction loop of remember_freed; [None] is a use of a dangling entry. *)
Fixpoint evict (order : list Z) (freed : gmap Z FreedRecord) (front : Z) :
    option (list Z * gmap Z FreedRecord * Z) :=
  if Z.of_nat (length order) <=? kQuarantineEntries then Some (order, freed, front) else
  match order with
  | [] => Some (order, freed, front)
  | stale :: rest =>
      match freed !! stale with
      | None => None
      | Some r => evict rest (if fr_seq r =? front then delete stale freed else freed) (u64 (front + 1))
      end
  end.

(** MemoryManager::remember_freed *)
Definition remember_freed (ptr sz : Z) : M MM unit :=
  m <- get ;;
  let record := mkFreedRecord sz (u64 (freed_front_seq_ m + Z.of_nat (length (freed_order_ m)))) in
  match evict (freed_order_ m ++ [ptr]) (<[ptr:=record]> (freed_ m)) (freed_front_seq_ m) with
  | None => undef
  | Some (order, freed, front) =>
      put (set_freed_ freed (set_freed_order_ order (set_freed_front_seq_ front m)))
  end.

(** MemoryManager::drop_shared, less the munmap and unlink of the file *)
Definition drop_shared (va : Z) : M MM unit :=
  m <- get ;;
  match shared_ m !! va with
  | Some sh => mm_unmap_host (s_va sh) ;;; modify (λ m, set_shared_ (delete va (shared_ m)) m)
  | None => undef
  end.

(** The errors a free of something that is not a live allocation gives. *)
Definition free_error (m : MM) (ptr : Z) : Err :=
  match freed_ m !! ptr with
  | Some _ => DoubleFree
  | None =>
      match floor_entry (live_ m) ptr with
      | Some (b, a) => if ptr <? u64 (b + a_size a) then InvalidFree else InvalidPointer
      | None => InvalidPointer
      end
  end.

Section ops.
Context {B : Type} `{HostBacking B}.
Local Abbreviation st := (MM * B)%type.

(** A call that does not touch the host backing. *)
Definition on_mm {A} (op : M MM A) : M st A := λ s,
  match op (fst s) with
  | Ret a m => Ret a (m, snd s)
  | Exn e m => Exn e (m, snd s)
  | Undef => Undef
  end.

(** MemoryManager::free *)
Definition free (ptr : Z) : M st unit :=
  s <- get ;;
  let m := fst s in
  match shared_ m !! ptr with
  | Some (mkSharedRegion _ sz _ _ true) =>
      on_mm (modify (set_used_ (u64 (used_ m - sz)))) ;;;
      on_mm (remember_freed ptr sz) ;;;
      on_mm (drop_shared ptr)
  | _ =>
      match live_ m !! ptr with
      | Some a =>
          on_mm (modify (set_used_ (u64 (used_ m - a_size a)))) ;;;
          on_mm (remember_freed ptr (a_size a)) ;;;
          modify (λ s, let '(a', b') := recycle a (snd s) in
                       (set_live_ (delete ptr (live_ (fst s))) (set_spare_live_ (Some a') (fst s)), b'))
      | None => throw (free_error m ptr)
      end
  end.

(** MemoryManager::heap_alloc: a refusal is a null pointer, not an error. *)
Definition heap_alloc (sz limit : Z) : M st Z :=
  s <- get ;;
  let h := heap_ (fst s) in
  if (sz =? 0) || (limit <? heap_used_ h) || (limit - heap_used_ h <? sz) then ret 0 else
  match on_mm (alloc sz 0) s with
  | Undef => undef
  | Exn (Error _) s' => λ _, Ret 0 s'
  | Exn bad_alloc s' => λ _, Exn bad_alloc s'
  | Ret p s' => λ _,
      let h := heap_ (fst s') in
      Ret p (set_heap_ (mkDeviceHeap (u64 (heap_used_ h + sz)) (emplace p sz (blocks h)) (strings h))
               (fst s'), snd s')
  end.

(** MemoryManager::heap_free *)
Definition heap_free (ptr : Z) : M st bool :=
  s <- get ;;
  let h := heap_ (fst s) in
  match blocks h !! ptr with
  | None => ret false
  | Some sz =>
      on_mm (modify (set_heap_ (mkDeviceHeap (u64 (heap_used_ h - sz)) (delete ptr (blocks h)) (strings h)))) ;;;
      free ptr ;;;
      ret true
  end.
End ops.

(** MemoryManager::heap_contains *)
Definition heap_contains (m : MM) (addr : Z) : bool :=
  match floor_entry (blocks (heap_ m)) addr with
  | Some (b, sz) => u64 (addr - b) <? sz
  | None => false
  end.

(** MemoryManager::find_allocation *)
Definition find_allocation (m : MM) (addr : Z) : option (Z * Z) :=
  let in_shared :=
    match floor_entry (shared_ m) addr with
    | Some (_, sh) => if u64 (s_va sh + s_size sh) <=? addr then None else Some (s_va sh, s_size sh)
    | None => None
    end in
  match floor_entry (live_ m) addr with
  | Some (b, a) => if addr <? u64 (b + a_size a) then Some (b, a_size a) else in_shared
  | None => in_shared
  end.

(** Where a resolved access lies. *)
Inductive loc := LiveAt (base : Z) | HandleAt (handle : Z).

(** MemoryManager::resolve_mapped: [inl None] is the null result. *)
Definition resolve_mapped (m : MM) (addr len : Z) (writing : bool) : option (loc * Z) + Err :=
  let in_reserved :=
    match floor_entry (reserved_ m) addr with
    | Some (va, r) => if u64 (addr - va) <? r_size r then inr InvalidPointer else inl None
    | None => inl None
    end in
  match floor_entry (maps_ m) addr with
  | Some (va, mp) =>
      if u64 (addr - va) <? m_size mp then
        if u64 (va + m_size mp - addr) <? len then inr OutOfBounds else
        if negb (m_readable mp) && negb (m_writable mp) then inr InvalidPointer else
        if writing && negb (m_writable mp) then inr InvalidPointer else
        match handles_ m !! m_handle mp with
        | None => inr Internal
        | Some _ => inl (Some (HandleAt (m_handle mp), u64 (va - m_offset mp)))
        end
      else in_reserved
  | None => in_reserved
  end.

(** The part of resolve after the live and mapped tables have no answer. *)
Definition resolve_miss (m : MM) (addr : Z) : Err :=
  let in_retired_host :=
    if negb (is_device_va addr) &&
       existsb (λ r, (hm_base r <=? addr) && (addr - hm_base r <? hm_len r)) (retired (host_maps_ m))
    then UseAfterFree else InvalidPointer in
  let stale :=
    if (va_base_ m <=? addr) && (addr <? high_water_va_ m) then UseAfterFree else in_retired_host in
  match floor_entry (freed_ m) addr with
  | Some (b, r) => if addr <? u64 (b + fr_size r) then UseAfterFree else stale
  | None => stale
  end.

Definition resolve_rest (m : MM) (addr len : Z) (writing : bool) : (loc * Z) + Err :=
  match resolve_mapped m addr len writing with
  | inr e => inr e
  | inl (Some r) => inl r
  | inl None => inr (resolve_miss m addr)
  end.

(** MemoryManager::resolve, less the card gate *)
Definition resolve (m : MM) (addr len : Z) (writing page_slack : bool) : (loc * Z) + Err :=
  match floor_entry (live_ m) addr with
  | Some (base, a) =>
      let ext := if page_slack && negb (page_ m =? 0)
                 then u64 (a_size a + page_ m - 1) / page_ m * page_ m else a_size a in
      if addr <? u64 (base + ext) then
        if u64 (base + ext - addr) <? len then inr OutOfBounds else inl (LiveAt base, base)
      else
        let align := Z.max (alloc_align_ m) (page_ m) in
        let padded := u64 (a_size a + align - 1) / align * align in
        if addr <? u64 (base + padded) then inr OutOfBounds
        else resolve_rest m addr len writing
  | None => resolve_rest m addr len writing
  end.

(** ** The invariant of the table *)

(** The alignments a device is configured with (set_alloc_alignment,
    set_page_size): powers of two, pages no larger than a chunk. *)
Definition config_ok (m : MM) : Prop :=
  (∃ i, 8 ≤ i ≤ 32 ∧ alloc_align_ m = 2 ^ i) ∧
  (page_ m = 0 ∨ ∃ j, 0 ≤ j ≤ 16 ∧ page_ m = 2 ^ j).

Definition request_ok (request : Z) : Prop :=
  request = 0 ∨ ∃ k, 0 ≤ k ≤ 32 ∧ request = 2 ^ k.

Definition base_align (m : MM) : Z := Z.max (alloc_align_ m) (page_ m).
Definition padded (m : MM) (sz : Z) : Z := round_up sz (base_align m).

(** Every range of the device's address space that stands for something. *)
Inductive kind := KLive | KFreed | KReserved | KShared.
#[global] Instance kind_eq_dec : EqDecision kind.
Proof. solve_decision. Defined.

Definition region (m : MM) (k : kind) (b e : Z) : Prop :=
  match k with
  | KLive => ∃ a, live_ m !! b = Some a ∧ e = b + padded m (a_size a)
  | KFreed => ∃ r, freed_ m !! b = Some r ∧ e = b + fr_size r
  | KReserved => ∃ r, reserved_ m !! b = Some r ∧ e = b + r_size r
  | KShared => ∃ s, shared_ m !! b = Some s ∧ e = b + s_size s
  end.

Record regions_ok (m : MM) : Prop := {
  ro_in : ∀ k b e, region m k b e → va_base_ m ≤ b < e ∧ e ≤ next_va_ m;
  ro_kind : ∀ k1 k2 b e1 e2, region m k1 b e1 → region m k2 b e2 → k1 = k2;
  ro_disj : ∀ k1 k2 b1 b2 e1 e2, region m k1 b1 e1 → region m k2 b2 e2 →
    b1 < b2 → e1 ≤ b2;
}.

(** Bytes of a table, by the size of its entries. *)
Definition shared_charge (s : SharedRegion) : Z := if s_owner s then s_size s else 0.

(** What the device's memory is charged for. *)
Definition charged (m : MM) : Z :=
  map_sum a_size (live_ m) + map_sum h_size (handles_ m) + map_sum shared_charge (shared_ m).

(** The quarantine: the deque and the map agree, entry by entry. *)
Record quarantine_ok (m : MM) : Prop := {
  qo_bound : Z.of_nat (length (freed_order_ m)) ≤ kQuarantineEntries;
  qo_seq : ∀ i p, freed_order_ m !! i = Some p →
    ∃ r, freed_ m !! p = Some r ∧ fr_seq r = freed_front_seq_ m + Z.of_nat i;
  qo_dom : ∀ p, is_Some (freed_ m !! p) → p ∈ freed_order_ m;
  qo_front : 0 ≤ freed_front_seq_ m;
}.

Record table_inv (m : MM) : Prop := {
  ti_config : config_ok m;
  ti_va : 35184372088832 ≤ va_base_ m (* kDeviceVaBase *) ∧ va_base_ m ≤ next_va_ m ≤ u64_max ∧ high_water_va_ m = next_va_ m;
  ti_regions : regions_ok m;
  ti_live : ∀ b a, live_ m !! b = Some a → wf_alloc a ∧ 0 < a_size a ∧ b mod 256 = 0;
  ti_spare : ∀ a, spare_live_ m = Some a → spare a;
  ti_quarantine : quarantine_ok m;
  ti_used : used_ m = charged m;
  ti_capacity : 0 ≤ used_ m ≤ capacity_ m ∧ capacity_ m ≤ u64_max;
  ti_shared : ∀ b s, shared_ m !! b = Some s → s_va s = b;
  ti_handles : ∀ h x, handles_ m !! h = Some x → 0 < h_size x;
}.

(** ** Regions come and go *)

Lemma pow2_max a b : (∃ i, 8 ≤ i ≤ 32 ∧ a = 2 ^ i) → (b = 0 ∨ ∃ k, 0 ≤ k ≤ 32 ∧ b = 2 ^ k) →
  ∃ i, 8 ≤ i ≤ 32 ∧ Z.max a b = 2 ^ i.
Proof.
  intros (i & Hi & ->) [->|(k & Hk & ->)].
  - exists i. split; [done|]. pose proof (Z.pow_pos_nonneg 2 i). lia.
  - destruct (Z.le_ge_cases i k).
    + exists k. split; [lia|]. pose proof (Z.pow_le_mono_r 2 i k). lia.
    + exists i. split; [lia|]. pose proof (Z.pow_le_mono_r 2 k i). lia.
Qed.

Lemma base_align_pow2 m : config_ok m → ∃ i, 8 ≤ i ≤ 32 ∧ base_align m = 2 ^ i.
Proof.
  intros [Ha Hp]. apply pow2_max; [done|].
  destruct Hp as [->|(j & ? & ->)]; [by left|right; exists j; split; [lia|done]].
Qed.

Lemma pow2_bounds i : 8 ≤ i ≤ 32 → 256 ≤ 2 ^ i ≤ 4294967296.
Proof.
  intros. change 256 with (2 ^ 8). change 4294967296 with (2 ^ 32).
  split; apply Z.pow_le_mono_r; lia.
Qed.

Lemma base_align_bounds m : config_ok m → 256 ≤ base_align m ≤ 4294967296.
Proof. intros (i & Hi & ->)%base_align_pow2. by apply pow2_bounds. Qed.

Lemma padded_bounds m sz : config_ok m → sz ≤ padded m sz < sz + base_align m.
Proof.
  intros Hc%base_align_bounds. unfold padded. apply round_up_spec. lia.
Qed.

(** A table with one new range at the end of what was handed out. *)
Lemma regions_fresh m m' k0 b0 e0 :
  regions_ok m → va_base_ m' = va_base_ m → va_base_ m ≤ b0 →
  next_va_ m ≤ b0 < e0 → e0 ≤ next_va_ m' →
  (∀ k b e, region m' k b e → region m k b e ∨ (k = k0 ∧ b = b0 ∧ e = e0)) →
  regions_ok m'.
Proof.
  intros [Hin Hk Hd] Hbase Hb0 Hb Hn Hreg. split.
  - intros k b e [Hr|(-> & -> & ->)]%Hreg; [destruct (Hin _ _ _ Hr)|]; lia.
  - intros k1 k2 b e1 e2 [H1|(-> & -> & ->)]%Hreg [H2|(-> & Eb & ->)]%Hreg; try done.
    + by eapply Hk.
    + subst. destruct (Hin _ _ _ H1); lia.
    + destruct (Hin _ _ _ H2); lia.
  - intros k1 k2 b1 b2 e1 e2 [H1|(-> & -> & ->)]%Hreg [H2|(-> & Eb & ->)]%Hreg Hlt.
    + by eapply Hd.
    + subst. destruct (Hin _ _ _ H1); lia.
    + destruct (Hin _ _ _ H2); lia.
    + lia.
Qed.

(** A table whose ranges are (parts of) those of another, one kind to a base. *)
Lemma regions_sub m m' :
  regions_ok m → va_base_ m' = va_base_ m → next_va_ m' = next_va_ m →
  (∀ k b e', region m' k b e' → b < e' ∧
     (∃ k0 e, region m k0 b e ∧ e' ≤ e) ∧ ∀ k2 e2, region m' k2 b e2 → k2 = k) →
  regions_ok m'.
Proof.
  intros [Hin Hk Hd] Hbase Hn Hreg. split.
  - intros k b e Hr. destruct (Hreg _ _ _ Hr) as (? & (k0 & e0 & H0 & ?) & _).
    destruct (Hin _ _ _ H0). lia.
  - intros k1 k2 b e1 e2 H1 H2. destruct (Hreg _ _ _ H2) as (_ & _ & Hu). eauto.
  - intros k1 k2 b1 b2 e1 e2 H1 H2 Hlt.
    destruct (Hreg _ _ _ H1) as (? & (k1' & e1' & H1' & ?) & _).
    destruct (Hreg _ _ _ H2) as (? & (k2' & e2' & H2' & ?) & _).
    pose proof (Hd _ _ _ _ _ _ H1' H2' Hlt). lia.
Qed.

(** Nothing starts at or after [next_va_]. *)
Lemma region_none_above m b : regions_ok m → next_va_ m ≤ b →
  live_ m !! b = None ∧ freed_ m !! b = None ∧ reserved_ m !! b = None ∧ shared_ m !! b = None.
Proof.
  intros [Hin _ _] Hb.
  assert (Hno : ∀ k e, ¬ region m k b e) by (intros k e Hr; destruct (Hin _ _ _ Hr); lia).
  split_and!; apply eq_None_not_Some; intros [x Hx];
    [eapply (Hno KLive)|eapply (Hno KFreed)|eapply (Hno KReserved)|eapply (Hno KShared)]; by eexists.
Qed.

(** ** alloc *)

Definition alloc_align_of (m : MM) (request : Z) : Z := Z.max (base_align m) request.

(** The address space still has room for the request ([next_va_] does not wrap). *)
Definition va_room (m : MM) (sz : Z) : Prop := next_va_ m + sz + 8589934592 ≤ u64_max.

Lemma alloc_align_pow2 m request : config_ok m → request_ok request →
  ∃ i, 8 ≤ i ≤ 32 ∧ alloc_align_of m request = 2 ^ i ∧ base_align m ≤ 2 ^ i ∧
       (base_align m | 2 ^ i).
Proof.
  intros Hc Hr. destruct (base_align_pow2 m Hc) as (j & Hj & Ej).
  destruct (pow2_max (base_align m) request) as (i & Hi & Ei); [by exists j|done|].
  exists i. unfold alloc_align_of. split; [done|]. split; [done|]. rewrite <- Ei. split; [lia|].
  rewrite Ei, Ej. apply pow2_le_divide. split; [lia|].
  apply (Z.pow_le_mono_r_iff 2); lia.
Qed.

Definition alloc_result (m : MM) (sz request : Z) : Z * MM :=
  let align := alloc_align_of m request in
  let base := round_up (next_va_ m) align in
  let next := base + round_up sz align in
  let node := match spare_live_ m with Some a => a | None => empty_allocation end in
  (base, set_live_ (<[base:=set_up node sz]> (live_ m))
      (set_spare_live_ None
      (set_used_ (used_ m + sz)
      (set_high_water_va_ next
      (set_next_va_ next m))))).

Lemma alloc_bounds m sz request :
  config_ok m → request_ok request → 0 < sz → 0 ≤ next_va_ m →
  let align := alloc_align_of m request in
  256 ≤ align ≤ 4294967296 ∧
  next_va_ m ≤ round_up (next_va_ m) align < next_va_ m + align ∧
  sz ≤ round_up sz align < sz + align.
Proof.
  intros Hc Hr Hsz Hn align.
  destruct (alloc_align_pow2 m request Hc Hr) as (i & Hi & Ei & _).
  pose proof (pow2_bounds i Hi). unfold align. rewrite Ei.
  pose proof (round_up_spec (next_va_ m) (2 ^ i)). pose proof (round_up_spec sz (2 ^ i)). lia.
Qed.

(** alloc on success: no wrap-around happens, and the result is closed form. *)
Lemma alloc_success m sz request :
  table_inv m → request_ok request → 0 < sz → used_ m + sz ≤ capacity_ m → va_room m sz →
  alloc sz request m = Ret (fst (alloc_result m sz request)) (snd (alloc_result m sz request)).
Proof.
  intros Hinv Hr Hsz Hcap Hroom. destruct Hinv as [Hc (? & Hn & _) Hreg _ _ _ _ [Hu Hcm] _ _].
  destruct (alloc_bounds m sz request Hc Hr Hsz ltac:(lia)) as (Hal & Hb & Hp).
  unfold va_room, u64_max in *. unfold alloc, bind, get.
  destruct (Z.eqb_spec sz 0); [lia|].
  rewrite (u64_small (used_ m + sz)) by (unfold is_u64; lia).
  destruct (Z.ltb_spec (capacity_ m) (used_ m + sz)); [lia|].
  destruct (Z.ltb_spec (used_ m + sz) (used_ m)); [lia|]. cbn [orb].
  change (Z.max (Z.max (alloc_align_ m) (page_ m)) request) with (alloc_align_of m request).
  destruct (Z.eqb_spec (alloc_align_of m request) 0); [lia|].
  unfold put, ret, alloc_result. cbv zeta.
  rewrite (u64_small (next_va_ m + _ - 1)) by (unfold is_u64; lia).
  rewrite (u64_small (sz + _ - 1)) by (unfold is_u64; lia).
  fold (round_up (next_va_ m) (alloc_align_of m request)).
  fold (round_up sz (alloc_align_of m request)).
  rewrite u64_small by (unfold is_u64; lia).
  unfold emplace. destruct (region_none_above m (round_up (next_va_ m) (alloc_align_of m request)) Hreg)
    as (-> & _); [lia|]. done.
Qed.

Lemma set_up_spare_node m sz : table_inv m → 0 ≤ sz →
  let a := set_up (match spare_live_ m with Some a => a | None => empty_allocation end) sz in
  wf_alloc a ∧ a_size a = sz ∧ ∀ j, content a j = 0.
Proof.
  intros Hinv Hsz. destruct (spare_live_ m) as [a|] eqn:E; apply set_up_fresh; try done.
  by apply (ti_spare _ Hinv).
Qed.

Lemma divide_mod_0 a b : a ≠ 0 → (a | b) → b mod a = 0.
Proof. intros Ha [q ->]. apply Z_mod_mult. Qed.

Lemma alloc_inv m sz request :
  table_inv m → request_ok request → 0 < sz → used_ m + sz ≤ capacity_ m → va_room m sz →
  table_inv (snd (alloc_result m sz request)).
Proof.
  intros Hinv Hr Hsz Hcap Hroom.
  pose proof Hinv as [Hc (Hva & Hn & Hhw) Hreg Hlive Hsp Hq Hused [Hu Hcm] Hsh Hhs].
  destruct (alloc_bounds m sz request Hc Hr Hsz ltac:(lia)) as (Hal & Hb & Hp).
  destruct (alloc_align_pow2 m request Hc Hr) as (i & Hi & Ei & Hle & Hdiv).
  destruct (set_up_spare_node m sz Hinv ltac:(lia)) as (Hwf & Hsize & _).
  pose proof (base_align_bounds m Hc) as Hba. pose proof (padded_bounds m sz Hc) as Hpad.
  assert (Hpad' : padded m sz ≤ round_up sz (alloc_align_of m request)).
  { apply round_up_least; [lia| |lia]. rewrite Ei. etrans; [exact Hdiv|apply round_up_divide]. }
  destruct (region_none_above m (round_up (next_va_ m) (alloc_align_of m request)) Hreg)
    as (Hnone & _); [lia|].
  unfold va_room, u64_max in *. unfold alloc_result. cbv zeta.
  set (base := round_up (next_va_ m) (alloc_align_of m request)) in *.
  set (a := set_up _ sz) in *.
  split; cbn -[Z.pow]; unfold u64_max; try done.
  - lia.
  - apply (regions_fresh m _ KLive base (base + padded m sz)); cbn; try done; try lia.
    intros [] b e Hrg; cbn in Hrg; try (left; exact Hrg).
    destruct Hrg as (a' & Ha' & ->). destruct (decide (base = b)) as [<-|].
    + rewrite lookup_insert_eq in Ha'. simplify_eq. right. rewrite Hsize. done.
    + rewrite lookup_insert_ne in Ha' by done. left. by exists a'.
  - intros b a' Ha'. destruct (decide (base = b)) as [<-|].
    + rewrite lookup_insert_eq in Ha'. simplify_eq. split; [done|]. split; [lia|].
      apply divide_mod_0; [done|]. etrans; [|apply round_up_divide]. rewrite Ei.
      change 256 with (2 ^ 8). apply pow2_le_divide. lia.
    + rewrite lookup_insert_ne in Ha' by done. by apply Hlive.
  - destruct Hq. by split.
  - unfold charged in *. cbn. rewrite map_sum_insert by done. rewrite Hsize. lia.
  - lia.
Qed.

(** ** The quarantine *)

(** Sequence numbers do not run out. *)
Definition frees_left (m : MM) : Prop := freed_front_seq_ m + 8192 ≤ u64_max.

Lemma quarantine_NoDup m : quarantine_ok m → NoDup (freed_order_ m).
Proof.
  intros [_ Hs _ _]. apply NoDup_alt. intros i j p Hi Hj.
  destruct (Hs _ _ Hi) as (r & Hr & E), (Hs _ _ Hj) as (r' & Hr' & E'). simplify_eq. lia.
Qed.

Lemma evict_step order freed front p rest :
  order = p :: rest → Z.of_nat (length order) = kQuarantineEntries + 1 →
  (∃ r, freed !! p = Some r ∧ fr_seq r = front) →
  evict order freed front = Some (rest, delete p freed, u64 (front + 1)).
Proof.
  intros -> Hl (r & Hr & Hs). cbn [evict]. destruct (Z.leb_spec (Z.of_nat (length (p :: rest))) kQuarantineEntries);
    [lia|]. rewrite Hr. rewrite (proj2 (Z.eqb_eq _ _) Hs).
  destruct rest as [|q rest']; cbn [evict]; cbn [length] in *;
  (match goal with |- context [?x <=? ?y] => destruct (Z.leb_spec x y) end; [done|lia]).
Qed.

Definition quarantine_after (m : MM) (ptr sz : Z) (m' : MM) : Prop :=
  ∃ order freed front,
    m' = set_freed_ freed (set_freed_order_ order (set_freed_front_seq_ front m)) ∧
    quarantine_ok m' ∧ freed_front_seq_ m' ≤ freed_front_seq_ m + 1 ∧
    (∃ s, freed !! ptr = Some (mkFreedRecord sz s)) ∧
    (∀ p r, freed !! p = Some r → p ≠ ptr → freed_ m !! p = Some r) ∧
    (Z.of_nat (length (freed_order_ m)) < kQuarantineEntries →
       ∀ p r, freed_ m !! p = Some r → freed !! p = Some r) ∧
    (∀ p r, freed_ m !! p = Some r → freed !! p = Some r ∨ head (freed_order_ m) = Some p).

(** The queue with the new entry at its end. *)
Definition pushed (m : MM) (ptr sz : Z) : gmap Z FreedRecord :=
  <[ptr:=mkFreedRecord sz (freed_front_seq_ m + Z.of_nat (length (freed_order_ m)))]> (freed_ m).

Lemma pushed_seq m ptr sz i p :
  quarantine_ok m → freed_ m !! ptr = None → (freed_order_ m ++ [ptr]) !! i = Some p →
  ∃ r, pushed m ptr sz !! p = Some r ∧ fr_seq r = freed_front_seq_ m + Z.of_nat i.
Proof.
  intros [_ Hs _ _] Hnone [Hi|[Hi Hp]]%lookup_app_Some; unfold pushed.
  - destruct (Hs _ _ Hi) as (r & Hr & Hsq). exists r. rewrite lookup_insert_ne by congruence. done.
  - apply list_lookup_singleton_Some in Hp as [Hi' <-]. eexists. rewrite lookup_insert_eq.
    split; [done|]. simpl. lia.
Qed.

Lemma pushed_dom m ptr sz p :
  quarantine_ok m → is_Some (pushed m ptr sz !! p) → p ∈ freed_order_ m ++ [ptr].
Proof.
  intros [_ _ Hd _] Hp. destruct (decide (p = ptr)) as [->|]; [set_solver|].
  unfold pushed in Hp. rewrite lookup_insert_ne in Hp by done. apply elem_of_app. left. by apply Hd.
Qed.

Lemma pushed_old m ptr sz p r : freed_ m !! ptr = None →
  freed_ m !! p = Some r → pushed m ptr sz !! p = Some r.
Proof. intros Hn Hp. unfold pushed. rewrite lookup_insert_ne by congruence. done. Qed.

Lemma pushed_Some m ptr sz p r : pushed m ptr sz !! p = Some r → p = ptr ∨ freed_ m !! p = Some r.
Proof. unfold pushed. intros [[]|[]]%lookup_insert_Some; auto. Qed.

Lemma remember_room m ptr sz :
  quarantine_ok m → freed_ m !! ptr = None →
  Z.of_nat (length (freed_order_ m)) < kQuarantineEntries →
  evict (freed_order_ m ++ [ptr]) (pushed m ptr sz) (freed_front_seq_ m)
    = Some (freed_order_ m ++ [ptr], pushed m ptr sz, freed_front_seq_ m) ∧
  quarantine_after m ptr sz (set_freed_ (pushed m ptr sz)
    (set_freed_order_ (freed_order_ m ++ [ptr]) (set_freed_front_seq_ (freed_front_seq_ m) m))).
Proof.
  intros Hq Hnone Hlt. split.
  { unfold evict. destruct (freed_order_ m ++ [ptr]) eqn:E; rewrite <- E;
      rewrite (proj2 (Z.leb_le _ _)); rewrite ?length_app; simpl; try done; lia. }
  eexists _, _, _. split; [done|]. split; [split; cbn|].
  - rewrite length_app. simpl. lia.
  - intros i p Hi. by apply (pushed_seq m ptr sz).
  - intros p Hp. by eapply pushed_dom.
  - apply Hq.
  - split; [cbn; lia|]. split; [eexists; apply lookup_insert_eq|].
    split; [intros p r Hp Hne; by apply pushed_Some in Hp as [|]|].
    split; [|intros p r Hp; left]; eauto using pushed_old.
Qed.

Lemma remember_full m ptr sz q rest :
  quarantine_ok m → frees_left m → freed_ m !! ptr = None →
  freed_order_ m = q :: rest → Z.of_nat (length (freed_order_ m)) = kQuarantineEntries →
  evict (freed_order_ m ++ [ptr]) (pushed m ptr sz) (freed_front_seq_ m)
    = Some (rest ++ [ptr], delete q (pushed m ptr sz), freed_front_seq_ m + 1) ∧
  quarantine_after m ptr sz (set_freed_ (delete q (pushed m ptr sz))
    (set_freed_order_ (rest ++ [ptr]) (set_freed_front_seq_ (freed_front_seq_ m + 1) m))).
Proof.
  unfold frees_left, u64_max. intros Hq Hleft Hnone Eo Hlen.
  pose proof (qo_front _ Hq) as Hf.
  assert (Hq1 : ∃ r, pushed m ptr sz !! q = Some r ∧ fr_seq r = freed_front_seq_ m).
  { destruct (pushed_seq m ptr sz 0%nat q) as (r & ? & Hr); [done..|by rewrite Eo|].
    exists r. split; [done|]. lia. }
  split.
  { rewrite (evict_step _ _ _ q (rest ++ [ptr])); [|by rewrite Eo|rewrite length_app; simpl; lia|done].
    by rewrite u64_small by (unfold is_u64; lia). }
  assert (Hqp : q ≠ ptr).
  { intros ->. destruct (qo_seq _ Hq 0%nat ptr) as (r & Hr & _); [by rewrite Eo|congruence]. }
  assert (Hnd : q ∉ rest ++ [ptr]).
  { intros [k Hk]%list_elem_of_lookup.
    destruct (pushed_seq m ptr sz (S k) q) as (r & Hr & E); [done..|by rewrite Eo|].
    destruct Hq1 as (r' & Hr' & E'). simplify_eq. lia. }
  rewrite Eo in Hlen. cbn [length] in Hlen.
  eexists _, _, _. split; [done|]. split; [split; cbn|split; [cbn; lia|split; [|split; [|split]]]].
  - rewrite length_app. cbn [length]. lia.
  - intros i p Hi. destruct (pushed_seq m ptr sz (S i) p) as (r & Hr & Er); [done..|by rewrite Eo|].
    exists r. rewrite lookup_delete_ne; [split; [done|lia]|].
    intros ->. apply Hnd. by eapply list_elem_of_lookup_2.
  - intros p [r Hp]. apply lookup_delete_Some in Hp as [Hne Hp].
    pose proof (pushed_dom m ptr sz p Hq ltac:(eauto)) as Hd. rewrite Eo in Hd.
    by apply elem_of_cons in Hd as [->|].
  - lia.
  - eexists. rewrite lookup_delete_ne by done. apply lookup_insert_eq.
  - intros p r Hp Hne. apply lookup_delete_Some in Hp as [_ Hp].
    by apply pushed_Some in Hp as [|].
  - rewrite Eo. cbn [length]. lia.
  - intros p r Hp. rewrite Eo. destruct (decide (p = q)) as [->|]; [by right|]. left.
    rewrite lookup_delete_ne by congruence. by apply pushed_old.
Qed.

Lemma remember_freed_spec m ptr sz :
  quarantine_ok m → frees_left m → freed_ m !! ptr = None →
  ∃ m', remember_freed ptr sz m = Ret tt m' ∧ quarantine_after m ptr sz m'.
Proof.
  intros Hq Hleft Hnone. unfold remember_freed, bind, get.
  pose proof (qo_bound _ Hq). pose proof (qo_front _ Hq).
  rewrite u64_small by (unfold frees_left, u64_max, is_u64, kQuarantineEntries in *; lia).
  fold (pushed m ptr sz).
  destruct (Z.lt_ge_cases (Z.of_nat (length (freed_order_ m))) kQuarantineEntries).
  - destruct (remember_room m ptr sz Hq Hnone) as [-> ?]; [done|]. by eexists.
  - destruct (freed_order_ m) as [|q rest] eqn:Eo; [unfold kQuarantineEntries in *; simpl in *; lia|].
    rewrite <- Eo in *. destruct (remember_full m ptr sz q rest) as [-> ?]; try done; [lia|].
    by eexists.
Qed.

(** ** free *)

(** The parts of the state no table operation looks at. *)
Lemma table_inv_host m h g : table_inv m → table_inv (set_host_maps_ h (set_next_gen g m)).
Proof. intros [? ? [] ? ? [] ? ? ? ?]. split; try done; by split. Qed.

Lemma table_inv_heap m h : table_inv m → table_inv (set_heap_ h m).
Proof. intros [? ? [] ? ? [] ? ? ? ?]. split; try done; by split. Qed.

Lemma region_base_kind m k1 k2 b e1 : regions_ok m → region m k1 b e1 → k1 ≠ k2 →
  match k2 with
  | KLive => live_ m !! b = None
  | KFreed => freed_ m !! b = None
  | KReserved => reserved_ m !! b = None
  | KShared => shared_ m !! b = None
  end.
Proof.
  intros Hok Hr Hne. destruct k2; apply eq_None_not_Some; intros [x Hx]; apply Hne;
    eapply (ro_kind m Hok); try exact Hr; by eexists.
Qed.

(** A range that was live or shared and is now in the quarantine. *)
Lemma regions_to_freed m m' k ptr e0 sz :
  regions_ok m → region m k ptr e0 → k = KLive ∨ k = KShared → 0 < sz → ptr + sz ≤ e0 →
  va_base_ m' = va_base_ m → next_va_ m' = next_va_ m → reserved_ m' = reserved_ m →
  config_ok m → alloc_align_ m' = alloc_align_ m → page_ m' = page_ m →
  (k = KLive → live_ m' = delete ptr (live_ m) ∧ shared_ m' = shared_ m) →
  (k = KShared → live_ m' = live_ m ∧ shared_ m' = delete ptr (shared_ m)) →
  (∀ p r, freed_ m' !! p = Some r → (p = ptr ∧ fr_size r = sz) ∨ freed_ m !! p = Some r) →
  regions_ok m'.
Proof.
  intros Hok Hr Hk Hsz Hle Hvb Hnv Hres Hc Ha Hp HkL HkS Hf.
  assert (Hsub : ∀ k1 b e, region m' k1 b e →
    (k1 = KFreed ∧ b = ptr ∧ e = ptr + sz) ∨ (b ≠ ptr ∧ region m k1 b e)).
  { assert (Hpad : ∀ z, padded m' z = padded m z) by (intros; unfold padded, base_align; congruence).
    intros k1 b e Hrg.
    assert (Hnb : k1 ≠ KFreed → b ≠ ptr).
    { intros Hn ->. destruct k1; try done; destruct Hrg as (x & Hx & _).
      - destruct Hk as [-> | ->].
        + destruct HkL as [Hl _]; [done|]. rewrite Hl, lookup_delete_eq in Hx. done.
        + destruct HkS as [Hl _]; [done|]. rewrite Hl in Hx.
          rewrite (region_base_kind m KShared KLive ptr e0) in Hx; done.
      - rewrite Hres in Hx. rewrite (region_base_kind m k KReserved ptr e0) in Hx; try done.
        by destruct Hk as [-> | ->].
      - destruct Hk as [-> | ->].
        + destruct HkL as [_ Hl]; [done|]. rewrite Hl in Hx.
          rewrite (region_base_kind m KLive KShared ptr e0) in Hx; done.
        + destruct HkS as [_ Hl]; [done|]. rewrite Hl, lookup_delete_eq in Hx. done. }
    destruct k1; destruct Hrg as (x & Hx & ->).
    - right. split; [by apply Hnb|]. exists x. rewrite Hpad. split; [|done].
      destruct Hk as [-> | ->]; [destruct HkL as [Hl _]|destruct HkS as [Hl _]]; try done;
        rewrite Hl in Hx; [by apply lookup_delete_Some in Hx as []|done].
    - destruct (Hf _ _ Hx) as [[-> <-]|Hx']; [by left|]. right.
      split; [|by exists x]. intros ->.
      rewrite (region_base_kind m k KFreed ptr e0) in Hx'; try done. by destruct Hk as [-> | ->].
    - right. split; [by apply Hnb|]. exists x. by rewrite <- Hres.
    - right. split; [by apply Hnb|]. exists x. split; [|done].
      destruct Hk as [-> | ->]; [destruct HkL as [_ Hl]|destruct HkS as [_ Hl]]; try done;
        rewrite Hl in Hx; [done|by apply lookup_delete_Some in Hx as []]. }
  apply (regions_sub m); try done. intros k1 b e Hrg.
  destruct (Hsub _ _ _ Hrg) as [(-> & -> & ->)|[Hne Hrm]].
  - split; [lia|]. split; [by exists k, e0|]. intros k2 e2 H2.
    destruct (Hsub _ _ _ H2) as [(-> & _ & _)|[? _]]; done.
  - destruct (ro_in m Hok _ _ _ Hrm). split; [lia|]. split; [by exists k1, e|].
    intros k2 e2 H2. destruct (Hsub _ _ _ H2) as [(_ & -> & _)|[_ H2m]]; [done|].
    by eapply (ro_kind m Hok).
Qed.

Section free.
Context {B : Type} `{HostBacking B}.

Lemma on_mm_Ret {A} (op : M MM A) (m m' : MM) (b : B) x :
  op m = Ret x m' → on_mm op (m, b) = Ret x (m', b).
Proof. unfold on_mm. simpl. by intros ->. Qed.

(** What a free leaves, whichever table the pointer was in. *)
Definition freed_state (m m' : MM) (ptr sz : Z) : Prop :=
  table_inv m' ∧ live_ m' !! ptr = None ∧ shared_ m' !! ptr = None ∧
  (∃ s, freed_ m' !! ptr = Some (mkFreedRecord sz s)) ∧
  used_ m' = used_ m - sz ∧ next_va_ m' = next_va_ m ∧ va_base_ m' = va_base_ m ∧
  (∀ b, b ≠ ptr → live_ m' !! b = live_ m !! b) ∧
  (∀ b, b ≠ ptr → shared_ m' !! b = shared_ m !! b) ∧
  freed_front_seq_ m' ≤ freed_front_seq_ m + 1 ∧
  maps_ m' = maps_ m ∧ handles_ m' = handles_ m ∧ reserved_ m' = reserved_ m ∧
  next_handle_ m' = next_handle_ m.

Lemma charged_parts m : table_inv m →
  (∀ t, (∀ b a, t !! b = Some a → live_ m !! b = Some a) → 0 ≤ map_sum a_size t) ∧
  0 ≤ map_sum h_size (handles_ m) ∧
  (∀ t, (∀ b s, t !! b = Some s → shared_ m !! b = Some s) → 0 ≤ map_sum shared_charge t).
Proof.
  intros Hinv. split_and!.
  - intros t Ht. apply map_sum_nonneg. intros i x Hx%Ht.
    destruct (ti_live _ Hinv _ _ Hx); lia.
  - apply map_sum_nonneg. intros i x Hx%(ti_handles _ Hinv). lia.
  - intros t Ht. apply map_sum_nonneg. intros i x Hx%Ht. unfold shared_charge.
    destruct (s_owner x); [|lia].
    assert (region m KShared i (i + s_size x)) as Hr by (by exists x).
    apply (ro_in _ (ti_regions _ Hinv)) in Hr. lia.
Qed.

Lemma used_covers_live m ptr a : table_inv m → live_ m !! ptr = Some a → a_size a ≤ used_ m.
Proof.
  intros Hinv Ha. destruct (charged_parts m Hinv) as (Hl & ? & Hs).
  rewrite (ti_used _ Hinv). unfold charged. rewrite (map_sum_delete _ _ _ _ Ha).
  specialize (Hl (delete ptr (live_ m)) ltac:(intros b x []%lookup_delete_Some; done)).
  specialize (Hs (shared_ m) ltac:(done)). lia.
Qed.

Lemma free_live m (b : B) ptr a :
  table_inv m → frees_left m → live_ m !! ptr = Some a →
  ∃ m' b' q, free ptr (m, b) = Ret tt (m', b') ∧ freed_state m m' ptr (a_size a) ∧
    quarantine_after (set_used_ (used_ m - a_size a) m) ptr (a_size a) q ∧
    m' = set_live_ (delete ptr (live_ m)) (set_spare_live_ (Some (fst (recycle a b))) q).
Proof.
  intros Hinv Hleft Ha. pose proof Hinv as [Hc Hva Hreg Hlive Hsp Hq Hused [Hu Hcm] Hsh Hhs].
  destruct (Hlive _ _ Ha) as (Hwf & Hpos & _).
  assert (Hr : region m KLive ptr (ptr + padded m (a_size a))) by (exists a; done).
  pose proof (region_base_kind m KLive KShared ptr _ Hreg Hr ltac:(done)) as Hns.
  pose proof (region_base_kind m KLive KFreed ptr _ Hreg Hr ltac:(done)) as Hnf.
  pose proof (used_covers_live m ptr a Hinv Ha) as Hus.
  unfold u64_max in Hcm. unfold free, bind at 1, get. cbn [fst]. rewrite Hns, Ha.
  rewrite u64_small by (unfold is_u64; lia).
  erewrite bind_Ret by (by apply on_mm_Ret).
  set (m1 := set_used_ (used_ m - a_size a) m).
  destruct (remember_freed_spec m1 ptr (a_size a)) as (q & Eq & Hqa); [by destruct Hq|done|done|].
  erewrite bind_Ret by (apply on_mm_Ret; exact Eq).
  unfold modify. cbn [fst snd]. destruct (recycle a b) as [a' b'] eqn:Ere.
  exists (set_live_ (delete ptr (live_ m)) (set_spare_live_ (Some a') q)), b', q.
  pose proof Hqa as (order & freed & front & Eqm & Hqok & Hfr & (sq & Hptr) & Hfrom & _).
  assert (Hlq : live_ q = live_ m) by (by subst q).
  split; [by rewrite Hlq|]. split; [|done].
  pose proof (padded_bounds m (a_size a) Hc) as Hpad.
  split; [|subst q; cbn in Hfr |- *; split_and!; try done; [apply lookup_delete_eq|by eexists|]].
  2:{ intros b0 Hb0. by apply lookup_delete_ne. }
  subst q. split; cbn; try done.
  - apply (regions_to_freed m _ KLive ptr (ptr + padded m (a_size a)) (a_size a));
      cbn; try done; try lia; [by left|].
    intros p r Hp. destruct (decide (p = ptr)) as [->|]; [|right; by apply Hfrom].
    left. split; [done|]. rewrite Hptr in Hp. by simplify_eq.
  - intros b0 a0 Hl. apply lookup_delete_Some in Hl as [_ Hl]. by apply Hlive.
  - intros a0 [= <-]. replace a' with (fst (recycle a b)) by (by rewrite Ere). by apply recycle_spare.
  - by destruct Hqok.
  - unfold charged in *. cbn. rewrite (map_sum_delete _ _ _ _ Ha) in Hused. lia.
  - unfold u64_max. lia.
Qed.

Lemma mm_unmap_host_shape addr m :
  ∃ h g, mm_unmap_host addr m = Ret tt (set_host_maps_ h (set_next_gen g m)).
Proof.
  unfold mm_unmap_host, bind, get, ret, fresh_generation, modify.
  destruct (list_find _ _); [by do 2 eexists|].
  exists (host_maps_ m), (next_gen m). by destruct m.
Qed.

Lemma used_covers_shared m ptr sh :
  table_inv m → shared_ m !! ptr = Some sh → s_owner sh = true → s_size sh ≤ used_ m.
Proof.
  intros Hinv Hs Ho. destruct (charged_parts m Hinv) as (Hl & ? & Hsh).
  rewrite (ti_used _ Hinv). unfold charged. rewrite (map_sum_delete shared_charge _ _ _ Hs).
  specialize (Hsh (delete ptr (shared_ m)) ltac:(intros b x []%lookup_delete_Some; done)).
  specialize (Hl (live_ m) ltac:(done)). unfold shared_charge at 1. rewrite Ho. lia.
Qed.

(** Freeing an exported allocation takes its mapping and its file with it. *)
Lemma free_shared m (b : B) ptr sh :
  table_inv m → frees_left m → shared_ m !! ptr = Some sh → s_owner sh = true →
  ∃ m', free ptr (m, b) = Ret tt (m', b) ∧ freed_state m m' ptr (s_size sh).
Proof.
  intros Hinv Hleft Hs Ho. pose proof Hinv as [Hc Hva Hreg Hlive Hsp Hq Hused [Hu Hcm] Hsh Hhs].
  assert (Hr : region m KShared ptr (ptr + s_size sh)) by (exists sh; done).
  pose proof (region_base_kind m KShared KLive ptr _ Hreg Hr ltac:(done)) as Hnl.
  pose proof (region_base_kind m KShared KFreed ptr _ Hreg Hr ltac:(done)) as Hnf.
  destruct (ro_in _ Hreg _ _ _ Hr) as [[_ Hpos] _].
  pose proof (used_covers_shared m ptr sh Hinv Hs Ho) as Hus.
  unfold u64_max in Hcm. unfold free, bind at 1, get. cbn [fst]. rewrite Hs.
  destruct sh as [va sz host path own]. simpl in Ho, Hpos, Hus. subst own. cbn [s_size].
  rewrite u64_small by (unfold is_u64; lia).
  erewrite bind_Ret by (by apply on_mm_Ret).
  destruct (remember_freed_spec (set_used_ (used_ m - sz) m) ptr sz)
    as (q & Eq & Hqa); [by destruct Hq|done|done|].
  erewrite bind_Ret by (apply on_mm_Ret; exact Eq).
  destruct Hqa as (order & freed & front & Eqm & Hqok & Hfr & (sq & Hptr) & Hfrom & _).
  assert (Hdrop : ∃ h g, drop_shared ptr q = Ret tt (set_shared_ (delete ptr (shared_ m))
    (set_host_maps_ h (set_next_gen g q)))).
  { unfold drop_shared, bind at 1, get. subst q. cbn. rewrite Hs.
    destruct (mm_unmap_host_shape va (set_freed_ freed (set_freed_order_ order
      (set_freed_front_seq_ front (set_used_ (used_ m - sz) m))))) as (h & g & E).
    exists h, g. by erewrite bind_Ret by exact E. }
  destruct Hdrop as (h & g & Hdrop). eexists. split; [by apply on_mm_Ret|].
  subst q. split; [|cbn in Hfr |- *; split_and!; try done; [apply lookup_delete_eq|by eexists|]].
  2:{ intros b0 Hb0. by apply lookup_delete_ne. }
  split; cbn; try done.
  - apply (regions_to_freed m _ KShared ptr (ptr + sz) sz); cbn; try done; try lia; [by right|].
    intros p r Hp. destruct (decide (p = ptr)) as [->|]; [|right; by apply Hfrom].
    left. split; [done|]. rewrite Hptr in Hp. by simplify_eq.
  - by destruct Hqok.
  - unfold charged in *. cbn. rewrite (map_sum_delete shared_charge _ _ _ Hs) in Hused.
    unfold shared_charge at 1 in Hused. cbn in Hused. lia.
  - unfold u64_max. lia.
  - intros b0 s0 Hl. apply lookup_delete_Some in Hl as [_ Hl]. by apply Hsh.
Qed.

(** A free of anything else throws and changes nothing. *)
Lemma free_throws m (b : B) ptr :
  live_ m !! ptr = None → (∀ sh, shared_ m !! ptr = Some sh → s_owner sh = false) →
  free ptr (m, b) = Exn (Error (free_error m ptr)) (m, b).
Proof.
  intros Hl Hs. unfold free, bind, get. cbn [fst].
  destruct (shared_ m !! ptr) as [[va sz host path own]|] eqn:E;
    [specialize (Hs _ eq_refl); simpl in Hs; subst own|]; by rewrite Hl.
Qed.
End free.
