(* ===== verification/Vmm.v ===== *)
(** * Virtual memory management (src/core/memory.cpp, the cuMem* mapping API)

    Address space is reserved, physical memory is created as a handle, a handle
    is mapped into a reservation and access is granted separately. A handle's
    memory goes when its last reference and its last mapping are gone. *)

From S2P Require Import Prelude Chunks HostMaps MemState MemTable.

(** ** Reservations *)

(** MemoryManager::reserve *)
Definition reserve (sz alignment : Z) : M MM Z :=
  m <- get ;;
  if (sz =? 0) || negb (sz mod kVmmGranularity =? 0) then throw InvalidValue else
  if negb (Z.land alignment (u64 (alignment - 1)) =? 0) then throw InvalidValue else
  let alignment := if alignment <? kVmmGranularity then kVmmGranularity else alignment in
  let base := u64 (u64 (next_va_ m + alignment - 1) / alignment * alignment) in
  if (u64 (va_base_ m + kDeviceVaStride) <? u64 (base + sz)) || (u64 (base + sz) <? base)
  then throw OutOfMemory else
  put (set_reserved_ (emplace base (mkReservation sz) (reserved_ m))
      (set_high_water_va_ (u64 (base + sz)) (set_next_va_ (u64 (base + sz)) m))) ;;;
  ret base.

(** MemoryManager::range_mapped *)
Definition range_mapped (m : MM) (va sz : Z) : bool :=
  let before :=
    match floor_entry (maps_ m) (va - 1) with
    | Some (b, mp) => u64 (va - b) <? m_size mp
    | None => false
    end in
  match ceil_entry (maps_ m) va with
  | Some (a, _) => if a <? u64 (va + sz) then true else before
  | None => before
  end.

(** MemoryManager::address_free *)
Definition address_free (va sz : Z) : M MM unit :=
  m <- get ;;
  match reserved_ m !! va with
  | None => throw InvalidValue
  | Some r =>
      if negb (r_size r =? sz) then throw InvalidValue else
      match ceil_entry (maps_ m) va with
      | Some (a, _) =>
          if a <? u64 (va + sz) then throw InvalidValue
          else put (set_reserved_ (delete va (reserved_ m)) m)
      | None => put (set_reserved_ (delete va (reserved_ m)) m)
      end
  end.

(** ** Handles *)

Definition new_handle_mem (sz : Z) : Allocation :=
  mkAllocation sz ((sz + kChunkSize - 1) / kChunkSize) 0 (Some ∅) false 0 0.

(** MemoryManager::create_handle *)
Definition create_handle (sz shareable_types : Z) (compressible : bool) : M MM Z :=
  m <- get ;;
  if (sz =? 0) || negb (sz mod kVmmGranularity =? 0) then throw InvalidValue else
  if (capacity_ m <? u64 (used_ m + sz)) || (u64 (used_ m + sz) <? used_ m) then throw OutOfMemory else
  let h := mkHandle sz 1 0 shareable_types compressible (-1) (new_handle_mem sz) in
  let id := next_handle_ m in
  put (set_handles_ (emplace id h (handles_ m))
      (set_next_handle_ (u64 (id + 1)) (set_used_ (u64 (used_ m + sz)) m))) ;;;
  ret id.

(** MemoryManager::handle_size, handle_types, handle_compressible *)
Definition handle_size (handle : Z) : M MM Z := m <- get ;;
  match handles_ m !! handle with Some h => ret (h_size h) | None => throw InvalidValue end.
Definition handle_types (handle : Z) : M MM Z := m <- get ;;
  match handles_ m !! handle with Some h => ret (h_types h) | None => throw InvalidValue end.
Definition handle_compressible (handle : Z) : M MM bool := m <- get ;;
  match handles_ m !! handle with Some h => ret (h_compressible h) | None => throw InvalidValue end.

Definition set_refs (h : Handle) (r : Z) : Handle :=
  mkHandle (h_size h) r (h_mapped h) (h_types h) (h_compressible h) (h_fd h) (h_mem h).
Definition set_mapped (h : Handle) (n : Z) : Handle :=
  mkHandle (h_size h) (h_refs h) n (h_types h) (h_compressible h) (h_fd h) (h_mem h).

(** MemoryManager::retain_handle *)
Definition retain_handle (handle : Z) : M MM unit :=
  m <- get ;;
  match handles_ m !! handle with
  | None => throw InvalidValue
  | Some h => put (set_handles_ (<[handle:=set_refs h (u32 (h_refs h + 1))]> (handles_ m)) m)
  end.

(** MemoryManager::retain_handle_at *)
Definition retain_handle_at (va : Z) : M MM Z :=
  m <- get ;;
  match floor_entry (maps_ m) va with
  | None => ret 0
  | Some (b, mp) =>
      if m_size mp <=? u64 (va - b) then ret 0
      else retain_handle (m_handle mp) ;;; ret (m_handle mp)
  end.

(** MemoryManager::collect_handle *)
Definition collect_handle (handle : Z) : M MM unit :=
  m <- get ;;
  match handles_ m !! handle with
  | None => ret tt
  | Some h =>
      if negb (h_refs h =? 0) || negb (h_mapped h =? 0) then ret tt
      else put (set_handles_ (delete handle (handles_ m)) (set_used_ (u64 (used_ m - h_size h)) m))
  end.

(** MemoryManager::release_handle *)
Definition release_handle (handle : Z) : M MM unit :=
  m <- get ;;
  match handles_ m !! handle with
  | None => throw InvalidValue
  | Some h =>
      if h_refs h =? 0 then throw InvalidValue else
      put (set_handles_ (<[handle:=set_refs h (h_refs h - 1)]> (handles_ m)) m) ;;;
      collect_handle handle
  end.

(** ** Mappings *)

(** MemoryManager::map *)
Definition map (va sz offset handle : Z) : M MM unit :=
  m <- get ;;
  if (sz =? 0) || negb (sz mod kVmmGranularity =? 0) || negb (va mod kVmmGranularity =? 0)
  then throw InvalidValue else
  if negb (offset =? 0) then throw InvalidValue else
  match handles_ m !! handle with
  | None => throw InvalidValue
  | Some h =>
      if u64 (h_size h - offset) <? sz then throw InvalidValue else
      let inside :=
        match floor_entry (reserved_ m) va with
        | Some (b, r) => (u64 (va - b) <? r_size r) && (u64 (va + sz) <=? u64 (b + r_size r))
        | None => false
        end in
      if negb inside then throw InvalidValue else
      let overlaps_after :=
        match ceil_entry (maps_ m) va with Some (a, _) => a <? u64 (va + sz) | None => false end in
      if overlaps_after then throw InvalidValue else
      let overlaps_before :=
        match floor_entry (maps_ m) (va - 1) with
        | Some (b, mp) => u64 (va - b) <? m_size mp
        | None => false
        end in
      if overlaps_before then throw InvalidValue else
      put (set_maps_ (emplace va (mkMapping sz offset handle false false) (maps_ m))
          (set_handles_ (<[handle:=set_mapped h (u32 (h_mapped h + 1))]> (handles_ m)) m))
  end.

(** The first loop of MemoryManager::unmap: the whole mappings of the range. *)
Fixpoint unmap_scan (fuel : nat) (t : gmap Z Mapping) (at_ stop : Z) : M MM (list (Z * Mapping)) :=
  if stop <=? at_ then ret [] else
  match fuel with
  | O => undef
  | S fuel' =>
      match t !! at_ with
      | None => throw InvalidValue
      | Some mp =>
          if stop <? u64 (at_ + m_size mp) then throw InvalidValue else
          rest <- unmap_scan fuel' t (u64 (at_ + m_size mp)) stop ;;
          ret ((at_, mp) :: rest)
      end
  end.

(** The last loop: each handle loses the mapping and may go. *)
Fixpoint unmap_handles (handles : list Z) : M MM unit :=
  match handles with
  | [] => ret tt
  | handle :: rest =>
      m <- get ;;
      (match handles_ m !! handle with
       | Some h =>
           if negb (h_mapped h =? 0)
           then put (set_handles_ (<[handle:=set_mapped h (h_mapped h - 1)]> (handles_ m)) m)
           else ret tt
       | None => ret tt
       end) ;;;
      collect_handle handle ;;;
      unmap_handles rest
  end.

(** MemoryManager::unmap *)
Definition unmap (va sz : Z) : M MM unit :=
  m <- get ;;
  tiles <- (if sz =? 0 then ret []
            else unmap_scan (S (size (maps_ m))) (maps_ m) va (u64 (va + sz))) ;;
  match tiles with
  | [] => throw InvalidValue
  | _ =>
      modify (λ m, set_maps_ (foldl (λ t p, delete p.1 t) (maps_ m) tiles) m) ;;;
      unmap_handles ((λ p, m_handle p.2) <$> tiles)
  end.

(** The loop of MemoryManager::set_access: the grants made before a refusal stay. *)
Fixpoint set_access_loop (fuel : nat) (at_ stop : Z) (readable writable : bool) : M MM unit :=
  if stop <=? at_ then ret tt else
  match fuel with
  | O => undef
  | S fuel' =>
      m <- get ;;
      match maps_ m !! at_ with
      | None => throw InvalidValue
      | Some mp =>
          if u64 (stop - at_) <? m_size mp then throw InvalidValue else
          put (set_maps_ (<[at_:=mkMapping (m_size mp) (m_offset mp) (m_handle mp) readable writable]>
                 (maps_ m)) m) ;;;
          set_access_loop fuel' (u64 (at_ + m_size mp)) stop readable writable
      end
  end.

(** MemoryManager::set_access *)
Definition set_access (va sz : Z) (readable writable : bool) : M MM unit :=
  m <- get ;;
  if (sz =? 0) || negb (sz mod kVmmGranularity =? 0) || negb (va mod kVmmGranularity =? 0)
  then throw InvalidValue else
  set_access_loop (S (size (maps_ m))) va (u64 (va + sz)) readable writable.

(** MemoryManager::access_at *)
Definition access_at (m : MM) (va : Z) : option (bool * bool) :=
  match floor_entry (maps_ m) va with
  | None => None
  | Some (b, mp) => if m_size mp <=? u64 (va - b) then None else Some (m_readable mp, m_writable mp)
  end.

(** ** Invariant *)

(** How many mappings a handle has. *)
Definition maps_of (t : gmap Z Mapping) (handle : Z) : Z :=
  map_sum (λ mp, if m_handle mp =? handle then 1 else 0) t.

Record vmm_inv (m : MM) : Prop := {
  vi_map : ∀ va mp, maps_ m !! va = Some mp →
    0 < m_size mp ∧ m_offset mp = 0 ∧ va mod kVmmGranularity = 0 ∧
    m_size mp mod kVmmGranularity = 0 ∧
    (∃ h, handles_ m !! m_handle mp = Some h ∧ m_size mp ≤ h_size h) ∧
    (∃ b r, reserved_ m !! b = Some r ∧ b ≤ va ∧ va + m_size mp ≤ b + r_size r);
  vi_disj : ∀ va1 va2 mp1 mp2, maps_ m !! va1 = Some mp1 → maps_ m !! va2 = Some mp2 →
    va1 < va2 → va1 + m_size mp1 ≤ va2;
  vi_handle : ∀ id h, handles_ m !! id = Some h →
    0 < id < next_handle_ m ∧ h_size h mod kVmmGranularity = 0 ∧
    h_mapped h = maps_of (maps_ m) id ∧ 0 ≤ h_refs h ∧ (0 < h_refs h ∨ 0 < h_mapped h) ∧
    wf_alloc (h_mem h) ∧ a_size (h_mem h) = h_size h;
  vi_next : 0 < next_handle_ m;
}.

(** ** Counting mappings *)

Lemma maps_of_nonneg t handle : 0 ≤ maps_of t handle.
Proof. apply map_sum_nonneg. intros. case_if; lia. Qed.

Lemma maps_of_insert t va mp handle : t !! va = None →
  maps_of (<[va:=mp]> t) handle = (if m_handle mp =? handle then 1 else 0) + maps_of t handle.
Proof. apply map_sum_insert. Qed.

Lemma maps_of_delete t va mp handle : t !! va = Some mp →
  maps_of t handle = (if m_handle mp =? handle then 1 else 0) + maps_of (delete va t) handle.
Proof. apply map_sum_delete. Qed.

Lemma maps_of_pos t va mp : t !! va = Some mp → 0 < maps_of t (m_handle mp).
Proof.
  intros Ht. rewrite (maps_of_delete t va mp) by done. rewrite Z.eqb_refl.
  pose proof (maps_of_nonneg (delete va t) (m_handle mp)). lia.
Qed.

(** The counts fit a 32-bit counter. *)
Definition counts_fit (m : MM) : Prop :=
  ∀ id h, handles_ m !! id = Some h → h_mapped h + 1 < 4294967296 ∧ h_refs h + 1 < 4294967296.

(** ** The table invariant under the handle operations *)

Lemma table_inv_maps m t : table_inv m → table_inv (set_maps_ t m).
Proof. intros [? ? [] ? ? [] ? ? ? ?]. split; try done; by split. Qed.

Lemma table_inv_handle_update m id h h' :
  table_inv m → handles_ m !! id = Some h → h_size h' = h_size h →
  table_inv (set_handles_ (<[id:=h']> (handles_ m)) m).
Proof.
  intros [? ? [] ? ? [] Hused ? ? Hh] Hid Hs. split; try done; try by split.
  - unfold charged in *. cbn. by rewrite (map_sum_update h_size id h h') by done.
  - cbn. intros id' x. destruct (decide (id = id')) as [<-|].
    + rewrite lookup_insert_eq. intros [= <-]. rewrite Hs. by apply (Hh id).
    + rewrite lookup_insert_ne by done. apply Hh.
Qed.

Lemma used_covers_handle m id h :
  table_inv m → handles_ m !! id = Some h → h_size h ≤ used_ m.
Proof.
  intros Hinv Hid. destruct (charged_parts m Hinv) as (Hl & _ & Hs).
  specialize (Hl (live_ m) ltac:(done)). specialize (Hs (shared_ m) ltac:(done)).
  rewrite (ti_used _ Hinv). unfold charged. rewrite (map_sum_delete h_size _ _ _ Hid).
  assert (0 ≤ map_sum h_size (delete id (handles_ m))); [|lia].
  apply map_sum_nonneg. intros i x [_ Hx]%lookup_delete_Some.
  pose proof (ti_handles _ Hinv _ _ Hx). lia.
Qed.

Lemma table_inv_handle_delete m id h :
  table_inv m → handles_ m !! id = Some h →
  table_inv (set_handles_ (delete id (handles_ m)) (set_used_ (used_ m - h_size h) m)).
Proof.
  intros Hinv Hid. pose proof (used_covers_handle m id h Hinv Hid).
  pose proof (ti_handles _ Hinv _ _ Hid).
  destruct Hinv as [? ? [] ? ? [] Hused [] ? Hh]. split; try done; try by split.
  - unfold charged in *. cbn. rewrite (map_sum_delete h_size _ _ _ Hid) in Hused. lia.
  - cbn. lia.
  - cbn. intros id' x [_ Hx]%lookup_delete_Some. by eapply Hh.
Qed.

(** ** Handles: creation, references, collection *)

Definition mem_ok (m : MM) : Prop := table_inv m ∧ vmm_inv m.

Lemma new_handle_mem_wf sz : 0 ≤ sz → wf_alloc (new_handle_mem sz).
Proof.
  split; [done|done|]. eexists; split; [done|]. intros ?? Hl. by rewrite lookup_empty in Hl.
Qed.

Definition create_result (m : MM) (sz types : Z) (c : bool) : MM :=
  set_handles_ (<[next_handle_ m:=mkHandle sz 1 0 types c (-1) (new_handle_mem sz)]> (handles_ m))
    (set_next_handle_ (next_handle_ m + 1) (set_used_ (used_ m + sz) m)).

Lemma next_handle_free m : vmm_inv m → handles_ m !! next_handle_ m = None.
Proof.
  intros Hv. apply eq_None_not_Some. intros [h Hh]. destruct (vi_handle _ Hv _ _ Hh). lia.
Qed.

Lemma next_handle_unmapped m : vmm_inv m → maps_of (maps_ m) (next_handle_ m) = 0.
Proof.
  intros Hv. unfold maps_of.
  assert (Hg : ∀ t : gmap Z Mapping, (∀ va mp, t !! va = Some mp → maps_ m !! va = Some mp) →
    map_sum (λ mp, if m_handle mp =? next_handle_ m then 1 else 0) t = 0).
  { intros t. induction t as [|va mp t Hn IH] using map_ind; intros Ht; [done|].
    rewrite map_sum_insert by done. rewrite IH.
    - destruct (vi_map _ Hv va mp) as (_ & _ & _ & _ & (h & Hh & _) & _).
      { apply Ht, lookup_insert_eq. }
      destruct (Z.eqb_spec (m_handle mp) (next_handle_ m)) as [E|]; [|done].
      rewrite E, next_handle_free in Hh by done. done.
    - intros va' mp' Hl. apply Ht. rewrite lookup_insert_ne; congruence. }
  by apply Hg.
Qed.

Lemma create_handle_inv m sz types c :
  mem_ok m → 0 < sz → sz mod kVmmGranularity = 0 → used_ m + sz ≤ capacity_ m →
  mem_ok (create_result m sz types c).
Proof.
  intros [Ht Hv] Hsz Hg Hcap. pose proof (next_handle_free m Hv) as Hfree. split.
  - destruct Ht as [? ? [] ? ? [] Hused [] ? Hh]. split; try done; try by split.
    + unfold charged in *. cbn. rewrite map_sum_insert by done. cbn. lia.
    + cbn. lia.
    + cbn. intros id x. destruct (decide (next_handle_ m = id)) as [<-|].
      * rewrite lookup_insert_eq. by intros [= <-].
      * rewrite lookup_insert_ne by done. apply Hh.
  - destruct Hv as [Hm Hd Hh Hn]. split; cbn; [..|lia].
    + intros va mp Hl. destruct (Hm _ _ Hl) as (? & ? & ? & ? & (h & Hh' & ?) & ?).
      split_and!; try done. exists h. rewrite lookup_insert_ne; [done|]. intros E.
      rewrite <- E, Hfree in Hh'. done.
    + done.
    + intros id h. destruct (decide (next_handle_ m = id)) as [<-|].
      * rewrite lookup_insert_eq. intros [= <-]. cbn [h_mapped h_refs h_mem h_size].
        split; [lia|]. split; [done|].
        split; [symmetry; apply next_handle_unmapped; by split|]. split; [lia|]. split; [lia|].
        split; [apply new_handle_mem_wf; lia|done].
      * rewrite lookup_insert_ne by done. intros Hl. destruct (Hh _ _ Hl) as (? & ?). split; [lia|done].
Qed.

Lemma create_handle_spec m sz types c :
  mem_ok m → is_u64 sz → next_handle_ m < u64_max →
  create_handle sz types c m =
    if (sz =? 0) || negb (sz mod kVmmGranularity =? 0) then Exn (Error InvalidValue) m
    else if capacity_ m <? used_ m + sz then Exn (Error OutOfMemory) m
    else Ret (next_handle_ m) (create_result m sz types c).
Proof.
  intros [Ht Hv] Hs Hn. unfold u64_max in *. destruct (ti_capacity _ Ht) as [Hu Hc].
  pose proof (vi_next _ Hv). unfold u64_max, is_u64 in *.
  unfold create_handle, bind, get, put, ret, throw. case_if; [done|].
  rewrite u64_wrap_add by (unfold is_u64; lia). unfold u64_max.
  destruct (Z.leb_spec (used_ m + sz) 18446744073709551615).
  - destruct (Z.ltb_spec (capacity_ m) (used_ m + sz)); [done|].
    destruct (Z.ltb_spec (used_ m + sz) (used_ m)); [lia|]. cbn [orb].
    unfold emplace, create_result. rewrite next_handle_free by done.
    rewrite (u64_small (next_handle_ m + 1)) by (unfold is_u64; lia). done.
  - destruct (Z.ltb_spec (capacity_ m) (used_ m + sz)); [|lia].
    destruct (Z.ltb_spec (used_ m + sz - 18446744073709551616) (used_ m)); [|lia].
    by rewrite orb_true_r.
Qed.

(** A handle's record may change its counts as long as it stays alive. *)
Lemma vmm_inv_refs m id h r :
  vmm_inv m → handles_ m !! id = Some h → 0 ≤ r → (0 < r ∨ 0 < h_mapped h) →
  vmm_inv (set_handles_ (<[id:=set_refs h r]> (handles_ m)) m).
Proof.
  intros [Hm Hd Hh Hn] Hid Hr Halive. split; cbn; [..|done].
  - intros va mp Hl. destruct (Hm _ _ Hl) as (? & ? & ? & ? & (h' & Hh' & ?) & ?).
    split_and!; try done. destruct (decide (id = m_handle mp)) as [->|].
    + exists (set_refs h r). rewrite lookup_insert_eq. split; [done|]. simpl.
      by replace h with h' by congruence.
    + exists h'. by rewrite lookup_insert_ne.
  - done.
  - intros id' h'. destruct (decide (id = id')) as [<-|].
    + rewrite lookup_insert_eq. intros [= <-]. destruct (Hh _ _ Hid) as (? & ? & ? & ? & ? & ?). done.
    + rewrite lookup_insert_ne by done. apply Hh.
Qed.

(** A handle with neither references nor mappings can go. *)
Lemma vmm_inv_delete m id h :
  vmm_inv m → handles_ m !! id = Some h → maps_of (maps_ m) id = 0 →
  vmm_inv (set_handles_ (delete id (handles_ m)) (set_used_ (used_ m - h_size h) m)).
Proof.
  intros [Hm Hd Hh Hn] Hid Hz. split; cbn; [..|done].
  - intros va mp Hl. destruct (Hm _ _ Hl) as (? & ? & ? & ? & (h' & Hh' & ?) & ?).
    split_and!; try done. exists h'. rewrite lookup_delete_ne; [done|].
    intros E. pose proof (maps_of_pos _ _ _ Hl). rewrite <- E in *. lia.
  - done.
  - intros id' h' [_ Hl]%lookup_delete_Some. by apply Hh.
Qed.

Lemma retain_handle_spec m id :
  mem_ok m → counts_fit m →
  match retain_handle id m with
  | Ret _ m' => ∃ h, handles_ m !! id = Some h ∧ mem_ok m' ∧
      m' = set_handles_ (<[id:=set_refs h (h_refs h + 1)]> (handles_ m)) m
  | Exn e m' => e = Error InvalidValue ∧ m' = m ∧ handles_ m !! id = None
  | Undef => False
  end.
Proof.
  intros [Ht Hv] Hfit. unfold retain_handle, bind, get, put, throw.
  destruct (handles_ m !! id) as [h|] eqn:Hid; [|done].
  destruct (Hfit _ _ Hid) as [_ ?]. destruct (vi_handle _ Hv _ _ Hid) as (_ & _ & _ & ? & _).
  unfold u32. rewrite Z.mod_small by lia. exists h. split; [done|]. split; [|done].
  split; [by eapply table_inv_handle_update|]. apply vmm_inv_refs; [done|done|lia|lia].
Qed.

(** release: the memory goes exactly when this was the last reference and
    nothing is mapped. *)
Lemma release_handle_spec m id :
  mem_ok m →
  match release_handle id m with
  | Ret _ m' => ∃ h, handles_ m !! id = Some h ∧ mem_ok m' ∧
      m' = if (h_refs h =? 1) && (h_mapped h =? 0)
           then set_handles_ (delete id (handles_ m)) (set_used_ (used_ m - h_size h) m)
           else set_handles_ (<[id:=set_refs h (h_refs h - 1)]> (handles_ m)) m
  | Exn e m' => e = Error InvalidValue ∧ m' = m ∧
      ∀ h, handles_ m !! id = Some h → h_refs h = 0
  | Undef => False
  end.
Proof.
  intros [Ht Hv]. unfold release_handle, bind, get, put, throw.
  destruct (handles_ m !! id) as [h|] eqn:Hid; [|done].
  destruct (vi_handle _ Hv _ _ Hid) as (_ & _ & Hmap & Href & Hal & _).
  pose proof (maps_of_nonneg (maps_ m) id).
  destruct (Z.eqb_spec (h_refs h) 0).
  { split; [done|]. split; [done|]. by intros ? [= <-]. }
  unfold collect_handle, bind, get, put, ret. cbn. rewrite lookup_insert_eq. cbn.
  pose proof (used_covers_handle m id h Ht Hid). destruct (ti_capacity _ Ht). unfold u64_max in *.
  pose proof (ti_handles _ Ht _ _ Hid).
  rewrite u64_small by (unfold is_u64; lia).
  destruct (Z.eqb_spec (h_refs h - 1) 0), (Z.eqb_spec (h_refs h) 1); try lia; cbn;
    [destruct (Z.eqb_spec (h_mapped h) 0); cbn|].
  - rewrite delete_insert_eq.
    match goal with |- context [set_handles_ ?a (set_used_ ?u (set_handles_ ?b m))] =>
      change (set_handles_ a (set_used_ u (set_handles_ b m))) with (set_handles_ a (set_used_ u m)) end.
    exists h.
    split; [done|]. split; [|bool_cases; done]. split; [by apply table_inv_handle_delete|].
    apply vmm_inv_delete; [done|done|lia].
  - exists h. split; [done|]. split; [|bool_cases; done].
    split; [by eapply table_inv_handle_update|apply vmm_inv_refs; [done|done|lia|lia]].
  - exists h. split; [done|]. split; [|bool_cases; done].
    split; [by eapply table_inv_handle_update|apply vmm_inv_refs; [done|done|lia|lia]].
Qed.

(** ** Reservations and mappings *)

(** Device memory and its window are far below the end of 64-bit arithmetic. *)
Definition va_sane (m : MM) : Prop :=
  next_va_ m + capacity_ m + kDeviceVaStride ≤ u64_max ∧ next_va_ m ≤ 4611686018427387904.

Lemma land_pred_bound x : is_u64 x → Z.land x (u64 (x - 1)) = 0 → x ≤ 9223372036854775808.
Proof.
  intros Hx Hl. destruct (Z.le_gt_cases x 9223372036854775808) as [|Hgt]; [done|].
  unfold is_u64 in Hx. rewrite u64_small in Hl by (unfold is_u64; lia).
  apply (f_equal (λ z, Z.testbit z 63)) in Hl. rewrite Z.land_spec, Z.bits_0 in Hl.
  assert (Hb : ∀ z, 9223372036854775808 ≤ z < 18446744073709551616 → Z.testbit z 63 = true).
  { intros z Hz. rewrite Z.testbit_true by lia. change (2 ^ 63) with 9223372036854775808.
    replace (z / 9223372036854775808) with 1; [done|]. apply (Z.div_unique_pos _ _ _ (z - 9223372036854775808)); lia. }
  rewrite !Hb in Hl by lia. done.
Qed.

Definition reserve_result (m : MM) (sz alignment : Z) : Z * MM :=
  let al := if alignment <? kVmmGranularity then kVmmGranularity else alignment in
  let base := round_up (next_va_ m) al in
  (base, set_reserved_ (<[base:=mkReservation sz]> (reserved_ m))
           (set_high_water_va_ (base + sz) (set_next_va_ (base + sz) m))).

(** The window check of reserve is the mathematical one. *)
Lemma reserve_spec m sz alignment :
  mem_ok m → va_sane m → is_u64 sz → is_u64 alignment →
  reserve sz alignment m =
    if (sz =? 0) || negb (sz mod kVmmGranularity =? 0) then Exn (Error InvalidValue) m
    else if negb (Z.land alignment (u64 (alignment - 1)) =? 0) then Exn (Error InvalidValue) m
    else if va_base_ m + kDeviceVaStride <? fst (reserve_result m sz alignment) + sz
         then Exn (Error OutOfMemory) m
    else Ret (fst (reserve_result m sz alignment)) (snd (reserve_result m sz alignment)).
Proof.
  intros [Ht Hv] [Hs1 Hs2] Hsz Hal. unfold reserve, bind, get, put, ret, throw.
  case_if; [done|]. case_if; [done|]. pose proof (land_pred_bound alignment Hal ltac:(done)) as Hab.
  destruct (ti_va _ Ht) as (? & ? & _). destruct (ti_capacity _ Ht).
  unfold reserve_result. cbv zeta. cbn [fst snd].
  set (al := if alignment <? kVmmGranularity then kVmmGranularity else alignment).
  assert (Hal' : 2097152 ≤ al ≤ 9223372036854775808) by (unfold al, kVmmGranularity; case_if; lia).
  pose proof (round_up_spec (next_va_ m) al ltac:(lia)) as [Hr _].
  unfold va_sane, is_u64, u64_max, kDeviceVaStride in *.
  rewrite (u64_small (next_va_ m + al - 1)) by (unfold is_u64; lia).
  fold (round_up (next_va_ m) al). set (base := round_up (next_va_ m) al) in *.
  rewrite (u64_small base) by (unfold is_u64; lia).
  rewrite (u64_small (va_base_ m + _)) by (unfold is_u64; lia).
  rewrite u64_wrap_add by (unfold is_u64; lia). unfold u64_max.
  destruct (Z.leb_spec (base + sz) 18446744073709551615).
  - destruct (Z.ltb_spec (va_base_ m + 1099511627776) (base + sz)); [done|].
    destruct (Z.ltb_spec (base + sz) base); [lia|]. cbn [orb]. unfold emplace.
    destruct (region_none_above m base (ti_regions _ Ht)) as (_ & _ & -> & _); [lia|]. done.
  - destruct (Z.ltb_spec (va_base_ m + 1099511627776) (base + sz)); [|lia].
    destruct (Z.ltb_spec (base + sz - 18446744073709551616) base); [|lia].
    by rewrite orb_true_r.
Qed.

Lemma reserve_inv m sz alignment :
  mem_ok m → 0 < sz → 0 ≤ alignment →
  fst (reserve_result m sz alignment) + sz ≤ u64_max →
  mem_ok (snd (reserve_result m sz alignment)).
Proof.
  intros [Ht Hv] Hsz Hal Hmax. unfold reserve_result in *. cbv zeta in *. cbn [fst snd] in *.
  set (al := if alignment <? kVmmGranularity then kVmmGranularity else alignment) in *.
  assert (Hal' : 0 < al) by (unfold al, kVmmGranularity; case_if; lia).
  pose proof (round_up_spec (next_va_ m) al Hal') as [Hr _].
  set (base := round_up (next_va_ m) al) in *.
  pose proof Ht as [? (? & ? & ?) Hreg ? ? Hq ? ? ? ?].
  destruct (region_none_above m base Hreg) as (_ & _ & Hnone & _); [lia|]. split.
  - split; cbn; try done; [lia| |by destruct Hq].
    apply (regions_fresh m _ KReserved base (base + sz)); cbn; try done; try lia.
    intros [] b e Hrg; cbn in Hrg; try (left; exact Hrg).
    destruct Hrg as (r & Hl & ->). destruct (decide (base = b)) as [<-|].
    + rewrite lookup_insert_eq in Hl. simplify_eq. by right.
    + rewrite lookup_insert_ne in Hl by done. left. by exists r.
  - destruct Hv as [Hm Hd Hh Hn]. split; cbn; try done.
    intros va mp Hl. destruct (Hm _ _ Hl) as (? & ? & ? & ? & ? & (b & r & Hb & ?)).
    split_and!; try done. exists b, r. rewrite lookup_insert_ne; [done|]. congruence.
Qed.

Lemma mem_ok_unreserve m va sz :
  mem_ok m → reserved_ m !! va = Some (mkReservation sz) →
  (∀ a mp, maps_ m !! a = Some mp → a < va ∨ va + sz ≤ a) →
  mem_ok (set_reserved_ (delete va (reserved_ m)) m).
Proof.
  intros [Ht Hv] Hr Hno. split.
  - pose proof Ht as [? ? Hreg ? ? Hq ? ? ? ?]. split; try done; [|by destruct Hq].
    assert (Hsub : ∀ k b e, region (set_reserved_ (delete va (reserved_ m)) m) k b e → region m k b e).
    { intros k b e Hk. destruct k; try exact Hk. destruct Hk as (r & Hl & ->). cbn in Hl.
      apply lookup_delete_Some in Hl as [_ Hl]. by exists r. }
    apply (regions_sub m); try done. intros k b e Hk%Hsub.
    destruct (ro_in _ Hreg _ _ _ Hk). split; [lia|]. split; [by exists k, e|].
    intros k2 e2 H2%Hsub. by eapply (ro_kind _ Hreg).
  - destruct Hv as [Hm Hd Hh Hn]. split; cbn; try done.
    intros a mp Hl. destruct (Hm _ _ Hl) as (? & ? & ? & ? & ? & (b & r & Hb & ? & ?)).
    split_and!; try done. exists b, r. rewrite lookup_delete_ne; [done|]. intros <-.
    rewrite Hr in Hb. simplify_eq. destruct (Hno _ _ Hl); cbn in *; lia.
Qed.

(** A reservation is given back only when nothing is mapped in it. *)
Lemma address_free_spec m va sz :
  mem_ok m →
  match address_free va sz m with
  | Ret _ m' => mem_ok m' ∧ reserved_ m !! va = Some (mkReservation sz) ∧
      m' = set_reserved_ (delete va (reserved_ m)) m ∧
      ∀ a mp, maps_ m !! a = Some mp → a < va ∨ va + sz ≤ a
  | Exn e m' => e = Error InvalidValue ∧ m' = m
  | Undef => False
  end.
Proof.
  intros [Ht Hv]. unfold address_free, bind, get, put, throw.
  destruct (reserved_ m !! va) as [[rs]|] eqn:Hr; [|done]. cbn [r_size].
  destruct (Z.eqb_spec rs sz) as [->|]; [|done]. cbn [negb].
  assert (Hrg : region m KReserved va (va + sz)) by (by exists (mkReservation sz)).
  pose proof (ro_in _ (ti_regions _ Ht) _ _ _ Hrg) as [Hin1 Hin2].
  destruct (ti_va _ Ht) as (? & ? & _). unfold u64_max in *.
  rewrite u64_small by (unfold is_u64; lia).
  pose proof (ceil_entry_spec (maps_ m) va) as Hc.
  destruct (ceil_entry (maps_ m) va) as [[a mp]|]; cbn in Hc.
  - destruct Hc as (Ha & Hle & Hmin). destruct (Z.ltb_spec a (va + sz)); [done|].
    assert (Hno : ∀ a mp, maps_ m !! a = Some mp → a < va ∨ va + sz ≤ a).
    { intros a' mp' Ha'. destruct (Z.lt_ge_cases a' va); [by left|right].
      specialize (Hmin a' ltac:(eauto) ltac:(lia)). lia. }
    split; [by eapply mem_ok_unreserve|]. done.
  - assert (Hno : ∀ a mp, maps_ m !! a = Some mp → a < va ∨ va + sz ≤ a).
    { intros a' mp' Ha'. left. by apply Hc. }
    split; [by eapply mem_ok_unreserve|]. done.
Qed.

(** No mapping meets a range, by the two neighbours of its start. *)
Lemma map_gap m va sz :
  vmm_inv m → 0 ≤ va → 0 < sz →
  (∀ va0 mp0, maps_ m !! va0 = Some mp0 → is_u64 va0 ∧ va0 + m_size mp0 ≤ u64_max) → is_u64 va →
  match ceil_entry (maps_ m) va with Some (a, _) => a <? va + sz | None => false end = false →
  match floor_entry (maps_ m) (va - 1) with
  | Some (b, mp) => u64 (va - b) <? m_size mp | None => false end = false →
  ∀ a mp, maps_ m !! a = Some mp → a + m_size mp ≤ va ∨ va + sz ≤ a.
Proof.
  intros Hv Hva Hsz Hrange Hu Hceil Hfloor a mp Ha.
  pose proof (ceil_entry_spec (maps_ m) va) as Hc. pose proof (floor_entry_spec (maps_ m) (va - 1)) as Hf.
  destruct (Z.lt_ge_cases a va).
  - left. destruct (floor_entry (maps_ m) (va - 1)) as [[b mb]|]; cbn in Hf.
    + destruct Hf as (Hb & Hble & Hmax). specialize (Hmax a ltac:(eauto) ltac:(lia)).
      destruct (Hrange _ _ Hb) as [Hbu _]. apply Z.ltb_ge in Hfloor.
      unfold is_u64 in *. rewrite u64_small in Hfloor by (unfold is_u64; lia).
      destruct (decide (a = b)) as [->|]; [replace mp with mb by congruence; lia|].
      pose proof (vi_disj _ Hv a b mp mb Ha Hb ltac:(lia)). lia.
    + specialize (Hf a ltac:(eauto)). lia.
  - right. destruct (ceil_entry (maps_ m) va) as [[c mc]|]; cbn in Hc.
    + destruct Hc as (Hcm & Hcle & Hmin). specialize (Hmin a ltac:(eauto) ltac:(lia)).
      apply Z.ltb_ge in Hceil. lia.
    + specialize (Hc a ltac:(eauto)). lia.
Qed.

(** Every mapping lies in the address space handed out. *)
Lemma mapping_range m va mp :
  mem_ok m → maps_ m !! va = Some mp →
  0 ≤ va ∧ va_base_ m ≤ va ∧ 0 < m_size mp ∧ va + m_size mp ≤ next_va_ m ∧ next_va_ m ≤ u64_max.
Proof.
  intros [Ht Hv] Hl. destruct (vi_map _ Hv _ _ Hl) as (? & _ & _ & _ & _ & (b & r & Hb & ? & ?)).
  assert (Hr : region m KReserved b (b + r_size r)) by (by exists r).
  pose proof (ro_in _ (ti_regions _ Ht) _ _ _ Hr). destruct (ti_va _ Ht) as (? & ? & _). lia.
Qed.

Definition map_result (m : MM) (va sz handle : Z) (h : Handle) : MM :=
  set_maps_ (<[va:=mkMapping sz 0 handle false false]> (maps_ m))
    (set_handles_ (<[handle:=set_mapped h (h_mapped h + 1)]> (handles_ m)) m).

Lemma map_inv m va sz handle h b r :
  mem_ok m → 0 < sz → sz mod kVmmGranularity = 0 → va mod kVmmGranularity = 0 →
  handles_ m !! handle = Some h → sz ≤ h_size h →
  reserved_ m !! b = Some r → b ≤ va → va + sz ≤ b + r_size r →
  (∀ a mp, maps_ m !! a = Some mp → a + m_size mp ≤ va ∨ va + sz ≤ a) →
  mem_ok (map_result m va sz handle h).
Proof.
  intros [Ht Hv] Hsz Hg1 Hg2 Hh Hle Hb Hbv Hbe Hgap.
  assert (Hnone : maps_ m !! va = None).
  { apply eq_None_not_Some. intros [mp Hl]. destruct (vi_map _ Hv _ _ Hl) as (? & _).
    destruct (Hgap _ _ Hl); lia. }
  split; [apply table_inv_maps; by eapply table_inv_handle_update|].
  destruct Hv as [Hm Hd Hhs Hn]. split; cbn; [..|done].
  - intros a mp Hl. destruct (decide (va = a)) as [<-|].
    + rewrite lookup_insert_eq in Hl. simplify_eq. cbn. split_and!; try done.
      * exists (set_mapped h (h_mapped h + 1)). by rewrite lookup_insert_eq.
      * by exists b, r.
    + rewrite lookup_insert_ne in Hl by done.
      destruct (Hm _ _ Hl) as (? & ? & ? & ? & (h' & Hh' & ?) & ?). split_and!; try done.
      destruct (decide (handle = m_handle mp)) as [E|].
      * exists (set_mapped h (h_mapped h + 1)). rewrite E, lookup_insert_eq. split; [done|].
        cbn. by replace h with h' by congruence.
      * exists h'. by rewrite lookup_insert_ne.
  - intros va1 va2 mp1 mp2 H1 H2 Hlt.
    apply lookup_insert_Some in H1 as [[-> <-]|[_ H1]];
    apply lookup_insert_Some in H2 as [[E <-]|[_ H2]]; cbn; try lia.
    + destruct (Hm _ _ H2) as (? & _). destruct (Hgap _ _ H2); lia.
    + destruct (Hgap _ _ H1); lia.
    + by eapply Hd.
  - intros id h' Hl. rewrite maps_of_insert by done. cbn [m_handle].
    destruct (decide (handle = id)) as [<-|].
    + rewrite lookup_insert_eq in Hl. simplify_eq. cbn. rewrite Z.eqb_refl.
      destruct (Hhs _ _ Hh) as (? & ? & ? & ? & ? & ? & ?).
      pose proof (maps_of_nonneg (maps_ m) handle). split_and!; try done; lia.
    + rewrite lookup_insert_ne in Hl by done. destruct (Z.eqb_spec handle id); [done|].
      by apply Hhs.
Qed.

Lemma map_spec m va sz offset handle :
  mem_ok m → va_sane m → counts_fit m → is_u64 va → is_u64 sz →
  match map va sz offset handle m with
  | Ret _ m' => offset = 0 ∧ mem_ok m' ∧
      ∃ h, handles_ m !! handle = Some h ∧ m' = map_result m va sz handle h
  | Exn e m' => e = Error InvalidValue ∧ m' = m
  | Undef => False
  end.
Proof.
  intros [Ht Hv] [Hs1 Hs2] Hfit Hva Hsz. unfold map, bind, get, put, throw.
  case_if; [done|]. case_if; [done|]. subst offset.
  destruct (handles_ m !! handle) as [h|] eqn:Hh; [|done].
  pose proof (ti_handles _ Ht _ _ Hh). pose proof (used_covers_handle _ _ _ Ht Hh).
  destruct (ti_capacity _ Ht). destruct (ti_va _ Ht) as (? & ? & _).
  destruct (Hfit _ _ Hh). destruct (vi_handle _ Hv _ _ Hh) as (_ & _ & Hcnt & _).
  pose proof (maps_of_nonneg (maps_ m) handle).
  unfold va_sane, is_u64, u64_max, kDeviceVaStride in *.
  rewrite Z.sub_0_r, (u64_small (h_size h)) by (unfold is_u64; lia).
  destruct (Z.ltb_spec (h_size h) sz); [done|].
  pose proof (floor_entry_spec (reserved_ m) va) as Hf.
  destruct (floor_entry (reserved_ m) va) as [[b r]|]; [|done]. cbn in Hf.
  destruct Hf as (Hb & Hbv & _).
  assert (Hr : region m KReserved b (b + r_size r)) by (by exists r).
  pose proof (ro_in _ (ti_regions _ Ht) _ _ _ Hr) as [? ?].
  rewrite (u64_small (va - b)), (u64_small (b + r_size r)) by (unfold is_u64; lia).
  destruct (Z.ltb_spec (va - b) (r_size r)); [|done].
  rewrite (u64_small (va + sz)) by (unfold is_u64; lia).
  destruct (Z.leb_spec (va + sz) (b + r_size r)); [|done]. cbn [negb andb].
  assert (Hrange : ∀ va0 mp0, maps_ m !! va0 = Some mp0 →
    is_u64 va0 ∧ va0 + m_size mp0 ≤ 18446744073709551615).
  { intros va0 mp0 Hl. destruct (mapping_range m va0 mp0 (conj Ht Hv) Hl).
    unfold is_u64, u64_max in *. lia. }
  match goal with |- context [if ?x then _ else _] => destruct x eqn:Hceil end; [done|].
  match goal with |- context [if ?x then _ else _] => destruct x eqn:Hfloor end; [done|].
  assert (Hgap := map_gap m va sz Hv ltac:(lia) ltac:(lia) Hrange Hva Hceil Hfloor).
  assert (Hnone : maps_ m !! va = None).
  { apply eq_None_not_Some. intros [mp Hl]. destruct (vi_map _ Hv _ _ Hl) as (? & _).
    destruct (Hgap _ _ Hl); lia. }
  unfold emplace. rewrite Hnone. unfold u32. rewrite Z.mod_small by lia.
  split; [done|]. split; [|by exists h]. eapply map_inv; try done; lia.
Qed.
