(* ===== verification/VmmRange.v ===== *)
(** * The range operations of virtual memory (src/core/memory.cpp)

    [unmap] and [set_access] walk a range mapping by mapping. Here: both walks
    end, what they accept is exactly a range tiled by whole mappings, and what
    they leave behind. *)

From S2P Require Import Prelude Chunks HostMaps MemState MemTable Vmm.

(** ** Tilings *)

(** [l] is the mappings of [t] that tile the addresses from [at_] to [stop]. *)
Inductive tiling (t : gmap Z Mapping) : Z → list (Z * Mapping) → Z → Prop :=
  | tiling_nil at_ : tiling t at_ [] at_
  | tiling_cons at_ mp l stop :
      t !! at_ = Some mp → tiling t (at_ + m_size mp) l stop →
      tiling t at_ ((at_, mp) :: l) stop.

Section Walk.
Context (t : gmap Z Mapping).
Hypothesis Hpos : ∀ va mp, t !! va = Some mp → 0 < m_size mp ∧ 0 ≤ va ∧ va + m_size mp ≤ u64_max.
Hypothesis Hdisj : ∀ va1 va2 mp1 mp2, t !! va1 = Some mp1 → t !! va2 = Some mp2 →
  va1 < va2 → va1 + m_size mp1 ≤ va2.

Lemma tiling_le at_ l stop : tiling t at_ l stop → at_ ≤ stop.
Proof. clear Hdisj. induction 1 as [|??? ? Hl]; [lia|]. destruct (Hpos _ _ Hl). lia. Qed.

Lemma tiling_in at_ l stop va mp :
  tiling t at_ l stop → (va, mp) ∈ l → t !! va = Some mp ∧ at_ ≤ va < stop.
Proof. clear Hdisj.
  induction 1 as [|at_ mp' l stop Hl Ht IH]; [set_solver|].
  pose proof (tiling_le _ _ _ Ht). destruct (Hpos _ _ Hl).
  rewrite elem_of_cons. intros [[= -> ->]|Hin]; [split; [done|lia]|].
  destruct (IH Hin). split; [done|lia].
Qed.

(** No mapping of the range is missed. *)
Lemma tiling_all at_ l stop va mp :
  tiling t at_ l stop → t !! va = Some mp → at_ ≤ va < stop → (va, mp) ∈ l.
Proof.
  induction 1 as [|at_ mp' l stop Hl Ht IH]; intros Hva Hr; [lia|].
  destruct (decide (at_ = va)) as [->|]; [replace mp' with mp by congruence; left|right].
  apply IH; [done|]. pose proof (Hdisj _ _ _ _ Hl Hva ltac:(lia)). lia.
Qed.

Lemma tiling_unique at_ l l' stop : tiling t at_ l stop → tiling t at_ l' stop → l = l'.
Proof. clear Hdisj.
  intros H. revert l'. induction H as [|at_ mp l stop Hl Ht IH]; intros l' H'.
  - inversion H' as [|???? Hl Ht]; [done|]. subst. destruct (Hpos _ _ Hl).
    pose proof (tiling_le _ _ _ Ht). lia.
  - inversion H' as [|? mp' ?? Hl' Ht']; subst.
    + destruct (Hpos _ _ Hl). pose proof (tiling_le _ _ _ Ht). lia.
    + simplify_eq. f_equal. by apply IH.
Qed.

Lemma tiling_nodup at_ l stop : tiling t at_ l stop → NoDup l.*1.
Proof. clear Hdisj.
  induction 1 as [|at_ mp l stop Hl Ht IH]; cbn; constructor; [|done].
  intros ([va mp'] & -> & Hin)%list_elem_of_fmap. destruct (tiling_in _ _ _ _ _ Ht Hin).
  destruct (Hpos _ _ Hl). cbn in *. lia.
Qed.

(** Taking out the tiles takes out the keys of the range. *)
Lemma tiling_deleted at_ l stop :
  tiling t at_ l stop →
  foldl (λ u p, delete p.1 u) t l = filter (λ p, ¬ at_ ≤ p.1 < stop) t.
Proof.
  intros Ht. apply map_eq. intros va.
  assert (Hf : ∀ (l : list (Z * Mapping)) (u : gmap Z Mapping), foldl (λ u p, delete p.1 u) u l !! va =
    if decide (va ∈ l.*1) then None else u !! va).
  { clear. induction l as [|[k mp] l IH]; intros u; cbn; [by rewrite decide_False by set_solver|].
    rewrite IH. destruct (decide (va = k)) as [->|].
    - rewrite lookup_delete_eq, (decide_True _ _ (list_elem_of_here _ _)). by case_decide.
    - rewrite lookup_delete_ne by done.
      by destruct (decide (va ∈ l.*1)), (decide (va ∈ k :: l.*1)) as [Hk|Hk]; try done;
        rewrite elem_of_cons in Hk; destruct Hk; auto. }
  rewrite Hf, map_lookup_filter. case_decide as Hin.
  - apply list_elem_of_fmap in Hin as ([k mp] & -> & Hin). cbn.
    destruct (tiling_in _ _ _ _ _ Ht Hin) as [-> ?]. cbn. by case_guard.
  - destruct (t !! va) as [mp|] eqn:Hva; cbn; [|done]. case_guard as Hg; [done|].
    exfalso. apply Hin, list_elem_of_fmap. exists (va, mp). split; [done|].
    apply (tiling_all at_ l stop); try done.
Qed.

(** The keys a walk has still to meet. *)
Definition keys_from (at_ : Z) : nat := size (filter (λ p, at_ ≤ p.1) t).

Lemma keys_from_decreases at_ at_' mp :
  t !! at_ = Some mp → at_ < at_' → (keys_from at_' < keys_from at_)%nat.
Proof.
  intros Hl Hlt. unfold keys_from. apply map_subset_size. split.
  - apply map_filter_subseteq_ext. cbn. intros. lia.
  - intros Hs. eapply lookup_weaken in Hs; [|apply map_lookup_filter_Some; by split; [|cbn]].
    apply map_lookup_filter_Some in Hs as [_ ?]. cbn in *. lia.
Qed.

Lemma keys_from_size at_ : (keys_from at_ ≤ size t)%nat.
Proof. apply map_subseteq_size, map_filter_subseteq. Qed.

(** The walk of [unmap] finds the tiling when there is one, and says so when
    there is none; it never runs out. *)
Lemma unmap_scan_spec fuel m at_ stop :
  (keys_from at_ < fuel)%nat → at_ ≤ stop ≤ u64_max →
  match unmap_scan fuel t at_ stop m with
  | Ret l m' => m' = m ∧ tiling t at_ l stop
  | Exn e m' => e = Error InvalidValue ∧ m' = m ∧ ∀ l, ¬ tiling t at_ l stop
  | Undef => False
  end.
Proof. clear Hdisj.
  revert at_. induction fuel as [|fuel IH]; intros at_ Hf Hle; [lia|]. cbn [unmap_scan].
  destruct (Z.leb_spec stop at_).
  { replace stop with at_ by lia. split; [done|constructor]. }
  destruct (t !! at_) as [mp|] eqn:Hl.
  2:{ split_and!; try done. intros l Ht. inversion Ht; subst; [lia|congruence]. }
  destruct (Hpos _ _ Hl) as (? & ? & ?). unfold u64_max in *.
  rewrite u64_small by (unfold is_u64; lia). destruct (Z.ltb_spec stop (at_ + m_size mp)).
  { split_and!; try done. intros l Ht. inversion Ht as [|? mp' ? ? Hl' Ht']; subst; [lia|].
    simplify_eq. apply tiling_le in Ht'. lia. }
  specialize (IH (at_ + m_size mp)). unfold bind.
  pose proof (keys_from_decreases at_ (at_ + m_size mp) mp Hl ltac:(lia)).
  specialize (IH ltac:(lia) ltac:(lia)).
  destruct (unmap_scan fuel t (at_ + m_size mp) stop m) as [l m'|e m'|]; [..|done].
  - destruct IH as [-> Ht]. split; [done|]. by constructor.
  - destruct IH as (-> & -> & Hn). split_and!; try done. intros l Ht.
    inversion Ht as [|? mp' l' ? Hl' Ht']; subst; [lia|]. simplify_eq. by apply (Hn l').
Qed.
End Walk.

(** ** Unmapping *)

Fixpoint occ (id : Z) (l : list Z) : Z :=
  match l with [] => 0 | x :: l' => (if x =? id then 1 else 0) + occ id l' end.

Lemma occ_nonneg id l : 0 ≤ occ id l.
Proof. induction l; cbn; [lia|]. case_if; lia. Qed.

Lemma occ_in id l : id ∈ l → 0 < occ id l.
Proof.
  induction 1; cbn; [rewrite Z.eqb_refl; pose proof (occ_nonneg x l); lia|].
  case_if; lia.
Qed.

(** Between taking the mappings out and telling the handles: [l] is the handles
    that have still to be told. *)
Record pending (l : list Z) (m : MM) : Prop := {
  pe_map : ∀ va mp, maps_ m !! va = Some mp →
    0 < m_size mp ∧ m_offset mp = 0 ∧ va mod kVmmGranularity = 0 ∧
    m_size mp mod kVmmGranularity = 0 ∧
    (∃ h, handles_ m !! m_handle mp = Some h ∧ m_size mp ≤ h_size h) ∧
    (∃ b r, reserved_ m !! b = Some r ∧ b ≤ va ∧ va + m_size mp ≤ b + r_size r);
  pe_disj : ∀ va1 va2 mp1 mp2, maps_ m !! va1 = Some mp1 → maps_ m !! va2 = Some mp2 →
    va1 < va2 → va1 + m_size mp1 ≤ va2;
  pe_handle : ∀ id h, handles_ m !! id = Some h →
    0 < id < next_handle_ m ∧ h_size h mod kVmmGranularity = 0 ∧
    h_mapped h = maps_of (maps_ m) id + occ id l ∧ 0 ≤ h_refs h ∧ (0 < h_refs h ∨ 0 < h_mapped h) ∧
    wf_alloc (h_mem h) ∧ a_size (h_mem h) = h_size h;
  pe_next : 0 < next_handle_ m;
  pe_told : ∀ id, id ∈ l → is_Some (handles_ m !! id);
}.

Lemma pending_nil m : pending [] m ↔ vmm_inv m.
Proof.
  split; intros [Hm Hd Hh Hn]; split; try done; [..|set_solver];
    intros id h Hl; destruct (Hh _ _ Hl) as (? & ? & Hc & ?); cbn in *;
    (split; [done|]); (split; [done|]); (split; [lia|done]).
Qed.

(** Taking the tiles out of the map leaves their handles pending. *)
Lemma maps_of_tiles (t : gmap Z Mapping) (l : list (Z * Mapping)) id :
  NoDup l.*1 → (∀ va mp, (va, mp) ∈ l → t !! va = Some mp) →
  maps_of t id = maps_of (foldl (λ u p, delete p.1 u) t l) id + occ id ((λ p, m_handle p.2) <$> l).
Proof.
  revert t. induction l as [|[va mp] l IH]; intros t Hnd Hl; cbn; [lia|].
  apply NoDup_cons in Hnd as [Hni Hnd].
  rewrite (maps_of_delete t va mp) by (apply Hl; left). rewrite (IH (delete va t) Hnd); [lia|].
  intros va' mp' Hin. rewrite lookup_delete_ne; [by apply Hl; right|]. intros <-.
  apply Hni, list_elem_of_fmap. by exists (va, mp').
Qed.

Lemma pending_start m t (l : list (Z * Mapping)) :
  vmm_inv m → NoDup l.*1 → (∀ va mp, (va, mp) ∈ l → maps_ m !! va = Some mp) →
  t = foldl (λ u p, delete p.1 u) (maps_ m) l → t ⊆ maps_ m →
  pending ((λ p, m_handle p.2) <$> l) (set_maps_ t m).
Proof.
  intros [Hm Hd Hh Hn] Hnd Hl Ht Hs. split; cbn; try done.
  - intros va mp Hv. eapply Hm, lookup_weaken; done.
  - intros va1 va2 mp1 mp2 H1 H2. eapply Hd; by eapply lookup_weaken.
  - intros id h Hid. destruct (Hh _ _ Hid) as (? & ? & Hc & ?). (split; [done|]); (split; [done|]); (split; [|done]).
    by rewrite Hc, (maps_of_tiles _ l id Hnd Hl), Ht.
  - intros id ([va mp] & -> & Hin)%list_elem_of_fmap.
    destruct (Hm va mp) as (_ & _ & _ & _ & (h & ? & _) & _); [by apply Hl|]. by exists h.
Qed.

(** What becomes of a handle once its mappings are counted again. *)
Definition settle (t : gmap Z Mapping) (id : Z) (h : Handle) : option Handle :=
  if (h_refs h =? 0) && (maps_of t id =? 0) then None else Some (set_mapped h (maps_of t id)).

Lemma settle_same l m id h :
  pending l m → handles_ m !! id = Some h → occ id l = 0 → settle (maps_ m) id h = Some h.
Proof.
  intros Hp Hid Ho. destruct (pe_handle _ _ Hp _ _ Hid) as (_ & _ & Hc & Hr & Ha & _).
  unfold settle. replace (maps_of (maps_ m) id) with (h_mapped h) by lia.
  destruct (Z.eqb_spec (h_refs h) 0), (Z.eqb_spec (h_mapped h) 0); cbn; [lia|by destruct h..].
Qed.

(** One handle told: the pending state of the rest, and the handle settled if
    this was its last tile. *)
Definition tell (id : Z) : M MM unit :=
  m <- get ;;
  (match handles_ m !! id with
   | Some h =>
       if negb (h_mapped h =? 0)
       then put (set_handles_ (<[id:=set_mapped h (h_mapped h - 1)]> (handles_ m)) m)
       else ret tt
   | None => ret tt
   end) ;;;
  collect_handle id.

Definition told (id : Z) (h : Handle) (m : MM) : MM :=
  if (h_refs h =? 0) && (h_mapped h =? 1)
  then set_handles_ (delete id (handles_ m)) (set_used_ (used_ m - h_size h) m)
  else set_handles_ (<[id:=set_mapped h (h_mapped h - 1)]> (handles_ m)) m.

Lemma unmap_handles_cons id l m : unmap_handles (id :: l) m = (tell id ;;; unmap_handles l) m.
Proof.
  cbn [unmap_handles]. unfold tell, bind, get. destruct (handles_ m !! id) as [h|]; [|done].
  by destruct (negb (h_mapped h =? 0)).
Qed.

Lemma tell_told id l m h :
  table_inv m → pending (id :: l) m → handles_ m !! id = Some h →
  tell id m = Ret tt (told id h m).
Proof.
  intros Ht Hp Hid. destruct (pe_handle _ _ Hp _ _ Hid) as (_ & _ & Hc & Hr & _).
  pose proof (maps_of_nonneg (maps_ m) id). pose proof (occ_nonneg id l).
  cbn [occ] in Hc. rewrite Z.eqb_refl in Hc.
  unfold tell, collect_handle, bind, get, put, ret. rewrite Hid.
  destruct (Z.eqb_spec (h_mapped h) 0); [lia|]. cbn. rewrite lookup_insert_eq. cbn.
  pose proof (used_covers_handle m id h Ht Hid). destruct (ti_capacity _ Ht). unfold u64_max in *.
  pose proof (ti_handles _ Ht _ _ Hid). rewrite u64_small by (unfold is_u64; lia).
  unfold told.
  destruct (Z.eqb_spec (h_mapped h - 1) 0), (Z.eqb_spec (h_mapped h) 1); try lia;
    destruct (Z.eqb_spec (h_refs h) 0); cbn; try done.
  rewrite delete_insert_eq. done.
Qed.

Lemma told_table id l m h :
  table_inv m → pending (id :: l) m → handles_ m !! id = Some h → table_inv (told id h m).
Proof.
  intros Ht Hp Hid. unfold told.
  case_if; [by apply table_inv_handle_delete|by eapply table_inv_handle_update].
Qed.

(** The handles of the remaining mappings and of the remaining tiles stay. *)
Lemma told_keeps id l m h id' h' :
  pending (id :: l) m → handles_ m !! id = Some h → handles_ m !! id' = Some h' →
  0 < maps_of (maps_ m) id' + occ id' l →
  ∃ h'', handles_ (told id h m) !! id' = Some h'' ∧ h_size h'' = h_size h'.
Proof.
  intros Hp Hid Hid' Hpos. unfold told.
  destruct (pe_handle _ _ Hp _ _ Hid) as (_ & _ & Hc & _). cbn [occ] in Hc. rewrite Z.eqb_refl in Hc.
  destruct (decide (id = id')) as [<-|].
  - assert (h' = h) as -> by congruence. destruct (Z.eqb_spec (h_mapped h) 1); [lia|]. rewrite andb_false_r. cbn.
    eexists. by rewrite lookup_insert_eq.
  - exists h'. case_if; cbn; [by rewrite lookup_delete_ne|by rewrite lookup_insert_ne].
Qed.

Lemma told_pending id l m h :
  pending (id :: l) m → handles_ m !! id = Some h → pending l (told id h m).
Proof.
  intros Hp Hid. assert (Hk := told_keeps id l m h).
  assert (Hmaps : maps_ (told id h m) = maps_ m) by (unfold told; by case_if).
  assert (Hres : reserved_ (told id h m) = reserved_ m) by (unfold told; by case_if).
  assert (Hnx : next_handle_ (told id h m) = next_handle_ m) by (unfold told; by case_if).
  split; rewrite ?Hmaps, ?Hres, ?Hnx; try apply Hp.
  - intros va mp Hl. destruct (pe_map _ _ Hp _ _ Hl) as (? & ? & ? & ? & (h' & Hh' & ?) & ?).
    split_and!; try done. pose proof (maps_of_pos _ _ _ Hl). pose proof (occ_nonneg (m_handle mp) l).
    destruct (Hk _ _ Hp Hid Hh' ltac:(lia)) as (h'' & ? & E). exists h''. by rewrite E.
  - intros id' h' Hl. unfold told in Hl. destruct (pe_handle _ _ Hp _ _ Hid) as (? & ? & Hc & ? & ? & ? & ?).
    cbn [occ] in Hc. rewrite Z.eqb_refl in Hc.
    pose proof (maps_of_nonneg (maps_ m) id). pose proof (occ_nonneg id l).
    destruct (decide (id = id')) as [<-|].
    + destruct ((h_refs h =? 0) && (h_mapped h =? 1)) eqn:E; cbn in Hl; [by rewrite lookup_delete_eq in Hl|].
      rewrite lookup_insert_eq in Hl. simplify_eq. cbn. apply andb_false_iff in E.
      split_and!; try done; lia.
    + assert (Hl' : handles_ m !! id' = Some h').
      { destruct ((h_refs h =? 0) && (h_mapped h =? 1)) eqn:E; cbn in Hl; [by rewrite lookup_delete_ne in Hl|by rewrite lookup_insert_ne in Hl]. }
      destruct (pe_handle _ _ Hp _ _ Hl') as (? & ? & Hc' & ?). cbn [occ] in Hc'.
      destruct (Z.eqb_spec id id'); [done|]. split_and!; try done; try tauto; lia.
  - intros id' Hin. pose proof (occ_in _ _ Hin). pose proof (maps_of_nonneg (maps_ m) id').
    destruct (pe_told _ _ Hp id') as [h' Hh']; [by right|].
    destruct (Hk _ _ Hp Hid Hh' ltac:(lia)) as (h'' & ? & _). by exists h''.
Qed.

Lemma told_settle id l m h id' :
  pending (id :: l) m → handles_ m !! id = Some h →
  handles_ (told id h m) !! id' ≫= settle (maps_ m) id' = handles_ m !! id' ≫= settle (maps_ m) id'.
Proof.
  intros Hp Hid. destruct (pe_handle _ _ Hp _ _ Hid) as (_ & _ & Hc & _).
  cbn [occ] in Hc. rewrite Z.eqb_refl in Hc.
  pose proof (maps_of_nonneg (maps_ m) id). pose proof (occ_nonneg id l). unfold told.
  destruct (decide (id = id')) as [<-|].
  - rewrite Hid. destruct ((h_refs h =? 0) && (h_mapped h =? 1)) eqn:E; cbn; [rewrite lookup_delete_eq|by rewrite lookup_insert_eq].
    apply andb_true_iff in E as [? ?]. cbn. unfold settle.
    destruct (Z.eqb_spec (h_refs h) 0), (Z.eqb_spec (maps_of (maps_ m) id) 0); cbn; try done; lia.
  - case_if; cbn; [by rewrite lookup_delete_ne|by rewrite lookup_insert_ne].
Qed.

(** The record of a manager whose handles and charge alone changed. *)
Definition with_handles (m : MM) (hs : gmap Z Handle) (u : Z) : MM := set_handles_ hs (set_used_ u m).

Lemma unmap_handles_spec l m :
  table_inv m → pending l m →
  ∃ m', unmap_handles l m = Ret tt m' ∧ mem_ok m' ∧
    m' = with_handles m (handles_ m') (used_ m') ∧
    ∀ id, handles_ m' !! id = handles_ m !! id ≫= settle (maps_ m) id.
Proof.
  revert m. induction l as [|id l IH]; intros m Ht Hp.
  - exists m. cbn. split_and!; [done|split; [done|by apply pending_nil]|by destruct m|].
    intros id. destruct (handles_ m !! id) as [h|] eqn:Hid; [|done]. cbn.
    by rewrite (settle_same [] m id h).
  - destruct (pe_told _ _ Hp id) as [h Hid]; [left|].
    destruct (IH (told id h m)) as (m' & Hr & Hok & Hf & Hs);
      [by eapply told_table|by apply told_pending|].
    exists m'. assert (Hmaps : maps_ (told id h m) = maps_ m) by (unfold told; by case_if).
    split_and!; [|done|..].
    + rewrite unmap_handles_cons. unfold bind. by rewrite (tell_told id l m h).
    + rewrite Hf at 1. unfold told, with_handles. by case_if; destruct m.
    + intros id'. by rewrite Hs, Hmaps, (told_settle id l).
Qed.

Lemma mapping_bounds m : mem_ok m → ∀ va mp, maps_ m !! va = Some mp →
  0 < m_size mp ∧ 0 ≤ va ∧ va + m_size mp ≤ u64_max.
Proof. intros Hok va mp Hl. pose proof (mapping_range m va mp Hok Hl). lia. Qed.

Lemma tiling_end m at_ l stop :
  mem_ok m → tiling (maps_ m) at_ l stop → at_ < stop → stop ≤ u64_max.
Proof.
  intros Hok. induction 1 as [|at_ mp l stop Hl Ht IH]; intros Hlt; [lia|].
  destruct (mapping_bounds m Hok _ _ Hl). pose proof (tiling_le _ (mapping_bounds m Hok) _ _ _ Ht).
  destruct (decide (at_ + m_size mp = stop)); [lia|]. apply IH. lia.
Qed.

(** unmap takes a range of whole mappings out, tells their handles, frees those
    with no reference and no mapping left; anything else changes nothing. *)
Lemma unmap_spec m va sz :
  mem_ok m → is_u64 va → is_u64 sz →
  match unmap va sz m with
  | Ret _ m' => mem_ok m' ∧ 0 < sz ∧ (∃ l, tiling (maps_ m) va l (va + sz)) ∧
      maps_ m' = filter (λ p, ¬ va ≤ p.1 < va + sz) (maps_ m) ∧
      (∀ id, handles_ m' !! id = handles_ m !! id ≫= settle (maps_ m') id) ∧
      m' = with_handles (set_maps_ (maps_ m') m) (handles_ m') (used_ m')
  | Exn e m' => e = Error InvalidValue ∧ m' = m ∧
      (sz = 0 ∨ ∀ l, ¬ tiling (maps_ m) va l (va + sz))
  | Undef => False
  end.
Proof.
  intros Hok Hva Hsz. pose proof (mapping_bounds m Hok) as Hpos. pose proof Hok as [Ht Hv].
  pose proof (vi_disj _ Hv) as Hdisj. unfold unmap, bind, get, throw.
  destruct (Z.eqb_spec sz 0) as [->|]; [cbn; auto|]. unfold is_u64 in *.
  rewrite (u64_wrap_add va sz) by (unfold is_u64; lia).
  destruct (Z.leb_spec (va + sz) u64_max) as [Hle|Hgt].
  2:{ unfold unmap_scan. fold unmap_scan. destruct (Z.leb_spec (va + sz - 18446744073709551616) va); [|lia].
      cbn. split_and!; try done. right. intros l Hl. apply (tiling_end m) in Hl; [lia|done|lia]. }
  pose proof (unmap_scan_spec (maps_ m) Hpos (S (size (maps_ m))) m va (va + sz)) as Hscan.
  pose proof (keys_from_size (maps_ m) va). specialize (Hscan ltac:(lia) ltac:(lia)).
  destruct (unmap_scan _ _ _ _ _) as [l m1|e m1|]; [..|done].
  2:{ destruct Hscan as (-> & -> & ?). auto. }
  destruct Hscan as [-> Hl]. destruct l as [|p l]; [inversion Hl; lia|].
  pose proof (tiling_deleted _ Hpos Hdisj _ _ _ Hl) as Hdel.
  unfold modify. cbv iota beta. rewrite Hdel.
  destruct (unmap_handles_spec ((λ p, m_handle p.2) <$> (p :: l))
    (set_maps_ (filter (λ p, ¬ va ≤ p.1 < va + sz) (maps_ m)) m)) as (m' & -> & Hok' & Hf & Hs).
  { by apply table_inv_maps. }
  { apply pending_start; try done; [by eapply tiling_nodup| |apply map_filter_subseteq].
    intros va' mp' Hin. by destruct (tiling_in _ Hpos _ _ _ _ _ Hl Hin). }
  assert (Hm' : maps_ m' = filter (λ p, ¬ va ≤ p.1 < va + sz) (maps_ m)) by (rewrite Hf; done).
  rewrite Hm'. split_and!; try done; [lia|by eexists].
Qed.

(** ** Access *)

Definition granted (r w : bool) (mp : Mapping) : Mapping :=
  mkMapping (m_size mp) (m_offset mp) (m_handle mp) r w.

(** The table with access set on the mappings that start in a range. *)
Definition grant_range (lo hi : Z) (r w : bool) (t : gmap Z Mapping) : gmap Z Mapping :=
  map_imap (λ a mp, Some (if (lo <=? a) && (a <? hi) then granted r w mp else mp)) t.

Lemma grant_range_lookup lo hi r w t a :
  grant_range lo hi r w t !! a =
    (λ mp, if (lo <=? a) && (a <? hi) then granted r w mp else mp) <$> t !! a.
Proof. unfold grant_range. rewrite map_lookup_imap. by destruct (t !! a). Qed.

Lemma grant_range_empty lo r w t : grant_range lo lo r w t = t.
Proof.
  apply map_eq. intros a. rewrite grant_range_lookup.
  destruct (t !! a); [|done]. cbn. destruct (Z.leb_spec lo a), (Z.ltb_spec a lo); try done; lia.
Qed.

Section Grant.
Context (t : gmap Z Mapping) (at_ : Z) (mp : Mapping).
Hypothesis Hpos : ∀ va mp, t !! va = Some mp → 0 < m_size mp ∧ 0 ≤ va ∧ va + m_size mp ≤ u64_max.
Hypothesis Hdisj : ∀ va1 va2 mp1 mp2, t !! va1 = Some mp1 → t !! va2 = Some mp2 →
  va1 < va2 → va1 + m_size mp1 ≤ va2.
Hypothesis Hl : t !! at_ = Some mp.

Lemma grant_lookup r w va mp' :
  <[at_:=granted r w mp]> t !! va = Some mp' → ∃ mp0, t !! va = Some mp0 ∧ m_size mp0 = m_size mp'.
Proof using Hl.
  intros [[<- <-]|[? ?]]%lookup_insert_Some; [by exists mp|by exists mp'].
Qed.

Lemma grant_step r w hi : at_ + m_size mp ≤ hi →
  grant_range (at_ + m_size mp) hi r w (<[at_:=granted r w mp]> t) = grant_range at_ hi r w t.
Proof.
  intros Hhi. destruct (Hpos _ _ Hl). apply map_eq. intros a. rewrite !grant_range_lookup.
  destruct (decide (at_ = a)) as [<-|].
  - rewrite lookup_insert_eq, Hl. cbn. rewrite Z.leb_refl.
    destruct (Z.leb_spec (at_ + m_size mp) at_), (Z.ltb_spec at_ hi); try lia; done.
  - rewrite lookup_insert_ne by done. destruct (t !! a) as [mp'|] eqn:Ha; [|done]. cbn.
    destruct (Z.leb_spec (at_ + m_size mp) a), (Z.leb_spec at_ a); try done; try lia.
    pose proof (Hdisj _ _ _ _ Hl Ha ltac:(lia)). lia.
Qed.

Lemma tiling_grant r w at' l stop : at_ < at' →
  tiling (<[at_:=granted r w mp]> t) at' l stop → tiling t at' l stop.
Proof.
  intros Hlt Ht. revert Hlt. induction Ht as [|at' mp' l stop Ha Ht IH]; intros Hlt; [constructor|].
  rewrite lookup_insert_ne in Ha by lia. constructor; [done|]. apply IH. destruct (Hpos _ _ Ha). lia.
Qed.

Lemma keys_from_grant r w at' : at_ < at' →
  keys_from (<[at_:=granted r w mp]> t) at' = keys_from t at'.
Proof.
  intros Hlt. unfold keys_from. f_equal. apply map_eq. intros a. rewrite !map_lookup_filter.
  destruct (decide (at_ = a)) as [<-|]; [|by rewrite lookup_insert_ne].
  rewrite lookup_insert_eq, Hl. cbn. repeat case_guard; try done; lia.
Qed.
End Grant.

(** The grants go mapping by mapping, up to the first address where no whole
    mapping of the range starts. *)
Lemma set_access_loop_spec fuel m at_ stop r w :
  (∀ va mp, maps_ m !! va = Some mp → 0 < m_size mp ∧ 0 ≤ va ∧ va + m_size mp ≤ u64_max) →
  (∀ va1 va2 mp1 mp2, maps_ m !! va1 = Some mp1 → maps_ m !! va2 = Some mp2 →
    va1 < va2 → va1 + m_size mp1 ≤ va2) →
  (keys_from (maps_ m) at_ < fuel)%nat → 0 ≤ at_ ≤ stop → stop ≤ u64_max →
  match set_access_loop fuel at_ stop r w m with
  | Ret _ m' => (∃ l, tiling (maps_ m) at_ l stop) ∧
      m' = set_maps_ (grant_range at_ stop r w (maps_ m)) m
  | Exn e m' => e = Error InvalidValue ∧ ∃ l mid, tiling (maps_ m) at_ l mid ∧ mid < stop ∧
      m' = set_maps_ (grant_range at_ mid r w (maps_ m)) m ∧
      ∀ mp, maps_ m !! mid = Some mp → stop < mid + m_size mp
  | Undef => False
  end.
Proof.
  revert m at_. induction fuel as [|fuel IH]; intros m at_ Hpos Hdisj Hf Hat Hst; [lia|].
  cbn [set_access_loop]. destruct (Z.leb_spec stop at_).
  { replace stop with at_ by lia. split; [eexists; constructor|]. rewrite grant_range_empty. by destruct m. }
  unfold bind, get, put. destruct (maps_ m !! at_) as [mp|] eqn:Hl.
  2:{ split; [done|]. exists [], at_. split_and!; [constructor|done| |congruence].
      rewrite grant_range_empty. by destruct m. }
  destruct (Hpos _ _ Hl) as (? & ? & ?). unfold u64_max in *.
  rewrite !u64_small by (unfold is_u64; lia).
  destruct (Z.ltb_spec (stop - at_) (m_size mp)).
  { split; [done|]. exists [], at_. split_and!; [constructor|done| |].
    - rewrite grant_range_empty. by destruct m.
    - intros mp' Hm. replace mp' with mp by congruence. lia. }
  change (mkMapping (m_size mp) (m_offset mp) (m_handle mp) r w) with (granted r w mp).
  set (m1 := set_maps_ _ m). specialize (IH m1 (at_ + m_size mp)).
  assert (Hk : maps_ m1 = <[at_:=granted r w mp]> (maps_ m)) by done. rewrite Hk in IH.
  pose proof (keys_from_decreases _ at_ (at_ + m_size mp) mp Hl ltac:(lia)).
  ospecialize (IH _ _ _ _ _).
  { intros va mp' (mp0 & Hv & Hs)%(grant_lookup _ _ _ Hl). rewrite <- Hs. by apply Hpos. }
  { intros va1 va2 mp1 mp2 (mp1' & Hv1 & Hs1)%(grant_lookup _ _ _ Hl) (mp2' & Hv2 & Hs2)%(grant_lookup _ _ _ Hl).
    rewrite <- Hs1. by eapply Hdisj. }
  { rewrite keys_from_grant by (done || lia). lia. }
  { lia. }
  { lia. }
  destruct (set_access_loop fuel (at_ + m_size mp) stop r w m1) as [[] m'|e m'|]; [..|done].
  - destruct IH as [(l & Ht) ->]. split.
    + exists ((at_, mp) :: l). constructor; [done|]. eapply (tiling_grant _ at_ mp); try done; lia.
    + rewrite grant_step by (done || lia). done.
  - destruct IH as (-> & l & mid & Ht & Hmid & -> & Hno). split; [done|].
    exists ((at_, mp) :: l), mid. 
    assert (Ht' : tiling (maps_ m) (at_ + m_size mp) l mid) by (eapply (tiling_grant _ at_ mp); try done; lia).
    pose proof (tiling_le _ Hpos _ _ _ Ht').
    split_and!; [by constructor|done|rewrite grant_step by (done || lia); done|].
    intros mp' Hm. apply Hno. by rewrite lookup_insert_ne by lia.
Qed.

(** Setting access changes nothing but the grants. *)
Lemma mem_ok_grant m lo hi r w : mem_ok m → mem_ok (set_maps_ (grant_range lo hi r w (maps_ m)) m).
Proof.
  intros [Ht [Hm Hd Hh Hn]]. split; [by apply table_inv_maps|].
  assert (Hl : ∀ va mp', grant_range lo hi r w (maps_ m) !! va = Some mp' → ∃ mp, maps_ m !! va = Some mp ∧
    m_size mp' = m_size mp ∧ m_offset mp' = m_offset mp ∧ m_handle mp' = m_handle mp).
  { intros va mp'. rewrite grant_range_lookup. intros (mp & Hl & ->)%fmap_Some.
    exists mp. rewrite Hl. by case_if. }
  split; cbn; [..|done].
  - intros va mp' (mp & Hv & -> & -> & ->)%Hl. by apply Hm.
  - intros va1 va2 mp1' mp2' (mp1 & H1 & -> & _)%Hl (mp2 & H2 & _)%Hl. by eapply Hd.
  - intros id h Hid. destruct (Hh _ _ Hid) as (? & ? & Hc & ?).
    (split; [done|]); (split; [done|]); (split; [|done]). rewrite Hc.
    unfold maps_of, map_sum, grant_range. clear. induction (maps_ m) as [|k mp t Hk IH] using map_ind;
      [by rewrite map_imap_empty|].
    rewrite map_imap_insert by done. cbn.
    rewrite !map_fold_insert_L; try (intros; lia); try done.
    + rewrite IH. by destruct ((lo <=? k) && (k <? hi)).
    + rewrite map_lookup_imap, Hk. done.
Qed.

(** set_access over a range that does not run off the end of the address space:
    granted on all of it, or refused with the grants of a prefix in place. *)
Lemma set_access_spec m va sz r w :
  mem_ok m → is_u64 va → is_u64 sz → va + sz ≤ u64_max →
  match set_access va sz r w m with
  | Ret _ m' => mem_ok m' ∧ 0 < sz ∧ (∃ l, tiling (maps_ m) va l (va + sz)) ∧
      m' = set_maps_ (grant_range va (va + sz) r w (maps_ m)) m
  | Exn e m' => e = Error InvalidValue ∧ mem_ok m' ∧
      ∃ mid, va ≤ mid ≤ va + sz ∧ m' = set_maps_ (grant_range va mid r w (maps_ m)) m
  | Undef => False
  end.
Proof.
  intros Hok Hva Hsz Hle. pose proof (mapping_bounds m Hok) as Hpos.
  pose proof (vi_disj _ (proj2 Hok)) as Hdisj. unfold is_u64, u64_max in *.
  unfold set_access, bind, get, throw. case_if.
  { split; [done|]. split; [done|]. exists va. split; [lia|]. rewrite grant_range_empty. by destruct m. }
  rewrite (u64_small (va + sz)) by (unfold is_u64; lia).
  pose proof (set_access_loop_spec (S (size (maps_ m))) m va (va + sz) r w Hpos Hdisj) as Hs.
  pose proof (keys_from_size (maps_ m) va). unfold u64_max in Hs.
  specialize (Hs ltac:(lia) ltac:(lia) ltac:(lia)).
  destruct (set_access_loop _ _ _ _ _ _) as [[] m'|e m'|]; [..|done].
  - destruct Hs as [? ->]. split; [by apply mem_ok_grant|]. bool_cases. split; [lia|done].
  - destruct Hs as (-> & l & mid & Ht & ? & -> & _). split; [done|]. split; [by apply mem_ok_grant|].
    exists mid. pose proof (tiling_le _ Hpos _ _ _ Ht). split; [lia|done].
Qed.

(** A range whose end is past 2^64 is granted without a look at it. *)
Lemma set_access_wraps m va sz r w :
  is_u64 va → is_u64 sz → 0 < sz → u64_max < va + sz →
  va mod kVmmGranularity = 0 → sz mod kVmmGranularity = 0 → set_access va sz r w m = Ret tt m.
Proof.
  intros Hva Hsz Hp Hw Hg1 Hg2. unfold set_access, bind, get. rewrite Hg1, Hg2.
  destruct (Z.eqb_spec sz 0); [lia|]. cbn [negb orb Z.eqb].
  rewrite u64_wrap_add by done. unfold is_u64, u64_max in *.
  destruct (Z.leb_spec (va + sz) 18446744073709551615); [lia|]. cbn [set_access_loop].
  destruct (Z.leb_spec (va + sz - 18446744073709551616) va); [done|lia].
Qed.
