(* ===== verification/Resolve.v ===== *)
(** * Classifying an address (src/core/memory.cpp, MemoryManager::resolve)

    What resolve answers for every address of the device's window: the
    allocation or the mapped handle that holds the access, or which error. *)

From S2P Require Import Prelude Chunks HostMaps MemState MemTable Vmm VmmRange.

(** ** Ordered tables of disjoint ranges *)

Section Cover.
Context {A : Type} (t : gmap Z A) (len : A → Z).

Definition covers (addr b : Z) (x : A) : Prop := t !! b = Some x ∧ b ≤ addr < b + len x.
Definition uncovered (addr : Z) : Prop := ∀ b x, ¬ covers addr b x.

Lemma floor_covers addr b x :
  (∀ b1 b2 x1 x2, t !! b1 = Some x1 → t !! b2 = Some x2 → b1 < b2 → b1 + len x1 ≤ b2) →
  covers addr b x → floor_entry t addr = Some (b, x).
Proof.
  intros Hd [Hb Hr]. apply floor_entry_eq. cbn. split; [done|]. split; [lia|].
  intros j [y Hj] Hle. destruct (Z.lt_ge_cases b j); [|done].
  pose proof (Hd _ _ _ _ Hb Hj ltac:(done)). lia.
Qed.

Lemma floor_uncovered addr :
  uncovered addr →
  match floor_entry t addr with
  | Some (b, x) => t !! b = Some x ∧ b ≤ addr ∧ b + len x ≤ addr
  | None => True
  end.
Proof.
  intros Hu. pose proof (floor_entry_spec t addr) as Hf.
  destruct (floor_entry t addr) as [[b x]|]; [|done]. cbn in Hf. destruct Hf as (Hb & Hle & _).
  split; [done|]. split; [done|]. destruct (Z.le_gt_cases (b + len x) addr); [done|].
  exfalso. by apply (Hu b x).
Qed.
End Cover.

(** ** The ranges of the window *)

Lemma live_disj m : table_inv m → ∀ b1 b2 x1 x2, live_ m !! b1 = Some x1 → live_ m !! b2 = Some x2 →
  b1 < b2 → b1 + padded m (a_size x1) ≤ b2.
Proof.
  intros Ht b1 b2 x1 x2 H1 H2.
  apply (ro_disj _ (ti_regions _ Ht) KLive KLive b1 b2 _ (b2 + padded m (a_size x2))); by eexists.
Qed.

Lemma reserved_disj m : table_inv m → ∀ b1 b2 x1 x2, reserved_ m !! b1 = Some x1 →
  reserved_ m !! b2 = Some x2 → b1 < b2 → b1 + r_size x1 ≤ b2.
Proof.
  intros Ht b1 b2 x1 x2 H1 H2.
  apply (ro_disj _ (ti_regions _ Ht) KReserved KReserved b1 b2 _ (b2 + r_size x2)); by eexists.
Qed.

(** Two ranges with an address in common are the same range. *)
Lemma region_unique m addr k1 b1 e1 k2 b2 e2 :
  regions_ok m → region m k1 b1 e1 → region m k2 b2 e2 → b1 ≤ addr < e1 → b2 ≤ addr < e2 →
  k1 = k2 ∧ b1 = b2.
Proof.
  intros Hr H1 H2 ? ?. destruct (Z.lt_trichotomy b1 b2) as [Hlt|[->|Hlt]].
  - pose proof (ro_disj _ Hr _ _ _ _ _ _ H1 H2 Hlt). lia.
  - split; [|done]. by eapply (ro_kind _ Hr).
  - pose proof (ro_disj _ Hr _ _ _ _ _ _ H2 H1 Hlt). lia.
Qed.

Section Elsewhere.
Context (m : MM) (addr : Z).
Hypothesis Hok : mem_ok m.

Lemma not_live k b e : region m k b e → b ≤ addr < e → k ≠ KLive →
  uncovered (live_ m) (λ a, padded m (a_size a)) addr.
Proof.
  intros Hr Hb Hk b' a [Ha Hin]. destruct Hok as [Ht _].
  destruct (region_unique m addr k b e KLive b' (b' + padded m (a_size a)) (ti_regions _ Ht)); try done.
  by exists a.
Qed.

Lemma not_reserved k b e : region m k b e → b ≤ addr < e → k ≠ KReserved →
  uncovered (reserved_ m) r_size addr.
Proof.
  intros Hr Hb Hk b' r [Ha Hin]. destruct Hok as [Ht _].
  destruct (region_unique m addr k b e KReserved b' (b' + r_size r) (ti_regions _ Ht)); try done.
  by exists r.
Qed.

Lemma not_freed k b e : region m k b e → b ≤ addr < e → k ≠ KFreed →
  uncovered (freed_ m) fr_size addr.
Proof.
  intros Hr Hb Hk b' r [Ha Hin]. destruct Hok as [Ht _].
  destruct (region_unique m addr k b e KFreed b' (b' + fr_size r) (ti_regions _ Ht)); try done.
  by exists r.
Qed.

(** Mappings lie in reservations. *)
Lemma not_mapped : uncovered (reserved_ m) r_size addr → uncovered (maps_ m) m_size addr.
Proof.
  intros Hu va mp [Hm Hin]. destruct Hok as [_ Hv].
  destruct (vi_map _ Hv _ _ Hm) as (_ & _ & _ & _ & _ & (b & r & Hb & ? & ?)).
  apply (Hu b r). split; [done|lia].
Qed.

Lemma mapped_not_live va mp : covers (maps_ m) m_size addr va mp →
  uncovered (live_ m) (λ a, padded m (a_size a)) addr.
Proof.
  intros [Hm Hin]. destruct Hok as [Ht Hv].
  destruct (vi_map _ Hv _ _ Hm) as (_ & _ & _ & _ & _ & (b & r & Hb & ? & ?)).
  apply (not_live KReserved b (b + r_size r)); [by exists r|lia|done].
Qed.
End Elsewhere.

(** ** The extent an access may reach *)

(** What resolve lets an access reach: the allocation, or its last page. *)
Definition reach (m : MM) (page_slack : bool) (a : Allocation) : Z :=
  if page_slack && negb (page_ m =? 0) then round_up (a_size a) (page_ m) else a_size a.

Lemma reach_bounds m slack a :
  config_ok m → wf_alloc a → 0 < a_size a →
  a_size a ≤ reach m slack a ∧ reach m slack a ≤ padded m (a_size a) ∧ reach m slack a ≤ extent a.
Proof.
  intros Hc Hwf Hs. pose proof (padded_bounds m (a_size a) Hc). pose proof (size_le_extent a Hwf).
  unfold reach. destruct (slack && negb (page_ m =? 0)) eqn:E; [|lia].
  apply andb_true_iff in E as [_ E]. apply negb_true_iff, Z.eqb_neq in E.
  destruct (base_align_pow2 m Hc) as (i & Hi & Ei). destruct Hc as [_ [?|(j & Hj & Ej)]]; [done|].
  assert (Hp : 0 < page_ m) by (rewrite Ej; apply Z.pow_pos_nonneg; lia).
  split; [by apply round_up_spec|]. split.
  - unfold padded in *. apply round_up_least; [done| |lia].
    transitivity (base_align m); [|apply round_up_divide]. rewrite Ei, Ej. apply pow2_le_divide.
    split; [lia|]. destruct (Z.le_gt_cases j i); [done|]. unfold base_align in Ei.
    pose proof (Z.pow_lt_mono_r 2 i j). lia.
  - apply round_up_least; [done| |lia]. unfold extent. apply Z.divide_mul_r.
    rewrite Ej. change kChunkSize with (2 ^ 16). apply pow2_le_divide. lia.
Qed.

(** resolve's own computation of the reach and of the padding does not wrap. *)
Lemma live_room m b a : table_inv m → live_ m !! b = Some a →
  35184372088832 ≤ b ∧ 0 < a_size a ∧ b + padded m (a_size a) ≤ u64_max.
Proof.
  intros Ht Hb. destruct (ti_live _ Ht _ _ Hb) as (_ & ? & _).
  assert (Hr : region m KLive b (b + padded m (a_size a))) by (by exists a).
  pose proof (ro_in _ (ti_regions _ Ht) _ _ _ Hr). destruct (ti_va _ Ht) as (? & ? & _). lia.
Qed.

Lemma reach_u64 m slack b a : table_inv m → live_ m !! b = Some a →
  (if slack && negb (page_ m =? 0)
   then u64 (a_size a + page_ m - 1) / page_ m * page_ m else a_size a) = reach m slack a.
Proof.
  intros Ht Hb. destruct (live_room m b a Ht Hb) as (? & ? & ?).
  pose proof (padded_bounds m (a_size a) (ti_config _ Ht)).
  destruct (ti_config _ Ht) as [_ Hp]. unfold reach, u64_max in *.
  destruct (slack && negb (page_ m =? 0)) eqn:E; [|done].
  apply andb_true_iff in E as [_ E]. apply negb_true_iff, Z.eqb_neq in E.
  destruct Hp as [?|(j & Hj & Ej)]; [done|].
  assert (0 < page_ m ≤ 65536).
  { rewrite Ej. split; [apply Z.pow_pos_nonneg; lia|]. change 65536 with (2 ^ 16).
    apply Z.pow_le_mono_r; lia. }
  rewrite u64_small by (unfold is_u64; lia). done.
Qed.

Lemma padding_u64 m b a : table_inv m → live_ m !! b = Some a →
  u64 (a_size a + Z.max (alloc_align_ m) (page_ m) - 1) / Z.max (alloc_align_ m) (page_ m)
    * Z.max (alloc_align_ m) (page_ m) = padded m (a_size a).
Proof.
  intros Ht Hb. destruct (live_room m b a Ht Hb) as (? & ? & ?).
  pose proof (base_align_bounds m (ti_config _ Ht)).
  pose proof (padded_bounds m (a_size a) (ti_config _ Ht)). unfold u64_max in *.
  change (Z.max (alloc_align_ m) (page_ m)) with (base_align m).
  rewrite u64_small by (unfold is_u64; lia). done.
Qed.

(** ** The answers *)

(** In a live allocation's range, padding included. *)
Lemma resolve_live m addr len w slack b a :
  mem_ok m → 0 ≤ len → covers (live_ m) (λ a, padded m (a_size a)) addr b a →
  resolve m addr len w slack =
    if addr <? b + reach m slack a then
      if b + reach m slack a <? addr + len then inr OutOfBounds else inl (LiveAt b, b)
    else inr OutOfBounds.
Proof.
  intros [Ht Hv] Hlen Hc. pose proof Hc as [Hb Hin]. cbn in Hin.
  unfold resolve. rewrite (floor_covers _ _ _ _ _ (live_disj m Ht) Hc).
  rewrite (reach_u64 m slack b a Ht Hb), (padding_u64 m b a Ht Hb).
  destruct (live_room m b a Ht Hb) as (? & ? & ?). destruct (ti_live _ Ht _ _ Hb) as (Hwf & _).
  destruct (reach_bounds m slack a (ti_config _ Ht) Hwf) as (? & ? & ?); [done|]. unfold u64_max in *.
  rewrite !(u64_small (b + reach m slack a)) by (unfold is_u64; lia).
  rewrite !(u64_small (b + padded m (a_size a))) by (unfold is_u64; lia).
  destruct (Z.ltb_spec addr (b + reach m slack a)).
  - rewrite u64_small by (unfold is_u64; lia).
    destruct (Z.ltb_spec (b + reach m slack a - addr) len), (Z.ltb_spec (b + reach m slack a) (addr + len));
      done || lia.
  - destruct (Z.ltb_spec addr (b + padded m (a_size a))); [done|lia].
Qed.

(** Outside every live allocation. *)
Lemma resolve_not_live m addr len w slack :
  mem_ok m → is_u64 addr → uncovered (live_ m) (λ a, padded m (a_size a)) addr →
  resolve m addr len w slack = resolve_rest m addr len w.
Proof.
  intros [Ht Hv] Ha Hu. unfold resolve. pose proof (floor_uncovered _ _ _ Hu) as Hf.
  destruct (floor_entry (live_ m) addr) as [[b a]|]; [|done]. destruct Hf as (Hb & Hle & Hout).
  rewrite (reach_u64 m slack b a Ht Hb), (padding_u64 m b a Ht Hb).
  destruct (live_room m b a Ht Hb) as (? & ? & ?). destruct (ti_live _ Ht _ _ Hb) as (Hwf & _).
  destruct (reach_bounds m slack a (ti_config _ Ht) Hwf) as (? & ? & ?); [done|]. unfold u64_max in *.
  rewrite !(u64_small (b + reach m slack a)) by (unfold is_u64; lia).
  rewrite !(u64_small (b + padded m (a_size a))) by (unfold is_u64; lia).
  destruct (Z.ltb_spec addr (b + reach m slack a)); [lia|].
  destruct (Z.ltb_spec addr (b + padded m (a_size a))); [lia|done].
Qed.

(** In a mapped range: the access rights decide. *)
Lemma resolve_mapping m addr len w slack va mp :
  mem_ok m → is_u64 addr → 0 ≤ len → covers (maps_ m) m_size addr va mp →
  resolve m addr len w slack =
    if va + m_size mp <? addr + len then inr OutOfBounds
    else if negb (m_readable mp) && negb (m_writable mp) then inr InvalidPointer
    else if w && negb (m_writable mp) then inr InvalidPointer
    else inl (HandleAt (m_handle mp), va).
Proof.
  intros Hok Ha Hlen Hc. pose proof Hok as [Ht Hv]. pose proof Hc as [Hm Hin].
  rewrite resolve_not_live by (done || by eapply mapped_not_live).
  destruct (mapping_bounds m Hok va mp Hm) as (? & ? & ?). unfold u64_max in *.
  destruct (vi_map _ Hv _ _ Hm) as (_ & Hoff & _ & _ & (h & Hh & _) & _).
  unfold resolve_rest, resolve_mapped. rewrite (floor_covers _ _ _ _ _ (vi_disj _ Hv) Hc).
  rewrite Hoff, Z.sub_0_r, !u64_small by (unfold is_u64; lia).
  destruct (Z.ltb_spec (addr - va) (m_size mp)); [|lia].
  destruct (Z.ltb_spec (va + m_size mp - addr) len), (Z.ltb_spec (va + m_size mp) (addr + len));
    try done; try lia.
  by rewrite Hh; repeat case_if.
Qed.

(** Reserved address space with nothing mapped there. *)
Lemma resolve_reserved m addr len w slack b r :
  mem_ok m → is_u64 addr → covers (reserved_ m) r_size addr b r → uncovered (maps_ m) m_size addr →
  resolve m addr len w slack = inr InvalidPointer.
Proof.
  intros Hok Ha Hc Hu. pose proof Hok as [Ht Hv]. pose proof Hc as [Hb Hin].
  assert (Hr : region m KReserved b (b + r_size r)) by (by exists r).
  rewrite resolve_not_live; [|done|done|by eapply not_live].
  pose proof (ro_in _ (ti_regions _ Ht) _ _ _ Hr). destruct (ti_va _ Ht) as (? & ? & _).
  unfold resolve_rest, resolve_mapped, u64_max, is_u64 in *.
  rewrite (floor_covers _ _ _ _ _ (reserved_disj m Ht) Hc), (u64_small (addr - b)) by (unfold is_u64; lia).
  destruct (Z.ltb_spec (addr - b) (r_size r)); [|lia].
  pose proof (floor_uncovered _ _ _ Hu) as Hf.
  destruct (floor_entry (maps_ m) addr) as [[va mp]|]; [|done]. destruct Hf as (Hm & ? & ?).
  destruct (mapping_bounds m Hok va mp Hm) as (? & ? & ?).
  rewrite u64_small by (unfold is_u64; lia). destruct (Z.ltb_spec (addr - va) (m_size mp)); [lia|done].
Qed.

(** Outside everything that stands for memory. *)
Lemma resolve_unmapped m addr len w slack :
  mem_ok m → is_u64 addr → uncovered (live_ m) (λ a, padded m (a_size a)) addr →
  uncovered (reserved_ m) r_size addr →
  resolve m addr len w slack = inr (resolve_miss m addr).
Proof.
  intros Hok Ha Hl Hr. pose proof Hok as [Ht Hv]. rewrite resolve_not_live by done.
  unfold resolve_rest, resolve_mapped.
  assert (Hres : match floor_entry (reserved_ m) addr with
    | Some (va, r) => if u64 (addr - va) <? r_size r then inr InvalidPointer else inl None
    | None => inl None end = inl None (A := option (loc * Z)) (B := Err)).
  { pose proof (floor_uncovered _ _ _ Hr) as Hf.
    destruct (floor_entry (reserved_ m) addr) as [[b r]|]; [|done]. destruct Hf as (Hb & ? & ?).
    assert (Hrg : region m KReserved b (b + r_size r)) by (by exists r).
    pose proof (ro_in _ (ti_regions _ Ht) _ _ _ Hrg). destruct (ti_va _ Ht) as (? & ? & _).
    unfold is_u64 in *. rewrite u64_small by (unfold is_u64; lia).
    destruct (Z.ltb_spec (addr - b) (r_size r)); [lia|done]. }
  rewrite Hres. pose proof (floor_uncovered _ _ _ (not_mapped m addr Hok Hr)) as Hf.
  destruct (floor_entry (maps_ m) addr) as [[va mp]|]; [|done]. destruct Hf as (Hm & ? & ?).
  destruct (mapping_bounds m Hok va mp Hm) as (? & ? & ?). unfold is_u64 in *.
  rewrite u64_small by (unfold is_u64; lia). destruct (Z.ltb_spec (addr - va) (m_size mp)); [lia|done].
Qed.

(** A miss is a use after free in the whole address range handed out so far,
    however long ago it was freed, and in a host buffer that was unmapped. *)
Lemma resolve_miss_spec m addr :
  mem_ok m → is_u64 addr →
  resolve_miss m addr =
    if (va_base_ m <=? addr) && (addr <? next_va_ m) then UseAfterFree
    else if negb (is_device_va addr) &&
            existsb (λ r, (hm_base r <=? addr) && (addr - hm_base r <? hm_len r)) (retired (host_maps_ m))
    then UseAfterFree else InvalidPointer.
Proof.
  intros [Ht Hv] Ha. destruct (ti_va _ Ht) as (? & ? & Hhw). unfold resolve_miss. rewrite Hhw.
  pose proof (floor_entry_spec (freed_ m) addr) as Hf.
  destruct (floor_entry (freed_ m) addr) as [[b r]|]; [|done]. destruct Hf as (Hb & Hle & _).
  assert (Hr : region m KFreed b (b + fr_size r)) by (by exists r).
  pose proof (ro_in _ (ti_regions _ Ht) _ _ _ Hr). unfold u64_max, is_u64 in *.
  rewrite u64_small by (unfold is_u64; lia). destruct (Z.ltb_spec addr (b + fr_size r)); [|done].
  destruct (Z.leb_spec (va_base_ m) addr), (Z.ltb_spec addr (next_va_ m)); done || lia.
Qed.

Lemma cover_cases {A} (t : gmap Z A) (len : A → Z) addr :
  (∀ b1 b2 x1 x2, t !! b1 = Some x1 → t !! b2 = Some x2 → b1 < b2 → b1 + len x1 ≤ b2) →
  (∃ b x, covers t len addr b x) ∨ uncovered t len addr.
Proof.
  intros Hd. destruct (floor_entry t addr) as [[b x]|] eqn:E.
  - pose proof (floor_entry_spec t addr) as Hf. rewrite E in Hf. destruct Hf as (Hb & Hle & _).
    destruct (Z.lt_ge_cases addr (b + len x)); [left; by exists b, x|]. right. intros b' x' Hc.
    rewrite (floor_covers t len addr b' x' Hd Hc) in E. simplify_eq. destruct Hc. lia.
  - right. intros b' x' Hc. by rewrite (floor_covers t len addr b' x' Hd Hc) in E.
Qed.

(** Where the bytes of a resolved access are: inside the slots of the
    allocation, or inside a mapping with the rights the access needs. *)
Definition resolved_ok (m : MM) (addr len : Z) (w slack : bool) (r : loc * Z) : Prop :=
  match r with
  | (LiveAt b, base) => base = b ∧ ∃ a, live_ m !! b = Some a ∧ b ≤ addr ∧
      addr + len ≤ b + reach m slack a
  | (HandleAt id, base) => ∃ mp h, maps_ m !! base = Some mp ∧ m_handle mp = id ∧
      handles_ m !! id = Some h ∧ base ≤ addr < base + m_size mp ∧ addr + len ≤ base + m_size mp ∧
      m_size mp ≤ h_size h ∧
      (m_readable mp = true ∨ m_writable mp = true) ∧ (w = true → m_writable mp = true)
  end.

Lemma resolve_sound m addr len w slack r :
  mem_ok m → is_u64 addr → 0 ≤ len → resolve m addr len w slack = inl r →
  resolved_ok m addr len w slack r.
Proof.
  intros Hok Ha Hlen Hr. pose proof Hok as [Ht Hv].
  destruct (cover_cases (live_ m) (λ a, padded m (a_size a)) addr (live_disj m Ht)) as [(b & a & Hc)|Hu].
  { rewrite (resolve_live m addr len w slack b a) in Hr by done. destruct Hc as [Hb ?].
    destruct (Z.ltb_spec addr (b + reach m slack a)); [|done].
    destruct (Z.ltb_spec (b + reach m slack a) (addr + len)); [done|]. simplify_eq. cbn.
    split; [done|]. exists a. split_and!; [done|lia|lia]. }
  destruct (cover_cases (maps_ m) m_size addr (vi_disj _ Hv)) as [(va & mp & Hc)|Hum].
  - rewrite (resolve_mapping m addr len w slack va mp) in Hr by done. destruct Hc as [Hm ?].
    destruct (Z.ltb_spec (va + m_size mp) (addr + len)); [done|].
    destruct (vi_map _ Hv _ _ Hm) as (_ & _ & _ & _ & (h & Hh & ?) & _).
    destruct (m_readable mp) eqn:Er, (m_writable mp) eqn:Ew, w; cbn in Hr; simplify_eq; cbn;
      exists mp, h; rewrite ?Er, ?Ew; split_and!; try done; try lia; auto.
  - destruct (cover_cases (reserved_ m) r_size addr (reserved_disj m Ht)) as [(b & r' & Hc)|Hur].
    + by rewrite (resolve_reserved m addr len w slack b r') in Hr by done.
    + by rewrite resolve_unmapped in Hr by done.
Qed.
