(* ===== verification/Lookup.v ===== *)
(** * The memory of recent lookups (src/core/memory.cpp, LookupMemory)

    Every access of a kernel asks its thread's memory of recent lookups before
    the table. An entry is trusted by the lock's epoch alone: no lock is taken.
    This file models the memory, the lookup through it and what each change of
    the table does to the epoch, and shows that the memory never changes an
    answer. [OrdinaryLookup] is what the accesses are given of it. *)

From S2P Require Import Prelude Chunks HostMaps BrLock MemState MemTable Vmm VmmRange Resolve.
Import Epoch.

(** ** What the table says *)

(** The table lookup of find_ordinary_miss: the base of the ordinary allocation
    that holds the whole access, unless a card copy is in play. *)
Definition ordinary (m : MM) (addr len : Z) : option Z :=
  match floor_entry (live_ m) addr with
  | None => None
  | Some (b, a) =>
      let off := u64 (addr - b) in
      if negb ((off <? a_size a) && (len <=? a_size a - off)) then None else
      if negb (card_valid a =? 0) then None else Some b
  end.

(** What an access relies on. The hint is the caller's cell, in and out. *)
Class OrdinaryLookup (L : Type) := {
  find_ordinary : MM → Z → Z → option Z → L → option Z * L;
  hot_entry : MM → Z → Z → L → option Z;
  lookup_inv : MM → L → Prop;
}.

Class OrdinaryLookupOk (L : Type) `{OrdinaryLookup L} := {
  find_ordinary_sound : ∀ m addr len hint l b l',
    mem_ok m → lookup_inv m l → is_u64 addr → is_u64 len →
    find_ordinary m addr len hint l = (Some b, l') → ordinary m addr len = Some b;
  find_ordinary_inv : ∀ m addr len hint l,
    mem_ok m → lookup_inv m l → is_u64 addr → is_u64 len →
    lookup_inv m (snd (find_ordinary m addr len hint l));
  hot_entry_sound : ∀ m addr len l b,
    mem_ok m → lookup_inv m l → is_u64 addr → is_u64 len →
    hot_entry m addr len l = Some b → ordinary m addr len = Some b;
  lookup_inv_records : ∀ m m' l, lookup_inv m l →
    (∀ b a, live_ m !! b = Some a →
       ∃ a', live_ m' !! b = Some a' ∧ a_size a' = a_size a ∧ card_valid a' = card_valid a) →
    lookup_inv m' l;
}.

(** ** The memory *)

Definition kWays : nat := 8.

Record Entry := mkEntry { e_epoch : Z; e_base : Z; e_size : Z }.
Record LookupMemory := mkLookupMemory {
  way : list Entry;
  last : Z;
  prev : Z;
  victim : Z;
}.

(** A thread's view: its memory, the table's lock, and whether the cache is on,
    the thread holds the lock for writing, or it reads the memory that is never
    written ([g_ended_lookups]). *)
Record Lookups := mkLookups {
  mem : LookupMemory;
  lock : Stamps;
  lookup_cache_ : bool;
  written_by_me : bool;
  ended : bool;
  hint_cell : Z;   (* what was last written back to a caller's hint *)
}.

Definition no_entry : Entry := mkEntry 0 0 0.
Definition way_at (mem : LookupMemory) (i : Z) : Entry := default no_entry (way mem !! Z.to_nat i).
Definition set_mem (l : Lookups) (x : LookupMemory) : Lookups :=
  mkLookups x (lock l) (lookup_cache_ l) (written_by_me l) (ended l) (hint_cell l).
Definition set_hint (l : Lookups) (i : Z) : Lookups :=
  mkLookups (mem l) (lock l) (lookup_cache_ l) (written_by_me l) (ended l) i.

(** The access lies in the entry's range. *)
Definition entry_holds (e : Entry) (addr len : Z) : bool :=
  let off := u64 (addr - e_base e) in
  negb ((e_size e <=? off) || (e_size e - off <? len)).

(** [std::uint32_t] xorshift *)
Definition xorshift32 (v : Z) : Z :=
  let v := Z.lxor v (u32 (Z.shiftl v 13)) in
  let v := Z.lxor v (Z.shiftr v 17) in
  Z.lxor v (u32 (Z.shiftl v 5)).

(** A way that answered becomes the last one. *)
Definition answered (x : LookupMemory) (i : Z) (ways : list Entry) : LookupMemory :=
  mkLookupMemory ways i (if i =? last x then prev x else last x) (victim x).

(** One try of the ways' loop. *)
Definition try_way (l : Lookups) (i addr len : Z) : option (Z * LookupMemory) :=
  let x := mem l in
  let e := way_at x i in
  if negb (entry_holds e addr len) then None else
  if e_epoch e =? stamp_ (lock l) then Some (e_base e, answered x i (way x)) else
  if ended l || (e_epoch e =? 0) then None else
  match still_valid (lock l) (λ _, lock l) (lock l) (e_epoch e) (e_base e) with
  | None => None
  | Some now => Some (e_base e, answered x i
      (<[Z.to_nat i := mkEntry now (e_base e) (e_size e)]> (way x)))
  end.

(** The loop of find_ordinary_miss: the way before the last one, then all. *)
Fixpoint try_ways (order : list Z) (l : Lookups) (addr len : Z) : option (Z * LookupMemory) :=
  match order with
  | [] => None
  | i :: rest =>
      match try_way l i addr len with
      | Some r => Some r
      | None => try_ways rest l addr len
      end
  end.

(** MemoryManager::find_ordinary_miss *)
Definition find_ordinary_miss (m : MM) (addr len : Z) (l : Lookups) : option Z * Lookups :=
  match try_ways (prev (mem l) :: seqZ 0 (Z.of_nat kWays)) l addr len with
  | Some (b, x) => (Some b, set_mem l x)
  | None =>
      if written_by_me l then (None, l) else
      match ordinary m addr len, floor_entry (live_ m) addr with
      | Some b, Some (_, a) =>
          if ended l then (Some b, l) else
          let v := xorshift32 (victim (mem l)) in
          let i := v mod Z.of_nat kWays in
          (Some b, set_mem l (mkLookupMemory
            (<[Z.to_nat i := mkEntry (stamp_ (lock l)) b (a_size a)]> (way (mem l))) i (last (mem l)) v))
      | _, _ => (None, l)
      end
  end.

(** MemoryManager::find_ordinary *)
Definition lookup_ordinary (m : MM) (addr len : Z) (hint : option Z) (l : Lookups) : option Z * Lookups :=
  if negb (lookup_cache_ l) then (None, l) else
  let first := match hint with Some h => Z.land h (Z.of_nat kWays - 1) | None => last (mem l) end in
  let e := way_at (mem l) first in
  if (e_epoch e =? stamp_ (lock l)) && entry_holds e addr len then (Some (e_base e), l) else
  let '(r, l') := find_ordinary_miss m addr len l in
  match r, hint with
  | Some b, Some _ => (Some b, set_hint l' (last (mem l')))
  | _, _ => (r, l')
  end.

(** The entry MemoryManager::hot_location tests: the last way only. *)
Definition lookup_hot (m : MM) (addr len : Z) (l : Lookups) : option Z :=
  if negb (lookup_cache_ l) then None else
  if may_contain (host_maps_ m) addr then None else
  let e := way_at (mem l) (last (mem l)) in
  if negb (e_epoch e =? stamp_ (lock l)) || negb (entry_holds e addr len) then None
  else Some (e_base e).

(** ** Invariant *)

Definition entry_good (m : MM) (e : Entry) : Prop :=
  ∃ a, live_ m !! e_base e = Some a ∧ a_size a = e_size e ∧ card_valid a = 0.

Definition trusted (s : Stamps) (e : Entry) : Prop :=
  e_epoch e = stamp_ s ∨ is_Some (still_valid s (λ _, s) s (e_epoch e) (e_base e)).

(** An entry is empty, or of a stamp the lock had before and right if trusted. *)
Definition entry_ok (m : MM) (s : Stamps) (e : Entry) : Prop :=
  e_epoch e = 0 ∨
  (is_stamp (e_epoch e) ∧
   (e_epoch e / 65536 = stamp_ s / 65536 → e_epoch e ≤ stamp_ s) ∧
   (trusted s e → entry_good m e)).

Record lookups_ok (m : MM) (l : Lookups) : Prop := {
  lo_stamp : is_stamp (stamp_ (lock l));
  lo_ways : length (way (mem l)) = kWays;
  lo_last : 0 ≤ last (mem l) < Z.of_nat kWays;
  lo_prev : 0 ≤ prev (mem l) < Z.of_nat kWays;
  lo_victim : 0 ≤ victim (mem l);
  lo_entries : Forall (entry_ok m (lock l)) (way (mem l));
}.

Lemma way_at_ok m l i : lookups_ok m l → entry_ok m (lock l) (way_at (mem l) i).
Proof.
  intros Hl. unfold way_at. destruct (way (mem l) !! Z.to_nat i) eqn:E; cbn; [|by left].
  by eapply (proj1 (Forall_lookup _ _) (lo_entries _ _ Hl)).
Qed.

(** A good entry that holds an access is what the table says. *)
Lemma good_ordinary m e addr len :
  mem_ok m → is_u64 addr → is_u64 len → entry_good m e → entry_holds e addr len = true →
  ordinary m addr len = Some (e_base e).
Proof.
  intros [Ht Hv] Ha Hl (a & Hb & Hs & Hc) Hh. unfold entry_holds in Hh. rewrite <- Hs in Hh.
  destruct (live_room m _ _ Ht Hb) as (? & ? & ?). pose proof (padded_bounds m (a_size a) (ti_config _ Ht)).
  unfold is_u64, u64_max in *. rewrite u64_wrap_sub in Hh by (unfold is_u64; lia).
  apply negb_true_iff, orb_false_iff in Hh as [Hlo Hhi].
  destruct (Z.leb_spec (e_base e) addr); [|lia].
  assert (Hc' : covers (live_ m) (λ a, padded m (a_size a)) addr (e_base e) a) by (split; [done|cbn; lia]).
  unfold ordinary. rewrite (floor_covers _ _ _ _ _ (live_disj m Ht) Hc').
  rewrite (u64_small (addr - e_base e)) by (unfold is_u64; lia).
  destruct (Z.ltb_spec (addr - e_base e) (a_size a)); [|lia].
  destruct (Z.leb_spec len (a_size a - (addr - e_base e))); [|lia]. cbn. by rewrite Hc.
Qed.

Lemma ordinary_live m addr len b : mem_ok m → is_u64 addr → is_u64 len → ordinary m addr len = Some b →
  ∃ a, live_ m !! b = Some a ∧ floor_entry (live_ m) addr = Some (b, a) ∧ card_valid a = 0 ∧
    b ≤ addr < b + a_size a ∧ addr + len ≤ b + a_size a.
Proof.
  intros [Ht Hv] Ha Hl. unfold ordinary. pose proof (floor_entry_spec (live_ m) addr) as Hf.
  destruct (floor_entry (live_ m) addr) as [[b' a]|]; [|done]. destruct Hf as (Hb & Hle & _).
  destruct (live_room m _ _ Ht Hb) as (? & ? & ?). unfold is_u64 in *. rewrite u64_small by (unfold is_u64; lia).
  destruct (Z.ltb_spec (addr - b') (a_size a)); [|done].
  destruct (Z.leb_spec len (a_size a - (addr - b'))); [|done]. cbn.
  destruct (Z.eqb_spec (card_valid a) 0); [|done]. cbn. intros [= <-]. exists a. split_and!; try done; lia.
Qed.

(** What find_ordinary finds is an answer of resolve. *)
Lemma ordinary_resolve m addr len b w : mem_ok m → is_u64 addr → is_u64 len →
  ordinary m addr len = Some b → resolve m addr len w false = inl (LiveAt b, b).
Proof.
  intros Hok Ha Hl (a & Hb & _ & _ & ? & ?)%ordinary_live; try done. destruct Hok as [Ht Hv].
  pose proof (padded_bounds m (a_size a) (ti_config _ Ht)). destruct Hl.
  rewrite (resolve_live m addr len w false b a); [|done|lia|split; [done|cbn; lia]]. cbn.
  destruct (Z.ltb_spec addr (b + a_size a)); [|lia].
  destruct (Z.ltb_spec (b + a_size a) (addr + len)); [lia|done].
Qed.

Lemma entry_ok_now m s now b sz : is_stamp (stamp_ s) → now = stamp_ s →
  entry_good m (mkEntry now b sz) → entry_ok m s (mkEntry now b sz).
Proof. intros Hs -> Hg. right. cbn. split_and!; [done|lia|done]. Qed.

Lemma trusted_nonempty s e : is_stamp (stamp_ s) → e_epoch e = stamp_ s → e_epoch e ≠ 0.
Proof. intros [_ Hs] ->. unfold kCountMask in Hs. lia. Qed.

Lemma still_valid_cur s er e2 seen b now : still_valid s er e2 seen b = Some now → now = stamp_ s.
Proof. unfold still_valid. repeat case_match; congruence. Qed.

(** The updated memory keeps the invariant. *)
Lemma answered_ok m l i ways :
  lookups_ok m l → 0 ≤ i < Z.of_nat kWays → length ways = kWays → Forall (entry_ok m (lock l)) ways →
  lookups_ok m (set_mem l (answered (mem l) i ways)).
Proof.
  intros Hl Hi Hn Hf. pose proof (lo_prev _ _ Hl). pose proof (lo_last _ _ Hl).
  split; cbn; try done; [apply Hl| |apply Hl]. by case_if.
Qed.

Lemma try_way_ok m l i addr len b x :
  mem_ok m → lookups_ok m l → is_u64 addr → is_u64 len → 0 ≤ i < Z.of_nat kWays →
  try_way l i addr len = Some (b, x) →
  ordinary m addr len = Some b ∧ lookups_ok m (set_mem l x).
Proof.
  intros Hok Hl Ha Hlen Hi. unfold try_way.
  destruct (entry_holds (way_at (mem l) i) addr len) eqn:Hh; [|done]. cbn [negb].
  pose proof (way_at_ok m l i Hl) as He. set (e := way_at (mem l) i) in *.
  destruct (Z.eqb_spec (e_epoch e) (stamp_ (lock l))) as [E|].
  { intros [= <- <-]. destruct He as [?|(_ & _ & Hg)]; [by destruct (trusted_nonempty _ _ (lo_stamp _ _ Hl) E)|].
    split; [by apply good_ordinary; try done; apply Hg; left|]. apply answered_ok; try done; apply Hl. }
  destruct (ended l); [done|]. cbn [orb]. destruct (Z.eqb_spec (e_epoch e) 0); [done|].
  destruct (still_valid _ _ _ _ _) as [now|] eqn:Hsv; [|done]. intros [= <- <-].
  destruct He as [?|(_ & _ & Hg)]; [done|]. specialize (Hg (or_intror (mk_is_Some _ _ Hsv))).
  split; [by apply good_ordinary|]. apply answered_ok; try done.
  - rewrite length_insert. apply Hl.
  - apply Forall_insert; [apply Hl|]. apply entry_ok_now; [apply Hl|by eapply still_valid_cur|done].
Qed.

Lemma try_ways_ok m l order addr len b x :
  mem_ok m → lookups_ok m l → is_u64 addr → is_u64 len → Forall (λ i, 0 ≤ i < Z.of_nat kWays) order →
  try_ways order l addr len = Some (b, x) →
  ordinary m addr len = Some b ∧ lookups_ok m (set_mem l x).
Proof.
  intros Hok Hl Ha Hlen. induction 1 as [|i order Hi _ IH]; cbn; [done|].
  destruct (try_way l i addr len) as [[b' x']|] eqn:E; [|done].
  intros [= -> ->]. by eapply try_way_ok.
Qed.

Lemma ways_order l m : lookups_ok m l →
  Forall (λ i, 0 ≤ i < Z.of_nat kWays) (prev (mem l) :: seqZ 0 (Z.of_nat kWays)).
Proof.
  intros Hl. constructor; [apply Hl|]. apply Forall_forall. intros i Hi%elem_of_seqZ. lia.
Qed.

Lemma xorshift32_nonneg v : 0 ≤ v → 0 ≤ xorshift32 v.
Proof.
  intros Hv. assert (Hu : ∀ x, 0 ≤ u32 x) by (intros x; unfold u32; by apply Z.mod_pos_bound).
  unfold xorshift32. rewrite !Z.lxor_nonneg, !Z.shiftr_nonneg, !Z.lxor_nonneg.
  pose proof (Hu (Z.shiftl v 13)). set (w := Z.shiftl _ 5). pose proof (Hu w). tauto.
Qed.

Lemma find_ordinary_miss_ok m addr len l :
  mem_ok m → lookups_ok m l → is_u64 addr → is_u64 len →
  let '(r, l') := find_ordinary_miss m addr len l in
  lookups_ok m l' ∧ (∀ b, r = Some b → ordinary m addr len = Some b) ∧
  (written_by_me l = false → r = ordinary m addr len).
Proof.
  intros Hok Hl Ha Hlen. unfold find_ordinary_miss.
  destruct (try_ways _ l addr len) as [[b x]|] eqn:E.
  { destruct (try_ways_ok m l _ addr len b x Hok Hl Ha Hlen (ways_order l m Hl) E) as [Ho ?].
    rewrite Ho. split_and!; try done. }
  destruct (written_by_me l); [done|].
  destruct (ordinary m addr len) as [b|] eqn:Ho; [|done].
  destruct (ordinary_live m addr len b Hok Ha Hlen Ho) as (a & Hb & Hf & Hc & _). rewrite Hf.
  destruct (ended l); [done|]. split; [|done].
  pose proof (xorshift32_nonneg _ (lo_victim _ _ Hl)). pose proof (lo_last _ _ Hl).
  pose proof (Z.mod_pos_bound (xorshift32 (victim (mem l))) (Z.of_nat kWays)) as Hm.
  split; cbn [lock mem set_mem way last prev victim]; try apply Hl; try done.
  - rewrite length_insert. apply Hl.
  - by apply Hm.
  - apply Forall_insert; [apply Hl|]. apply entry_ok_now; [apply Hl|done|]. by exists a.
Qed.

Lemma lookup_ordinary_ok m addr len hint l :
  mem_ok m → lookups_ok m l → is_u64 addr → is_u64 len →
  let '(r, l') := lookup_ordinary m addr len hint l in
  lookups_ok m l' ∧ (∀ b, r = Some b → ordinary m addr len = Some b) ∧
  (lookup_cache_ l = true → written_by_me l = false → r = ordinary m addr len).
Proof.
  intros Hok Hl Ha Hlen. unfold lookup_ordinary. destruct (lookup_cache_ l) eqn:Hon; [|done]. cbn [negb].
  set (i := match hint with Some h => _ | None => _ end).
  destruct ((e_epoch (way_at (mem l) i) =? stamp_ (lock l)) && entry_holds (way_at (mem l) i) addr len) eqn:E.
  - apply andb_true_iff in E as [E%Z.eqb_eq Hh].
    destruct (way_at_ok m l i Hl) as [?|(_ & _ & Hg)]; [by destruct (trusted_nonempty _ _ (lo_stamp _ _ Hl) E)|].
    rewrite (good_ordinary m _ addr len Hok Ha Hlen (Hg (or_introl E)) Hh). split_and!; try done.
  - pose proof (find_ordinary_miss_ok m addr len l Hok Hl Ha Hlen) as Hm.
    destruct (find_ordinary_miss m addr len l) as [r l']. destruct Hm as (Hl' & Hs & Hc).
    assert (Hr : ∀ r' l'', (r', l'') = match r, hint with
      | Some b, Some _ => (Some b, set_hint l' (last (mem l'))) | _, _ => (r, l') end →
      r' = r ∧ lookups_ok m l'').
    { intros r' l''. destruct r, hint; intros [= -> ->]; auto; split; try done; by destruct Hl'. }
    destruct (match r, hint with Some b, Some _ => _ | _, _ => _ end) as [r' l''] eqn:Er.
    destruct (Hr r' l'' eq_refl) as [-> ?]. auto.
Qed.

Lemma lookup_hot_ok m addr len l b :
  mem_ok m → lookups_ok m l → is_u64 addr → is_u64 len →
  lookup_hot m addr len l = Some b → ordinary m addr len = Some b.
Proof.
  intros Hok Hl Ha Hlen. unfold lookup_hot. do 2 (case_if; [done|]).
  set (e := way_at _ _). destruct (Z.eqb_spec (e_epoch e) (stamp_ (lock l))) as [E|]; [|done].
  destruct (entry_holds e addr len) eqn:Hh; [|done]. cbn. intros [= <-].
  destruct (way_at_ok m l (last (mem l)) Hl) as [?|(_ & _ & Hg)];
    [by destruct (trusted_nonempty _ _ (lo_stamp _ _ Hl) E)|].
  apply good_ordinary; try done. apply Hg. by left.
Qed.

(** ** What a change of the table does to the memory *)

Definition set_lock (l : Lookups) (s : Stamps) : Lookups :=
  mkLookups (mem l) s (lookup_cache_ l) (written_by_me l) (ended l) (hint_cell l).

(** A number drawn is unlike every one an entry was remembered under. *)
Definition fresh_epoch (l : Lookups) (d : Z) : Prop :=
  is_stamp d ∧ Forall (λ e, e_epoch e / 65536 ≠ d / 65536) (way (mem l)).

Lemma other_part_untrusted s e : is_stamp (stamp_ s) → is_stamp (e_epoch e) →
  e_epoch e / 65536 ≠ stamp_ s / 65536 → ¬ trusted s e.
Proof.
  intros [Hs _] [He _] Hne [E|[now Hn]]; [by rewrite E in Hne|]. unfold still_valid in Hn.
  rewrite same_part in Hn by done. by destruct (Z.eqb_spec (e_epoch e / 65536) (stamp_ s / 65536)).
Qed.

(** A full lock voids every entry, whatever it does to the table. *)
Lemma lookups_bump m m' l d : lookups_ok m l → fresh_epoch l d →
  lookups_ok m' (set_lock l (bump d (lock l))).
Proof.
  intros Hl [Hd Hf]. split; cbn; try apply Hl; [done|].
  apply Forall_forall. intros e He. rewrite Forall_forall in Hf. specialize (Hf e He).
  pose proof (proj1 (Forall_forall _ _) (lo_entries _ _ Hl) e He) as [?|(Hs & _ & _)]; [by left|].
  right. split; [done|]. cbn. split; [lia|]. intros Ht. by destruct (other_part_untrusted (bump d (lock l)) e).
Qed.

(** A change that leaves the live records alone leaves the entries alone. *)
Lemma lookups_same_records m m' l :
  lookups_ok m l →
  (∀ b a, live_ m !! b = Some a → ∃ a', live_ m' !! b = Some a' ∧ a_size a' = a_size a ∧ card_valid a' = card_valid a) →
  lookups_ok m' l.
Proof.
  intros Hl Hg. split; try apply Hl. eapply Forall_impl; [apply Hl|].
  intros e [?|(? & ? & Ht)]; [by left|right]. split_and!; try done. intros (a & Hb & Hs & Hc)%Ht.
  destruct (Hg _ _ Hb) as (a' & ? & ? & ?). exists a'. split_and!; congruence.
Qed.

#[global] Instance lookups_lookup : OrdinaryLookup Lookups :=
  {| find_ordinary := lookup_ordinary; hot_entry := lookup_hot; lookup_inv := lookups_ok |}.
#[global] Instance lookups_lookup_ok : OrdinaryLookupOk Lookups.
Proof.
  split; cbn.
  - intros m addr len hint l b l' Hok Hl Ha Hlen E.
    pose proof (lookup_ordinary_ok m addr len hint l Hok Hl Ha Hlen) as H. rewrite E in H. by apply H.
  - intros m addr len hint l Hok Hl Ha Hlen.
    pose proof (lookup_ordinary_ok m addr len hint l Hok Hl Ha Hlen) as H.
    destruct (lookup_ordinary m addr len hint l). apply H.
  - apply lookup_hot_ok.
  - apply lookups_same_records.
Qed.

(** What still_valid says of the ring as it stands. *)
Lemma still_valid_now s seen b : is_u64 seen → is_u64 (stamp_ s) →
  is_Some (still_valid s (λ _, s) s seen b) ↔
    seen / 65536 = stamp_ s / 65536 ∧ seen ≤ stamp_ s ≤ seen + kRing ∧
    ∀ q, seen + 1 ≤ q ≤ stamp_ s → ring_at s (q mod kRing) ≠ b.
Proof.
  intros Hseen Hst. unfold still_valid. rewrite same_part by done.
  destruct (Z.eqb_spec (seen / 65536) (stamp_ s / 65536)); cbn [negb orb]; [|split; [by intros []|by intros []]].
  destruct (Z.ltb_spec (stamp_ s) seen); cbn [orb]; [split; [by intros []|intros (_ & ? & _); lia]|].
  destruct (Z.ltb_spec kRing (stamp_ s - seen)); [split; [by intros []|intros (_ & ? & _); lia]|].
  unfold is_u64 in *. rewrite u64_small by (unfold is_u64; lia).
  destruct (Z.ltb_spec kRing (stamp_ s - seen)); [lia|].
  destruct (ring_scan _ _ _ _ _) eqn:E.
  - split; [|by eexists]. intros _. split_and!; try done; try lia.
    intros q Hq. eapply (ring_scan_spec (λ _, s)); [|exact E|]; lia.
  - split; [by intros []|]. intros (_ & _ & Hno). exfalso. revert E.
    apply not_false_iff_true. clear -Hno. remember (Z.to_nat (stamp_ s - seen)) as fuel eqn:Hf.
    assert (Hq : seen + 1 ≤ seen + 1) by lia. revert Hq. generalize (seen + 1) at 2 3. clear Hf.
    induction fuel as [|fuel IH]; intros q Hq; cbn; [done|]. destruct (Z.leb_spec q (stamp_ s)); [|done].
    destruct (Z.eqb_spec (ring_at s (q mod kRing)) b) as [E|]; [by destruct (Hno q)|]. apply IH. lia.
Qed.

(** After a free, a trusted entry was trusted before and is another's. *)
Lemma trusted_note_free s d ptr e :
  is_stamp (stamp_ s) → is_stamp (e_epoch e) → Z.land (stamp_ s) kCountMask ≠ kCountMask →
  (e_epoch e / 65536 = stamp_ s / 65536 → e_epoch e ≤ stamp_ s) →
  trusted (note_free d ptr s) e → trusted s e ∧ e_base e ≠ ptr.
Proof.
  intros Hs He Hm Hold. unfold note_free. rewrite (proj2 (Z.eqb_neq _ _) Hm).
  rewrite land_mask in Hm. unfold kCountMask in Hm. pose proof (Z.mod_pos_bound (stamp_ s) 65536).
  destruct (stamp_succ _ Hs) as (Hu & Hs' & Hd); [lia|].
  set (s' := note_free_stamp (note_free_ring ptr s)).
  assert (Est : stamp_ s' = stamp_ s + 1) by done.
  intros [E|Hsv].
  { exfalso. rewrite Est in E. rewrite <- Hd, <- E in Hold. specialize (Hold eq_refl). lia. }
  pose proof He as [He' _]. pose proof Hs as [Hs'' _]. destruct Hs' as [Hs3 _].
  apply still_valid_now in Hsv as (Hp & Hr & Hno); [|done|by rewrite Est]. rewrite Est in Hp, Hr, Hno.
  rewrite Hd in Hp. specialize (Hold Hp). unfold ring_at in Hno. cbn in Hno.
  split.
  - right. apply still_valid_now; try done. split_and!; try done; [lia|]. intros q Hq E.
    apply (Hno q ltac:(lia)). rewrite lookup_insert_ne; [done|]. intros Eq.
    apply Z.cong_iff_0, Z.mod_divide in Eq as [k Ek]; unfold kRing in *; lia.
  - specialize (Hno (stamp_ s + 1) ltac:(lia)). rewrite lookup_insert_eq in Hno. by cbn in Hno.
Qed.

(** A free notes its allocation and leaves every other entry alone. *)
Lemma lookups_free m m' l d ptr :
  lookups_ok m l → fresh_epoch l d → (∀ b, b ≠ ptr → live_ m' !! b = live_ m !! b) →
  lookups_ok m' (set_lock l (note_free d ptr (lock l))).
Proof.
  intros Hl Hd Hlive. destruct (decide (Z.land (stamp_ (lock l)) kCountMask = kCountMask)) as [E|Hm].
  { unfold note_free. rewrite (proj2 (Z.eqb_eq _ _) E). by eapply lookups_bump. }
  pose proof (lo_stamp _ _ Hl) as Hs.
  assert (Hst : stamp_ (note_free d ptr (lock l)) = stamp_ (lock l) + 1 ∧
    is_stamp (stamp_ (lock l) + 1) ∧ (stamp_ (lock l) + 1) / 65536 = stamp_ (lock l) / 65536).
  { unfold note_free. rewrite (proj2 (Z.eqb_neq _ _) Hm). rewrite land_mask in Hm. unfold kCountMask in Hm.
    pose proof (Z.mod_pos_bound (stamp_ (lock l)) 65536). by apply stamp_succ; [|lia]. }
  destruct Hst as (Hst & Hs' & Hd'). split; cbn [lock mem set_lock]; try apply Hl; [by rewrite Hst|].
  eapply Forall_impl; [apply Hl|]. intros e [?|(He & Hold & Ht)]; [by left|right].
  rewrite Hst, Hd'. split; [done|]. split; [intros E; specialize (Hold E); lia|].
  intros Htr. destruct (trusted_note_free (lock l) d ptr e) as [Htr' Hne]; try done.
  destruct (Ht Htr') as (a & ? & ? & ?). exists a. by rewrite Hlive.
Qed.

(** ** The table's operations, with the lock they take *)

(** alloc's guard is quiet; free's is quiet and notes the allocation before it
    goes; card_void_lookups notes allocations that stay; every other mutator
    takes the full lock, which draws a number when taken and another when let
    go. A lookup is the thread's own. *)
Inductive change : MM → Lookups → MM → Lookups → Prop :=
  | Ch_alloc m l sz request p m' : alloc sz request m = Ret p m' → change m l m' l
  | Ch_free {B} `{HostBacking B} m l ptr (b b' : B) m' d :
      fresh_epoch l d → free ptr (m, b) = Ret tt (m', b') →
      change m l m' (set_lock l (note_free d ptr (lock l)))
  | Ch_void m l d base : fresh_epoch l d → change m l m (set_lock l (note_free d base (lock l)))
  | Ch_locked m l m' d1 d2 : fresh_epoch l d1 → fresh_epoch l d2 →
      change m l m' (set_lock l (bump d2 (bump d1 (lock l))))
  | Ch_lookup m l addr len hint : is_u64 addr → is_u64 len →
      change m l m (snd (lookup_ordinary m addr len hint l)).

Lemma alloc_keeps sz request m p m' b a : alloc sz request m = Ret p m' → live_ m !! b = Some a →
  live_ m' !! b = Some a.
Proof.
  unfold alloc, bind, get, put, ret, throw, undef. repeat (case_if; [done|]). intros [= <- <-] Hb. cbn.
  unfold emplace. case_match; [done|]. rewrite lookup_insert_ne; [done|congruence].
Qed.

Lemma remember_freed_live ptr sz m u m' : remember_freed ptr sz m = Ret u m' →
  live_ m' = live_ m ∧ shared_ m' = shared_ m.
Proof. unfold remember_freed, bind, get, put, undef. by repeat case_match; intros; simplify_eq. Qed.

Lemma mm_unmap_host_live va m u m' : mm_unmap_host va m = Ret u m' → live_ m' = live_ m.
Proof. unfold mm_unmap_host, bind, get, modify, fresh_generation, ret. by repeat case_match; intros; simplify_eq. Qed.

Lemma drop_shared_live va m u m' : drop_shared va m = Ret u m' → live_ m' = live_ m.
Proof.
  unfold drop_shared, bind, get, modify, undef. destruct (shared_ m !! va); [|done].
  destruct (mm_unmap_host _ m) as [u' m1| |] eqn:E; [|done..]. intros [= <- <-]. cbn.
  by eapply mm_unmap_host_live.
Qed.

Lemma on_mm_Ret_inv {B A} (op : M MM A) (s : MM * B) a s' :
  on_mm op s = Ret a s' → op (fst s) = Ret a (fst s') ∧ snd s' = snd s.
Proof. unfold on_mm. destruct (op (fst s)); intros; by simplify_eq. Qed.

Lemma free_keeps {B} `{HostBacking B} ptr (s s' : MM * B) u b : free ptr s = Ret u s' → b ≠ ptr →
  live_ (fst s') !! b = live_ (fst s) !! b.
Proof.
  intros Hf Hne. unfold free, bind, get, modify, throw in Hf.
  assert (Hlive : ∀ a, (match on_mm (λ m, Ret tt (set_used_ (u64 (used_ (fst s) - a_size a)) m)) s with
     | Ret _ s0 => match on_mm (remember_freed ptr (a_size a)) s0 with
        | Ret _ s1 => Ret tt (let '(a', b') := recycle a (snd s1) in
             (set_live_ (delete ptr (live_ (fst s1))) (set_spare_live_ (Some a') (fst s1)), b'))
        | Exn e s1 => Exn e s1 | Undef => Undef end
     | Exn e s0 => Exn e s0 | Undef => Undef end) = Ret u s' → live_ (fst s') !! b = live_ (fst s) !! b).
  { intros a Ha. cbn in Ha. destruct (on_mm (remember_freed _ _) _) as [u1 s1| |] eqn:E1; [|done..].
    apply on_mm_Ret_inv in E1 as [[El _]%remember_freed_live _]. cbn in El.
    destruct (recycle a (snd s1)). simplify_eq. cbn. rewrite lookup_delete_ne by done. by rewrite El. }
  destruct (shared_ (fst s) !! ptr) as [[? sz ? ? []]|]; cycle 1.
  { destruct (live_ (fst s) !! ptr); [exact (Hlive _ Hf)|discriminate Hf]. }
  { destruct (live_ (fst s) !! ptr); [exact (Hlive _ Hf)|discriminate Hf]. }
  cbn in Hf. destruct (on_mm (remember_freed _ _) _) as [u1 s1| |] eqn:E1; [|done..].
  apply on_mm_Ret_inv in E1 as [[El _]%remember_freed_live _]. cbn in El.
  apply on_mm_Ret_inv in Hf as [Ed%drop_shared_live _]. by rewrite Ed, El.
Qed.

Lemma change_ok m l m' l' : mem_ok m → lookups_ok m l → change m l m' l' → lookups_ok m' l'.
Proof.
  intros Hok Hl Hch. destruct Hch as [m l sz request p m' Ha|B HB m l ptr b b' m' d Hd Hf|m l d base Hd
    |m l m' d1 d2 H1 H2|m l addr len hint Ha Hlen].
  - apply (lookups_same_records m m' l Hl). intros b a Hb. exists a. split; [by eapply alloc_keeps|done].
  - eapply lookups_free; [done|done|]. intros b0 Hne. by apply (free_keeps _ _ _ _ _ Hf).
  - by eapply lookups_free.
  - pose proof (lookups_bump m m' l d1 Hl H1) as Hb1. by apply (lookups_bump m' m' _ d2 Hb1).
  - pose proof (lookup_ordinary_ok m addr len hint l Hok Hl Ha Hlen) as H.
    destruct (lookup_ordinary m addr len hint l). apply H.
Qed.

(** A run of the table and one thread's memory, the table's invariant kept
    throughout. *)
Inductive run : MM → Lookups → MM → Lookups → Prop :=
  | run_nil m l : run m l m l
  | run_step m l m1 l1 m2 l2 : change m l m1 l1 → mem_ok m1 → run m1 l1 m2 l2 → run m l m2 l2.

(** A thread's first memory: empty ways. *)
Definition new_lookups (stamp : Z) : Lookups :=
  mkLookups (mkLookupMemory (replicate kWays no_entry) 0 0 1) (mkStamps stamp ∅) true false false 0.

Lemma new_lookups_ok m stamp : is_stamp stamp → lookups_ok m (new_lookups stamp).
Proof.
  intros Hs. split; try done. cbn [new_lookups mem way]. apply Forall_replicate. by left.
Qed.

Lemma run_ok m l m' l' : mem_ok m → lookups_ok m l → run m l m' l' → mem_ok m' ∧ lookups_ok m' l'.
Proof. intros Hok Hl Hr. induction Hr; [done|]. eauto using change_ok. Qed.

(** ** Properties *)

(** C17: the memory of recent lookups never changes an answer. Whatever the
    table goes through (allocations, frees, mutations under the full lock,
    lookups at other addresses), the lookup gives what the table gives at that
    moment: the same allocation, or none exactly when the table has none. *)
Theorem lookup_transparent m0 stamp m l addr len hint :
  mem_ok m0 → is_stamp stamp → run m0 (new_lookups stamp) m l → is_u64 addr → is_u64 len →
  let '(r, l') := lookup_ordinary m addr len hint l in
  (∀ b, r = Some b → ordinary m addr len = Some b) ∧
  (lookup_cache_ l = true → written_by_me l = false → r = ordinary m addr len).
Proof.
  intros Hok Hs Hr Ha Hlen. destruct (run_ok _ _ _ _ Hok (new_lookups_ok m0 stamp Hs) Hr) as [Hok' Hl'].
  pose proof (lookup_ordinary_ok m addr len hint l Hok' Hl' Ha Hlen) as H.
  destruct (lookup_ordinary m addr len hint l). apply H.
Qed.
