(* ===== verification/Access.v ===== *)
(** * Reading and writing device memory (src/core/memory.cpp)

    The bulk copies (read, write, fill) and the kernel's scalar accesses
    (load_scalar, store_scalar), from the address to the bytes: host mappings
    first, then the memory of recent lookups, then the table. The specification is
    in terms of cells: a location (an allocation or a handle's memory) and an
    offset, so that a handle mapped twice is one memory. *)

From S2P Require Import Prelude Chunks HostMaps BrLock MemState MemTable Vmm VmmRange Resolve Lookup.

(** A manager, the host backing and the calling thread's lookups. *)
Record Sys (B L : Type) := mkSys { mm : MM; bk : B; lk : L }.
Arguments mkSys {B L} _ _ _.
Arguments mm {B L} _.
Arguments bk {B L} _.
Arguments lk {B L} _.

(** ** Locations *)

Definition deref (m : MM) (l : loc) : option Allocation :=
  match l with
  | LiveAt b => live_ m !! b
  | HandleAt id => h_mem <$> handles_ m !! id
  end.

Definition set_handle_mem (a : Allocation) (h : Handle) : Handle :=
  mkHandle (h_size h) (h_refs h) (h_mapped h) (h_types h) (h_compressible h) (h_fd h) a.

Definition put_alloc (m : MM) (l : loc) (a : Allocation) : MM :=
  match l with
  | LiveAt b => set_live_ (<[b:=a]> (live_ m)) m
  | HandleAt id => set_handles_ (alter (set_handle_mem a) id (handles_ m)) m
  end.

(** The byte at an offset of a location. *)
Definition cell (m : MM) (l : loc) (o : Z) : Z :=
  match deref m l with Some a => content a o | None => 0 end.

Section access.
Context {B : Type} `{HostBacking B} {L : Type} `{OrdinaryLookup L}.
Local Abbreviation st := (Sys B L).

Definition set_mm (s : st) (m : MM) : st := mkSys m (bk s) (lk s).
Definition get_mm : M st MM := λ s, Ret (mm s) s.

(** A step on the chunks of a located allocation. *)
Definition on_alloc {A} (l : loc) (op : M (Allocation * B) A) : M st A := λ s,
  match deref (mm s) l with
  | None => Undef
  | Some a =>
      match op (a, bk s) with
      | Ret x ab => Ret x (mkSys (put_alloc (mm s) l (fst ab)) (snd ab) (lk s))
      | Exn e ab => Exn e (mkSys (put_alloc (mm s) l (fst ab)) (snd ab) (lk s))
      | Undef => Undef
      end
  end.

Definition ordinary_lookup (addr len : Z) (hint : option Z) : M st (option Z) := λ s,
  let '(r, l') := find_ordinary (mm s) addr len hint (lk s) in
  Ret r (mkSys (mm s) (bk s) l').

(** MemoryManager::resolve, as a throwing call *)
Definition resolve_or_throw (addr len : Z) (writing page_slack : bool) : M st (loc * Z) :=
  m <- get_mm ;;
  match resolve m addr len writing page_slack with
  | inl r => ret r
  | inr e => throw e
  end.

(** MemoryManager::resolve_scalar *)
Definition resolve_scalar (addr len : Z) (writing page_slack : bool) : M st (loc * Z) :=
  f <- ordinary_lookup addr len None ;;
  match f with
  | Some b => ret (LiveAt b, b)
  | None => resolve_or_throw addr len writing page_slack
  end.

(** MemoryManager::resolve_bulk *)
Definition resolve_bulk (addr len : Z) (writing : bool) : M st (loc * Z) :=
  resolve_scalar addr len writing false.

(** The host buffer an access lies in, if the mapped range may hold it. *)
Definition host_hit (m : MM) (addr len : Z) : option HostHit :=
  if may_contain (host_maps_ m) addr
  then hit_of <$> find_host_map_locked (host_maps_ m) addr len else None.

Definition host_bytes (m : MM) (p n : Z) : list Z := (λ i, host_mem m (p + i)) <$> seqZ 0 n.
Definition host_store (p : Z) (src : Z → Z) (n : Z) : M st unit :=
  modify (λ s, set_mm s (set_host_mem (blit (host_mem (mm s)) p src n) (mm s))).

(** MemoryManager::read; [dst_null] is a null host buffer. *)
Definition read (src : Z) (dst_null : bool) (len : Z) : M st (list Z) :=
  if len =? 0 then ret [] else
  m <- get_mm ;;
  match host_hit m src len with
  | Some h => ret (host_bytes m (hh_host h + (src - hh_base h)) len)
  | None =>
      match (if dst_null then inl None else host_pieces (host_maps_ m) src len false) with
      | inr e => λ s, Exn e s
      | inl (Some pieces) => ret (flat_map (λ p, host_bytes m (hp_host p) (hp_len p)) pieces)
      | inl None =>
          if dst_null then throw InvalidPointer else
          r <- resolve_bulk src len false ;;
          d <- on_alloc (fst r) (read_chunks (src - snd r) len) ;;
          let d := match access_fault_ m with
                   | Some f => if stuck_pending f then on_read f (src - va_base_ m) d else d
                   | None => d
                   end in
          match access_fault_ m with
          | Some f =>
              if copy_pending f then
                match on_copy f src d with inl d' => ret d' | inr e => λ s, Exn e s end
              else ret d
          | None => ret d
          end
      end
  end.

(** MemoryManager::write; [src] is [None] for a null host buffer. *)
Definition write (dst : Z) (src : option (Z → Z)) (len : Z) : M st unit :=
  if len =? 0 then ret tt else
  m <- get_mm ;;
  match host_hit m dst len, src with
  | Some h, Some src =>
      if hh_read_only h then throw Trap
      else host_store (hh_host h + (dst - hh_base h)) src len
  | Some h, None => if hh_read_only h then throw Trap else undef   (* memcpy from null *)
  | None, None => throw InvalidPointer
  | None, Some src =>
      match host_pieces (host_maps_ m) dst len true with
      | inr e => λ s, Exn e s
      | inl (Some pieces) =>
          foldr (λ p k, host_store (hp_host p) (λ i, src (hp_offset p + i)) (hp_len p) ;;; k)
            (ret tt) pieces
      | inl None =>
          r <- resolve_bulk dst len true ;;
          on_alloc (fst r) (write_chunks (dst - snd r) src len)
      end
  end.

(** MemoryManager::fill *)
Definition fill (dst : Z) (pattern : list Z) (len : Z) : M st unit :=
  if len =? 0 then ret tt else
  m <- get_mm ;;
  match host_pieces (host_maps_ m) dst len true with
  | inr e => λ s, Exn e s
  | inl (Some pieces) =>
      foldr (λ p k, host_store (hp_host p)
          (λ i, pattern !!! Z.to_nat ((hp_offset p + i) mod Z.of_nat (length pattern))) (hp_len p) ;;; k)
        (ret tt) pieces
  | inl None =>
      r <- resolve_or_throw dst len true false ;;
      on_alloc (fst r) (fill_chunks (dst - snd r) pattern len)
  end.

(** ** Scalars *)

(** MemoryManager::hot_location: the real chunk of the last allocation found. *)
Definition hot_location (addr size : Z) : M st (option (loc * Z)) := λ s,
  match hot_entry (mm s) addr size (lk s) with
  | None => Ret None s
  | Some b =>
      match deref (mm s) (LiveAt b) with
      | None => Undef
      | Some a =>
          match chunk_at ((addr - b) / kChunkSize) (a, bk s) with
          | Ret (Some (Real _ _)) _ => Ret (Some (LiveAt b, addr - b)) s
          | Ret _ _ => Ret None s
          | _ => Undef
          end
      end
  end.

(** MemoryManager::ScalarAt, with where it is *)
Inductive ScalarAt :=
  | AtChunk (l : loc) (off : Z)
  | AtUniform (u : Z)
  | Untouched
  | Unchanged
  | AtHostMap (p : Z).

(** MemoryManager::scalar_location; [store] is the value of a store. *)
Definition scalar_location (addr size : Z) (store : option Z) : M st ScalarAt :=
  m <- get_mm ;;
  match host_hit m addr size with
  | Some h =>
      if match store with Some _ => hh_read_only h | None => false end then throw Trap
      else ret (AtHostMap (hh_host h + (addr - hh_base h)))
  | None =>
      r <- resolve_scalar addr size false (match store with Some _ => false | None => true end) ;;
      let off := addr - snd r in
      let idx := off / kChunkSize in
      c <- on_alloc (fst r) (chunk_at idx) ;;
      match c, store with
      | Some (Real _ _), _ => ret (AtChunk (fst r) off)
      | Some (Uniform u), None => ret (AtUniform u)
      | None, None => ret Untouched
      | Some (Uniform u), Some v =>
          if v =? repeated u size then ret Unchanged
          else on_alloc (fst r) (materialize idx) ;;; ret (AtChunk (fst r) off)
      | None, Some _ => on_alloc (fst r) (materialize idx) ;;; ret (AtChunk (fst r) off)
      end
  end.

(** The load and the store of a scalar in a real chunk, and in host memory. *)
Definition load_real (l : loc) (off size : Z) : M st Z :=
  c <- on_alloc l (chunk_at (off / kChunkSize)) ;;
  match c with
  | Some (Real p f) =>
      if off mod kChunkSize + size <=? kChunkSize
      then ret (load_at p f (off mod kChunkSize) size) else undef
  | _ => undef
  end.
Definition store_real (l : loc) (off size v : Z) : M st unit :=
  on_alloc l (chunk_update (off / kChunkSize) (off mod kChunkSize) size
    (λ p f, store_at p f (off mod kChunkSize) size v)).
Definition host_load (p size : Z) : M st Z :=
  m <- get_mm ;; ret (load_at p (λ i, host_mem m (p + i)) 0 size).
Definition host_store_word (p size v : Z) : M st unit :=
  modify (λ s, set_mm s (set_host_mem
    (λ a, store_at p (λ i, host_mem (mm s) (p + i)) 0 size v (a - p)) (mm s))).

(** What the fault hooks make of a loaded value. *)
Definition bytes_of (v n : Z) : list Z := byte_of v <$> seqZ 0 n.
Definition of_bytes (l : list Z) : Z := le_load (λ i, l !!! Z.to_nat i) 0 (length l).
Definition taken_load (m : MM) (addr size v : Z) : Z + exn :=
  match access_fault_ m with
  | None => inl v
  | Some f =>
      let v := if stuck_pending f then of_bytes (on_read f (addr - va_base_ m) (bytes_of v size)) else v in
      if load_pending f then on_load f addr size v else inl v
  end.

(** MemoryManager::is_host_mapped *)
Definition is_host_mapped (m : MM) (addr : Z) : bool :=
  match host_hit m addr 1 with Some _ => true | None => false end.

(** MemoryManager::load_scalar *)
Definition load_scalar (addr size : Z) : M st Z :=
  if negb (scalar_size size) then throw Internal else
  if negb (Z.land addr (size - 1) =? 0) then throw MisalignedAccess else
  m <- get_mm ;;
  let finish := λ v, match taken_load m addr size v with inl v => ret v | inr e => λ s, Exn e s end in
  hot <- hot_location addr size ;;
  match hot with
  | Some (l, off) => v <- load_real l off size ;; finish v
  | None =>
      at_ <- scalar_location addr size None ;;
      match at_ with
      | AtChunk l off => v <- load_real l off size ;; finish v
      | AtUniform u => finish (repeated u size)
      | Untouched => finish 0
      | Unchanged => d <- read addr false size ;; ret (of_bytes d)
      | AtHostMap p => host_load p size
      end
  end.

(** MemoryManager::store_scalar *)
Definition store_scalar (addr size value : Z) : M st unit :=
  if negb (scalar_size size) then throw Internal else
  if negb (Z.land addr (size - 1) =? 0) then throw MisalignedAccess else
  m <- get_mm ;;
  match (match access_fault_ m with
         | Some f => if store_pending f && negb (is_host_mapped m addr)
                     then on_store f addr size value else inl value
         | None => inl value
         end) with
  | inr e => λ s, Exn e s
  | inl value =>
      hot <- hot_location addr size ;;
      match hot with
      | Some (l, off) => store_real l off size value
      | None =>
          at_ <- scalar_location addr size (Some value) ;;
          match at_ with
          | AtChunk l off => store_real l off size value
          | Unchanged => ret tt
          | AtHostMap p => host_store_word p size value
          | _ => write addr (Some (byte_of value)) size
          end
      end
  end.

(** ** Sixteen bytes *)

(** load16 / store16: one instruction or two words under a lock. *)
Definition load16 (p : Z) (f : Z → Z) (off : Z) : Z * Z := (le_load f off 8, le_load f (off + 8) 8).
Definition store16 (p : Z) (f : Z → Z) (off : Z) (v : Z * Z) : Z → Z :=
  le_store (le_store f off 8 (fst v)) (off + 8) 8 (snd v).

(** One quad of an allocation (the body of load_quad and load_quad_run). *)
Definition quad_load (off : Z) : M (Allocation * B) (Z * Z) :=
  c <- chunk_at (off / kChunkSize) ;;
  match c with
  | None => ret (0, 0)
  | Some (Uniform u) => ret (repeated u 8, repeated u 8)
  | Some (Real p f) =>
      if off mod kChunkSize + 16 <=? kChunkSize then ret (load16 p f (off mod kChunkSize)) else undef
  end.
Definition quad_store (off : Z) (v : Z * Z) : M (Allocation * B) unit :=
  let idx := off / kChunkSize in
  c <- chunk_at idx ;;
  if match c with
     | Some (Uniform u) => (fst v =? snd v) && (fst v =? repeated u 8)
     | _ => false
     end then ret tt else
  materialize_if_not_real c idx ;;;
  chunk_update idx (off mod kChunkSize) 16 (λ p f, store16 p f (off mod kChunkSize) v).

(** MemoryManager::load_quad *)
Definition load_quad (addr : Z) : M st (Z * Z) :=
  m <- get_mm ;;
  let faulted := any_stuck m || load_armed m in
  if negb (addr mod 16 =? 0) || faulted || may_contain (host_maps_ m) addr then
    lo <- load_scalar addr 8 ;; hi <- load_scalar (u64 (addr + 8)) 8 ;; ret (lo, hi)
  else
    r <- resolve_scalar addr 16 false true ;;
    on_alloc (fst r) (quad_load (addr - snd r)).

(** MemoryManager::store_quad *)
Definition store_quad (addr : Z) (v : Z * Z) : M st unit :=
  m <- get_mm ;;
  if negb (addr mod 16 =? 0) || store_armed m || may_contain (host_maps_ m) addr then
    store_scalar addr 8 (fst v) ;;; store_scalar (u64 (addr + 8)) 8 (snd v)
  else
    r <- resolve_scalar addr 16 false false ;;
    on_alloc (fst r) (quad_store (addr - snd r) v).
End access.

(** ** Locations and their cells *)

#[global] Instance loc_eq_dec : EqDecision loc.
Proof. solve_decision. Defined.

Lemma put_alloc_same m l a : deref m l = Some a → put_alloc m l a = m.
Proof.
  destruct l as [b|id]; cbn.
  - intros Hb. rewrite insert_id by done. by destruct m.
  - intros (h & Hh & ->)%fmap_Some.
    assert (alter (set_handle_mem (h_mem h)) id (handles_ m) = handles_ m) as ->; [|by destruct m].
    apply map_eq. intros i. destruct (decide (id = i)) as [<-|]; [|by rewrite lookup_alter_ne].
    rewrite lookup_alter_eq, Hh. cbn. by destruct h.
Qed.

Lemma deref_put m l a a' l' : deref m l = Some a →
  deref (put_alloc m l a') l' = if decide (l = l') then Some a' else deref m l'.
Proof.
  destruct l as [b|id], l' as [b'|id']; cbn; intros Hl; repeat case_decide; simplify_eq; try done.
  - by rewrite lookup_insert_eq.
  - rewrite lookup_insert_ne; congruence.
  - rewrite lookup_alter_eq. apply fmap_Some in Hl as (h & -> & ->). done.
  - rewrite lookup_alter_ne; congruence.
Qed.

Lemma cell_put m l a a' l' o : deref m l = Some a →
  cell (put_alloc m l a') l' o = if decide (l = l') then content a' o else cell m l' o.
Proof. intros Hl. unfold cell. rewrite (deref_put m l a a') by done. by case_decide. Qed.

(** Other bytes in the same allocation keep the table's invariant. *)
Lemma put_live_ok m b a a' :
  mem_ok m → live_ m !! b = Some a → wf_alloc a' → a_size a' = a_size a →
  mem_ok (set_live_ (<[b:=a']> (live_ m)) m).
Proof.
  intros [Ht Hv] Hl Hwf Hs. split; [|by destruct Hv].
  pose proof Ht as [? ? Hreg Hlive ? [] Hused ? ? ?].
  assert (Hsub : ∀ k c e, region (set_live_ (<[b:=a']> (live_ m)) m) k c e → region m k c e).
  { intros k c e. destruct k; try done. intros (x & Hx & ->). cbn in Hx.
    apply lookup_insert_Some in Hx as [[<- <-]|[_ Hx]]; [exists a; by rewrite Hs|by exists x]. }
  split; try done; try by split.
  - apply (regions_sub m); try done. intros k c e Hk%Hsub. destruct (ro_in _ Hreg _ _ _ Hk).
    split; [lia|]. split; [by exists k, e|]. intros k2 e2 H2%Hsub. by eapply (ro_kind _ Hreg).
  - cbn. intros c x [[<- <-]|[_ Hx]]%lookup_insert_Some; [|by apply Hlive].
    destruct (Hlive _ _ Hl) as (_ & ? & ?). rewrite Hs. done.
  - unfold charged in *. cbn. by rewrite (map_sum_update a_size b a a').
Qed.

Lemma put_handle_ok m id h a' :
  mem_ok m → handles_ m !! id = Some h → wf_alloc a' → a_size a' = a_size (h_mem h) →
  mem_ok (set_handles_ (<[id:=set_handle_mem a' h]> (handles_ m)) m).
Proof.
  intros [Ht Hv] Hh Hwf Hs. split; [by eapply table_inv_handle_update|].
  destruct Hv as [Hm Hd Hhs Hn]. split; cbn; try done.
  - intros va mp Hl. destruct (Hm _ _ Hl) as (? & ? & ? & ? & (h' & Hh' & ?) & ?). split_and!; try done.
    destruct (decide (id = m_handle mp)) as [->|].
    + exists (set_handle_mem a' h). rewrite lookup_insert_eq. split; [done|]. cbn. by replace h with h' by congruence.
    + exists h'. by rewrite lookup_insert_ne.
  - intros id' h' [[<- <-]|[_ Hl]]%lookup_insert_Some; [|by apply Hhs].
    destruct (Hhs _ _ Hh) as (? & ? & ? & ? & ? & _ & E). cbn. rewrite Hs, E. split_and!; try done; tauto || lia.
Qed.

Lemma put_alloc_ok m l a a' :
  mem_ok m → deref m l = Some a → wf_alloc a' → same_shape a a' → mem_ok (put_alloc m l a').
Proof.
  intros Hok Hl Hwf (Hs & _). destruct l as [b|id]; cbn in *; [by eapply put_live_ok|].
  apply fmap_Some in Hl as (h & Hh & ->).
  replace (alter (set_handle_mem a') id (handles_ m)) with (<[id:=set_handle_mem a' h]> (handles_ m)).
  - by apply put_handle_ok.
  - apply map_eq. intros i. destruct (decide (id = i)) as [<-|].
    + by rewrite lookup_insert_eq, lookup_alter_eq, Hh.
    + by rewrite lookup_insert_ne, lookup_alter_ne.
Qed.

Lemma put_alloc_records m l a a' : deref m l = Some a → same_shape a a' →
  ∀ b x, live_ m !! b = Some x →
    ∃ x', live_ (put_alloc m l a') !! b = Some x' ∧ a_size x' = a_size x ∧ card_valid x' = card_valid x.
Proof.
  intros Hl (Hs & _ & _ & _ & _ & Hc) b x Hb. destruct l as [b'|id]; cbn in *; [|by exists x].
  destruct (decide (b' = b)) as [->|].
  - exists a'. rewrite lookup_insert_eq. replace x with a by congruence. done.
  - exists x. by rewrite lookup_insert_ne.
Qed.

(** The allocation a resolved access lies in, and room for the access there. *)
Lemma resolved_alloc m addr len w slack l base :
  mem_ok m → 0 ≤ len → resolved_ok m addr len w slack (l, base) →
  ∃ a, deref m l = Some a ∧ wf_alloc a ∧ 0 ≤ addr - base ∧ addr - base + len ≤ extent a ∧
       base mod 256 = 0 ∧ 0 ≤ base.
Proof.
  intros [Ht Hv] Hlen Hr. destruct l as [b|id]; cbn in Hr.
  - destruct Hr as (-> & a & Hb & ? & ?). exists a. destruct (ti_live _ Ht _ _ Hb) as (Hwf & ? & ?).
    destruct (reach_bounds m slack a (ti_config _ Ht) Hwf) as (? & ? & ?); [done|].
    destruct (live_room m b a Ht Hb). split_and!; try done; lia.
  - destruct Hr as (mp & h & Hm & <- & Hh & ? & ? & ? & _).
    destruct (vi_handle _ Hv _ _ Hh) as (_ & _ & _ & _ & _ & Hwf & Hs).
    pose proof (size_le_extent _ Hwf). exists (h_mem h). cbn. rewrite Hh.
    destruct (vi_map _ Hv _ _ Hm) as (_ & _ & Hg & _). pose proof (mapping_bounds m (conj Ht Hv) _ _ Hm).
    split_and!; try done; try lia. unfold kVmmGranularity in Hg.
    apply Z.mod_divide in Hg; [|done]. apply Z.mod_divide; [done|].
    transitivity 2097152; [by exists 8192|done].
Qed.

(** ** The accesses *)

Section specs.
Context {B : Type} `{HostBacking B} {L : Type} `{OrdinaryLookupOk L}.
Local Abbreviation st := (Sys B L).

Definition sys_ok (s : st) : Prop := mem_ok (mm s) ∧ lookup_inv (mm s) (lk s).

Lemma ordinary_resolve_slack m addr len b w slack : mem_ok m → is_u64 addr → is_u64 len →
  ordinary m addr len = Some b → resolve m addr len w slack = inl (LiveAt b, b).
Proof.
  intros Hok Ha Hl (a & Hb & _ & _ & ? & ?)%ordinary_live; try done. destruct Hok as [Ht Hv].
  destruct (ti_live _ Ht _ _ Hb) as (Hwf & Hpos & _).
  destruct (reach_bounds m slack a (ti_config _ Ht) Hwf Hpos) as (? & ? & ?).
  pose proof (padded_bounds m (a_size a) (ti_config _ Ht)). destruct Hl.
  rewrite (resolve_live m addr len w slack b a); [|done|lia|split; [done|cbn; lia]].
  destruct (Z.ltb_spec addr (b + reach m slack a)); [|lia].
  destruct (Z.ltb_spec (b + reach m slack a) (addr + len)); [lia|done].
Qed.

(** The lookup through the thread's memory is resolve. *)
Lemma resolve_scalar_spec addr len w slack (s : st) :
  sys_ok s → is_u64 addr → is_u64 len →
  ∃ l', lookup_inv (mm s) l' ∧
    resolve_scalar addr len w slack s =
      match resolve (mm s) addr len w slack with
      | inl r => Ret r (mkSys (mm s) (bk s) l')
      | inr e => Exn (Error e) (mkSys (mm s) (bk s) l')
      end.
Proof.
  intros [Hok Hl] Ha Hlen. unfold resolve_scalar, ordinary_lookup, bind.
  pose proof (find_ordinary_inv (mm s) addr len None (lk s) Hok Hl Ha Hlen) as Hinv.
  destruct (find_ordinary (mm s) addr len None (lk s)) as [[b|] l'] eqn:E; cbn in Hinv;
    exists l'; (split; [done|]).
  - pose proof (find_ordinary_sound _ _ _ _ _ _ _ Hok Hl Ha Hlen E) as Ho.
    by rewrite (ordinary_resolve_slack _ _ _ _ w slack Hok Ha Hlen Ho).
  - unfold resolve_or_throw, get_mm, bind, throw, ret. cbn. by destruct (resolve _ _ _ _ _).
Qed.

(** A step on an allocation's chunks is a step on its cells. *)
Definition cells_now (m : MM) (l : loc) (f : Z → Z) (s : st) : Prop :=
  sys_ok s ∧ (∀ o, cell (mm s) l o = f o) ∧ (∀ l' o, l' ≠ l → cell (mm s) l' o = cell m l' o) ∧
  maps_ (mm s) = maps_ m ∧ reserved_ (mm s) = reserved_ m ∧ host_mem (mm s) = host_mem m ∧
  ∀ addr len w slack, resolve (mm s) addr len w slack = resolve m addr len w slack.

Lemma floor_insert_same {A} (t : gmap Z A) k x y addr : t !! k = Some x →
  floor_entry (<[k:=y]> t) addr =
    match floor_entry t addr with
    | Some (b, z) => Some (b, if decide (b = k) then y else z)
    | None => None
    end.
Proof.
  intros Hk. apply floor_entry_eq. pose proof (floor_entry_spec t addr) as Hf.
  destruct (floor_entry t addr) as [[b z]|]; cbn in *.
  - destruct Hf as (Hb & Hle & Hmax). split; [|split; [done|]].
    + case_decide as E; [subst; apply lookup_insert_eq|by rewrite lookup_insert_ne].
    + intros j [v Hj] Hjle. apply Hmax; [|done].
      apply lookup_insert_Some in Hj as [[<- _]|[_ Hj]]; eauto.
  - intros j [v Hj]. apply Hf. apply lookup_insert_Some in Hj as [[<- _]|[_ Hj]]; eauto.
Qed.

Lemma resolve_put m l a a' addr len w slack : deref m l = Some a → same_shape a a' →
  resolve (put_alloc m l a') addr len w slack = resolve m addr len w slack.
Proof.
  intros Hl (Hs & _). destruct l as [b|id]; cbn in *.
  - unfold resolve. cbn. rewrite (floor_insert_same (live_ m) b a a' addr Hl).
    destruct (floor_entry (live_ m) addr) as [[c x]|] eqn:E; [|done]. case_decide as Ec; [|done]. subst c.
    pose proof (floor_entry_spec (live_ m) addr) as Hf. rewrite E in Hf. destruct Hf as (Hc & _).
    replace x with a by congruence. by rewrite Hs.
  - unfold resolve. cbn. destruct (floor_entry (live_ m) addr) as [[c x]|].
    + assert (Hr : resolve_rest (set_handles_ (alter (set_handle_mem a') id (handles_ m)) m) addr len w
        = resolve_rest m addr len w); [|by rewrite Hr].
      unfold resolve_rest, resolve_mapped. cbn. destruct (floor_entry (maps_ m) addr) as [[va mp]|]; [|done].
      destruct (decide (id = m_handle mp)) as [->|]; [|by rewrite lookup_alter_ne].
      rewrite lookup_alter_eq. by destruct (handles_ m !! m_handle mp).
    + unfold resolve_rest, resolve_mapped. cbn. destruct (floor_entry (maps_ m) addr) as [[va mp]|]; [|done].
      destruct (decide (id = m_handle mp)) as [->|]; [|by rewrite lookup_alter_ne].
      rewrite lookup_alter_eq. by destruct (handles_ m !! m_handle mp).
Qed.

Lemma now_holds_cells m l a f (ab : Allocation * B) l' :
  mem_ok m → lookup_inv m l' → deref m l = Some a → now_holds a f ab →
  cells_now m l f (mkSys (put_alloc m l (fst ab)) (snd ab) l').
Proof.
  intros Hok Hl Hd (Hwf & Hsh & Hf).
  split; [split; cbn; [by eapply put_alloc_ok|eapply lookup_inv_records; [done|by eapply put_alloc_records]]|].
  split; [intros o; cbn; rewrite (cell_put m l a) by done; by rewrite decide_True|].
  split; [intros l2 o Hne; cbn; rewrite (cell_put m l a) by done; by rewrite decide_False|].
  split_and!; [by destruct l|by destruct l|by destruct l|]. intros. by eapply resolve_put.
Qed.

(** A chunk operation, through the location. *)
Lemma wp_on_alloc {A} (op : M (Allocation * B) A) m l a (b : B) (l' : L) (Q : A → st → Prop) E Q' E' :
  deref m l = Some a → wp (op (a, b)) Q' E' →
  (∀ x ab, Q' x ab → Q x (mkSys (put_alloc m l (fst ab)) (snd ab) l')) →
  (∀ e ab, E' e ab → E e (mkSys (put_alloc m l (fst ab)) (snd ab) l')) →
  wp (on_alloc l op (mkSys m b l')) Q E.
Proof.
  intros Hd Hop HQ HE. unfold on_alloc. cbn. rewrite Hd. destruct (op (a, b)); cbn in *; auto.
Qed.

(** A chunk operation that only looks. *)
Lemma on_alloc_look {A} (op : M (Allocation * B) A) m l a (b : B) (l' : L) x :
  deref m l = Some a → op (a, b) = Ret x (a, b) →
  on_alloc l op (mkSys m b l') = Ret x (mkSys m b l').
Proof.
  intros Hd Hop. unfold on_alloc. cbn. rewrite Hd, Hop. cbn. by rewrite put_alloc_same.
Qed.

(** *** Bulk accesses outside every host mapping *)

Lemma host_hit_none m addr len : may_contain (host_maps_ m) addr = false → host_hit m addr len = None.
Proof. unfold host_hit. by intros ->. Qed.

Lemma host_pieces_none m addr len w : may_contain (host_maps_ m) addr = false →
  host_pieces (host_maps_ m) addr len w = inl None.
Proof. unfold host_pieces. by intros ->. Qed.

(** read gives the cells and changes nothing but the thread's lookups; any
    error is resolve's. *)
Lemma read_spec src len (s : st) :
  sys_ok s → is_u64 src → 0 < len → is_u64 len →
  may_contain (host_maps_ (mm s)) src = false → any_stuck (mm s) = false → copy_armed (mm s) = false →
  ∃ l', lookup_inv (mm s) l' ∧
    read src false len s =
      match resolve (mm s) src len false false with
      | inl (l, base) => Ret (cell (mm s) l <$> seqZ (src - base) len) (mkSys (mm s) (bk s) l')
      | inr e => Exn (Error e) (mkSys (mm s) (bk s) l')
      end.
Proof.
  intros Hs Ha Hp Hlen Hh Hst Hcp. pose proof Hs as [Hok _].
  destruct (resolve_scalar_spec src len false false s Hs Ha Hlen) as (l' & Hl' & Hr).
  exists l'. split; [done|]. unfold read. destruct (Z.eqb_spec len 0); [lia|].
  unfold get_mm, bind at 1. rewrite host_hit_none, host_pieces_none by done.
  change (resolve_bulk src len false) with (resolve_scalar (B:=B) (L:=L) src len false false).
  unfold bind at 1. rewrite Hr.
  destruct (resolve (mm s) src len false false) as [[l base]|e] eqn:Er; [|done].
  pose proof (resolve_sound _ _ _ _ _ _ Hok Ha (Z.lt_le_incl _ _ Hp) Er) as Hres.
  destruct (resolved_alloc _ _ _ _ _ _ _ Hok (Z.lt_le_incl _ _ Hp) Hres) as (a & Hd & Hwf & Hge & Hx & _).
  unfold bind. rewrite (on_alloc_look _ (mm s) l a (bk s) l' (content a <$> seqZ (src - base) len) Hd)
    by (apply read_chunks_spec; done || lia).
  assert (Hcell : cell (mm s) l <$> seqZ (src - base) len = content a <$> seqZ (src - base) len).
  { apply list_fmap_ext. intros i x _. unfold cell. by rewrite Hd. }
  rewrite Hcell. unfold any_stuck, copy_armed in *. cbn.
  destruct (access_fault_ (mm s)) as [f|]; [|done]. by rewrite Hst, Hcp.
Qed.

(** A chunk operation at a resolved location that puts bytes there. *)
Lemma wp_located_blit (op : Z → M (Allocation * B) unit) dst len w slack src (s : st) l base l' :
  sys_ok s → is_u64 dst → 0 ≤ len → resolve (mm s) dst len w slack = inl (l, base) →
  lookup_inv (mm s) l' →
  (∀ a, wf_alloc a → 0 ≤ dst - base → dst - base + len ≤ extent a → (dst - base) mod 256 = dst mod 256 →
     wp (op (dst - base) (a, bk s)) (λ _ ab, now_holds a (blit (content a) (dst - base) src len) ab)
       (λ _ ab, ∃ d, 0 ≤ d < len ∧ now_holds a (blit (content a) (dst - base) src d) ab)) →
  wp (on_alloc l (op (dst - base)) (mkSys (mm s) (bk s) l'))
    (λ _ s', cells_now (mm s) l (blit (cell (mm s) l) (dst - base) src len) s')
    (λ _ s', ∃ d, 0 ≤ d < len ∧ cells_now (mm s) l (blit (cell (mm s) l) (dst - base) src d) s').
Proof.
  intros [Hok Hl] Ha Hlen Er Hl' Hop.
  pose proof (resolve_sound _ _ _ _ _ _ Hok Ha Hlen Er) as Hres.
  destruct (resolved_alloc _ _ _ _ _ _ _ Hok Hlen Hres) as (a & Hd & Hwf & Hge & Hx & Hm & Hb).
  assert (Hc : ∀ n ab, now_holds a (blit (content a) (dst - base) src n) ab →
    cells_now (mm s) l (blit (cell (mm s) l) (dst - base) src n) (mkSys (put_alloc (mm s) l (fst ab)) (snd ab) l')).
  { intros n ab Hab. eapply now_holds_cells; try done. eapply now_holds_ext; [exact Hab|].
    intros j. unfold blit, cell. by rewrite Hd. }
  eapply wp_on_alloc; [exact Hd|apply Hop; try done|..].
  - rewrite Zminus_mod, Hm, Z.sub_0_r, Z.mod_mod by done. done.
  - intros [] ab Hab. by apply Hc.
  - intros e ab (d & Hd' & Hab). exists d. split; [done|]. by apply Hc.
Qed.

(** write: every byte, or an exception of the backing with a prefix written;
    or resolve's error with nothing changed. *)
Lemma write_spec dst src len (s : st) :
  sys_ok s → is_u64 dst → 0 < len → is_u64 len → (∀ i, 0 ≤ i < len → is_byte (src i)) →
  may_contain (host_maps_ (mm s)) dst = false →
  match resolve (mm s) dst len true false with
  | inl (l, base) =>
      wp (write dst (Some src) len s)
        (λ _ s', cells_now (mm s) l (blit (cell (mm s) l) (dst - base) src len) s')
        (λ _ s', ∃ d, 0 ≤ d < len ∧ cells_now (mm s) l (blit (cell (mm s) l) (dst - base) src d) s')
  | inr e => ∃ l', lookup_inv (mm s) l' ∧ write dst (Some src) len s = Exn (Error e) (mkSys (mm s) (bk s) l')
  end.
Proof.
  intros Hs Ha Hp Hlen Hsrc Hh. pose proof Hs as [Hok _].
  destruct (resolve_scalar_spec dst len true false s Hs Ha Hlen) as (l' & Hl' & Hr).
  assert (Hw : write dst (Some src) len s = (r <- resolve_scalar dst len true false ;;
    on_alloc (fst r) (write_chunks (dst - snd r) src len)) s).
  { unfold write. destruct (Z.eqb_spec len 0); [lia|].
    unfold get_mm, bind at 1. by rewrite host_hit_none, host_pieces_none by done. }
  rewrite Hw. unfold bind. rewrite Hr. clear Hw Hr.
  destruct (resolve (mm s) dst len true false) as [[l base]|e] eqn:Er; [|by exists l'].
  cbn [fst snd]. eapply (wp_located_blit (λ off, write_chunks off src len)); try done; [lia|].
  intros a Hwf Hge Hx _. apply wp_write_chunks; try done; lia.
Qed.

(** fill: the pattern repeated from the start of the range. *)
Lemma fill_spec dst pattern len (s : st) :
  sys_ok s → is_u64 dst → 0 < len → is_u64 len → pattern ≠ [] → Forall is_byte pattern →
  may_contain (host_maps_ (mm s)) dst = false →
  match resolve (mm s) dst len true false with
  | inl (l, base) =>
      wp (fill dst pattern len s)
        (λ _ s', cells_now (mm s) l (blit (cell (mm s) l) (dst - base) (pattern_at pattern) len) s')
        (λ _ s', ∃ d, 0 ≤ d < len ∧
           cells_now (mm s) l (blit (cell (mm s) l) (dst - base) (pattern_at pattern) d) s')
  | inr e => fill dst pattern len s = Exn (Error e) s
  end.
Proof.
  intros Hs Ha Hp Hlen Hne Hpat Hh. pose proof Hs as [Hok Hl].
  assert (Hw : fill dst pattern len s = (r <- resolve_or_throw dst len true false ;;
    on_alloc (fst r) (fill_chunks (dst - snd r) pattern len)) s).
  { unfold fill. destruct (Z.eqb_spec len 0); [lia|].
    unfold get_mm, bind at 1. by rewrite host_pieces_none by done. }
  rewrite Hw. unfold resolve_or_throw, get_mm, bind, throw, ret.
  destruct (resolve (mm s) dst len true false) as [[l base]|e] eqn:Er; [|done]. cbn [fst snd].
  destruct s as [m b l0].
  eapply (wp_located_blit (λ off, fill_chunks off pattern len) _ _ true false _ (mkSys m b l0)); try done; [lia|].
  intros a Hwf Hge Hx _. apply wp_fill_chunks; try done; lia.
Qed.

(** *** Scalars *)

Lemma land_aligned x size : scalar_size size = true → Z.land x (size - 1) = x mod size.
Proof.
  intros [->|[->|[->| ->]]]%scalar_size_cases; [|change 2 with (2^1)|change 4 with (2^2)|change 8 with (2^3)].
  - by rewrite Z.sub_diag, Z.land_0_r, Z.mod_1_r.
  - by rewrite land_pow2_mod.
  - by rewrite land_pow2_mod.
  - by rewrite land_pow2_mod.
Qed.

Lemma offset_aligned addr base size : scalar_size size = true → base mod 256 = 0 →
  addr mod size = 0 → (addr - base) mod size = 0.
Proof.
  intros Hs Hb Ha. assert (Hd : (size | 256)).
  { apply scalar_size_cases in Hs as [->|[->|[->| ->]]]; [exists 256|exists 128|exists 64|exists 32]; done. }
  assert (0 < size) by (apply scalar_size_cases in Hs; lia).
  apply Z.mod_divide in Ha, Hb; try lia. apply Z.mod_divide; [lia|].
  apply Z.divide_sub_r; [done|]. by transitivity 256.
Qed.

(** What one slot reads as, for an aligned scalar. *)
Definition slot_value (c : option chunk) (off size : Z) : Z :=
  match c with
  | None => 0
  | Some (Uniform u) => repeated u size
  | Some (Real p f) => load_at p f (off mod kChunkSize) size
  end.

Lemma slot_value_cells a t off size (b : B) :
  wf_alloc a → chunks a = Some t → scalar_size size = true → 0 ≤ off → off mod size = 0 →
  off + size ≤ extent a →
  chunk_at (off / kChunkSize) (a, b) = Ret (t !! (off / kChunkSize)) (a, b) ∧
  off mod kChunkSize + size ≤ kChunkSize ∧
  slot_value (t !! (off / kChunkSize)) off size = le_load (content a) off (Z.to_nat size).
Proof.
  intros Hwf Ht Hsz Hoff Hal Hext. pose proof (aligned_in_chunk off size Hsz Hal) as Hin.
  assert (1 ≤ size) by (apply scalar_size_cases in Hsz; lia).
  assert (Hi : 0 ≤ off / kChunkSize < chunk_count a) by (apply chunk_index_range; [done|lia]).
  pose proof (chunk_at_ret (a, b) t _ Ht Hi) as Hc. split; [done|]. split; [done|].
  pose proof (load_word_spec a (a, b) off size Hwf eq_refl Hsz Hoff Hal Hext) as Hw.
  unfold load_word in Hw. erewrite bind_Ret in Hw by exact Hc.
  unfold slot_value. destruct (t !! (off / kChunkSize)) as [[u|p f]|]; unfold ret in Hw; try congruence.
  destruct (Z.leb_spec (off mod kChunkSize + size) kChunkSize); [|lia]. cbv beta in Hw. congruence.
Qed.

Lemma load_real_spec m l a (b : B) (l' : L) t off size p f :
  deref m l = Some a → wf_alloc a → chunks a = Some t → t !! (off / kChunkSize) = Some (Real p f) →
  scalar_size size = true → 0 ≤ off → off mod size = 0 → off + size ≤ extent a →
  load_real l off size (mkSys m b l') = Ret (le_load (cell m l) off (Z.to_nat size)) (mkSys m b l').
Proof.
  intros Hd Hwf Ht Hc Hsz Hoff Hal Hext.
  destruct (slot_value_cells a t off size b Hwf Ht Hsz Hoff Hal Hext) as (Hat & Hin & Hv).
  unfold load_real. erewrite bind_Ret by (by apply (on_alloc_look _ m l a)).
  rewrite Hc in *. cbn in Hv. destruct (Z.leb_spec (off mod kChunkSize + size) kChunkSize); [|lia].
  unfold ret. rewrite Hv. f_equal. apply le_load_ext. intros i _. unfold cell. by rewrite Hd.
Qed.

(** The last allocation found, when its chunk is real. *)
Lemma hot_location_spec addr size (s : st) :
  sys_ok s → is_u64 addr → scalar_size size = true → addr mod size = 0 →
  hot_location addr size s = Ret None s ∨
  ∃ b a t p f, hot_location addr size s = Ret (Some (LiveAt b, addr - b)) s ∧
    live_ (mm s) !! b = Some a ∧ wf_alloc a ∧ chunks a = Some t ∧
    t !! ((addr - b) / kChunkSize) = Some (Real p f) ∧ b mod 256 = 0 ∧
    0 ≤ addr - b ∧ addr - b + size ≤ extent a ∧
    ∀ w slack, resolve (mm s) addr size w slack = inl (LiveAt b, b).
Proof.
  intros [Hok Hl] Ha Hsz Hal. assert (1 ≤ size ≤ 8) by (apply scalar_size_cases in Hsz; lia).
  unfold hot_location. destruct (hot_entry (mm s) addr size (lk s)) as [b|] eqn:E; [|by left].
  assert (Hu : is_u64 size) by (unfold is_u64; lia).
  pose proof (hot_entry_sound _ _ _ _ _ Hok Hl Ha Hu E) as Ho.
  destruct (ordinary_live _ _ _ _ Hok Ha Hu Ho) as (a & Hb & _ & _ & ? & ?). cbn. rewrite Hb.
  destruct (ti_live _ (proj1 Hok) _ _ Hb) as (Hwf & _ & Hm). pose proof (size_le_extent a Hwf).
  destruct (wf_chunks _ Hwf) as (t & Ht & _).
  assert (Hi : 0 ≤ (addr - b) / kChunkSize < chunk_count a) by (apply chunk_index_range; [done|lia]).
  rewrite (chunk_at_ret (a, bk s) t _ Ht Hi).
  destruct (t !! ((addr - b) / kChunkSize)) as [[u|p f]|] eqn:Hc; [by left| |by left].
  right. exists b, a, t, p, f. split_and!; try done; try lia.
  intros w slack. by apply ordinary_resolve_slack.
Qed.

Definition no_load_fault (m : MM) : Prop := any_stuck m = false ∧ load_armed m = false.

Lemma taken_load_id m addr size v : no_load_fault m → taken_load m addr size v = inl v.
Proof.
  unfold no_load_fault, any_stuck, load_armed, taken_load. destruct (access_fault_ m); [|done].
  by intros [-> ->].
Qed.

(** load_scalar is the little-endian word of the cells; any error is
    resolve's; nothing changes but the thread's lookups. *)
Lemma load_scalar_spec addr size (s : st) :
  sys_ok s → is_u64 addr → scalar_size size = true → addr mod size = 0 →
  may_contain (host_maps_ (mm s)) addr = false → no_load_fault (mm s) →
  ∃ l', lookup_inv (mm s) l' ∧
    load_scalar addr size s =
      match resolve (mm s) addr size false true with
      | inl (l, base) => Ret (le_load (cell (mm s) l) (addr - base) (Z.to_nat size)) (mkSys (mm s) (bk s) l')
      | inr e => Exn (Error e) (mkSys (mm s) (bk s) l')
      end.
Proof.
  intros Hs Ha Hsz Hal Hh Hf. pose proof Hs as [Hok Hlk].
  assert (1 ≤ size ≤ 8) by (apply scalar_size_cases in Hsz; lia).
  unfold load_scalar. rewrite Hsz, land_aligned, Hal by done. cbn [negb Z.eqb].
  unfold get_mm, bind at 1.
  destruct (hot_location_spec addr size s Hs Ha Hsz Hal)
    as [Hhot|(b & a & t & p & f & Hhot & Hb & Hwf & Ht & Hc & Hm & Hge & Hx & Hres)].
  2:{ exists (lk s). split; [done|]. erewrite bind_Ret by exact Hhot. rewrite Hres. destruct s as [m bk0 lk0].
      erewrite bind_Ret by (eapply load_real_spec; try done; by apply offset_aligned).
      by rewrite taken_load_id. }
  destruct (resolve_scalar_spec addr size false true s Hs Ha) as (l' & Hl' & Hr); [unfold is_u64; lia|].
  exists l'. split; [done|]. erewrite bind_Ret by exact Hhot. unfold scalar_location, get_mm, bind.
  rewrite host_hit_none by done. rewrite Hr. clear Hr.
  destruct (resolve (mm s) addr size false true) as [[l base]|e] eqn:Er; [|done]. cbn [fst snd].
  assert (Hsz0 : 0 ≤ size) by lia. pose proof (resolve_sound _ _ _ _ _ _ Hok Ha Hsz0 Er) as Hres.
  destruct (resolved_alloc (mm s) addr size false true l base Hok Hsz0 Hres) as (a & Hd & Hwf & Hge & Hx & Hm & _).
  destruct (wf_chunks _ Hwf) as (t & Ht & _).
  pose proof (offset_aligned addr base size Hsz Hm Hal) as Hoa.
  destruct (slot_value_cells a t _ size (bk s) Hwf Ht Hsz Hge Hoa Hx) as (Hat & Hin & Hv).
  rewrite (on_alloc_look _ (mm s) l a (bk s) l' _ Hd Hat).
  assert (Hcell : le_load (content a) (addr - base) (Z.to_nat size) = le_load (cell (mm s) l) (addr - base) (Z.to_nat size)).
  { apply le_load_ext. intros i _. unfold cell. by rewrite Hd. }
  rewrite Hcell in Hv.
  destruct (t !! ((addr - base) / kChunkSize)) as [[u|p f]|] eqn:Hc; cbn in Hv; unfold ret.
  - rewrite taken_load_id by done. by rewrite Hv.
  - rewrite (load_real_spec (mm s) l a (bk s) l' t (addr - base) size p f) by done. by rewrite taken_load_id.
  - rewrite taken_load_id by done. by rewrite Hv.
Qed.

Lemma put_alloc_twice m l a a1 a2 : deref m l = Some a →
  put_alloc (put_alloc m l a1) l a2 = put_alloc m l a2.
Proof.
  destruct l as [b|id]; cbn; intros Hd.
  - by rewrite insert_insert_eq.
  - assert (alter (set_handle_mem a2) id (alter (set_handle_mem a1) id (handles_ m)) =
      alter (set_handle_mem a2) id (handles_ m)) as ->; [|done].
    apply map_eq. intros i. destruct (decide (id = i)) as [<-|]; [|by rewrite !lookup_alter_ne].
    rewrite !lookup_alter_eq. by destruct (handles_ m !! id).
Qed.

(** Steps on one allocation compose. *)
Lemma on_alloc_bind {A C} (op : M (Allocation * B) A) (k : A → M (Allocation * B) C) l (s : st) :
  on_alloc l (bind op k) s = bind (on_alloc l op) (λ x, on_alloc l (k x)) s.
Proof.
  unfold on_alloc, bind. destruct (deref (mm s) l) as [a|] eqn:Hd; [|done].
  destruct (op (a, bk s)) as [x [a1 b1]|e [a1 b1]|]; [|done|done]. cbn.
  rewrite (deref_put _ l a a1 l Hd), decide_True by done.
  destruct (k x (a1, b1)) as [y [a2 b2]|e [a2 b2]|]; cbn; by rewrite ?(put_alloc_twice _ l a) by done.
Qed.

(** The part of store_scalar after the location is known. *)
Definition finish_store (addr size value : Z) (at_ : ScalarAt) : M st unit :=
  match at_ with
  | AtChunk l off => store_real l off size value
  | Unchanged => ret tt
  | AtHostMap p => host_store_word p size value
  | _ => write addr (Some (byte_of value)) size
  end.

(** Locating and then storing is one store in the allocation. *)
Lemma located_store addr size v l base (s s' : st) :
  host_hit (mm s) addr size = None →
  resolve_scalar addr size false false s = Ret (l, base) s' →
  (∃ a t, deref (mm s') l = Some a ∧ chunks a = Some t ∧ 0 ≤ (addr - base) / kChunkSize < chunk_count a) →
  (at_ <- scalar_location addr size (Some v) ;; finish_store addr size v at_) s =
    on_alloc l (store_word (addr - base) size v) s'.
Proof.
  intros Hh Hr (a & t & Hd & Ht & Hi). unfold scalar_location, get_mm, bind at 1 2. rewrite Hh.
  unfold bind at 1. rewrite Hr. cbn [fst snd]. destruct s' as [m b l'].
  pose proof (chunk_at_ret (a, b) t _ Ht Hi) as Hc.
  unfold bind at 1. rewrite (on_alloc_look _ m l a b l' _ Hd Hc).
  unfold store_word, on_alloc at 3. cbn [mm bk lk] in *. rewrite Hd. erewrite bind_Ret by exact Hc.
  assert (Hfold : ∀ op : M (Allocation * B) unit, match op (a, b) with
    | Ret x ab => Ret x (mkSys (put_alloc m l (fst ab)) (snd ab) l')
    | Exn e ab => Exn e (mkSys (put_alloc m l (fst ab)) (snd ab) l') | Undef => Undef end
    = on_alloc l op (mkSys m b l')) by (intros op; unfold on_alloc; cbn; by rewrite Hd).
  destruct (t !! ((addr - base) / kChunkSize)) as [[u|p f]|]; cbn [materialize_if_not_real].
  - destruct (v =? repeated u size); [by cbn; rewrite put_alloc_same|].
    rewrite Hfold, on_alloc_bind. unfold bind. by destruct (on_alloc l (materialize _) _).
  - rewrite Hfold, on_alloc_bind. unfold ret. cbn [finish_store]. unfold store_real, bind.
    by rewrite (on_alloc_look (λ s, Ret tt s) m l a b l' tt Hd eq_refl).
  - rewrite Hfold, on_alloc_bind. unfold bind. by destruct (on_alloc l (materialize _) _).
Qed.

(** The effect of a store at a resolved location. *)
Definition stored (m : MM) (l : loc) (off size v : Z) (o : outcome st unit) : Prop :=
  wp o (λ _ s', cells_now m l (blit (cell m l) off (byte_of v) size) s')
       (λ _ s', cells_now m l (cell m l) s').

Lemma store_word_located m l a (b : B) (l' : L) off size v :
  mem_ok m → lookup_inv m l' → deref m l = Some a → wf_alloc a → scalar_size size = true →
  0 ≤ off → off mod size = 0 → off + size ≤ extent a →
  stored m l off size v (on_alloc l (store_word off size v) (mkSys m b l')).
Proof.
  intros Hok Hl Hd Hwf Hsz Hoff Hal Hx.
  assert (Hc : ∀ j, cell m l j = content a j) by (intros j; unfold cell; by rewrite Hd).
  eapply wp_on_alloc; [exact Hd|apply (wp_store_word a (content a)); try done; by apply now_holds_refl|..].
  - intros [] ab Hab. eapply now_holds_cells; try done. eapply now_holds_ext; [exact Hab|].
    intros j. unfold blit. by rewrite Hc.
  - intros e ab Hab. eapply now_holds_cells; try done. eapply now_holds_ext; [exact Hab|]. intros j. by rewrite Hc.
Qed.

(** A store to a chunk that is real is the store of the general path. *)
Lemma store_real_word m l a (b : B) (l' : L) t off size v p f :
  deref m l = Some a → chunks a = Some t → 0 ≤ off / kChunkSize < chunk_count a →
  t !! (off / kChunkSize) = Some (Real p f) →
  store_real l off size v (mkSys m b l') = on_alloc l (store_word off size v) (mkSys m b l').
Proof.
  intros Hd Ht Hi Hc. unfold store_real, on_alloc. cbn [mm bk]. rewrite Hd. unfold store_word.
  erewrite (bind_Ret (chunk_at _)) by (by apply (chunk_at_ret (a, b) t)). rewrite Hc. done.
Qed.

Definition no_store_fault (m : MM) : Prop := store_armed m = false.

Lemma store_scalar_unfold addr size v (s : st) :
  scalar_size size = true → addr mod size = 0 → no_store_fault (mm s) →
  store_scalar addr size v s =
    (hot <- hot_location addr size ;;
     match hot with
     | Some (l, off) => store_real l off size v
     | None => at_ <- scalar_location addr size (Some v) ;; finish_store addr size v at_
     end) s.
Proof.
  intros Hsz Hal Hf. unfold store_scalar. rewrite Hsz, land_aligned, Hal by done. cbn [negb Z.eqb].
  unfold get_mm, bind at 1. unfold no_store_fault, store_armed in Hf.
  destruct (access_fault_ (mm s)) as [f|]; [rewrite Hf|]; done.
Qed.

(** store_scalar is one store in the allocation its address lies in; the
    resolution is that of a read. *)
Lemma store_scalar_exact addr size v (s : st) :
  sys_ok s → is_u64 addr → scalar_size size = true → addr mod size = 0 →
  may_contain (host_maps_ (mm s)) addr = false → no_store_fault (mm s) →
  ∃ l', lookup_inv (mm s) l' ∧
    store_scalar addr size v s =
      match resolve (mm s) addr size false false with
      | inl (l, base) => on_alloc l (store_word (addr - base) size v) (mkSys (mm s) (bk s) l')
      | inr e => Exn (Error e) (mkSys (mm s) (bk s) l')
      end.
Proof.
  intros Hs Ha Hsz Hal Hh Hf. pose proof Hs as [Hok Hlk].
  assert (1 ≤ size ≤ 8) by (apply scalar_size_cases in Hsz; lia). assert (Hsz0 : 0 ≤ size) by lia.
  rewrite store_scalar_unfold by done.
  destruct (hot_location_spec addr size s Hs Ha Hsz Hal)
    as [Hhot|(b & a & t & p & f & Hhot & Hb & Hwf & Ht & Hc & Hm & Hge & Hx & Hres)].
  2:{ exists (lk s). split; [done|]. rewrite Hres. erewrite bind_Ret by exact Hhot. destruct s as [m bk0 lk0].
      cbn [mm bk lk] in *. apply (store_real_word m (LiveAt b) a bk0 lk0 t _ _ _ p f); try done.
      apply chunk_index_range; [done|lia]. }
  erewrite bind_Ret by exact Hhot.
  destruct (resolve_scalar_spec addr size false false s Hs Ha) as (l' & Hl' & Hr); [unfold is_u64; lia|].
  exists l'. split; [done|].
  destruct (resolve (mm s) addr size false false) as [[l base]|e] eqn:Er.
  - pose proof (resolve_sound _ _ _ _ _ _ Hok Ha Hsz0 Er) as Hres.
    destruct (resolved_alloc (mm s) addr size false false l base Hok Hsz0 Hres) as (a & Hd & Hwf & Hge & Hx & Hm & _).
    destruct (wf_chunks _ Hwf) as (t & Ht & _).
    apply (located_store addr size v l base s (mkSys (mm s) (bk s) l'));
      [by apply host_hit_none|done|exists a, t; do 2 (split; [done|]); apply chunk_index_range; [done|lia]].
  - unfold scalar_location, get_mm, bind. rewrite host_hit_none by done. by rewrite Hr.
Qed.

(** store_scalar puts the value's bytes in the cells, or cannot get host
    memory and changes none; any other error is resolve's for a read. *)
Lemma store_scalar_spec addr size v (s : st) :
  sys_ok s → is_u64 addr → scalar_size size = true → addr mod size = 0 →
  may_contain (host_maps_ (mm s)) addr = false → no_store_fault (mm s) →
  match resolve (mm s) addr size false false with
  | inl (l, base) => stored (mm s) l (addr - base) size v (store_scalar addr size v s)
  | inr e => ∃ l', lookup_inv (mm s) l' ∧ store_scalar addr size v s = Exn (Error e) (mkSys (mm s) (bk s) l')
  end.
Proof.
  intros Hs Ha Hsz Hal Hh Hf. pose proof Hs as [Hok Hlk].
  assert (Hsz0 : 0 ≤ size) by (apply scalar_size_cases in Hsz; lia).
  destruct (store_scalar_exact addr size v s Hs Ha Hsz Hal Hh Hf) as (l' & Hl' & ->).
  destruct (resolve (mm s) addr size false false) as [[l base]|e] eqn:Er; [|by exists l'].
  pose proof (resolve_sound _ _ _ _ _ _ Hok Ha Hsz0 Er) as Hres.
  destruct (resolved_alloc (mm s) addr size false false l base Hok Hsz0 Hres) as (a & Hd & Hwf & Hge & Hx & Hm & _).
  eapply store_word_located; try done. by apply offset_aligned.
Qed.

(** *** Sixteen bytes *)

Definition quad_bytes (v : Z * Z) (i : Z) : Z :=
  if i <? 8 then byte_of (fst v) i else byte_of (snd v) (i - 8).

(** Sixteen aligned bytes never straddle a chunk. *)
Lemma quad_in_chunk off : off mod 16 = 0 → off mod kChunkSize + 16 ≤ kChunkSize.
Proof.
  intros Ha. unfold kChunkSize. pose proof (Z.mod_pos_bound off 65536 ltac:(lia)).
  apply Z.mod_divide in Ha as [q ->]; [|lia]. change 65536 with (4096 * 16).
  rewrite Z.mul_mod_distr_r by lia. pose proof (Z.mod_pos_bound q 4096). lia.
Qed.

Lemma quad_mod8 off : off mod 16 = 0 → off mod 8 = 0 ∧ (off + 8) mod 8 = 0.
Proof.
  intros Ha. apply Z.mod_divide in Ha as [q ->]; [|lia].
  split; [replace (q * 16) with (q * 2 * 8) by lia|replace (q * 16 + 8) with ((q * 2 + 1) * 8) by lia];
    apply Z_mod_mult.
Qed.

Lemma quad_load_spec a (b : B) off :
  wf_alloc a → 0 ≤ off → off mod 16 = 0 → off + 16 ≤ extent a →
  quad_load off (a, b) = Ret (le_load (content a) off 8, le_load (content a) (off + 8) 8) (a, b).
Proof.
  intros Hwf Hoff Hal Hx. pose proof (quad_in_chunk off Hal) as Hin.
  destruct (quad_mod8 off Hal) as [H8 H8']. destruct (wf_chunks _ Hwf) as (t & Ht & Hok).
  pose proof (slot_value_cells a t off 8 b Hwf Ht eq_refl Hoff H8 ltac:(lia)) as (Hc & _ & Hv1).
  pose proof (slot_value_cells a t (off + 8) 8 b Hwf Ht eq_refl ltac:(lia) H8' ltac:(lia)) as (_ & _ & Hv2).
  pose proof (Z.mod_pos_bound off kChunkSize ltac:(done)).
  assert (Hidx : (off + 8) / kChunkSize = off / kChunkSize).
  { symmetry. apply (Z.div_unique_pos _ _ _ (off mod kChunkSize + 8)); [lia|]. pose proof (chunk_base off). lia. }
  assert (Hmod : (off + 8) mod kChunkSize = off mod kChunkSize + 8).
  { symmetry. apply (Z.mod_unique_pos _ _ (off / kChunkSize)); [lia|]. pose proof (chunk_base off). lia. }
  rewrite Hidx in Hv2. unfold quad_load. erewrite bind_Ret by exact Hc.
  destruct (t !! (off / kChunkSize)) as [[u|p f]|] eqn:Hs; unfold slot_value in *; unfold ret.
  - change (Z.to_nat 8) with 8%nat in *. by rewrite <- Hv1, <- Hv2.
  - destruct (Z.leb_spec (off mod kChunkSize + 16) kChunkSize); [|lia].
    assert (Hf : ∀ j, is_byte (f j)) by (destruct (Hok _ _ Hs); done).
    rewrite load_at_le_load in Hv1, Hv2 by done. rewrite Hmod in Hv2. unfold load16.
    change (Z.to_nat 8) with 8%nat in *. by rewrite Hv1, Hv2.
  - change (Z.to_nat 8) with 8%nat in *. by rewrite <- Hv1, <- Hv2.
Qed.

Lemma store16_blit p f off v j : store16 p f off v j = blit f off (quad_bytes v) 16 j.
Proof.
  unfold store16, le_store, blit, quad_bytes.
  destruct (Z.leb_spec (off + 8) j), (Z.ltb_spec j (off + 8 + 8)), (Z.leb_spec off j),
    (Z.ltb_spec j (off + 8)), (Z.ltb_spec j (off + 16)), (Z.ltb_spec (j - off) 8); cbn; try lia; try done.
  f_equal. lia.
Qed.

Lemma quad_bytes_range v i : is_byte (quad_bytes v i).
Proof. unfold quad_bytes. case_if; apply byte_of_range. Qed.

Lemma wp_quad_store a f (s : Allocation * B) off v :
  now_holds a f s → 0 ≤ off → off mod 16 = 0 → off + 16 ≤ extent a →
  wp (quad_store off v s)
    (λ _ s', now_holds a (blit f off (quad_bytes v) 16) s') (λ _ s', now_holds a f s').
Proof.
  intros Hs Hoff Hal Hext.
  destruct Hs as (Hwf & Hsh & Hf). pose proof (conj Hwf (conj Hsh Hf)) as Hs.
  pose proof (quad_in_chunk off Hal) as Hin.
  assert (Hi : 0 ≤ off / kChunkSize < chunk_count a).
  { rewrite <- (Z.add_0_r off). apply (extent_index a off 0 16); lia. }
  assert (Hi' : 0 ≤ off / kChunkSize < chunk_count (fst s)) by (destruct Hsh as (_ & -> & _); done).
  destruct (wf_chunks _ Hwf) as (t & Ht & Hok).
  pose proof (Z.mod_pos_bound off kChunkSize ltac:(done)).
  unfold quad_store. wp_step. apply (wp_chunk_at _ _ _ _ t Ht Hi').
  match goal with |- context [if ?x then ret tt else _] => destruct x eqn:Eb end.
  - destruct (t !! (off / kChunkSize)) as [[u|]|] eqn:Hc; try done.
    apply andb_true_iff in Eb as [E1%Z.eqb_eq E2%Z.eqb_eq]. wp_step.
    pose proof (wf_lookup_ok _ _ _ _ Hwf Ht Hc) as Hu. simpl in Hu.
    rewrite <- (chunk_base off) at 1. eapply uniform_blit_same; try done; [lia|].
    intros i Hi2. unfold quad_bytes. rewrite <- E1, E2, (repeated_le_load u 8 (λ _, u) 0) by done.
    case_if; apply (byte_of_le_load (λ _, u) 0); try done; lia.
  - eapply (wp_real_update a f _ _ 16 _ (quad_bytes v)); try done; try lia.
    + intros p h j. apply store16_blit.
    + intros. apply quad_bytes_range.
    + intros s' Hs'. by rewrite chunk_base in Hs'.
Qed.

Lemma quad_offset addr base : base mod 256 = 0 → addr mod 16 = 0 → (addr - base) mod 16 = 0.
Proof.
  intros Hb Ha. apply Z.mod_divide in Ha, Hb; try lia. apply Z.mod_divide; [lia|].
  apply Z.divide_sub_r; [done|]. transitivity 256; [by exists 16|done].
Qed.

Lemma load_quad_spec addr (s : st) :
  sys_ok s → is_u64 addr → addr mod 16 = 0 →
  may_contain (host_maps_ (mm s)) addr = false → no_load_fault (mm s) →
  ∃ l', lookup_inv (mm s) l' ∧
    load_quad addr s =
      match resolve (mm s) addr 16 false true with
      | inl (l, base) => Ret (le_load (cell (mm s) l) (addr - base) 8, le_load (cell (mm s) l) (addr - base + 8) 8)
                           (mkSys (mm s) (bk s) l')
      | inr e => Exn (Error e) (mkSys (mm s) (bk s) l')
      end.
Proof.
  intros Hs Ha Hal Hh [Hf1 Hf2]. pose proof Hs as [Hok _].
  destruct (resolve_scalar_spec addr 16 false true s Hs Ha) as (l' & Hl' & Hr); [by vm_compute|].
  exists l'. split; [done|]. unfold load_quad, get_mm, bind at 1. rewrite Hal, Hf1, Hf2, Hh. cbn [negb orb Z.eqb].
  unfold bind. rewrite Hr. clear Hr.
  destruct (resolve (mm s) addr 16 false true) as [[l base]|e] eqn:Er; [|done]. cbn [fst snd].
  assert (H16 : 0 ≤ 16) by lia. pose proof (resolve_sound _ _ _ _ _ _ Hok Ha H16 Er) as Hres.
  destruct (resolved_alloc _ _ _ _ _ _ _ Hok H16 Hres) as (a & Hd & Hwf & Hge & Hx & Hm & _).
  rewrite (on_alloc_look _ (mm s) l a (bk s) l' _ Hd
    (quad_load_spec a (bk s) _ Hwf Hge (quad_offset _ _ Hm Hal) Hx)).
  f_equal. f_equal; apply le_load_ext; intros i _; unfold cell; by rewrite Hd.
Qed.

Lemma store_quad_spec addr v (s : st) :
  sys_ok s → is_u64 addr → addr mod 16 = 0 →
  may_contain (host_maps_ (mm s)) addr = false → no_store_fault (mm s) →
  match resolve (mm s) addr 16 false false with
  | inl (l, base) =>
      wp (store_quad addr v s)
        (λ _ s', cells_now (mm s) l (blit (cell (mm s) l) (addr - base) (quad_bytes v) 16) s')
        (λ _ s', cells_now (mm s) l (cell (mm s) l) s')
  | inr e => ∃ l', lookup_inv (mm s) l' ∧ store_quad addr v s = Exn (Error e) (mkSys (mm s) (bk s) l')
  end.
Proof.
  intros Hs Ha Hal Hh Hf. pose proof Hs as [Hok _].
  destruct (resolve_scalar_spec addr 16 false false s Hs Ha) as (l' & Hl' & Hr); [by vm_compute|].
  assert (Hq : store_quad addr v s = (r <- resolve_scalar addr 16 false false ;;
    on_alloc (fst r) (quad_store (addr - snd r) v)) s).
  { unfold store_quad, get_mm, bind at 1. rewrite Hal, Hf, Hh. done. }
  rewrite Hq. unfold bind. rewrite Hr. clear Hq Hr.
  destruct (resolve (mm s) addr 16 false false) as [[l base]|e] eqn:Er; [|by exists l']. cbn [fst snd].
  assert (H16 : 0 ≤ 16) by lia. pose proof (resolve_sound _ _ _ _ _ _ Hok Ha H16 Er) as Hres.
  destruct (resolved_alloc _ _ _ _ _ _ _ Hok H16 Hres) as (a & Hd & Hwf & Hge & Hx & Hm & _).
  assert (Hc : ∀ j, cell (mm s) l j = content a j) by (intros j; unfold cell; by rewrite Hd).
  eapply wp_on_alloc; [exact Hd|apply (wp_quad_store a (content a));
    [by apply now_holds_refl|done|by apply quad_offset|done]|..].
  - intros [] ab Hab. eapply now_holds_cells; try done. eapply now_holds_ext; [exact Hab|].
    intros j. unfold blit. by rewrite Hc.
  - intros e ab Hab. eapply now_holds_cells; try done. eapply now_holds_ext; [exact Hab|]. intros j. by rewrite Hc.
Qed.
End specs.
