(* ===== verification/Samples.v ===== *)
(** * Concrete managers

    A fresh device satisfies the invariants; small devices on which the theorems
    of the other files are instantiated. *)

From S2P Require Import Prelude Chunks HostMaps BrLock MemState MemTable Vmm VmmRange Resolve Lookup Access.

(** ** A fresh device *)

Lemma new_MM_ok capacity ordinal g mem :
  0 ≤ capacity ≤ u64_max → 0 ≤ ordinal < 16 → mem_ok (new_MM capacity ordinal g mem).
Proof.
  intros Hc Ho. split.
  - assert (Hno : ∀ k b e, ¬ region (new_MM capacity ordinal g mem) k b e).
    { intros k b e. destruct k; intros (x & Hx & _); cbn in Hx; by rewrite lookup_empty in Hx. }
    split.
    + split; [exists 8; split; [lia|done]|by left].
    + cbn -[u64_max]. unfold kDeviceVaBase, kDeviceVaStride, u64_max. lia.
    + split; intros *; intros Hr; by destruct (Hno _ _ _ Hr).
    + intros b a Hb. cbn in Hb. by rewrite lookup_empty in Hb.
    + done.
    + split; cbn -[kQuarantineEntries]; [done| |by intros p [x Hx]; rewrite lookup_empty in Hx|lia].
      intros i p Hp. by rewrite lookup_nil in Hp.
    + done.
    + cbn. lia.
    + intros b x Hx. cbn in Hx. by rewrite lookup_empty in Hx.
    + intros b x Hx. cbn in Hx. by rewrite lookup_empty in Hx.
  - split; cbn; [..|lia]; intros *; intros Hx; by rewrite lookup_empty in Hx.
Qed.

(** vmm_inv does not look at what alloc changes. *)
Lemma vmm_inv_alloc m sz request : vmm_inv m → vmm_inv (snd (alloc_result m sz request)).
Proof. intros []. by split. Qed.

Lemma alloc_ok m sz request :
  mem_ok m → request_ok request → 0 < sz → used_ m + sz ≤ capacity_ m → va_room m sz →
  mem_ok (snd (alloc_result m sz request)).
Proof. intros [Ht Hv] ????. split; [by apply alloc_inv|by apply vmm_inv_alloc]. Qed.

(** ** Samples *)

(** A backing that never runs out: the chunks in order. *)
#[global] Instance counting_backing : HostBacking Z :=
  {| acquire := λ n, (inl ((n + 1) * kChunkSize), n + 1); release := λ _ _ n, n |}.

Definition sample_new : MM := new_MM 1073741824 0 1 (λ _, 0).
(** One allocation of 100000 bytes, at the start of device 0's window. *)
Definition sample_base : Z := 35184372088832.
Definition sample_mm : MM := snd (alloc_result sample_new 100000 0).
Definition sample : Sys Z Lookups := mkSys sample_mm 0 (new_lookups 131072).

Lemma sample_new_ok : mem_ok sample_new.
Proof. apply new_MM_ok; unfold u64_max; lia. Qed.

Lemma sample_mm_ok : mem_ok sample_mm.
Proof.
  apply alloc_ok; [apply sample_new_ok|by left|lia|by vm_compute|]. unfold va_room, u64_max. by vm_compute.
Qed.

Lemma sample_stamp : Epoch.is_stamp 131072.
Proof. by vm_compute. Qed.

Lemma sample_ok : sys_ok sample.
Proof. split; [apply sample_mm_ok|]. apply new_lookups_ok, sample_stamp. Qed.

Lemma sample_alloc : alloc 100000 0 sample_new = Ret sample_base sample_mm.
Proof.
  apply (alloc_success sample_new 100000 0); [apply sample_new_ok|by left|lia|by vm_compute|].
  unfold va_room, u64_max. by vm_compute.
Qed.
