(* ===== verification/Batch.v ===== *)
(** * A warp's accesses at once (src/core/memory.cpp)

    The batched loads and stores and the broadcasts: one lookup for many accesses.
    Each declines (having changed nothing) where it could differ from the scalar
    accesses it stands for; where it does not, it is those accesses one by one. *)

From S2P Require Import Prelude Chunks HostMaps BrLock MemState MemTable Vmm VmmRange Resolve Lookup Access.

(** The accesses of a list, in order. *)
Fixpoint traverse {S A C} (f : A → M S C) (l : list A) : M S (list C) :=
  match l with
  | [] => ret []
  | x :: l' => y <- f x ;; ys <- traverse f l' ;; ret (y :: ys)
  end.

(** MemoryManager::host_map_free_span *)
Definition host_map_free_span (m : MM) (base size : Z) : bool :=
  is_device_va base && is_device_va (u64 (base + size - 1)) && negb (in_device_window (host_maps_ m)).

(** MemoryManager::batch_faults_clear *)
Definition batch_faults_clear (m : MM) (store : bool) : bool :=
  if store then negb (store_armed m) else negb (any_stuck m || load_armed m).

(** The one pass over the addresses: the bits of them all, and whether any is
    outside (an address below the base wraps to far above any size). *)
Definition lane_tests (base limit : Z) (addrs : list Z) : Z * bool :=
  foldl (λ t x, (Z.lor (fst t) x, snd t || (limit <=? u64 (x - base)))) (0, false) addrs.

Section batch.
Context {B : Type} `{HostBacking B} {L : Type} `{OrdinaryLookup L}.
Local Abbreviation st := (Sys B L).

(** MemoryManager::batch_addresses_ok: the base of the one allocation. *)
Definition batch_addresses_ok (addrs : list Z) (size : Z) (hint : option Z) : M st (option Z) :=
  match addrs with
  | [] => undef
  | a0 :: _ =>
      f <- ordinary_lookup a0 size hint ;;
      m <- get_mm ;;
      match f with
      | None => ret None
      | Some b =>
          match live_ m !! b with
          | None => undef
          | Some a =>
              let '(bits, outside) := lane_tests b (a_size a - size + 1) addrs in
              if negb (Z.land bits (size - 1) =? 0) || outside then ret None else
              if negb (host_map_free_span m b (a_size a)) && existsb (may_contain (host_maps_ m)) addrs
              then ret None else ret (Some b)
          end
      end
  end.

(** MemoryManager::batch_ok *)
Definition batch_ok (addrs : list Z) (size : Z) (store : bool) (hint : option Z) : M st (option Z) :=
  m <- get_mm ;;
  if negb (match addrs with [] => false | _ => true end) || negb (scalar_size size) then ret None else
  if negb (batch_faults_clear m store) then ret None else
  batch_addresses_ok addrs size hint.

(** MemoryManager::batch_window *)
Definition batch_window (addrs : list Z) (size : Z) : M st (option Z) :=
  m <- get_mm ;;
  if negb (match addrs with [] => false | _ => true end) || negb (scalar_size size) then ret None else
  if negb (batch_faults_clear m false) || negb (batch_faults_clear m true) then ret None else
  batch_addresses_ok addrs size None.

(** MemoryManager::load_batch_in *)
Definition load_batch_in (b : Z) (addrs : list Z) (size : Z) : M st (list Z) :=
  on_alloc (LiveAt b) (traverse (λ x, load_word (u64 (x - b)) size) addrs).

(** gather_loads: one lane reads the allocation's first bytes where it is past
    the end, and its aligned word where it is misaligned. *)
Definition gather_lane (base limit size x : Z) : M (Allocation * B) Z :=
  let off := u64 (x - base) in
  let off := if limit <=? off then 0 else off in
  c <- chunk_at (off / kChunkSize) ;;
  match c with
  | Some (Real p f) =>
      let at_ := Z.land off (Z.lnot (size - 1)) mod kChunkSize in
      if at_ + size <=? kChunkSize then ret (le_load f at_ (Z.to_nat size)) else undef
  | Some (Uniform u) => ret (repeated u size)
  | None => ret 0
  end.
Definition gather_loads (b limit : Z) (addrs : list Z) (size : Z) : M st (option (list Z)) :=
  out <- on_alloc (LiveAt b) (traverse (gather_lane b limit size) addrs) ;;
  let '(bits, outside) := lane_tests b limit addrs in
  ret (if negb (Z.land bits (size - 1) =? 0) || outside then None else Some out).

(** MemoryManager::load_batch *)
Definition load_batch (addrs : list Z) (size : Z) (hint : option Z) : M st (option (list Z)) :=
  m <- get_mm ;;
  match addrs with
  | [] => ret None
  | a0 :: _ =>
      if negb (scalar_size size) then ret None else
      if negb (batch_faults_clear m false) then ret None else
      let two_steps :=
        f <- batch_addresses_ok addrs size hint ;;
        match f with
        | None => ret None
        | Some b => out <- load_batch_in b addrs size ;; ret (Some out)
        end in
      if Z.of_nat (length addrs) <=? 64 then
        f <- ordinary_lookup a0 size hint ;;
        match f with
        | None => two_steps
        | Some b =>
            match live_ m !! b with
            | None => undef
            | Some a =>
                if host_map_free_span m b (a_size a)
                then gather_loads b (a_size a - size + 1) addrs size else two_steps
            end
        end
      else two_steps
  end.

(** One lane of MemoryManager::load_batch16 *)
Definition gather16_lane (base limit x : Z) : M (Allocation * B) (Z * Z) :=
  let off := u64 (x - base) in
  let off := if limit <=? off then 0 else off in
  let in_chunk := off mod kChunkSize in
  let in_chunk := if kChunkSize - 16 <? in_chunk then 0 else in_chunk in
  c <- chunk_at (off / kChunkSize) ;;
  match c with
  | Some (Real p f) =>
      let at_ := Z.land in_chunk (Z.lnot 7) in
      if at_ + 16 <=? kChunkSize then ret (le_load f at_ 8, le_load f (at_ + 8) 8) else undef
  | Some (Uniform u) => ret (repeated u 8, repeated u 8)
  | None => ret (0, 0)
  end.
Definition crosses16 (base limit x : Z) : bool :=
  let off := u64 (x - base) in
  let off := if limit <=? off then 0 else off in
  kChunkSize - 16 <? off mod kChunkSize.

(** MemoryManager::load_batch16 *)
Definition load_batch16 (addrs : list Z) (hint : option Z) : M st (option (list (Z * Z))) :=
  m <- get_mm ;;
  match addrs with
  | [] => ret None
  | a0 :: _ =>
      if 64 <? Z.of_nat (length addrs) then ret None else
      if negb (batch_faults_clear m false) then ret None else
      f <- ordinary_lookup a0 16 hint ;;
      match f with
      | None => ret None
      | Some b =>
          match live_ m !! b with
          | None => undef
          | Some a =>
              if negb (host_map_free_span m b (a_size a)) then ret None else
              let limit := a_size a - 16 + 1 in
              out <- on_alloc (LiveAt b) (traverse (gather16_lane b limit) addrs) ;;
              let '(bits, outside) := lane_tests b limit addrs in
              ret (if negb (Z.land bits 7 =? 0) || outside || existsb (crosses16 b limit) addrs
                   then None else Some out)
          end
      end
  end.

(** MemoryManager::load_broadcast *)
Definition load_broadcast (addr count size : Z) (hint : option Z) : M st (option (list Z)) :=
  m <- get_mm ;;
  if (count =? 0) || (32 <? count) || negb (scalar_size size) || negb (Z.land addr (size - 1) =? 0)
  then ret None else
  if negb (batch_faults_clear m false) then ret None else
  f <- ordinary_lookup addr size hint ;;
  match f with
  | None => ret None
  | Some b =>
      match live_ m !! b with
      | None => undef
      | Some a =>
          if negb (host_map_free_span m b (a_size a)) then ret None else
          v <- on_alloc (LiveAt b) (load_word (addr - b) size) ;;
          ret (Some (replicate (Z.to_nat count) v))
      end
  end.

(** MemoryManager::store_batch_in: the outcome, and [*failed_at]. *)
Fixpoint store_batch_in (b size i : Z) (lanes : list (Z * Z)) (s : st) : outcome st unit * option Z :=
  match lanes with
  | [] => (Ret tt s, None)
  | (x, v) :: rest =>
      match on_alloc (LiveAt b) (store_word (u64 (x - b)) size v) s with
      | Ret _ s' => store_batch_in b size (i + 1) rest s'
      | Exn e s' => (Exn e s', Some i)
      | Undef => (Undef, None)
      end
  end.

(** MemoryManager::store_batch *)
Definition store_batch (lanes : list (Z * Z)) (size : Z) (hint : option Z) (s : st) :
    outcome st bool * option Z :=
  match batch_ok (fst <$> lanes) size true hint s with
  | Ret None s' => (Ret false s', None)
  | Ret (Some b) s' =>
      match store_batch_in b size 0 lanes s' with
      | (Ret _ s'', f) => (Ret true s'', f)
      | (Exn e s'', f) => (Exn e s'', f)
      | (Undef, f) => (Undef, f)
      end
  | Exn e s' => (Exn e s', None)
  | Undef => (Undef, None)
  end.
End batch.

(** ** The tests of the lanes *)

Lemma lane_tests_acc base limit mask addrs t :
  let r := foldl (λ t x, (Z.lor (fst t) x, snd t || (limit <=? u64 (x - base)))) t addrs in
  (Z.land (fst r) mask = 0 ↔ Z.land (fst t) mask = 0 ∧ Forall (λ x, Z.land x mask = 0) addrs) ∧
  (snd r = false ↔ snd t = false ∧ Forall (λ x, u64 (x - base) < limit) addrs).
Proof.
  revert t. induction addrs as [|x addrs IH]; intros t; cbn.
  - split; split; [|by intros []| |by intros []]; intros; split; done.
  - destruct (IH (Z.lor (fst t) x, snd t || (limit <=? u64 (x - base)))) as [-> ->]. cbn.
    rewrite Z.land_lor_distr_l, Z.lor_eq_0_iff, orb_false_iff, Z.leb_gt, !Forall_cons. tauto.
Qed.

Lemma lane_tests_spec base limit addrs size :
  scalar_size size = true →
  (let '(bits, outside) := lane_tests base limit addrs in
   negb (Z.land bits (size - 1) =? 0) || outside) = false ↔
  Forall (λ x, x mod size = 0 ∧ u64 (x - base) < limit) addrs.
Proof.
  intros Hsz. unfold lane_tests.
  pose proof (lane_tests_acc base limit (size - 1) addrs (0, false)) as [H1 H2].
  destruct (foldl _ _ _) as [bits outside]. cbn in *.
  rewrite orb_false_iff, negb_false_iff, Z.eqb_eq, H1, H2, Z.land_0_l, Forall_and.
  assert (Forall (λ x, Z.land x (size - 1) = 0) addrs ↔ Forall (λ x, x mod size = 0) addrs) as ->; [|tauto].
  apply Forall_iff. intros x. by rewrite land_aligned.
Qed.

(** A lane that stands for a scalar access inside the allocation at [b]. *)
Definition good_lane (m : MM) (b size x : Z) : Prop :=
  ordinary m x size = Some b ∧ x mod size = 0 ∧ may_contain (host_maps_ m) x = false.

Lemma span_free m base size x : host_map_free_span m base size = true → is_u64 base → 0 < size →
  base + size ≤ u64_max → base ≤ x < base + size → may_contain (host_maps_ m) x = false.
Proof.
  unfold host_map_free_span, may_contain, is_device_va, u64_max, is_u64. intros Hs Hb Hsz Hm Hx.
  rewrite u64_small in Hs by (unfold is_u64; lia). rewrite !andb_true_iff, !Z.leb_le, !Z.ltb_lt in Hs.
  destruct Hs as [[? ?] Hw]. rewrite Hw.
  destruct (Z.leb_spec kDeviceVaBase x), (Z.ltb_spec x kDeviceVaEnd); done || lia.
Qed.

Lemma lane_in m b a size x :
  mem_ok m → live_ m !! b = Some a → card_valid a = 0 → is_u64 x → 1 ≤ size →
  u64 (x - b) < a_size a - size + 1 →
  ordinary m x size = Some b ∧ u64 (x - b) = x - b ∧ b ≤ x ∧ x + size ≤ b + a_size a.
Proof.
  intros Hok Hb Hc Hx Hsz Hlt. destruct (live_room m b a (proj1 Hok) Hb) as (? & ? & ?).
  pose proof (padded_bounds m (a_size a) (ti_config _ (proj1 Hok))).
  unfold is_u64, u64_max in *. rewrite u64_wrap_sub in Hlt by (unfold is_u64; lia).
  destruct (Z.leb_spec b x); [|lia]. split; [|rewrite u64_small by (unfold is_u64; lia); lia].
  assert (Hg : entry_good m (mkEntry 0 b (a_size a))) by (by exists a).
  apply (good_ordinary m (mkEntry 0 b (a_size a))); try done; try (unfold is_u64; lia).
  unfold entry_holds. cbn. rewrite u64_small by (unfold is_u64; lia).
  destruct (Z.leb_spec (a_size a) (x - b)); [lia|]. destruct (Z.ltb_spec (a_size a - (x - b)) size); [lia|done].
Qed.

Section batch_specs.
Context {B : Type} `{HostBacking B} {L : Type} `{OrdinaryLookupOk L}.
Local Abbreviation st := (Sys B L).

Lemma ordinary_lookup_spec addr len hint (s : st) :
  sys_ok s → is_u64 addr → is_u64 len →
  ∃ r l', ordinary_lookup addr len hint s = Ret r (mkSys (mm s) (bk s) l') ∧ lookup_inv (mm s) l' ∧
    ∀ b, r = Some b → ordinary (mm s) addr len = Some b.
Proof.
  intros [Hok Hl] Ha Hlen. unfold ordinary_lookup.
  pose proof (find_ordinary_inv (mm s) addr len hint (lk s) Hok Hl Ha Hlen) as Hinv.
  destruct (find_ordinary (mm s) addr len hint (lk s)) as [r l'] eqn:E. exists r, l'.
  split_and!; try done. intros b ->. exact (find_ordinary_sound _ _ _ _ _ _ _ Hok Hl Ha Hlen E).
Qed.

(** The lanes accepted by the tests are good lanes. *)
Lemma accepted_lanes m b a size addrs :
  mem_ok m → live_ m !! b = Some a → card_valid a = 0 → scalar_size size = true → Forall is_u64 addrs →
  Forall (λ x, x mod size = 0 ∧ u64 (x - b) < a_size a - size + 1) addrs →
  host_map_free_span m b (a_size a) = true ∨ existsb (may_contain (host_maps_ m)) addrs = false →
  Forall (good_lane m b size) addrs.
Proof.
  intros Hok Hb Hc Hsz Hu Hin Hh. assert (1 ≤ size) by (apply scalar_size_cases in Hsz; lia).
  rewrite Forall_forall in *. intros x Hx. destruct (Hin x Hx) as [Hal Hlt].
  destruct (lane_in m b a size x Hok Hb Hc (Hu x Hx) ltac:(lia) Hlt) as (Ho & _ & ? & ?).
  split_and!; try done. destruct (live_room m b a (proj1 Hok) Hb) as (? & ? & ?).
  pose proof (padded_bounds m (a_size a) (ti_config _ (proj1 Hok))). unfold u64_max in *.
  destruct Hh as [Hh|Hh]; [eapply span_free; try done; unfold is_u64, u64_max; lia|].
  apply not_true_iff_false. intros E. apply not_true_iff_false in Hh. apply Hh, existsb_exists.
  exists x. split; [by apply list_elem_of_In|done].
Qed.

(** batch_addresses_ok accepts only good lanes, and changes only the lookups. *)
Lemma batch_addresses_spec addrs size hint (s : st) :
  sys_ok s → addrs ≠ [] → Forall is_u64 addrs → scalar_size size = true →
  ∃ r l', batch_addresses_ok addrs size hint s = Ret r (mkSys (mm s) (bk s) l') ∧
    lookup_inv (mm s) l' ∧ ∀ b, r = Some b → Forall (good_lane (mm s) b size) addrs.
Proof.
  intros Hs Hne Hu Hsz. pose proof Hs as [Hok _]. destruct addrs as [|a0 rest]; [done|].
  assert (1 ≤ size ≤ 8) by (apply scalar_size_cases in Hsz; lia).
  assert (Ha0 : is_u64 a0) by (by inversion Hu). assert (Hsu : is_u64 size) by (unfold is_u64; lia).
  destruct (ordinary_lookup_spec a0 size hint s Hs Ha0 Hsu) as (f & l' & Hf & Hl' & Ho).
  unfold batch_addresses_ok. erewrite bind_Ret by exact Hf. unfold get_mm, bind. cbn [mm].
  destruct f as [b|]; [|by exists None, l'].
  destruct (ordinary_live _ _ _ _ Hok Ha0 Hsu (Ho b eq_refl)) as (a & Hb & _ & Hc & _). rewrite Hb.
  pose proof (lane_tests_spec b (a_size a - size + 1) (a0 :: rest) size Hsz) as Ht.
  destruct (lane_tests b (a_size a - size + 1) (a0 :: rest)) as [bits outside].
  destruct (negb (Z.land bits (size - 1) =? 0) || outside); [by exists None, l'|].
  destruct (negb (host_map_free_span (mm s) b (a_size a)) && existsb (may_contain (host_maps_ (mm s))) (a0 :: rest)) eqn:Eh;
    [by exists None, l'|].
  exists (Some b), l'. split_and!; try done. intros ? [= <-].
  eapply accepted_lanes; try done; [by apply Ht|].
  apply andb_false_iff in Eh as [Eh|Eh]; [left; by apply negb_false_iff|by right].
Qed.

(** *** Loads *)

(** A good lane's word, read in the allocation. *)
Lemma good_lane_word m b a size x (k : B) :
  mem_ok m → live_ m !! b = Some a → scalar_size size = true → is_u64 x → good_lane m b size x →
  0 ≤ x - b ∧ x - b + size ≤ a_size a ∧ (x - b) mod size = 0 ∧ u64 (x - b) = x - b ∧
  load_word (x - b) size (a, k) = Ret (le_load (cell m (LiveAt b)) (x - b) (Z.to_nat size)) (a, k).
Proof.
  intros Hok Hb Hsz Hx (Ho & Hal & _). assert (1 ≤ size ≤ 8) by (apply scalar_size_cases in Hsz; lia).
  destruct (ordinary_live m x size b Hok Hx ltac:(unfold is_u64; lia) Ho) as (a' & Hb' & _ & _ & ? & ?).
  replace a' with a in * by congruence. destruct (ti_live _ (proj1 Hok) _ _ Hb) as (Hwf & _ & Hm).
  pose proof (size_le_extent a Hwf). pose proof (offset_aligned x b size Hsz Hm Hal) as Hoa.
  destruct (live_room m b a (proj1 Hok) Hb) as (? & _). unfold is_u64 in Hx.
  split_and!; try done; try lia; [apply u64_small; unfold is_u64; lia|].
  rewrite (load_word_spec a) by (done || lia). f_equal. apply le_load_ext. intros i _. unfold cell. cbn. by rewrite Hb.
Qed.

Lemma traverse_look {A C} (f : A → M (Allocation * B) C) g (l : list A) (s : Allocation * B) :
  (∀ x, x ∈ l → f x s = Ret (g x) s) → traverse f l s = Ret (g <$> l) s.
Proof.
  induction l as [|x l IH]; intros Hf; cbn [traverse]; [done|].
  erewrite bind_Ret by (apply Hf; left). erewrite bind_Ret by (apply IH; intros; apply Hf; by right). done.
Qed.

Lemma load_batch_in_spec m b addrs size (k : B) (l' : L) :
  mem_ok m → addrs ≠ [] → scalar_size size = true → Forall is_u64 addrs → Forall (good_lane m b size) addrs →
  load_batch_in b addrs size (mkSys m k l') =
    Ret ((λ x, le_load (cell m (LiveAt b)) (x - b) (Z.to_nat size)) <$> addrs) (mkSys m k l').
Proof.
  intros Hok Hne Hsz Hu Hg. destruct addrs as [|a0 rest]; [done|].
  assert (1 ≤ size ≤ 8) by (apply scalar_size_cases in Hsz; lia).
  pose proof (Forall_inv Hg) as (Ho & _). pose proof (Forall_inv Hu) as Hu0.
  destruct (ordinary_live m a0 size b Hok Hu0 ltac:(unfold is_u64; lia) Ho) as (a & Hb & _).
  apply (on_alloc_look _ m (LiveAt b) a); [done|]. apply traverse_look. intros x Hx.
  rewrite Forall_forall in Hu, Hg.
  destruct (good_lane_word m b a size x k Hok Hb Hsz (Hu x Hx) (Hg x Hx)) as (_ & _ & _ & -> & ->). done.
Qed.

(** The aligned word a lane's offset is rounded down to. *)
Lemma lane_word_at off size : scalar_size size = true → 0 ≤ off →
  Z.land off (Z.lnot (size - 1)) = off - off mod size.
Proof.
  intros Hsz Hoff. rewrite <- (land_aligned off size Hsz).
  rewrite (Z.sub_nocarry_ldiff off), <- Z.ldiff_land.
  - apply Z.bits_inj'. intros n _. rewrite !Z.ldiff_spec, Z.land_spec. by destruct (Z.testbit off n), (Z.testbit (size - 1) n).
  - apply Z.bits_inj'. intros n _. rewrite Z.ldiff_spec, Z.land_spec, Z.bits_0. by destruct (Z.testbit off n), (Z.testbit (size - 1) n).
Qed.

(** A lane of the gather always reads inside the allocation; where the lane is
    good it reads the lane's word. *)
Lemma gather_lane_total m b a size x (k : B) :
  mem_ok m → live_ m !! b = Some a → scalar_size size = true →
  ∃ v, gather_lane b (a_size a - size + 1) size x (a, k) = Ret v (a, k) ∧
    (is_u64 x → good_lane m b size x → v = le_load (cell m (LiveAt b)) (x - b) (Z.to_nat size)).
Proof.
  intros Hok Hb Hsz. destruct (ti_live _ (proj1 Hok) _ _ Hb) as (Hwf & Hpos & _).
  assert (1 ≤ size ≤ 8) by (apply scalar_size_cases in Hsz; lia).
  unfold gather_lane. set (off := if _ <=? u64 (x - b) then 0 else u64 (x - b)).
  assert (Hoff : 0 ≤ off ∧ off < a_size a).
  { unfold off. pose proof (u64_range (x - b)). unfold is_u64 in *.
    destruct (Z.leb_spec (a_size a - size + 1) (u64 (x - b))); lia. }
  pose proof (size_le_extent a Hwf). destruct (wf_chunks _ Hwf) as (t & Ht & Hok').
  assert (Hi : 0 ≤ off / kChunkSize < chunk_count a) by (apply chunk_index_range; [done|lia]).
  erewrite bind_Ret by (by apply (chunk_at_ret (a, k) t)).
  assert (Hgood : is_u64 x → good_lane m b size x → off = x - b ∧
    slot_value (t !! (off / kChunkSize)) off size = le_load (cell m (LiveAt b)) (x - b) (Z.to_nat size)).
  { intros Hx Hg. destruct (good_lane_word m b a size x k Hok Hb Hsz Hx Hg) as (? & ? & Hoa & Hu & _).
    assert (off = x - b) as E.
    { unfold off. rewrite Hu. destruct (Z.leb_spec (a_size a - size + 1) (x - b)); lia. }
    split; [done|]. destruct (slot_value_cells a t off size k Hwf Ht Hsz) as (_ & _ & ->); try lia; [by rewrite E|].
    rewrite E. apply le_load_ext. intros i _. unfold cell. cbn. by rewrite Hb. }
  rewrite lane_word_at by (done || lia). assert (Hmod : 0 ≤ off mod size) by (apply Z.mod_pos_bound; lia).
  destruct (t !! (off / kChunkSize)) as [[u|p f]|] eqn:Hc; unfold ret.
  - eexists. split; [done|]. intros Hx Hg. by destruct (Hgood Hx Hg) as [_ <-].
  - pose proof (aligned_in_chunk (off - off mod size) size Hsz) as Hin.
    assert (Hd : (off - off mod size) mod size = 0).
    { rewrite Zminus_mod, Z.mod_mod, Z.sub_diag by lia. done. }
    specialize (Hin Hd). destruct (Z.leb_spec ((off - off mod size) mod kChunkSize + size) kChunkSize); [|lia].
    eexists. split; [done|]. intros Hx Hg. destruct (Hgood Hx Hg) as [E <-]. unfold slot_value.
    destruct (good_lane_word m b a size x k Hok Hb Hsz Hx Hg) as (_ & _ & Hoa & _). rewrite E, Hoa, Z.sub_0_r.
    symmetry. apply load_at_le_load; [|done]. by destruct (Hok' _ _ Hc).
  - eexists. split; [done|]. intros Hx Hg. by destruct (Hgood Hx Hg) as [_ <-].
Qed.

Lemma traverse_total {A C} (f : A → M (Allocation * B) C) (l : list A) (s : Allocation * B) (P : A → C → Prop) :
  (∀ x, ∃ v, f x s = Ret v s ∧ P x v) → ∃ vs, traverse f l s = Ret vs s ∧ Forall2 P l vs.
Proof.
  intros Hf. induction l as [|x l (vs & IH & Hp)]; cbn [traverse]; [exists []; by split; [|constructor]|].
  destruct (Hf x) as (v & Hv & Hpv). exists (v :: vs). split; [|by constructor].
  erewrite bind_Ret by exact Hv. by erewrite bind_Ret by exact IH.
Qed.

(** The outcome of a batched load: nothing but lookups, or the words of good lanes. *)
Definition batch_loaded (m : MM) (size : Z) (addrs : list Z) (r : option (list Z)) : Prop :=
  ∀ out, r = Some out → ∃ b, Forall (good_lane m b size) addrs ∧
    out = (λ x, le_load (cell m (LiveAt b)) (x - b) (Z.to_nat size)) <$> addrs.

Lemma gather_loads_spec m b a addrs size (k : B) (l' : L) :
  mem_ok m → live_ m !! b = Some a → card_valid a = 0 → scalar_size size = true → Forall is_u64 addrs →
  host_map_free_span m b (a_size a) = true →
  ∃ r, gather_loads b (a_size a - size + 1) addrs size (mkSys m k l') = Ret r (mkSys m k l') ∧
    batch_loaded m size addrs r.
Proof.
  intros Hok Hb Hc Hsz Hu Hh. unfold gather_loads.
  destruct (traverse_total (gather_lane b (a_size a - size + 1) size) addrs (a, k)
    (λ x v, is_u64 x → good_lane m b size x → v = le_load (cell m (LiveAt b)) (x - b) (Z.to_nat size))) as (vs & Ht & Hp).
  { intros x. by apply gather_lane_total. }
  erewrite bind_Ret by (by apply (on_alloc_look _ m (LiveAt b) a)).
  pose proof (lane_tests_spec b (a_size a - size + 1) addrs size Hsz) as Hl.
  destruct (lane_tests _ _ _) as [bits outside]. eexists. split; [done|].
  destruct (negb (Z.land bits (size - 1) =? 0) || outside); [done|]. intros out [= <-].
  assert (Hg : Forall (good_lane m b size) addrs).
  { eapply accepted_lanes; try done; [by apply Hl|by left]. }
  exists b. split; [done|]. clear Hl Ht. induction Hp as [|x v xs vs Hv Hp IH]; [done|].
  apply Forall_cons in Hg as [Hgx Hg], Hu as [Hux Hu]. cbn. rewrite (Hv Hux Hgx). f_equal. by apply IH.
Qed.

Lemma two_steps_spec addrs size hint (s : st) :
  sys_ok s → addrs ≠ [] → Forall is_u64 addrs → scalar_size size = true →
  ∃ r l', (f <- batch_addresses_ok addrs size hint ;;
     match f with None => ret None | Some b => out <- load_batch_in b addrs size ;; ret (Some out) end) s
     = Ret r (mkSys (mm s) (bk s) l') ∧ lookup_inv (mm s) l' ∧ batch_loaded (mm s) size addrs r.
Proof.
  intros Hs Hne Hu Hsz. destruct (batch_addresses_spec addrs size hint s Hs Hne Hu Hsz) as (f & l' & Hf & Hl' & Hg).
  erewrite bind_Ret by exact Hf. destruct f as [b|]; [|by exists None, l'].
  specialize (Hg b eq_refl). destruct Hs as [Hok _].
  erewrite bind_Ret by (by apply load_batch_in_spec). eexists _, l'. split_and!; try done.
  intros out [= <-]. by exists b.
Qed.

Lemma load_batch_spec addrs size hint (s : st) :
  sys_ok s → Forall is_u64 addrs →
  ∃ r l', load_batch addrs size hint s = Ret r (mkSys (mm s) (bk s) l') ∧ lookup_inv (mm s) l' ∧
    batch_loaded (mm s) size addrs r ∧
    (is_Some r → scalar_size size = true ∧ no_load_fault (mm s)).
Proof.
  intros Hs Hu. pose proof Hs as [Hok Hlk]. unfold load_batch, get_mm, bind at 1.
  destruct addrs as [|a0 rest]; [exists None, (lk s); split_and!; [by destruct s|done|done|by intros []]|].
  destruct (scalar_size size) eqn:Hsz; [|exists None, (lk s); split_and!; [by destruct s|done|done|by intros []]].
  destruct (batch_faults_clear (mm s) false) eqn:Hf;
    [|exists None, (lk s); split_and!; [by destruct s|done|done|by intros []]]. cbn [negb].
  assert (Hnf : no_load_fault (mm s)).
  { unfold batch_faults_clear in Hf. by apply negb_true_iff, orb_false_iff in Hf. }
  assert (Hsu : is_u64 size) by (apply scalar_size_cases in Hsz; unfold is_u64; lia).
  assert (H2 : ∀ l0, lookup_inv (mm s) l0 → ∃ r l', (f <- batch_addresses_ok (a0 :: rest) size hint ;;
     match f with None => ret None | Some b => out <- load_batch_in b (a0 :: rest) size ;; ret (Some out) end)
     (mkSys (mm s) (bk s) l0) = Ret r (mkSys (mm s) (bk s) l') ∧ lookup_inv (mm s) l' ∧
     batch_loaded (mm s) size (a0 :: rest) r ∧ (is_Some r → true = true ∧ no_load_fault (mm s))).
  { intros l0 Hl0. destruct (two_steps_spec (a0 :: rest) size hint (mkSys (mm s) (bk s) l0)) as (r & l' & ? & ? & ?);
      try done. by exists r, l'. }
  destruct (Z.leb_spec (Z.of_nat (length (a0 :: rest))) 64); [|destruct s; by apply H2].
  destruct (ordinary_lookup_spec a0 size hint s Hs (Forall_inv Hu) Hsu) as (f & l' & Hfo & Hl' & Ho).
  erewrite bind_Ret by exact Hfo. destruct f as [b|]; [|by apply H2].
  destruct (ordinary_live _ _ _ _ Hok (Forall_inv Hu) Hsu (Ho b eq_refl)) as (a & Hb & _ & Hc & _). rewrite Hb.
  destruct (host_map_free_span (mm s) b (a_size a)) eqn:Hh; [|by apply H2].
  destruct (gather_loads_spec (mm s) b a (a0 :: rest) size (bk s) l') as (r & Hr & Hbl); try done.
  exists r, l'. by split_and!.
Qed.

(** Good lanes, one at a time. *)
Lemma scalar_loads b size addrs (s : st) :
  sys_ok s → scalar_size size = true → no_load_fault (mm s) → Forall is_u64 addrs →
  Forall (good_lane (mm s) b size) addrs →
  ∃ l', lookup_inv (mm s) l' ∧ traverse (λ x, load_scalar x size) addrs s =
    Ret ((λ x, le_load (cell (mm s) (LiveAt b)) (x - b) (Z.to_nat size)) <$> addrs) (mkSys (mm s) (bk s) l').
Proof.
  intros Hs Hsz Hf. revert s Hs Hf. induction addrs as [|x addrs IH]; intros s Hs Hf Hu Hg; cbn [traverse].
  { exists (lk s). split; [apply Hs|]. by destruct s. }
  apply Forall_cons in Hg as [(Ho & Hal & Hh) Hg], Hu as [Hux Hu].
  assert (Hsu : is_u64 size) by (apply scalar_size_cases in Hsz; unfold is_u64; lia).
  destruct (load_scalar_spec x size s Hs Hux Hsz Hal Hh Hf) as (l1 & Hl1 & E1).
  rewrite (ordinary_resolve_slack _ _ _ _ false true (proj1 Hs) Hux Hsu Ho) in E1.
  erewrite bind_Ret by exact E1.
  destruct (IH (mkSys (mm s) (bk s) l1)) as (l2 & Hl2 & E2); [by split; [apply Hs|]|done|done|done|].
  exists l2. split; [done|]. by erewrite bind_Ret by exact E2.
Qed.

(** *** Stores *)

(** Outcomes that differ in the thread's lookups only. *)
Definition same_but_lookups {A} (o1 o2 : outcome st A) : Prop :=
  match o1, o2 with
  | Ret x s1, Ret y s2 => x = y ∧ mm s1 = mm s2 ∧ bk s1 = bk s2
  | Exn e s1, Exn e' s2 => e = e' ∧ mm s1 = mm s2 ∧ bk s1 = bk s2
  | Undef, Undef => True
  | _, _ => False
  end.

Lemma ordinary_put m l a a' addr len : deref m l = Some a → same_shape a a' →
  ordinary (put_alloc m l a') addr len = ordinary m addr len.
Proof.
  intros Hl (Hs & _ & _ & _ & _ & Hc). destruct l as [b|id]; cbn in *; [|done]. unfold ordinary. cbn.
  rewrite (floor_insert_same (live_ m) b a a' addr Hl).
  destruct (floor_entry (live_ m) addr) as [[c x]|] eqn:E; [|done]. case_decide as Ec; [|done]. subst c.
  pose proof (floor_entry_spec (live_ m) addr) as Hf. rewrite E in Hf. destruct Hf as (Hb & _).
  replace x with a by congruence. by rewrite Hs, Hc.
Qed.

(** One lane of store_batch_in keeps the lanes good. *)
Lemma store_lane m b a size x v (k : B) (l0 : L) :
  mem_ok m → lookup_inv m l0 → live_ m !! b = Some a → scalar_size size = true → is_u64 x → good_lane m b size x →
  on_alloc (LiveAt b) (store_word (u64 (x - b)) size v) (mkSys m k l0) = on_alloc (LiveAt b) (store_word (x - b) size v) (mkSys m k l0) ∧
  wp (store_word (x - b) size v (a, k))
    (λ _ ab, wf_alloc (fst ab) ∧ same_shape a (fst ab)) (λ _ ab, wf_alloc (fst ab) ∧ same_shape a (fst ab)).
Proof.
  intros Hok Hl Hb Hsz Hx Hg.
  destruct (good_lane_word m b a size x k Hok Hb Hsz Hx Hg) as (? & ? & ? & -> & _). split; [done|].
  destruct (ti_live _ (proj1 Hok) _ _ Hb) as (Hwf & _). pose proof (size_le_extent a Hwf).
  eapply wp_mono; [apply (wp_store_word a (content a)); try done; first [by apply now_holds_refl|lia]|..].
  - intros [] ab (? & ? & _). done.
  - intros e ab (? & ? & _). done.
Qed.

Fixpoint store_each (size : Z) (lanes : list (Z * Z)) : M st unit :=
  match lanes with
  | [] => ret tt
  | (x, v) :: rest => store_scalar x size v ;;; store_each size rest
  end.

Lemma store_batch_in_each b size lanes i (s s' : st) :
  sys_ok s → sys_ok s' → mm s = mm s' → bk s = bk s' → scalar_size size = true → no_store_fault (mm s) →
  Forall is_u64 (fst <$> lanes) → Forall (good_lane (mm s) b size) (fst <$> lanes) →
  same_but_lookups (fst (store_batch_in b size i lanes s)) (store_each size lanes s') ∧
  match store_batch_in b size i lanes s with
  | (Exn _ _, Some j) => ∃ n, (n < length lanes)%nat ∧ j = i + Z.of_nat n ∧
      ∃ s1, store_each size (take n lanes) s' = Ret tt s1
  | (Ret _ _, None) => True
  | _ => False
  end.
Proof.
  revert i s s'. induction lanes as [|[x v] lanes IH]; intros i [m k l0] [m' k' l0'] Hs Hs'; cbn [mm bk];
    intros <- <- Hsz Hf Hu Hg; [done|].
  cbn [fmap list_fmap fst store_batch_in store_each] in *.
  apply Forall_cons in Hg as [Hgx Hg], Hu as [Hux Hu]. pose proof Hgx as (Ho & Hal & Hh).
  assert (Hsu : is_u64 size) by (apply scalar_size_cases in Hsz; unfold is_u64; lia).
  destruct Hs as [Hok Hl0]. cbn [mm lk] in Hok, Hl0.
  destruct (ordinary_live _ _ _ _ Hok Hux Hsu Ho) as (a & Hb & _).
  destruct (store_scalar_exact x size v (mkSys m k l0') Hs' Hux Hsz Hal Hh Hf) as (l1 & Hl1 & E1).
  cbn [mm bk lk] in *. rewrite (ordinary_resolve_slack _ _ _ _ false false Hok Hux Hsu Ho) in E1.
  destruct (store_lane m b a size x v k l0 Hok Hl0 Hb Hsz Hux Hgx) as [E2 Hw]. rewrite E2. clear E2.
  unfold on_alloc in *. cbn [mm bk lk deref] in *. rewrite Hb in *.
  destruct (store_word (x - b) size v (a, k)) as [[] [a' b']|e [a' b']|]; cbn [wp] in Hw; [| |done].
  - destruct Hw as [Hwf Hsh]. erewrite !bind_Ret by exact E1. cbn [fst snd] in *.
    assert (Hok1 : mem_ok (put_alloc m (LiveAt b) a')) by (by eapply put_alloc_ok).
    assert (Hrec := put_alloc_records m (LiveAt b) a a' Hb Hsh).
    destruct (IH (i + 1) (mkSys (put_alloc m (LiveAt b) a') b' l0)
      (mkSys (put_alloc m (LiveAt b) a') b' l1)) as [Hsim Hfail]; try done.
    + split; [done|]. cbn [mm lk]. by eapply lookup_inv_records.
    + split; [done|]. cbn [mm lk]. by eapply lookup_inv_records.
    + eapply Forall_impl; [exact Hg|]. intros y (? & ? & ?). split_and!; try done.
      cbn [mm]. by rewrite (ordinary_put m (LiveAt b) a a').
    + split; [done|]. destruct (store_batch_in _ _ _ _ _) as [[| |] [j|]]; try done.
      destruct Hfail as (n & Hn & -> & s1 & Hs1). exists (S n). cbn [length take store_each].
      split; [lia|]. split; [lia|]. exists s1. by erewrite bind_Ret by exact E1.
  - erewrite bind_Exn by exact E1. split; [done|]. exists 0%nat. cbn [length take store_each].
    split; [lia|]. split; [lia|]. by eexists.
Qed.

(** *** Broadcasts and sixteen-byte gathers *)

Lemma good_lane_here m b a size x :
  mem_ok m → live_ m !! b = Some a → is_u64 x → 0 < size → x + size ≤ b + a_size a → b ≤ x →
  ordinary m x size = Some b ∨ card_valid a ≠ 0.
Proof.
  intros Hok Hb Hx Hsz Hend Hle. destruct (decide (card_valid a = 0)) as [Hc|]; [left|by right].
  destruct (live_room m b a (proj1 Hok) Hb) as (? & ? & ?). unfold is_u64 in Hx.
  apply (lane_in m b a size x); try done; [lia|]. rewrite u64_small by (unfold is_u64; lia). lia.
Qed.

Lemma load_broadcast_spec addr count size hint (s : st) :
  sys_ok s → is_u64 addr → 0 ≤ count →
  ∃ r l', load_broadcast addr count size hint s = Ret r (mkSys (mm s) (bk s) l') ∧ lookup_inv (mm s) l' ∧
    (is_Some r → 0 < count ∧ scalar_size size = true ∧ no_load_fault (mm s)) ∧
    ∀ out, r = Some out → ∃ b, good_lane (mm s) b size addr ∧
      out = replicate (Z.to_nat count) (le_load (cell (mm s) (LiveAt b)) (addr - b) (Z.to_nat size)).
Proof.
  intros Hs Ha Hcount. pose proof Hs as [Hok Hlk]. unfold load_broadcast, get_mm, bind at 1.
  assert (Hnone : ∃ r l', ret None s = Ret r (mkSys (mm s) (bk s) l') ∧ lookup_inv (mm s) l' ∧
    (is_Some r → 0 < count ∧ scalar_size size = true ∧ no_load_fault (mm s)) ∧
    ∀ out : list Z, r = Some out → ∃ b, good_lane (mm s) b size addr ∧
      out = replicate (Z.to_nat count) (le_load (cell (mm s) (LiveAt b)) (addr - b) (Z.to_nat size))).
  { exists None, (lk s). split_and!; [by destruct s|done|by intros []|done]. }
  destruct ((count =? 0) || (32 <? count) || negb (scalar_size size) || negb (Z.land addr (size - 1) =? 0)) eqn:E; [done|].
  rewrite !orb_false_iff, !negb_false_iff, Z.eqb_neq, Z.eqb_eq in E. destruct E as [[[Hc0 _] Hsz] Hal].
  rewrite land_aligned in Hal by done.
  destruct (batch_faults_clear (mm s) false) eqn:Hf; [|done]. cbn [negb].
  assert (Hnf : no_load_fault (mm s)) by (unfold batch_faults_clear in Hf; by apply negb_true_iff, orb_false_iff in Hf).
  assert (Hsu : is_u64 size) by (apply scalar_size_cases in Hsz; unfold is_u64; lia).
  destruct (ordinary_lookup_spec addr size hint s Hs Ha Hsu) as (f & l' & Hfo & Hl' & Ho).
  erewrite bind_Ret by exact Hfo. destruct f as [b|]; [|exists None, l'; split_and!; try done; by intros []].
  destruct (ordinary_live _ _ _ _ Hok Ha Hsu (Ho b eq_refl)) as (a & Hb & _ & Hc & ? & ?). rewrite Hb.
  destruct (host_map_free_span (mm s) b (a_size a)) eqn:Hh; [|exists None, l'; split_and!; try done; by intros []].
  assert (Hg : good_lane (mm s) b size addr).
  { split_and!; [by apply Ho|done|]. destruct (live_room (mm s) b a (proj1 Hok) Hb) as (? & ? & ?).
    pose proof (padded_bounds (mm s) (a_size a) (ti_config _ (proj1 Hok))). unfold u64_max in *.
    eapply span_free; try done; unfold is_u64, u64_max; lia. }
  destruct (good_lane_word (mm s) b a size addr (bk s) Hok Hb Hsz Ha Hg) as (_ & _ & _ & _ & Hw). cbn [negb].
  erewrite bind_Ret by (by apply (on_alloc_look _ (mm s) (LiveAt b) a)).
  eexists _, l'. split_and!; try done; [intros _; split_and!; try done; lia|]. intros out [= <-]. by exists b.
Qed.

(** A sixteen-byte lane as two eight-byte ones. *)
Definition good_quad (m : MM) (b x : Z) : Prop := good_lane m b 8 x ∧ good_lane m b 8 (x + 8).

Lemma gather16_total m b a x (k : B) :
  mem_ok m → live_ m !! b = Some a → 16 ≤ a_size a →
  ∃ v, gather16_lane b (a_size a - 16 + 1) x (a, k) = Ret v (a, k) ∧
    (is_u64 x → good_quad m b x → x + 16 ≤ b + a_size a → (x - b) mod kChunkSize ≤ kChunkSize - 16 →
     v = (le_load (cell m (LiveAt b)) (x - b) 8, le_load (cell m (LiveAt b)) (x + 8 - b) 8)).
Proof.
  intros Hok Hb Hsize. destruct (ti_live _ (proj1 Hok) _ _ Hb) as (Hwf & Hpos & _).
  unfold gather16_lane. set (off := if _ <=? u64 (x - b) then 0 else u64 (x - b)).
  assert (Hoff : 0 ≤ off ∧ off < a_size a).
  { unfold off. pose proof (u64_range (x - b)). unfold is_u64 in *.
    destruct (Z.leb_spec (a_size a - 16 + 1) (u64 (x - b))); lia. }
  pose proof (size_le_extent a Hwf). destruct (wf_chunks _ Hwf) as (t & Ht & Hok').
  assert (Hi : 0 ≤ off / kChunkSize < chunk_count a) by (apply chunk_index_range; [done|lia]).
  erewrite bind_Ret by (by apply (chunk_at_ret (a, k) t)).
  set (ic := if _ <? off mod kChunkSize then 0 else off mod kChunkSize).
  pose proof (Z.mod_pos_bound off kChunkSize ltac:(done)) as Hmb.
  assert (Hic : 0 ≤ ic ≤ kChunkSize - 16).
  { unfold ic. destruct (Z.ltb_spec (kChunkSize - 16) (off mod kChunkSize)); unfold kChunkSize in *; lia. }
  assert (Hgood : is_u64 x → good_quad m b x → x + 16 ≤ b + a_size a → (x - b) mod kChunkSize ≤ kChunkSize - 16 →
    off = x - b ∧ ic = (x - b) mod kChunkSize ∧ (x - b) mod 8 = 0 ∧ (x + 8 - b) / kChunkSize = off / kChunkSize ∧
    (x + 8 - b) mod kChunkSize = ic + 8 ∧
    slot_value (t !! (off / kChunkSize)) (x - b) 8 = le_load (cell m (LiveAt b)) (x - b) 8 ∧
    slot_value (t !! (off / kChunkSize)) (x + 8 - b) 8 = le_load (cell m (LiveAt b)) (x + 8 - b) 8).
  { intros Hx [Hg1 Hg2] Hend Hin. assert (Hx8 : is_u64 (x + 8)).
    { destruct Hg2 as (Ho2 & _). destruct (live_room m b a (proj1 Hok) Hb) as (? & ? & ?).
      pose proof (padded_bounds m (a_size a) (ti_config _ (proj1 Hok))). unfold is_u64, u64_max in *. lia. }
    destruct (good_lane_word m b a 8 x k Hok Hb eq_refl Hx Hg1) as (? & ? & Hm1 & Hu & _).
    destruct (good_lane_word m b a 8 (x + 8) k Hok Hb eq_refl Hx8 Hg2) as (? & ? & Hm2 & _).
    assert (off = x - b) as E by (unfold off; rewrite Hu; destruct (Z.leb_spec (a_size a - 16 + 1) (x - b)); lia).
    assert (ic = (x - b) mod kChunkSize) as Eic.
    { unfold ic. rewrite E. destruct (Z.ltb_spec (kChunkSize - 16) ((x - b) mod kChunkSize)); lia. }
    assert (Hidx : (x + 8 - b) / kChunkSize = off / kChunkSize ∧ (x + 8 - b) mod kChunkSize = ic + 8).
    { rewrite Eic, E. pose proof (chunk_base (x - b)). rewrite E in Hmb. unfold kChunkSize in *.
      split; symmetry; [apply (Z.div_unique_pos _ _ _ ((x - b) mod 65536 + 8))|apply (Z.mod_unique_pos _ _ ((x - b) / 65536))]; lia. }
    destruct Hidx as [Hidx Hmod].
    destruct (slot_value_cells a t (x - b) 8 k Hwf Ht eq_refl) as (_ & _ & Hv1); [lia|done|lia|].
    destruct (slot_value_cells a t (x + 8 - b) 8 k Hwf Ht eq_refl) as (_ & _ & Hv2); [lia|done|lia|].
    rewrite Hidx in Hv2. rewrite <- E in Hv1 at 1.
    split_and!; try done; [rewrite Hv1|rewrite Hv2]; apply le_load_ext; intros i _; unfold cell; cbn; by rewrite Hb. }
  destruct (t !! (off / kChunkSize)) as [[u|p f]|] eqn:Hc; unfold ret.
  - eexists. split; [done|]. intros Hx Hg He Hin. destruct (Hgood Hx Hg He Hin) as (_ & _ & _ & _ & _ & <- & <-). done.
  - change 7 with (8 - 1). rewrite lane_word_at by (done || lia). pose proof (Z.mod_pos_bound ic 8 ltac:(lia)).
    destruct (Z.leb_spec (ic - ic mod 8 + 16) kChunkSize); [|lia].
    eexists. split; [done|]. intros Hx Hg He Hin. destruct (Hgood Hx Hg He Hin) as (E & Eic & Hm & _ & Hmod & <- & <-).
    assert (Hm8 : ic mod 8 = 0).
    { rewrite Eic. apply Z.mod_divide in Hm as [q Hq]; [|lia]. rewrite Hq. unfold kChunkSize.
      change 65536 with (8192 * 8). rewrite Z.mul_mod_distr_r by lia. apply Z_mod_mult. }
    rewrite Hm8, Z.sub_0_r. unfold slot_value. assert (Hf : ∀ j, is_byte (f j)) by (by destruct (Hok' _ _ Hc)).
    rewrite !load_at_le_load by done. rewrite Hmod, <- Eic. done.
  - eexists. split; [done|]. intros Hx Hg He Hin. destruct (Hgood Hx Hg He Hin) as (_ & _ & _ & _ & _ & <- & <-). done.
Qed.
Lemma accepted_quad m b a x :
  mem_ok m → live_ m !! b = Some a → card_valid a = 0 → host_map_free_span m b (a_size a) = true → is_u64 x →
  x mod 8 = 0 → u64 (x - b) < a_size a - 16 + 1 →
  good_quad m b x ∧ x + 16 ≤ b + a_size a ∧ u64 (x - b) = x - b.
Proof.
  intros Hok Hb Hc Hh Hx Hal Hlt.
  destruct (lane_in m b a 16 x Hok Hb Hc Hx ltac:(lia) Hlt) as (_ & Hu & ? & ?).
  destruct (live_room m b a (proj1 Hok) Hb) as (? & ? & ?).
  pose proof (padded_bounds m (a_size a) (ti_config _ (proj1 Hok))). unfold u64_max, is_u64 in *.
  assert (Hone : ∀ y, is_u64 y → y mod 8 = 0 → b ≤ y → y + 8 ≤ b + a_size a → good_lane m b 8 y).
  { intros y Hy Hy8 ? ?. unfold is_u64 in Hy. split_and!; [|done|].
    - apply (lane_in m b a 8 y); try done. rewrite u64_small by (unfold is_u64; lia). lia.
    - eapply span_free; try done; unfold is_u64, u64_max; lia. }
  split_and!; try done. split; apply Hone; try done; try (unfold is_u64; lia); try lia.
  rewrite <- Z.add_mod_idemp_l, Hal by lia. done.
Qed.

(** The two words of a sixteen-byte lane of the allocation at [b]. *)
Definition quad_at (m : MM) (b x : Z) : Z * Z :=
  (le_load (cell m (LiveAt b)) (x - b) 8, le_load (cell m (LiveAt b)) (x + 8 - b) 8).

Lemma gather16_lanes m b a addrs vs (k : B) :
  mem_ok m → live_ m !! b = Some a → card_valid a = 0 → host_map_free_span m b (a_size a) = true →
  Forall is_u64 addrs → Forall (λ x, x mod 8 = 0 ∧ u64 (x - b) < a_size a - 16 + 1) addrs →
  existsb (crosses16 b (a_size a - 16 + 1)) addrs = false →
  Forall2 (λ x v, is_u64 x → good_quad m b x → x + 16 ≤ b + a_size a → (x - b) mod kChunkSize ≤ kChunkSize - 16 →
     v = quad_at m b x) addrs vs →
  Forall (good_quad m b) addrs ∧ vs = quad_at m b <$> addrs.
Proof.
  intros Hok Hb Hc Hh Hu Hin Hcr Hp. induction Hp as [|x v xs vs Hv Hp IH]; [done|].
  apply Forall_cons in Hu as [Hux Hu], Hin as [[Hal Hlt] Hin]. cbn in Hcr. apply orb_false_iff in Hcr as [Hcx Hcr].
  destruct (accepted_quad m b a x Hok Hb Hc Hh Hux Hal Hlt) as (Hg & Hend & Hxu).
  destruct (IH Hu Hin Hcr) as [HG ->]. split; [by constructor|]. cbn [fmap list_fmap]. f_equal.
  apply Hv; try done. unfold crosses16 in Hcx. destruct (Z.leb_spec (a_size a - 16 + 1) (u64 (x - b))); [lia|].
  rewrite Hxu in Hcx. apply Z.ltb_ge in Hcx. lia.
Qed.

Lemma load_batch16_spec addrs hint (s : st) :
  sys_ok s → Forall is_u64 addrs →
  ∃ r l', load_batch16 addrs hint s = Ret r (mkSys (mm s) (bk s) l') ∧ lookup_inv (mm s) l' ∧
    ∀ out, r = Some out → no_load_fault (mm s) ∧
      ∃ b, Forall (good_quad (mm s) b) addrs ∧ out = quad_at (mm s) b <$> addrs.
Proof.
  intros Hs Hu. pose proof Hs as [Hok Hlk]. unfold load_batch16, get_mm, bind at 1.
  assert (Hnone : ∃ r l', @ret st _ None s = Ret r (mkSys (mm s) (bk s) l') ∧ lookup_inv (mm s) l' ∧
    ∀ out, r = Some out → no_load_fault (mm s) ∧
      ∃ b, Forall (good_quad (mm s) b) addrs ∧ out = quad_at (mm s) b <$> addrs).
  { exists None, (lk s). split_and!; [by destruct s|done|done]. }
  destruct addrs as [|a0 rest]; [done|]. destruct (64 <? Z.of_nat (length (a0 :: rest))); [done|].
  destruct (batch_faults_clear (mm s) false) eqn:Hf; [|done]. cbn [negb].
  assert (Hnf : no_load_fault (mm s)) by (unfold batch_faults_clear in Hf; by apply negb_true_iff, orb_false_iff in Hf).
  assert (Hsu : is_u64 16) by (unfold is_u64; lia).
  destruct (ordinary_lookup_spec a0 16 hint s Hs (Forall_inv Hu) Hsu) as (f & l' & Hfo & Hl' & Ho).
  erewrite bind_Ret by exact Hfo. destruct f as [b|]; [|by exists None, l'].
  destruct (ordinary_live _ _ _ _ Hok (Forall_inv Hu) Hsu (Ho b eq_refl)) as (a & Hb & _ & Hc & ? & ?). rewrite Hb.
  destruct (host_map_free_span (mm s) b (a_size a)) eqn:Hh; [|by exists None, l']. cbn [negb].
  destruct (traverse_total (gather16_lane b (a_size a - 16 + 1)) (a0 :: rest) (a, bk s)
    (λ x v, is_u64 x → good_quad (mm s) b x → x + 16 ≤ b + a_size a →
      (x - b) mod kChunkSize ≤ kChunkSize - 16 → v = quad_at (mm s) b x)) as (vs & Ht & Hp).
  { intros x. apply gather16_total; try done. lia. }
  erewrite bind_Ret by (by apply (on_alloc_look _ (mm s) (LiveAt b) a)).
  pose proof (lane_tests_spec b (a_size a - 16 + 1) (a0 :: rest) 8 eq_refl) as Hl. change (8 - 1) with 7 in Hl.
  destruct (lane_tests _ _ _) as [bits outside]. eexists _, l'. split_and!; [done|done|].
  destruct (negb (Z.land bits 7 =? 0) || outside); [done|]. cbn [orb].
  destruct (existsb _ _) eqn:Hcr; [done|]. intros out [= <-]. split; [done|]. exists b.
  destruct (gather16_lanes (mm s) b a (a0 :: rest) vs (bk s)) as [? ->]; try done. by apply Hl.
Qed.
End batch_specs.
