(* ===== verification/Strided.v ===== *)
(** * Strided stores and batches in host mappings (src/core/memory.cpp)

    store_strided writes the lanes of an arithmetic progression of addresses,
    a chunk at a time; host_load_batch and host_store_batch are a warp's accesses
    to one mapped host buffer. *)

From S2P Require Import Prelude Chunks HostMaps BrLock MemState MemTable Vmm VmmRange Resolve Lookup Access Batch.

(** ** Operations *)

(** store_strided's inner loop: the lanes that stay in one real chunk. The bytes
    of the chunk, and the values left. *)
Fixpoint strided_chunk (p : Z) (f : Z → Z) (io stride size : Z) (vals : list Z) : option ((Z → Z) * list Z) :=
  match vals with
  | [] => Some (f, [])
  | v :: rest =>
      if io + size <=? kChunkSize then
        let f' := store_at p f io size v in
        let io' := u64 (io + stride) in
        match rest with
        | [] => Some (f', [])
        | _ => if io' <? kChunkSize then strided_chunk p f' io' stride size rest else Some (f', rest)
        end
      else None
  end.

Section strided.
Context {B : Type} `{HostBacking B} {L : Type} `{OrdinaryLookup L}.
Local Abbreviation st := (Sys B L).
Local Abbreviation ast := (Allocation * B)%type.

(** store_strided's outer loop: the outcome, and [*failed_at]. *)
Fixpoint strided_loop (fuel : nat) (off0 stride size l : Z) (vals : list Z) (ab : ast) :
    outcome ast unit * option Z :=
  match vals, fuel with
  | [], _ => (Ret tt ab, None)
  | _, O => (Undef, None)
  | v :: rest, S fuel' =>
      let off := u64 (off0 + u64 stride * l) in
      let idx := off / kChunkSize in
      let io := off mod kChunkSize in
      match chunk_at idx ab with
      | Ret (Some (Real p f)) _ =>
          match strided_chunk p f io stride size vals with
          | None => (Undef, None)
          | Some (f', todo) =>
              match chunk_store idx (Some (Real p f')) ab with
              | Ret _ ab' =>
                  strided_loop fuel' off0 stride size (l + Z.of_nat (length vals - length todo)) todo ab'
              | _ => (Undef, None)
              end
          end
      | Ret c _ =>
          match (if match c with Some (Uniform u) => v =? repeated u size | _ => false end then ret tt
                 else materialize idx ;;; chunk_update idx io size (λ p f, store_at p f io size v)) ab with
          | Ret _ ab' => strided_loop fuel' off0 stride size (l + 1) rest ab'
          | Exn e ab' => (Exn e ab', Some l)
          | Undef => (Undef, None)
          end
      | _ => (Undef, None)
      end
  end.

(** MemoryManager::store_strided *)
Definition store_strided (a0 stride : Z) (vals : list Z) (size : Z) (hint : option Z) (s : st) :
    outcome st bool * option Z :=
  let count := Z.of_nat (length vals) in
  let kHalf := kChunkSize / 2 in
  if (count <? 2) || (32 <? count) || negb (scalar_size size) || (kHalf <? stride) || (stride <? - kHalf)
  then (Ret false s, None) else
  if negb (Z.land (Z.lor a0 (u64 stride)) (size - 1) =? 0) then (Ret false s, None) else
  if negb (batch_faults_clear (mm s) true) then (Ret false s, None) else
  match ordinary_lookup a0 size hint s with
  | Ret (Some b) s' =>
      match live_ (mm s) !! b with
      | None => (Undef, None)
      | Some a =>
          if negb (host_map_free_span (mm s) b (a_size a)) then (Ret false s', None) else
          let limit := a_size a - size + 1 in
          let off0 := a0 - b in
          if limit <=? u64 (off0 + u64 stride * (count - 1)) then (Ret false s', None) else
          match strided_loop (length vals) off0 stride size 0 vals (a, bk s') with
          | (Ret _ ab, f) => (Ret true (mkSys (put_alloc (mm s') (LiveAt b) (fst ab)) (snd ab) (lk s')), f)
          | (Exn e ab, f) => (Exn e (mkSys (put_alloc (mm s') (LiveAt b) (fst ab)) (snd ab) (lk s')), f)
          | (Undef, f) => (Undef, f)
          end
      end
  | Ret None s' => (Ret false s', None)
  | Exn e s' => (Exn e s', None)
  | Undef => (Undef, None)
  end.

(** MemoryManager::host_batch_hit *)
Definition host_batch_hit (m : MM) (addrs : list Z) (size : Z) (store : bool) : option HostHit :=
  match addrs with
  | [] => None
  | a0 :: _ =>
      if negb (scalar_size size) then None else
      match host_hit m a0 size with
      | None => None
      | Some h =>
          if store && hh_read_only h then None else
          let '(bits, outside) := lane_tests (hh_base h) (u64 (hh_len h - size + 1)) addrs in
          if negb (negb (Z.land bits (size - 1) =? 0) || outside) then Some h else None
      end
  end.

(** MemoryManager::host_load_batch *)
Definition host_load_batch (addrs : list Z) (size : Z) : M st (option (list Z)) :=
  m <- get_mm ;;
  match host_batch_hit m addrs size false with
  | None => ret None
  | Some h => out <- traverse (λ x, host_load (hh_host h + u64 (x - hh_base h)) size) addrs ;; ret (Some out)
  end.

(** MemoryManager::host_store_batch *)
Fixpoint host_store_lanes (h : HostHit) (size : Z) (lanes : list (Z * Z)) : M st unit :=
  match lanes with
  | [] => ret tt
  | (x, v) :: rest =>
      host_store_word (hh_host h + u64 (x - hh_base h)) size v ;;; host_store_lanes h size rest
  end.
Definition host_store_batch (lanes : list (Z * Z)) (size : Z) : M st bool :=
  m <- get_mm ;;
  match host_batch_hit m (fst <$> lanes) size true with
  | None => ret false
  | Some h => host_store_lanes h size lanes ;;; ret true
  end.

(** MemoryManager::batch_load and batch_store, through a window of batch_window. *)
Definition batch_load (window : Z) (addrs : list Z) (size : Z) : M st (list Z) := load_batch_in window addrs size.
Definition batch_store (window : Z) (lanes : list (Z * Z)) (size : Z) (s : st) : outcome st unit * option Z :=
  store_batch_in window size 0 lanes s.

(** The lanes of a strided access, and their stores one by one in the allocation. *)
Fixpoint lanes (off stride : Z) (vals : list Z) : list (Z * Z) :=
  match vals with
  | [] => []
  | v :: rest => (off, v) :: lanes (off + stride) stride rest
  end.
Fixpoint store_offs (size i : Z) (l : list (Z * Z)) (ab : ast) : outcome ast unit * option Z :=
  match l with
  | [] => (Ret tt ab, None)
  | (off, v) :: rest =>
      match store_word off size v ab with
      | Ret _ ab' => store_offs size (i + 1) rest ab'
      | Exn e ab' => (Exn e ab', Some i)
      | Undef => (Undef, None)
      end
  end.
End strided.

(** ** store_strided is the stores of its lanes *)

Section strided_specs.
Context {B : Type} `{HostBacking B} {L : Type} `{OrdinaryLookupOk L}.
Local Abbreviation st := (Sys B L).
Local Abbreviation ast := (Allocation * B)%type.

(** The lanes at [off], [off + stride], ... are aligned and inside [0, n). *)
Definition lanes_in (n off stride size : Z) (vals : list Z) : Prop :=
  ∀ i, 0 ≤ i < Z.of_nat (length vals) →
    0 ≤ off + stride * i ∧ off + stride * i + size ≤ n ∧ (off + stride * i) mod size = 0.

Lemma lanes_in_tail n off stride size v vals :
  lanes_in n off stride size (v :: vals) → lanes_in n (off + stride) stride size vals.
Proof.
  intros Hl i Hi. replace (off + stride + stride * i) with (off + stride * (i + 1)) by lia.
  apply Hl. cbn [length]. lia.
Qed.

Lemma lanes_in_head n off stride size v vals :
  lanes_in n off stride size (v :: vals) → 0 ≤ off ∧ off + size ≤ n ∧ off mod size = 0.
Proof. intros Hl. specialize (Hl 0 ltac:(cbn [length]; lia)). by rewrite Z.mul_0_r, Z.add_0_r in Hl. Qed.

Lemma same_chunk off stride : 0 ≤ off → 0 ≤ off mod kChunkSize + stride < kChunkSize →
  (off + stride) / kChunkSize = off / kChunkSize ∧ (off + stride) mod kChunkSize = off mod kChunkSize + stride.
Proof.
  intros Ho Hin. pose proof (chunk_base off). split; symmetry.
  - apply (Z.div_unique_pos _ _ _ (off mod kChunkSize + stride)); lia.
  - apply (Z.mod_unique_pos _ _ (off / kChunkSize)); lia.
Qed.

(** A store in a real chunk only changes its bytes. *)
Lemma store_word_real a t off size v p f (k : B) :
  chunks a = Some t → t !! (off / kChunkSize) = Some (Real p f) → 0 ≤ off / kChunkSize < chunk_count a →
  off mod kChunkSize + size ≤ kChunkSize →
  store_word off size v (a, k) =
    Ret tt (set_chunks a (<[off / kChunkSize := Real p (store_at p f (off mod kChunkSize) size v)]> t), k).
Proof.
  intros Ht Hc Hi Hin. unfold store_word.
  assert (Hat : chunk_at (off / kChunkSize) (a, k) = Ret (Some (Real p f)) (a, k)).
  { rewrite (chunk_at_ret (a, k) t) by done. by rewrite Hc. }
  erewrite bind_Ret by exact Hat. cbn [materialize_if_not_real]. unfold chunk_update.
  erewrite bind_Ret by done. erewrite bind_Ret by exact Hat.
  pose proof (Z.mod_pos_bound off kChunkSize ltac:(done)).
  destruct (Z.leb_spec 0 (off mod kChunkSize)); [|lia].
  destruct (Z.leb_spec (off mod kChunkSize + size) kChunkSize); [|lia]. cbn [andb].
  unfold chunk_store. cbn [fst snd]. rewrite Ht.
  destruct (Z.leb_spec 0 (off / kChunkSize)); [|lia]. by destruct (Z.ltb_spec (off / kChunkSize) (chunk_count a)); [|lia].
Qed.

(** The lanes a chunk takes, and the others later. *)
Lemma strided_chunk_spec size stride vals : scalar_size size = true → - (kChunkSize / 2) ≤ stride ≤ kChunkSize / 2 →
  ∀ a t p f off i (k : B), chunks a = Some t → t !! (off / kChunkSize) = Some (Real p f) →
  lanes_in (extent a) off stride size vals → vals ≠ [] →
  ∃ f' todo, strided_chunk p f (off mod kChunkSize) stride size vals = Some (f', todo) ∧
    (length todo < length vals)%nat ∧
    store_offs size i (lanes off stride vals) (a, k) =
      store_offs size (i + Z.of_nat (length vals - length todo))
        (lanes (off + stride * Z.of_nat (length vals - length todo)) stride todo)
        (set_chunks a (<[off / kChunkSize := Real p f']> t), k) ∧
    ∃ done, vals = done ++ todo.
Proof.
  intros Hsz Hst. induction vals as [|v vals IH]; intros a t p f off i k Ht Hc Hl Hne; [done|].
  destruct (lanes_in_head _ _ _ _ _ _ Hl) as (Ho0 & Hend & Hal). cbn [strided_chunk lanes store_offs].
  assert (Hin : off mod kChunkSize + size ≤ kChunkSize) by (by apply aligned_in_chunk).
  assert (1 ≤ size) by (apply scalar_size_cases in Hsz; lia).
  assert (Hi : 0 ≤ off / kChunkSize < chunk_count a).
  { unfold extent in Hend. split; [by apply Z.div_pos|]. apply Z.div_lt_upper_bound; [done|].
    rewrite Z.mul_comm. lia. }
  rewrite (store_word_real a t off size v p f k) by done.
  destruct (Z.leb_spec (off mod kChunkSize + size) kChunkSize); [|lia].
  set (f1 := store_at p f (off mod kChunkSize) size v).
  assert (Hstop : ∃ f' todo, Some (f1, vals) = Some (f', todo) ∧ (length todo < length (v :: vals))%nat ∧
    store_offs size (i + 1) (lanes (off + stride) stride vals) (set_chunks a (<[off / kChunkSize := Real p f1]> t), k) =
      store_offs size (i + Z.of_nat (length (v :: vals) - length todo))
        (lanes (off + stride * Z.of_nat (length (v :: vals) - length todo)) stride todo)
        (set_chunks a (<[off / kChunkSize := Real p f']> t), k) ∧ ∃ done, v :: vals = done ++ todo).
  { exists f1, vals. split_and!; [done|cbn [length]; lia| |by exists [v]].
    replace (length (v :: vals) - length vals)%nat with 1%nat by (cbn [length]; lia).
    change (Z.of_nat 1) with 1. by rewrite Z.mul_1_r. }
  destruct vals as [|w vals]; [done|].
  destruct (Z.ltb_spec (u64 (off mod kChunkSize + stride)) kChunkSize) as [Hlt|]; [|done].
  pose proof (Z.mod_pos_bound off kChunkSize ltac:(done)) as Hmb.
  assert (Hk : kChunkSize = 65536 ∧ kChunkSize / 2 = 32768) by done.
  assert (0 ≤ off mod kChunkSize + stride < kChunkSize) as Hio.
  { destruct (Z.leb_spec 0 (off mod kChunkSize + stride)).
    - rewrite u64_small in Hlt by (unfold is_u64; lia). lia.
    - rewrite u64_neg in Hlt by lia. lia. }
  destruct (same_chunk off stride Ho0 Hio) as [Hd Hm]. rewrite u64_small by (unfold is_u64; lia).
  rewrite <- Hm.
  destruct (IH (set_chunks a (<[off / kChunkSize := Real p f1]> t)) (<[off / kChunkSize := Real p f1]> t) p f1
    (off + stride) (i + 1) k) as (f' & todo & E1 & Hlen & E2 & dn & Hdn).
  { done. } { by rewrite Hd, lookup_insert_eq. } { by apply (lanes_in_tail _ _ _ _ v). } { done. }
  exists f', todo. split_and!; [done|cbn [length] in *; lia| |exists (v :: dn); by rewrite Hdn].
  rewrite E2, Hd, insert_insert_eq.
  replace (length (v :: w :: vals) - length todo)%nat with (S (length (w :: vals) - length todo)) by (cbn [length] in *; lia).
  rewrite Nat2Z.inj_succ, <- Z.add_1_l. f_equal; [lia|f_equal; lia].
Qed.

(** A store keeps the array and its length. *)
Definition has_table (n : Z) (a : Allocation) : Prop := is_Some (chunks a) ∧ chunk_count a = n.

Lemma chunk_store_table idx c (s s' : ast) u n :
  chunk_store idx c s = Ret u s' → has_table n (fst s) → has_table n (fst s').
Proof.
  unfold chunk_store. intros E [[t Ht] Hn]. rewrite Ht in E. destruct (_ && _); [|done].
  injection E as <- <-. split; [by eexists|done].
Qed.

Lemma store_word_table off size v (s s' : ast) u n :
  store_word off size v s = Ret u s' → has_table n (fst s) → has_table n (fst s').
Proof.
  assert (Hat : ∀ i (s0 s1 : ast) c, chunk_at i s0 = Ret c s1 → s1 = s0).
  { unfold chunk_at. intros i s0 s1 c E. destruct (chunks (fst s0)); [|done]. destruct (_ && _); [|done]. by injection E. }
  unfold store_word. intros E Ht.
  apply bind_Ret_inv in E as (c & s1 & E1 & E). apply Hat in E1 as ->.
  destruct (match c with Some (Uniform w) => _ | _ => _ end); [by injection E as <- <-|].
  apply bind_Ret_inv in E as ([] & s1 & E1 & E). apply bind_Ret_inv in E as (c2 & s2 & E2 & E).
  apply Hat in E2 as ->.
  assert (Ht1 : has_table n (fst s1)).
  { destruct c as [[w|p f]|]; cbn [materialize_if_not_real] in E1; [|by injection E1 as <-|];
      apply bind_Ret_inv in E1 as (c1 & s3 & E3 & E1); apply Hat in E3 as ->;
      (destruct c1 as [[w1|p1 f1]|]; [|by injection E1 as <-|]);
      destruct (acquire (snd s)) as [[p|e] b']; try done; by eapply chunk_store_table in E1. }
  destruct c2 as [[w|p f]|]; [done| |done]. destruct (_ && _); [|done]. by eapply chunk_store_table in E.
Qed.

Lemma lanes_in_skip n off stride size done vals : lanes_in n off stride size (done ++ vals) →
  lanes_in n (off + stride * Z.of_nat (length done)) stride size vals.
Proof.
  intros Hl i Hi. replace (off + stride * Z.of_nat (length done) + stride * i)
    with (off + stride * (Z.of_nat (length done) + i)) by lia.
  apply Hl. rewrite length_app. lia.
Qed.

Lemma strided_loop_spec n off0 stride size : scalar_size size = true → - (kChunkSize / 2) ≤ stride ≤ kChunkSize / 2 →
  n * kChunkSize ≤ u64_max →
  ∀ fuel vals l a (k : B), (length vals ≤ fuel)%nat → has_table n a →
  lanes_in (n * kChunkSize) (off0 + stride * l) stride size vals →
  strided_loop fuel off0 stride size l vals (a, k) = store_offs size l (lanes (off0 + stride * l) stride vals) (a, k).
Proof.
  intros Hsz Hst Hn. induction fuel as [|fuel IH]; intros vals l a k Hfuel Htab Hl.
  { destruct vals; [done|cbn [length] in Hfuel; lia]. }
  destruct vals as [|v vals]; [done|]. destruct (lanes_in_head _ _ _ _ _ _ Hl) as (Ho0 & Hend & Hal).
  cbn [strided_loop]. rewrite u64_add_mul.
  assert (1 ≤ size) by (apply scalar_size_cases in Hsz; lia).
  rewrite u64_small by (unfold is_u64, u64_max in *; lia). set (off := off0 + stride * l) in *.
  assert (Hi : 0 ≤ off / kChunkSize < n).
  { split; [by apply Z.div_pos|]. apply Z.div_lt_upper_bound; [done|]. rewrite Z.mul_comm. lia. }
  destruct Htab as [[t Ht] Hc]. rewrite (chunk_at_ret (a, k) t) by (cbn [fst]; done || lia).
  assert (Hnext : l + 1 = l + 1 → off0 + stride * (l + 1) = off + stride) by (unfold off; lia).
  destruct (t !! (off / kChunkSize)) as [[w|p f]|] eqn:Eslot.
  2:{ destruct (strided_chunk_spec size stride (v :: vals) Hsz Hst a t p f off l k) as (f' & todo & E1 & Hlen & E2 & dn & Hdn);
        try done; [by unfold extent; rewrite Hc|]. rewrite E1. unfold chunk_store. cbn [fst snd]. rewrite Ht.
      destruct (Z.leb_spec 0 (off / kChunkSize)); [|lia].
      destruct (Z.ltb_spec (off / kChunkSize) (chunk_count a)); [|lia]. cbn [andb].
      assert (Hdl : (length (v :: vals) - length todo = length dn)%nat) by (rewrite Hdn, length_app; lia).
      rewrite E2, Hdl. rewrite IH.
      - replace (off0 + stride * (l + Z.of_nat (length dn))) with (off + stride * Z.of_nat (length dn)) by (unfold off; lia). done.
      - cbn [length] in *. lia.
      - split; [by eexists|done].
      - replace (off0 + stride * (l + Z.of_nat (length dn))) with (off + stride * Z.of_nat (length dn)) by (unfold off; lia).
        apply lanes_in_skip. by rewrite <- Hdn. }
  all: cbn [lanes store_offs].
  all: pose proof (λ s' u, store_word_table off size v (a, k) s' u n) as Hkeep.
  all: unfold store_word in Hkeep |- *; rewrite (bind_Ret (chunk_at _) _ (a, k) (t !! (off / kChunkSize)) (a, k)) in Hkeep |- *
         by (apply (chunk_at_ret (a, k) t); cbn [fst]; done || lia); rewrite Eslot in Hkeep |- *; cbn [materialize_if_not_real] in Hkeep |- *.
  all: match goal with |- context [match ?op with Ret _ _ => _ | Exn _ _ => _ | Undef => _ end] => destruct op as [u [a' k']|e s'|] eqn:E end;
       try done.
  all: rewrite IH; [by rewrite Hnext| cbn [length] in *; lia | by apply (Hkeep _ u eq_refl); split; [eexists|] |
    rewrite Hnext by done; by eapply lanes_in_tail].
Qed.

(** store_batch_in, on the allocation alone. *)
Definition with_alloc {A} (m : MM) (b : Z) (l0 : L) (r : outcome ast A * option Z) : outcome st A * option Z :=
  match r with
  | (Ret x ab, f) => (Ret x (mkSys (put_alloc m (LiveAt b) (fst ab)) (snd ab) l0), f)
  | (Exn e ab, f) => (Exn e (mkSys (put_alloc m (LiveAt b) (fst ab)) (snd ab) l0), f)
  | (Undef, f) => (Undef, f)
  end.

Lemma store_batch_in_offs m b size (l0 : L) ls : ∀ i a (k : B), live_ m !! b = Some a →
  store_batch_in b size i ls (mkSys m k l0) =
    with_alloc m b l0 (store_offs size i (prod_map (λ x, u64 (x - b)) id <$> ls) (a, k)).
Proof.
  revert m. induction ls as [|[x v] ls IH]; intros m i a k Hb.
  { cbn. f_equal. f_equal. f_equal. symmetry. by apply (put_alloc_same m (LiveAt b) a). }
  cbn [fmap list_fmap store_batch_in store_offs prod_map fst snd id]. unfold on_alloc. cbn [mm bk lk deref]. rewrite Hb.
  destruct (store_word (u64 (x - b)) size v (a, k)) as [[] [a1 k1]|e [a1 k1]|]; [|done|done]. cbn [fst snd].
  rewrite (IH _ (i + 1) a1 k1) by (cbn; by rewrite lookup_insert_eq). unfold with_alloc.
  destruct (store_offs _ _ _ _) as [[[] [a2 k2]|e [a2 k2]|] j]; cbn [fst snd];
    by rewrite ?(put_alloc_twice m (LiveAt b) a a1 a2 Hb).
Qed.

Lemma lanes_fst off stride vals : fst <$> lanes off stride vals = (λ i, off + stride * i) <$> seqZ 0 (Z.of_nat (length vals)).
Proof.
  revert off. induction vals as [|v vals IH]; intros off; [done|]. cbn [lanes fmap list_fmap length].
  rewrite IH, Nat2Z.inj_succ, (seqZ_cons 0 (Z.succ _)) by lia. cbn [fmap list_fmap]. f_equal; [by rewrite Z.mul_0_r, Z.add_0_r|].
  rewrite Z.pred_succ. change (Z.succ 0) with (1 + 0). rewrite <- (fmap_add_seqZ 1 0), <- list_fmap_compose.
  apply list_fmap_ext. intros _ i _. cbn. lia.
Qed.

Lemma strided_aligned a0 stride size i : scalar_size size = true →
  Z.land (Z.lor a0 (u64 stride)) (size - 1) = 0 → a0 mod size = 0 ∧ (a0 + stride * i) mod size = 0.
Proof.
  intros Hsz. rewrite Z.land_lor_distr_l, Z.lor_eq_0_iff, !land_aligned by done. intros [Ha Hs].
  split; [done|]. assert (0 < size) by (apply scalar_size_cases in Hsz; lia).
  assert (Hs' : stride mod size = 0).
  { rewrite <- Hs. unfold u64. symmetry. apply Z.mod_mod_divide.
    apply scalar_size_cases in Hsz as [->|[->|[->| ->]]];
      [exists 18446744073709551616|exists 9223372036854775808|exists 4611686018427387904|exists 2305843009213693952]; done. }
  rewrite Zplus_mod, Zmult_mod, Ha, Hs', Z.mul_0_l, Z.mod_0_l by lia. done.
Qed.

(** Both ends are inside, so every lane is. *)
Lemma strided_ends A stride count limit i :
  0 ≤ A < limit → limit ≤ 18446708889337462784 → 2 ≤ count ≤ 32 → - (kChunkSize / 2) ≤ stride ≤ kChunkSize / 2 →
  u64 (A + u64 stride * (count - 1)) < limit → 0 ≤ i < count → 0 ≤ A + stride * i < limit.
Proof.
  change (kChunkSize / 2) with 32768. intros HA Hlim Hc Hs Hend Hi. rewrite u64_add_mul in Hend.
  assert (-1048576 ≤ stride * (count - 1) ≤ 1048576) by nia.
  assert (Hend' : 0 ≤ A + stride * (count - 1) < limit).
  { destruct (Z.leb_spec 0 (A + stride * (count - 1))).
    - rewrite u64_small in Hend by (unfold is_u64; lia). lia.
    - rewrite u64_neg in Hend by lia. lia. }
  destruct (Z.leb_spec 0 stride); nia.
Qed.

Lemma lanes_offs b stride vals : ∀ off, (∀ i, 0 ≤ i < Z.of_nat (length vals) → is_u64 (off - b + stride * i)) →
  prod_map (λ x, u64 (x - b)) id <$> lanes off stride vals = lanes (off - b) stride vals.
Proof.
  induction vals as [|v vals IH]; intros off Hu; [done|]. cbn [lanes fmap list_fmap prod_map fst snd id].
  pose proof (Hu 0 ltac:(cbn [length]; lia)) as Hu0. rewrite Z.mul_0_r, Z.add_0_r in Hu0.
  rewrite (u64_small _ Hu0). f_equal. rewrite IH; [f_equal; lia|]. intros i Hi.
  replace (off + stride - b + stride * i) with (off - b + stride * (i + 1)) by lia.
  apply Hu. cbn [length]. lia.
Qed.

(** store_strided declines, or is store_batch_in on its lanes, all of them good. *)
Lemma store_strided_spec a0 stride vals size hint (s : st) :
  sys_ok s → is_u64 a0 →
  ∃ l', lookup_inv (mm s) l' ∧
  (store_strided a0 stride vals size hint s = (Ret false (mkSys (mm s) (bk s) l'), None) ∨
   ∃ b, scalar_size size = true ∧ no_store_fault (mm s) ∧
     Forall is_u64 (fst <$> lanes a0 stride vals) ∧ Forall (good_lane (mm s) b size) (fst <$> lanes a0 stride vals) ∧
     store_strided a0 stride vals size hint s =
       match store_batch_in b size 0 (lanes a0 stride vals) (mkSys (mm s) (bk s) l') with
       | (Ret _ s', f) => (Ret true s', f)
       | (Exn e s', f) => (Exn e s', f)
       | (Undef, f) => (Undef, f)
       end).
Proof.
  intros Hs Ha0. pose proof Hs as [Hok Hlk]. unfold store_strided.
  assert (Hno : ∃ l', lookup_inv (mm s) l' ∧ (Ret false s, @None Z) = (Ret false (mkSys (mm s) (bk s) l'), None)).
  { exists (lk s). split; [done|]. by destruct s. }
  set (count := Z.of_nat (length vals)).
  destruct (_ || _) eqn:E; [destruct Hno as (l' & ? & ->); by exists l'; split; [|left]|].
  rewrite !orb_false_iff, !Z.ltb_ge, negb_false_iff in E. destruct E as ((((Hc2 & Hc32) & Hsz) & Hs1) & Hs2).
  destruct (negb (Z.land (Z.lor a0 (u64 stride)) (size - 1) =? 0)) eqn:E;
    [destruct Hno as (l' & ? & ->); by exists l'; split; [|left]|].
  apply negb_false_iff, Z.eqb_eq in E. pose proof (λ i, strided_aligned a0 stride size i Hsz E) as Hal. clear E.
  destruct (batch_faults_clear (mm s) true) eqn:Hf; cbn [negb]; [|destruct Hno as (l' & ? & ->); by exists l'; split; [|left]].
  clear Hno. assert (Hnf : no_store_fault (mm s)) by (unfold batch_faults_clear in Hf; by apply negb_true_iff in Hf).
  assert (1 ≤ size ≤ 8) by (apply scalar_size_cases in Hsz; lia).
  assert (Hsu : is_u64 size) by (unfold is_u64; lia).
  destruct (ordinary_lookup_spec a0 size hint s Hs Ha0 Hsu) as (f & l' & -> & Hl' & Ho).
  exists l'. split; [done|]. destruct f as [b|]; [|by left]. specialize (Ho b eq_refl).
  destruct (ordinary_live _ _ _ _ Hok Ha0 Hsu Ho) as (a & Hb & _ & Hc & Hin1 & Hin2). rewrite Hb.
  destruct (host_map_free_span (mm s) b (a_size a)) eqn:Hh; cbn [negb]; [|by left].
  destruct (Z.leb_spec (a_size a - size + 1) (u64 (a0 - b + u64 stride * (count - 1)))) as [|Hend]; [by left|].
  right. exists b. destruct (live_room (mm s) b a (proj1 Hok) Hb) as (? & ? & ?).
  pose proof (padded_bounds (mm s) (a_size a) (ti_config _ (proj1 Hok))). unfold u64_max in *.
  destruct (ti_live _ (proj1 Hok) _ _ Hb) as (Hwf & _ & Hm).
  assert (Hlane : ∀ i, 0 ≤ i < count → 0 ≤ a0 - b + stride * i < a_size a - size + 1).
  { intros i Hi. apply (strided_ends (a0 - b) stride count); try done; lia. }
  pose proof (size_le_extent a Hwf).
  assert (Hlanes : lanes_in (extent a) (a0 - b) stride size vals).
  { intros i Hi. specialize (Hlane i Hi). split_and!; [lia|lia|].
    replace (a0 - b + stride * i) with (a0 + stride * i - b) by lia. apply offset_aligned; [done|done|apply Hal]. }
  assert (Hoffs : prod_map (λ x, u64 (x - b)) id <$> lanes a0 stride vals = lanes (a0 - b) stride vals).
  { apply lanes_offs. intros i Hi. specialize (Hlane i Hi). unfold is_u64. lia. }
  assert (Hext : extent a ≤ u64_max).
  { unfold extent. rewrite (wf_count _ Hwf). pose proof (Z.mul_div_le (a_size a + kChunkSize - 1) kChunkSize ltac:(done)).
    unfold u64_max. assert (kChunkSize = 65536) by done. lia. }
  rewrite (store_batch_in_offs _ _ _ _ _ 0 a) by done. rewrite Hoffs. cbn [mm bk lk].
  rewrite (strided_loop_spec (chunk_count a)) by
    (first [done|lia|split; [destruct (wf_chunks _ Hwf) as (t & -> & _); by eexists|done]|by rewrite Z.mul_0_r, Z.add_0_r]).
  rewrite Z.mul_0_r, Z.add_0_r. split_and!; [done|done|..].
  3:{ unfold with_alloc. by destruct (store_offs _ _ _ _) as [[[] ab|e ab|] j]. }
  - rewrite lanes_fst. apply Forall_fmap, Forall_forall. intros i Hi%elem_of_seqZ.
    specialize (Hlane i ltac:(lia)). cbn. unfold is_u64. lia.
  - rewrite lanes_fst. apply Forall_fmap, Forall_forall. intros i Hi%elem_of_seqZ.
    specialize (Hlane i ltac:(lia)). cbn. split_and!; [|apply Hal|].
    + apply (lane_in (mm s) b a size); try done; [unfold is_u64; lia|lia|]. rewrite u64_small by (unfold is_u64; lia). lia.
    + eapply span_free; try done; unfold is_u64, u64_max; lia.
Qed.
End strided_specs.

(** ** Batches in a mapped host buffer *)

(** Every lane of an accepted batch is aligned and inside one mapping. *)
Lemma host_batch_hit_spec m addrs size w h :
  host_inv (host_maps_ m) → Forall is_u64 addrs → (∀ a0, head addrs = Some a0 → a0 + size ≤ u64_max) →
  host_batch_hit m addrs size w = Some h →
  ∃ hm, hm ∈ maps (host_maps_ m) ∧ h = hit_of hm ∧ scalar_size size = true ∧ (w = true → hm_read_only hm = false) ∧
    Forall (λ x, x mod size = 0 ∧ u64 (x - hm_base hm) = x - hm_base hm ∧ holds_range hm x size) addrs.
Proof.
  intros Hinv Hu Hfirst Hh. destruct addrs as [|a0 rest]; [done|]. unfold host_batch_hit in Hh.
  specialize (Hfirst a0 eq_refl). pose proof (Forall_inv Hu) as Hu0.
  destruct (scalar_size size) eqn:Hsz; [|done]. cbn [negb] in Hh.
  assert (1 ≤ size ≤ 8) by (apply scalar_size_cases in Hsz; lia).
  unfold host_hit in Hh. destruct (may_contain _ _); [|done].
  destruct (find_host_map_locked (host_maps_ m) a0 size) as [hm|] eqn:Ef; [|done]. cbn [fmap option_fmap option_map] in Hh.
  apply find_host_map_Some in Ef as [Hm Ht]. pose proof (hi_good _ Hinv) as Hg.
  rewrite Forall_forall in Hg. specialize (Hg hm Hm). unfold is_u64 in Hu0. apply hit_test_holds in Ht; [|done|lia|lia|done].
  destruct (w && hh_read_only (hit_of hm)) eqn:Ew; [done|]. cbn [hh_base hh_len hit_of] in Hh.
  destruct Ht as [Ht1 Ht2]. destruct Hg as (? & ? & ?). unfold u64_max in *.
  rewrite (u64_small (hm_len hm - size + 1)) in Hh by (unfold is_u64; lia).
  pose proof (lane_tests_spec (hm_base hm) (hm_len hm - size + 1) (a0 :: rest) size Hsz) as Hl.
  destruct (lane_tests _ _ _) as [bits outside].
  destruct (negb (Z.land bits (size - 1) =? 0) || outside); [done|]. injection Hh as <-.
  exists hm. split_and!; try done; [by intros ->|]. apply proj1 in Hl. specialize (Hl eq_refl).
  rewrite Forall_forall in *. intros x Hx. destruct (Hl x Hx) as [Hal Hlt]. specialize (Hu x Hx). unfold is_u64 in Hu.
  rewrite u64_wrap_sub in * by (unfold is_u64; lia). destruct (Z.leb_spec (hm_base hm) x); [|lia].
  split_and!; [done|done|split; lia].
Qed.

Section host_batches.
Context {B : Type} {L : Type}.
Local Abbreviation st := (Sys B L).

Lemma host_load_spec p size (s : st) : (∀ i, is_byte (host_mem (mm s) i)) → scalar_size size = true →
  host_load p size s = Ret (le_load (host_mem (mm s)) p (Z.to_nat size)) s.
Proof.
  intros Hb Hsz. unfold host_load, get_mm, bind, ret. f_equal.
  rewrite load_at_le_load by done. apply le_load_ext. by intros i _.
Qed.

Lemma host_load_batch_spec addrs size (s : st) :
  host_inv (host_maps_ (mm s)) → (∀ i, is_byte (host_mem (mm s) i)) → Forall is_u64 addrs →
  (∀ a0, head addrs = Some a0 → a0 + size ≤ u64_max) →
  ∃ r, host_load_batch addrs size s = Ret r s ∧
    ∀ out, r = Some out → ∃ hm, hm ∈ maps (host_maps_ (mm s)) ∧
      Forall (λ x, x mod size = 0 ∧ holds_range hm x size) addrs ∧
      out = (λ x, le_load (host_mem (mm s)) (hm_host hm + (x - hm_base hm)) (Z.to_nat size)) <$> addrs.
Proof.
  intros Hinv Hb Hu Hfirst. unfold host_load_batch, get_mm, bind at 1.
  destruct (host_batch_hit (mm s) addrs size false) as [h|] eqn:Eh; [|by exists None].
  apply host_batch_hit_spec in Eh as (hm & Hm & -> & Hsz & _ & Hl); [|done|done|done].
  cbn [hh_host hh_base hit_of].
  assert (Ht : traverse (λ x, host_load (hm_host hm + u64 (x - hm_base hm)) size) addrs s =
    Ret ((λ x, le_load (host_mem (mm s)) (hm_host hm + (x - hm_base hm)) (Z.to_nat size)) <$> addrs) s).
  { clear Hfirst. induction addrs as [|x addrs IH]; [done|]. cbn [traverse].
    apply Forall_cons in Hl as [(_ & Hx & _) Hl], Hu as [_ Hu]. rewrite Hx.
    erewrite bind_Ret by (by apply host_load_spec). by erewrite bind_Ret by (by apply IH). }
  erewrite bind_Ret by exact Ht. eexists. split; [done|]. intros out [= <-]. exists hm. split_and!; try done.
  eapply Forall_impl; [exact Hl|]. by intros x (? & _ & ?).
Qed.
End host_batches.
