(* ===== verification/Runs.v ===== *)
(** * Runs of elements (src/core/memory.cpp)

    A contiguous range moved an element at a time (load_run, store_run), a
    sixteen-byte element at a time (load_quad_run, store_quad_run) or, between
    two devices, a chunk's part at a time (copy_to). Each has one lookup; it
    declines where it could differ from read and write, and is read or write
    where it does not. *)

From S2P Require Import Prelude Chunks HostMaps BrLock MemState MemTable Vmm VmmRange Resolve Lookup Access Batch.

(** ** A run's bytes between chunk memory and a buffer *)

(** The first [size] bytes of a word, into a buffer and out of one. *)
Definition word_to (d : Z → Z) (i v size : Z) : Z → Z :=
  if size =? 1 then blit d i (byte_of v) 1
  else if size =? 2 then blit d i (byte_of v) 2
  else if size =? 4 then blit d i (byte_of v) 4
  else blit d i (byte_of v) 8.
Definition word_from (s : Z → Z) (i size : Z) : Z :=
  if size =? 1 then le_load s i 1
  else if size =? 2 then le_load s i 2
  else if size =? 4 then le_load s i 4
  else le_load s i 8.

(** [for (; cond(i); i += step) body(i)]; a body that leaves its buffers, or a
    loop that does not end, is [None]. *)
Fixpoint count_loop {D} (fuel : nat) (cond : Z → bool) (step : Z) (body : Z → D → option D)
    (i : Z) (d : D) : option (Z * D) :=
  if cond i then
    match fuel with
    | O => None
    | S fuel' => d' ← body i d; count_loop fuel' cond step body (i + step) d'
    end
  else Some (i, d).

(** The three loops over [n] bytes at the host address [c]: elements up to an
    8-byte boundary, whole words, elements again. *)
Definition run_loops {D} (c n unit_ : Z) (one : Z → Z → D → option D) (word : Z → D → option D)
    (d : D) : option D :=
  let fuel := Z.to_nat n in
  '(i, d) ← count_loop fuel (λ i, (i <? n) && negb ((c + i) mod 8 =? 0)) unit_ (one unit_) 0 d;
  '(i, d) ← count_loop fuel (λ i, i + 8 <=? n) 8 word i d;
  '(_, d) ← count_loop fuel (λ i, i <? n) unit_ (one unit_) i d;
  Some d.

(** run_out: [n] bytes of the chunk at [p] from [coff] into [d]. *)
Definition run_out (p : Z) (f : Z → Z) (coff : Z) (d : Z → Z) (n unit_ : Z) : option (Z → Z) :=
  run_loops (p + coff) n unit_
    (λ size i d, if i + size <=? n then Some (word_to d i (load_at p f (coff + i) size) size) else None)
    (λ i d, if i + 8 <=? n then Some (blit d i (byte_of (le_load f (coff + i) 8)) 8) else None) d.

(** run_in: [n] bytes of [s] into the chunk at [p] from [coff]. *)
Definition run_in (p : Z) (f : Z → Z) (coff : Z) (s : Z → Z) (n unit_ : Z) : option (Z → Z) :=
  let one := λ size i f, if i + size <=? n
                         then Some (store_at p f (coff + i) size (word_from s i size)) else None in
  run_loops (p + coff) n unit_ one (one 8) f.

Lemma word_to_blit d i v size j : scalar_size size = true →
  word_to d i v size j = blit d i (byte_of v) size j.
Proof. intros [->|[->|[->| ->]]]%scalar_size_cases; done. Qed.

Lemma word_from_le s i size : scalar_size size = true → word_from s i size = le_load s i (Z.to_nat size).
Proof. intros [->|[->|[->| ->]]]%scalar_size_cases; done. Qed.

(** The loop runs while its condition holds, and ends. *)
Lemma count_loop_spec {D} (I : Z → D → Prop) fuel cond step (body : Z → D → option D) n i d :
  0 < step → 0 ≤ i ≤ n → n - i ≤ Z.of_nat fuel → I i d →
  (∀ i d, 0 ≤ i → cond i = true → I i d → i + step ≤ n ∧ ∃ d', body i d = Some d' ∧ I (i + step) d') →
  ∃ i' d', count_loop fuel cond step body i d = Some (i', d') ∧ I i' d' ∧ i ≤ i' ≤ n ∧ cond i' = false.
Proof.
  intros Hst. revert i d. induction fuel as [|fuel IH]; intros i d Hi Hf HI Hb; cbn [count_loop];
    destruct (cond i) eqn:Ec; try (exists i, d; split_and!; done || lia).
  - destruct (Hb i d ltac:(lia) Ec HI). lia.
  - destruct (Hb i d ltac:(lia) Ec HI) as (Hle & d' & Hd' & HI'). rewrite Hd'. cbn.
    destruct (IH (i + step) d' ltac:(lia) ltac:(lia) HI' Hb) as (i' & d2 & -> & ? & ? & ?).
    exists i', d2. split_and!; done || lia.
Qed.

(** All of the bytes are moved once each body moves its own. *)
Lemma run_loops_spec {D} (P : Z → D → Prop) c n unit_ (one : Z → Z → D → option D) word d :
  scalar_size unit_ = true → 0 ≤ n → n mod unit_ = 0 → P 0 d →
  (∀ i d, 0 ≤ i → i + unit_ ≤ n → P i d → ∃ d', one unit_ i d = Some d' ∧ P (i + unit_) d') →
  (∀ i d, 0 ≤ i → i + 8 ≤ n → P i d → ∃ d', word i d = Some d' ∧ P (i + 8) d') →
  ∃ d', run_loops c n unit_ one word d = Some d' ∧ P n d'.
Proof.
  intros Hu Hn Hm H0 Hone Hword. assert (0 < unit_) by (apply scalar_size_cases in Hu; lia).
  assert (H8 : (unit_ | 8)).
  { apply scalar_size_cases in Hu as [->|[->|[->| ->]]]; [exists 8|exists 4|exists 2|exists 1]; done. }
  apply Z.mod_divide in Hm; [|lia].
  assert (Hroom : ∀ i, (unit_ | i) → i < n → i + unit_ ≤ n).
  { intros i [q Hq] Hlt. destruct Hm as [r Hr]. subst. assert (q < r) by nia.
    replace (q * unit_ + unit_) with ((q + 1) * unit_) by lia. apply Z.mul_le_mono_nonneg_r; lia. }
  set (I i d := (unit_ | i) ∧ P i d).
  assert (Hunit : ∀ i d, 0 ≤ i → i < n → I i d → i + unit_ ≤ n ∧ ∃ d', one unit_ i d = Some d' ∧ I (i + unit_) d').
  { intros i x Hi Hlt [Hd HP]. pose proof (Hroom i Hd Hlt). split; [done|].
    destruct (Hone i x Hi ltac:(lia) HP) as (d' & ? & ?). exists d'. split; [done|]. split; [|done].
    apply Z.divide_add_r; [done|reflexivity]. }
  unfold run_loops.
  destruct (count_loop_spec I (Z.to_nat n) (λ i, (i <? n) && negb ((c + i) mod 8 =? 0)) unit_ (one unit_) n 0 d)
    as (i1 & d1 & -> & [Hd1 HP1] & Hb1 & _); try done; try lia.
  { split; [by exists 0|done]. }
  { intros i x Hi Hc HI. apply andb_true_iff in Hc as [Hc _]. apply Z.ltb_lt in Hc. by apply Hunit. }
  cbn.
  destruct (count_loop_spec I (Z.to_nat n) (λ i, i + 8 <=? n) 8 word n i1 d1)
    as (i2 & d2 & -> & [Hd2 HP2] & Hb2 & _); try done; try lia.
  { intros i x Hi Hc%Z.leb_le [Hd HP]. split; [done|].
    destruct (Hword i x Hi Hc HP) as (d' & ? & ?). exists d'. split; [done|]. split; [by apply Z.divide_add_r|done]. }
  cbn.
  destruct (count_loop_spec I (Z.to_nat n) (λ i, i <? n) unit_ (one unit_) n i2 d2)
    as (i3 & d3 & -> & [Hd3 HP3] & Hb3 & Hc3%Z.ltb_ge); try done; try lia.
  { intros i x Hi Hc%Z.ltb_lt HI. by apply Hunit. }
  exists d3. split; [done|]. by replace n with i3 by lia.
Qed.

Lemma byte_of_load f off n i : (∀ j, is_byte (f j)) → 0 ≤ i < n → byte_of (le_load f off (Z.to_nat n)) i = f (off + i).
Proof. intros Hf Hi. apply byte_of_le_load; done || lia. Qed.

(** One more piece at the end of a prefix. *)
Lemma blit_next f off src d size v j :
  0 ≤ d → 0 ≤ size → (∀ i, 0 ≤ i < size → v i = src (d + i)) →
  blit (blit f off src d) (off + d) v size j = blit f off src (d + size) j.
Proof.
  intros Hd Hs Hv. rewrite <- blit_app by done. unfold blit. bool_cases; try done. apply Hv. lia.
Qed.

Lemma blit_ext f g off src n j : f j = g j → blit f off src n j = blit g off src n j.
Proof. unfold blit. by intros ->. Qed.

Lemma run_out_spec p f coff d n unit_ :
  (∀ j, is_byte (f j)) → scalar_size unit_ = true → 0 ≤ n → n mod unit_ = 0 →
  ∃ d', run_out p f coff d n unit_ = Some d' ∧ ∀ j, d' j = blit d 0 (λ i, f (coff + i)) n j.
Proof.
  intros Hf Hu Hn Hm. unfold run_out.
  assert (Hstep : ∀ size i x v, scalar_size size = true → 0 ≤ i → v = le_load f (coff + i) (Z.to_nat size) →
    (∀ j, x j = blit d 0 (λ i, f (coff + i)) i j) →
    ∀ j, blit x i (byte_of v) size j = blit d 0 (λ i, f (coff + i)) (i + size) j).
  { intros size i x v Hsz Hi -> Hx j. assert (0 ≤ size) by (apply scalar_size_cases in Hsz; lia).
    rewrite (blit_ext _ _ _ _ _ _ (Hx j)). rewrite <- (Z.add_0_l i) at 1. apply blit_next; try lia.
    intros k Hk. rewrite byte_of_load by done. f_equal. lia. }
  apply (run_loops_spec (λ i x, ∀ j, x j = blit d 0 (λ i, f (coff + i)) i j)); try done.
  - intros j. by rewrite blit_0.
  - intros i x Hi Hle Hx. destruct (Z.leb_spec (i + unit_) n); [|lia]. eexists. split; [done|].
    intros j. rewrite word_to_blit by done. apply Hstep; try done. by apply load_at_le_load.
  - intros i x Hi Hle Hx. destruct (Z.leb_spec (i + 8) n); [|lia]. eexists. split; [done|].
    by apply (Hstep 8).
Qed.

Lemma run_in_spec p f coff s n unit_ :
  (∀ i, 0 ≤ i < n → is_byte (s i)) → scalar_size unit_ = true → 0 ≤ n → n mod unit_ = 0 →
  ∃ f', run_in p f coff s n unit_ = Some f' ∧ ∀ j, f' j = blit f coff s n j.
Proof.
  intros Hs Hu Hn Hm. unfold run_in.
  assert (Hstep : ∀ size i x, scalar_size size = true → 0 ≤ i → i + size ≤ n →
    (∀ j, x j = blit f coff s i j) →
    ∀ j, store_at p x (coff + i) size (word_from s i size) j = blit f coff s (i + size) j).
  { intros size i x Hsz Hi Hle Hx j. assert (0 ≤ size) by (apply scalar_size_cases in Hsz; lia).
    rewrite store_at_le_store, word_from_le by done. unfold le_store.
    rewrite (blit_ext _ _ _ _ _ _ (Hx j)). apply blit_next; try lia.
    intros k Hk. set (g := λ j, if (0 <=? j) && (j <? n) then s j else 0).
    rewrite (le_load_ext s g i i) by (intros q Hq; unfold g; bool_cases; done).
    rewrite byte_of_load; [unfold g; bool_cases; done| |done].
    intros q. unfold g. case_if; [apply Hs; lia|unfold is_byte; lia]. }
  apply (run_loops_spec (λ i x, ∀ j, x j = blit f coff s i j)); try done.
  - intros j. by rewrite blit_0.
  - intros i x Hi Hle Hx. destruct (Z.leb_spec (i + unit_) n); [|lia]. eexists. split; [done|]. by apply Hstep.
  - intros i x Hi Hle Hx. destruct (Z.leb_spec (i + 8) n); [|lia]. eexists. split; [done|]. by apply Hstep.
Qed.

(** ** The accesses *)

Section runs.
Context {B : Type} `{HostBacking B} {L : Type} `{OrdinaryLookup L}.
Local Abbreviation st := (Sys B L).

(** MemoryManager::run_allocation: the base of the ordinary allocation. *)
Definition run_allocation (addr len unit_ : Z) (hint : option Z) : M st (option Z) :=
  m <- get_mm ;;
  if negb (unit_ =? 1) && negb (unit_ =? 2) && negb (unit_ =? 4) && negb (unit_ =? 8) then ret None else
  if any_stuck m || load_armed m || store_armed m then ret None else
  if negb (Z.land (Z.lor addr len) (unit_ - 1) =? 0) || may_contain (host_maps_ m) addr then ret None else
  f <- ordinary_lookup addr len hint ;;
  match f with
  | Some b => ret (Some b)
  | None =>
      match floor_entry (live_ m) addr with
      | None => ret None
      | Some (b, a) =>
          if (a_size a <=? u64 (addr - b)) || (a_size a - u64 (addr - b) <? len) then ret None else
          if negb (card_valid a =? 0) then ret None else ret (Some b)
      end
  end.

(** The loop of load_run over the chunks; [d] is the buffer, filled to [done]. *)
Fixpoint load_run_loop (fuel : nat) (off len unit_ done : Z) (d : Z → Z) : M (Allocation * B) (Z → Z) :=
  if len <=? 0 then ret d else
  match fuel with
  | O => undef
  | S fuel' =>
      let n := Z.min len (kChunkSize - off mod kChunkSize) in
      c <- chunk_at (off / kChunkSize) ;;
      let next := λ d, load_run_loop fuel' (off + n) (len - n) unit_ (done + n) d in
      match c with
      | None => next (blit d done (λ _, 0) n)
      | Some (Uniform u) => next (blit d done (λ _, u) n)
      | Some (Real p f) =>
          match run_out p f (off mod kChunkSize) (λ i, d (done + i)) n unit_ with
          | Some d' => next (λ j, d' (j - done))
          | None => undef
          end
      end
  end.

(** MemoryManager::load_run; [None] is the refusal that leaves [d] alone. *)
Definition load_run (addr : Z) (d : Z → Z) (len unit_ : Z) (hint : option Z) : M st (option (Z → Z)) :=
  if len =? 0 then ret (Some d) else
  f <- run_allocation addr len unit_ hint ;;
  match f with
  | None => ret None
  | Some b =>
      d' <- on_alloc (LiveAt b) (load_run_loop (chunk_fuel len) (addr - b) len unit_ 0 d) ;;
      ret (Some d')
  end.

(** The store of a run's part in a real chunk. *)
Definition run_store (idx coff n : Z) (s : Z → Z) (unit_ : Z) : M (Allocation * B) unit :=
  c <- chunk_at idx ;;
  match c with
  | Some (Real p f) =>
      if (0 <=? coff) && (coff + n <=? kChunkSize) then
        match run_in p f coff s n unit_ with
        | Some f' => chunk_store idx (Some (Real p f'))
        | None => undef
        end
      else undef
  | _ => undef
  end.
Definition store_run_body (src : Z → Z) (unit_ idx coff n done : Z) : M (Allocation * B) unit :=
  chunk <- chunk_at idx ;;
  let s := λ i, src (done + i) in
  if match chunk with Some (Uniform u) => all_bytes s n u | _ => false end then ret tt else
  materialize_if_not_real chunk idx ;;;
  run_store idx coff n s unit_.

(** MemoryManager::store_run *)
Definition store_run (addr : Z) (src : Z → Z) (len unit_ : Z) (hint : option Z) : M st bool :=
  if len =? 0 then ret true else
  f <- run_allocation addr len unit_ hint ;;
  match f with
  | None => ret false
  | Some b =>
      on_alloc (LiveAt b) (chunk_loop (chunk_fuel len) (store_run_body src unit_) (addr - b) len 0) ;;;
      ret true
  end.

(** MemoryManager::load_quad_run *)
Definition load_quad_run (addr count : Z) : M st (option (list (Z * Z))) :=
  m <- get_mm ;;
  if (count =? 0) || negb (addr mod 16 =? 0) || may_contain (host_maps_ m) (u64 (addr + 16 * (count - 1)))
  then ret None else
  f <- run_allocation addr (u64 (16 * count)) 8 None ;;
  match f with
  | None => ret None
  | Some b =>
      if may_contain (host_maps_ m) addr then ret None else
      out <- on_alloc (LiveAt b) (traverse (λ i, quad_load (u64 (addr + 16 * i - b))) (seqZ 0 count)) ;;
      ret (Some out)
  end.

(** MemoryManager::store_quad_run *)
Definition store_quad_run (addr : Z) (vs : list (Z * Z)) : M st bool :=
  let count := Z.of_nat (length vs) in
  m <- get_mm ;;
  if (count =? 0) || negb (addr mod 16 =? 0) || may_contain (host_maps_ m) (u64 (addr + 16 * (count - 1)))
  then ret false else
  f <- run_allocation addr (u64 (16 * count)) 8 None ;;
  match f with
  | None => ret false
  | Some b =>
      if may_contain (host_maps_ m) addr then ret false else
      on_alloc (LiveAt b)
        (traverse (λ iv, quad_store (u64 (addr + 16 * fst iv - b)) (snd iv)) (zip (seqZ 0 count) vs)) ;;;
      ret true
  end.
End runs.

(** ** What they do *)

(** The runs that are taken, and the allocation each lies in. *)
Definition run_at (m : MM) (addr len unit_ : Z) : option Z :=
  if scalar_size unit_ && negb (access_faults_armed m) && (Z.land (Z.lor addr len) (unit_ - 1) =? 0) &&
     negb (may_contain (host_maps_ m) addr)
  then ordinary m addr len else None.

Lemma run_at_inv m addr len unit_ b :
  mem_ok m → is_u64 addr → is_u64 len → run_at m addr len unit_ = Some b →
  scalar_size unit_ = true ∧ access_faults_armed m = false ∧ may_contain (host_maps_ m) addr = false ∧
  ordinary m addr len = Some b ∧
  ∃ a, live_ m !! b = Some a ∧ wf_alloc a ∧ 0 ≤ addr - b ∧ addr - b + len ≤ extent a ∧
       (addr - b) mod unit_ = 0 ∧ len mod unit_ = 0.
Proof.
  intros Hok Ha Hl. unfold run_at. case_if; [|done]. intros Ho.
  repeat match goal with H : _ ∧ _ |- _ => destruct H end.
  destruct (ordinary_live m addr len b Hok Ha Hl Ho) as (a & Hb & _ & _ & ? & ?).
  destruct (ti_live _ (proj1 Hok) _ _ Hb) as (Hwf & _ & Hm). pose proof (size_le_extent a Hwf).
  match goal with H : Z.land (Z.lor _ _) _ = 0 |- _ => rewrite Z.land_lor_distr_l in H; apply Z.lor_eq_0_iff in H as [E1 E2] end.
  rewrite land_aligned in E1, E2 by done.
  split_and!; try done. exists a. split_and!; try done; try lia. by apply offset_aligned.
Qed.

Section run_specs.
Context {B : Type} `{HostBacking B} {L : Type} `{OrdinaryLookupOk L}.
Local Abbreviation st := (Sys B L).

Lemma run_allocation_spec addr len unit_ hint (s : st) :
  sys_ok s → is_u64 addr → is_u64 len →
  ∃ l', lookup_inv (mm s) l' ∧
    run_allocation addr len unit_ hint s = Ret (run_at (mm s) addr len unit_) (mkSys (mm s) (bk s) l').
Proof.
  intros Hs Ha Hl. pose proof Hs as [Hok Hlk]. unfold run_allocation, run_at, get_mm, bind at 1.
  assert (Hu : scalar_size unit_ = negb (negb (unit_ =? 1) && negb (unit_ =? 2) && negb (unit_ =? 4) && negb (unit_ =? 8)))
    by (unfold scalar_size; by destruct (unit_ =? 1), (unit_ =? 2), (unit_ =? 4), (unit_ =? 8)).
  rewrite Hu. destruct s as [m k l]. cbn [mm bk lk] in *.
  destruct (negb (unit_ =? 1) && _ && _ && _); [by exists l|]. cbn [negb andb].
  unfold access_faults_armed. destruct (any_stuck m || load_armed m || store_armed m); [by exists l|]. cbn [negb andb].
  destruct (Z.land (Z.lor addr len) (unit_ - 1) =? 0); [|by exists l]. cbn [negb andb orb].
  destruct (may_contain (host_maps_ m) addr); [by exists l|]. cbn [negb].
  destruct (ordinary_lookup_spec addr len hint (mkSys m k l) Hs Ha Hl) as (f & l' & Hf & Hl' & Ho).
  exists l'. split; [done|]. erewrite bind_Ret by exact Hf. cbn [mm] in *.
  destruct f as [b|]; [by rewrite (Ho b eq_refl)|]. unfold ordinary.
  destruct (floor_entry (live_ m) addr) as [[b a]|]; [|done].
  rewrite negb_andb. replace (a_size a <=? u64 (addr - b)) with (negb (u64 (addr - b) <? a_size a)) by lia.
  replace (a_size a - u64 (addr - b) <? len) with (negb (len <=? a_size a - u64 (addr - b))) by lia.
  repeat case_if; done.
Qed.

(** *** Loads *)

Lemma sub_mod_unit x y unit_ : 0 < unit_ → x mod unit_ = 0 → y mod unit_ = 0 →
  (x + y) mod unit_ = 0 ∧ (x - y) mod unit_ = 0.
Proof. intros Hu Hx Hy. by rewrite Zplus_mod, Zminus_mod, Hx, Hy. Qed.

(** The part of a run in a chunk is whole elements. *)
Lemma part_mod off len unit_ : scalar_size unit_ = true → off mod unit_ = 0 → len mod unit_ = 0 →
  Z.min len (kChunkSize - off mod kChunkSize) mod unit_ = 0.
Proof.
  intros Hu Ho Hl. assert (Hp : 0 < unit_) by (apply scalar_size_cases in Hu; lia).
  assert (Hk : kChunkSize mod unit_ = 0) by (apply scalar_size_cases in Hu as [->|[->|[->| ->]]]; done).
  destruct (Z.min_spec len (kChunkSize - off mod kChunkSize)) as [[_ ->]|[_ ->]]; [done|].
  apply sub_mod_unit; try done. apply Z.mod_divide in Hk; [|lia].
  by rewrite Z.mod_mod_divide.
Qed.

Lemma load_run_loop_spec a (k : B) fuel off len unit_ done_ d src0 :
  wf_alloc a → scalar_size unit_ = true → 0 ≤ off → 0 ≤ len → off + len ≤ extent a → 0 ≤ done_ →
  off mod unit_ = 0 → len mod unit_ = 0 →
  (0 < len → (off + len - 1) / kChunkSize - off / kChunkSize + 1 ≤ Z.of_nat fuel) →
  (∀ j, d j = blit src0 0 (λ i, content a (off - done_ + i)) done_ j) →
  ∃ d', load_run_loop fuel off len unit_ done_ d (a, k) = Ret d' (a, k) ∧
    ∀ j, d' j = blit src0 0 (λ i, content a (off - done_ + i)) (done_ + len) j.
Proof.
  assert (HK : 0 < kChunkSize) by done. intros Hwf Hu.
  revert off len done_ d. induction fuel as [|fuel IH]; intros off len done_ d Hoff Hlen Hext Hdn Hom Hlm Hf Hd;
    cbn [load_run_loop]; destruct (Z.leb_spec len 0);
    try (exists d; split; [done|]; by replace (done_ + len) with done_ by lia).
  { pose proof (Z.div_le_mono off (off + len - 1) kChunkSize HK ltac:(lia)). lia. }
  pose proof (Z.mod_pos_bound off kChunkSize HK). pose proof (chunk_base off).
  pose proof (part_mod off len unit_ Hu Hom Hlm) as Hnm.
  set (n := Z.min len (kChunkSize - off mod kChunkSize)) in *.
  destruct (wf_chunks _ Hwf) as (t & Ht & Hok).
  assert (Hup : 0 < unit_) by (apply scalar_size_cases in Hu; lia).
  assert (Hi : 0 ≤ off / kChunkSize < chunk_count a) by (apply chunk_index_range; [done|lia]).
  erewrite bind_Ret by (by apply (chunk_at_ret (a, k) t)).
  assert (Hp : ∀ i, 0 ≤ i < n → content a (off + i) =
    slot_byte (t !! (off / kChunkSize)) (off mod kChunkSize + i)) by (intros; apply content_piece; [done|lia..]).
  assert (Hnext : ∀ d', (∀ j, d' j = blit d done_ (λ i, content a (off + i)) n j) →
    ∃ d2, load_run_loop fuel (off + n) (len - n) unit_ (done_ + n) d' (a, k) = Ret d2 (a, k) ∧
      ∀ j, d2 j = blit src0 0 (λ i, content a (off - done_ + i)) (done_ + len) j).
  { intros d' Hd'. replace (off - done_) with (off + n - (done_ + n)) by lia.
    replace (done_ + len) with (done_ + n + (len - n)) by lia. apply IH; try lia.
    - by apply sub_mod_unit.
    - by apply sub_mod_unit.
    - intros. pose proof (chunk_next off) as Hcn. replace (kChunkSize - off mod kChunkSize) with n in Hcn by lia.
      replace (off + n + (len - n) - 1) with (off + len - 1) by lia. specialize (Hf ltac:(lia)). lia.
    - intros j. rewrite Hd'. replace (off + n - (done_ + n)) with (off - done_) by lia.
      rewrite (blit_ext _ _ _ _ _ _ (Hd j)). rewrite <- (Z.add_0_l done_) at 2.
      apply blit_next; try lia. intros i Hir. f_equal. lia. }
  destruct (t !! (off / kChunkSize)) as [[u|p f]|] eqn:Hc; cbn [slot_byte] in Hp.
  - apply Hnext. intros j. unfold blit. case_if; [|done]. symmetry. apply Hp. lia.
  - assert (Hbytes : ∀ j, is_byte (f j)) by (destruct (Hok _ _ Hc); done).
    destruct (run_out_spec p f (off mod kChunkSize) (λ i, d (done_ + i)) n unit_) as (d' & -> & Hd'); try done; [lia|].
    apply Hnext. intros j. rewrite Hd'. unfold blit. rewrite Z.sub_0_r. bool_cases.
    + symmetry. apply Hp. lia.
    + f_equal. lia.
    + f_equal. lia.
  - apply Hnext. intros j. unfold blit. case_if; [|done]. symmetry. apply Hp. lia.
Qed.

(** load_run gives the cells of the run, exactly when it is taken, and changes
    only the thread's lookups. *)
Lemma load_run_spec addr d len unit_ hint (s : st) :
  sys_ok s → is_u64 addr → 0 < len → is_u64 len →
  ∃ r l', load_run addr d len unit_ hint s = Ret r (mkSys (mm s) (bk s) l') ∧ lookup_inv (mm s) l' ∧
    match run_at (mm s) addr len unit_ with
    | Some b => ∃ d', r = Some d' ∧
        ∀ j, d' j = blit d 0 (λ i, cell (mm s) (LiveAt b) (addr - b + i)) len j
    | None => r = None
    end.
Proof.
  intros Hs Ha Hp Hl. pose proof Hs as [Hok _]. unfold load_run. destruct (Z.eqb_spec len 0); [lia|].
  destruct (run_allocation_spec addr len unit_ hint s Hs Ha Hl) as (l' & Hl' & Hr).
  erewrite bind_Ret by exact Hr. destruct (run_at (mm s) addr len unit_) as [b|] eqn:Er; [|by exists None, l'].
  destruct (run_at_inv _ _ _ _ _ Hok Ha Hl Er) as (Hu & _ & _ & _ & a & Hb & Hwf & Hge & Hx & Hom & Hlm).
  destruct (load_run_loop_spec a (bk s) (chunk_fuel len) (addr - b) len unit_ 0 d d) as (d' & Hd' & Hj); try done; try lia.
  { intros _. apply chunk_fuel_enough; lia. }
  { intros j. by rewrite blit_0. }
  exists (Some d'), l'. erewrite bind_Ret by (by apply (on_alloc_look _ (mm s) (LiveAt b) a)).
  split_and!; try done. exists d'. split; [done|]. intros j. rewrite Hj, Z.sub_0_r.
  unfold blit, cell. cbn. by rewrite Hb.
Qed.

(** *** Stores *)

(** A run's part in a chunk, as one copy. *)
Lemma run_store_update idx coff n src unit_ (s : Allocation * B) :
  (∀ i, 0 ≤ i < n → is_byte (src i)) → scalar_size unit_ = true → 0 ≤ n → n mod unit_ = 0 →
  run_store idx coff n src unit_ s =
    chunk_update idx coff n (λ p f, default f (run_in p f coff src n unit_)) s.
Proof.
  intros Hs Hu Hn Hm. unfold run_store, chunk_update, bind.
  destruct (chunk_at idx s) as [[[u|p f]|] s'| |]; try done. case_if; [|done].
  by destruct (run_in_spec p f coff src n unit_ Hs Hu Hn Hm) as (f' & -> & _).
Qed.

Lemma wp_store_run_body a f src unit_ idx coff n d (s : Allocation * B) :
  now_holds a f s → 0 ≤ idx < chunk_count a → 0 ≤ coff → 0 < n → coff + n ≤ kChunkSize →
  (∀ i, 0 ≤ i < n → is_byte (src (d + i))) → scalar_size unit_ = true → n mod unit_ = 0 →
  wp (store_run_body src unit_ idx coff n d s)
    (λ _ s', now_holds a (blit f (idx * kChunkSize + coff) (λ i, src (d + i)) n) s')
    (λ _ s', now_holds a f s').
Proof.
  intros Hs Hi Hco Hn Hle Hsrc Hu Hm. pose proof Hs as (Hwf & Hsh & Hf).
  destruct (wf_chunks _ Hwf) as (t & Ht & _).
  assert (Hi' : 0 ≤ idx < chunk_count (fst s)) by (destruct Hsh as (_ & -> & _); done).
  unfold store_run_body. wp_step. apply (wp_chunk_at _ _ _ _ t Ht Hi').
  match goal with |- context [if ?b then _ else _] => destruct b eqn:Eb end.
  - destruct (t !! idx) as [[u|]|] eqn:Hc; try done.
    rewrite all_bytes_spec in Eb. wp_step. by eapply uniform_blit_same.
  - assert (E : (materialize_if_not_real (t !! idx) idx ;;; run_store idx coff n (λ i, src (d + i)) unit_) s =
      (materialize_if_not_real (t !! idx) idx ;;; chunk_update idx coff n
         (λ p f, default f (run_in p f coff (λ i, src (d + i)) n unit_))) s).
    { unfold bind. destruct (materialize_if_not_real (t !! idx) idx s); try done.
      apply run_store_update; done || lia. }
    rewrite E. eapply (wp_real_update a f idx coff n _ (λ i, src (d + i))); try done; try lia.
    intros p h j. destruct (run_in_spec p h coff (λ i, src (d + i)) n unit_) as (f' & -> & Hj); try done; lia.
Qed.

(** The loop of a run: every part is whole elements. *)
Lemma wp_store_run_loop a off src len unit_ (s : Allocation * B) :
  wf_alloc a → fst s = a → 0 ≤ off → 0 ≤ len → off + len ≤ extent a → scalar_size unit_ = true →
  off mod unit_ = 0 → len mod unit_ = 0 → (∀ i, 0 ≤ i < len → is_byte (src i)) →
  wp (chunk_loop (chunk_fuel len) (store_run_body src unit_) off len 0 s)
    (λ _ s', now_holds a (blit (content a) off src len) s')
    (λ _ s', ∃ d, 0 ≤ d < len ∧ now_holds a (blit (content a) off src d) s').
Proof.
  intros Hwf Hs Hoff Hlen Hext Hu Hom Hlm Hsrc.
  assert (Hup : 0 < unit_) by (apply scalar_size_cases in Hu; lia).
  eapply wp_mono; [apply (wp_chunk_loop _ off len
    (λ d s', d mod unit_ = 0 ∧ now_holds a (blit (content a) off src d) s')
    (λ _ s', ∃ d, 0 ≤ d < len ∧ now_holds a (blit (content a) off src d) s')); try done|by intros [] ? []|done].
  - intros d s' Hd [Hdm Hs'] n Hn Hle.
    assert (Hnm : n mod unit_ = 0) by (apply part_mod; [done|by apply sub_mod_unit..]).
    eapply wp_mono.
    + apply wp_store_run_body; try done; [by eapply extent_index|by apply Z.mod_pos_bound|].
      intros i Hi. apply Hsrc. lia.
    + intros [] s'' Hs''. split; [by apply sub_mod_unit|]. eapply now_holds_ext; [exact Hs''|]. intros j.
      rewrite chunk_base. rewrite blit_app by lia. done.
    + intros e s'' Hs''. by exists d.
  - split; [by rewrite Z.mod_0_l by lia|]. destruct s as [a0 b]. simpl in Hs. subst a0.
    eapply now_holds_ext; [by apply now_holds_refl|]. intros j. by rewrite blit_0.
Qed.

(** store_run puts the bytes in the cells of the run, exactly when it is taken;
    the host running out of memory leaves a prefix. *)
Lemma store_run_spec addr src len unit_ hint (s : st) :
  sys_ok s → is_u64 addr → 0 < len → is_u64 len → (∀ i, 0 ≤ i < len → is_byte (src i)) →
  match run_at (mm s) addr len unit_ with
  | Some b =>
      wp (store_run addr src len unit_ hint s)
        (λ r s', r = true ∧
           cells_now (mm s) (LiveAt b) (blit (cell (mm s) (LiveAt b)) (addr - b) src len) s')
        (λ _ s', ∃ d, 0 ≤ d < len ∧
           cells_now (mm s) (LiveAt b) (blit (cell (mm s) (LiveAt b)) (addr - b) src d) s')
  | None => ∃ l', lookup_inv (mm s) l' ∧ store_run addr src len unit_ hint s = Ret false (mkSys (mm s) (bk s) l')
  end.
Proof.
  intros Hs Ha Hp Hl Hsrc. pose proof Hs as [Hok _]. unfold store_run. destruct (Z.eqb_spec len 0); [lia|].
  destruct (run_allocation_spec addr len unit_ hint s Hs Ha Hl) as (l' & Hl' & Hr).
  rewrite (bind_Ret _ _ _ _ _ Hr). destruct (run_at (mm s) addr len unit_) as [b|] eqn:Er; [|by exists l'].
  destruct (run_at_inv _ _ _ _ _ Hok Ha Hl Er) as (Hu & _ & _ & Ho & a & Hb & Hwf & Hge & Hx & Hom & Hlm).
  wp_step. eapply wp_mono.
  - eapply (wp_located_blit (λ off, chunk_loop (chunk_fuel len) (store_run_body src unit_) off len 0)
      addr len true false src s (LiveAt b) b l'); try done; [lia|by apply ordinary_resolve_slack|].
    intros a' Hwf' Hge' Hx' _. apply wp_store_run_loop; done || lia.
  - intros [] s' Hs'. by wp_step.
  - done.
Qed.

(** *** Sixteen-byte elements *)

(** The quad runs that are taken. *)
Definition quads_at (m : MM) (addr count : Z) : option Z :=
  if (addr mod 16 =? 0) && negb (may_contain (host_maps_ m) (addr + 16 * (count - 1)))
  then run_at m addr (16 * count) 8 else None.

Lemma quads_at_guard (m : MM) addr count {A} (x y : A) :
  is_u64 addr → 0 < count → addr + 16 * count ≤ u64_max →
  (if (count =? 0) || negb (addr mod 16 =? 0) || may_contain (host_maps_ m) (u64 (addr + 16 * (count - 1)))
   then x else y) =
  (if (addr mod 16 =? 0) && negb (may_contain (host_maps_ m) (addr + 16 * (count - 1))) then y else x).
Proof.
  intros Ha Hc Hm. unfold is_u64, u64_max in *. rewrite u64_small by (unfold is_u64; lia).
  destruct (Z.eqb_spec count 0); [lia|]. cbn [orb].
  by destruct (addr mod 16 =? 0), (may_contain (host_maps_ m) (addr + 16 * (count - 1))).
Qed.

Lemma load_quad_run_spec addr count (s : st) :
  sys_ok s → is_u64 addr → 0 < count → addr + 16 * count ≤ u64_max →
  ∃ l', lookup_inv (mm s) l' ∧
    load_quad_run addr count s =
      Ret (match quads_at (mm s) addr count with
           | Some b => Some ((λ i, (le_load (cell (mm s) (LiveAt b)) (addr + 16 * i - b) 8,
                                    le_load (cell (mm s) (LiveAt b)) (addr + 16 * i - b + 8) 8)) <$> seqZ 0 count)
           | None => None
           end) (mkSys (mm s) (bk s) l').
Proof.
  intros Hs Ha Hc Hm. pose proof Hs as [Hok Hlk]. unfold load_quad_run, get_mm, bind at 1.
  rewrite quads_at_guard by done. unfold quads_at. destruct s as [m k l]. cbn [mm bk lk] in *.
  destruct (_ && negb (may_contain (host_maps_ m) (addr + 16 * (count - 1)))) eqn:Eg; [|by exists l].
  apply andb_true_iff in Eg as [Hal%Z.eqb_eq _].
  assert (Hl : is_u64 (16 * count)) by (unfold is_u64, u64_max in *; lia). rewrite (u64_small (16 * count)) by done.
  destruct (run_allocation_spec addr (16 * count) 8 None (mkSys m k l) Hs Ha Hl) as (l' & Hl' & Hr).
  exists l'. split; [done|]. erewrite bind_Ret by exact Hr. cbn [mm bk].
  destruct (run_at m addr (16 * count) 8) as [b|] eqn:Er; [|done].
  destruct (run_at_inv _ _ _ _ _ Hok Ha Hl Er) as (_ & _ & Hmc & _ & a & Hb & Hwf & Hge & Hx & _ & _).
  rewrite Hmc. destruct (ti_live _ (proj1 Hok) _ _ Hb) as (_ & _ & Hbm).
  destruct (live_room m b a (proj1 Hok) Hb) as (? & _).
  erewrite bind_Ret; [done|]. apply (on_alloc_look _ m (LiveAt b) a); [done|]. apply traverse_look.
  intros i Hi%elem_of_seqZ. rewrite u64_small by (unfold is_u64, u64_max in *; lia).
  assert (Ho : (addr + 16 * i - b) mod 16 = 0).
  { apply quad_offset; [done|]. rewrite Z.mul_comm. by rewrite Z.mod_add. }
  rewrite quad_load_spec by (done || lia).
  f_equal. f_equal; apply le_load_ext; intros q _; unfold cell; cbn; by rewrite Hb.
Qed.

(** The bytes of a run of quads. *)
Definition quads_bytes (vs : list (Z * Z)) (j : Z) : Z :=
  quad_bytes (vs !!! Z.to_nat (j / 16)) (j mod 16).

Lemma quads_bytes_at vs i v j : vs !! i = Some v → 0 ≤ j < 16 →
  quads_bytes vs (16 * Z.of_nat i + j) = quad_bytes v j.
Proof.
  intros Hv Hj. unfold quads_bytes.
  replace ((16 * Z.of_nat i + j) / 16) with (Z.of_nat i) by (apply (Z.div_unique_pos _ _ _ j); lia).
  replace ((16 * Z.of_nat i + j) mod 16) with j by (apply (Z.mod_unique_pos _ _ (Z.of_nat i)); lia).
  rewrite Nat2Z.id. by rewrite (list_lookup_total_correct _ _ _ Hv).
Qed.

(** Quads stored one by one: all of them, or the ones before the exception. *)
Lemma wp_quads_store a vs off base d f (s : Allocation * B) :
  0 ≤ off → off mod 16 = 0 → off + 16 * Z.of_nat (d + length vs) ≤ extent a →
  is_u64 (base + off + 16 * Z.of_nat (d + length vs)) → 0 ≤ base →
  ∀ all, all = take d all ++ vs → (d ≤ length all)%nat →
  now_holds a (blit f off (quads_bytes all) (16 * Z.of_nat d)) s →
  wp (traverse (λ iv, quad_store (u64 (base + off + 16 * fst iv - base)) (snd iv))
        (zip (seqZ (Z.of_nat d) (Z.of_nat (length vs))) vs) s)
    (λ _ s', now_holds a (blit f off (quads_bytes all) (16 * Z.of_nat (d + length vs))) s')
    (λ _ s', ∃ n, 0 ≤ n < 16 * Z.of_nat (length all) ∧ now_holds a (blit f off (quads_bytes all) n) s').
Proof.
  revert d s. induction vs as [|v vs IH]; intros d s Hoff Hal Hx Hu Hb all Hall Hd Hs.
  { cbn. by rewrite Nat.add_0_r. }
  cbn [length]. rewrite seqZ_cons by lia. cbn [zip zip_with traverse fst snd]. wp_step.
  assert (Hlen : length all = (d + S (length vs))%nat) by (rewrite Hall, length_app, length_take; cbn; lia).
  assert (Hv : all !! d = Some v).
  { rewrite Hall, lookup_app_r, length_take by (rewrite length_take; lia). by replace (d - d `min` length all)%nat with 0%nat by lia. }
  cbn [length] in *. rewrite u64_small by (unfold is_u64 in *; lia).
  replace (base + off + 16 * Z.of_nat d - base) with (off + 16 * Z.of_nat d) by lia.
  eapply wp_mono.
  - apply wp_quad_store; [exact Hs|lia|by rewrite Z.mul_comm, Z.mod_add|lia].
  - intros [] s' Hs'. wp_step. replace (Z.succ (Z.of_nat d)) with (Z.of_nat (S d)) by lia.
    replace (Z.pred (Z.of_nat (S (length vs)))) with (Z.of_nat (length vs)) by lia.
    assert (Hd1 : (S d + length vs = d + S (length vs))%nat) by lia.
    eapply wp_mono; [apply (IH (S d) s') with (all := all); rewrite ?Hd1; try done; try lia|..].
    + rewrite Hall at 1. rewrite (take_S_r _ _ _ Hv), <- app_assoc. done.
    + eapply now_holds_ext; [exact Hs'|]. intros j. replace (16 * Z.of_nat (S d)) with (16 * Z.of_nat d + 16) by lia.
      apply blit_next; try lia. intros i Hi. symmetry. by apply quads_bytes_at.
    + intros vs' s'' Hs''. wp_step. by rewrite Hd1 in Hs''.
    + done.
  - intros e s' Hs'. exists (16 * Z.of_nat d). split; [lia|done].
Qed.

(** store_quad_run puts the quads in the cells, exactly when it is taken. *)
Lemma store_quad_run_spec addr vs (s : st) :
  sys_ok s → is_u64 addr → vs ≠ [] → addr + 16 * Z.of_nat (length vs) ≤ u64_max →
  match quads_at (mm s) addr (Z.of_nat (length vs)) with
  | Some b =>
      wp (store_quad_run addr vs s)
        (λ r s', r = true ∧ cells_now (mm s) (LiveAt b)
           (blit (cell (mm s) (LiveAt b)) (addr - b) (quads_bytes vs) (16 * Z.of_nat (length vs))) s')
        (λ _ s', ∃ d, 0 ≤ d < 16 * Z.of_nat (length vs) ∧
           cells_now (mm s) (LiveAt b) (blit (cell (mm s) (LiveAt b)) (addr - b) (quads_bytes vs) d) s')
  | None => ∃ l', lookup_inv (mm s) l' ∧ store_quad_run addr vs s = Ret false (mkSys (mm s) (bk s) l')
  end.
Proof.
  intros Hs Ha Hne Hm. pose proof Hs as [Hok Hlk]. set (count := Z.of_nat (length vs)) in *.
  assert (Hc : 0 < count) by (unfold count; destruct vs; [done|cbn; lia]).
  remember (store_quad_run addr vs s) as o eqn:Eo. revert Eo.
  unfold store_quad_run, get_mm, bind at 1. fold count. cbv zeta.
  rewrite quads_at_guard by done. unfold quads_at. intros Eo.
  destruct (_ && negb (may_contain (host_maps_ (mm s)) (addr + 16 * (count - 1)))) eqn:Eg; cycle 1.
  { exists (lk s). split; [exact Hlk|]. rewrite Eo. by destruct s. }
  apply andb_true_iff in Eg as [Hal%Z.eqb_eq _].
  assert (Hl : is_u64 (16 * count)) by (unfold is_u64, u64_max in *; lia). rewrite (u64_small (16 * count)) in Eo by done.
  destruct (run_allocation_spec addr (16 * count) 8 None s Hs Ha Hl) as (l' & Hl' & Hr).
  rewrite (bind_Ret _ _ _ _ _ Hr) in Eo. subst o.
  destruct (run_at (mm s) addr (16 * count) 8) as [b|] eqn:Er; [|by exists l'].
  destruct (run_at_inv _ _ _ _ _ Hok Ha Hl Er) as (_ & _ & Hmc & Ho & a & Hb & Hwf & Hge & Hx & _ & _).
  rewrite Hmc. destruct (live_room (mm s) b a (proj1 Hok) Hb) as (? & _).
  wp_step. eapply wp_mono; [|intros ? s' Hs'; wp_step; split; [exact eq_refl|exact Hs']|intros ? ? HE; exact HE].
  assert (Hc' : ∀ n (ab : Allocation * B), now_holds a (blit (content a) (addr - b) (quads_bytes vs) n) ab →
    cells_now (mm s) (LiveAt b) (blit (cell (mm s) (LiveAt b)) (addr - b) (quads_bytes vs) n)
      (mkSys (put_alloc (mm s) (LiveAt b) (fst ab)) (snd ab) l')).
  { intros n ab Hab. eapply (now_holds_cells _ _ a); try done. eapply now_holds_ext; [exact Hab|].
    intros j. unfold blit, cell. cbn. by rewrite Hb. }
  destruct (ti_live _ (proj1 Hok) _ _ Hb) as (_ & _ & Hbm).
  eapply (wp_on_alloc _ _ (LiveAt b)); [exact Hb|..].
  - unfold count. pose proof (wp_quads_store a vs (addr - b) b 0 (content a) (a, bk s)) as Hq.
    replace (b + (addr - b)) with addr in Hq by lia. cbn [Nat.add] in Hq.
    apply (Hq Hge (quad_offset _ _ Hbm Hal) Hx); try done; try lia.
    + unfold is_u64, u64_max in *. lia.
    + eapply now_holds_ext; [by apply now_holds_refl|]. intros j. by rewrite blit_0.
  - intros ? ab Hab. by apply Hc'.
  - intros e ab (d & Hd & Hab). exists d. split; [done|]. by apply Hc'.
Qed.
End run_specs.
