(* ===== verification/Copy.v ===== *)
(** * Copies between devices (src/core/memory.cpp, MemoryManager::copy_to)

    A large device-to-device copy goes straight from the source's chunks to the
    destination's, without a buffer. The two managers may be the same one. *)

From S2P Require Import Prelude Chunks HostMaps BrLock MemState MemTable Vmm VmmRange Resolve Lookup Access Batch Runs.

(** The managers a copy is between ([None]: the destination is the source),
    each with the calling thread's lookups as it sees them; one host backing. *)
Record World (B L : Type) := mkWorld {
  w_src : MM;
  w_src_lk : L;
  w_dst : option (MM * L);
  w_bk : B;
}.
Arguments mkWorld {B L} _ _ _ _.
Arguments w_src {B L} _.
Arguments w_src_lk {B L} _.
Arguments w_dst {B L} _.
Arguments w_bk {B L} _.

Section copy.
Context {B : Type} `{HostBacking B} {L : Type} `{OrdinaryLookup L}.
Local Abbreviation st := (Sys B L).
Local Abbreviation world := (World B L).

Definition src_sys (w : world) : st := mkSys (w_src w) (w_bk w) (w_src_lk w).
Definition dst_sys (w : world) : st :=
  match w_dst w with
  | None => src_sys w
  | Some (m, l) => mkSys m (w_bk w) l
  end.
Definition set_src (w : world) (s : st) : world := mkWorld (mm s) (lk s) (w_dst w) (bk s).
Definition set_dst (w : world) (s : st) : world :=
  match w_dst w with
  | None => set_src w s
  | Some _ => mkWorld (w_src w) (w_src_lk w) (Some (mm s, lk s)) (bk s)
  end.

(** A step of one manager. *)
Definition at_src {A} (op : M st A) : M world A := λ w,
  match op (src_sys w) with
  | Ret x s => Ret x (set_src w s)
  | Exn e s => Exn e (set_src w s)
  | Undef => Undef
  end.
Definition at_dst {A} (op : M st A) : M world A := λ w,
  match op (dst_sys w) with
  | Ret x s => Ret x (set_dst w s)
  | Exn e s => Exn e (set_dst w s)
  | Undef => Undef
  end.

(** A part that lies in one chunk of each side. [fill] is the thread's buffer,
    which holds [filled] throughout once it is not -1. *)
Fixpoint copy_loop (fuel : nat) (sb db soff doff len filled : Z) (fill : Z → Z) : M world unit :=
  if len <=? 0 then ret tt else
  match fuel with
  | O => undef
  | S fuel' =>
      let n := Z.min len (Z.min (kChunkSize - soff mod kChunkSize) (kChunkSize - doff mod kChunkSize)) in
      sc <- at_src (on_alloc (LiveAt sb) (chunk_at (soff / kChunkSize))) ;;
      let byte := match sc with Some (Uniform u) => u | _ => 0 end in
      let '(s, filled, fill) :=
        match sc with
        | Some (Real _ f) => ((λ i, f (soff mod kChunkSize + i)), filled, fill)
        | _ => let '(filled, fill) := if negb (filled =? byte)
                                      then (byte, blit fill 0 (λ _, byte) kChunkSize) else (filled, fill) in
               (fill, filled, fill)
        end in
      at_dst (on_alloc (LiveAt db) (write_body s (doff / kChunkSize) (doff mod kChunkSize) n 0)) ;;;
      copy_loop fuel' sb db (soff + n) (doff + n) (len - n) filled fill
  end.
(** Each pass ends the copy, a source chunk or a destination chunk. *)
Definition copy_fuel (len : Z) : nat := (chunk_fuel len + chunk_fuel len)%nat.

Definition host_in_reach (len : Z) (m : MM) (addr : Z) : bool :=
  may_contain (host_maps_ m) addr || may_contain (host_maps_ m) (u64 (addr + len - 1)).

Definition external_at (m : MM) (b : Z) : bool :=
  match live_ m !! b with Some a => external a | None => false end.

(** MemoryManager::copy_to; [fill0] is what the thread's buffer held. *)
Definition copy_to (fill0 : Z → Z) (dst src len : Z) : M world bool :=
  if len =? 0 then ret true else
  w <- get ;;
  let sm := w_src w in
  let dm := mm (dst_sys w) in
  if copy_armed sm || copy_armed dm then ret false else
  if host_in_reach len sm src || host_in_reach len dm dst then ret false else
  sa <- at_src (run_allocation src len 1 None) ;;
  da <- at_dst (run_allocation dst len 1 None) ;;
  match sa, da with
  | Some sb, Some db =>
      if external_at sm sb || external_at dm db then ret false else
      if match w_dst w with None => sb =? db | Some _ => false end &&
         (src <? u64 (dst + len)) && (dst <? u64 (src + len)) then ret false else
      copy_loop (copy_fuel len) sb db (src - sb) (dst - db) len (-1) fill0 ;;; ret true
  | _, _ => ret false
  end.
End copy.

Section copy_spec.
Context {B : Type} `{HostBacking B} {L : Type} `{OrdinaryLookupOk L}.
Local Abbreviation st := (Sys B L).
Local Abbreviation world := (World B L).

Lemma cells_now_trans m l f g (s1 s2 : st) :
  cells_now m l f s1 → cells_now (mm s1) l g s2 → cells_now m l g s2.
Proof.
  intros (_ & Hf & Ho & Hm & Hr & Hh & Hres) (Hok & Hg & Ho2 & Hm2 & Hr2 & Hh2 & Hres2).
  split_and!; try done; congruence || (intros; by rewrite ?Ho2, ?Ho, ?Hres2).
Qed.

Lemma cells_now_ext m l f g (s : st) : cells_now m l f s → (∀ o, f o = g o) → cells_now m l g s.
Proof. intros (? & Hf & ?) Hg. split; [done|]. split; [|done]. intros o. by rewrite Hf. Qed.

Definition world_ok (w : world) : Prop := sys_ok (src_sys w) ∧ sys_ok (dst_sys w).

Lemma dst_set_dst (w : world) (s : st) : dst_sys (set_dst w s) = s.
Proof. unfold set_dst, dst_sys, src_sys. destruct w as [m l [[m' l']|] b], s; done. Qed.
Lemma src_set_src (w : world) (s : st) : src_sys (set_src w s) = s.
Proof. by destruct s. Qed.

(** The part of an accepted range is resolved to the same allocation. *)
Lemma part_resolves m addr len b d n w slack :
  mem_ok m → is_u64 addr → is_u64 len → ordinary m addr len = Some b → 0 ≤ d → 1 ≤ n → d + n ≤ len →
  is_u64 (addr + d) ∧ resolve m (addr + d) n w slack = inl (LiveAt b, b).
Proof.
  intros Hok Ha Hl Ho Hd Hn Hle.
  destruct (ordinary_live m addr len b Hok Ha Hl Ho) as (a & Hb & _ & Hc & ? & ?).
  destruct (live_room m b a (proj1 Hok) Hb) as (? & ? & ?).
  pose proof (padded_bounds m (a_size a) (ti_config _ (proj1 Hok))).
  assert (Hu : is_u64 (addr + d)) by (unfold is_u64, u64_max in *; lia). split; [done|].
  assert (Hun : is_u64 n) by (unfold is_u64, u64_max in *; lia).
  apply ordinary_resolve_slack; try done. apply (lane_in m b a n (addr + d)); try done.
  rewrite u64_small by (unfold is_u64, u64_max in *; lia). lia.
Qed.

(** One chunk's part, written in the destination. *)
Lemma wp_copy_write dst len db d n src (s : st) :
  sys_ok s → is_u64 dst → is_u64 len → 0 ≤ d → 1 ≤ n → d + n ≤ len → 
  resolve (mm s) (dst + d) n true false = inl (LiveAt db, db) → is_u64 (dst + d) →
  (dst - db + d) mod kChunkSize + n ≤ kChunkSize → (∀ i, 0 ≤ i < n → is_byte (src i)) →
  wp (on_alloc (LiveAt db) (write_body src ((dst - db + d) / kChunkSize) ((dst - db + d) mod kChunkSize) n 0) s)
    (λ _ s', cells_now (mm s) (LiveAt db) (blit (cell (mm s) (LiveAt db)) (dst - db + d) src n) s')
    (λ _ s', ∃ d', 0 ≤ d' < n ∧
       cells_now (mm s) (LiveAt db) (blit (cell (mm s) (LiveAt db)) (dst - db + d) src d') s').
Proof.
  intros Hs Hdst Hlen Hd Hn Hle Hr Hu Hin Hsrc. destruct s as [m k l]. pose proof Hs as [Hok Hlk].
  replace (dst - db + d) with (dst + d - db) in * by lia.
  eapply (wp_located_blit (λ off, write_body src (off / kChunkSize) (off mod kChunkSize) n 0)
    (dst + d) n true false src (mkSys m k l)); try done; [lia|].
  intros a Hwf Hge Hx _. cbn [bk]. eapply wp_mono.
  - apply (wp_write_body a (content a)); [by apply now_holds_refl| |by apply Z.mod_pos_bound|lia|done|done].
    rewrite <- (Z.add_0_r (dst + d - db)). eapply (extent_index a (dst + d - db) 0 n); lia.
  - intros [] ab Hab. rewrite chunk_base in Hab. eapply now_holds_ext; [exact Hab|]. done.
  - intros e ab Hab. exists 0. split; [lia|]. eapply now_holds_ext; [exact Hab|]. intros j. by rewrite blit_0.
Qed.

(** Reading a slot of the source changes nothing. *)
Lemma copy_read (w : world) src len sb d n w' slack :
  world_ok w → is_u64 src → is_u64 len → 0 ≤ d → 1 ≤ n →
  resolve (w_src w) (src + d) n w' slack = inl (LiveAt sb, sb) → is_u64 (src + d) →
  (src - sb + d) mod kChunkSize + n ≤ kChunkSize →
  ∃ c, at_src (on_alloc (LiveAt sb) (chunk_at ((src - sb + d) / kChunkSize))) w = Ret c w ∧
    (∀ i, 0 ≤ i < n → slot_byte c ((src - sb + d) mod kChunkSize + i) =
       cell (w_src w) (LiveAt sb) (src - sb + d + i)) ∧
    (∀ i, is_byte (slot_byte c i)).
Proof.
  intros [[Hok Hlk] _] Hsrc Hlen Hd Hn Hr Hu Hin. cbn [src_sys mm lk] in *.
  assert (Hn0 : 0 ≤ n) by lia. pose proof (resolve_sound _ _ _ _ _ _ Hok Hu Hn0 Hr) as Hres.
  destruct (resolved_alloc _ _ _ _ _ _ _ Hok Hn0 Hres) as (a & Hd' & Hwf & Hge & Hx & _).
  destruct (wf_chunks _ Hwf) as (t & Ht & Hc).
  replace (src + d - sb) with (src - sb + d) in * by lia.
  exists (t !! ((src - sb + d) / kChunkSize)). split_and!.
  - unfold at_src, src_sys. rewrite (on_alloc_look _ (w_src w) (LiveAt sb) a (w_bk w) (w_src_lk w)
      (t !! ((src - sb + d) / kChunkSize)) Hd').
    + by destruct w.
    + apply (chunk_at_ret (a, w_bk w) t); [done|]. cbn [fst]. apply chunk_index_range; [done|lia].
  - intros i Hi. unfold cell. rewrite Hd'. symmetry. apply content_piece; [done|lia..].
  - intros i. destruct (t !! ((src - sb + d) / kChunkSize)) as [c|] eqn:E; [|by unfold is_byte; cbn].
    destruct (Hc _ _ E) as [_ Hco]. by destruct c; cbn in *.
Qed.

(** After [d] bytes of a copy. *)
Definition copied (w0 : world) (sb db soff doff d : Z) (w : world) : Prop :=
  world_ok w ∧
  cells_now (mm (dst_sys w0)) (LiveAt db)
    (blit (cell (mm (dst_sys w0)) (LiveAt db)) doff (λ i, cell (w_src w0) (LiveAt sb) (soff + i)) d) (dst_sys w) ∧
  match w_dst w0 with
  | None => w_dst w = None
  | Some _ => w_src w = w_src w0 ∧ w_dst w ≠ None
  end.

(** The ranges of a copy inside one allocation do not overlap. *)
Definition apart (w0 : world) (sb db src dst len : Z) : Prop :=
  w_dst w0 = None → sb = db → src + len ≤ dst ∨ dst + len ≤ src.

(** What is still to be copied is as it was. *)
Lemma copied_source (w0 w : world) sb db src dst len d i :
  apart w0 sb db src dst len → copied w0 sb db (src - sb) (dst - db) d w → 0 ≤ d ≤ i → i < len →
  cell (w_src w) (LiveAt sb) (src - sb + i) = cell (w_src w0) (LiveAt sb) (src - sb + i).
Proof.
  intros Hap (_ & (_ & Hc & Ho & _) & Hs) Hd Hi. unfold apart in Hap.
  destruct (w_dst w0) as [x|] eqn:E0; [by destruct Hs as [-> _]|].
  unfold dst_sys in Hc, Ho. rewrite Hs, E0 in *. cbn [src_sys mm] in *.
  destruct (decide (sb = db)) as [->|Hne]; [|by rewrite Ho by congruence].
  rewrite Hc. unfold blit. destruct (Hap eq_refl eq_refl); bool_cases; done.
Qed.

Lemma copied_resolve (w0 w : world) sb db so do_ d addr len wr slack :
  copied w0 sb db so do_ d w →
  resolve (w_src w) addr len wr slack = resolve (w_src w0) addr len wr slack ∧
  resolve (mm (dst_sys w)) addr len wr slack = resolve (mm (dst_sys w0)) addr len wr slack.
Proof.
  intros (_ & (_ & _ & _ & _ & _ & _ & Hr) & Hs). split; [|done].
  destruct (w_dst w0) as [x|] eqn:E0; [by destruct Hs as [-> _]|].
  unfold dst_sys in Hr. rewrite Hs, E0 in Hr. apply Hr.
Qed.

(** A part written after [d] bytes. *)
Lemma copied_step (w0 w : world) sb db so do_ d n src (s' : st) :
  copied w0 sb db so do_ d w → 0 ≤ d → 0 ≤ n →
  (∀ i, 0 ≤ i < n → src i = cell (w_src w0) (LiveAt sb) (so + (d + i))) →
  cells_now (mm (dst_sys w)) (LiveAt db) (blit (cell (mm (dst_sys w)) (LiveAt db)) (do_ + d) src n) s' →
  copied w0 sb db so do_ (d + n) (set_dst w s').
Proof.
  intros ([Hws Hwd] & Hc & Hs) Hd Hn Hsrc Hn'. pose proof Hn' as (Hok & _).
  split; [|split].
  - split; [|by rewrite dst_set_dst]. unfold set_dst. destruct (w_dst w) as [[m l]|]; [done|by rewrite src_set_src].
  - rewrite dst_set_dst. eapply cells_now_ext; [by eapply cells_now_trans|]. intros o.
    destruct Hc as (_ & Hc & _). rewrite (blit_ext _ _ _ _ _ _ (Hc o)).
    apply blit_next; try done.
  - unfold set_dst. destruct (w_dst w0) as [x|].
    + destruct Hs as [E Hne]. destruct (w_dst w) as [[m l]|]; [|done]. by split.
    + by rewrite Hs.
Qed.

(** The slot a part is copied from, as the loop takes it: the chunk's bytes, or
    the thread's buffer filled with the byte the chunk reads as. *)
Lemma copy_part c coff n filled (fill : Z → Z) : 0 ≤ n ≤ kChunkSize → 0 ≤ coff →
  (filled ≠ -1 → ∀ i, 0 ≤ i < kChunkSize → fill i = filled) → (∀ i, is_byte (slot_byte c i)) →
  let byte := match c with Some (Uniform u) => u | _ => 0 end in
  let '(s, filled', fill') :=
    match c with
    | Some (Real _ f) => ((λ i, f (coff + i)), filled, fill)
    | _ => let '(filled, fill) := if negb (filled =? byte)
                                  then (byte, blit fill 0 (λ _, byte) kChunkSize) else (filled, fill) in
           (fill, filled, fill)
    end in
  (∀ i, 0 ≤ i < n → s i = slot_byte c (coff + i)) ∧
  (filled' ≠ -1 → ∀ i, 0 ≤ i < kChunkSize → fill' i = filled').
Proof.
  intros Hn Hco Hf Hb. assert (Hfill : ∀ b, is_byte b →
    let '(filled', fill') := if negb (filled =? b) then (b, blit fill 0 (λ _, b) kChunkSize) else (filled, fill) in
    (∀ i, 0 ≤ i < n → fill' i = b) ∧ (filled' ≠ -1 → ∀ i, 0 ≤ i < kChunkSize → fill' i = filled')).
  { intros b Hbb. unfold is_byte in Hbb. destruct (Z.eqb_spec filled b) as [->|]; cbn [negb].
    - split; [|done]. intros i Hi. apply Hf; lia.
    - assert (E : ∀ i, 0 ≤ i < kChunkSize → blit fill 0 (λ _, b) kChunkSize i = b)
        by (intros i Hi; unfold blit; bool_cases; done).
      split; [intros; apply E; lia|done]. }
  destruct c as [[u|p f]|]; cbn [slot_byte] in *.
  - specialize (Hfill u (Hb 0)). by destruct (if negb (filled =? u) then _ else _) as [x y].
  - done.
  - specialize (Hfill 0 (Hb 0)). by destruct (if negb (filled =? 0) then _ else _) as [x y].
Qed.

Definition chunks_left (off len d : Z) : Z := (off + len - 1) / kChunkSize - (off + d) / kChunkSize + 1.

Lemma chunks_left_step off len d n : 0 ≤ n → chunks_left off len (d + n) ≤ chunks_left off len d ∧
  (n = kChunkSize - (off + d) mod kChunkSize → chunks_left off len (d + n) = chunks_left off len d - 1).
Proof.
  intros Hn. unfold chunks_left. split.
  - pose proof (Z.div_le_mono (off + d) (off + (d + n)) kChunkSize ltac:(done) ltac:(lia)). lia.
  - intros ->. rewrite Z.add_assoc, chunk_next. lia.
Qed.

Lemma chunks_left_pos off len d : d < len → 1 ≤ chunks_left off len d.
Proof.
  intros. unfold chunks_left.
  pose proof (Z.div_le_mono (off + d) (off + len - 1) kChunkSize ltac:(done) ltac:(lia)). lia.
Qed.

(** The loop copies the rest of the range, or as much as the host had chunks for. *)
Lemma wp_copy_loop (w0 : world) sb db src dst len :
  is_u64 src → is_u64 dst → is_u64 len → apart w0 sb db src dst len → world_ok w0 →
  ordinary (w_src w0) src len = Some sb → ordinary (mm (dst_sys w0)) dst len = Some db →
  ∀ fuel d filled fill (w : world),
  0 ≤ d ≤ len → copied w0 sb db (src - sb) (dst - db) d w →
  (filled ≠ -1 → ∀ i, 0 ≤ i < kChunkSize → fill i = filled) →
  (d < len → chunks_left (src - sb) len d + chunks_left (dst - db) len d ≤ Z.of_nat fuel) →
  wp (copy_loop fuel sb db (src - sb + d) (dst - db + d) (len - d) filled fill w)
    (λ _ w', copied w0 sb db (src - sb) (dst - db) len w')
    (λ _ w', ∃ d', d ≤ d' < len ∧ copied w0 sb db (src - sb) (dst - db) d' w').
Proof.
  intros Hsrc Hdst Hlen Hap [[Hsok _] [Hdok _]] Hso Hdo. assert (HK : 0 < kChunkSize) by done.
  induction fuel as [|fuel IH]; intros d filled fill w Hd Hc Hfl Hfu; cbn [copy_loop];
    destruct (Z.leb_spec (len - d) 0); try (wp_step; by replace len with d by lia).
  { pose proof (chunks_left_pos (src - sb) len d ltac:(lia)). pose proof (chunks_left_pos (dst - db) len d ltac:(lia)). lia. }
  pose proof (Z.mod_pos_bound (src - sb + d) kChunkSize HK). pose proof (Z.mod_pos_bound (dst - db + d) kChunkSize HK).
  set (n := Z.min (len - d) (Z.min (kChunkSize - (src - sb + d) mod kChunkSize) (kChunkSize - (dst - db + d) mod kChunkSize))).
  assert (Hn : 1 ≤ n ∧ d + n ≤ len ∧ (src - sb + d) mod kChunkSize + n ≤ kChunkSize ∧
    (dst - db + d) mod kChunkSize + n ≤ kChunkSize) by lia. destruct Hn as (Hn1 & Hn2 & Hn3 & Hn4).
  destruct (part_resolves (w_src w0) src len sb d n false false Hsok Hsrc Hlen Hso) as [Hus Hrs]; try lia.
  destruct (part_resolves (mm (dst_sys w0)) dst len db d n true false Hdok Hdst Hlen Hdo) as [Hud Hrd]; try lia.
  rewrite <- (proj1 (copied_resolve w0 w _ _ _ _ _ (src + d) n false false Hc)) in Hrs.
  rewrite <- (proj2 (copied_resolve w0 w _ _ _ _ _ (dst + d) n true false Hc)) in Hrd.
  pose proof Hc as (Hwok & _).
  destruct (copy_read w src len sb d n false false Hwok Hsrc Hlen ltac:(lia) Hn1 Hrs Hus Hn3) as (c & Hrc & Hcell & Hby).
  rewrite (bind_Ret _ _ _ _ _ Hrc).
  pose proof (copy_part c ((src - sb + d) mod kChunkSize) n filled fill ltac:(lia) ltac:(lia) Hfl Hby) as Hp. cbv zeta in Hp |- *.
  destruct (match c with Some (Real _ f) => _ | _ => _ end) as [[s' filled'] fill']. destruct Hp as [Hs' Hfl'].
  assert (Hsc : ∀ i, 0 ≤ i < n → s' i = cell (w_src w0) (LiveAt sb) (src - sb + (d + i))).
  { intros i Hi. rewrite Hs', Hcell by done. rewrite <- Z.add_assoc.
    apply (copied_source w0 w sb db src dst len d); done || lia. }
  wp_step. unfold at_dst.
  assert (Hsb : ∀ i, 0 ≤ i < n → is_byte (s' i)) by (intros i Hi; rewrite Hs' by done; apply Hby).
  pose proof (wp_copy_write dst len db d n s' (dst_sys w) (proj2 Hwok) Hdst Hlen ltac:(lia) Hn1 Hn2 Hrd Hud Hn4 Hsb) as Hw.
  destruct (on_alloc (LiveAt db) _ (dst_sys w)) as [[] s2|e s2|]; cbn [wp] in Hw |- *; [| |done].
  - eapply (copied_step w0 w) in Hw; [|exact Hc|lia|lia|done].
    replace (src - sb + d + n) with (src - sb + (d + n)) by lia. replace (dst - db + d + n) with (dst - db + (d + n)) by lia.
    replace (len - d - n) with (len - (d + n)) by lia.
    eapply wp_mono; [apply IH; [lia|exact Hw|done|]|done|intros e w' (d' & ? & ?); exists d'; split; [lia|done]].
    intros Hlt. specialize (Hfu ltac:(lia)).
    destruct (chunks_left_step (src - sb) len d n ltac:(lia)), (chunks_left_step (dst - db) len d n ltac:(lia)). lia.
  - destruct Hw as (d' & Hd' & Hw). exists (d + d'). split; [lia|].
    eapply (copied_step w0 w); [exact Hc|lia|lia|intros i Hi; apply Hsc; lia|done].
Qed.

(** Only the thread's lookups differ. *)
Definition same_memory (w w' : world) : Prop :=
  w_src w' = w_src w ∧ mm (dst_sys w') = mm (dst_sys w) ∧ (w_dst w' = None ↔ w_dst w = None).

Lemma src_run_allocation (w : world) addr len unit_ :
  world_ok w → is_u64 addr → is_u64 len →
  ∃ w', at_src (run_allocation addr len unit_ None) w = Ret (run_at (w_src w) addr len unit_) w' ∧
    world_ok w' ∧ same_memory w w'.
Proof.
  intros [Hs Hd] Ha Hl. destruct (run_allocation_spec addr len unit_ None (src_sys w) Hs Ha Hl) as (l' & Hl' & Hr).
  unfold at_src. rewrite Hr. eexists. split; [done|]. destruct Hs as [Hok _].
  assert (Hs' : sys_ok (mkSys (w_src w) (w_bk w) l')) by (by split).
  unfold world_ok, same_memory, set_src, dst_sys, src_sys in *. cbn. by destruct (w_dst w) as [[m l]|].
Qed.

Lemma dst_run_allocation (w : world) addr len unit_ :
  world_ok w → is_u64 addr → is_u64 len →
  ∃ w', at_dst (run_allocation addr len unit_ None) w = Ret (run_at (mm (dst_sys w)) addr len unit_) w' ∧
    world_ok w' ∧ same_memory w w'.
Proof.
  intros [Hs Hd] Ha Hl. destruct (run_allocation_spec addr len unit_ None (dst_sys w) Hd Ha Hl) as (l' & Hl' & Hr).
  unfold at_dst. rewrite Hr. eexists. split; [done|]. destruct Hd as [Hok Hlk].
  unfold world_ok, same_memory, set_dst, set_src, dst_sys, src_sys in *.
  destruct (w_dst w) as [[m l]|] eqn:E; cbn in *; rewrite ?E; split_and!; done.
Qed.

Lemma copied_start (w w' : world) sb db so do_ :
  world_ok w' → same_memory w w' → copied w sb db so do_ 0 w'.
Proof.
  intros Hok (Hs & Hd & He). split; [done|]. split.
  - destruct Hok as [_ Hok]. split; [done|]. rewrite Hd. split_and!; try done. intros o. by rewrite blit_0.
  - destruct (w_dst w); [split; [done|]; intros E; by apply He in E|by apply He].
Qed.

Lemma same_memory_trans (w1 w2 w3 : world) : same_memory w1 w2 → same_memory w2 w3 → same_memory w1 w3.
Proof. intros (? & ? & ?) (? & ? & ?). split_and!; try congruence. by etrans. Qed.

(** What copy_to leaves: declined with no byte changed, or the source's bytes in
    the destination; the host running out of memory leaves a prefix of them. *)
Lemma copy_to_spec fill0 (w : world) dst src len :
  world_ok w → is_u64 src → is_u64 dst → 0 < len → is_u64 len →
  wp (copy_to fill0 dst src len w)
    (λ r w', if r then ∃ sb db, ordinary (w_src w) src len = Some sb ∧ ordinary (mm (dst_sys w)) dst len = Some db ∧
                 copied w sb db (src - sb) (dst - db) len w'
             else world_ok w' ∧ same_memory w w')
    (λ _ w', ∃ sb db d, ordinary (w_src w) src len = Some sb ∧ ordinary (mm (dst_sys w)) dst len = Some db ∧
       0 ≤ d < len ∧ copied w sb db (src - sb) (dst - db) d w').
Proof.
  intros Hw Hsrc Hdst Hp Hlen. assert (Hno : world_ok w ∧ same_memory w w) by (by split).
  unfold copy_to. destruct (Z.eqb_spec len 0); [lia|]. wp_step. wp_step.
  destruct (copy_armed (w_src w) || copy_armed (mm (dst_sys w))); [done|].
  destruct (host_in_reach len (w_src w) src || host_in_reach len (mm (dst_sys w)) dst); [done|].
  destruct (src_run_allocation w src len 1 Hw Hsrc Hlen) as (w1 & Hr1 & Hw1 & Hs1). rewrite (bind_Ret _ _ _ _ _ Hr1).
  destruct (dst_run_allocation w1 dst len 1 Hw1 Hdst Hlen) as (w2 & Hr2 & Hw2 & Hs2). rewrite (bind_Ret _ _ _ _ _ Hr2).
  pose proof (same_memory_trans w w1 w2 Hs1 Hs2) as Hs. rewrite (proj1 (proj2 Hs1)). clear Hr1 Hr2.
  destruct (run_at (w_src w) src len 1) as [sb|] eqn:Es; [|done].
  destruct (run_at (mm (dst_sys w)) dst len 1) as [db|] eqn:Ed; [|done].
  destruct (_ || external_at (mm (dst_sys w)) db); [done|].
  pose proof Hw as [[Hsok _] [Hdok _]].
  destruct (run_at_inv _ _ _ _ _ Hsok Hsrc Hlen Es) as (_ & _ & _ & Hos & _).
  destruct (run_at_inv _ _ _ _ _ Hdok Hdst Hlen Ed) as (_ & _ & _ & Hod & _).
  destruct (match w_dst w with None => _ | Some _ => _ end && _ && _) eqn:Eo; [done|].
  assert (Hap : apart w sb db src dst len).
  { intros E ->. rewrite E, Z.eqb_refl in Eo. unfold dst_sys in *. rewrite E in *. cbn [andb src_sys mm] in *.
    destruct (ordinary_live _ _ _ _ Hsok Hsrc Hlen Hos) as (a & Hb & _ & _ & ? & ?).
    destruct (ordinary_live _ _ _ _ Hdok Hdst Hlen Hod) as (a' & Hb' & _ & _ & ? & ?).
    cbn [mm src_sys] in *. replace a' with a in * by congruence. destruct (live_room _ _ _ (proj1 Hsok) Hb) as (? & ? & ?).
    pose proof (padded_bounds (w_src w) (a_size a) (ti_config _ (proj1 Hsok))). unfold is_u64, u64_max in *.
    rewrite !u64_small in Eo by (unfold is_u64; lia). apply andb_false_iff in Eo as [?%Z.ltb_ge|?%Z.ltb_ge]; lia. }
  wp_step.
  pose proof (wp_copy_loop w sb db src dst len Hsrc Hdst Hlen Hap) as Hloop.
  specialize (Hloop Hw Hos Hod (copy_fuel len) 0 (-1) fill0 w2).
  rewrite !Z.add_0_r, Z.sub_0_r in Hloop.
  eapply wp_mono; [apply Hloop; [lia|by apply copied_start|done|]|..].
  - intros _. unfold copy_fuel, chunks_left. rewrite Nat2Z.inj_add, !Z.add_0_r.
    destruct (ordinary_live _ _ _ _ Hsok Hsrc Hlen Hos) as (? & _ & _ & _ & ? & _).
    destruct (ordinary_live _ _ _ _ Hdok Hdst Hlen Hod) as (? & _ & _ & _ & ? & _).
    pose proof (chunk_fuel_enough (src - sb) len ltac:(lia) ltac:(lia)).
    pose proof (chunk_fuel_enough (dst - db) len ltac:(lia) ltac:(lia)). lia.
  - intros [] w' Hc. wp_step. by exists sb, db.
  - intros e w' (d & Hd & Hc). by exists sb, db, d.
Qed.
End copy_spec.
