(* ===== verification/Rmw.v ===== *)
(** * Read-modify-write and multi-field reads (src/core/memory.cpp)

    load_scalar and store_scalar with one lookup: the scalar read-modify-writes,
    the batched ones, the multi-field loads of a texture; and the lock-free
    atomics, whose compare-and-swap loop runs against other threads' stores. *)

From S2P Require Import Prelude Chunks HostMaps BrLock MemState MemTable Vmm VmmRange Resolve Lookup Access Batch.

(** MemoryManager::RmwSlot. [rs_chunk] is the slot as it was read: of a real
    chunk only that it is real counts, its bytes are read through the slot. *)
Record RmwSlot := mkRmwSlot {
  rs_base : Z;
  rs_chunk_idx : Z;
  rs_coff : Z;
  rs_chunk : option chunk;
}.

Section rmw.
Context {B : Type} `{HostBacking B} {L : Type} `{OrdinaryLookup L}.
Local Abbreviation st := (Sys B L).
Local Abbreviation ab := (Allocation * B)%type.

(** [RmwSlot s{&a, off / kChunkSize, off % kChunkSize, chunk}] *)
Definition slot_at (b off : Z) : M ab RmwSlot :=
  c <- chunk_at (off / kChunkSize) ;;
  ret (mkRmwSlot b (off / kChunkSize) (off mod kChunkSize) c).

(** MemoryManager::rmw_locate *)
Definition rmw_locate (addr size : Z) : M st (option RmwSlot) :=
  m <- get_mm ;;
  if negb (scalar_size size) || negb (Z.land addr (size - 1) =? 0) then ret None else
  if access_faults_armed m then ret None else
  if may_contain (host_maps_ m) addr then ret None else
  f <- ordinary_lookup addr size None ;;
  match f with
  | None => ret None
  | Some b => s <- on_alloc (LiveAt b) (slot_at b (addr - b)) ;; ret (Some s)
  end.

(** MemoryManager::rmw_load *)
Definition rmw_load (s : RmwSlot) (size : Z) : M ab Z :=
  match rs_chunk s with
  | None => ret 0
  | Some (Uniform u) => ret (repeated u size)
  | Some (Real _ _) =>
      c <- chunk_at (rs_chunk_idx s) ;;
      match c with
      | Some (Real p f) =>
          if rs_coff s + size <=? kChunkSize then ret (load_at p f (rs_coff s) size) else undef
      | _ => undef
      end
  end.

(** MemoryManager::rmw_store *)
Definition rmw_store (s : RmwSlot) (size value : Z) : M ab unit :=
  chunk <- (match rs_chunk s with
            | Some (Real p f) => ret (Some (Real p f))
            | _ => chunk_at (rs_chunk_idx s)
            end) ;;
  if match chunk with Some (Uniform u) => value =? repeated u size | _ => false end then ret tt else
  materialize_if_not_real chunk (rs_chunk_idx s) ;;;
  chunk_update (rs_chunk_idx s) (rs_coff s) size (λ p f, store_at p f (rs_coff s) size value).

(** MemoryManager::rmw_scalar_fn; [None] is the refusal. *)
Definition rmw_scalar_fn (addr size : Z) (compute : Z → Z) : M st (option Z) :=
  f <- rmw_locate addr size ;;
  match f with
  | None => ret None
  | Some s =>
      old <- on_alloc (LiveAt (rs_base s)) (rmw_load s size) ;;
      on_alloc (LiveAt (rs_base s)) (rmw_store s size (compute old)) ;;;
      ret (Some old)
  end.

(** MemoryManager::rmw_if_changed_fn *)
Definition rmw_if_changed_fn (addr size : Z) (compute : Z → Z) : M st (option Z) :=
  m <- get_mm ;;
  if negb (scalar_size size) || negb (Z.land addr (size - 1) =? 0) || access_faults_armed m then ret None else
  p <- hot_location addr size ;;
  match p with
  | None => ret None
  | Some (l, off) =>
      old <- load_real l off size ;;
      let now := compute old in
      (if negb (now =? old) then store_real l off size now else ret tt) ;;;
      ret (Some old)
  end.

(** ** The lock-free atomics

    Between this thread's atomic steps other threads store into the allocation;
    a weak compare-and-swap may also fail on its own. A [turn] is what happens
    before one swap is tried: the stores (offset, size, value), and whether the
    swap fails spuriously. *)
Record turn := mkTurn { t_stores : list (Z * Z * Z); t_spurious : bool }.

(** Another thread's store; one that throws there is none of this call's. *)
Definition other_store (x : Z * Z * Z) : M ab unit := λ s,
  let '(off, size, v) := x in
  match store_word off size v s with
  | Ret _ s' => Ret tt s'
  | Exn _ s' => Ret tt s'
  | Undef => Undef
  end.
Definition other_stores (l : list (Z * Z * Z)) : M ab unit :=
  foldr (λ x k, other_store x ;;; k) (ret tt) l.

(** [__atomic_load_n] of the word, and [__atomic_compare_exchange_n]. *)
Definition atomic_load (s : RmwSlot) (size : Z) : M ab Z :=
  c <- chunk_at (rs_chunk_idx s) ;;
  match c with
  | Some (Real p f) =>
      if rs_coff s + size <=? kChunkSize then ret (le_load f (rs_coff s) (Z.to_nat size)) else undef
  | _ => undef
  end.
Definition atomic_put (s : RmwSlot) (size now : Z) : M ab unit :=
  chunk_update (rs_chunk_idx s) (rs_coff s) size (λ _ f, le_store f (rs_coff s) size now).

(** The swap loop from the value [old] on. With the turns used up nothing else
    runs; a swap that still does not find [old] is a loop without end. *)
Fixpoint cas_loop (turns : list turn) (s : RmwSlot) (size : Z) (compute : Z → Z) (old : Z) : M ab Z :=
  let now := if size =? 4 then u32 (compute old) else compute old in
  if now =? old then ret old else
  match turns with
  | [] =>
      cur <- atomic_load s size ;;
      if cur =? old then atomic_put s size now ;;; ret old else undef
  | t :: turns' =>
      other_stores (t_stores t) ;;;
      cur <- atomic_load s size ;;
      if (cur =? old) && negb (t_spurious t) then atomic_put s size now ;;; ret old
      else cas_loop turns' s size compute cur
  end.

(** MemoryManager::atomic_rmw_slot; [before] runs before the loop's load. The
    loop's second turn always finds the chunk real. *)
Definition swap_real (before : list (Z * Z * Z)) (turns : list turn) (s : RmwSlot) (size : Z) (compute : Z → Z) : M ab Z :=
  other_stores before ;;;
  old <- atomic_load s size ;;
  cas_loop turns s size compute old.
Definition atomic_rmw_slot (before : list (Z * Z * Z)) (turns : list turn) (s : RmwSlot) (size : Z) (compute : Z → Z)
    (always_store : bool) : M ab Z :=
  match rs_chunk s with
  | Some (Real _ _) => swap_real before turns s size compute
  | _ =>
      old <- rmw_load s size ;;
      let now := compute old in
      let uniform := match rs_chunk s with Some _ => true | None => false end in
      if (if uniform then now =? old else (now =? old) && negb always_store) then ret old else
      other_stores before ;;;
      materialize (rs_chunk_idx s) ;;;
      swap_real [] turns s size compute
  end.

(** MemoryManager::atomic_rmw_fn *)
Definition atomic_rmw_fn (before : list (Z * Z * Z)) (turns : list turn) (addr size : Z) (compute : Z → Z)
    (always_store : bool) : M st (option Z) :=
  if negb (size =? 4) && negb (size =? 8) then ret None else
  f <- rmw_locate addr size ;;
  match f with
  | None => ret None
  | Some s =>
      old <- on_alloc (LiveAt (rs_base s)) (atomic_rmw_slot before turns s size compute always_store) ;;
      ret (Some old)
  end.

(** MemoryManager::atomic_word_ptrs: where each word is in a real chunk. *)
Definition atomic_word_ptrs (addrs : list Z) (size : Z) : M st (option (list (option (loc * Z)))) :=
  m <- get_mm ;;
  if match addrs with [] => true | _ => false end || (negb (size =? 4) && negb (size =? 8)) then ret None else
  if access_faults_armed m then ret None else
  f <- batch_ok addrs size true None ;;
  match f with
  | None => ret None
  | Some b =>
      out <- on_alloc (LiveAt b) (traverse (λ x,
        let off := u64 (x - b) in
        c <- chunk_at (off / kChunkSize) ;;
        ret (match c with Some (Real _ _) => Some (LiveAt b, off) | _ => None end)) addrs) ;;
      ret (Some out)
  end.

(** ** Batches *)

(** One lane of the plain loop: the slot is read for each lane. The value read
    is out before the store is tried. *)
Definition plain_lane (b off size : Z) (compute : Z → Z) (always_store : bool) (s : st) : option Z * outcome st unit :=
  match on_alloc (LiveAt b) (slot <- slot_at b off ;; old <- rmw_load slot size ;; ret (slot, old)) s with
  | Ret (slot, old) s1 =>
      let now := compute old in
      (Some old, if negb (now =? old) || always_store
                 then on_alloc (LiveAt b) (rmw_store slot size now) s1 else Ret tt s1)
  | Exn e s1 => (None, Exn e s1)
  | Undef => (None, Undef)
  end.

(** The plain loop: the outcome, the values read, and [*done]. *)
Fixpoint rmw_plain (b size : Z) (compute : Z → Z → Z) (always_store : bool) (i : Z) (addrs : list Z) (s : st) :
    outcome st unit * list Z * Z :=
  match addrs with
  | [] => (Ret tt s, [], i)
  | x :: rest =>
      match plain_lane b (u64 (x - b)) size (compute i) always_store s with
      | (old, Ret _ s1) =>
          let '(o, olds, d) := rmw_plain b size compute always_store (i + 1) rest s1 in
          (o, option_list old ++ olds, d)
      | (old, Exn e s1) => (Exn e s1, option_list old, i)
      | (_, Undef) => (Undef, [], i)
      end
  end.

(** The lock-free loop; [runs] is what other threads do in each lane. *)
Fixpoint rmw_lock_free (b size : Z) (compute : Z → Z → Z) (always_store : bool)
    (runs : Z → list (Z * Z * Z) * list turn) (i : Z) (addrs : list Z) (s : st) : outcome st unit * list Z * Z :=
  match addrs with
  | [] => (Ret tt s, [], i)
  | x :: rest =>
      match on_alloc (LiveAt b) (slot <- slot_at b (u64 (x - b)) ;;
              atomic_rmw_slot (fst (runs i)) (snd (runs i)) slot size (compute i) always_store) s with
      | Ret old s1 =>
          let '(o, olds, d) := rmw_lock_free b size compute always_store runs (i + 1) rest s1 in
          (o, old :: olds, d)
      | Exn e s1 => (Exn e s1, [], i)
      | Undef => (Undef, [], i)
      end
  end.

(** MemoryManager::rmw_batch_fn: accepted or not, the values read and [*done]. *)
Definition rmw_batch_fn (addrs : list Z) (size : Z) (compute : Z → Z → Z) (lock_free always_store : bool)
    (runs : Z → list (Z * Z * Z) * list turn) (s : st) : outcome st bool * list Z * Z :=
  match addrs with
  | [] => (Ret true s, [], 0)
  | _ =>
      if lock_free && negb (size =? 4) && negb (size =? 8) then (Ret false s, [], 0) else
      if access_faults_armed (mm s) then (Ret false s, [], 0) else
      match batch_ok addrs size true None s with
      | Ret None s1 => (Ret false s1, [], 0)
      | Ret (Some b) s1 =>
          let '(o, olds, d) := if lock_free then rmw_lock_free b size compute always_store runs 0 addrs s1
                               else rmw_plain b size compute always_store 0 addrs s1 in
          (match o with Ret _ s2 => Ret true s2 | Exn e s2 => Exn e s2 | Undef => Undef end, olds, d)
      | Exn e s1 => (Exn e s1, [], 0)
      | Undef => (Undef, [], 0)
      end
  end.

(** ** Multi-field reads *)

(** The first pass of load_fields: the total of the sizes, when all pass. *)
Fixpoint fields_total (m : MM) (addr : Z) (sizes : list Z) (total : Z) : option Z :=
  match sizes with
  | [] => Some total
  | sz :: rest =>
      if sz =? 0 then fields_total m addr rest total else
      if negb (scalar_size sz) || negb (Z.land (u64 (addr + total)) (sz - 1) =? 0) then None else
      if may_contain (host_maps_ m) (u64 (addr + total)) then None else
      fields_total m addr rest (total + sz)
  end.
Fixpoint fields_loop (off : Z) (sizes : list Z) : M ab (list Z) :=
  match sizes with
  | [] => ret []
  | sz :: rest =>
      if sz =? 0 then vs <- fields_loop off rest ;; ret (0 :: vs) else
      v <- load_word off sz ;;
      vs <- fields_loop (off + sz) rest ;;
      ret (v :: vs)
  end.

(** MemoryManager::load_fields *)
Definition load_fields (addr : Z) (sizes : list Z) : M st (option (list Z)) :=
  m <- get_mm ;;
  match fields_total m addr sizes 0 with
  | None => ret None
  | Some total =>
      if total =? 0 then ret (Some (replicate (length sizes) 0)) else
      if access_faults_armed m then ret None else
      f <- ordinary_lookup addr total None ;;
      match f with
      | None => ret None
      | Some b => out <- on_alloc (LiveAt b) (fields_loop (addr - b) sizes) ;; ret (Some out)
      end
  end.

(** MemoryManager::load_texels; [channels] words of [size] bytes at each address. *)
Definition load_texels (addrs : list Z) (size channels : Z) : M st (option (list Z)) :=
  match addrs with
  | [] => undef   (* reads addrs[0] *)
  | a0 :: _ =>
      m <- get_mm ;;
      let total := u64 (size * channels) in
      let lo := foldl Z.min a0 addrs in
      let hi := foldl Z.max a0 addrs in
      let misaligned := foldl Z.lor 0 addrs in
      if negb (Z.land misaligned (size - 1) =? 0) then ret None else
      if may_overlap (host_maps_ m) lo (u64 (hi + total - 1)) then ret None else
      if access_faults_armed m then ret None else
      f <- ordinary_lookup lo (u64 (hi - lo + total)) None ;;
      match f with
      | None => ret None
      | Some b =>
          out <- on_alloc (LiveAt b) (traverse (λ x,
            traverse (λ c, load_word (u64 (x - b) + c * size) size) (seqZ 0 channels)) addrs) ;;
          ret (Some (concat out))
      end
  end.
End rmw.

Section rmw_specs.
Context {B : Type} `{HostBacking B} {L : Type} `{OrdinaryLookupOk L}.
Local Abbreviation st := (Sys B L).
Local Abbreviation ab := (Allocation * B)%type.

(** A scalar read-modify-write, as the two scalar accesses. *)
Definition scalar_rmw (addr size : Z) (compute : Z → Z) (always_store : bool) : M st Z :=
  old <- load_scalar addr size ;;
  let now := compute old in
  (if negb (now =? old) || always_store then store_scalar addr size now else ret tt) ;;;
  ret old.

Lemma get_mm_bind {A} (g : MM → M st A) (s : st) : (m <- get_mm ;; g m) s = g (mm s) s.
Proof. done. Qed.

(** A slot just read loads and stores as the offset does. *)
Lemma slot_load b off size c (s : ab) :
  chunk_at (off / kChunkSize) s = Ret c s →
  rmw_load (mkRmwSlot b (off / kChunkSize) (off mod kChunkSize) c) size s = load_word off size s.
Proof.
  intros Hc. unfold rmw_load, load_word. cbn. erewrite (bind_Ret _ _ _ c) by exact Hc.
  destruct c as [[u|p f]|]; try done. by erewrite bind_Ret by exact Hc.
Qed.

Lemma slot_store b off size v c (s : ab) :
  chunk_at (off / kChunkSize) s = Ret c s →
  rmw_store (mkRmwSlot b (off / kChunkSize) (off mod kChunkSize) c) size v s = store_word off size v s.
Proof.
  intros Hc. unfold rmw_store, store_word. cbn. erewrite (bind_Ret (chunk_at _) _ _ c) by exact Hc.
  destruct c as [[u|p f]|]; [|done|]; by erewrite bind_Ret by exact Hc.
Qed.

Lemma faults_split m : access_faults_armed m = false → no_load_fault m ∧ no_store_fault m.
Proof. unfold access_faults_armed, no_load_fault, no_store_fault. by intros [[? ?]%orb_false_iff ?]%orb_false_iff. Qed.

(** The slot of an ordinary scalar. *)
Lemma good_slot m b size x (k : B) (l : L) :
  mem_ok m → scalar_size size = true → is_u64 x → good_lane m b size x →
  ∃ a c, live_ m !! b = Some a ∧ wf_alloc a ∧ chunk_at ((x - b) / kChunkSize) (a, k) = Ret c (a, k) ∧
    u64 (x - b) = x - b ∧
    on_alloc (LiveAt b) (slot_at b (x - b)) (mkSys m k l) =
      Ret (mkRmwSlot b ((x - b) / kChunkSize) ((x - b) mod kChunkSize) c) (mkSys m k l).
Proof.
  intros Hok Hsz Hx Hg. pose proof Hg as (Ho & _).
  assert (Hsu : is_u64 size) by (apply scalar_size_cases in Hsz; unfold is_u64; lia).
  assert (1 ≤ size) by (apply scalar_size_cases in Hsz; lia).
  destruct (ordinary_live _ _ _ _ Hok Hx Hsu Ho) as (a & Hb & _).
  destruct (good_lane_word m b a size x k Hok Hb Hsz Hx Hg) as (? & ? & _ & Hu & _).
  destruct (ti_live _ (proj1 Hok) _ _ Hb) as (Hwf & _). pose proof (size_le_extent a Hwf).
  destruct (wf_chunks _ Hwf) as (t & Ht & _).
  assert (Hi : 0 ≤ (x - b) / kChunkSize < chunk_count a) by (apply chunk_index_range; [done|lia]).
  pose proof (chunk_at_ret (a, k) t _ Ht Hi) as Hc. exists a, (t !! ((x - b) / kChunkSize)).
  split_and!; try done. apply (on_alloc_look _ m (LiveAt b) a); [done|].
  unfold slot_at. by erewrite bind_Ret by exact Hc.
Qed.

(** What is true of the state after a lane. *)
Definition lane_kept (m : MM) (s : st) : Prop :=
  sys_ok s ∧ (∀ y n, ordinary (mm s) y n = ordinary m y n) ∧ host_maps_ (mm s) = host_maps_ m ∧
  access_fault_ (mm s) = access_fault_ m.

(** A lane of the plain loop is the two scalar accesses: it reads the same
    value, and leaves the same memory or the same exception. *)
Lemma plain_lane_scalar m k (l0 l0' : L) b size x f always :
  sys_ok (mkSys m k l0) → sys_ok (mkSys m k l0') → scalar_size size = true → access_faults_armed m = false →
  is_u64 x → good_lane m b size x →
  ∃ old, fst (plain_lane b (u64 (x - b)) size f always (mkSys m k l0)) = Some old ∧
    match snd (plain_lane b (u64 (x - b)) size f always (mkSys m k l0)), scalar_rmw x size f always (mkSys m k l0') with
    | Ret _ s1, Ret v s2 => v = old ∧ mm s1 = mm s2 ∧ bk s1 = bk s2 ∧ lane_kept m s1 ∧ lane_kept m s2
    | Exn e s1, Exn e' s2 => e = e' ∧ mm s1 = mm s2 ∧ bk s1 = bk s2
    | _, _ => False
    end.
Proof.
  intros Hs Hs' Hsz Hf Hx Hg. destruct (faults_split m Hf) as [Hlf Hsf]. pose proof Hs as [Hok Hl0].
  pose proof Hg as (Ho & Hal & Hh). cbn [mm lk] in *.
  assert (Hsu : is_u64 size) by (apply scalar_size_cases in Hsz; unfold is_u64; lia).
  destruct (good_slot m b size x k l0 Hok Hsz Hx Hg) as (a & c & Hb & Hwf & Hc & Hu & Hsl).
  destruct (good_lane_word m b a size x k Hok Hb Hsz Hx Hg) as (Hge & Hle & Hoa & _ & Hw).
  set (old := le_load (cell m (LiveAt b)) (x - b) (Z.to_nat size)) in *.
  set (slot := mkRmwSlot b ((x - b) / kChunkSize) ((x - b) mod kChunkSize) c) in *.
  assert (Hread : on_alloc (LiveAt b) (slot <- slot_at b (x - b) ;; old <- rmw_load slot size ;; ret (slot, old))
    (mkSys m k l0) = Ret (slot, old) (mkSys m k l0)).
  { apply (on_alloc_look _ m (LiveAt b) a); [done|]. unfold slot_at.
    erewrite bind_Ret by (by erewrite bind_Ret by exact Hc).
    erewrite bind_Ret by (rewrite slot_load by exact Hc; exact Hw). done. }
  unfold plain_lane. rewrite Hu, Hread. cbn [fst snd]. exists old. split; [done|].
  destruct (load_scalar_spec x size (mkSys m k l0') Hs' Hx Hsz Hal Hh Hlf) as (l1 & Hl1 & E1).
  cbn [mm bk] in *. rewrite (ordinary_resolve_slack _ _ _ _ false true Hok Hx Hsu Ho) in E1.
  unfold scalar_rmw. rewrite (bind_Ret _ _ _ _ _ E1). cbv zeta. fold old.
  destruct (negb (f old =? old) || always).
  2:{ cbn. split_and!; try done; split_and!; done. }
  assert (Hs1 : sys_ok (mkSys m k l1)) by (by split; [apply Hs'|]).
  destruct (store_scalar_exact x size (f old) (mkSys m k l1) Hs1 Hx Hsz Hal Hh Hsf) as (l2 & Hl2 & E2).
  cbn [mm bk] in *. rewrite (ordinary_resolve_slack _ _ _ _ false false Hok Hx Hsu Ho) in E2.
  destruct (store_lane m b a size x (f old) k l0 Hok Hl0 Hb Hsz Hx Hg) as [_ Hsw].
  unfold bind. rewrite E2. unfold on_alloc. cbn [mm bk lk deref]. rewrite Hb.
  unfold slot. rewrite (slot_store b (x - b) size (f old) c (a, k) Hc).
  destruct (store_word (x - b) size (f old) (a, k)) as [[] [a' b']|e [a' b']|]; cbn in Hsw |- *; [|split_and!; reflexivity|done].
  destruct Hsw as [Hwf' Hsh].
  assert (Hkept : ∀ l3, lookup_inv m l3 → lane_kept m (mkSys (put_alloc m (LiveAt b) a') b' l3)).
  { intros l3 Hl3. split_and!; try done; [split; cbn [mm lk]|].
    - by eapply put_alloc_ok.
    - eapply lookup_inv_records; [exact Hl3|]. by apply (put_alloc_records m (LiveAt b) a a').
    - intros y n. by apply (ordinary_put m (LiveAt b) a a'). }
  split_and!; try done; by apply Hkept.
Qed.

(** The plain loop is the scalar read-modify-writes in order: the same values
    read, the same memory; an exception stops both at the same lane. *)
Fixpoint rmw_each (size : Z) (compute : Z → Z → Z) (always : bool) (i : Z) (addrs : list Z) : M st (list Z) :=
  match addrs with
  | [] => ret []
  | x :: rest => old <- scalar_rmw x size (compute i) always ;;
                 olds <- rmw_each size compute always (i + 1) rest ;;
                 ret (old :: olds)
  end.

Lemma good_lane_kept m b size (s : st) y : lane_kept m s → good_lane m b size y → good_lane (mm s) b size y.
Proof. intros (_ & Ho & Hh & _) (? & ? & ?). split_and!; rewrite ?Ho, ?Hh; done. Qed.

Lemma armed_kept m (s : st) : lane_kept m s → access_faults_armed (mm s) = access_faults_armed m.
Proof. intros (_ & _ & _ & Hf). unfold access_faults_armed, any_stuck, load_armed, store_armed. by rewrite Hf. Qed.

Lemma rmw_plain_each b size compute always addrs i (s s' : st) :
  sys_ok s → sys_ok s' → mm s = mm s' → bk s = bk s' → scalar_size size = true →
  access_faults_armed (mm s) = false → Forall is_u64 addrs → Forall (good_lane (mm s) b size) addrs →
  let '(o, olds, d) := rmw_plain b size compute always i addrs s in
  match o, rmw_each size compute always i addrs s' with
  | Ret _ s1, Ret vs s2 => vs = olds ∧ d = i + Z.of_nat (length addrs) ∧ mm s1 = mm s2 ∧ bk s1 = bk s2
  | Exn e s1, Exn e' s2 => e = e' ∧ mm s1 = mm s2 ∧ bk s1 = bk s2 ∧
      ∃ n s3, (n < length addrs)%nat ∧ d = i + Z.of_nat n ∧ rmw_each size compute always i (take n addrs) s' = Ret (take n olds) s3
  | _, _ => False
  end.
Proof.
  revert i s s'. induction addrs as [|x addrs IH]; intros i [m k l0] [m' k' l0'] Hs Hs'; cbn [mm bk];
    intros <- <- Hsz Hf Hu Hg; [cbn; split_and!; try done; lia|].
  apply Forall_cons in Hg as [Hgx Hg], Hu as [Hux Hu]. cbn [rmw_plain rmw_each].
  destruct (plain_lane_scalar m k l0 l0' b size x (compute i) always Hs Hs' Hsz Hf Hux Hgx) as (old & Ho & Hlane).
  destruct (plain_lane b (u64 (x - b)) size (compute i) always (mkSys m k l0)) as [oo r]. cbn [fst snd] in *. subst oo.
  destruct r as [[] s1|e s1|], (scalar_rmw x size (compute i) always (mkSys m k l0')) as [v s2|e2 s2|] eqn:Er; try done.
  - destruct Hlane as (-> & Hm & Hb & Hk1 & Hk2). rewrite (bind_Ret _ _ _ _ _ Er).
    assert (Hg1 : Forall (good_lane (mm s1) b size) addrs)
      by (eapply Forall_impl; [exact Hg|]; intros y Hy; by eapply good_lane_kept).
    specialize (IH (i + 1) s1 s2 (proj1 Hk1) (proj1 Hk2) Hm Hb Hsz). rewrite (armed_kept m s1 Hk1) in IH.
    specialize (IH Hf Hu Hg1). destruct (rmw_plain b size compute always (i + 1) addrs s1) as [[o olds] d].
    destruct o as [[] s3|e s3|], (rmw_each size compute always (i + 1) addrs s2) as [vs s4|e4 s4|] eqn:Ee; try done.
    + destruct IH as (-> & -> & ? & ?). rewrite (bind_Ret _ _ _ _ _ Ee). cbn [option_list app length]. split_and!; try done. lia.
    + destruct IH as (-> & ? & ? & n & s5 & Hn & -> & En). rewrite (bind_Exn _ _ _ _ _ Ee). cbn [option_list app]. split_and!; try done. exists (S n), s5.
      cbn [length take option_list app rmw_each]. split_and!; [lia|lia|]. unfold bind. by rewrite Er, En.
  - destruct Hlane as (-> & ? & ?). rewrite (bind_Exn _ _ _ _ _ Er). split_and!; try done. exists 0%nat, (mkSys m k l0').
    cbn. split_and!; [lia|lia|done].
Qed.

(** *** One scalar *)

Lemma rmw_locate_spec addr size (s : st) :
  sys_ok s → is_u64 addr →
  ∃ r l', rmw_locate addr size s = Ret r (mkSys (mm s) (bk s) l') ∧ lookup_inv (mm s) l' ∧
    ∀ slot, r = Some slot → scalar_size size = true ∧ access_faults_armed (mm s) = false ∧
      ∃ b a c, good_lane (mm s) b size addr ∧ live_ (mm s) !! b = Some a ∧ wf_alloc a ∧
        chunk_at ((addr - b) / kChunkSize) (a, bk s) = Ret c (a, bk s) ∧
        slot = mkRmwSlot b ((addr - b) / kChunkSize) ((addr - b) mod kChunkSize) c.
Proof.
  intros Hs Ha. pose proof Hs as [Hok Hlk]. unfold rmw_locate, get_mm, bind at 1.
  destruct s as [m k l]. cbn [mm bk lk] in *.
  assert (Hno : ∃ r l', @ret st _ None (mkSys m k l) = Ret r (mkSys m k l') ∧ lookup_inv m l' ∧
    ∀ slot : RmwSlot, r = Some slot → scalar_size size = true ∧ access_faults_armed m = false ∧
      ∃ b a c, good_lane m b size addr ∧ live_ m !! b = Some a ∧ wf_alloc a ∧
        chunk_at ((addr - b) / kChunkSize) (a, k) = Ret c (a, k) ∧
        slot = mkRmwSlot b ((addr - b) / kChunkSize) ((addr - b) mod kChunkSize) c) by (by exists None, l).
  destruct (negb (scalar_size size) || negb (Z.land addr (size - 1) =? 0)) eqn:E1; [done|].
  apply orb_false_iff in E1 as [Hsz%negb_false_iff Hal%negb_false_iff%Z.eqb_eq].
  rewrite land_aligned in Hal by done.
  destruct (access_faults_armed m) eqn:Hf; [done|]. destruct (may_contain (host_maps_ m) addr) eqn:Hh; [done|].
  assert (Hsu : is_u64 size) by (apply scalar_size_cases in Hsz; unfold is_u64; lia).
  destruct (ordinary_lookup_spec addr size None (mkSys m k l) Hs Ha Hsu) as (f & l' & Hfo & Hl' & Ho).
  rewrite (bind_Ret _ _ _ _ _ Hfo). destruct f as [b|]; [|by exists None, l']. cbn [mm bk] in *.
  assert (Hg : good_lane m b size addr) by (split_and!; [by apply Ho|done|done]).
  destruct (good_slot m b size addr k l' Hok Hsz Ha Hg) as (a & c & Hb & Hwf & Hc & _ & Hsl).
  rewrite (bind_Ret _ _ _ _ _ Hsl). eexists _, l'. split_and!; [done|done|]. intros ? [= <-].
  split_and!; try done. by exists b, a, c.
Qed.

(** A slot just read, as the lane of a batch. *)
Lemma slot_lane m b a size x c k (l : L) f always :
  mem_ok m → scalar_size size = true → is_u64 x → good_lane m b size x → live_ m !! b = Some a →
  chunk_at ((x - b) / kChunkSize) (a, k) = Ret c (a, k) →
  let slot := mkRmwSlot b ((x - b) / kChunkSize) ((x - b) mod kChunkSize) c in
  let s := mkSys m k l in
  ∃ old, on_alloc (LiveAt b) (rmw_load slot size) s = Ret old s ∧
    plain_lane b (u64 (x - b)) size f always s =
      (Some old, if negb (f old =? old) || always then on_alloc (LiveAt b) (rmw_store slot size (f old)) s else Ret tt s).
Proof.
  intros Hok Hsz Hx Hg Hb Hc slot s.
  destruct (good_lane_word m b a size x k Hok Hb Hsz Hx Hg) as (_ & _ & _ & Hu & Hw).
  set (old := le_load (cell m (LiveAt b)) (x - b) (Z.to_nat size)) in *. exists old.
  assert (Hl : rmw_load slot size (a, k) = Ret old (a, k)) by (unfold slot; rewrite slot_load by exact Hc; exact Hw).
  split; [by apply (on_alloc_look _ m (LiveAt b) a)|]. unfold plain_lane. rewrite Hu.
  erewrite (on_alloc_look _ m (LiveAt b) a k l (slot, old)); [done|done|].
  unfold slot_at. erewrite bind_Ret by (by erewrite bind_Ret by exact Hc). by erewrite bind_Ret by exact Hl.
Qed.

(** rmw_scalar_fn declines, or is a load and a store of the scalar. *)
Lemma rmw_scalar_fn_spec addr size f (s : st) :
  sys_ok s → is_u64 addr →
  (∃ l', lookup_inv (mm s) l' ∧ rmw_scalar_fn addr size f s = Ret None (mkSys (mm s) (bk s) l')) ∨
  same_but_lookups (rmw_scalar_fn addr size f s) ((old <- scalar_rmw addr size f true ;; ret (Some old)) s).
Proof.
  intros Hs Ha. destruct (rmw_locate_spec addr size s Hs Ha) as (r & l' & Hr & Hl' & Hsome).
  unfold rmw_scalar_fn. rewrite (bind_Ret _ _ _ _ _ Hr). destruct r as [slot|]; [right|left; by exists l'].
  destruct (Hsome slot eq_refl) as (Hsz & Hf & b & a & c & Hg & Hb & Hwf & Hc & ->). cbn [rs_base].
  destruct s as [m k l]. cbn [mm bk lk] in *. pose proof (proj1 Hs) as Hok. cbn [mm] in Hok.
  destruct (slot_lane m b a size addr c k l' f true Hok Hsz Ha Hg Hb Hc) as (old & Hload & Hlane).
  assert (Hs' : sys_ok (mkSys m k l')) by (by split).
  destruct (plain_lane_scalar m k l' l b size addr f true Hs' Hs Hsz Hf Ha Hg) as (old' & Ho & Hm).
  rewrite Hlane in Ho, Hm. cbn [fst snd] in *. injection Ho as <-. rewrite orb_true_r in Hm.
  rewrite (bind_Ret _ _ _ _ _ Hload). unfold bind at 1.
  destruct (on_alloc (LiveAt b) (rmw_store _ size (f old)) (mkSys m k l')) as [[] s1|e s1|],
    (scalar_rmw addr size f true (mkSys m k l)) as [v s2|e2 s2|] eqn:Er; try done.
  - rewrite (bind_Ret _ _ _ _ _ Er). destruct Hm as (-> & ? & ? & _). by split_and!.
  - by rewrite (bind_Exn _ _ _ _ _ Er).
Qed.

(** rmw_if_changed_fn declines, or is the same without the store of the value read. *)
Lemma rmw_if_changed_spec addr size f (s : st) :
  sys_ok s → is_u64 addr → may_contain (host_maps_ (mm s)) addr = false →
  rmw_if_changed_fn addr size f s = Ret None s ∨
  same_but_lookups (rmw_if_changed_fn addr size f s) ((old <- scalar_rmw addr size f false ;; ret (Some old)) s).
Proof.
  intros Hs Ha Hh. unfold rmw_if_changed_fn. rewrite get_mm_bind.
  destruct (negb (scalar_size size) || negb (Z.land addr (size - 1) =? 0) || access_faults_armed (mm s)) eqn:E1; [by left|].
  apply orb_false_iff in E1 as [[Hsz%negb_false_iff Hal%negb_false_iff%Z.eqb_eq]%orb_false_iff Hf].
  rewrite land_aligned in Hal by done. destruct (faults_split _ Hf) as [Hlf Hsf].
  assert (Hz : Z.land addr (size - 1) = 0) by (by rewrite land_aligned).
  destruct (hot_location_spec addr size s Hs Ha Hsz Hal)
    as [Hhot|(b & a & t & p & g & Hhot & Hb & Hwf & Ht & Hc & Hm & Hge & Hx & Hres)].
  { left. by rewrite (bind_Ret _ _ _ _ _ Hhot). }
  right. rewrite (bind_Ret _ _ _ _ _ Hhot).
  assert (Hload : load_scalar addr size s = load_real (LiveAt b) (addr - b) size s).
  { unfold load_scalar. rewrite Hsz, Hz. cbn [negb Z.eqb]. rewrite get_mm_bind. rewrite (bind_Ret _ _ _ _ _ Hhot).
    unfold bind. destruct (load_real (LiveAt b) (addr - b) size s); try done. by rewrite taken_load_id. }
  assert (Hstore : ∀ v, store_scalar addr size v s = store_real (LiveAt b) (addr - b) size v s).
  { intros v. rewrite store_scalar_unfold by done. by rewrite (bind_Ret _ _ _ _ _ Hhot). }
  assert (Hl : ∃ v, load_real (LiveAt b) (addr - b) size s = Ret v s).
  { destruct s as [m k l]. eexists. apply (load_real_spec m (LiveAt b) a k l t _ _ p g); try done. by apply offset_aligned. }
  destruct Hl as [v Hv]. unfold scalar_rmw, bind. rewrite Hload, Hv. rewrite orb_false_r.
  destruct (negb (f v =? v)); [rewrite Hstore; by destruct (store_real _ _ _ _ s)|done].
Qed.

(** *** The lock-free swap

    The flat array as it passes through other threads' hands: any number of
    stores, each made or not made. *)
Inductive disturbed (n : Z) : (Z → Z) → (Z → Z) → Prop :=
  | undisturbed f f' : (∀ j, f' j = f j) → disturbed n f f'
  | stored_by f g h off size v :
      scalar_size size = true → 0 ≤ off → off mod size = 0 → off + size ≤ n →
      disturbed n f g → (∀ j, h j = blit g off (byte_of v) size j) → disturbed n f h.

#[local] Instance disturbed_preorder n : PreOrder (disturbed n).
Proof.
  split; [by left|]. intros f g h Hfg Hgh.
  induction Hgh as [g g' E|g g1 g2 off size v Hsz Hoff Hal Hx _ IH E]; [|exact (stored_by n f g1 g2 off size v Hsz Hoff Hal Hx (IH Hfg) E)].
  destruct Hfg as [f1 f2 E2|f1 f2 f3 off size v Hsz Hoff Hal Hx Hd E2].
  - left. intros j. by rewrite E, E2.
  - eapply stored_by; try done. intros j. by rewrite E.
Qed.

(** A slot that is real stays real. *)
Definition real_at (idx : Z) (s : ab) : Prop :=
  ∃ t p f, chunks (fst s) = Some t ∧ t !! idx = Some (Real p f).

Definition keeps_real {A} (op : M ab A) : Prop := ∀ s idx, real_at idx s →
  match op s with Ret _ s' | Exn _ s' => real_at idx s' | Undef => True end.

Lemma keeps_real_bind {A C} (op : M ab A) (k : A → M ab C) :
  keeps_real op → (∀ x, keeps_real (k x)) → keeps_real (bind op k).
Proof.
  intros Ho Hk s idx Hr. specialize (Ho s idx Hr). unfold bind. destruct (op s) as [x s1|e s1|]; [|done|done].
  by apply Hk.
Qed.

Lemma keeps_real_ret {A} (x : A) : keeps_real (ret x).
Proof. by intros s idx. Qed.

Lemma keeps_real_at i : keeps_real (chunk_at i).
Proof. intros s idx Hr. unfold chunk_at. destruct (chunks (fst s)); [|done]. by case_if. Qed.

Lemma keeps_real_store i p f : keeps_real (chunk_store i (Some (Real p f))).
Proof.
  intros s idx (t & p' & f' & Ht & Hc). unfold chunk_store. rewrite Ht. case_if; [|done]. cbn.
  destruct (decide (i = idx)) as [->|].
  - eexists _, p, f. split; [done|]. by rewrite lookup_partial_alter_eq.
  - eexists _, p', f'. split; [done|]. by rewrite lookup_partial_alter_ne.
Qed.

Lemma keeps_real_materialize i : keeps_real (materialize i).
Proof.
  apply keeps_real_bind; [apply keeps_real_at|]. intros [[u|p f]|]; [|apply keeps_real_ret|];
    intros s idx Hr; destruct (acquire (snd s)) as [[q|e] b']; try done; by apply keeps_real_store.
Qed.

Lemma keeps_real_update i coff n g : keeps_real (chunk_update i coff n g).
Proof.
  apply keeps_real_bind; [apply keeps_real_at|]. intros [[u|p f]|]; [done| |done].
  intros s idx Hr. case_if; [|done]. by apply keeps_real_store.
Qed.

Lemma keeps_real_word off size v : keeps_real (store_word off size v).
Proof.
  apply keeps_real_bind; [apply keeps_real_at|]. intros c.
  destruct (match c with Some (Uniform u) => _ | _ => _ end); [apply keeps_real_ret|].
  apply keeps_real_bind; [|intros; apply keeps_real_update].
  destruct c as [[u|p f]|]; [apply keeps_real_materialize|apply keeps_real_ret|apply keeps_real_materialize].
Qed.

(** The stores of other threads are inside the allocation. *)
Definition good_store (n : Z) (x : Z * Z * Z) : Prop :=
  let '(off, size, _) := x in scalar_size size = true ∧ 0 ≤ off ∧ off mod size = 0 ∧ off + size ≤ n.

Lemma other_stores_spec a f l idx (s : ab) : Forall (good_store (extent a)) l → now_holds a f s →
  wp (other_stores l s) (λ _ s', (real_at idx s → real_at idx s') ∧
    ∃ g, disturbed (extent a) f g ∧ now_holds a g s') (λ _ _, False).
Proof.
  intros Hl. revert f s. induction Hl as [|[[off size] v] l (Hsz & Hoff & Hal & Hx) Hl IH]; intros f s Hs; cbn.
  { split; [done|]. exists f. by split. }
  wp_step. unfold other_store. pose proof (wp_store_word a f s off size v Hs Hsz Hoff Hal Hx) as Hw.
  pose proof (keeps_real_word off size v s idx) as Hk.
  destruct (store_word off size v s) as [[] s1|e s1|]; cbn [wp] in Hw |- *; [| |done].
  - eapply wp_mono; [by apply (IH _ _ Hw)| |done]. intros _ s2 (Hr & g & Hg & Hs2). split; [tauto|].
    exists g. split; [|done]. etrans; [|exact Hg]. by eapply stored_by.
  - eapply wp_mono; [by apply (IH _ _ Hw)| |done]. intros _ s2 (Hr & g & Hg & Hs2). split; [tauto|]. by exists g.
Qed.

(** The call as one step of the word: at some point among the other threads'
    stores the word is read and, in the same step, replaced. *)
Definition swapped (n : Z) (f : Z → Z) (off size : Z) (compute : Z → Z) (old : Z) (f' : Z → Z) : Prop :=
  ∃ g, disturbed n f g ∧ old = le_load g off (Z.to_nat size) ∧
    disturbed n (blit g off (byte_of (compute old)) size) f'.

(** A word that is stored over itself. *)
Lemma blit_own_word g off size : (∀ j, is_byte (g j)) → 0 ≤ size →
  ∀ j, blit g off (byte_of (le_load g off (Z.to_nat size))) size j = g j.
Proof.
  intros Hg Hs j. unfold blit. bool_cases; try done.
  rewrite byte_of_le_load by (done || lia). f_equal. lia.
Qed.

Lemma now_holds_bytes a f (s : ab) : now_holds a f s → ∀ j, is_byte (f j).
Proof. intros (Hwf & _ & Hf) j. rewrite <- Hf. by apply content_range. Qed.

(** The word of a real slot, and its replacement. *)
Lemma atomic_load_spec a f (s : ab) slot off size :
  now_holds a f s → real_at (off / kChunkSize) s → scalar_size size = true → 0 ≤ off → off mod size = 0 →
  off + size ≤ extent a → rs_chunk_idx slot = off / kChunkSize → rs_coff slot = off mod kChunkSize →
  atomic_load slot size s = Ret (le_load f off (Z.to_nat size)) s.
Proof.
  intros (Hwf & Hsh & Hf) (t & p & h & Ht & Hc) Hsz Hoff Hal Hx Hi Hco. unfold atomic_load. rewrite Hi, Hco.
  assert (1 ≤ size) by (apply scalar_size_cases in Hsz; lia). destruct s as [a' k]. cbn [fst] in *.
  assert (Hx' : off + size ≤ extent a') by (unfold extent; destruct Hsh as (_ & -> & _); done).
  destruct (slot_value_cells a' t off size k Hwf Ht Hsz Hoff Hal Hx') as (Hat & Hin & Hv).
  rewrite (bind_Ret _ _ _ _ _ Hat). rewrite Hc in *. cbn [slot_value] in Hv.
  destruct (Z.leb_spec (off mod kChunkSize + size) kChunkSize); [|lia].
  rewrite load_at_le_load in Hv by (try done; intros j; exact (wf_lookup_ok _ _ _ _ Hwf Ht Hc j)).
  unfold ret. rewrite Hv. f_equal. by apply le_load_ext.
Qed.

Lemma wp_atomic_put a f (s : ab) slot off size v Q E :
  now_holds a f s → real_at (off / kChunkSize) s → scalar_size size = true → 0 ≤ off → off mod size = 0 →
  off + size ≤ extent a → rs_chunk_idx slot = off / kChunkSize → rs_coff slot = off mod kChunkSize →
  (∀ s', now_holds a (blit f off (byte_of v) size) s' → Q tt s') → wp (atomic_put slot size v s) Q E.
Proof.
  intros Hs (t & p & h & Ht & Hc) Hsz Hoff Hal Hx Hi Hco HQ. unfold atomic_put. rewrite Hi, Hco.
  assert (1 ≤ size) by (apply scalar_size_cases in Hsz; lia).
  eapply (wp_chunk_update a f _ _ size _ (byte_of v)); try done.
  - rewrite <- (Z.add_0_r off). apply (extent_index a off 0 size); lia.
  - by apply Z.mod_pos_bound.
  - lia.
  - by apply aligned_in_chunk.
  - intros. apply byte_of_range.
  - intros s' Hs'. rewrite chunk_base in Hs'. by apply HQ.
Qed.

Lemma byte_of_u32 v i : 0 ≤ i < 4 → byte_of (u32 v) i = byte_of v i.
Proof.
  intros Hi. rewrite !byte_of_div by lia. unfold u32. change 4294967296 with (2 ^ 32). change 256 with (2 ^ 8).
  apply Z.bits_inj'. intros n Hn. destruct (Z.lt_ge_cases n 8).
  - rewrite !Z.mod_pow2_bits_low, !Z.div_pow2_bits by lia. apply Z.mod_pow2_bits_low. lia.
  - by rewrite !Z.mod_pow2_bits_high by lia.
Qed.

Lemma swap_value_bytes size v i : scalar_size size = true → 0 ≤ i < size →
  byte_of (if size =? 4 then u32 v else v) i = byte_of v i.
Proof. intros Hsz Hi. destruct (Z.eqb_spec size 4); [apply byte_of_u32; lia|done]. Qed.

Section swap.
Context (a : Allocation) (slot : RmwSlot) (off size : Z) (compute : Z → Z).
Context (Hsz : scalar_size size = true) (Hoff : 0 ≤ off) (Hal : off mod size = 0) (Hx : off + size ≤ extent a).
Context (Hidx : rs_chunk_idx slot = off / kChunkSize) (Hcoff : rs_coff slot = off mod kChunkSize).

Lemma swapped_here f (s : ab) old :
  now_holds a f s → old = le_load f off (Z.to_nat size) →
  (if size =? 4 then u32 (compute old) else compute old) = old → swapped (extent a) f off size compute old f.
Proof.
  intros Hs -> Hn. exists f. split; [reflexivity|]. split; [done|]. left. intros j.
  assert (0 ≤ size) by (apply scalar_size_cases in Hsz; lia). symmetry.
  transitivity (blit f off (byte_of (le_load f off (Z.to_nat size))) size j); [|apply blit_own_word; [by eapply now_holds_bytes|done]].
  unfold blit. bool_cases; try done. rewrite <- Hn at 2. symmetry. apply swap_value_bytes; [done|lia].
Qed.

Lemma wp_swap_now f g (s : ab) old E :
  disturbed (extent a) f g → now_holds a g s → real_at (off / kChunkSize) s → old = le_load g off (Z.to_nat size) →
  wp ((atomic_put slot size (if size =? 4 then u32 (compute old) else compute old) ;;; ret old) s)
    (λ r s', ∃ f', swapped (extent a) f off size compute r f' ∧ now_holds a f' s') E.
Proof.
  intros Hd Hs Hr Ho.
  pose proof (λ i, swap_value_bytes size (compute old) i Hsz) as Hv.
  set (v := if size =? 4 then u32 (compute old) else compute old) in *. clearbody v.
  wp_step. eapply wp_atomic_put; try done. intros s' Hs'. wp_step.
  eexists. split; [|exact Hs']. exists g. split; [done|]. split; [done|]. left. intros j.
  unfold blit. bool_cases; try done. apply Hv. lia.
Qed.

Lemma cas_loop_spec turns f (s : ab) old :
  Forall (λ t, Forall (good_store (extent a)) (t_stores t)) turns →
  now_holds a f s → real_at (off / kChunkSize) s → old = le_load f off (Z.to_nat size) →
  wp (cas_loop turns slot size compute old s)
    (λ r s', ∃ f', swapped (extent a) f off size compute r f' ∧ now_holds a f' s') (λ _ _, False).
Proof.
  intros Ht. revert f s old. induction Ht as [|t turns Ht _ IH]; intros f s old Hs Hr Ho; cbn [cas_loop]; cbv zeta.
  - destruct (Z.eqb_spec (if size =? 4 then u32 (compute old) else compute old) old) as [En|_].
    { wp_step. exists f. split; [by eapply swapped_here|done]. }
    rewrite (bind_Ret _ _ _ _ _ (atomic_load_spec a f s slot off size Hs Hr Hsz Hoff Hal Hx Hidx Hcoff)).
    rewrite <- Ho, Z.eqb_refl. by eapply wp_swap_now.
  - destruct (Z.eqb_spec (if size =? 4 then u32 (compute old) else compute old) old) as [En|_].
    { wp_step. exists f. split; [by eapply swapped_here|done]. }
    wp_step. eapply wp_mono; [apply (other_stores_spec a f _ (off / kChunkSize)); done| |done].
    intros _ s1 (Hr1 & g & Hg & Hs1). specialize (Hr1 Hr).
    rewrite (bind_Ret _ _ _ _ _ (atomic_load_spec a g s1 slot off size Hs1 Hr1 Hsz Hoff Hal Hx Hidx Hcoff)).
    destruct (Z.eqb_spec (le_load g off (Z.to_nat size)) old) as [Eo|Eo]; cbn [andb].
    + destruct (t_spurious t); cbn [negb]; [|by eapply wp_swap_now].
      eapply wp_mono; [by apply (IH g s1)| |done]. intros r s2 (f' & (h & Hh & ? & ?) & Hs2).
      exists f'. split; [|done]. exists h. split; [by etrans|done].
    + eapply wp_mono; [by apply (IH g s1)| |done]. intros r s2 (f' & (h & Hh & ? & ?) & Hs2).
      exists f'. split; [|done]. exists h. split; [by etrans|done].
Qed.

Lemma swapped_same f (s : ab) old :
  now_holds a f s → old = le_load f off (Z.to_nat size) → compute old = old → swapped (extent a) f off size compute old f.
Proof.
  intros Hs -> Hn. exists f. split; [reflexivity|]. split; [done|]. left. intros j. rewrite Hn. symmetry.
  apply blit_own_word; [by eapply now_holds_bytes|]. apply scalar_size_cases in Hsz; lia.
Qed.

Lemma swapped_later f g f' old : disturbed (extent a) f g →
  swapped (extent a) g off size compute old f' → swapped (extent a) f off size compute old f'.
Proof. intros Hd (h & ? & ? & ?). exists h. split; [by etrans|done]. Qed.

Lemma wp_swap_real before turns f (s : ab) E :
  Forall (good_store (extent a)) before → Forall (λ t, Forall (good_store (extent a)) (t_stores t)) turns →
  now_holds a f s → real_at (off / kChunkSize) s →
  wp (swap_real before turns slot size compute s)
    (λ r s', ∃ f', swapped (extent a) f off size compute r f' ∧ now_holds a f' s') E.
Proof.
  intros Hb Ht Hs Hr. unfold swap_real. wp_step.
  eapply wp_mono; [apply (other_stores_spec a f _ (off / kChunkSize)); done| |done].
  intros _ s1 (Hr1 & g & Hg & Hs1). specialize (Hr1 Hr).
  rewrite (bind_Ret _ _ _ _ _ (atomic_load_spec a g s1 slot off size Hs1 Hr1 Hsz Hoff Hal Hx Hidx Hcoff)).
  eapply wp_mono; [by apply (cas_loop_spec turns g s1)| |done].
  intros r s2 (f' & Hf' & Hs2). exists f'. split; [by eapply swapped_later|done].
Qed.

(** A chunk that is not real is made real first. *)
Lemma wp_make_real before turns f (s : ab) :
  Forall (good_store (extent a)) before → Forall (λ t, Forall (good_store (extent a)) (t_stores t)) turns →
  now_holds a f s →
  wp ((other_stores before ;;; materialize (rs_chunk_idx slot) ;;; swap_real [] turns slot size compute) s)
    (λ r s', ∃ f', swapped (extent a) f off size compute r f' ∧ now_holds a f' s')
    (λ _ s', ∃ g, disturbed (extent a) f g ∧ now_holds a g s').
Proof.
  intros Hb Ht Hs. assert (1 ≤ size) by (apply scalar_size_cases in Hsz; lia).
  wp_step. eapply wp_mono; [apply (other_stores_spec a f _ (off / kChunkSize)); done| |done].
  intros _ s1 (_ & g & Hg & Hs1). wp_step. rewrite Hidx. eapply wp_mono.
  - apply (wp_materialize a g _ s1 (λ _ s2, now_holds a g s2 ∧ real_at (off / kChunkSize) s2)); [done|..].
    + rewrite <- (Z.add_0_r off). apply (extent_index a off 0 size); lia.
    + intros s2 t p h Hs2 Ht2 Hc2. split; [done|by exists t, p, h].
  - intros _ s2 [Hs2 Hr2]. eapply wp_mono; [by apply (wp_swap_real [] turns g s2 (λ _ _, False))| |done].
    intros r s3 (f' & Hf' & Hs3). exists f'. split; [by eapply swapped_later|done].
  - intros e s2 Hs2. by exists g.
Qed.

(** The slot as it was read: real, or a chunk that reads as one byte. *)
Lemma slot_read f (s : ab) :
  now_holds a f s → chunk_at (off / kChunkSize) s = Ret (rs_chunk slot) s →
  match rs_chunk slot with
  | Some (Real _ _) => real_at (off / kChunkSize) s
  | _ => rmw_load slot size s = Ret (le_load f off (Z.to_nat size)) s
  end.
Proof.
  intros (Hwf & Hsh & Hf) Hc. destruct (wf_chunks _ Hwf) as (t & Ht' & Hok). destruct s as [a' k]. cbn [fst] in *.
  assert (Hx' : off + size ≤ extent a') by (unfold extent; destruct Hsh as (_ & -> & _); done).
  destruct (slot_value_cells a' t off size k Hwf Ht' Hsz Hoff Hal Hx') as (Hat & _ & Hv).
  rewrite Hat in Hc. injection Hc as Hc. rewrite Hc in Hv.
  assert (Hle : le_load (content a') off (Z.to_nat size) = le_load f off (Z.to_nat size)) by (by apply le_load_ext).
  unfold rmw_load. destruct (rs_chunk slot) as [[u|p h]|]; cbn [slot_value] in Hv; unfold ret.
  - by rewrite Hv, Hle.
  - by exists t, p, h.
  - by rewrite Hv, Hle.
Qed.

(** atomic_rmw_slot returns, and is one atomic step of the word. *)
Lemma atomic_rmw_slot_spec before turns always f (s : ab) :
  Forall (good_store (extent a)) before → Forall (λ t, Forall (good_store (extent a)) (t_stores t)) turns →
  now_holds a f s → chunk_at (off / kChunkSize) s = Ret (rs_chunk slot) s →
  wp (atomic_rmw_slot before turns slot size compute always s)
    (λ r s', ∃ f', swapped (extent a) f off size compute r f' ∧ now_holds a f' s')
    (λ _ s', ∃ g, disturbed (extent a) f g ∧ now_holds a g s').
Proof.
  intros Hb Ht Hs Hc. pose proof (slot_read f s Hs Hc) as Hr. unfold atomic_rmw_slot.
  destruct (rs_chunk slot) as [[u|p h]|]; [|by apply wp_swap_real|]; rewrite (bind_Ret _ _ _ _ _ Hr);
    match goal with |- context [if ?c then ret _ else _] => destruct c eqn:Ec end;
    try (by apply wp_make_real).
  - wp_step. exists f. split; [|done]. apply Z.eqb_eq in Ec. by apply (swapped_same f s).
  - wp_step. exists f. split; [|done]. apply andb_true_iff in Ec as [Ec%Z.eqb_eq _]. by apply (swapped_same f s).
Qed.
End swap.

(** atomic_rmw_fn declines with nothing changed, or is that step in the cells of
    the allocation; the host running out of memory leaves the other threads'
    stores only. *)
Lemma atomic_rmw_fn_spec before turns addr size compute always (s : st) :
  sys_ok s → is_u64 addr →
  (∀ b a, ordinary (mm s) addr size = Some b → live_ (mm s) !! b = Some a →
     Forall (good_store (extent a)) before ∧ Forall (λ t, Forall (good_store (extent a)) (t_stores t)) turns) →
  wp (atomic_rmw_fn before turns addr size compute always s)
    (λ r s', match r with
     | None => mm s' = mm s ∧ bk s' = bk s ∧ sys_ok s'
     | Some old => ∃ b a f', ordinary (mm s) addr size = Some b ∧ live_ (mm s) !! b = Some a ∧
         swapped (extent a) (cell (mm s) (LiveAt b)) (addr - b) size compute old f' ∧ cells_now (mm s) (LiveAt b) f' s'
     end)
    (λ _ s', ∃ b a g, ordinary (mm s) addr size = Some b ∧ live_ (mm s) !! b = Some a ∧
       disturbed (extent a) (cell (mm s) (LiveAt b)) g ∧ cells_now (mm s) (LiveAt b) g s').
Proof.
  intros Hs Ha Hothers. pose proof Hs as [Hok _]. unfold atomic_rmw_fn.
  destruct (negb (size =? 4) && negb (size =? 8)); [done|].
  destruct (rmw_locate_spec addr size s Hs Ha) as (r & l' & Hr & Hl' & Hsome). rewrite (bind_Ret _ _ _ _ _ Hr).
  destruct r as [slot|]; [|split_and!; try done; by split].
  destruct (Hsome slot eq_refl) as (Hsz & _ & b & a & c & Hg & Hb & Hwf & Hc & ->). cbn [rs_base].
  pose proof Hg as (Ho & Hal & _). destruct (Hothers b a Ho Hb) as [Hbf Htn].
  destruct (good_lane_word (mm s) b a size addr (bk s) Hok Hb Hsz Ha Hg) as (Hge & Hle & Hoa & _).
  pose proof (size_le_extent a Hwf). wp_step.
  assert (Hcell : ∀ j, content a j = cell (mm s) (LiveAt b) j) by (intros j; unfold cell; cbn; by rewrite Hb).
  assert (Hnow : now_holds a (cell (mm s) (LiveAt b)) (a, bk s))
    by (eapply now_holds_ext; [by apply now_holds_refl|done]).
  eapply (wp_on_alloc _ (mm s) (LiveAt b) a); [done|..].
  - eapply (atomic_rmw_slot_spec a _ (addr - b) size compute Hsz Hge Hoa); try done. lia.
  - intros old ab' (f' & Hsw & Hf'). wp_step. exists b, a, f'. split_and!; try done. by eapply now_holds_cells.
  - intros e ab' (g & Hd & Hg'). exists b, a, g. split_and!; try done. by eapply now_holds_cells.
Qed.

(** *** Fields and texels *)

(** The fields of a multi-field read: address and size, one after the other. *)
Fixpoint field_list (addr : Z) (sizes : list Z) : list (Z * Z) :=
  match sizes with
  | [] => []
  | sz :: rest => (addr, sz) :: field_list (addr + sz) rest
  end.
Definition sum_sizes (sizes : list Z) : Z := foldr Z.add 0 sizes.

(** Each field by itself: an absent one reads as zero. *)
Definition load_field (x : Z * Z) : M st Z := if snd x =? 0 then ret 0 else load_scalar (fst x) (snd x).

Definition good_field (m : MM) (b : Z) (x : Z * Z) : Prop :=
  is_u64 (fst x) ∧ (snd x = 0 ∨ (scalar_size (snd x) = true ∧ good_lane m b (snd x) (fst x))).
Definition field_value (m : MM) (b : Z) (x : Z * Z) : Z :=
  if snd x =? 0 then 0 else le_load (cell m (LiveAt b)) (fst x - b) (Z.to_nat (snd x)).

Lemma sum_sizes_nonneg sizes : Forall (λ sz, 0 ≤ sz) sizes → 0 ≤ sum_sizes sizes.
Proof. unfold sum_sizes. induction 1; cbn; lia. Qed.

(** The first pass accepts only fields that are aligned scalars outside every
    host mapping, and adds up their sizes. *)
Lemma fields_total_spec m addr sizes total T :
  Forall (λ sz, 0 ≤ sz) sizes → fields_total m addr sizes total = Some T →
  T = total + sum_sizes sizes ∧
  Forall (λ x, snd x = 0 ∨ scalar_size (snd x) = true ∧ u64 (fst x) mod snd x = 0 ∧
    may_contain (host_maps_ m) (u64 (fst x)) = false) (field_list (addr + total) sizes).
Proof.
  unfold sum_sizes. intros Hpos. revert total. induction Hpos as [|sz sizes Hsz _ IH]; intros total Ht; cbn in *.
  { injection Ht as <-. split; [lia|constructor]. }
  destruct (Z.eqb_spec sz 0) as [->|Hne].
  - destruct (IH _ Ht) as [-> Hf]. split; [lia|]. rewrite Z.add_0_r. constructor; [by left|done].
  - destruct (negb (scalar_size sz) || negb (Z.land (u64 (addr + total)) (sz - 1) =? 0)) eqn:E; [done|].
    destruct (may_contain (host_maps_ m) (u64 (addr + total))) eqn:Em; [done|].
    apply orb_false_iff in E as [Hs%negb_false_iff Hal%negb_false_iff%Z.eqb_eq]. rewrite land_aligned in Hal by done.
    destruct (IH _ Ht) as [-> Hf]. split; [lia|]. rewrite <- Z.add_assoc. by constructor; [right|].
Qed.

(** Fields inside the one allocation are good lanes. *)
Lemma fields_good m b a addr sizes :
  mem_ok m → live_ m !! b = Some a → card_valid a = 0 → Forall (λ sz, 0 ≤ sz) sizes →
  b ≤ addr → addr + sum_sizes sizes ≤ b + a_size a →
  Forall (λ x, snd x = 0 ∨ scalar_size (snd x) = true ∧ u64 (fst x) mod snd x = 0 ∧
    may_contain (host_maps_ m) (u64 (fst x)) = false) (field_list addr sizes) →
  Forall (good_field m b) (field_list addr sizes).
Proof.
  intros Hok Hb Hc Hpos. destruct (live_room m b a (proj1 Hok) Hb) as (? & ? & ?).
  pose proof (padded_bounds m (a_size a) (ti_config _ (proj1 Hok))).
  revert addr. induction Hpos as [|sz sizes Hsz Hpos IH]; intros addr Hle Hend Hf; cbn in *; [constructor|].
  apply Forall_cons in Hf as [Hx Hf]. pose proof (sum_sizes_nonneg sizes Hpos). unfold sum_sizes in *.
  constructor; [|apply IH; [lia|lia|done]]. assert (Hu : is_u64 addr) by (unfold is_u64, u64_max in *; lia).
  split; [done|]. cbn in *. destruct Hx as [->|(Hs & Hal & Hm)]; [by left|right]. rewrite u64_small in Hal, Hm by done.
  assert (1 ≤ sz ≤ 8) by (apply scalar_size_cases in Hs; lia). split; [done|]. split_and!; try done.
  apply (lane_in m b a sz addr); try done; [lia|]. unfold is_u64, u64_max in *. rewrite u64_small by (unfold is_u64; lia). lia.
Qed.

(** The loop, and the fields one by one. *)
Lemma fields_loop_spec m b a (k : B) addr sizes :
  mem_ok m → live_ m !! b = Some a → Forall (good_field m b) (field_list addr sizes) →
  fields_loop (addr - b) sizes (a, k) = Ret (field_value m b <$> field_list addr sizes) (a, k).
Proof.
  intros Hok Hb. revert addr. induction sizes as [|sz sizes IH]; intros addr Hg; cbn in *; [done|].
  apply Forall_cons in Hg as [[Hu Hx] Hg]. unfold field_value at 1. cbn in *. destruct (Z.eqb_spec sz 0) as [->|Hne].
  - rewrite (bind_Ret _ _ _ _ _ (IH (addr + 0) Hg)) || (specialize (IH _ Hg); rewrite Z.add_0_r in *; rewrite (bind_Ret _ _ _ _ _ IH)).
    done.
  - destruct Hx as [|[Hs Hl]]; [done|].
    destruct (good_lane_word m b a sz addr k Hok Hb Hs Hu Hl) as (_ & _ & _ & _ & Hw).
    rewrite (bind_Ret _ _ _ _ _ Hw). replace (addr - b + sz) with (addr + sz - b) by lia.
    by rewrite (bind_Ret _ _ _ _ _ (IH _ Hg)).
Qed.

Lemma load_fields_each b l (s : st) :
  sys_ok s → no_load_fault (mm s) → Forall (good_field (mm s) b) l →
  ∃ l', lookup_inv (mm s) l' ∧ traverse load_field l s = Ret (field_value (mm s) b <$> l) (mkSys (mm s) (bk s) l').
Proof.
  intros Hs Hf Hg. revert s Hs Hf Hg. induction l as [|[x sz] l IH]; intros s Hs Hf Hg; cbn [traverse].
  { exists (lk s). split; [apply Hs|]. by destruct s. }
  apply Forall_cons in Hg as [[Hu Hx] Hg]. cbn [fst snd] in *. cbn [fmap list_fmap].
  unfold field_value at 1, load_field at 1. cbn [fst snd]. destruct (Z.eqb_spec sz 0) as [->|Hne].
  - destruct (IH s Hs Hf Hg) as (l2 & Hl2 & E2). exists l2. split; [done|].
    rewrite (bind_Ret _ _ _ _ _ (eq_refl (ret 0 s))). by rewrite (bind_Ret _ _ _ _ _ E2).
  - destruct Hx as [|[Hsz (Ho & Hal & Hh)]]; [done|].
    assert (Hsu : is_u64 sz) by (apply scalar_size_cases in Hsz; unfold is_u64; lia).
    destruct (load_scalar_spec x sz s Hs Hu Hsz Hal Hh Hf) as (l1 & Hl1 & E1).
    rewrite (ordinary_resolve_slack _ _ _ _ false true (proj1 Hs) Hu Hsu Ho) in E1.
    rewrite (bind_Ret _ _ _ _ _ E1).
    destruct (IH (mkSys (mm s) (bk s) l1)) as (l2 & Hl2 & E2); [by split; [apply Hs|]|done|done|].
    exists l2. split; [done|]. by rewrite (bind_Ret _ _ _ _ _ E2).
Qed.

Lemma load_fields_spec addr sizes (s : st) :
  sys_ok s → is_u64 addr → Forall (λ sz, 0 ≤ sz) sizes → is_u64 (sum_sizes sizes) →
  ∃ r l', load_fields addr sizes s = Ret r (mkSys (mm s) (bk s) l') ∧ lookup_inv (mm s) l' ∧
    ∀ out, r = Some out → (sum_sizes sizes = 0 ∨ no_load_fault (mm s)) ∧
      ∃ b, (sum_sizes sizes = 0 ∨ Forall (good_field (mm s) b) (field_list addr sizes)) ∧
        out = field_value (mm s) b <$> field_list addr sizes.
Proof.
  intros Hs Ha Hpos Hsum. pose proof Hs as [Hok Hlk]. unfold load_fields. rewrite get_mm_bind.
  destruct s as [m k l]. cbn [mm bk lk] in *.
  destruct (fields_total m addr sizes 0) as [T|] eqn:ET; [|by exists None, l].
  destruct (fields_total_spec m addr sizes 0 T Hpos ET) as [-> Hf]. rewrite Z.add_0_l, Z.add_0_r in *.
  destruct (Z.eqb_spec (sum_sizes sizes) 0) as [E0|Hne].
  { eexists _, l. split_and!; [done|done|]. intros out [= <-]. split; [by left|]. exists 0. split; [by left|].
    clear -Hpos E0. revert addr. induction Hpos as [|sz sizes Hsz Hpos IH]; intros addr; cbn in *; [done|].
    pose proof (sum_sizes_nonneg sizes Hpos). unfold sum_sizes in *.
    unfold field_value at 1. cbn. destruct (Z.eqb_spec sz 0); [|lia]. by rewrite <- (IH ltac:(lia) (addr + sz)). }
  destruct (access_faults_armed m) eqn:Hfa; [by exists None, l|].
  destruct (ordinary_lookup_spec addr (sum_sizes sizes) None (mkSys m k l) Hs Ha Hsum) as (f & l' & Hfo & Hl' & Ho).
  rewrite (bind_Ret _ _ _ _ _ Hfo). destruct f as [b|]; [|by exists None, l']. cbn [mm] in *.
  destruct (ordinary_live _ _ _ _ Hok Ha Hsum (Ho b eq_refl)) as (a & Hb & _ & Hc & ? & ?).
  pose proof (fields_good m b a addr sizes Hok Hb Hc Hpos ltac:(lia) ltac:(lia) Hf) as Hg.
  rewrite (bind_Ret _ _ _ _ _ (on_alloc_look _ m (LiveAt b) a k l' _ Hb (fields_loop_spec m b a k addr sizes Hok Hb Hg))).
  eexists _, l'. split_and!; [done|done|]. intros out [= <-]. split; [right; by apply faults_split|].
  exists b. by split; [right|].
Qed.

(** The extremes of the addresses, and their common bits. *)
Lemma foldl_min_le l z x : x ∈ l → foldl Z.min z l ≤ x.
Proof.
  assert (Hz : ∀ l z, foldl Z.min z l ≤ z).
  { clear. induction l as [|y l IH]; intros z; cbn; [lia|]. specialize (IH (Z.min z y)). lia. }
  revert z. induction l as [|y l IH]; intros z; [by intros Hx; inversion Hx|]. cbn. intros Hx. inversion Hx; subst; [|by apply IH].
  specialize (Hz l (Z.min z y)). lia.
Qed.
Lemma foldl_max_ge l z x : x ∈ l → x ≤ foldl Z.max z l.
Proof.
  assert (Hz : ∀ l z, z ≤ foldl Z.max z l).
  { clear. induction l as [|y l IH]; intros z; cbn; [lia|]. specialize (IH (Z.max z y)). lia. }
  revert z. induction l as [|y l IH]; intros z; [by intros Hx; inversion Hx|]. cbn. intros Hx. inversion Hx; subst; [|by apply IH].
  specialize (Hz l (Z.max z y)). lia.
Qed.
Lemma foldl_extreme (f : Z → Z → Z) P l z : (∀ x y, f x y = x ∨ f x y = y) → P z → Forall P l → P (foldl f z l).
Proof.
  intros Hf Hz Hl. revert z Hz. induction Hl as [|x l Hx _ IH]; intros z Hz; cbn; [done|].
  apply IH. by destruct (Hf z x) as [-> | ->].
Qed.
Lemma foldl_lor_mask l z mask : Z.land (foldl Z.lor z l) mask = 0 → Forall (λ x, Z.land x mask = 0) l.
Proof.
  assert (Hz : ∀ l z, Z.land (foldl Z.lor z l) mask = 0 → Z.land z mask = 0).
  { clear. induction l as [|y l IH]; intros z; cbn; [done|]. intros Hl%IH. rewrite Z.land_lor_distr_l in Hl. by apply Z.lor_eq_0_iff in Hl as [? _]. }
  revert z. induction l as [|y l IH]; intros z Hl; constructor; cbn in Hl; [|by eapply IH].
  apply Hz in Hl. rewrite Z.land_lor_distr_l in Hl. by apply Z.lor_eq_0_iff in Hl as [_ ?].
Qed.

Lemma not_overlap_contain h first last x : may_overlap h first last = false → first ≤ x ≤ last → may_contain h x = false.
Proof.
  unfold may_overlap, may_contain, is_device_va. intros Ho Hx.
  destruct (in_device_window h); cbn in *;
    repeat match goal with H : context [?a <=? ?b] |- _ => destruct (Z.leb_spec a b)
           | H : context [?a <? ?b] |- _ => destruct (Z.ltb_spec a b)
           | |- context [?a <=? ?b] => destruct (Z.leb_spec a b)
           | |- context [?a <? ?b] => destruct (Z.ltb_spec a b) end; cbn in *; done || lia.
Qed.

(** The words of the texels, channel by channel. *)
Definition texel_addrs (addrs : list Z) (size channels : Z) : list Z :=
  concat ((λ x, (λ c, x + c * size) <$> seqZ 0 channels) <$> addrs).

Lemma texel_words (word : Z → Z) addrs size channels :
  concat ((λ x, (λ c, word (x + c * size)) <$> seqZ 0 channels) <$> addrs) = word <$> texel_addrs addrs size channels.
Proof.
  unfold texel_addrs. induction addrs as [|x xs IH]; [done|]. cbn. rewrite fmap_app, IH. f_equal.
  by rewrite <- list_fmap_compose.
Qed.

Lemma load_texels_spec addrs size channels (s : st) :
  sys_ok s → addrs ≠ [] → Forall is_u64 addrs → scalar_size size = true → 1 ≤ channels ≤ 65536 →
  ∃ r l', load_texels addrs size channels s = Ret r (mkSys (mm s) (bk s) l') ∧ lookup_inv (mm s) l' ∧
    ∀ out, r = Some out → no_load_fault (mm s) ∧ ∃ b,
      Forall is_u64 (texel_addrs addrs size channels) ∧ Forall (good_lane (mm s) b size) (texel_addrs addrs size channels) ∧
      out = (λ x, le_load (cell (mm s) (LiveAt b)) (x - b) (Z.to_nat size)) <$> texel_addrs addrs size channels.
Proof.
  intros Hs Hne Hu Hsz Hch. pose proof Hs as [Hok Hlk]. destruct addrs as [|a0 rest]; [done|].
  assert (Hsize : 1 ≤ size ≤ 8) by (apply scalar_size_cases in Hsz; lia).
  unfold load_texels. rewrite get_mm_bind. set (addrs := a0 :: rest) in *. destruct s as [m k l]. cbn [mm bk lk] in *.
  rewrite (u64_small (size * channels)) by (unfold is_u64; nia). set (total := size * channels).
  assert (Htot : 1 ≤ total ≤ 524288) by (unfold total; nia).
  set (lo := foldl Z.min a0 addrs). set (hi := foldl Z.max a0 addrs).
  assert (Hlo : is_u64 lo) by (apply (foldl_extreme Z.min is_u64); [lia|by inversion Hu|done]).
  assert (Hhi : is_u64 hi) by (apply (foldl_extreme Z.max is_u64); [lia|by inversion Hu|done]).
  assert (Hb0 : ∀ x, x ∈ addrs → lo ≤ x ≤ hi) by (intros x Hx; split; [by apply foldl_min_le|by apply foldl_max_ge]).
  assert (Hlh : lo ≤ hi) by (destruct (Hb0 a0 ltac:(left)); lia).
  destruct (Z.eqb_spec (Z.land (foldl Z.lor 0 addrs) (size - 1)) 0) as [Hal|]; cbn [negb]; [|by exists None, l].
  apply foldl_lor_mask in Hal.
  destruct (may_overlap (host_maps_ m) lo (u64 (hi + total - 1))) eqn:Hov; [by exists None, l|].
  destruct (access_faults_armed m) eqn:Hfa; [by exists None, l|].
  destruct (ordinary_lookup_spec lo (u64 (hi - lo + total)) None (mkSys m k l) Hs Hlo (u64_range _)) as (f & l' & Hfo & Hl' & Ho).
  rewrite (bind_Ret _ _ _ _ _ Hfo). destruct f as [b|]; [|by exists None, l']. cbn [mm] in *.
  destruct (ordinary_live _ _ _ _ Hok Hlo (u64_range _) (Ho b eq_refl)) as (a & Hb & _ & Hc & Hblo & Hend).
  destruct (live_room m b a (proj1 Hok) Hb) as (? & ? & ?).
  pose proof (padded_bounds m (a_size a) (ti_config _ (proj1 Hok))). unfold is_u64, u64_max in *.
  rewrite u64_small in Hend by (unfold is_u64; lia). rewrite u64_small in Hov by (unfold is_u64; lia).
  assert (Hlane : ∀ x c, x ∈ addrs → 0 ≤ c < channels →
    is_u64 (x + c * size) ∧ good_lane m b size (x + c * size) ∧ u64 (x - b) + c * size = x + c * size - b).
  { intros x c Hx Hcc. destruct (Hb0 x Hx). pose proof (Z.mul_le_mono_nonneg_r (c + 1) channels size ltac:(lia) ltac:(lia)).
    assert (0 ≤ c * size) by (apply Z.mul_nonneg_nonneg; lia).
    assert (c * size + size ≤ total) by (unfold total; lia).
    assert (is_u64 (x + c * size)) by (unfold is_u64; lia).
    rewrite (u64_small (x - b)) by (unfold is_u64; lia). split; [done|]. split; [|lia]. split_and!.
    - apply (lane_in m b a size (x + c * size)); try done; [lia|]. rewrite u64_small by (unfold is_u64; lia). lia.
    - rewrite Forall_forall in Hal. rewrite Z.mod_add by lia. rewrite <- (land_aligned x size Hsz). by apply Hal.
    - eapply not_overlap_contain; [exact Hov|]. lia. }
  set (word x := le_load (cell m (LiveAt b)) (x - b) (Z.to_nat size)).
  assert (Hloop : traverse (λ x, traverse (λ c, load_word (u64 (x - b) + c * size) size) (seqZ 0 channels)) addrs (a, k) =
    Ret ((λ x, (λ c, word (x + c * size)) <$> seqZ 0 channels) <$> addrs) (a, k)).
  { apply traverse_look. intros x Hx. apply traverse_look. intros c Hcc%elem_of_seqZ.
    destruct (Hlane x c Hx ltac:(lia)) as (Hxu & Hg & ->).
    by destruct (good_lane_word m b a size (x + c * size) k Hok Hb Hsz Hxu Hg) as (_ & _ & _ & _ & ->). }
  rewrite (bind_Ret _ _ _ _ _ (on_alloc_look _ m (LiveAt b) a k l' _ Hb Hloop)).
  eexists _, l'. split_and!; [done|done|]. intros out [= <-]. split; [by apply faults_split|]. exists b.
  assert (Hall : ∀ y, y ∈ texel_addrs addrs size channels → is_u64 y ∧ good_lane m b size y).
  { intros y. unfold texel_addrs. rewrite list_elem_of_In, in_concat.
    intros (ys & Hys & Hy). apply list_elem_of_In in Hys, Hy. apply list_elem_of_fmap in Hys as (x & -> & Hx). apply list_elem_of_fmap in Hy as (c & -> & Hcc%elem_of_seqZ).
    destruct (Hlane x c Hx ltac:(lia)) as (? & ? & _). done. }
  split_and!; [by apply Forall_forall; intros y Hy; apply Hall|by apply Forall_forall; intros y Hy; apply Hall|].
  exact (texel_words word addrs size channels).
Qed.
End rmw_specs.
