(* ===== verification/Life.v ===== *)
(** * Resets, exports and imports (src/core/memory.cpp)

    free_all, the handles and allocations other processes can map (share, adopt,
    abandon, unlink_shared, export_handle, import_handle).
    What the operating system answers is an argument: whether a file could be
    made, where it was mapped, the descriptors. *)

From stdpp Require Import sorting strings.
From S2P Require Import Prelude Chunks HostMaps BrLock MemState MemTable Vmm VmmRange Resolve Lookup Access.

(** ** Operations *)

(** The keys of a [std::map], in its order. *)
Definition sorted_keys {A} (t : gmap Z A) : list Z := merge_sort Z.le (elements (dom t)).

Section life.
Context {B : Type} `{HostBacking B}.
Local Abbreviation st := (MM * B)%type.

(** The destructor of an [Allocation]. *)
Definition destroy (a : Allocation) (b : B) : B := snd (release_allocation a b).

(** [for (auto& h : handles_) used_ -= h.size] *)
Definition uncharge_handles (m : MM) : Z :=
  foldl (λ u k, match handles_ m !! k with Some h => u64 (u - h_size h) | None => u end)
    (used_ m) (sorted_keys (handles_ m)).

(** free_all's loop over the exported allocations. *)
Definition owned (t : gmap Z SharedRegion) (k : Z) : bool :=
  match t !! k with Some sh => s_owner sh | None => false end.
Fixpoint drop_owned (fuel : nat) : M st unit :=
  s <- get ;;
  match list_find (λ k, owned (shared_ (fst s)) k = true) (sorted_keys (shared_ (fst s))) with
  | None => ret tt
  | Some (_, k) =>
      match fuel, shared_ (fst s) !! k with
      | S fuel', Some sh =>
          on_mm (modify (λ m, set_used_ (u64 (used_ m - s_size sh)) m)) ;;;
          on_mm (drop_shared k) ;;;
          drop_owned fuel'
      | _, _ => undef
      end
  end.

Fixpoint free_each (bases : list Z) : M st unit :=
  match bases with
  | [] => ret tt
  | b :: rest => free b ;;; free_each rest
  end.

(** MemoryManager::free_all, less the card gate *)
Definition free_all : M st unit :=
  modify (λ s, (set_heap_ (mkDeviceHeap 0 ∅ ∅) (fst s), snd s)) ;;;
  modify (λ s, (set_reserved_ ∅ (set_maps_ ∅ (fst s)), snd s)) ;;;
  modify (λ s, (set_handles_ ∅ (set_used_ (uncharge_handles (fst s)) (fst s)),
                foldl (λ b k, match handles_ (fst s) !! k with Some h => destroy (h_mem h) b | None => b end)
                  (snd s) (sorted_keys (handles_ (fst s))))) ;;;
  s <- get ;;
  drop_owned (size (shared_ (fst s))) ;;;
  s <- get ;;
  free_each (sorted_keys (live_ (fst s))).

(** *** Memory another process can map *)

(** share's copy of what is there now: the chunks that are not zero already. *)
Fixpoint share_copy (n : nat) (i : Z) (a : Allocation) (host : Z) (b : B) (mem : Z → Z) : option (Z → Z) :=
  match n with
  | O => Some mem
  | S n' =>
      let off := i * kChunkSize in
      match chunk_at i (a, b) with
      | Ret c _ =>
          if match c with None => true | Some (Uniform u) => u =? 0 | Some (Real _ _) => false end
          then share_copy n' (i + 1) a host b mem
          else
            match read_chunks off (Z.min kChunkSize (a_size a - off)) (a, b) with
            | Ret d _ => share_copy n' (i + 1) a host b
                           (blit mem (host + off) (λ j, d !!! Z.to_nat j) (Z.min kChunkSize (a_size a - off)))
            | _ => None
            end
      | _ => None
      end
  end.

(** MemoryManager::share, less the card gate; [opened] and [mapped] are the file. *)
Definition share (ptr : Z) (path : string) (opened : bool) (mapped : option Z) : M st Z :=
  s <- get ;;
  let m := fst s in
  match shared_ m !! ptr with
  | Some sh => ret (s_size sh)
  | None =>
      match live_ m !! ptr with
      | None => throw InvalidPointer
      | Some a =>
          if negb opened then throw Internal else
          match mapped with
          | None => throw Internal
          | Some host =>
              match share_copy (Z.to_nat (chunk_count a)) 0 a host (snd s) (host_mem m) with
              | None => undef
              | Some mem =>
                  modify (λ s, (set_live_ (delete ptr (live_ (fst s))) (set_host_mem mem (fst s)),
                                destroy a (snd s))) ;;;
                  on_mm (mm_map_host ptr host (a_size a) false) ;;;
                  on_mm (modify (λ m, set_shared_
                    (<[ptr := mkSharedRegion ptr (a_size a) host path true]> (shared_ m)) m)) ;;;
                  ret (a_size a)
              end
          end
      end
  end.

(** MemoryManager::export_handle: a memory file, its mapping, and the copy of
    its descriptor; a chunk of the file has the chunk's bytes. *)
Definition export_chunk (host sz i : Z) (c : option chunk) : chunk :=
  let n := Z.min kChunkSize (sz - i * kChunkSize) in
  Real (host + i * kChunkSize)
    match c with
    | Some (Uniform u) => if negb (u =? 0) then blit (λ _, 0) 0 (λ _, u) n else λ _, 0
    | Some (Real _ f) => blit (λ _, 0) 0 f n
    | None => λ _, 0
    end.
Definition exported_chunks (host sz n : Z) (t : gmap Z chunk) : gmap Z chunk :=
  foldl (λ t' i, <[i := export_chunk host sz i (t !! i)]> t') t (seqZ 0 n).
Definition export_handle (handle memfd : Z) (mapped : option Z) (dup : Z) : M st Z :=
  s <- get ;;
  match handles_ (fst s) !! handle with
  | None => throw InvalidValue
  | Some h =>
      if Z.land (h_types h) 1 =? 0 then throw InvalidValue else
      (if h_fd h <? 0 then
         if memfd <? 0 then throw Internal else
         match mapped, chunks (h_mem h) with
         | None, _ => throw Internal
         | _, None => undef
         | Some host, Some t =>
             let a := h_mem h in
             let a' := mkAllocation (a_size a) (chunk_count a) (chunk_capacity a)
                         (Some (exported_chunks host (h_size h) (chunk_count a) t)) true (h_size h) (card_valid a) in
             let h' := mkHandle (h_size h) (h_refs h) (h_mapped h) (h_types h) (h_compressible h) memfd a' in
             modify (λ s, (set_handles_ (<[handle := h']> (handles_ (fst s))) (fst s),
               foldl (λ b i, match t !! i with Some (Real p _) => release p kAllBytesDirty b | _ => b end)
                 (snd s) (seqZ 0 (chunk_count a))))
         end
       else ret tt) ;;;
      if dup <? 0 then throw Internal else ret dup
  end.
End life.

(** MemoryManager::is_shared *)
Definition is_shared (m : MM) (ptr : Z) : bool := bool_decide (is_Some (shared_ m !! ptr)).

(** MemoryManager::adopt *)
Definition adopt (path : string) (sz : Z) (opened : bool) (mapped : option Z) : M MM Z :=
  if negb opened then throw InvalidValue else
  match mapped with
  | None => throw Internal
  | Some host =>
      m <- get ;;
      let va := next_va_ m in
      let next := u64 (va + u64 (sz + kAllocAlign - 1) / kAllocAlign * kAllocAlign) in
      put (set_high_water_va_ next (set_next_va_ next m)) ;;;
      mm_map_host va host sz false ;;;
      modify (λ m, set_shared_ (<[va := mkSharedRegion va sz host path false]> (shared_ m)) m) ;;;
      ret va
  end.

(** MemoryManager::unlink_shared: whether the file is this process's to remove. *)
Definition unlink_shared (m : MM) (ptr : Z) : bool :=
  match shared_ m !! ptr with Some sh => s_owner sh | None => false end.

(** MemoryManager::abandon *)
Definition abandon (va : Z) : M MM unit :=
  m <- get ;;
  match shared_ m !! va with
  | Some (mkSharedRegion _ _ _ _ false) => drop_shared va
  | _ => throw InvalidPointer
  end.

(** MemoryManager::import_handle: the size of the file, its mapping with the
    bytes in it, and the descriptor kept. *)
Definition imported_mem (sz host : Z) (bytes : Z → Z) : Allocation :=
  let n := (sz + kChunkSize - 1) / kChunkSize in
  mkAllocation sz n 0
    (Some (foldl (λ t i, <[i := Real (host + i * kChunkSize) (λ j, bytes (i * kChunkSize + j))]> t) ∅ (seqZ 0 n)))
    true sz 0.
Definition import_handle (fd : Z) (stat : option Z) (mapped : option (Z * (Z → Z))) (keep : Z) : M MM Z :=
  match (if fd <? 0 then None else stat) with
  | None => throw NotFound
  | Some sz =>
      if sz <=? 0 then throw NotFound else
      m <- get ;;
      if negb (sz mod kVmmGranularity =? 0) then throw NotFound else
      if (capacity_ m <? u64 (used_ m + sz)) || (u64 (used_ m + sz) <? used_ m) then throw OutOfMemory else
      match mapped with
      | None => throw NotFound
      | Some (host, bytes) =>
          let h := mkHandle sz 1 0 1 false keep (imported_mem sz host bytes) in
          put (set_handles_ (emplace (next_handle_ m) h (handles_ m))
              (set_next_handle_ (u64 (next_handle_ m + 1)) (set_used_ (u64 (used_ m + sz)) m))) ;;;
          ret (next_handle_ m)
      end
  end.

(** ** free_all leaves nothing *)

(** vmm_inv looks at the virtual-memory tables only. *)
Lemma vmm_inv_frame m m' : vmm_inv m → maps_ m' = maps_ m → handles_ m' = handles_ m →
  reserved_ m' = reserved_ m → next_handle_ m' = next_handle_ m → vmm_inv m'.
Proof. intros [] E1 E2 E3 E4. by split; rewrite ?E1, ?E2, ?E3, ?E4. Qed.

Lemma sorted_keys_spec {A} (t : gmap Z A) : NoDup (sorted_keys t) ∧ ∀ k, k ∈ sorted_keys t ↔ is_Some (t !! k).
Proof.
  unfold sorted_keys. pose proof (merge_sort_Permutation Z.le (elements (dom t))) as Hp. split.
  - rewrite Hp. apply NoDup_elements.
  - intros k. rewrite Hp, elem_of_elements. apply elem_of_dom.
Qed.

Lemma map_sum_remove {A} (f : A → Z) (t : gmap Z A) l : NoDup l → (∀ k, k ∈ l → is_Some (t !! k)) →
  map_sum f t = map_sum f (foldr delete t l) + foldr (λ k n, from_option f 0 (t !! k) + n) 0 l.
Proof.
  induction l as [|k l IH]; intros Hnd Hin; cbn [foldr]; [lia|].
  apply NoDup_cons in Hnd as [Hk Hnd]. destruct (Hin k) as [x Hx]; [left|]. rewrite Hx. cbn [from_option].
  rewrite IH by (done || (intros; apply Hin; by right)).
  rewrite (map_sum_delete f k x (foldr delete t l)); [lia|]. by rewrite lookup_foldr_delete_not_elem_of.
Qed.

Lemma foldr_delete_all {A} (t : gmap Z A) l : (∀ k, is_Some (t !! k) → k ∈ l) → foldr delete t l = ∅.
Proof.
  intros Hl. apply map_eq. intros k. rewrite lookup_empty.
  destruct (decide (k ∈ l)) as [|Hn]; [by apply lookup_foldr_delete|].
  rewrite lookup_foldr_delete_not_elem_of by done. apply eq_None_not_Some. by intros Hk%Hl.
Qed.

(** The handles' sizes come off the total exactly: nothing wraps. *)
Lemma uncharge_sum (t : gmap Z Handle) l u : NoDup l → (∀ k, k ∈ l → is_Some (t !! k)) →
  (∀ k h, t !! k = Some h → 0 ≤ h_size h) →
  let total := foldr (λ k n, from_option h_size 0 (t !! k) + n) 0 l in
  0 ≤ total ∧ (total ≤ u → u ≤ u64_max →
    foldl (λ u k, match t !! k with Some h => u64 (u - h_size h) | None => u end) u l = u - total).
Proof.
  intros Hnd Hin Hpos. revert u. induction l as [|k l IH]; intros u; cbn [foldr foldl]; [split; intros; lia|].
  apply NoDup_cons in Hnd as [_ Hnd]. destruct (Hin k) as [h Hh]; [left|]. rewrite Hh. cbn [from_option].
  specialize (Hpos k h Hh). specialize (IH Hnd ltac:(intros; apply Hin; by right)).
  destruct (IH (u - h_size h)) as [Htot _]. split; [lia|]. intros Hle Hu.
  rewrite u64_small by (unfold is_u64, u64_max in *; lia). destruct (IH (u - h_size h)) as [_ ->]; lia.
Qed.

Lemma uncharge_handles_spec m : table_inv m →
  uncharge_handles m = map_sum a_size (live_ m) + map_sum shared_charge (shared_ m).
Proof.
  intros Hinv. unfold uncharge_handles. destruct (sorted_keys_spec (handles_ m)) as [Hnd Hk].
  destruct (uncharge_sum (handles_ m) (sorted_keys (handles_ m)) (used_ m) Hnd) as [_ ->].
  - intros k Hin. by apply Hk.
  - intros k h Hh%(ti_handles _ Hinv). lia.
  - pose proof (map_sum_remove h_size (handles_ m) _ Hnd ltac:(intros; by apply Hk)) as Hs.
    rewrite foldr_delete_all, map_sum_empty, Z.add_0_l in Hs by (intros; by apply Hk). rewrite <- Hs, (ti_used _ Hinv).
    unfold charged. lia.
  - pose proof (map_sum_remove h_size (handles_ m) _ Hnd ltac:(intros; by apply Hk)) as Hs.
    rewrite foldr_delete_all, map_sum_empty, Z.add_0_l in Hs by (intros; by apply Hk). rewrite <- Hs, (ti_used _ Hinv).
    unfold charged. destruct (charged_parts m Hinv) as (Hl & _ & Hsh).
    specialize (Hl (live_ m) ltac:(done)). specialize (Hsh (shared_ m) ltac:(done)). lia.
  - destruct (ti_capacity _ Hinv). lia.
Qed.

(** After the tables without a destructor of their own are cleared. *)
Definition cleared (m : MM) : MM :=
  set_handles_ ∅ (set_used_ (uncharge_handles m) (set_reserved_ ∅ (set_maps_ ∅ (set_heap_ (mkDeviceHeap 0 ∅ ∅) m)))).

Lemma cleared_ok m : mem_ok m → mem_ok (cleared m).
Proof.
  intros [Hinv Hv]. pose proof Hinv as [Hc Hva [Hin Hkind Hdisj] Hlive Hsp [] Hused [Hu Hcm] Hsh Hhs]. split.
  - assert (Hsub : ∀ k b e, region (cleared m) k b e → region m k b e).
    { intros [] b e Hr; cbn in *; try done. destruct Hr as (x & Hx & _). by rewrite lookup_empty in Hx. }
    assert (0 ≤ uncharge_handles m ≤ used_ m).
    { rewrite uncharge_handles_spec, Hused by done. unfold charged. destruct (charged_parts m Hinv) as (Hl & ? & Hs).
      specialize (Hl (live_ m) ltac:(done)). specialize (Hs (shared_ m) ltac:(done)). lia. }
    split; try done.
    + split; intros *; [by intros ?%Hsub%Hin|intros ?%Hsub ?%Hsub; by eapply Hkind|intros ?%Hsub ?%Hsub; by eapply Hdisj].
    + unfold charged. cbn -[uncharge_handles]. rewrite map_sum_empty, uncharge_handles_spec by done. lia.
    + cbn -[uncharge_handles]. lia.
  - destruct Hv. split; cbn; try done.
Qed.

Lemma drop_shared_shape m k sh : shared_ m !! k = Some sh →
  ∃ h g, drop_shared k m = Ret tt (set_shared_ (delete k (shared_ m)) (set_host_maps_ h (set_next_gen g m))).
Proof.
  intros Hk. unfold drop_shared, bind at 1, get. rewrite Hk.
  destruct (mm_unmap_host_shape (s_va sh) m) as (h & g & E). exists h, g. by erewrite bind_Ret by exact E.
Qed.

(** A shared region goes, with what it was charged. *)
Lemma table_inv_unshare m k sh h g : table_inv m → shared_ m !! k = Some sh →
  table_inv (set_shared_ (delete k (shared_ m)) (set_host_maps_ h (set_next_gen g
    (set_used_ (used_ m - shared_charge sh) m)))).
Proof.
  intros Hinv Hk. pose proof Hinv as [Hc Hva [Hin Hkind Hdisj] Hlive Hsp [] Hused [Hu Hcm] Hsh Hhs].
  match goal with |- table_inv ?x => set (m' := x) end.
  assert (Hsub : ∀ k b e, region m' k b e → region m k b e).
  { intros [] b e Hr; cbn in *; try done. destruct Hr as (x & [_ Hx]%lookup_delete_Some & ->). by exists x. }
  assert (Hch : charged m = shared_charge sh + charged m').
  { unfold charged. cbn. rewrite (map_sum_delete shared_charge k sh (shared_ m)) by done. lia. }
  assert (0 ≤ charged m' ∧ 0 ≤ shared_charge sh) as [? ?].
  { destruct (charged_parts m Hinv) as (Hl & ? & Hs). unfold charged. cbn.
    specialize (Hl (live_ m) ltac:(done)). split.
    - specialize (Hs (delete k (shared_ m)) ltac:(by intros b x []%lookup_delete_Some)). lia.
    - unfold shared_charge. destruct (s_owner sh); [|lia].
      assert (region m KShared k (k + s_size sh)) as Hr%Hin by (by exists sh). lia. }
  split; try done; try (cbn; lia).
  - split; intros *; [by intros ?%Hsub%Hin|intros ?%Hsub ?%Hsub; by eapply Hkind|intros ?%Hsub ?%Hsub; by eapply Hdisj].
  - intros b x. cbn. intros [_ Hx]%lookup_delete_Some. by apply Hsh.
Qed.

Section free_all_spec.
Context {B : Type} `{HostBacking B}.

(** What the loops of free_all leave alone. *)
Definition kept (m m' : MM) : Prop :=
  maps_ m' = maps_ m ∧ handles_ m' = handles_ m ∧ reserved_ m' = reserved_ m ∧
  next_handle_ m' = next_handle_ m ∧ va_base_ m' = va_base_ m ∧ next_va_ m' = next_va_ m.

Lemma kept_trans m1 m2 m3 : kept m1 m2 → kept m2 m3 → kept m1 m3.
Proof. unfold kept. intros (-> & -> & -> & -> & -> & ->) (-> & -> & -> & -> & -> & ->). done. Qed.

Lemma none_owned m : table_inv m →
  list_find (λ k, owned (shared_ m) k = true) (sorted_keys (shared_ m)) = None →
  (∀ k sh, shared_ m !! k = Some sh → s_owner sh = false) ∧ map_sum shared_charge (shared_ m) = 0.
Proof.
  intros Hinv Hn. apply list_find_None in Hn. rewrite Forall_forall in Hn.
  assert (Hno : ∀ k sh, shared_ m !! k = Some sh → s_owner sh = false).
  { intros k sh Hk. specialize (Hn k). unfold owned in Hn. rewrite Hk in Hn. destruct (s_owner sh); [|done].
    destruct Hn; [|done]. apply sorted_keys_spec. by eexists. }
  split; [done|]. unfold map_sum. clear Hn. induction (shared_ m) as [|k sh t Hk IH] using map_ind; [apply map_fold_empty|].
  rewrite map_fold_insert_L by (done || (intros; lia)). unfold shared_charge at 1.
  rewrite (Hno k sh) by apply lookup_insert_eq. rewrite IH; [done|]. intros k' sh' Hk'. apply (Hno k').
  rewrite lookup_insert_ne; [done|congruence].
Qed.

Lemma drop_owned_spec fuel m (b : B) :
  table_inv m → (size (shared_ m) ≤ fuel)%nat →
  ∃ m', drop_owned fuel (m, b) = Ret tt (m', b) ∧ table_inv m' ∧ kept m m' ∧ live_ m' = live_ m ∧
    freed_front_seq_ m' = freed_front_seq_ m ∧ map_sum shared_charge (shared_ m') = 0 ∧
    (∀ k sh, shared_ m' !! k = Some sh → s_owner sh = false ∧ shared_ m !! k = Some sh).
Proof.
  revert m. induction fuel as [|fuel IH]; intros m Hinv Hfuel.
  { exists m. apply Nat.le_0_r, map_size_empty_inv in Hfuel as E. cbn [drop_owned]. unfold bind, get. cbn [fst].
    rewrite E. split_and!; try done; intros *; by rewrite lookup_empty. }
  cbn [drop_owned]. unfold bind at 1, get. cbn [fst].
  destruct (list_find _ _) as [[i k]|] eqn:Ef.
  2:{ apply none_owned in Ef as [Hno Hsum]; [|done]. exists m. split_and!; try done. intros k sh Hk.
      split; [by eapply Hno|done]. }
  apply list_find_Some in Ef as (_ & Ho & _). unfold owned in Ho.
  destruct (shared_ m !! k) as [sh|] eqn:Hk; [|done].
  pose proof (used_covers_shared m k sh Hinv Hk Ho). destruct (ti_capacity _ Hinv) as [? ?].
  assert (region m KShared k (k + s_size sh)) as Hr by (by exists sh). apply (ro_in _ (ti_regions _ Hinv)) in Hr.
  unfold u64_max in *. erewrite bind_Ret by (by apply on_mm_Ret). rewrite u64_small by (unfold is_u64; lia).
  destruct (drop_shared_shape (set_used_ (used_ m - s_size sh) m) k sh Hk) as (h & g & Ed).
  erewrite bind_Ret by (apply on_mm_Ret; exact Ed).
  pose proof (table_inv_unshare m k sh h g Hinv Hk) as Hinv1. unfold shared_charge in Hinv1. rewrite Ho in Hinv1.
  destruct (IH _ Hinv1) as (m' & E & ? & ? & ? & ? & ? & Hs).
  { cbn. rewrite map_size_delete, Hk. cbn. lia. }
  exists m'. split_and!; try done. intros k' sh' Hk'. destruct (Hs k' sh' Hk') as [? Hd].
  cbn in Hd. by apply lookup_delete_Some in Hd as [_ Hd].
Qed.

Lemma free_each_spec bases m (b : B) :
  table_inv m → NoDup bases → (∀ k, k ∈ bases → is_Some (live_ m !! k)) →
  freed_front_seq_ m + Z.of_nat (length bases) + 8192 ≤ u64_max →
  ∃ m' b', free_each bases (m, b) = Ret tt (m', b') ∧ table_inv m' ∧ kept m m' ∧
    live_ m' = foldr delete (live_ m) bases ∧ (∀ k, k ∉ bases → shared_ m' !! k = shared_ m !! k) ∧
    (∀ k, is_Some (shared_ m' !! k) → is_Some (shared_ m !! k)).
Proof.
  revert m b. induction bases as [|p bases IH]; intros m b Hinv Hnd Hl Hfr.
  { exists m, b. by split_and!. }
  apply NoDup_cons in Hnd as [Hp Hnd]. cbn [length] in Hfr. cbn [free_each foldr].
  destruct (Hl p) as [a Ha]; [left|].
  destruct (free_live m b p a Hinv) as (m1 & b1 & q & E & (Hinv1 & Hn & Hns & _ & _ & ? & ? & Hkeep & Hks & ? & ? & ? & ? & ?) & _);
    [unfold frees_left; lia|done|].
  erewrite bind_Ret by exact E.
  assert (Hlive1 : live_ m1 = delete p (live_ m)).
  { apply map_eq. intros k. destruct (decide (k = p)) as [->|]; [by rewrite lookup_delete_eq|].
    rewrite lookup_delete_ne by done. by apply Hkeep. }
  destruct (IH m1 b1) as (m' & b' & E' & ? & Hk & Hlv & Hs & Hs'); try done.
  { intros k Hin. rewrite Hlive1, lookup_delete_ne by (by intros ->). apply Hl. by right. }
  { lia. }
  exists m', b'. split_and!; try done.
  - eapply kept_trans; [|exact Hk]. done.
  - rewrite Hlv, Hlive1. clear. induction bases as [|k bases IH]; [done|]. cbn. by rewrite IH, delete_delete.
  - intros k Hin. apply not_elem_of_cons in Hin as [? ?]. rewrite Hs by done. by apply Hks.
  - intros k Hin. apply Hs' in Hin. destruct (decide (k = p)) as [->|]; [by rewrite Hns in Hin; destruct Hin|].
    by rewrite <- Hks.
Qed.

(** A reset frees everything the process owns: the device is empty and its
    whole capacity is there again; only memory mapped from another process
    stays, and no address is handed out twice. *)
Lemma free_all_empties m (b : B) :
  mem_ok m → freed_front_seq_ m + Z.of_nat (size (live_ m)) + 8192 ≤ u64_max →
  ∃ m' b', free_all (m, b) = Ret tt (m', b') ∧ mem_ok m' ∧ used_ m' = 0 ∧
    live_ m' = ∅ ∧ handles_ m' = ∅ ∧ maps_ m' = ∅ ∧ reserved_ m' = ∅ ∧
    (∀ k sh, shared_ m' !! k = Some sh → s_owner sh = false ∧ shared_ m !! k = Some sh) ∧
    next_va_ m' = next_va_ m ∧ va_base_ m' = va_base_ m.
Proof.
  intros Hok Hfr. pose proof (cleared_ok m Hok) as [Hinv1 Hv1]. unfold free_all.
  do 3 (erewrite bind_Ret by done). cbn [fst snd]. unfold bind at 1, get. cbn [fst snd].
  change (set_handles_ ∅ _) with (cleared m).
  set (b1 := foldl _ b _). cbn [fst].
  destruct (drop_owned_spec (size (shared_ (cleared m))) (cleared m) b1 Hinv1) as
    (m2 & E2 & Hinv2 & Hk2 & Hl2 & Hf2 & Hs2 & Hsh2); [done|].
  erewrite bind_Ret by exact E2. unfold bind at 1, get. cbn [fst].
  destruct (sorted_keys_spec (live_ m2)) as [Hnd Hin].
  destruct (free_each_spec (sorted_keys (live_ m2)) m2 b1 Hinv2 Hnd) as (m3 & b3 & E3 & Hinv3 & Hk3 & Hl3 & Hs3 & Hs3').
  { intros k Hk. by apply Hin. }
  { assert (length (sorted_keys (live_ m2)) = size (live_ m)) as ->; [|rewrite Hf2; done].
    unfold sorted_keys. rewrite (Permutation_length (merge_sort_Permutation Z.le _)).
    rewrite Hl2. apply size_dom. }
  exists m3, b3. pose proof (kept_trans _ _ _ Hk2 Hk3) as (Em & Eh & Er & En & Evb & Env).
  assert (Hlive : live_ m3 = ∅). { rewrite Hl3. apply foldr_delete_all. intros k. apply Hin. }
  assert (Hshared : ∀ k sh, shared_ m3 !! k = Some sh → s_owner sh = false ∧ shared_ m !! k = Some sh).
  { intros k sh Hk. destruct (decide (k ∈ sorted_keys (live_ m2))) as [Hkl|Hkl].
    - apply Hin in Hkl as [a Ha]. assert (is_Some (shared_ m2 !! k)) as [sh2 Hsh] by (apply Hs3'; by eexists).
      assert (KLive = KShared) as Hbad; [|done].
      eapply (ro_kind _ (ti_regions _ Hinv2) KLive KShared k); [by exists a|by exists sh2].
    - rewrite Hs3 in Hk by done. destruct (Hsh2 k sh Hk) as [? Hm]. done. }
  split_and!; try done.
  - split; [done|]. by apply (vmm_inv_frame (cleared m)).
  - rewrite (ti_used _ Hinv3). unfold charged. rewrite Hlive, Eh. cbn [cleared handles_ set_handles_].
    rewrite !map_sum_empty. cbn [Z.add]. apply (none_owned m3 Hinv3).
    apply list_find_None, Forall_forall. intros k _. unfold owned. destruct (shared_ m3 !! k) as [sh|] eqn:Hk; [|done].
    by rewrite (proj1 (Hshared k sh Hk)).
Qed.
End free_all_spec.

(** ** Memory other processes map *)

Section share_spec.
Context {B : Type} `{HostBacking B}.

(** The file has the bytes of the chunks copied so far, and zeros after them. *)
Lemma share_copy_spec a host (b : B) : wf_alloc a → ∀ n i mem,
  0 ≤ i → i + Z.of_nat n ≤ chunk_count a → (∀ j, i * kChunkSize ≤ j < a_size a → mem (host + j) = 0) →
  ∃ mem', share_copy n i a host b mem = Some mem' ∧
    ∀ j, mem' (host + j) =
      if (i * kChunkSize <=? j) && (j <? Z.min ((i + Z.of_nat n) * kChunkSize) (a_size a))
      then content a j else mem (host + j).
Proof.
  intros Hwf. pose proof (wf_chunks _ Hwf) as (t & Ht & _).
  induction n as [|n IH]; intros i mem Hi Hn Hz; cbn [share_copy].
  { exists mem. split; [done|]. intros j. rewrite Z.add_0_r.
    destruct (Z.leb_spec (i * kChunkSize) j), (Z.ltb_spec j (Z.min (i * kChunkSize) (a_size a))); cbn; done || lia. }
  assert (Hk : kChunkSize = 65536) by done.
  rewrite (chunk_at_ret (a, b) t) by (cbn [fst]; done || lia).
  assert (Hlast : i * kChunkSize < a_size a).
  { pose proof (wf_count _ Hwf) as Hc. assert (i + 1 ≤ (a_size a + kChunkSize - 1) / kChunkSize) by lia.
    pose proof (Z.mul_div_le (a_size a + kChunkSize - 1) kChunkSize ltac:(lia)). nia. }
  set (len := Z.min kChunkSize (a_size a - i * kChunkSize)).
  assert (Hstep : ∀ mem1, (∀ j, mem1 (host + j) =
      if (i * kChunkSize <=? j) && (j <? i * kChunkSize + len) then content a j else mem (host + j)) →
    ∃ mem', share_copy n (i + 1) a host b mem1 = Some mem' ∧
    ∀ j, mem' (host + j) =
      if (i * kChunkSize <=? j) && (j <? Z.min ((i + Z.of_nat (S n)) * kChunkSize) (a_size a))
      then content a j else mem (host + j)).
  { intros mem1 Hm1. destruct (IH (i + 1) mem1) as (mem' & E & Hm'); [lia|lia| |].
    { intros j Hj. rewrite Hm1.
      destruct (Z.leb_spec (i * kChunkSize) j); [|lia]. destruct (Z.ltb_spec j (i * kChunkSize + len)); [lia|].
      apply Hz. lia. }
    exists mem'. split; [done|]. intros j. rewrite Hm', Hm1.
    replace (i + 1 + Z.of_nat n) with (i + Z.of_nat (S n)) by lia.
    destruct (Z.leb_spec ((i + 1) * kChunkSize) j), (Z.ltb_spec j (Z.min ((i + Z.of_nat (S n)) * kChunkSize) (a_size a))),
      (Z.leb_spec (i * kChunkSize) j), (Z.ltb_spec j (i * kChunkSize + len)); cbn [andb]; try done; lia. }
  destruct (match t !! i with None => true | Some (Uniform u) => u =? 0 | Some (Real _ _) => false end) eqn:Ez.
  - apply Hstep. intros j. destruct (Z.leb_spec (i * kChunkSize) j); [|done].
    destruct (Z.ltb_spec j (i * kChunkSize + len)); [|done]. cbn [andb]. rewrite Hz by lia.
    unfold content. rewrite Ht. replace (j / kChunkSize) with i by (apply (Z.div_unique_pos _ _ _ (j - i * kChunkSize)); lia).
    destruct (t !! i) as [[u|p f]|]; [cbn; lia|done|done].
  - pose proof (size_le_extent a Hwf).
    rewrite (read_chunks_spec a) by (done || lia).
    apply Hstep. intros j. unfold blit.
    destruct (Z.leb_spec (i * kChunkSize) j), (Z.leb_spec (host + i * kChunkSize) (host + j)); try lia; cbn [andb]; [|done].
    destruct (Z.ltb_spec j (i * kChunkSize + len)), (Z.ltb_spec (host + j) (host + i * kChunkSize + len)); try lia.
    erewrite list_lookup_total_correct; [done|]. apply list_lookup_fmap_Some. eexists. split; [|apply lookup_seqZ]; [f_equal; lia|lia].
Qed.

(** An allocation exported for other processes keeps its address, its
    size, its charge and its bytes: the new file (which reads as zeros) ends up
    with exactly the bytes of the allocation, skipped zero chunks included, and
    the device address is mapped to the file from then on. *)
Theorem share_keeps m (b : B) ptr path host a :
  mem_ok m → live_ m !! ptr = Some a → (∀ j, 0 ≤ j < a_size a → host_mem m (host + j) = 0) →
  ∃ m' b', share ptr path true (Some host) (m, b) = Ret (a_size a) (m', b') ∧ mem_ok m' ∧
    live_ m' = delete ptr (live_ m) ∧ used_ m' = used_ m ∧
    shared_ m' = <[ptr := mkSharedRegion ptr (a_size a) host path true]> (shared_ m) ∧
    maps (host_maps_ m') = maps (host_maps_ m) ++ [mkHostMap ptr (a_size a) host false] ∧
    ∀ j, 0 ≤ j < a_size a → host_mem m' (host + j) = cell m (LiveAt ptr) j.
Proof.
  intros [Hinv Hv] Ha Hz. destruct (ti_live _ Hinv _ _ Ha) as (Hwf & Hpos & _).
  assert (Hr : region m KLive ptr (ptr + padded m (a_size a))) by (by exists a).
  pose proof (region_base_kind m KLive KShared ptr _ (ti_regions _ Hinv) Hr ltac:(done)) as Hns.
  pose proof (padded_bounds m (a_size a) (ti_config _ Hinv)) as Hpad.
  unfold share, bind at 1, get. cbn [fst snd negb]. rewrite Hns, Ha.
  assert (Hcc : 0 ≤ chunk_count a) by (rewrite (wf_count _ Hwf); apply Z.div_pos; [unfold kChunkSize; lia|done]).
  destruct (share_copy_spec a host b Hwf (Z.to_nat (chunk_count a)) 0 (host_mem m)) as (mem & -> & Hmem);
    [lia|lia|intros; apply Hz; lia|].
  erewrite bind_Ret by done. erewrite bind_Ret by (by apply on_mm_Ret). erewrite bind_Ret by (by apply on_mm_Ret).
  eexists _, _. split; [done|]. split; [split|cbn; split_and!; try done].
  2:{ by apply (vmm_inv_frame m). }
  - pose proof Hinv as [Hc Hva [Hin Hkind Hdisj] Hlive Hsp [] Hused [Hu Hcm] Hsh Hhs].
    match goal with |- table_inv ?x => set (m' := x) end.
    assert (Hsub : ∀ k c e, region m' k c e → (k = KShared ∧ c = ptr ∧ e = ptr + a_size a) ∨ (region m k c e ∧ c ≠ ptr)).
    { intros [] c e Hrg; cbn in Hrg.
      - destruct Hrg as (x & [? Hx]%lookup_delete_Some & ->). right. split; [by exists x|congruence].
      - right. split; [done|]. intros ->. by pose proof (Hkind KFreed _ _ e _ Hrg Hr).
      - right. split; [done|]. intros ->. by pose proof (Hkind KReserved _ _ e _ Hrg Hr).
      - destruct Hrg as (x & Hx & ->). destruct (decide (c = ptr)) as [->|].
        + rewrite lookup_insert_eq in Hx. simplify_eq. left. done.
        + rewrite lookup_insert_ne in Hx by congruence. right. split; [by exists x|done]. }
    split; try done.
    + apply (regions_sub m); try done. intros k c e Hrg.
      destruct (Hsub k c e Hrg) as [(-> & -> & ->)|[Hm Hne]].
      * split; [lia|]. split; [by exists KLive, (ptr + padded m (a_size a)); split; [|lia]|].
        intros k2 e2 H2. destruct (Hsub _ _ _ H2) as [(-> & _)|[_ ?]]; done.
      * destruct (Hin _ _ _ Hm). split; [lia|]. split; [by exists k, e|].
        intros k2 e2 H2. destruct (Hsub _ _ _ H2) as [(_ & -> & _)|[Hm2 _]]; [done|by eapply Hkind].
    + intros c x. cbn. intros [_ Hx]%lookup_delete_Some. by eapply Hlive.
    + unfold charged in *. cbn. rewrite map_sum_insert by done. rewrite (map_sum_delete a_size ptr a) in Hused by done.
      unfold shared_charge at 1. cbn. lia.
    + intros c x. cbn. destruct (decide (c = ptr)) as [->|].
      * rewrite lookup_insert_eq. by intros [= <-].
      * rewrite lookup_insert_ne by congruence. apply Hsh.
  - intros j Hj. rewrite Hmem. destruct (Z.leb_spec (0 * kChunkSize) j); [|lia].
    pose proof (size_le_extent a Hwf). unfold extent in *.
    rewrite Z2Nat.id, Z.add_0_l by done.
    destruct (Z.ltb_spec j (Z.min (chunk_count a * kChunkSize) (a_size a))); [|lia].
    cbn [andb]. unfold cell. cbn. by rewrite Ha.
Qed.
End share_spec.

(** An imported buffer gets an address of its own, above every other, and is
    charged to its owner; closing it leaves the address retired. *)
Lemma adopt_ok m path sz host :
  mem_ok m → 0 < sz → va_room m sz →
  ∃ m', adopt path sz true (Some host) m = Ret (next_va_ m) m' ∧ mem_ok m' ∧ used_ m' = used_ m ∧
    shared_ m' = <[next_va_ m := mkSharedRegion (next_va_ m) sz host path false]> (shared_ m) ∧
    next_va_ m + sz ≤ next_va_ m' ∧ live_ m' = live_ m.
Proof.
  intros [Hinv Hv] Hsz Hroom. pose proof Hinv as [Hc Hva Hreg Hlive Hsp [] Hused [Hu Hcm] Hsh Hhs].
  destruct Hva as (Hvb & Hn & Hhw). unfold va_room, u64_max in Hroom.
  unfold adopt, bind at 1, get. cbn [negb]. unfold kAllocAlign.
  rewrite (u64_small (sz + 256 - 1)) by (unfold is_u64; lia).
  pose proof (round_up_spec sz 256 ltac:(lia)) as [Hru _]. unfold round_up in Hru.
  set (pad := (sz + 256 - 1) / 256 * 256) in *.
  rewrite u64_small by (unfold is_u64; lia).
  do 3 (erewrite bind_Ret by done). eexists. split; [done|].
  destruct (region_none_above m (next_va_ m) Hreg) as (_ & _ & _ & Hfree); [lia|].
  split; [split|cbn; split_and!; done || lia].
  2:{ by apply (vmm_inv_frame m). }
  split; cbn; try done; try (unfold u64_max; lia).
  - apply (regions_fresh m _ KShared (next_va_ m) (next_va_ m + sz)); cbn; try done; try lia.
    intros [] c e Hr; cbn in Hr; try (by left). destruct Hr as (x & Hx & ->).
    destruct (decide (c = next_va_ m)) as [->|].
    + rewrite lookup_insert_eq in Hx. simplify_eq. by right.
    + rewrite lookup_insert_ne in Hx by congruence. left. by exists x.
  - unfold charged in *. cbn. rewrite map_sum_insert by done. unfold shared_charge at 1. cbn. lia.
  - intros c x. destruct (decide (c = next_va_ m)) as [->|].
    + rewrite lookup_insert_eq. by intros [= <-].
    + rewrite lookup_insert_ne by congruence. apply Hsh.
Qed.

(** Only what was mapped from another process can be closed, and that changes
    nothing but the shared and host tables. *)
Lemma abandon_spec m va : mem_ok m →
  match abandon va m with
  | Ret _ m' => mem_ok m' ∧ (∃ sh, shared_ m !! va = Some sh ∧ s_owner sh = false) ∧
      shared_ m' = delete va (shared_ m) ∧ live_ m' = live_ m ∧ used_ m' = used_ m
  | Exn e m' => e = Error InvalidPointer ∧ m' = m ∧ unlink_shared m va = is_shared m va
  | Undef => False
  end.
Proof.
  intros [Hinv Hv]. unfold abandon, bind, get, unlink_shared, is_shared.
  destruct (shared_ m !! va) as [[v sz host path own]|] eqn:Hk; [|done].
  destruct own; [done|]. destruct (drop_shared_shape m va _ Hk) as (h & g & ->).
  pose proof (table_inv_unshare m va _ h g Hinv Hk) as Ht. unfold shared_charge in Ht. cbn [s_owner] in Ht.
  rewrite Z.sub_0_r in Ht. split; [split|split_and!; try done; by eexists].
  - destruct m; exact Ht.
  - by apply (vmm_inv_frame m).
Qed.

(** ** Handles other processes map *)

Lemma foldl_insert_seqZ {A} (F : Z → A) (t : gmap Z A) n k :
  foldl (λ t' i, <[i := F i]> t') t (seqZ 0 n) !! k =
    if (0 <=? k) && (k <? n) then Some (F k) else t !! k.
Proof.
  assert (Hg : ∀ l (t : gmap Z A), foldl (λ t' i, <[i := F i]> t') t l !! k =
    if decide (k ∈ l) then Some (F k) else t !! k).
  { induction l as [|i l IH]; intros t'; cbn [foldl]; [done|]. rewrite IH.
    destruct (decide (k ∈ l)), (decide (k ∈ i :: l)) as [Hin|Hin]; try done; [by destruct Hin; right|..].
    - apply elem_of_cons in Hin as [->|]; [by rewrite lookup_insert_eq|done].
    - apply not_elem_of_cons in Hin as [? _]. by rewrite lookup_insert_ne. }
  rewrite Hg. destruct (decide (k ∈ seqZ 0 n)) as [Hin|Hin]; rewrite elem_of_seqZ in Hin;
    destruct (Z.leb_spec 0 k), (Z.ltb_spec k n); cbn; done || lia.
Qed.

Section export_spec.
Context {B : Type} `{HostBacking B}.

Lemma blit_whole f src n j : 0 ≤ j < n → blit f 0 src n j = src j.
Proof.
  intros Hj. unfold blit. rewrite Z.sub_0_r. destruct (Z.leb_spec 0 j), (Z.ltb_spec j (0 + n)); done || lia.
Qed.

(** The chunks of the file have the bytes of the chunks they replace. *)
Lemma exported_wf a t host : wf_alloc a → chunks a = Some t → a_size a mod kChunkSize = 0 →
  let a' := mkAllocation (a_size a) (chunk_count a) (chunk_capacity a)
              (Some (exported_chunks host (a_size a) (chunk_count a) t)) true (a_size a) (card_valid a) in
  wf_alloc a' ∧ ∀ o, 0 ≤ o < a_size a → content a' o = content a o.
Proof.
  intros Hwf Ht Hmod a'. assert (Hk : kChunkSize = 65536) by done.
  assert (Hcc : chunk_count a * kChunkSize = a_size a).
  { rewrite (wf_count _ Hwf). apply Z.mod_divide in Hmod as [q Hq]; [|lia]. rewrite Hq.
    replace (q * kChunkSize + kChunkSize - 1) with (q * kChunkSize + (kChunkSize - 1)) by lia.
    rewrite Z.div_add_l, (Z.div_small (kChunkSize - 1)) by lia. lia. }
  assert (Hbyte : ∀ i j, 0 ≤ i < chunk_count a → 0 ≤ j < kChunkSize →
    slot_byte (Some (export_chunk host (a_size a) i (t !! i))) j = slot_byte (t !! i) j).
  { intros i j Hi Hj. unfold export_chunk, slot_byte.
    replace (Z.min kChunkSize (a_size a - i * kChunkSize)) with kChunkSize by nia.
    destruct (t !! i) as [[u|p f]|]; cbv zeta iota; [|by apply blit_whole|done].
    destruct (Z.eqb_spec u 0); cbn [negb]; [done|]. by apply (blit_whole (λ _, 0) (λ _, u)). }
  split.
  - split; [apply Hwf|apply Hwf|]. eexists. split; [done|]. intros i c Hc. cbn in Hc. unfold exported_chunks in Hc.
    rewrite foldl_insert_seqZ in Hc. pose proof (wf_chunks _ Hwf) as (t' & Ht' & Hok).
    replace t' with t in Hok by congruence.
    destruct (Z.leb_spec 0 i), (Z.ltb_spec i (chunk_count a)); cbn [andb] in Hc; try (by eapply Hok).
    injection Hc as <-. split; [done|]. unfold export_chunk. cbn. intros j.
    assert (Hblit : ∀ f n, (∀ i, is_byte (f i)) → is_byte (blit (λ _, 0) 0 f n j)).
    { intros f n Hf. unfold blit. destruct (_ && _); [apply Hf|unfold is_byte; lia]. }
    destruct (t !! i) as [[u|p f]|] eqn:E; [|by apply Hblit, (Hok i _ E)|unfold is_byte; lia].
    destruct (negb (u =? 0)); [|unfold is_byte; lia]. apply Hblit. intros _. apply (Hok i _ E).
  - intros o Ho. unfold content, a'. cbn [chunks]. rewrite Ht. unfold exported_chunks. rewrite foldl_insert_seqZ.
    assert (Hi : 0 ≤ o / kChunkSize < chunk_count a).
    { split; [apply Z.div_pos; lia|]. apply Z.div_lt_upper_bound; lia. }
    pose proof (Z.mod_pos_bound o kChunkSize ltac:(lia)).
    destruct (Z.leb_spec 0 (o / kChunkSize)), (Z.ltb_spec (o / kChunkSize) (chunk_count a)); try lia.
    cbn [andb]. by apply Hbyte.
Qed.

(** Exporting a handle changes where its bytes are, not what they are:
    uniform, real and untouched chunks read the same from the file's mapping;
    the handle's size and references, the other handles and every allocation
    stay. *)
Theorem export_keeps m (b : B) id h memfd host dup :
  mem_ok m → handles_ m !! id = Some h → Z.land (h_types h) 1 = 1 → 0 ≤ memfd → 0 ≤ dup →
  ∃ m' b', export_handle id memfd (Some host) dup (m, b) = Ret dup (m', b') ∧ mem_ok m' ∧ used_ m' = used_ m ∧
    (∃ h', handles_ m' !! id = Some h' ∧ h_size h' = h_size h ∧ h_refs h' = h_refs h ∧ 0 ≤ h_fd h') ∧
    (∀ o, 0 ≤ o < h_size h → cell m' (HandleAt id) o = cell m (HandleAt id) o) ∧
    (∀ l, l ≠ HandleAt id → deref m' l = deref m l).
Proof.
  intros [Hinv Hv] Hh Hty Hfd Hdup. unfold export_handle, bind at 1, get. cbn [fst snd]. rewrite Hh.
  destruct (Z.eqb_spec (Z.land (h_types h) 1) 0); [lia|]. destruct (Z.ltb_spec dup 0); [lia|].
  destruct (Z.ltb_spec (h_fd h) 0).
  2:{ exists m, b. split; [by erewrite bind_Ret by done|]. split_and!; try done. by exists h; split_and!. }
  destruct (Z.ltb_spec memfd 0); [lia|].
  destruct (vi_handle _ Hv _ _ Hh) as (Hid & Hg & Hmp & Hrf & Hlv & Hwf & Hsz).
  destruct (wf_chunks _ Hwf) as (t & Ht & _). rewrite Ht. erewrite bind_Ret by done. cbn [fst snd].
  assert (Hmod : a_size (h_mem h) mod kChunkSize = 0).
  { rewrite Hsz. apply Z.mod_divide in Hg as [q Hq]; [|done]. rewrite Hq. unfold kVmmGranularity, kChunkSize.
    replace (q * 2097152) with (q * 32 * 65536) by lia. apply Z_mod_mult. }
  destruct (exported_wf (h_mem h) t host Hwf Ht Hmod) as [Hwf' Hcont]. rewrite Hsz in Hwf', Hcont |- *.
  set (a' := mkAllocation _ _ _ _ _ _ _) in *. set (h' := mkHandle _ _ _ _ _ _ _).
  eexists _, _. split; [done|]. split; [split|split_and!].
  - by apply (table_inv_handle_update m id h).
  - destruct Hv as [Hm Hd Hhs Hn]. split; cbn; try done.
    + intros va mp Hva. destruct (Hm va mp Hva) as (? & ? & ? & ? & (h0 & Hh0 & ?) & ?). split_and!; try done.
      destruct (decide (m_handle mp = id)) as [E|]; [rewrite E in *|exists h0; by rewrite lookup_insert_ne].
      exists h'. rewrite lookup_insert_eq. replace h0 with h in * by congruence. done.
    + intros id0 h0. destruct (decide (id0 = id)) as [->|]; [|rewrite lookup_insert_ne by congruence; apply Hhs].
      rewrite lookup_insert_eq. intros [= <-]. cbn -[a']. split_and!; try done; lia.
  - done.
  - exists h'. cbn. rewrite lookup_insert_eq. by split_and!.
  - intros o Ho. unfold cell. cbn. rewrite lookup_insert_eq, Hh. cbn. by apply Hcont.
  - intros [c|c] Hl; cbn; [done|]. rewrite lookup_insert_ne; [done|congruence].
Qed.
End export_spec.

(** An imported handle is a new one, charged to this device, and its
    bytes are the file's. *)
Theorem import_handle_ok m fd sz host bytes keep :
  mem_ok m → 0 ≤ fd → 0 < sz → sz mod kVmmGranularity = 0 → used_ m + sz ≤ capacity_ m →
  next_handle_ m < u64_max → (∀ i, is_byte (bytes i)) →
  ∃ m', import_handle fd (Some sz) (Some (host, bytes)) keep m = Ret (next_handle_ m) m' ∧ mem_ok m' ∧
    used_ m' = used_ m + sz ∧ handles_ m !! next_handle_ m = None ∧
    ∀ o, 0 ≤ o < sz → cell m' (HandleAt (next_handle_ m)) o = bytes o.
Proof.
  intros [Hinv Hv] Hfd Hsz Hg Hcap Hnext Hb. unfold import_handle.
  destruct (Z.ltb_spec fd 0); [lia|]. destruct (Z.leb_spec sz 0); [lia|]. unfold bind at 1, get. rewrite Hg. cbn [Z.eqb negb].
  destruct (ti_capacity _ Hinv) as [Hu Hcm]. unfold u64_max in *. rewrite !(u64_small (used_ m + sz)) by (unfold is_u64; lia).
  destruct (Z.ltb_spec (capacity_ m) (used_ m + sz)); [lia|]. destruct (Z.ltb_spec (used_ m + sz) (used_ m)); [lia|]. cbn [orb].
  pose proof (next_handle_free m Hv) as Hfree. unfold emplace. rewrite Hfree.
  pose proof (vi_next _ Hv). rewrite u64_small by (unfold is_u64; lia). erewrite bind_Ret by done.
  assert (Hk : kChunkSize = 65536) by done. set (n := (sz + kChunkSize - 1) / kChunkSize).
  assert (Hwf : wf_alloc (imported_mem sz host bytes)).
  { split; cbn; [lia|done|]. eexists. split; [done|]. intros i c. rewrite foldl_insert_seqZ, lookup_empty.
    destruct (Z.leb_spec 0 i), (Z.ltb_spec i ((sz + kChunkSize - 1) / kChunkSize)); cbn; try done.
    intros [= <-]. split; [lia|]. intros j. apply Hb. }
  eexists. split; [done|]. split; [split|split_and!; try done].
  - pose proof Hinv as [Hc Hva [Hin Hkind Hdisj] Hlive Hsp [] Hused _ Hsh Hhs]. split; try done; cbn; try lia.
    + unfold charged in *. cbn. rewrite map_sum_insert by done. cbn. lia.
    + unfold u64_max. lia.
    + intros id0 h0. destruct (decide (id0 = next_handle_ m)) as [->|].
      * rewrite lookup_insert_eq. by intros [= <-].
      * rewrite lookup_insert_ne by congruence. apply Hhs.
  - pose proof Hv as [Hm Hd Hhs Hn]. split; cbn; try done; [| |lia].
    + intros va mp Hva. destruct (Hm va mp Hva) as (? & ? & ? & ? & (h0 & Hh0 & ?) & ?). split_and!; try done.
      exists h0. rewrite lookup_insert_ne; [done|congruence].
    + intros id0 h0. destruct (decide (id0 = next_handle_ m)) as [->|].
      * rewrite lookup_insert_eq. intros [= <-]. cbn. rewrite next_handle_unmapped by done. split_and!; try done; try lia.
      * rewrite lookup_insert_ne by congruence. intros Hh. destruct (Hhs id0 h0 Hh) as (? & ?). split; [lia|done].
  - intros o Ho. unfold cell. cbn. rewrite lookup_insert_eq. cbn. unfold content. cbn. rewrite foldl_insert_seqZ.
    assert (0 ≤ o / kChunkSize < n).
    { split; [apply Z.div_pos; lia|]. unfold n. apply Z.div_lt_upper_bound; [lia|].
      pose proof (Z.mod_pos_bound (sz + kChunkSize - 1) kChunkSize ltac:(lia)).
      pose proof (Z.div_mod (sz + kChunkSize - 1) kChunkSize ltac:(lia)). lia. }
    fold n. destruct (Z.leb_spec 0 (o / kChunkSize)), (Z.ltb_spec (o / kChunkSize) n); try lia. cbn [andb slot_byte].
    by rewrite chunk_base.
Qed.
