(* ===== verification/Calls.v ===== *)
(** * Sequences of calls on a device

    The calls a program makes, as data; what a call may assume; and that no
    sequence of them breaks the tables or reaches undefined behaviour. *)

From stdpp Require Import strings.
From S2P Require Import Prelude Chunks HostMaps BrLock MemState MemTable Vmm VmmRange Resolve Lookup Access Samples Life.

(** Where an operation leaves the state, if it is defined. *)
Definition leads {S A} (o : outcome S A) (s' : S) : Prop :=
  match o with
  | Ret _ s => s' = s
  | Exn _ s => s' = s
  | Undef => False
  end.

(** A call. An access carries the calling thread's memory of lookups. *)
Inductive call :=
  | CAlloc (sz request : Z)
  | CFree (ptr : Z)
  | CFreeAll
  | CReserve (sz alignment : Z)
  | CAddressFree (va sz : Z)
  | CCreate (sz types : Z) (compressible : bool)
  | CRetain (handle : Z)
  | CRelease (handle : Z)
  | CMap (va sz offset handle : Z)
  | CUnmap (va sz : Z)
  | CSetAccess (va sz : Z) (readable writable : bool)
  | CMapHost (addr host len : Z) (ro : bool)
  | CUnmapHost (addr : Z)
  | CAdopt (path : string) (sz : Z) (opened : bool) (mapped : option Z)
  | CAbandon (va : Z)
  | CWrite (l : Lookups) (dst : Z) (src : Z → Z) (len : Z)
  | CFill (l : Lookups) (dst : Z) (pattern : list Z) (len : Z)
  | CStore (l : Lookups) (addr size v : Z)
  | CRead (l : Lookups) (src len : Z).

Section calls.
Context {B : Type} `{HostBacking B}.
Local Abbreviation st := (MM * B)%type.

Definition drop {S A} (op : M S A) : M S unit := op ;;; ret tt.
Definition as_thread {A} (l : Lookups) (op : M (Sys B Lookups) A) : M st unit := λ s,
  match op (mkSys (fst s) (snd s) l) with
  | Ret _ s' => Ret tt (mm s', bk s')
  | Exn e s' => Exn e (mm s', bk s')
  | Undef => Undef
  end.

Definition exec (c : call) : M st unit :=
  match c with
  | CAlloc sz request => drop (on_mm (alloc sz request))
  | CFree ptr => free ptr
  | CFreeAll => free_all
  | CReserve sz alignment => drop (on_mm (reserve sz alignment))
  | CAddressFree va sz => on_mm (address_free va sz)
  | CCreate sz types c => drop (on_mm (create_handle sz types c))
  | CRetain handle => on_mm (retain_handle handle)
  | CRelease handle => on_mm (release_handle handle)
  | CMap va sz offset handle => on_mm (map va sz offset handle)
  | CUnmap va sz => on_mm (unmap va sz)
  | CSetAccess va sz r w => on_mm (set_access va sz r w)
  | CMapHost addr host len ro => on_mm (mm_map_host addr host len ro)
  | CUnmapHost addr => on_mm (mm_unmap_host addr)
  | CAdopt path sz opened mapped => drop (on_mm (adopt path sz opened mapped))
  | CAbandon va => on_mm (abandon va)
  | CWrite l dst src len => as_thread l (write dst (Some src) len)
  | CFill l dst pattern len => as_thread l (fill dst pattern len)
  | CStore l addr size v => as_thread l (store_scalar addr size v)
  | CRead l src len => as_thread l (read src false len)
  end.

(** Arguments of the machine's types, address space and counters not used up,
    lookups that are the thread's, and no host mapping in reach of an access. *)
Definition call_ok (m : MM) (c : call) : Prop :=
  match c with
  | CAlloc sz request => is_u64 sz ∧ request_ok request ∧ va_room m sz
  | CFree ptr => frees_left m
  | CFreeAll => freed_front_seq_ m + Z.of_nat (size (live_ m)) + 8192 ≤ u64_max
  | CReserve sz alignment => is_u64 sz ∧ is_u64 alignment ∧ va_sane m
  | CAddressFree va sz => True
  | CCreate sz types _ => is_u64 sz ∧ next_handle_ m < u64_max
  | CRetain _ => counts_fit m
  | CRelease _ => True
  | CMap va sz offset handle => is_u64 va ∧ is_u64 sz ∧ va_sane m ∧ counts_fit m
  | CUnmap va sz => is_u64 va ∧ is_u64 sz
  | CSetAccess va sz _ _ => is_u64 va ∧ is_u64 sz ∧ va + sz ≤ u64_max
  | CMapHost _ _ _ _ | CUnmapHost _ => True
  | CAdopt _ sz _ mapped => is_Some mapped → 0 < sz ∧ va_room m sz
  | CAbandon _ => True
  | CWrite l dst src len => lookups_ok m l ∧ is_u64 dst ∧ is_u64 len ∧ 0 < len ∧
      (∀ i, 0 ≤ i < len → is_byte (src i)) ∧ may_contain (host_maps_ m) dst = false
  | CFill l dst pattern len => lookups_ok m l ∧ is_u64 dst ∧ is_u64 len ∧ 0 < len ∧
      pattern ≠ [] ∧ Forall is_byte pattern ∧ may_contain (host_maps_ m) dst = false
  | CStore l addr size v => lookups_ok m l ∧ is_u64 addr ∧ scalar_size size = true ∧ addr mod size = 0 ∧
      may_contain (host_maps_ m) addr = false ∧ no_store_fault m
  | CRead l src len => lookups_ok m l ∧ is_u64 src ∧ is_u64 len ∧ 0 < len ∧
      may_contain (host_maps_ m) src = false ∧ any_stuck m = false ∧ copy_armed m = false
  end.

(** The states a sequence of calls reaches. *)
Inductive reachable (s0 : st) : st → Prop :=
  | reach_start : reachable s0 s0
  | reach_call s s' c : reachable s0 s → call_ok (fst s) c → leads (exec c s) s' → reachable s0 s'.
End calls.

(** ** Each call keeps the tables *)

Section calls_ok.
Context {B : Type} `{HostBacking B}.
Local Abbreviation st := (MM * B)%type.

(** A defined outcome, and the tables kept. *)
Definition safe {A} (o : outcome st A) : Prop := wp o (λ _ s, mem_ok (fst s)) (λ _ s, mem_ok (fst s)).

Lemma safe_on_mm {A} (op : M MM A) m (b : B) :
  wp (op m) (λ _ m', mem_ok m') (λ _ m', mem_ok m') → safe (on_mm op (m, b)).
Proof. unfold safe, on_mm, wp. cbn [fst]. by destruct (op m). Qed.

Lemma safe_drop {A} (op : M st A) s : safe (op s) → safe (drop op s).
Proof. unfold safe, drop, bind, ret, wp. by destruct (op s). Qed.

Lemma alloc_safe m sz request : mem_ok m → is_u64 sz → request_ok request → va_room m sz →
  wp (alloc sz request m) (λ _ m', mem_ok m') (λ _ m', mem_ok m').
Proof.
  intros Hok Hsz Hr Hroom. destruct (ti_capacity _ (proj1 Hok)) as [Hu Hc].
  destruct (decide (sz = 0)) as [->|]; [by unfold alloc, bind, get, throw|].
  destruct (Z.lt_ge_cases (capacity_ m) (used_ m + sz)) as [Hcap|Hcap].
  - unfold alloc, bind, get. destruct (Z.eqb_spec sz 0); [done|].
    assert ((capacity_ m <? u64 (used_ m + sz)) || (u64 (used_ m + sz) <? used_ m) = true) as ->; [|done].
    unfold is_u64, u64_max in *. rewrite u64_wrap_add by (unfold is_u64; lia). unfold u64_max.
    destruct (Z.leb_spec (used_ m + sz) 18446744073709551615), (Z.ltb_spec (capacity_ m) (used_ m + sz)),
      (Z.ltb_spec (capacity_ m) (used_ m + sz - 18446744073709551616)),
      (Z.ltb_spec (used_ m + sz) (used_ m)), (Z.ltb_spec (used_ m + sz - 18446744073709551616) (used_ m)); cbn; done || lia.
  - unfold is_u64 in Hsz. rewrite alloc_success by (done || lia || apply Hok). cbn.
    apply alloc_ok; done || lia.
Qed.

Lemma free_safe m (b : B) ptr : mem_ok m → frees_left m → safe (free ptr (m, b)).
Proof.
  intros [Hinv Hv] Hf. destruct (live_ m !! ptr) as [a|] eqn:Ha.
  { destruct (free_live m b ptr a Hinv Hf Ha) as (m' & b' & q & -> & Hs & _).
    destruct Hs as (? & _ & _ & _ & _ & _ & _ & _ & _ & _ & ? & ? & ? & ?). split; [done|].
    by apply (vmm_inv_frame m). }
  destruct (shared_ m !! ptr) as [sh|] eqn:Hs; [destruct (s_owner sh) eqn:Ho|].
  - destruct (free_shared m b ptr sh Hinv Hf Hs Ho) as (m' & -> & Hs').
    destruct Hs' as (? & _ & _ & _ & _ & _ & _ & _ & _ & _ & ? & ? & ? & ?). split; [done|].
    by apply (vmm_inv_frame m).
  - rewrite free_throws; [by split|done|]. intros sh' E. congruence.
  - rewrite free_throws; [by split|done|]. intros sh' E. congruence.
Qed.

Lemma as_thread_safe {A} l (op : M (Sys B Lookups) A) m (b : B) :
  wp (op (mkSys m b l)) (λ _ s, mem_ok (mm s)) (λ _ s, mem_ok (mm s)) → safe (as_thread l op (m, b)).
Proof. unfold safe, as_thread, wp. cbn [fst snd]. by destruct (op _). Qed.

Lemma match_safe {A} (o : outcome MM A) (P : A → MM → Prop) (Q : exn → MM → Prop) :
  match o with Ret x m' => P x m' | Exn e m' => Q e m' | Undef => False end →
  (∀ x m', P x m' → mem_ok m') → (∀ e m', Q e m' → mem_ok m') →
  wp o (λ _ m', mem_ok m') (λ _ m', mem_ok m').
Proof. intros Ho HP HQ. destruct o; cbn; eauto. Qed.

Lemma reserve_safe m sz alignment : mem_ok m → va_sane m → is_u64 sz → is_u64 alignment →
  wp (reserve sz alignment m) (λ _ m', mem_ok m') (λ _ m', mem_ok m').
Proof.
  intros Hok Hva Hsz Hal. rewrite reserve_spec by done.
  destruct ((sz =? 0) || _) eqn:E1; [exact Hok|]. destruct (negb (Z.land _ _ =? 0)) eqn:E2; [exact Hok|].
  destruct (Z.ltb_spec (va_base_ m + kDeviceVaStride) (fst (reserve_result m sz alignment) + sz)); [exact Hok|].
  apply orb_false_iff in E1 as [E1 _]. apply Z.eqb_neq in E1. unfold is_u64 in *. cbn.
  apply reserve_inv; try done; try lia. destruct Hva as []. destruct (ti_va _ (proj1 Hok)) as (? & ? & _). unfold kDeviceVaStride, u64_max in *. lia.
Qed.

Lemma create_safe m sz types c : mem_ok m → is_u64 sz → next_handle_ m < u64_max →
  wp (create_handle sz types c m) (λ _ m', mem_ok m') (λ _ m', mem_ok m').
Proof.
  intros Hok Hsz Hn. rewrite create_handle_spec by done. destruct (_ || _) eqn:E; [exact Hok|].
  destruct (Z.ltb_spec (capacity_ m) (used_ m + sz)); [exact Hok|].
  apply orb_false_iff in E as [E1 E2]. apply Z.eqb_neq in E1. apply negb_false_iff, Z.eqb_eq in E2.
  unfold is_u64 in Hsz. cbn. apply create_handle_inv; done || lia.
Qed.

Lemma host_safe m h g : mem_ok m → mem_ok (set_host_maps_ h (set_next_gen g m)).
Proof. intros [Ht Hv]. split; [by apply table_inv_host|by apply (vmm_inv_frame m)]. Qed.

Lemma adopt_safe m path sz opened mapped : mem_ok m → (is_Some mapped → 0 < sz ∧ va_room m sz) →
  wp (adopt path sz opened mapped m) (λ _ m', mem_ok m') (λ _ m', mem_ok m').
Proof.
  intros Hok Hs. destruct opened; [|exact Hok]. destruct mapped as [host|]; [|exact Hok].
  destruct (Hs ltac:(by eexists)) as [? ?]. by destruct (adopt_ok m path sz host) as (m' & -> & ? & _).
Qed.

(** No call that may be made breaks the tables, and none is undefined. *)
Lemma exec_safe m (b : B) c : mem_ok m → call_ok m c → safe (exec c (m, b)).
Proof.
  intros Hok Hc. destruct c; cbn [exec call_ok] in *.
  - destruct Hc as (? & ? & ?). by apply safe_drop, safe_on_mm, alloc_safe.
  - by apply free_safe.
  - by destruct (free_all_empties m b Hok Hc) as (m' & b' & -> & ? & _).
  - destruct Hc as (? & ? & ?). by apply safe_drop, safe_on_mm, reserve_safe.
  - apply safe_on_mm. eapply match_safe; [by apply address_free_spec|by intros ? ? (? & _)|by intros ? ? (_ & ->)].
  - destruct Hc as (? & ?). by apply safe_drop, safe_on_mm, create_safe.
  - apply safe_on_mm. pose proof (retain_handle_spec m handle Hok Hc) as Hs.
    destruct (retain_handle handle m); [by destruct Hs as (? & ? & ? & _)|by destruct Hs as (_ & -> & _)|done].
  - apply safe_on_mm. pose proof (release_handle_spec m handle Hok) as Hs.
    destruct (release_handle handle m); [by destruct Hs as (? & ? & ? & _)|by destruct Hs as (_ & -> & _)|done].
  - destruct Hc as (? & ? & ? & ?). apply safe_on_mm.
    eapply match_safe; [by apply map_spec|by intros ? ? (_ & ? & _)|by intros ? ? (_ & ->)].
  - destruct Hc as (? & ?). apply safe_on_mm.
    eapply match_safe; [by apply unmap_spec|by intros ? ? (? & _)|by intros ? ? (_ & -> & _)].
  - destruct Hc as (? & ? & ?). apply safe_on_mm.
    eapply match_safe; [by apply set_access_spec|by intros ? ? (? & _)|by intros ? ? (_ & ? & _)].
  - apply safe_on_mm. by apply host_safe.
  - apply safe_on_mm. destruct (mm_unmap_host_shape addr m) as (h & g & ->). by apply host_safe.
  - by apply safe_drop, safe_on_mm, adopt_safe.
  - apply safe_on_mm. eapply match_safe; [by apply abandon_spec|by intros ? ? (? & _)|by intros ? ? (_ & -> & _)].
  - destruct Hc as (Hl & ? & ? & ? & ? & ?). apply as_thread_safe.
    pose proof (write_spec dst src len (mkSys m b l) (conj Hok Hl)) as Hw. ospecialize* Hw; [done..|]. cbn [mm] in Hw.
    destruct (resolve m dst len true false) as [[lc base]|e]; [|destruct Hw as (l' & _ & ->); done].
    eapply wp_mono; [exact Hw|by intros ? ? [[? _] _]|]. by intros ? ? (? & _ & [[? _] _]).
  - destruct Hc as (Hl & ? & ? & ? & ? & ? & ?). apply as_thread_safe.
    pose proof (fill_spec dst pattern len (mkSys m b l) (conj Hok Hl)) as Hw. ospecialize* Hw; [done..|]. cbn [mm] in Hw.
    destruct (resolve m dst len true false) as [[lc base]|e]; [|by rewrite Hw].
    eapply wp_mono; [exact Hw|by intros ? ? [[? _] _]|]. by intros ? ? (? & _ & [[? _] _]).
  - destruct Hc as (Hl & ? & ? & ? & ? & ?). apply as_thread_safe.
    pose proof (store_scalar_spec addr size v (mkSys m b l) (conj Hok Hl)) as Hw. ospecialize* Hw; [done..|]. cbn [mm] in Hw.
    destruct (resolve m addr size false false) as [[lc base]|e]; [|destruct Hw as (l' & _ & ->); done].
    eapply wp_mono; [exact Hw|by intros ? ? [[? _] _]|by intros ? ? [[? _] _]].
  - destruct Hc as (Hl & ? & ? & ? & ? & ? & ?). apply as_thread_safe.
    destruct (read_spec src len (mkSys m b l)) as (l' & _ & ->); try done. cbn [mm].
    by destruct (resolve m src len false false) as [[lc base]|e].
Qed.

Lemma reachable_ok (s0 s : st) : mem_ok (fst s0) → reachable s0 s → mem_ok (fst s).
Proof.
  intros H0 Hr. induction Hr as [|[m b] s' c Hr IH Hc Hl]; [done|].
  pose proof (exec_safe m b c IH Hc) as Hs. unfold safe, wp in Hs. unfold leads in Hl.
  destruct (exec c (m, b)); by subst.
Qed.
End calls_ok.
