(* ===== verification/Contract.v ===== *)
(** * What the memory manager promises

    The theorems of the other files put together as the properties a caller of
    MemoryManager relies on, each with an instance on a small device. *)

From stdpp Require Import strings.
From S2P Require Import Prelude Chunks HostMaps BrLock MemState MemTable Vmm VmmRange Resolve Lookup Access Samples Batch Strided Life Calls.

(** ** Sequences of calls *)

(** C1: from a fresh device, no sequence of calls (allocations, frees,
    resets, reservations, handles, mappings, host mappings, copies, fills and
    scalar stores, whether they succeed or throw) breaks the tables: live, freed,
    reserved and shared ranges stay disjoint, the bytes in use are exactly those
    charged and within capacity, every mapping points at a handle that counts it,
    the quarantine's deque and map agree. And no call that may be made from there
    reaches undefined behaviour. *)
Theorem reachable_safe {B} `{HostBacking B} capacity ordinal g mem (b : B) s :
  0 ≤ capacity ≤ u64_max → 0 ≤ ordinal < 16 → reachable (new_MM capacity ordinal g mem, b) s →
  mem_ok (fst s) ∧ ∀ c, call_ok (fst s) c → exec c s ≠ Undef.
Proof.
  intros Hc Ho Hr. pose proof (reachable_ok (new_MM capacity ordinal g mem, b) s (new_MM_ok capacity ordinal g mem Hc Ho) Hr) as Hok.
  split; [done|]. intros c Hcall. destruct s as [m b']. pose proof (exec_safe m b' c Hok Hcall) as Hs.
  by destruct (exec c (m, b')).
Qed.

Lemma reachable_safe_witness :
  mem_ok sample_mm ∧ ∀ c, call_ok sample_mm c → exec c (sample_mm, 0) ≠ Undef.
Proof.
  apply (reachable_safe 1073741824 0 1 (λ _, 0) 0 (sample_mm, 0)); [unfold u64_max; lia|lia|].
  eapply (reach_call _ _ _ (CAlloc 100000 0)); [apply reach_start| |].
  - split_and!; [unfold is_u64; lia|by left|]. unfold va_room, u64_max. by vm_compute.
  - cbn [exec]. unfold drop. erewrite bind_Ret by (apply on_mm_Ret; exact sample_alloc). done.
Defined.

(** ** Allocation *)

(** C9: an allocation that succeeds is inside the budget, aligned as asked,
    above every range ever handed out (so in no way overlapping memory that is
    live, reserved, shared or remembered as freed), of the size asked, and reads
    as zeros; nothing else changes. One that fails is out of memory, exactly when
    the budget does not hold it, and changes nothing. *)
Theorem alloc_contract m sz request :
  mem_ok m → request_ok request → 0 < sz → is_u64 sz → va_room m sz →
  match alloc sz request m with
  | Ret p m' => used_ m + sz ≤ capacity_ m ∧ mem_ok m' ∧ used_ m' = used_ m + sz ∧
      p mod alloc_align_of m request = 0 ∧ (∀ k b e, region m k b e → e ≤ p) ∧
      (∃ a, live_ m' !! p = Some a ∧ a_size a = sz) ∧ (∀ o, cell m' (LiveAt p) o = 0) ∧
      ∀ l, l ≠ LiveAt p → deref m' l = deref m l
  | Exn e m' => e = Error OutOfMemory ∧ m' = m ∧ capacity_ m < used_ m + sz
  | Undef => False
  end.
Proof.
  intros Hok Hr Hpos Hsz Hroom. destruct (ti_capacity _ (proj1 Hok)) as [Hu Hc].
  destruct (Z.lt_ge_cases (capacity_ m) (used_ m + sz)) as [Hcap|Hcap].
  - unfold alloc, bind, get. destruct (Z.eqb_spec sz 0); [lia|].
    assert ((capacity_ m <? u64 (used_ m + sz)) || (u64 (used_ m + sz) <? used_ m) = true) as ->; [|done].
    unfold is_u64, u64_max in *. rewrite u64_wrap_add by (unfold is_u64; lia). unfold u64_max.
    destruct (Z.leb_spec (used_ m + sz) 18446744073709551615); apply orb_true_iff; [left|right]; apply Z.ltb_lt; lia.
  - rewrite alloc_success by (done || apply Hok). pose proof (alloc_ok m sz request Hok Hr Hpos Hcap Hroom) as Hok'.
    destruct (set_up_spare_node m sz (proj1 Hok) ltac:(lia)) as (_ & Hsize & Hzero).
    pose proof (ti_va _ (proj1 Hok)) as (? & ? & _).
    destruct (alloc_bounds m sz request (ti_config _ (proj1 Hok)) Hr Hpos ltac:(lia)) as (Hal & Hb & _).
    unfold alloc_result in *. cbv zeta in *. cbn [fst snd] in *. split_and!; try done.
    + apply round_up_spec. lia.
    + intros k b e Hrg. destruct (ro_in _ (ti_regions _ (proj1 Hok)) _ _ _ Hrg). lia.
    + eexists. split; [apply lookup_insert_eq|done].
    + intros o. unfold cell. cbn. rewrite lookup_insert_eq. apply Hzero.
    + intros [c|c] Hne; cbn; [|done]. rewrite lookup_insert_ne; [done|congruence].
Qed.

Lemma alloc_contract_witness :
  match alloc 100000 4096 sample_new with
  | Ret p m' => p = sample_base ∧ mem_ok m' ∧ cell m' (LiveAt p) 77 = 0
  | _ => False
  end.
Proof.
  assert (Hr : request_ok 4096) by (right; exists 12; split; [lia|done]).
  assert (Hroom : va_room sample_new 100000) by (unfold va_room, u64_max; by vm_compute).
  pose proof (alloc_contract sample_new 100000 4096 sample_new_ok Hr ltac:(lia) ltac:(unfold is_u64; lia) Hroom) as Hs.
  rewrite alloc_success in * by (apply sample_new_ok || done || by vm_compute).
  destruct Hs as (_ & ? & _ & _ & _ & _ & Hz & _). split_and!; [by vm_compute|done|apply Hz].
Defined.

(** ** Freeing *)

(** The addresses of a freed range, whatever else is in the table. *)
Lemma freed_range_stale m ptr r addr len w slack :
  mem_ok m → freed_ m !! ptr = Some r → ptr ≤ addr < ptr + fr_size r →
  resolve m addr len w slack = inr UseAfterFree.
Proof.
  intros Hok Hf Hin. assert (Hr : region m KFreed ptr (ptr + fr_size r)) by (by exists r).
  pose proof (ro_in _ (ti_regions _ (proj1 Hok)) _ _ _ Hr) as [? ?]. pose proof (ti_va _ (proj1 Hok)) as (? & ? & _).
  assert (Ha : is_u64 addr) by (unfold is_u64, u64_max in *; lia).
  rewrite resolve_unmapped; [|done|done|by eapply not_live|by eapply not_reserved].
  rewrite resolve_miss_spec by done.
  destruct (Z.leb_spec (va_base_ m) addr), (Z.ltb_spec addr (next_va_ m)); done || lia.
Qed.

(** C5: freeing a live allocation gives its bytes back to the budget; from
    then on every access to it, of any length and kind, is reported as a use
    after free, a second free of it as a double free, and every other allocation
    is as it was. *)
Theorem free_contract {B} `{HostBacking B} m (b : B) ptr a :
  mem_ok m → frees_left m → live_ m !! ptr = Some a →
  ∃ m' b', free ptr (m, b) = Ret tt (m', b') ∧ mem_ok m' ∧ used_ m' = used_ m - a_size a ∧
    (∀ addr len w slack, ptr ≤ addr < ptr + a_size a → resolve m' addr len w slack = inr UseAfterFree) ∧
    free ptr (m', b') = Exn (Error DoubleFree) (m', b') ∧
    ∀ l, l ≠ LiveAt ptr → deref m' l = deref m l.
Proof.
  intros [Hinv Hv] Hf Ha. destruct (free_live m b ptr a Hinv Hf Ha) as (m' & b' & q & E & Hs & _).
  destruct Hs as (Hinv' & Hn & Hns & (sq & Hfr) & Hu & _ & _ & Hk & _ & _ & Em & Eh & Er & En).
  assert (Hok' : mem_ok m') by (split; [done|by apply (vmm_inv_frame m)]).
  exists m', b'. split_and!; try done.
  - intros addr len w slack Hin. by eapply (freed_range_stale m' ptr).
  - rewrite free_throws; [|done|by rewrite Hns]. unfold free_error. by rewrite Hfr.
  - intros [c|c] Hne; cbn; [apply Hk; congruence|by rewrite Eh].
Qed.

Lemma free_contract_witness :
  ∃ m' b', free sample_base (sample_mm, 0) = Ret tt (m', b') ∧ resolve m' (sample_base + 50000) 4 true false = inr UseAfterFree ∧
    free sample_base (m', b') = Exn (Error DoubleFree) (m', b').
Proof.
  destruct (live_ sample_mm !! sample_base) as [a|] eqn:Ha; [|by vm_compute in Ha].
  assert (a_size a = 100000) as Hsz by (vm_compute in Ha; by injection Ha as <-).
  destruct (free_contract sample_mm 0 sample_base a sample_mm_ok ltac:(by vm_compute) Ha) as (m' & b' & E & _ & _ & Huse & Hdf & _).
  exists m', b'. split_and!; [done| |done]. apply Huse. rewrite Hsz. by vm_compute.
Defined.


(** The device after a free and a quarantine that no longer remembers it. *)
Definition forgotten : MM := set_freed_ ∅ (set_freed_order_ [] (set_live_ ∅ (set_used_ 0 sample_mm))).

Lemma forgotten_ok : mem_ok forgotten.
Proof.
  destruct sample_mm_ok as [Hinv Hv]. pose proof Hinv as [Hc Hva [Hin Hkind Hdisj] Hlive Hsp [] Hused [Hu Hcm] Hsh Hhs].
  assert (Hno : ∀ k b e, ¬ region forgotten k b e).
  { intros k b e. destruct k; intros (x & Hx & _); cbn in Hx; by rewrite lookup_empty in Hx. }
  split; [|by apply (vmm_inv_frame sample_mm)].
  assert (Hnone : ∀ b a, live_ forgotten !! b = Some a → False).
  { intros b a Ha. cbn in Ha. by rewrite lookup_empty in Ha. }
  constructor.
  - exact Hc.
  - exact Hva.
  - split; intros *; intros Hr; by destruct (Hno _ _ _ Hr).
  - intros b a Ha. by destruct (Hnone b a Ha).
  - exact Hsp.
  - constructor; cbn; [by vm_compute|intros i p Hp; by rewrite lookup_nil in Hp|
      intros p [x Hx]; by rewrite lookup_empty in Hx|exact qo_front].
  - by vm_compute.
  - split; [cbn; lia|exact Hcm].
  - exact Hsh.
  - exact Hhs.
Qed.


(** ** Resets *)

(** A reset (free_all) leaves an empty device: no allocation, handle,
    mapping or reservation, nothing charged, only buffers other processes own
    still known; the addresses handed out before are not handed out again. *)
Theorem free_all_contract {B} `{HostBacking B} m (b : B) :
  mem_ok m → freed_front_seq_ m + Z.of_nat (size (live_ m)) + 8192 ≤ u64_max →
  ∃ m' b', free_all (m, b) = Ret tt (m', b') ∧ mem_ok m' ∧ used_ m' = 0 ∧
    live_ m' = ∅ ∧ handles_ m' = ∅ ∧ maps_ m' = ∅ ∧ reserved_ m' = ∅ ∧
    (∀ k sh, shared_ m' !! k = Some sh → s_owner sh = false ∧ shared_ m !! k = Some sh) ∧
    ∀ addr len w slack, va_base_ m ≤ addr < next_va_ m → resolve m' addr len w slack = inr UseAfterFree.
Proof.
  intros Hok Hf. destruct (free_all_empties m b Hok Hf) as (m' & b' & E & Hok' & Hu & Hl & Hh & Hm & Hr & Hs & Hn & Hb).
  exists m', b'. split_and!; try done. intros addr len w slack Hin.
  pose proof (ti_va _ (proj1 Hok)) as (? & ? & _). unfold u64_max in *.
  assert (Ha : is_u64 addr) by (unfold is_u64; lia).
  rewrite resolve_unmapped; [|done|done|intros c a [Hc _]; by rewrite Hl, lookup_empty in Hc|intros c r [Hc _]; by rewrite Hr, lookup_empty in Hc].
  rewrite resolve_miss_spec, Hn, Hb by done.
  destruct (Z.leb_spec (va_base_ m) addr), (Z.ltb_spec addr (next_va_ m)); done || lia.
Qed.

Lemma free_all_contract_witness : ∃ m' b', free_all (sample_mm, 0) = Ret tt (m', b') ∧ used_ m' = 0 ∧ live_ m' = ∅.
Proof.
  destruct (free_all_contract sample_mm 0 sample_mm_ok ltac:(by vm_compute)) as (m' & b' & E & _ & Hu & Hl & _).
  exists m', b'. exact (conj E (conj Hu Hl)).
Defined.

(** ** Accesses *)

(** C7: an access the manager lets through stays inside the memory it names:
    within one live allocation (or its last page, for a read on a device with
    pages), or within one mapping whose rights allow it, and there within the
    handle's memory. *)
Theorem accesses_confined m addr len w slack l base :
  mem_ok m → is_u64 addr → 0 ≤ len → resolve m addr len w slack = inl (l, base) →
  ∃ a, deref m l = Some a ∧ wf_alloc a ∧ 0 ≤ addr - base ∧ addr - base + len ≤ extent a ∧
  match l with
  | LiveAt b => base = b ∧ addr - b + len ≤ reach m slack a
  | HandleAt id => ∃ mp, maps_ m !! base = Some mp ∧ m_handle mp = id ∧ addr - base + len ≤ m_size mp ∧
      m_size mp ≤ a_size a ∧ (m_readable mp = true ∨ m_writable mp = true) ∧ (w = true → m_writable mp = true)
  end.
Proof.
  intros Hok Ha Hlen Hr. apply resolve_sound in Hr; [|done..].
  destruct (resolved_alloc m addr len w slack l base Hok Hlen Hr) as (a & Hd & Hwf & ? & ? & _).
  exists a. split_and!; try done. destruct l as [c|id]; cbn in *.
  - destruct Hr as (-> & a' & Hc & ? & ?). replace a' with a in * by congruence. split; [done|lia].
  - destruct Hr as (mp & h & Hm & <- & Hh & ? & ? & ? & ? & ?). rewrite Hh in Hd. cbn in Hd. injection Hd as <-.
    exists mp. split_and!; try done; [lia|]. destruct (vi_handle _ (proj2 Hok) _ _ Hh) as (_ & _ & _ & _ & _ & _ & ->). done.
Qed.

Lemma accesses_confined_witness : ∃ a, deref sample_mm (LiveAt sample_base) = Some a ∧ 99990 + 8 ≤ extent a.
Proof.
  destruct (accesses_confined sample_mm (sample_base + 99990) 8 true false (LiveAt sample_base) sample_base) as (a & Ha & _ & _ & Hx & _);
    [apply sample_mm_ok|by vm_compute|lia|by vm_compute|]. exists a. split; [done|].
  replace (sample_base + 99990 - sample_base) with 99990 in Hx by lia. done.
Defined.

(** What can be written can be read, at the same place. *)
Lemma resolve_readable m addr len r :
  mem_ok m → is_u64 addr → 0 ≤ len → resolve m addr len true false = inl r → resolve m addr len false false = inl r.
Proof.
  intros Hok Ha Hlen Hr.
  destruct (cover_cases (live_ m) (λ a, padded m (a_size a)) addr (live_disj m (proj1 Hok))) as [(b & a & Hc)|Hu].
  { rewrite (resolve_live m addr len true false b a) in Hr by done. by rewrite (resolve_live m addr len false false b a). }
  destruct (cover_cases (maps_ m) m_size addr (vi_disj _ (proj2 Hok))) as [(va & mp & Hc)|Hum].
  - rewrite (resolve_mapping m addr len true false va mp) in Hr by done.
    rewrite (resolve_mapping m addr len false false va mp) by done.
    destruct (_ <? _); [done|]. destruct (_ && _); [done|]. cbn [andb] in *. by destruct (m_writable mp).
  - destruct (cover_cases (reserved_ m) r_size addr (reserved_disj m (proj1 Hok))) as [(b & r' & Hc)|Hur].
    + by rewrite (resolve_reserved m addr len true false b r') in Hr by done.
    + by rewrite resolve_unmapped in Hr by done.
Qed.

Section accesses.
Context {B : Type} `{HostBacking B} {L : Type} `{OrdinaryLookupOk L}.
Local Abbreviation st := (Sys B L).

(** A read of what was just put at the start of a range. *)
Lemma read_back m l f base dst src len (s' : st) :
  cells_now m l (blit f (dst - base) src len) s' → resolve m dst len true false = inl (l, base) → mem_ok m →
  is_u64 dst → 0 < len → is_u64 len → may_contain (host_maps_ (mm s')) dst = false →
  any_stuck (mm s') = false → copy_armed (mm s') = false →
  ∃ s2, read dst false len s' = Ret (src <$> seqZ 0 len) s2 ∧ mm s2 = mm s'.
Proof.
  intros (Hs' & Hcell & _ & _ & _ & _ & Hres) Hr Hok Ha Hp Hlen Hh Hst Hcp.
  apply resolve_readable in Hr as Hr'; [|done|done|lia].
  destruct (read_spec dst len s' Hs' Ha Hp Hlen Hh Hst Hcp) as (l' & _ & E). rewrite Hres, Hr' in E.
  exists (mkSys (mm s') (bk s') l'). rewrite E. split; [|done]. f_equal. apply list_eq. intros i.
  rewrite !list_lookup_fmap. destruct (decide (Z.of_nat i < len)).
  - rewrite !(lookup_seqZ_lt) by lia. cbn. f_equal. rewrite Hcell. unfold blit.
    destruct (Z.leb_spec (dst - base) (dst - base + Z.of_nat i)), (Z.ltb_spec (dst - base + Z.of_nat i) (dst - base + len)); try lia.
    cbn. f_equal. lia.
  - by rewrite !lookup_seqZ_ge by lia.
Qed.

(** A copy to the device leaves the host's mappings and the fault hooks alone. *)
Lemma on_alloc_keeps {A} (op : M (Allocation * B) A) l (s s' : st) x :
  on_alloc l op s = Ret x s' → host_maps_ (mm s') = host_maps_ (mm s) ∧ access_fault_ (mm s') = access_fault_ (mm s).
Proof.
  unfold on_alloc. destruct (deref (mm s) l); [|done]. destruct (op _) as [y ab|e ab|]; [|done|done].
  intros [= _ <-]. by destruct l.
Qed.

Lemma resolve_scalar_keeps addr len w slack (s s' : st) r :
  resolve_scalar addr len w slack s = Ret r s' → mm s' = mm s.
Proof.
  unfold resolve_scalar, ordinary_lookup, resolve_or_throw, get_mm, bind, throw, ret.
  destruct (find_ordinary _ _ _ _ _) as [[b|] l']; [by intros [= _ <-]|]. cbn [mm].
  destruct (resolve _ _ _ _ _); [by intros [= _ <-]|done].
Qed.

Lemma write_keeps_faults dst src len (s : st) u s' : write dst (Some src) len s = Ret u s' →
  host_maps_ (mm s') = host_maps_ (mm s) ∧ access_fault_ (mm s') = access_fault_ (mm s).
Proof.
  unfold write. destruct (len =? 0); [by intros [= _ <-]|]. unfold get_mm, bind at 1.
  destruct (host_hit (mm s) dst len) as [h|]; [destruct (hh_read_only h); [done|by intros [= _ <-]]|].
  destruct (host_pieces _ _ _ _) as [[ps|]|e]; [| |done].
  - revert s. induction ps as [|p ps IH]; intros s; cbn [foldr]; [by intros [= _ <-]|].
    erewrite bind_Ret by done. intros E. apply IH in E as [E1 E2]. done.
  - intros E. apply bind_Ret_inv in E as (r & s1 & E1 & E2). apply resolve_scalar_keeps in E1.
    apply on_alloc_keeps in E2. by rewrite E1 in E2.
Qed.

(** C3: a copy to the device that succeeds is what a copy back returns, and
    it changes the bytes of that range only. One that fails (the host has no
    memory for a chunk) has written a prefix of the range and nothing else; one
    that is refused has changed nothing. *)
Theorem write_read dst src len (s : st) :
  sys_ok s → is_u64 dst → 0 < len → is_u64 len → (∀ i, 0 ≤ i < len → is_byte (src i)) →
  may_contain (host_maps_ (mm s)) dst = false → access_fault_ (mm s) = None →
  match write dst (Some src) len s with
  | Ret _ s' => ∃ l base, resolve (mm s) dst len true false = inl (l, base) ∧
      (∀ o, ¬ dst - base ≤ o < dst - base + len → cell (mm s') l o = cell (mm s) l o) ∧
      (∀ l' o, l' ≠ l → cell (mm s') l' o = cell (mm s) l' o) ∧
      ∃ s2, read dst false len s' = Ret (src <$> seqZ 0 len) s2 ∧ mm s2 = mm s'
  | Exn e s' => mem_ok (mm s') ∧
      ((∃ l base d, resolve (mm s) dst len true false = inl (l, base) ∧ 0 ≤ d < len ∧
        (∀ o, cell (mm s') l o = blit (cell (mm s) l) (dst - base) src d o) ∧
        (∀ l' o, l' ≠ l → cell (mm s') l' o = cell (mm s) l' o)) ∨
      (∃ err, resolve (mm s) dst len true false = inr err ∧ e = Error err ∧ mm s' = mm s))
  | Undef => False
  end.
Proof.
  intros Hs Ha Hp Hlen Hsrc Hh Hnf. pose proof (write_keeps_faults dst src len s) as Hkeep.
  pose proof (write_spec dst src len s Hs Ha Hp Hlen Hsrc Hh) as Hw.
  destruct (resolve (mm s) dst len true false) as [[l base]|e] eqn:Er.
  - destruct (write dst (Some src) len s) as [[] s'|e s'|]; cbn [wp] in Hw; [|..|done].
    + exists l, base. destruct (Hkeep _ _ eq_refl) as [Hkh Hkf]. split_and!; try done.
      * intros o Ho. destruct Hw as (_ & -> & _). unfold blit.
        destruct (Z.leb_spec (dst - base) o), (Z.ltb_spec o (dst - base + len)); cbn; try done. lia.
      * apply Hw.
      * eapply read_back; try done; [apply Hs|by rewrite Hkh|unfold any_stuck; by rewrite Hkf, Hnf|
          unfold copy_armed; by rewrite Hkf, Hnf].
    + destruct Hw as (d & [? ?] & [? _] & ? & ? & _). split; [done|]. left. by exists l, base, d.
  - destruct Hw as (l' & _ & ->). split; [apply Hs|]. right. by exists e.
Qed.
End accesses.

Definition sample_bytes (i : Z) : Z := (7 * i + 3) mod 256.

Lemma sample_bytes_range i : is_byte (sample_bytes i).
Proof. apply Z.mod_pos_bound. lia. Qed.

(** The instance: 70000 bytes across the two chunks of the sample. *)
Lemma write_read_witness :
  match write (sample_base + 100) (Some sample_bytes) 70000 sample with
  | Ret _ s' => ∃ s2, read (sample_base + 100) false 70000 s' = Ret (sample_bytes <$> seqZ 0 70000) s2 ∧ mm s2 = mm s'
  | Exn e s' => mem_ok (mm s')
  | Undef => False
  end.
Proof.
  pose proof (write_read (sample_base + 100) sample_bytes 70000 sample sample_ok ltac:(by vm_compute) ltac:(lia)
    ltac:(by vm_compute) (λ i _, sample_bytes_range i) ltac:(by vm_compute) eq_refl) as Hs.
  destruct (write _ _ _ _) as [u s'|e s'|]; [|exact (proj1 Hs)|exact Hs].
  destruct Hs as (l & base & _ & _ & _ & s2 & E & Em). exists s2. exact (conj E Em).
Defined.

(** The slack of a page only lets more reads through. *)
Lemma resolve_slack m addr len w r :
  mem_ok m → is_u64 addr → 0 ≤ len → resolve m addr len w false = inl r → resolve m addr len w true = inl r.
Proof.
  intros Hok Ha Hlen Hr.
  destruct (cover_cases (live_ m) (λ a, padded m (a_size a)) addr (live_disj m (proj1 Hok))) as [(b & a & Hc)|Hu].
  - rewrite (resolve_live m addr len w false b a) in Hr by done. rewrite (resolve_live m addr len w true b a) by done.
    destruct (ti_live _ (proj1 Hok) _ _ (proj1 Hc)) as (Hwf & Hpos & _).
    pose proof (reach_bounds m true a (ti_config _ (proj1 Hok)) Hwf Hpos) as (? & _).
    change (reach m false a) with (a_size a) in Hr.
    destruct (Z.ltb_spec addr (b + a_size a)); [|done]. destruct (Z.ltb_spec (b + a_size a) (addr + len)); [done|].
    destruct (Z.ltb_spec addr (b + reach m true a)); [|lia]. destruct (Z.ltb_spec (b + reach m true a) (addr + len)); [lia|done].
  - rewrite resolve_not_live in Hr |- * by done. done.
Qed.

Section scalars.
Context {B : Type} `{HostBacking B} {L : Type} `{OrdinaryLookupOk L}.
Local Abbreviation st := (Sys B L).

Lemma store_keeps_faults addr size v (s : st) u s' : store_scalar addr size v s = Ret u s' →
  no_store_fault (mm s) → scalar_size size = true → addr mod size = 0 → may_contain (host_maps_ (mm s)) addr = false →
  sys_ok s → is_u64 addr → host_maps_ (mm s') = host_maps_ (mm s) ∧ access_fault_ (mm s') = access_fault_ (mm s).
Proof.
  intros E Hnf Hsz Hal Hh Hs Ha. destruct (store_scalar_exact addr size v s Hs Ha Hsz Hal Hh Hnf) as (l' & _ & E').
  rewrite E' in E. destruct (resolve (mm s) addr size false false) as [[l base]|e]; [|done].
  by apply on_alloc_keeps in E.
Qed.

(** C11: a scalar store that succeeds is what a load of the same address and
    width returns (cut to the width), in memory that is untouched, uniform or
    real alike; it changes those bytes only, through every mapping of them. One
    that cannot get host memory changes no byte. *)
Theorem store_load addr size v (s : st) :
  sys_ok s → is_u64 addr → scalar_size size = true → addr mod size = 0 →
  may_contain (host_maps_ (mm s)) addr = false → access_fault_ (mm s) = None →
  match store_scalar addr size v s with
  | Ret _ s' => ∃ l base, resolve (mm s) addr size false false = inl (l, base) ∧
      (∀ o, ¬ addr - base ≤ o < addr - base + size → cell (mm s') l o = cell (mm s) l o) ∧
      (∀ l' o, l' ≠ l → cell (mm s') l' o = cell (mm s) l' o) ∧
      ∃ s2, load_scalar addr size s' = Ret (v mod 2 ^ (8 * size)) s2 ∧ mm s2 = mm s'
  | Exn e s' => mem_ok (mm s') ∧ ∀ l o, cell (mm s') l o = cell (mm s) l o
  | Undef => False
  end.
Proof.
  intros Hs Ha Hsz Hal Hh Hnone. assert (Hnf : no_store_fault (mm s)) by (unfold no_store_fault, store_armed; by rewrite Hnone).
  pose proof (store_scalar_spec addr size v s Hs Ha Hsz Hal Hh Hnf) as Hst.
  pose proof (store_keeps_faults addr size v s) as Hkeep.
  destruct (resolve (mm s) addr size false false) as [[l base]|e] eqn:Er.
  2:{ destruct Hst as (l' & _ & ->). split; [apply Hs|done]. }
  assert (Hszp : 0 ≤ size ≤ 8) by (apply scalar_size_cases in Hsz; lia).
  unfold stored in Hst. destruct (store_scalar addr size v s) as [[] s'|e s'|]; cbn [wp] in Hst; [| |done].
  - pose proof Hst as (Hs' & Hcell & Hother & _ & _ & _ & Hres).
    destruct (Hkeep _ _ eq_refl Hnf Hsz Hal Hh Hs Ha) as [Hkh Hkf].
    exists l, base. split_and!; try done.
    + intros o Ho. rewrite Hcell. unfold blit.
      destruct (Z.leb_spec (addr - base) o), (Z.ltb_spec o (addr - base + size)); cbn; try done. lia.
    + destruct (load_scalar_spec addr size s' Hs' Ha Hsz Hal) as (l' & _ & E);
        [by rewrite Hkh|unfold no_load_fault, any_stuck, load_armed; by rewrite Hkf, Hnone|].
      rewrite Hres in E.
      assert (Hr' : resolve (mm s) addr size false true = inl (l, base)).
      { apply resolve_slack; [apply Hs|done|lia|done]. }
      rewrite Hr' in E. exists (mkSys (mm s') (bk s') l'). rewrite E. split; [|done]. f_equal.
      rewrite <- (le_load_le_store (cell (mm s) l) (addr - base)) by lia.
      apply le_load_ext. intros i _. by rewrite Hcell.
  - destruct Hst as ([? _] & Hcell & Hother & _). split; [done|]. intros l0 o.
    destruct (decide (l0 = l)) as [->|]; [apply Hcell|by apply Hother].
Qed.
End scalars.

Lemma store_load_witness :
  match store_scalar (sample_base + 65532) 4 305419896 sample with
  | Ret _ s' => ∃ s2, load_scalar (sample_base + 65532) 4 s' = Ret (305419896 mod 2 ^ (8 * 4)) s2 ∧ mm s2 = mm s'
  | Exn e s' => mem_ok (mm s')
  | Undef => False
  end.
Proof.
  pose proof (store_load (sample_base + 65532) 4 305419896 sample sample_ok ltac:(by vm_compute) eq_refl
    ltac:(by vm_compute) ltac:(by vm_compute) eq_refl) as Hs.
  destruct (store_scalar _ _ _ _) as [u s'|e s'|]; [|exact (proj1 Hs)|exact Hs].
  destruct Hs as (l & base & _ & _ & _ & s2 & E & Em). exists s2. exact (conj E Em).
Defined.

Section fills.
Context {B : Type} `{HostBacking B} {L : Type} `{OrdinaryLookupOk L}.
Local Abbreviation st := (Sys B L).

(** A fill that succeeds leaves the pattern repeated from the start of
    the range, byte for byte (whole chunks of one byte are kept as that byte,
    zeros as nothing at all), and no other byte changed; one that fails has
    filled a prefix. *)
Theorem fill_contract dst pattern len (s : st) :
  sys_ok s → is_u64 dst → 0 < len → is_u64 len → pattern ≠ [] → Forall is_byte pattern →
  may_contain (host_maps_ (mm s)) dst = false →
  match fill dst pattern len s with
  | Ret _ s' => sys_ok s' ∧ ∃ l base, resolve (mm s) dst len true false = inl (l, base) ∧
      (∀ i, 0 ≤ i < len → cell (mm s') l (dst - base + i) = pattern !!! Z.to_nat (i mod Z.of_nat (length pattern))) ∧
      (∀ l' o, l' ≠ l ∨ ¬ dst - base ≤ o < dst - base + len → cell (mm s') l' o = cell (mm s) l' o)
  | Exn e s' => mem_ok (mm s') ∧
      ((∃ err, resolve (mm s) dst len true false = inr err ∧ e = Error err ∧ mm s' = mm s) ∨
       ∃ l base d, 0 ≤ d < len ∧ ∀ l' o, cell (mm s') l' o =
         if decide (l' = l) then blit (cell (mm s) l) (dst - base) (pattern_at pattern) d o else cell (mm s) l' o)
  | Undef => False
  end.
Proof.
  intros Hs Ha Hp Hlen Hne Hb Hh. pose proof (fill_spec dst pattern len s Hs Ha Hp Hlen Hne Hb Hh) as Hw.
  destruct (resolve (mm s) dst len true false) as [[l base]|e] eqn:Er.
  2:{ rewrite Hw. split; [apply Hs|]. left. by exists e. }
  destruct (fill dst pattern len s) as [[] s'|e s'|]; cbn [wp] in Hw; [| |done].
  - destruct Hw as (Hs' & Hcell & Hother & _). split; [done|]. exists l, base. split_and!; [done|..].
    + intros i Hi. rewrite Hcell. unfold blit.
      destruct (Z.leb_spec (dst - base) (dst - base + i)), (Z.ltb_spec (dst - base + i) (dst - base + len)); try lia.
      cbn [andb]. replace (dst - base + i - (dst - base)) with i by lia. done.
    + intros l' o Ho. destruct (decide (l' = l)) as [->|]; [|by apply Hother]. destruct Ho as [|Ho]; [done|].
      rewrite Hcell. unfold blit. destruct (Z.leb_spec (dst - base) o), (Z.ltb_spec o (dst - base + len)); cbn; try done. lia.
  - destruct Hw as (d & [? ?] & [? _] & Hcell & Hother & _). split; [done|]. right. exists l, base, d. split; [done|].
    intros l' o. destruct (decide (l' = l)) as [->|]; [apply Hcell|by apply Hother].
Qed.
End fills.

Lemma fill_contract_witness :
  match fill (sample_base + 3) [1; 2; 3; 4] 80000 sample with
  | Ret _ s' => ∃ l base, ∀ i, 0 ≤ i < 80000 → cell (mm s') l (sample_base + 3 - base + i) = [1; 2; 3; 4] !!! Z.to_nat (i mod 4)
  | Exn e s' => mem_ok (mm s')
  | Undef => False
  end.
Proof.
  assert (Hb : Forall is_byte [1; 2; 3; 4]) by (repeat constructor; unfold is_byte; lia).
  pose proof (fill_contract (sample_base + 3) [1; 2; 3; 4] 80000 sample sample_ok ltac:(by vm_compute) ltac:(lia)
    ltac:(by vm_compute) ltac:(done) Hb ltac:(by vm_compute)) as Hs.
  destruct (fill _ _ _ _) as [u s'|e s'|]; [|exact (proj1 Hs)|exact Hs].
  destruct Hs as (_ & l & base & _ & Hc & _). exists l, base. exact Hc.
Defined.

(** ** Mapped memory *)

(** A device with two granules reserved and one handle mapped on the first. *)
Definition after (c : call) (m : MM) : MM :=
  match exec c (m, 0) with Ret _ s => fst s | _ => m end.

Lemma after_ok c m : mem_ok m → call_ok m c → mem_ok (after c m).
Proof.
  intros Hok Hc. pose proof (exec_safe m (0 : Z) c Hok Hc) as Hs. unfold after. unfold safe, wp in Hs.
  by destruct (exec c (m, 0)).
Qed.

Definition vmm1 : MM := after (CReserve 4194304 0) sample_new.
Definition vmm2 : MM := after (CCreate 2097152 1 false) vmm1.
Definition vmm_base : Z := 35184372088832.
Definition vmm_mapped : MM := after (CMap vmm_base 2097152 0 1) vmm2.
Definition vmm_read_only : MM := after (CSetAccess vmm_base 2097152 true false) vmm_mapped.

Lemma vmm2_ok : mem_ok vmm2.
Proof.
  apply after_ok; [apply after_ok; [apply sample_new_ok|]|].
  - split_and!; [by vm_compute..|]. split; by vm_compute.
  - split; by vm_compute.
Qed.

Lemma counts_fit_check m :
  bool_decide (map_Forall (λ _ h, h_mapped h + 1 < 4294967296 ∧ h_refs h + 1 < 4294967296) (handles_ m)) = true → counts_fit m.
Proof. intros H%bool_decide_eq_true id h Hh. exact (H id h Hh). Qed.

Lemma vmm_mapped_ok : mem_ok vmm_mapped.
Proof.
  apply after_ok; [apply vmm2_ok|]. split_and!; [by vm_compute..| |].
  - split; by vm_compute.
  - apply counts_fit_check. by vm_compute.
Qed.

Lemma vmm_read_only_ok : mem_ok vmm_read_only.
Proof. apply after_ok; [apply vmm_mapped_ok|]. split_and!; by vm_compute. Qed.

(** Unmap takes away exactly the mappings that tile the range it is given
    and tells each handle of every mapping it lost, a handle with neither
    references nor mappings left going with its memory; any other range is
    refused and changes nothing. *)
Theorem unmap_contract m va sz :
  mem_ok m → is_u64 va → is_u64 sz →
  match unmap va sz m with
  | Ret _ m' => mem_ok m' ∧ (∃ l, tiling (maps_ m) va l (va + sz)) ∧
      maps_ m' = filter (λ p, ¬ va ≤ p.1 < va + sz) (maps_ m) ∧
      (∀ id h, handles_ m' !! id = Some h → h_mapped h = maps_of (maps_ m') id ∧ (0 < h_refs h ∨ 0 < h_mapped h)) ∧
      (∀ id h, handles_ m !! id = Some h → handles_ m' !! id = None → maps_of (maps_ m') id = 0 ∧ h_refs h = 0) ∧
      live_ m' = live_ m ∧ reserved_ m' = reserved_ m
  | Exn e m' => e = Error InvalidValue ∧ m' = m ∧ (sz = 0 ∨ ∀ l, ¬ tiling (maps_ m) va l (va + sz))
  | Undef => False
  end.
Proof.
  intros Hok Ha Hsz. pose proof (unmap_spec m va sz Hok Ha Hsz) as Hs.
  destruct (unmap va sz m) as [u m'|e m'|]; [|done..]. destruct Hs as (Hok' & _ & Ht & Hm & Hh & E).
  split_and!; try done; try (by rewrite E).
  - intros id h Hid. by destruct (vi_handle _ (proj2 Hok') _ _ Hid) as (_ & _ & ? & _ & ? & _).
  - intros id h Hid Hnone. rewrite Hh, Hid in Hnone. cbn in Hnone. unfold settle in Hnone.
    destruct (vi_handle _ (proj2 Hok) _ _ Hid) as (_ & _ & _ & ? & _).
    pose proof (maps_of_nonneg (maps_ m') id). repeat case_match; try done; zify_bool; lia.
Qed.

Lemma unmap_contract_witness :
  match unmap vmm_base 2097152 vmm_mapped with
  | Ret _ m' => mem_ok m' ∧ maps_ m' = filter (λ p, ¬ vmm_base ≤ p.1 < vmm_base + 2097152) (maps_ vmm_mapped)
  | _ => False
  end.
Proof.
  pose proof (unmap_contract vmm_mapped vmm_base 2097152 vmm_mapped_ok ltac:(by vm_compute) ltac:(by vm_compute)) as Hs.
  assert (He : match unmap vmm_base 2097152 vmm_mapped with Ret _ _ => true | _ => false end = true) by (by vm_compute).
  destruct (unmap vmm_base 2097152 vmm_mapped) as [u m'|e m'|]; [|discriminate He|discriminate He].
  destruct Hs as (? & _ & ? & _). by split.
Defined.

(** A set_access that throws has already granted access to the mappings
    below the first one it could not use: the call is not all or nothing. Here a
    range of which the first half is mapped is refused, and the first half has the
    rights asked for all the same. *)
Theorem set_access_not_atomic :
  mem_ok vmm_mapped ∧ access_at vmm_mapped vmm_base = Some (false, false) ∧
  ∃ m', set_access vmm_base 4194304 true true vmm_mapped = Exn (Error InvalidValue) m' ∧
        access_at m' vmm_base = Some (true, true).
Proof.
  split; [apply vmm_mapped_ok|]. split; [by vm_compute|].
  assert (He : match set_access vmm_base 4194304 true true vmm_mapped with
    | Exn e m' => (e = Error InvalidValue) ∧ access_at m' vmm_base = Some (true, true) | _ => False end).
  { vm_compute. done. }
  destruct (set_access vmm_base 4194304 true true vmm_mapped) as [u m'|e m'|]; [done| |done].
  destruct He as [-> ?]. by exists m'.
Qed.

Section read_only.
Context {B : Type} `{HostBacking B} {L : Type} `{OrdinaryLookupOk L}.
Local Abbreviation st := (Sys B L).

End read_only.

Definition vmm_sys : Sys Z Lookups := mkSys vmm_read_only 0 (new_lookups 131072).


(** ** Memory of other processes *)

Lemma share_keeps_witness :
  ∃ m' b', share sample_base "/dev/shm/x" true (Some 4096) (sample_mm, 0) = Ret 100000 (m', b') ∧
    host_mem m' (4096 + 70000) = cell sample_mm (LiveAt sample_base) 70000.
Proof.
  assert (Ha : ∃ a, live_ sample_mm !! sample_base = Some a ∧ a_size a = 100000).
  { eexists. split; [vm_compute; reflexivity|reflexivity]. }
  destruct Ha as (a & Ha & Hsz).
  destruct (share_keeps sample_mm 0 sample_base "/dev/shm/x" 4096 a sample_mm_ok Ha (λ _ _, eq_refl)) as
    (m' & b' & E & _ & _ & _ & _ & _ & Hb).
  exists m', b'. rewrite Hsz in E, Hb. split; [exact E|apply Hb; lia].
Defined.

Lemma export_keeps_witness :
  ∃ m' b', export_handle 1 5 (Some 4096) 6 (vmm2, 0) = Ret 6 (m', b') ∧ cell m' (HandleAt 1) 12345 = cell vmm2 (HandleAt 1) 12345.
Proof.
  assert (Hh : ∃ h, handles_ vmm2 !! 1 = Some h ∧ h_size h = 2097152 ∧ Z.land (h_types h) 1 = 1).
  { eexists. split; [vm_compute; reflexivity|split; reflexivity]. }
  destruct Hh as (h & Hh & Hsz & Hty).
  destruct (export_keeps vmm2 0 1 h 5 4096 6 vmm2_ok Hh Hty ltac:(lia) ltac:(lia)) as (m' & b' & E & _ & _ & _ & Hc & _).
  exists m', b'. split; [exact E|apply Hc; lia].
Defined.

Lemma import_handle_ok_witness :
  ∃ m', import_handle 3 (Some 2097152) (Some (4096, sample_bytes)) 9 sample_new = Ret 1 m' ∧
    cell m' (HandleAt 1) 70000 = sample_bytes 70000.
Proof.
  destruct (import_handle_ok sample_new 3 2097152 4096 sample_bytes 9 sample_new_ok ltac:(lia) ltac:(lia) eq_refl
    ltac:(by vm_compute) ltac:(by vm_compute) sample_bytes_range) as (m' & E & _ & _ & _ & Hc).
  exists m'. split; [exact E|apply Hc; lia].
Defined.

(** ** Lookups *)

Lemma lookup_transparent_witness :
  let l := new_lookups 131072 in
  let '(r, l') := lookup_ordinary sample_mm (sample_base + 5) 4 None l in
  (∀ b, r = Some b → ordinary sample_mm (sample_base + 5) 4 = Some b) ∧
  (lookup_cache_ l = true → written_by_me l = false → r = ordinary sample_mm (sample_base + 5) 4).
Proof.
  apply (lookup_transparent sample_new 131072 sample_mm (new_lookups 131072) (sample_base + 5) 4 None).
  - apply sample_new_ok.
  - apply sample_stamp.
  - eapply run_step; [eapply Ch_alloc; exact sample_alloc|apply sample_mm_ok|apply run_nil].
  - unfold is_u64, sample_base. lia.
  - unfold is_u64. lia.
Defined.

(** ** A warp's accesses at once *)

Section warps.
Context {B : Type} `{HostBacking B} {L : Type} `{OrdinaryLookupOk L}.
Local Abbreviation st := (Sys B L).

(** C14: a batched load changes nothing, and where it does not decline it is
    the loads of its lanes made one at a time, in order, with the same values. *)
Theorem load_batch_is_loads addrs size hint (s : st) :
  sys_ok s → Forall is_u64 addrs →
  ∃ r l', load_batch addrs size hint s = Ret r (mkSys (mm s) (bk s) l') ∧
    ∀ out, r = Some out →
      ∃ l2, traverse (λ x, load_scalar x size) addrs s = Ret out (mkSys (mm s) (bk s) l2).
Proof.
  intros Hs Hu. destruct (load_batch_spec addrs size hint s Hs Hu) as (r & l' & E & _ & Hb & Hf).
  exists r, l'. split; [done|]. intros out ->. destruct (Hf ltac:(by eexists)) as [Hsz Hnf].
  destruct (Hb out eq_refl) as (b & Hg & ->).
  destruct (scalar_loads b size addrs s Hs Hsz Hnf Hu Hg) as (l2 & _ & E2). by exists l2.
Qed.

(** A broadcast load is the load of its one address, given to every lane. *)
Theorem load_broadcast_is_load addr count size hint (s : st) :
  sys_ok s → is_u64 addr → 0 ≤ count →
  ∃ r l', load_broadcast addr count size hint s = Ret r (mkSys (mm s) (bk s) l') ∧
    ∀ out, r = Some out → ∃ v l2, out = replicate (Z.to_nat count) v ∧
      load_scalar addr size s = Ret v (mkSys (mm s) (bk s) l2).
Proof.
  intros Hs Ha Hc. destruct (load_broadcast_spec addr count size hint s Hs Ha Hc) as (r & l' & E & _ & Hf & Hb).
  exists r, l'. split; [done|]. intros out ->. destruct (Hf ltac:(by eexists)) as (_ & Hsz & Hnf).
  destruct (Hb out eq_refl) as (b & (Ho & Hal & Hh) & ->).
  destruct (load_scalar_spec addr size s Hs Ha Hsz Hal Hh Hnf) as (l2 & _ & E2).
  assert (Hsu : is_u64 size) by (apply scalar_size_cases in Hsz; unfold is_u64; lia).
  rewrite (ordinary_resolve_slack _ _ _ _ false true (proj1 Hs) Ha Hsu Ho) in E2. by eexists _, l2.
Qed.

(** A batch of sixteen-byte loads, where it does not decline, is the two
    eight-byte loads of each lane. *)
Theorem load_batch16_is_loads addrs hint (s : st) :
  sys_ok s → Forall is_u64 addrs →
  ∃ r l', load_batch16 addrs hint s = Ret r (mkSys (mm s) (bk s) l') ∧
    ∀ out, r = Some out → ∃ l2 l3,
      traverse (λ x, load_scalar x 8) addrs s = Ret (fst <$> out) (mkSys (mm s) (bk s) l2) ∧
      traverse (λ x, load_scalar x 8) ((λ x, x + 8) <$> addrs) s = Ret (snd <$> out) (mkSys (mm s) (bk s) l3).
Proof.
  intros Hs Hu. destruct (load_batch16_spec addrs hint s Hs Hu) as (r & l' & E & _ & Hb).
  exists r, l'. split; [done|]. intros out ->. destruct (Hb out eq_refl) as (Hnf & b & Hg & ->).
  assert (Hu8 : Forall is_u64 ((λ x, x + 8) <$> addrs)).
  { apply Forall_fmap, Forall_forall. intros x Hx. rewrite Forall_forall in Hu, Hg. cbn.
    destruct (Hg x Hx) as [(Ho & _) (Ho2 & _)]. pose proof (Hu x Hx) as Hux.
    destruct (ordinary_live (mm s) x 8 b (proj1 Hs) Hux ltac:(unfold is_u64; lia) Ho) as (a & Hb1 & _ & _ & ? & ?).
    destruct (live_room (mm s) b a (proj1 (proj1 Hs)) Hb1) as (? & ? & ?).
    pose proof (padded_bounds (mm s) (a_size a) (ti_config _ (proj1 (proj1 Hs)))). unfold is_u64, u64_max in *. lia. }
  destruct (scalar_loads b 8 addrs s Hs eq_refl Hnf Hu) as (l2 & _ & E2).
  { eapply Forall_impl; [exact Hg|]. by intros x []. }
  destruct (scalar_loads b 8 ((λ x, x + 8) <$> addrs) s Hs eq_refl Hnf Hu8) as (l3 & _ & E3).
  { apply Forall_fmap. eapply Forall_impl; [exact Hg|]. by intros x []. }
  exists l2, l3. rewrite E2, E3. split; f_equal; rewrite <- !list_fmap_compose; done.
Qed.

(** The outcome of a call that reports the lane that failed. *)
Definition batch_is_stores (size : Z) (ls : list (Z * Z)) (s : st) (r : outcome st bool * option Z) : Prop :=
  match r with
  | (Ret false s', f) => f = None ∧ mm s' = mm s ∧ bk s' = bk s
  | (Ret true s', f) => f = None ∧ ∃ s2, store_each size ls s = Ret tt s2 ∧ mm s2 = mm s' ∧ bk s2 = bk s'
  | (Exn e s', f) => ∃ n s1 s2, f = Some (Z.of_nat n) ∧ (n < length ls)%nat ∧
      store_each size (take n ls) s = Ret tt s1 ∧ store_each size ls s = Exn e s2 ∧ mm s2 = mm s' ∧ bk s2 = bk s'
  | (Undef, _) => False
  end.

Lemma batch_of_stores b size ls (s : st) l' :
  sys_ok s → lookup_inv (mm s) l' → scalar_size size = true → no_store_fault (mm s) → Forall is_u64 (fst <$> ls) →
  Forall (good_lane (mm s) b size) (fst <$> ls) →
  batch_is_stores size ls s (match store_batch_in b size 0 ls (mkSys (mm s) (bk s) l') with
    | (Ret _ s', f) => (Ret true s', f) | (Exn e s', f) => (Exn e s', f) | (Undef, f) => (Undef, f) end).
Proof.
  intros Hs Hl' Hsz Hnf Hu Hg.
  destruct (store_batch_in_each b size ls 0 (mkSys (mm s) (bk s) l') s) as [Hsame Hfail]; try done; [by split; [apply Hs|]|].
  destruct (store_batch_in b size 0 ls (mkSys (mm s) (bk s) l')) as [[[] s1|e s1|] [j|]]; cbn [fst] in Hsame; try done.
  - destruct (store_each size ls s) as [[] s2|e2 s2|] eqn:Ee; cbn in Hsame; [|done|done].
    destruct Hsame as (_ & E1 & E2). split; [done|]. by exists s2.
  - destruct (store_each size ls s) as [[] s2|e2 s2|] eqn:Ee; cbn in Hsame; [done| |done].
    destruct Hsame as (<- & E1 & E2). destruct Hfail as (n & Hn & -> & s3 & E3).
    exists n, s3, s2. by split_and!.
Qed.

(** C13: a batched store either declines, having changed nothing but the
    thread's lookups, or is the stores of its lanes made one at a time, in
    order: the same memory and the same host memory taken. Where one of them
    cannot get host memory the batch throws the same error in the same state,
    and reports that lane, the ones before it done. *)
Theorem store_batch_is_stores ls size hint (s : st) :
  sys_ok s → Forall is_u64 (fst <$> ls) → batch_is_stores size ls s (store_batch ls size hint s).
Proof.
  intros Hs Hu. unfold store_batch, batch_ok, get_mm, bind at 1.
  destruct (negb _ || negb (scalar_size size)) eqn:E1; [done|].
  apply orb_false_iff in E1 as [Hne Hsz]. apply negb_false_iff in Hsz.
  destruct (batch_faults_clear (mm s) true) eqn:Hf; cbn [negb]; [|done].
  assert (Hnf : no_store_fault (mm s)) by (unfold batch_faults_clear in Hf; by apply negb_true_iff in Hf).
  destruct (batch_addresses_spec (fst <$> ls) size hint s Hs) as (r & l' & -> & Hl' & Hg);
    [intros E; by rewrite E in Hne|done|done|].
  destruct r as [b|]; [|done]. by apply batch_of_stores; try apply (Hg b).
Qed.

(** The same of a strided store: the lanes [a0 + i * stride] written a
    chunk at a time are those stores in order. *)
Theorem store_strided_is_stores a0 stride vals size hint (s : st) :
  sys_ok s → is_u64 a0 → batch_is_stores size (lanes a0 stride vals) s (store_strided a0 stride vals size hint s).
Proof.
  intros Hs Ha. destruct (store_strided_spec a0 stride vals size hint s Hs Ha) as (l' & Hl' & [->|(b & Hsz & Hnf & Hu & Hg & ->)]); [done|].
  by apply batch_of_stores.
Qed.

End warps.

Definition warp : list Z := [sample_base; sample_base + 4; sample_base + 65536; sample_base + 99996].
Definition warp16 : list Z := [sample_base; sample_base + 8; sample_base + 65536].

Lemma warp_u64 : Forall is_u64 warp.
Proof. repeat constructor; unfold is_u64, sample_base; lia. Qed.

Lemma load_batch_is_loads_witness :
  ∃ out l', load_batch warp 4 None sample = Ret (Some out) (mkSys (mm sample) (bk sample) l') ∧
    ∃ l2, traverse (λ x, load_scalar x 4) warp sample = Ret out (mkSys (mm sample) (bk sample) l2).
Proof.
  destruct (load_batch_is_loads warp 4 None sample sample_ok warp_u64) as (r & l' & E & Hr).
  assert (He : match load_batch warp 4 None sample with Ret (Some _) _ => true | _ => false end = true) by (vm_compute; reflexivity).
  rewrite E in He. destruct r as [out|]; [|discriminate He]. exists out, l'. exact (conj E (Hr out eq_refl)).
Defined.

Lemma load_broadcast_is_load_witness :
  ∃ out l', load_broadcast (sample_base + 16) 32 8 None sample = Ret (Some out) (mkSys (mm sample) (bk sample) l') ∧
    ∃ v l2, out = replicate (Z.to_nat 32) v ∧ load_scalar (sample_base + 16) 8 sample = Ret v (mkSys (mm sample) (bk sample) l2).
Proof.
  assert (Ha : is_u64 (sample_base + 16)) by (unfold is_u64, sample_base; lia).
  destruct (load_broadcast_is_load (sample_base + 16) 32 8 None sample sample_ok Ha ltac:(lia)) as (r & l' & E & Hr).
  assert (He : match load_broadcast (sample_base + 16) 32 8 None sample with Ret (Some _) _ => true | _ => false end = true)
    by (vm_compute; reflexivity).
  rewrite E in He. destruct r as [out|]; [|discriminate He]. exists out, l'. exact (conj E (Hr out eq_refl)).
Defined.

Lemma load_batch16_is_loads_witness :
  ∃ out l', load_batch16 warp16 None sample = Ret (Some out) (mkSys (mm sample) (bk sample) l') ∧
    ∃ l2 l3, traverse (λ x, load_scalar x 8) warp16 sample = Ret (fst <$> out) (mkSys (mm sample) (bk sample) l2) ∧
      traverse (λ x, load_scalar x 8) ((λ x, x + 8) <$> warp16) sample = Ret (snd <$> out) (mkSys (mm sample) (bk sample) l3).
Proof.
  assert (Hu : Forall is_u64 warp16) by (repeat constructor; unfold is_u64, sample_base; lia).
  destruct (load_batch16_is_loads warp16 None sample sample_ok Hu) as (r & l' & E & Hr).
  assert (He : match load_batch16 warp16 None sample with Ret (Some _) _ => true | _ => false end = true) by (vm_compute; reflexivity).
  rewrite E in He. destruct r as [out|]; [|discriminate He]. exists out, l'. exact (conj E (Hr out eq_refl)).
Defined.

Lemma store_batch_is_stores_witness :
  batch_is_stores 4 ((λ x, (x, 258)) <$> warp) sample (store_batch ((λ x, (x, 258)) <$> warp) 4 None sample) ∧
  match store_batch ((λ x, (x, 258)) <$> warp) 4 None sample with (Ret true _, None) => True | _ => False end.
Proof.
  split; [|vm_compute; exact I]. apply (store_batch_is_stores ((λ x, (x, 258)) <$> warp) 4 None sample sample_ok).
  rewrite <- list_fmap_compose. apply Forall_fmap. apply warp_u64.
Defined.

Lemma store_strided_is_stores_witness :
  batch_is_stores 4 (lanes (sample_base + 65000) 400 [1; 2; 3; 4]) sample
    (store_strided (sample_base + 65000) 400 [1; 2; 3; 4] 4 None sample) ∧
  match store_strided (sample_base + 65000) 400 [1; 2; 3; 4] 4 None sample with (Ret true _, None) => True | _ => False end.
Proof.
  split; [|vm_compute; exact I].
  apply (store_strided_is_stores (sample_base + 65000) 400 [1; 2; 3; 4] 4 None sample sample_ok).
  unfold is_u64, sample_base. lia.
Defined.
