(* ===== verification/Traffic.v ===== *)
(** * Contracts of the runs, copies, read-modify-writes and multi-field reads

    What a caller of load_run, store_run, copy_to, rmw_batch_fn, atomic_rmw_fn,
    load_fields and load_texels may rely on, each with an instance on a concrete
    device. *)

From S2P Require Import Prelude Chunks HostMaps BrLock MemState MemTable Vmm VmmRange Resolve Lookup Access Samples.
From S2P Require Import Batch Runs Copy Rmw.

Section traffic.
Context {B : Type} `{HostBacking B} {L : Type} `{OrdinaryLookupOk L}.
Local Abbreviation st := (Sys B L).

(** A run that is loaded is what read gives for the same range: the
    caller's buffer holds those bytes in its first [len] places and is untouched
    elsewhere. A run that is declined, or taken, changes nothing in the manager
    or the host's memory. *)
Theorem load_run_is_read addr d len unit_ hint (s : st) :
  sys_ok s → is_u64 addr → 0 < len → is_u64 len → copy_armed (mm s) = false →
  ∃ r l', load_run addr d len unit_ hint s = Ret r (mkSys (mm s) (bk s) l') ∧
    ∀ d', r = Some d' → (∀ j, j < 0 ∨ len ≤ j → d' j = d j) ∧
      ∃ l2, read addr false len s = Ret (d' <$> seqZ 0 len) (mkSys (mm s) (bk s) l2).
Proof.
  intros Hs Ha Hp Hl Hcp. destruct (load_run_spec addr d len unit_ hint s Hs Ha Hp Hl) as (r & l' & E & _ & Hr).
  exists r, l'. split; [done|]. intros d' ->. destruct (run_at (mm s) addr len unit_) as [b|] eqn:Er; [|done].
  destruct Hr as (d2 & [= <-] & Hd). split; [intros j Hj; rewrite Hd; unfold blit; bool_cases; done|].
  destruct (run_at_inv _ _ _ _ _ (proj1 Hs) Ha Hl Er) as (_ & Hf & Hh & Ho & _).
  destruct (faults_split _ Hf) as [[Hst _] _].
  destruct (read_spec addr len s Hs Ha Hp Hl Hh Hst Hcp) as (l2 & _ & E2). exists l2. rewrite E2.
  rewrite (ordinary_resolve_slack _ _ _ _ false false (proj1 Hs) Ha Hl Ho). f_equal.
  apply fmap_seqZ_ext. intros i Hi. rewrite Hd. unfold blit. bool_cases; try done. f_equal. lia.
Qed.

(** A run that is stored leaves every cell as a write of it that returns leaves it; one that is
    declined changes nothing but the thread's lookups; and one the host runs out
    of memory for leaves a prefix of the run stored. *)
Theorem store_run_is_write addr src len unit_ hint (s : st) :
  sys_ok s → is_u64 addr → 0 < len → is_u64 len → (∀ i, 0 ≤ i < len → is_byte (src i)) →
  wp (store_run addr src len unit_ hint s)
    (λ r s1, if r then ∃ l base, let f := blit (cell (mm s) l) (addr - base) src len in
                 cells_now (mm s) l f s1 ∧
                 wp (write addr (Some src) len s) (λ _ s2, cells_now (mm s) l f s2) (λ _ _, True)
             else mm s1 = mm s ∧ bk s1 = bk s ∧ sys_ok s1)
    (λ _ s1, ∃ l base d, 0 ≤ d < len ∧ cells_now (mm s) l (blit (cell (mm s) l) (addr - base) src d) s1).
Proof.
  intros Hs Ha Hp Hl Hsrc. pose proof (store_run_spec addr src len unit_ hint s Hs Ha Hp Hl Hsrc) as Hr.
  destruct (run_at (mm s) addr len unit_) as [b|] eqn:Er.
  - destruct (run_at_inv _ _ _ _ _ (proj1 Hs) Ha Hl Er) as (_ & _ & Hh & Ho & _).
    pose proof (write_spec addr src len s Hs Ha Hp Hl Hsrc Hh) as Hw.
    rewrite (ordinary_resolve_slack _ _ _ _ true false (proj1 Hs) Ha Hl Ho) in Hw.
    eapply wp_mono; [exact Hr|..].
    + intros r s1 [-> Hc]. exists (LiveAt b), b. split; [done|]. by eapply wp_mono; [exact Hw|..].
    + intros e s1 (d & Hd & Hc). by exists (LiveAt b), b, d.
  - destruct Hr as (l' & Hl' & ->). cbn. split_and!; try done. by split; [apply Hs|].
Qed.

(** C23: copy_to declines with no byte of either device changed, or puts the
    source's bytes in the destination and changes nothing else; the source's
    bytes are those before the copy, also where both ranges lie in one
    allocation. Where the host runs out of memory a prefix is copied. *)
Theorem copy_to_is_copy fill0 (w : World B L) dst src len :
  world_ok w → is_u64 src → is_u64 dst → 0 < len → is_u64 len →
  wp (copy_to fill0 dst src len w)
    (λ r w', if r then ∃ sb db,
                 resolve (w_src w) src len false false = inl (LiveAt sb, sb) ∧
                 resolve (mm (dst_sys w)) dst len true false = inl (LiveAt db, db) ∧
                 cells_now (mm (dst_sys w)) (LiveAt db)
                   (blit (cell (mm (dst_sys w)) (LiveAt db)) (dst - db) (λ i, cell (w_src w) (LiveAt sb) (src - sb + i)) len)
                   (dst_sys w') ∧
                 (w_dst w ≠ None → w_src w' = w_src w)
             else same_memory w w')
    (λ _ w', ∃ sb db d, 0 ≤ d < len ∧ copied w sb db (src - sb) (dst - db) d w').
Proof.
  intros Hw Hsrc Hdst Hp Hlen. pose proof Hw as [[Hsok _] [Hdok _]].
  eapply wp_mono; [by apply copy_to_spec|..].
  - intros [|] w'; [|by intros [_ ?]]. intros (sb & db & Hos & Hod & _ & Hc & Hs). exists sb, db.
    split_and!; [by apply ordinary_resolve_slack|by apply ordinary_resolve_slack|done|].
    destruct (w_dst w); [by destruct Hs|done].
  - intros e w' (sb & db & d & _ & _ & Hd & Hc). by exists sb, db, d.
Qed.

(** A batched read-modify-write, made under the caller's lock, declines
    with nothing changed, or is its lanes' loads and stores made one at a time,
    in order: the same values read, the same memory. Where a lane cannot get
    host memory both throw there, and [done] says how many lanes were made. *)
Theorem rmw_batch_is_rmws addrs size compute always runs (s : st) :
  sys_ok s → addrs ≠ [] → Forall is_u64 addrs →
  let '(o, olds, d) := rmw_batch_fn addrs size compute false always runs s in
  match o, rmw_each size compute always 0 addrs s with
  | Ret true s1, Ret vs s2 => vs = olds ∧ d = Z.of_nat (length addrs) ∧ mm s1 = mm s2 ∧ bk s1 = bk s2
  | Ret false s1, _ => mm s1 = mm s ∧ bk s1 = bk s ∧ olds = [] ∧ d = 0
  | Exn e s1, Exn e' s2 => e = e' ∧ mm s1 = mm s2 ∧ bk s1 = bk s2 ∧
      ∃ n s3, (n < length addrs)%nat ∧ d = Z.of_nat n ∧ rmw_each size compute always 0 (take n addrs) s = Ret (take n olds) s3
  | _, _ => False
  end.
Proof.
  intros Hs Hne Hu. destruct addrs as [|x0 rest]; [done|]. set (addrs := x0 :: rest) in *. unfold rmw_batch_fn.
  cbn [andb]. unfold addrs at 1. destruct (access_faults_armed (mm s)) eqn:Hf; [done|].
  unfold batch_ok. rewrite get_mm_bind. unfold addrs at 1. cbn [negb orb].
  destruct (scalar_size size) eqn:Hsz; cbn [negb]; [|done].
  assert (Hb : batch_faults_clear (mm s) true = true) by (destruct (faults_split _ Hf) as [_ Hn]; unfold batch_faults_clear; by rewrite Hn).
  rewrite Hb. cbn [negb].
  destruct (batch_addresses_spec addrs size None s Hs Hne Hu Hsz) as (r & l' & -> & Hl' & Hg).
  destruct r as [b|]; [|done].
  assert (Hs' : sys_ok (mkSys (mm s) (bk s) l')) by (by split; [apply Hs|]).
  pose proof (rmw_plain_each b size compute always addrs 0 _ s Hs' Hs eq_refl eq_refl Hsz Hf Hu (Hg b eq_refl)) as Hp.
  destruct (rmw_plain b size compute always 0 addrs _) as [[o olds] d].
  destruct o as [[] s1|e s1|], (rmw_each size compute always 0 addrs s) as [vs s2|e2 s2|]; done.
Qed.


(** A multi-field read declines, or gives what the loads of the fields
    one by one give, an absent field reading as zero; the manager and the host's
    memory are unchanged. *)
Theorem load_fields_is_loads addr sizes (s : st) :
  sys_ok s → is_u64 addr → Forall (λ sz, 0 ≤ sz) sizes → is_u64 (sum_sizes sizes) →
  ∃ r l', load_fields addr sizes s = Ret r (mkSys (mm s) (bk s) l') ∧
    ∀ out, r = Some out → ∃ l2, traverse load_field (field_list addr sizes) s = Ret out (mkSys (mm s) (bk s) l2).
Proof.
  intros Hs Ha Hpos Hsum. destruct (load_fields_spec addr sizes s Hs Ha Hpos Hsum) as (r & l' & E & _ & Hr).
  exists r, l'. split; [done|]. intros out ->. destruct (Hr out eq_refl) as (Hf & b & Hg & ->).
  destruct (Z.eq_dec (sum_sizes sizes) 0) as [E0|Hne].
  - exists (lk s). clear -Hpos E0. revert addr. induction Hpos as [|sz sizes Hsz Hpos IH]; intros addr; cbn in *; [by destruct s|].
    pose proof (sum_sizes_nonneg sizes Hpos). unfold sum_sizes in *. unfold load_field at 1, field_value at 1. cbn.
    destruct (Z.eqb_spec sz 0) as [->|]; [|lia]. rewrite (bind_Ret _ _ _ _ _ (eq_refl (ret 0 s))).
    by rewrite (bind_Ret _ _ _ _ _ (IH ltac:(lia) _)).
  - destruct Hf as [|Hf]; [done|]. destruct Hg as [|Hg]; [done|].
    destruct (load_fields_each b _ s Hs Hf Hg) as (l2 & _ & E2). by exists l2.
Qed.

(** A texel gather declines, or gives the words of every texel, channel by
    channel, as the scalar loads of their addresses in that order give them. *)
Theorem load_texels_is_loads addrs size channels (s : st) :
  sys_ok s → addrs ≠ [] → Forall is_u64 addrs → scalar_size size = true → 1 ≤ channels ≤ 65536 →
  ∃ r l', load_texels addrs size channels s = Ret r (mkSys (mm s) (bk s) l') ∧
    ∀ out, r = Some out → ∃ l2, traverse (λ x, load_scalar x size) (texel_addrs addrs size channels) s =
      Ret out (mkSys (mm s) (bk s) l2).
Proof.
  intros Hs Hne Hu Hsz Hch. destruct (load_texels_spec addrs size channels s Hs Hne Hu Hsz Hch) as (r & l' & E & _ & Hr).
  exists r, l'. split; [done|]. intros out ->. destruct (Hr out eq_refl) as (Hf & b & Hu2 & Hg & ->).
  destruct (scalar_loads b size _ s Hs Hsz Hf Hu2 Hg) as (l2 & _ & E2). by exists l2.
Qed.
End traffic.

(** ** Instances *)

Lemma base_u64 o : 0 ≤ o < 1048576 → is_u64 (sample_base + o).
Proof. unfold is_u64, sample_base. lia. Qed.

Lemma load_run_is_read_witness :
  ∃ d' l' l2, load_run (sample_base + 65528) (λ _, 9) 16 4 None sample = Ret (Some d') (mkSys (mm sample) (bk sample) l') ∧
    read (sample_base + 65528) false 16 sample = Ret (d' <$> seqZ 0 16) (mkSys (mm sample) (bk sample) l2).
Proof.
  assert (Hl : is_u64 16) by (unfold is_u64; lia).
  destruct (load_run_is_read (sample_base + 65528) (λ _, 9) 16 4 None sample sample_ok (base_u64 65528 ltac:(lia)) ltac:(lia) Hl eq_refl)
    as (r & l' & E & Hr).
  assert (He : match load_run (sample_base + 65528) (λ _, 9) 16 4 None sample with Ret (Some _) _ => true | _ => false end = true)
    by (vm_compute; reflexivity).
  rewrite E in He. destruct r as [d'|]; [|discriminate He]. destruct (Hr d' eq_refl) as (_ & l2 & E2).
  exists d', l', l2. exact (conj E E2).
Defined.

Lemma store_run_is_write_witness :
  match store_run (sample_base + 65532) (λ i, i + 1) 8 4 None sample with
  | Ret true s1 => ∃ l base, cells_now (mm sample) l (blit (cell (mm sample) l) (sample_base + 65532 - base) (λ i, i + 1) 8) s1
  | _ => False
  end.
Proof.
  assert (Hl : is_u64 8) by (unfold is_u64; lia).
  assert (Hb : ∀ i, 0 ≤ i < 8 → is_byte (i + 1)) by (unfold is_byte; lia).
  pose proof (store_run_is_write (sample_base + 65532) (λ i, i + 1) 8 4 None sample sample_ok (base_u64 65532 ltac:(lia)) ltac:(lia) Hl Hb) as Hw.
  assert (He : match store_run (sample_base + 65532) (λ i, i + 1) 8 4 None sample with Ret true _ => true | _ => false end = true)
    by (vm_compute; reflexivity).
  destruct (store_run _ _ _ _ _ sample) as [[|] s1|e s1|]; [|discriminate He..].
  cbn [wp] in Hw. destruct Hw as (l & base & Hc & _). exists l, base. exact Hc.
Defined.

Definition sample_world : World Z Lookups := mkWorld sample_mm (new_lookups 131072) None 0.
Lemma sample_world_ok : world_ok sample_world.
Proof. split; apply sample_ok. Qed.

Lemma copy_to_is_copy_witness :
  match copy_to (λ _, 0) (sample_base + 70000) (sample_base + 8) 20000 sample_world with
  | Ret true w' => ∃ sb db, cells_now sample_mm (LiveAt db)
      (blit (cell sample_mm (LiveAt db)) (sample_base + 70000 - db)
         (λ i, cell sample_mm (LiveAt sb) (sample_base + 8 - sb + i)) 20000) (dst_sys w')
  | _ => False
  end.
Proof.
  assert (Hl : is_u64 20000) by (unfold is_u64; lia).
  pose proof (copy_to_is_copy (λ _, 0) sample_world (sample_base + 70000) (sample_base + 8) 20000 sample_world_ok
    (base_u64 8 ltac:(lia)) (base_u64 70000 ltac:(lia)) ltac:(lia) Hl) as Hw.
  assert (He : match copy_to (λ _, 0) (sample_base + 70000) (sample_base + 8) 20000 sample_world with Ret true _ => true | _ => false end = true)
    by (vm_compute; reflexivity).
  destruct (copy_to _ _ _ _ sample_world) as [[|] w'|e w'|]; [|discriminate He..].
  cbn [wp] in Hw. destruct Hw as (sb & db & _ & _ & Hc & _). exists sb, db. exact Hc.
Defined.

Definition lanes4 : list Z := [sample_base; sample_base + 4; sample_base; sample_base + 65536].
Lemma lanes4_u64 : Forall is_u64 lanes4.
Proof. repeat constructor; unfold is_u64, sample_base; lia. Qed.

Lemma rmw_batch_is_rmws_witness :
  match rmw_batch_fn lanes4 4 (λ i old, old + i + 1) false true (λ _, ([], [])) sample with
  | (Ret true s1, olds, d) => olds = [0; 0; 1; 0] ∧ d = 4 ∧
      match rmw_each 4 (λ i old, old + i + 1) true 0 lanes4 sample with
      | Ret vs s2 => vs = olds ∧ mm s1 = mm s2
      | _ => False
      end
  | _ => False
  end.
Proof.
  assert (Hne : lanes4 ≠ []) by discriminate.
  pose proof (rmw_batch_is_rmws lanes4 4 (λ i old, old + i + 1) true (λ _, ([], [])) sample sample_ok Hne lanes4_u64) as Hw.
  assert (He : match rmw_batch_fn lanes4 4 (λ i old, old + i + 1) false true (λ _, ([], [])) sample with
    | (Ret true _, olds, d) => bool_decide (olds = [0; 0; 1; 0]) && (d =? 4) | _ => false end = true) by (vm_compute; reflexivity).
  destruct (rmw_batch_fn _ _ _ _ _ _ sample) as [[[[|] s1|e s1|] olds] d]; [|discriminate He..].
  apply andb_true_iff in He as [Ho%bool_decide_eq_true Hd%Z.eqb_eq]. split; [exact Ho|]. split; [exact Hd|].
  destruct (rmw_each _ _ _ _ _ sample) as [vs s2|e s2|]; [|destruct Hw..].
  destruct Hw as (Hv & _ & Hm & _). exact (conj Hv Hm).
Defined.

(** Another thread adds to the word between the load and the swap. *)
Definition interfering : list turn := [mkTurn [(8, 4, 5)] false; mkTurn [] true].


Lemma load_fields_is_loads_witness :
  ∃ out l' l2, load_fields (sample_base + 16) [4; 0; 2; 1; 1] sample = Ret (Some out) (mkSys (mm sample) (bk sample) l') ∧
    traverse load_field (field_list (sample_base + 16) [4; 0; 2; 1; 1]) sample = Ret out (mkSys (mm sample) (bk sample) l2).
Proof.
  assert (Hpos : Forall (λ sz, 0 ≤ sz) [4; 0; 2; 1; 1]) by (repeat constructor; lia).
  assert (Hsum : is_u64 (sum_sizes [4; 0; 2; 1; 1])) by (unfold is_u64; cbn; lia).
  destruct (load_fields_is_loads (sample_base + 16) [4; 0; 2; 1; 1] sample sample_ok (base_u64 16 ltac:(lia)) Hpos Hsum) as (r & l' & E & Hr).
  assert (He : match load_fields (sample_base + 16) [4; 0; 2; 1; 1] sample with Ret (Some _) _ => true | _ => false end = true)
    by (vm_compute; reflexivity).
  rewrite E in He. destruct r as [out|]; [|discriminate He]. destruct (Hr out eq_refl) as (l2 & E2).
  exists out, l', l2. exact (conj E E2).
Defined.

Lemma load_texels_is_loads_witness :
  ∃ out l' l2, load_texels lanes4 4 4 sample = Ret (Some out) (mkSys (mm sample) (bk sample) l') ∧
    traverse (λ x, load_scalar x 4) (texel_addrs lanes4 4 4) sample = Ret out (mkSys (mm sample) (bk sample) l2).
Proof.
  assert (Hne : lanes4 ≠ []) by discriminate. assert (Hch : 1 ≤ 4 ≤ 65536) by lia.
  destruct (load_texels_is_loads lanes4 4 4 sample sample_ok Hne lanes4_u64 eq_refl Hch) as (r & l' & E & Hr).
  assert (He : match load_texels lanes4 4 4 sample with Ret (Some _) _ => true | _ => false end = true) by (vm_compute; reflexivity).
  rewrite E in He. destruct r as [out|]; [|discriminate He]. destruct (Hr out eq_refl) as (l2 & E2).
  exists out, l', l2. exact (conj E E2).
Defined.
