(* ===== verification/HostGuard.v ===== *)
(** * The host-memory guard (src/core/memory_backing.cpp)

    What the host can still give this process: MemAvailable and the headroom of
    every cgroup above it, read from small text files, against a reserve that is
    left to the host. Files are a function from a path to its contents; texts
    are C strings, cut at a NUL and at the size of the buffer they are read
    into. *)

From stdpp Require Import strings.
From Stdlib Require Import Ascii String.
From S2P Require Import Prelude Text.

Local Open Scope string_scope.
#[local] Open Scope Z_scope.

(** Files, by path. *)
Definition files := string → option string.

(** The guard's buffers, [char buf[8192]] *)
Definition kBuf : nat := Z.to_nat 8192.

(** read_small, into a buffer of [cap] bytes *)
Definition read_small (fs : files) (path : string) (cap : nat) : option string :=
  s ← fs path; Some (c_str (String.substring 0 (cap - 1) s)).

(** find_value: the number after [key] on the line that starts with it. *)
Definition value_at (line key : string) : option (option Z) :=
  if String.prefix key line then
    match String.substring (String.length key) (String.length line) line with
    | String c p =>
        if chr c 58 || chr c 32 then
          Some (match strtoull (skip_while (λ c, chr c 32 || chr c 9) p) with
                | None => None
                | Some (v, e) =>
                    let e := skip_while (λ c, chr c 32) e in
                    Some (u64 (v * (if String.prefix "kB" e then 1024 else 1)))
                end)
        else None
    | EmptyString => None
    end
  else None.
Fixpoint find_lines (fuel : nat) (line key : string) : option Z :=
  match fuel with
  | O => None
  | S fuel' =>
      match line with
      | EmptyString => None
      | _ =>
          match value_at line key with
          | Some r => r
          | None => next ← after_newline line; find_lines fuel' next key
          end
      end
  end.
Definition find_value (text key : string) : option Z := find_lines (S (String.length text)) text key.

(** ** One look at the host *)

Definition kAutoReserve : Z := u64_max.
Definition kGiB : Z := 1073741824.

(** State::Look *)
Record Look := mkLook {
  have_available : bool;
  have_cgroup : bool;
  available : Z;
  cgroup_headroom : Z;
  headroom : Z;
  reserve : Z;
}.
Definition no_look : Look := mkLook false false 0 0 0 0.

(** The parts of Config the guard reads *)
Record GuardConfig := mkGuardConfig {
  host_reserve_bytes : Z;
  meminfo_path : string;
  cgroup_root : string;
  cgroup_self : string;
}.

Definition kUnlimitedV1 : Z := 1152921504606846976.

(** cgroup_dir's limit, and what is used less the file cache. *)
Definition cgroup_limit (fs : files) (dir : string) (v2 : bool) : option Z :=
  buf ← read_small fs (dir +:+ (if v2 then "/memory.max" else "/memory.limit_in_bytes")) kBuf;
  if String.prefix "max" buf then None else
  r ← strtoull buf;
  if kUnlimitedV1 <=? fst r then None else Some (fst r).
Definition cgroup_used (fs : files) (dir : string) (v2 : bool) : option Z :=
  buf ← read_small fs (dir +:+ (if v2 then "/memory.current" else "/memory.usage_in_bytes")) kBuf;
  r ← strtoull buf;
  let used := fst r in
  Some (match read_small fs (dir +:+ "/memory.stat") kBuf with
        | None => used
        | Some stat =>
            let inactive := default 0 (find_value stat (if v2 then "inactive_file" else "total_inactive_file")) in
            let active := default 0 (find_value stat (if v2 then "active_file" else "total_active_file")) in
            let cache := u64 (inactive + active) in
            if cache <? used then used - cache else 0
        end).

(** cgroup_dir: the look so far and the smallest limit seen. *)
Definition cgroup_dir (fs : files) (dir : string) (v2 : bool) (st : Look * Z) : Look * Z :=
  let '(look, limit_seen) := st in
  match cgroup_limit fs dir v2 with
  | None => st
  | Some limit =>
      match cgroup_used fs dir v2 with
      | None => st
      | Some used =>
          let room := if used <? limit then limit - used else 0 in
          (mkLook (have_available look) true (available look)
             (if have_cgroup look then Z.min (cgroup_headroom look) room else room)
             (headroom look) (reserve look),
           Z.min limit_seen limit)
      end
  end.

(** [path.rfind('/')] *)
Fixpoint rfind_slash (s : string) (i : nat) (r : option nat) : option nat :=
  match s with
  | EmptyString => r
  | String c s' => rfind_slash s' (S i) (if chr c 47 then Some i else r)
  end.
Definition parent (path : string) : string :=
  match rfind_slash path 0 None with
  | Some O => "/"
  | Some slash => String.substring 0 slash path
  | None => path   (* not of a path that starts with '/' *)
  end.

(** cgroup_walk: the directory and every ancestor up to the root; [None] is a
    walk that does not end. *)
Fixpoint walk_up (fuel : nat) (fs : files) (root path : string) (v2 : bool) (st : Look * Z) : option (Look * Z) :=
  match fuel with
  | O => None
  | S fuel' =>
      let st := cgroup_dir fs (root +:+ path) v2 st in
      if bool_decide (path = "/") then Some st else walk_up fuel' fs root (parent path) v2 st
  end.
Definition clean_path (path : string) : string :=
  let path := match String.index 0 " (deleted)" path with
              | Some sp => String.substring 0 sp path
              | None => path
              end in
  match path with
  | String c _ => if chr c 47 then path else "/" +:+ path
  | EmptyString => "/"
  end.
Definition cgroup_walk (fs : files) (root path : string) (v2 : bool) (st : Look * Z) : option (Look * Z) :=
  let path := clean_path path in
  walk_up (S (String.length path)) fs root path v2 st.

(** A line of /proc/self/cgroup: its controllers and its path. *)
Fixpoint split_colon (s : string) (acc : string) : option (string * string) :=
  match s with
  | EmptyString => None
  | String c s' => if chr c 58 then Some (acc, s') else split_colon s' (acc +:+ String c "")
  end.
Fixpoint upto_newline (s : string) : string :=
  match s with
  | EmptyString => ""
  | String c s' => if chr c 10 then "" else String c (upto_newline s')
  end.
Definition cgroup_line (line : string) : option (string * string) :=
  '(_, r) ← split_colon (upto_newline line) "";
  split_colon r "".
Definition contains (sub s : string) : bool := match String.index 0 sub s with Some _ => true | None => false end.

(** The paths found so far: v2's and v1's. *)
Fixpoint cgroup_lines (fuel : nat) (line : string) (v2_path : option string) (v1_path : option string) :
    option string * option string :=
  match fuel with
  | O => (v2_path, v1_path)
  | S fuel' =>
      match line with
      | EmptyString => (v2_path, v1_path)
      | _ =>
          let '(v2', v1') :=
            match cgroup_line line with
            | Some (controllers, path) =>
                if bool_decide (controllers = "") then (Some path, v1_path)
                else if contains ",memory," ("," +:+ controllers +:+ ",") then (v2_path, Some path)
                else (v2_path, v1_path)
            | None => (v2_path, v1_path)
            end in
          match after_newline line with
          | Some next => cgroup_lines fuel' next v2' v1'
          | None => (v2', v1')
          end
      end
  end.

(** The default reserve, from the memory in play. *)
Definition auto_reserve (in_play : Z) : Z :=
  let r := Z.max kGiB (Z.min (4 * kGiB) (if in_play =? u64_max then kGiB else in_play / 100 * 6)) in
  if in_play =? u64_max then r else Z.min r (in_play / 4).

(** What the look concludes from what was read. *)
Definition conclude (c : GuardConfig) (total limit_seen : Z) (look : Look) : Look * bool :=
  let h := if have_available look then available look else headroom look in
  let h := if have_cgroup look && (negb (have_available look) || (cgroup_headroom look <? h)) then cgroup_headroom look else h in
  let r := if negb (host_reserve_bytes c =? kAutoReserve) then host_reserve_bytes c
           else auto_reserve (Z.min total limit_seen) in
  (mkLook (have_available look) (have_cgroup look) (available look) (cgroup_headroom look) h r,
   (have_available look || have_cgroup look) && (h <? r)).

(** look_at_host's first part: MemAvailable and MemTotal. *)
Definition read_meminfo (fs : files) (c : GuardConfig) : Look * Z :=
  match read_small fs (meminfo_path c) kBuf with
  | None => (no_look, u64_max)
  | Some buf =>
      (match find_value buf "MemAvailable" with
       | Some a => mkLook true false a 0 0 0
       | None => no_look
       end,
       match find_value buf "MemTotal" with
       | Some t => if t =? 0 then u64_max else t
       | None => u64_max
       end)
  end.

(** The process's cgroup paths, v2's and v1's. *)
Definition own_cgroup (fs : files) (c : GuardConfig) : option string * option string :=
  match read_small fs (cgroup_self c) kBuf with
  | None => (None, None)
  | Some buf => cgroup_lines (S (String.length buf)) buf None None
  end.

(** look_at_host: the look, and whether the host is short. *)
Definition look_at_host (fs : files) (c : GuardConfig) : option (Look * bool) :=
  let '(look, total) := read_meminfo fs c in
  let '(v2, v1) := own_cgroup fs c in
  '(look, limit_seen) ← cgroup_walk fs (cgroup_root c) (default "/" v2) true (look, u64_max);
  '(look, limit_seen) ← (if negb (have_cgroup look) && (match v1 with Some _ => true | None => false end ||
                                                     match v2 with Some _ => false | None => true end)
                         then cgroup_walk fs (cgroup_root c +:+ "/memory") (default "" v1) false (look, limit_seen)
                         else Some (look, limit_seen));
  Some (conclude c total limit_seen look).

(** ** The walk ends *)

Lemma rfind_slash_bound s i r j : rfind_slash s i r = Some j → r = Some j ∨ (i ≤ j < i + String.length s)%nat.
Proof.
  revert i r. induction s as [|c s IH]; intros i r; cbn; [by left|].
  intros [Hr|?]%IH; [|right; lia]. destruct (chr c 47); [|by left]. injection Hr as <-. right. lia.
Qed.

Lemma rfind_slash_some s i j : is_Some (rfind_slash s i (Some j)).
Proof. revert i j. induction s as [|c s IH]; intros i j; cbn; [done|]. by destruct (chr c 47). Qed.

(** A path from the root. *)
Definition rooted (path : string) : Prop := ∃ s c, path = String c s ∧ chr c 47 = true.

Lemma clean_path_rooted path : rooted (clean_path path).
Proof.
  unfold clean_path. set (q := match String.index 0 " (deleted)" path with Some sp => _ | None => _ end).
  destruct q as [|c q]; [by eexists _, _|]. destruct (chr c 47) eqn:E; [by eexists _, _|]. by eexists _, _.
Qed.

Lemma length_substring_0 n s : String.length (String.substring 0 n s) = Nat.min n (String.length s).
Proof. revert n. induction s as [|c s IH]; intros [|n]; cbn; try done. by rewrite IH. Qed.

Lemma parent_shorter path : rooted path → path ≠ "/" →
  rooted (parent path) ∧ (String.length (parent path) < String.length path)%nat.
Proof.
  intros (s & c & -> & Hc) Hne. unfold parent. cbn [rfind_slash]. rewrite Hc.
  destruct (rfind_slash_some s 1 0) as [j Hj]. rewrite Hj.
  assert (Hlen : (1 ≤ String.length s)%nat).
  { destruct s; [|cbn; lia]. exfalso. apply Hne. unfold chr in Hc. apply N.eqb_eq in Hc.
    rewrite <- (ascii_N_embedding c), Hc. done. }
  apply rfind_slash_bound in Hj as Hb. destruct j as [|j].
  - split; [by eexists _, _|]. cbn. lia.
  - destruct Hb as [|Hb]; [done|]. split.
    + cbn. eexists _, c. by split.
    + rewrite length_substring_0. cbn. lia.
Qed.

Lemma walk_up_total fs root v2 fuel path st :
  rooted path → (String.length path ≤ fuel)%nat → is_Some (walk_up fuel fs root path v2 st).
Proof.
  revert path st. induction fuel as [|fuel IH]; intros path st Hr Hl.
  { destruct Hr as (s & c & -> & _). cbn in Hl. lia. }
  cbn [walk_up]. case_bool_decide as E; [done|]. destruct (parent_shorter path Hr E) as [Hr' Hlt].
  apply IH; [done|lia].
Qed.

Lemma cgroup_walk_total fs root path v2 st : is_Some (cgroup_walk fs root path v2 st).
Proof. unfold cgroup_walk. apply walk_up_total; [apply clean_path_rooted|lia]. Qed.

(** A look at the host always ends with a verdict, whatever the files hold and
    however the process's cgroup path is written (empty, relative, deleted, with
    doubled slashes). *)
Lemma look_at_host_total fs c : is_Some (look_at_host fs c).
Proof.
  unfold look_at_host. destruct (read_meminfo fs c) as [look total]. destruct (own_cgroup fs c) as [v2 v1].
  destruct (cgroup_walk_total fs (cgroup_root c) (default "/" v2) true (look, u64_max)) as [[look1 lim1] E1]. rewrite E1.
  cbn [mbind option_bind].
  destruct (negb (have_cgroup look1) && _); [|done].
  destruct (cgroup_walk_total fs (cgroup_root c +:+ "/memory") (default "" v1) false (look1, lim1)) as [[look2 lim2] E2].
  by rewrite E2.
Qed.

(** ** The verdict *)

(** The directories above a path, the path first. *)
Inductive ancestor (path : string) : string → Prop :=
  | anc_self : ancestor path path
  | anc_up a : path ≠ "/" → ancestor (parent path) a → ancestor path a.

(** What a directory has left, where it says. *)
Definition room_of (fs : files) (dir : string) (v2 : bool) : option Z :=
  limit ← cgroup_limit fs dir v2; used ← cgroup_used fs dir v2; Some (if used <? limit then limit - used else 0).

Lemma cgroup_dir_room fs dir v2 look lim :
  match room_of fs dir v2 with
  | None => cgroup_dir fs dir v2 (look, lim) = (look, lim)
  | Some r => ∃ lim', cgroup_dir fs dir v2 (look, lim) =
      (mkLook (have_available look) true (available look)
         (if have_cgroup look then Z.min (cgroup_headroom look) r else r) (headroom look) (reserve look), lim')
  end.
Proof.
  unfold room_of, cgroup_dir. destruct (cgroup_limit fs dir v2) as [l|]; cbn; [|done].
  destruct (cgroup_used fs dir v2) as [u|]; cbn; [by eexists|done].
Qed.

(** What the walk finds: the least room of the directories it passes. *)
Definition least_room (fs : files) (dir : string → string) (v2 : bool) (path : string) (look look' : Look) : Prop :=
  have_available look' = have_available look ∧ available look' = available look ∧ headroom look' = headroom look ∧
  (have_cgroup look = true → have_cgroup look' = true ∧ cgroup_headroom look' ≤ cgroup_headroom look) ∧
  (∀ a r, ancestor path a → room_of fs (dir a) v2 = Some r → have_cgroup look' = true ∧ cgroup_headroom look' ≤ r) ∧
  (have_cgroup look' = true → (have_cgroup look = true ∧ cgroup_headroom look' = cgroup_headroom look) ∨
     ∃ a, ancestor path a ∧ room_of fs (dir a) v2 = Some (cgroup_headroom look')).

Lemma walk_up_least fs root v2 fuel path look lim look' lim' :
  walk_up fuel fs root path v2 (look, lim) = Some (look', lim') →
  least_room fs (λ a, root +:+ a) v2 path look look'.
Proof.
  revert path look lim. induction fuel as [|fuel IH]; intros path look lim; [done|]. cbn [walk_up].
  pose proof (cgroup_dir_room fs (root +:+ path) v2 look lim) as Hd.
  set (st := cgroup_dir fs (root +:+ path) v2 (look, lim)) in *.
  destruct st as [look1 lim1].
  assert (Hstep : have_available look1 = have_available look ∧ available look1 = available look ∧ headroom look1 = headroom look ∧
    (have_cgroup look = true → have_cgroup look1 = true ∧ cgroup_headroom look1 ≤ cgroup_headroom look) ∧
    (∀ r, room_of fs (root +:+ path) v2 = Some r → have_cgroup look1 = true ∧ cgroup_headroom look1 ≤ r) ∧
    (have_cgroup look1 = true → (have_cgroup look = true ∧ cgroup_headroom look1 = cgroup_headroom look) ∨
       room_of fs (root +:+ path) v2 = Some (cgroup_headroom look1))).
  { destruct (room_of fs (root +:+ path) v2) as [r|].
    - destruct Hd as (l' & [= -> ->]). cbn. destruct (have_cgroup look); split_and!; try done.
      + intros _. split; [done|lia].
      + intros r' [= <-]. split; [done|lia].
      + intros _. destruct (Z.min_spec (cgroup_headroom look) r) as [[_ ->]|[_ ->]]; [by left|by right].
      + intros r' [= <-]. split; [done|lia].
      + intros _. by right.
    - injection Hd as -> ->. split_and!; try done. intros Hc. by left. }
  destruct Hstep as (Ha & Hb & Hh & Hmono & Hhere & Hfrom). case_bool_decide as E.
  - intros [= <- <-]. split_and!; try done.
    + intros a r Hanc. inversion Hanc; subst; [by apply Hhere|done].
    + intros Hc. destruct (Hfrom Hc) as [?|?]; [by left|]. right. exists path. split; [constructor|done].
  - intros Hw%IH. destruct Hw as (Ha2 & Hb2 & Hh2 & Hmono2 & Hhere2 & Hfrom2). split_and!; try congruence.
    + intros Hc. destruct (Hmono Hc) as [Hc1 ?]. destruct (Hmono2 Hc1). split; [done|lia].
    + intros a r Hanc Hr. inversion Hanc; subst.
      * destruct (Hhere _ Hr) as [Hc1 ?]. destruct (Hmono2 Hc1). split; [done|lia].
      * by eapply Hhere2.
    + intros Hc. destruct (Hfrom2 Hc) as [[Hc1 E1]|(a & Hanc & Hr)].
      * rewrite E1. destruct (Hfrom Hc1) as [?|?]; [by left|]. right. exists path. split; [constructor|done].
      * right. exists a. split; [by apply anc_up|done].
Qed.

(** The default reserve is 6% of the memory in play, at least 1 GiB and at most
    4 GiB, and never more than a quarter. *)
Lemma auto_reserve_bounds in_play :
  auto_reserve in_play ≤ 4 * kGiB ∧ (in_play ≠ u64_max → auto_reserve in_play ≤ in_play / 4) ∧
  (4 * kGiB ≤ in_play → kGiB ≤ auto_reserve in_play) ∧
  (17 * kGiB ≤ in_play ≤ 66 * kGiB → auto_reserve in_play = in_play / 100 * 6).
Proof.
  unfold auto_reserve, kGiB, u64_max. cbv zeta.
  destruct (Z.eqb_spec in_play 18446744073709551615) as [->|Hne]; [split_and!; [by vm_compute|done|by vm_compute|intros; lia]|].
  pose proof (Z.div_mod in_play 4 ltac:(lia)). pose proof (Z.mod_pos_bound in_play 4 ltac:(lia)).
  pose proof (Z.div_mod in_play 100 ltac:(lia)). pose proof (Z.mod_pos_bound in_play 100 ltac:(lia)).
  split_and!; intros; lia.
Qed.

Lemma conclude_spec c total lim look look' low :
  conclude c total lim look = (look', low) →
  have_available look' = have_available look ∧ available look' = available look ∧
  have_cgroup look' = have_cgroup look ∧ cgroup_headroom look' = cgroup_headroom look ∧
  (have_available look = true → headroom look' ≤ available look) ∧
  (have_cgroup look = true → headroom look' ≤ cgroup_headroom look) ∧
  (low = true ↔ (have_available look = true ∨ have_cgroup look = true) ∧ headroom look' < reserve look') ∧
  reserve look' = (if negb (host_reserve_bytes c =? kAutoReserve) then host_reserve_bytes c else auto_reserve (Z.min total lim)).
Proof.
  unfold conclude. intros [= <- <-]. cbn.
  set (h := if have_available look then available look else headroom look).
  split_and!; try done.
  - intros E. unfold h. rewrite E. cbn. destruct (have_cgroup look); cbn; [|lia].
    destruct (Z.ltb_spec (cgroup_headroom look) (available look)); lia.
  - intros E. rewrite E. cbn. destruct (have_available look); cbn; [|lia].
    destruct (Z.ltb_spec (cgroup_headroom look) h); lia.
  - rewrite andb_true_iff, orb_true_iff, Z.ltb_lt. done.
Qed.

(** The host is found short exactly when something was read and what is
    left is below the reserve. What is left is never taken to be more than
    MemAvailable, nor more than what the process's cgroup or any cgroup above it
    has left. The reserve is the configured one, or 6% of the memory in play
    between 1 and 4 GiB and at most a quarter of it. *)
Theorem guard_verdict fs c look low :
  look_at_host fs c = Some (look, low) →
  (low = true ↔ (have_available look = true ∨ have_cgroup look = true) ∧ headroom look < reserve look) ∧
  (∀ buf v, read_small fs (meminfo_path c) kBuf = Some buf → find_value buf "MemAvailable" = Some v →
     have_available look = true ∧ headroom look ≤ v) ∧
  (∀ a r, ancestor (clean_path (default "/" (fst (own_cgroup fs c)))) a → room_of fs (cgroup_root c +:+ a) true = Some r →
     have_cgroup look = true ∧ headroom look ≤ r) ∧
  (host_reserve_bytes c ≠ kAutoReserve → reserve look = host_reserve_bytes c) ∧
  (host_reserve_bytes c = kAutoReserve → reserve look ≤ 4 * kGiB ∧
     ∃ in_play, reserve look = auto_reserve in_play ∧ (in_play ≠ u64_max → reserve look ≤ in_play / 4) ∧
       (4 * kGiB ≤ in_play → kGiB ≤ reserve look)).
Proof.
  unfold look_at_host. destruct (read_meminfo fs c) as [look0 total] eqn:Em.
  destruct (own_cgroup fs c) as [v2 v1] eqn:Ec. cbn [fst].
  destruct (cgroup_walk fs (cgroup_root c) (default "/" v2) true (look0, u64_max)) as [[look1 lim1]|] eqn:E1; [|done].
  cbn [mbind option_bind]. pose proof (walk_up_least _ _ _ _ _ _ _ _ _ E1) as (Ha1 & Hb1 & _ & _ & Hanc & _).
  destruct (if negb (have_cgroup look1) && _ then _ else _) as [[look2 lim2]|] eqn:E2; [|done]. intros E3'.
  assert (E3 : conclude c total lim2 look2 = (look, low)) by exact (f_equal (default (look, low)) E3'). clear E3'.
  assert (H12 : have_available look2 = have_available look1 ∧ available look2 = available look1 ∧
    (have_cgroup look1 = true → have_cgroup look2 = true ∧ cgroup_headroom look2 ≤ cgroup_headroom look1)).
  { destruct (negb (have_cgroup look1) && _); [|by injection E2 as <- <-].
    apply walk_up_least in E2 as (? & ? & _ & Hm & _). by split_and!. }
  destruct H12 as (Ha2 & Hb2 & Hm2).
  destruct (conclude_spec _ _ _ _ _ _ E3) as (Ha3 & Hb3 & Hc3 & Hd3 & Hav & Hcg & Hlow & Hres).
  split_and!.
  - by rewrite Ha3, Hc3.
  - intros buf v Hr Hv. unfold read_meminfo in Em. rewrite Hr, Hv in Em. injection Em as <- _. cbn in *.
    rewrite Ha3, Ha2, Ha1. split; [done|]. rewrite <- Hb1, <- Hb2. apply Hav. by rewrite Ha2, Ha1.
  - intros a r Hac Hr. destruct (Hanc a r Hac Hr) as [Hc1 ?]. destruct (Hm2 Hc1) as [Hc2 ?].
    rewrite Hc3. split; [done|]. specialize (Hcg Hc2). lia.
  - intros Hne. rewrite Hres. destruct (Z.eqb_spec (host_reserve_bytes c) kAutoReserve); done.
  - intros E. rewrite Hres, E. cbn [negb Z.eqb]. rewrite Z.eqb_refl. cbn [negb].
    destruct (auto_reserve_bounds (Z.min total lim2)) as (? & ? & ? & _). split; [done|]. by exists (Z.min total lim2).
Qed.

(** ** An instance: a container with a limit halfway up *)

Definition newline : string := String (ascii_of_nat 10) "".
Definition sample_files (p : string) : option string :=
  if bool_decide (p = "/proc/meminfo")
  then Some ("MemTotal:       16000000 kB" +:+ newline +:+ "MemAvailable:   9000000 kB" +:+ newline)
  else if bool_decide (p = "/proc/self/cgroup") then Some ("0::/pod/box" +:+ newline)
  else if bool_decide (p = "/sys/fs/cgroup/pod/memory.max") then Some ("2000000000" +:+ newline)
  else if bool_decide (p = "/sys/fs/cgroup/pod/memory.current") then Some ("1900000000" +:+ newline)
  else if bool_decide (p = "/sys/fs/cgroup/pod/memory.stat")
  then Some ("active_file 5" +:+ newline +:+ "inactive_file 100000000" +:+ newline)
  else None.
Definition sample_guard : GuardConfig := mkGuardConfig kAutoReserve "/proc/meminfo" "/sys/fs/cgroup" "/proc/self/cgroup".

Lemma guard_verdict_witness : ∃ look,
  look_at_host sample_files sample_guard = Some (look, true) ∧ headroom look = 200000005 ∧ reserve look = 500000000 ∧
  headroom look < reserve look ∧ reserve look ≤ 4 * kGiB.
Proof.
  assert (E : ∃ look, look_at_host sample_files sample_guard = Some (look, true) ∧ headroom look = 200000005 ∧ reserve look = 500000000)
    by (eexists; vm_compute; split_and!; reflexivity).
  destruct E as (look & E & Hh & Hr). exists look.
  destruct (guard_verdict sample_files sample_guard look true E) as (Hl & _ & _ & _ & Hb).
  destruct (Hb eq_refl) as [H4 _]. destruct (proj1 Hl eq_refl) as [_ Hlt]. split_and!; assumption.
Defined.
