(* ===== verification/Backing.v ===== *)
(** * Where device memory's bytes live (src/core/memory_backing.cpp)

    Chunks come from the heap (arenas of anonymous memory), from a pool of
    cleared chunks, or, past the RAM limit or when the host is short, from a
    spill file. The operating system's answers are arguments of the calls; the
    process's memory is part of the state, so that what a chunk reads as when it
    is handed out can be stated. *)

From stdpp Require Import strings.
From S2P Require Import Prelude Chunks Text HostGuard.

#[local] Open Scope Z_scope.

Definition kHugePage : Z := 2097152.
Definition kArenaBytes : Z := 67108864.
Definition kSliceChunks : Z := 4096.
Definition kSliceBytes : Z := kSliceChunks * kChunkSize.

Record Config := mkConfig {
  ram_limit_bytes : Z;
  spill_dir : string;
  host_guard : bool;
  guard_config : GuardConfig;   (* host_reserve_bytes and the guard's paths *)
  host_check_every_chunks : Z;
  pool_max_bytes : Z;
}.
Definition default_guard : GuardConfig :=
  mkGuardConfig kAutoReserve "/proc/meminfo" "/sys/fs/cgroup" "/proc/self/cgroup".
Definition default_config : Config := mkConfig u64_max "" true default_guard 256 (1024 * 1024 * 1024).

(** State, with the process's memory. Vectors are stacks: the back is the head. *)
Record State := mkState {
  configured : bool;
  config : Config;
  ram : Z;
  spill : Z;
  fd : bool;   (* a spill file is open *)
  owner : Z;
  file_size : Z;
  slices : gmap Z Z;
  free_file : list Z;
  inherited : gmap Z Z;
  pool : list Z;
  cold : list Z;
  arena_next : Z;
  arena_end : Z;
  pool_pending : Z;
  since_check : Z;
  samples : Z;
  low : bool;
  spilling_for_host : bool;
  last_look : Look;
  pmem : Z → Z;
}.

Definition new_state (mem : Z → Z) : State :=
  mkState false default_config 0 0 false 0 0 ∅ [] ∅ [] [] 0 0 0 0 0 false false no_look mem.

(** What the operating system answers in one call. *)
Record Os := mkOs {
  o_env : string → option string;
  o_pid : Z;
  o_files : files;         (* the guard's files, *)
  o_files_again : files;   (* and when it looks a second time *)
  o_tmpfile : bool;        (* open(O_TMPFILE) *)
  o_mkostemp : bool;
  o_fallocate : bool;      (* of a slice *)
  o_mmap_slice : option Z;
  o_reserve : bool;        (* fallocate of a chunk *)
  o_mmap_arena : option Z;
}.

(** Assignments to the members. *)
Definition set_config (b : bool) (c : Config) (s : State) : State :=
  mkState b c (ram s) (spill s) (fd s) (owner s) (file_size s) (slices s) (free_file s) (inherited s) (pool s) (cold s)
    (arena_next s) (arena_end s) (pool_pending s) (since_check s) (samples s) (low s) (spilling_for_host s) (last_look s) (pmem s).
Definition set_ram (v : Z) (s : State) : State :=
  mkState (configured s) (config s) v (spill s) (fd s) (owner s) (file_size s) (slices s) (free_file s) (inherited s) (pool s) (cold s)
    (arena_next s) (arena_end s) (pool_pending s) (since_check s) (samples s) (low s) (spilling_for_host s) (last_look s) (pmem s).
Definition set_file (f : bool) (o size sp : Z) (sl : gmap Z Z) (ff : list Z) (inh : gmap Z Z) (s : State) : State :=
  mkState (configured s) (config s) (ram s) sp f o size sl ff inh (pool s) (cold s)
    (arena_next s) (arena_end s) (pool_pending s) (since_check s) (samples s) (low s) (spilling_for_host s) (last_look s) (pmem s).
Definition set_pool (v : list Z) (s : State) : State :=
  mkState (configured s) (config s) (ram s) (spill s) (fd s) (owner s) (file_size s) (slices s) (free_file s) (inherited s) v (cold s)
    (arena_next s) (arena_end s) (pool_pending s) (since_check s) (samples s) (low s) (spilling_for_host s) (last_look s) (pmem s).
Definition set_cold (v : list Z) (s : State) : State :=
  mkState (configured s) (config s) (ram s) (spill s) (fd s) (owner s) (file_size s) (slices s) (free_file s) (inherited s) (pool s) v
    (arena_next s) (arena_end s) (pool_pending s) (since_check s) (samples s) (low s) (spilling_for_host s) (last_look s) (pmem s).
Definition set_arena (n e : Z) (s : State) : State :=
  mkState (configured s) (config s) (ram s) (spill s) (fd s) (owner s) (file_size s) (slices s) (free_file s) (inherited s) (pool s) (cold s)
    n e (pool_pending s) (since_check s) (samples s) (low s) (spilling_for_host s) (last_look s) (pmem s).
Definition set_pending (v : Z) (s : State) : State :=
  mkState (configured s) (config s) (ram s) (spill s) (fd s) (owner s) (file_size s) (slices s) (free_file s) (inherited s) (pool s) (cold s)
    (arena_next s) (arena_end s) v (since_check s) (samples s) (low s) (spilling_for_host s) (last_look s) (pmem s).
Definition set_guard (sc sm : Z) (l : bool) (look : Look) (s : State) : State :=
  mkState (configured s) (config s) (ram s) (spill s) (fd s) (owner s) (file_size s) (slices s) (free_file s) (inherited s) (pool s) (cold s)
    (arena_next s) (arena_end s) (pool_pending s) sc sm l (spilling_for_host s) look (pmem s).
Definition set_spilling (v : bool) (s : State) : State :=
  mkState (configured s) (config s) (ram s) (spill s) (fd s) (owner s) (file_size s) (slices s) (free_file s) (inherited s) (pool s) (cold s)
    (arena_next s) (arena_end s) (pool_pending s) (since_check s) (samples s) (low s) v (last_look s) (pmem s).
Definition set_pmem (v : Z → Z) (s : State) : State :=
  mkState (configured s) (config s) (ram s) (spill s) (fd s) (owner s) (file_size s) (slices s) (free_file s) (inherited s) (pool s) (cold s)
    (arena_next s) (arena_end s) (pool_pending s) (since_check s) (samples s) (low s) (spilling_for_host s) (last_look s) v.

(** A range that reads as zero from now on. *)
Definition zero_range (base len : Z) : M State unit := modify (λ s, set_pmem (blit (pmem s) base (λ _, 0) len) s).

(** ** Configuration *)

(** config_from_env's parser of megabytes: all of the text is a number. *)
Definition env_mb (env : string → option string) (name : string) (d : Z) : Z :=
  match env name with
  | None => d
  | Some v =>
      let v := c_str v in
      if bool_decide (v = "") then d else
      match strtoull v with
      | Some (n, rest) => if bool_decide (rest = "") then u64 (n * 1024 * 1024) else d
      | None => d
      end
  end.
Definition config_from_env (env : string → option string) : Config :=
  let dir := match env "VGPU_MEMORY_DIR" with Some d => c_str d | None => "" end in
  let guard := match env "VGPU_MEMORY_HOST_GUARD" with Some g => negb (bool_decide (c_str g = "0")) | None => true end in
  mkConfig (env_mb env "VGPU_MEMORY_RAM_MB" u64_max) dir guard
    (mkGuardConfig (env_mb env "VGPU_MEMORY_HOST_RESERVE_MB" kAutoReserve) "/proc/meminfo" "/sys/fs/cgroup" "/proc/self/cgroup")
    256 (1024 * 1024 * 1024).

Definition configure_from_env (o : Os) : M State unit :=
  modify (λ s, if configured s then s else set_config true (config_from_env (o_env o)) s).

(** ** The spill file *)

(** in_slices: the file offset of a chunk in one of these slices. *)
Definition in_slices (sl : gmap Z Z) (chunk : Z) : option Z :=
  match floor_entry sl chunk with
  | None => None
  | Some (base, off) => if base + kSliceBytes <=? chunk then None else Some (off + (chunk - base))
  end.
Definition file_offset (s : State) (chunk : Z) : option Z := in_slices (slices s) chunk.

Definition adopt_after_fork (o : Os) : M State unit :=
  modify (λ s,
    if negb (fd s) || (owner s =? o_pid o) then s
    else set_file false (owner s) 0 0 ∅ [] (inherited s ∪ slices s) s).

Definition slice_chunks (base : Z) : list Z := (λ i, base + i * kChunkSize) <$> seqZ 0 kSliceChunks.

(** grow: one more slice of the file. The chunks are pushed last first. *)
Definition grow (o : Os) : M State unit :=
  s <- get ;;
  (if fd s then ret tt
   else if o_tmpfile o || o_mkostemp o
   then modify (λ s, set_file true (o_pid o) (file_size s) (spill s) (slices s) (free_file s) (inherited s) s)
   else throw OutOfMemory) ;;;
  if negb (o_fallocate o) then throw OutOfMemory else
  match o_mmap_slice o with
  | None => throw OutOfMemory
  | Some base =>
      zero_range base kSliceBytes ;;;   (* a reserved part of the file reads as zero *)
      modify (λ s, set_file (fd s) (owner s) (file_size s + kSliceBytes) (spill s) (<[base := file_size s]> (slices s))
                     (slice_chunks base ++ free_file s) (inherited s) s)
  end.

Definition configure (o : Os) (c : Config) : M State unit :=
  modify (λ s, set_guard 0 (samples s) false (last_look s) (set_config true c s)) ;;;
  adopt_after_fork o ;;;
  modify (λ s, if fd s && (spill s =? 0) then set_file false (owner s) 0 (spill s) ∅ [] (inherited s) s else s).

(** ** The heap *)

(** make_cold, and give_back: the chunk's pages go back to the kernel (and read as
    zero on the next touch), or, where madvise fails, are cleared by hand. *)
Definition make_cold (chunk : Z) : M State unit :=
  zero_range chunk kChunkSize ;;; modify (λ s, set_cold (chunk :: cold s) s).

Fixpoint make_all_cold (l : list Z) : M State unit :=
  match l with
  | [] => ret tt
  | c :: l' => make_cold c ;;; make_all_cold l'
  end.
(** drain_pool, from the front of the vector on *)
Definition drain_pool : M State Z :=
  s <- get ;;
  make_all_cold (rev (pool s)) ;;;
  modify (set_pool []) ;;;
  ret (Z.of_nat (length (pool s))).

Definition look (fs : files) : M State unit :=
  s <- get ;;
  match look_at_host fs (guard_config (config s)) with
  | Some (l, lw) => modify (λ s, set_guard (since_check s) (samples s + 1) lw l s)
  | None => undef
  end.
Definition look_at_host_with_pool (o : Os) : M State unit :=
  look (o_files o) ;;;
  s <- get ;;
  if low s && match pool s with [] => false | _ => true end
  then drain_pool ;;; look (o_files_again o) else ret tt.

Definition host_is_short (o : Os) : M State bool :=
  s <- get ;;
  (if since_check s =? 0 then look_at_host_with_pool o else ret tt) ;;;
  s <- get ;;
  let every := Z.max 1 (host_check_every_chunks (config s)) in
  let sc := since_check s + 1 in
  let sc := if (every <=? sc) || (low s && bool_decide (spill_dir (config s) = "")) then 0 else sc in
  modify (λ s, set_guard sc (samples s) (low s) (last_look s) s) ;;;
  ret (low s).

Definition arena_chunk (o : Os) : M State Z :=
  s <- get ;;
  match cold s with
  | c :: rest => modify (set_cold rest) ;;; ret c
  | [] =>
      (if arena_next s =? arena_end s then
         match o_mmap_arena o with
         | None => modify (λ s, set_ram (ram s - kChunkSize) s) ;;; (λ s, Exn bad_alloc s)
         | Some m =>
             zero_range m (kArenaBytes + kHugePage) ;;;
             let base := Z.land (m + kHugePage - 1) (Z.lnot (kHugePage - 1)) in
             modify (set_arena base (base + kArenaBytes))
         end
       else ret tt) ;;;
      s <- get ;;
      modify (set_arena (arena_next s + kChunkSize) (arena_end s)) ;;;
      ret (arena_next s)
  end.

(** acquire's first decision: whether the chunk is the file's. *)
Definition choose_spill (o : Os) : M State bool :=
  configure_from_env o ;;;
  adopt_after_fork o ;;;
  s <- get ;;
  let sp := negb (bool_decide (spill_dir (config s) = "")) && (ram_limit_bytes (config s) <? ram s + kChunkSize) in
  modify (set_spilling false) ;;;
  if sp then ret true else
  if negb (host_guard (config s)) then ret false else
  short <- host_is_short o ;;
  if negb short then ret false else
  if bool_decide (spill_dir (config s) = "") then throw OutOfMemory else
  modify (set_spilling true) ;;; ret true.

Definition acquire_heap (o : Os) : M State Z :=
  modify (λ s, set_ram (ram s + kChunkSize) s) ;;;
  s <- get ;;
  match pool s with
  | c :: rest => modify (set_pool rest) ;;; ret c
  | [] => arena_chunk o
  end.

Definition acquire_file (o : Os) : M State Z :=
  s <- get ;;
  match free_file s with [] => grow o | _ => ret tt end ;;;
  s <- get ;;
  match free_file s with
  | [] => undef
  | c :: rest =>
      if negb (o_reserve o) then throw OutOfMemory else
      modify (λ s, set_file (fd s) (owner s) (file_size s) (spill s + kChunkSize) (slices s) rest (inherited s) s) ;;;
      ret c
  end.

Definition acquire (o : Os) : M State Z :=
  sp <- choose_spill o ;;
  if sp then acquire_file o else acquire_heap o.

(** ** Giving back *)

Definition pool_has_room (s : State) : bool :=
  let cap := pool_max_bytes (config s) in
  let limit := ram_limit_bytes (config s) in
  let cap := if negb (limit =? u64_max) then Z.min cap (if ram s <? limit then limit - ram s else 0) else cap in
  (Z.of_nat (length (pool s)) + pool_pending s + 1) * kChunkSize <=? cap.

(** What release does next, outside the lock. *)
Inductive next := Done | Clear | GiveBack.

(** release up to the first unlock *)
Definition release_begin (o : Os) (chunk : Z) : M State next :=
  adopt_after_fork o ;;;
  s <- get ;;
  match in_slices (inherited s) chunk with
  | Some _ => ret Done
  | None =>
      match (if fd s then file_offset s chunk else None) with
      | Some _ =>
          zero_range chunk kChunkSize ;;;   (* a hole in the file, or a memset *)
          modify (λ s, set_file (fd s) (owner s) (file_size s) (spill s - kChunkSize) (slices s)
                         (chunk :: free_file s) (inherited s) s) ;;;
          ret Done
      | None =>
          modify (λ s, set_ram (ram s - kChunkSize) s) ;;;
          s <- get ;;
          if pool_has_room s then modify (set_pending (pool_pending s + 1)) ;;; ret Clear else ret GiveBack
      end
  end.
(** the memset outside the lock *)
Definition release_clear (chunk dirty_bytes : Z) : M State unit := zero_range chunk (Z.min dirty_bytes kChunkSize).
(** release's second critical section *)
Definition release_end (chunk : Z) : M State next :=
  modify (λ s, set_pending (pool_pending s - 1) s) ;;;
  s <- get ;;
  if pool_has_room s then modify (set_pool (chunk :: pool s)) ;;; ret Done else ret GiveBack.
Definition give_back (chunk : Z) : M State unit :=
  zero_range chunk kChunkSize ;;; modify (λ s, set_cold (chunk :: cold s) s).

(** release, run by one thread without another between its parts *)
Definition release (o : Os) (chunk dirty_bytes : Z) : M State unit :=
  if chunk =? 0 then ret tt else
  n <- release_begin o chunk ;;
  match n with
  | Done => ret tt
  | GiveBack => give_back chunk
  | Clear =>
      release_clear chunk dirty_bytes ;;;
      n <- release_end chunk ;;
      match n with GiveBack => give_back chunk | _ => ret tt end
  end.

Definition pooled_chunks (s : State) : Z := Z.of_nat (length (pool s)).
Definition ram_bytes (s : State) : Z := ram s.
Definition spill_bytes (s : State) : Z := spill s.
Definition host_guard_samples (s : State) : Z := samples s.

(** ** Chunks as ranges *)

Definition apart (p q : Z) : Prop := p + kChunkSize ≤ q ∨ q + kChunkSize ≤ p.

Fixpoint all_apart (l : list Z) : Prop :=
  match l with
  | [] => True
  | p :: l' => Forall (apart p) l' ∧ all_apart l'
  end.

#[global] Instance apart_sym : Symmetric apart.
Proof. intros p q. unfold apart. lia. Qed.

#[global] Instance all_apart_perm : Proper (Permutation ==> iff) all_apart.
Proof.
  assert (Hone : ∀ l l', l ≡ₚ l' → all_apart l → all_apart l').
  { intros l l'. induction 1 as [|x l l' Hp IH|x y l|]; cbn; [done| | |tauto].
    - intros [Hx Hl]. split; [by rewrite <- Hp|by apply IH].
    - intros [[Hxy Hy]%Forall_cons [Hx Hl]]. split_and!; try done. by constructor. }
  intros l l' Hp. split; apply Hone; [done|by symmetry].
Qed.

Lemma all_apart_app l k : all_apart (l ++ k) ↔ all_apart l ∧ all_apart k ∧ ∀ p q, p ∈ l → q ∈ k → apart p q.
Proof.
  induction l as [|x l IH]; cbn.
  - split; [|tauto]. intros Hk. split_and!; try done. intros p q Hp. by inversion Hp.
  - rewrite IH, Forall_app. rewrite !Forall_forall. split.
    + intros ([Hx1 Hx2] & Hl & Hk & Hlk). split_and!; try done. intros p q Hp Hq. inversion Hp; subst; auto.
    + intros ((Hx & Hl) & Hk & Hlk). split_and!; try done; intros; apply Hlk; try done; (by left) || by right.
Qed.

Lemma all_apart_sub l k : l ⊆+ k → all_apart k → all_apart l.
Proof. intros [j ->]%submseteq_Permutation. rewrite all_apart_app. tauto. Qed.

(** A chunk carved in order from a range. *)
Lemma all_apart_seq base o n : all_apart ((λ i, base + i * kChunkSize) <$> seqZ o n).
Proof.
  destruct (Z.le_gt_cases n 0) as [Hn|Hn]; [by rewrite seqZ_nil|].
  rewrite <- (Z2Nat.id n) by lia. revert o. induction (Z.to_nat n) as [|k IH]; intros o; [done|].
  rewrite seqZ_cons by lia. cbn [fmap list_fmap all_apart]. replace (Z.pred (Z.of_nat (S k))) with (Z.of_nat k) by lia.
  split; [|apply IH]. apply Forall_forall. intros q (i & -> & Hi%elem_of_seqZ)%list_elem_of_fmap. left. unfold kChunkSize. lia.
Qed.

(** The bytes of chunks. *)
Definition zero_chunk (m : Z → Z) (p : Z) : Prop := ∀ i, 0 ≤ i < kChunkSize → m (p + i) = 0.
Definition same_chunks (l : list Z) (m m' : Z → Z) : Prop := ∀ p i, p ∈ l → 0 ≤ i < kChunkSize → m' (p + i) = m (p + i).

Lemma same_chunks_trans l m1 m2 m3 : same_chunks l m1 m2 → same_chunks l m2 m3 → same_chunks l m1 m3.
Proof. intros H12 H23 p i Hp Hi. by rewrite H23, H12. Qed.

Lemma zero_blit m base len p : zero_chunk m p → zero_chunk (blit m base (λ _, 0) len) p.
Proof. intros Hz i Hi. unfold blit. case_if; [done|by apply Hz]. Qed.

Lemma blit_zero m p : zero_chunk (blit m p (λ _, 0) kChunkSize) p.
Proof. intros i Hi. unfold blit. bool_cases; done. Qed.

Lemma same_blit l m base len : (∀ p, p ∈ l → p + kChunkSize ≤ base ∨ base + len ≤ p) →
  same_chunks l m (blit m base (λ _, 0) len).
Proof. intros Hl p i Hp Hi. destruct (Hl p Hp); unfold blit; bool_cases; done. Qed.
