(* ===== verification/BackingInv.v ===== *)
(** * The host backing hands out each chunk once, zero

    Who holds the chunks that are not idle, the invariant of the backing with its
    holders, and that every call and every phase of a release keeps it. A release
    clears its chunk between two critical sections: the phases are steps of their
    own, so that any interleaving of threads is covered. *)

From stdpp Require Import strings.
From S2P Require Import Prelude Chunks Text HostGuard Backing.

#[local] Open Scope Z_scope.

(** ** Holders *)

Record Users := mkUsers {
  heap_out : list Z;         (* heap chunks in use *)
  file_out : list Z;         (* chunks of the spill file in use *)
  parent_out : list Z;       (* chunks of a file inherited over fork() *)
  clearing : list (Z * Z);   (* being released: to be cleared up to a byte, *)
  cleared : list Z;          (* cleared, *)
  leaving : list Z;          (* and past the pool's room *)
}.

Definition in_use (u : Users) : list Z := heap_out u ++ file_out u ++ parent_out u.
Definition releasing (u : Users) : list Z := (clearing u).*1 ++ cleared u ++ leaving u.

(** The part of the current arena that is not carved yet. *)
Definition arena_rest (s : State) : list Z :=
  (λ i, arena_next s + i * kChunkSize) <$> seqZ 0 ((arena_end s - arena_next s) / kChunkSize).
Definition heap_idle (s : State) : list Z := pool s ++ cold s ++ arena_rest s.
Definition heap_all (s : State) (u : Users) : list Z := heap_out u ++ releasing u ++ heap_idle s.
Definition all_chunks (s : State) (u : Users) : list Z := heap_all s u ++ file_out u ++ free_file s ++ parent_out u.

(** ** Slices of a file as ranges *)

Definition is_base (s : State) (b : Z) : Prop := is_Some (slices s !! b) ∨ is_Some (inherited s !! b).
Definition in_range (sl : gmap Z Z) (p : Z) : Prop := ∃ b, is_Some (sl !! b) ∧ b ≤ p ∧ p + kChunkSize ≤ b + kSliceBytes.
Definition clear_of (sl : gmap Z Z) (p : Z) : Prop := ∀ b, is_Some (sl !! b) → p + kChunkSize ≤ b ∨ b + kSliceBytes ≤ p.
Definition spread (sl : gmap Z Z) : Prop :=
  ∀ b b', is_Some (sl !! b) → is_Some (sl !! b') → b = b' ∨ b + kSliceBytes ≤ b' ∨ b' + kSliceBytes ≤ b.

Lemma in_slices_clear sl p : clear_of sl p → in_slices sl p = None.
Proof.
  intros Hc. unfold in_slices. pose proof (floor_entry_spec sl p) as Hf.
  destruct (floor_entry sl p) as [[b off]|]; [|done]. destruct Hf as (Hb & Hle & _).
  destruct (Hc b ltac:(eauto)); unfold kChunkSize in *; bool_cases; done.
Qed.

Lemma in_slices_range sl p : spread sl → in_range sl p → is_Some (in_slices sl p).
Proof.
  intros Hs (b & Hb & Hle & Hp). unfold in_slices. pose proof (floor_entry_spec sl p) as Hf.
  destruct (floor_entry sl p) as [[b' off]|].
  - destruct Hf as (Hb' & Hle' & Hmax). specialize (Hmax b Hb Hle). destruct (Hs b b' Hb ltac:(eauto)); subst;
      unfold kSliceBytes, kSliceChunks, kChunkSize in *; bool_cases; eauto.
  - specialize (Hf b Hb). lia.
Qed.

(** ** The invariant *)

Definition chunk_tail_zero (m : Z → Z) (cd : Z * Z) : Prop := ∀ i, 0 ≤ i < kChunkSize → cd.2 ≤ i → m (cd.1 + i) = 0.

Record Inv (s : State) (u : Users) : Prop := mkInv {
  iv_apart : all_apart (all_chunks s u);
  iv_idle_zero : Forall (zero_chunk (pmem s)) (heap_idle s);
  iv_file_zero : Forall (zero_chunk (pmem s)) (free_file s);
  iv_cleared_zero : Forall (zero_chunk (pmem s)) (cleared u);
  iv_promise : Forall (chunk_tail_zero (pmem s)) (clearing u);
  iv_ram : ram s = kChunkSize * Z.of_nat (length (heap_out u));
  iv_spill : spill s = kChunkSize * Z.of_nat (length (file_out u));
  iv_pending : pool_pending s = Z.of_nat (length (clearing u)) + Z.of_nat (length (cleared u));
  iv_heap : Forall (λ p, clear_of (slices s) p ∧ clear_of (inherited s) p) (heap_all s u);
  iv_file : Forall (in_range (slices s)) (file_out u ++ free_file s);
  iv_parent : Forall (in_range (inherited s)) (parent_out u);
  iv_bases : ∀ b b', is_base s b → is_base s b' → b = b' ∨ b + kSliceBytes ≤ b' ∨ b' + kSliceBytes ≤ b;
  iv_both : slices s ##ₘ inherited s;
  iv_closed : fd s = false → slices s = ∅;
  iv_arena : (kChunkSize | arena_end s - arena_next s) ∧ arena_next s ≤ arena_end s;
}.

(** Two states with the same chunks: only their place among the idle ones of the
    heap and the guard's and the configuration's members differ. *)
Record same_view (s s' : State) : Prop := mkSameView {
  sv_ram : ram s' = ram s;
  sv_spill : spill s' = spill s;
  sv_fd : fd s' = fd s;
  sv_owner : owner s' = owner s;
  sv_slices : slices s' = slices s;
  sv_free : free_file s' = free_file s;
  sv_inherited : inherited s' = inherited s;
  sv_heap : pool s' ++ cold s' ≡ₚ pool s ++ cold s;
  sv_next : arena_next s' = arena_next s;
  sv_end : arena_end s' = arena_end s;
  sv_pending : pool_pending s' = pool_pending s;
  sv_mem : ∀ a, pmem s' a = pmem s a;
}.

#[global] Instance same_view_po : PreOrder same_view.
Proof.
  split; [by intros s|]. intros s1 s2 s3 [] []. constructor; try congruence. by etrans.
Qed.

Lemma view_idle s s' : same_view s s' → heap_idle s' ≡ₚ heap_idle s.
Proof.
  intros []. unfold heap_idle, arena_rest. rewrite sv_next0, sv_end0, !(assoc_L (++)). by f_equiv.
Qed.

Lemma zero_chunk_ext (m m' : Z → Z) l : (∀ a, m' a = m a) → Forall (zero_chunk m) l → Forall (zero_chunk m') l.
Proof. intros Hm Hl. eapply Forall_impl; [done|]. intros p Hz i Hi. rewrite Hm. by apply Hz. Qed.

Lemma Inv_view s s' u : same_view s s' → Inv s u → Inv s' u.
Proof.
  intros Hv Hi. pose proof (view_idle s s' Hv) as Hp. destruct Hv, Hi. unfold is_base, all_chunks, heap_all in *. constructor.
  all: unfold is_base, all_chunks, heap_all; rewrite ?Hp, ?sv_free0, ?sv_ram0, ?sv_spill0, ?sv_pending0, ?sv_slices0, ?sv_inherited0, ?sv_fd0, ?sv_next0, ?sv_end0; try done.
  1-3: by apply (zero_chunk_ext (pmem s)).
  eapply Forall_impl; [done|]. intros cd Hz i Hr Hd. rewrite sv_mem0. by apply Hz.
Qed.

(** ** The guard and the pool *)

(** Clearing a chunk that is zero changes nothing. *)
Lemma blit_zero_same m c : zero_chunk m c → ∀ a, blit m c (λ _, 0) kChunkSize a = m a.
Proof.
  intros Hz a. unfold blit. bool_cases; try done. specialize (Hz (a - c) ltac:(lia)).
  by replace (c + (a - c)) with a in Hz by lia.
Qed.

Lemma make_all_cold_spec l s : Forall (zero_chunk (pmem s)) l →
  ∃ m, make_all_cold l s = Ret tt (set_cold (rev l ++ cold s) (set_pmem m s)) ∧ ∀ a, m a = pmem s a.
Proof.
  revert s. induction l as [|c l IH]; intros s Hz; cbn [make_all_cold].
  - exists (pmem s). split; [by destruct s|done].
  - apply Forall_cons in Hz as [Hc Hl]. unfold make_cold, zero_range, modify, bind.
    set (s1 := set_cold _ _). assert (Hm : ∀ a, pmem s1 a = pmem s a) by (intros a; by apply blit_zero_same).
    destruct (IH s1) as (m & E & Em); [by apply (zero_chunk_ext (pmem s))|]. rewrite E. exists m. split.
    + cbn [rev]. by rewrite <- (assoc_L (++)).
    + intros a. by rewrite Em, Hm.
Qed.

Lemma drain_pool_spec s : Forall (zero_chunk (pmem s)) (pool s) →
  ∃ s', drain_pool s = Ret (Z.of_nat (length (pool s))) s' ∧ same_view s s' ∧ pool s' = [] ∧
    config s' = config s ∧ configured s' = configured s.
Proof.
  intros Hz. unfold drain_pool, get, bind at 1.
  destruct (make_all_cold_spec (rev (pool s)) s) as (m & E & Em); [by rewrite <- Permutation_rev|].
  rewrite (bind_Ret _ _ _ _ _ E). unfold modify, bind, ret. eexists. split; [done|]. split; [|done].
  constructor; cbn; try done. by rewrite rev_involutive.
Qed.

Lemma look_spec fs s : ∃ l lw, look fs s = Ret tt (set_guard (since_check s) (samples s + 1) lw l s).
Proof.
  unfold look, get, bind. destruct (look_at_host_total fs (guard_config (config s))) as [[l lw] ->]. eauto.
Qed.

(** What the guard may change besides its own members: an empty pool. *)
Definition guarded (s s' : State) : Prop :=
  same_view s s' ∧ config s' = config s ∧ configured s' = configured s ∧ (pool s' = pool s ∨ pool s' = []).

Lemma look_with_pool_spec o s : Forall (zero_chunk (pmem s)) (pool s) →
  ∃ s', look_at_host_with_pool o s = Ret tt s' ∧ guarded s s'.
Proof.
  intros Hz. unfold look_at_host_with_pool. destruct (look_spec (o_files o) s) as (l & lw & E).
  rewrite (bind_Ret _ _ _ _ _ E). unfold get. unfold bind at 1.
  set (s1 := set_guard _ _ _ _ _). unfold guarded. case_if; [|exists s1; split_and!; try done; by left].
  destruct (drain_pool_spec s1 Hz) as (s2 & E2 & Hv & Hp & Hc & Hcd). rewrite (bind_Ret _ _ _ _ _ E2).
  destruct (look_spec (o_files_again o) s2) as (l2 & lw2 & ->). eexists. split; [done|]. split_and!; try done.
  - destruct Hv. by constructor.
  - by right.
Qed.

Lemma host_is_short_spec o s : Forall (zero_chunk (pmem s)) (pool s) →
  ∃ b s', host_is_short o s = Ret b s' ∧ guarded s s'.
Proof.
  intros Hz. unfold host_is_short, get. unfold bind at 1.
  assert (Hl : ∃ s1, (if since_check s =? 0 then look_at_host_with_pool o else ret tt) s = Ret tt s1 ∧ guarded s s1).
  { case_if; [by apply look_with_pool_spec|]. exists s. unfold guarded. split_and!; try done. by left. }
  destruct Hl as (s1 & E & Hg). rewrite (bind_Ret _ _ _ _ _ E). unfold bind, modify, ret. do 2 eexists. split; [done|].
  destruct Hg as (Hv & ? & ? & ?). unfold guarded. split_and!; try done. destruct Hv. by constructor.
Qed.

(** ** A forked child *)

Definition forked (o : Os) (s : State) : bool := fd s && negb (owner s =? o_pid o).
(** The child's holders: the chunks of the file are the parent's. *)
Definition adopted (o : Os) (s : State) (u : Users) : Users :=
  if forked o s
  then mkUsers (heap_out u) [] (file_out u ++ parent_out u) (clearing u) (cleared u) (leaving u) else u.

Lemma adopted_in_use o s u : in_use (adopted o s u) ≡ₚ in_use u.
Proof. unfold adopted, in_use. case_if; cbn; [|done]. done. Qed.
Lemma adopted_releasing o s u : releasing (adopted o s u) = releasing u.
Proof. unfold adopted. by case_if. Qed.

(** What a mapping of the kernel's is: memory nothing else is in. *)
Definition fresh (s : State) (u : Users) (base len : Z) : Prop :=
  (∀ p, p ∈ all_chunks s u → p + kChunkSize ≤ base ∨ base + len ≤ p) ∧
  (∀ b, is_base s b → b + kSliceBytes ≤ base ∨ base + len ≤ b).
Definition os_ok (o : Os) (s : State) (u : Users) : Prop :=
  (∀ m, o_mmap_arena o = Some m → fresh s u m (kArenaBytes + kHugePage)) ∧
  (∀ b, o_mmap_slice o = Some b → fresh s u b kSliceBytes).

Lemma fresh_mono s u s' u' base len : all_chunks s' u' ⊆ all_chunks s u → (∀ b, is_base s' b → is_base s b) →
  fresh s u base len → fresh s' u' base len.
Proof. intros Ha Hb [H1 H2]. split; eauto. Qed.
Lemma os_ok_mono o s u s' u' : all_chunks s' u' ⊆ all_chunks s u → (∀ b, is_base s' b → is_base s b) →
  os_ok o s u → os_ok o s' u'.
Proof. intros Ha Hb [H1 H2]. split; intros; eapply fresh_mono; eauto. Qed.

Lemma clear_of_union sl inh p : clear_of sl p → clear_of inh p → clear_of (inh ∪ sl) p.
Proof. intros H1 H2 b [? [Hb|[_ Hb]]%lookup_union_Some_raw]; eauto. Qed.
Lemma in_range_mono sl sl' p : (∀ b, is_Some (sl !! b) → is_Some (sl' !! b)) → in_range sl p → in_range sl' p.
Proof. intros H (b & Hb & ?). exists b. auto. Qed.
Lemma clear_of_empty p : clear_of ∅ p.
Proof. intros b [? Hb]. by rewrite lookup_empty in Hb. Qed.

Lemma adopt_spec o s u : Inv s u → ∃ s', adopt_after_fork o s = Ret tt s' ∧
  Inv s' (adopted o s u) ∧ (os_ok o s u → os_ok o s' (adopted o s u)) ∧ forked o s' = false ∧
  pmem s' = pmem s ∧ config s' = config s ∧ configured s' = configured s ∧ ram s' = ram s ∧ pool s' = pool s.
Proof.
  intros Hi. unfold adopt_after_fork, modify. eexists. split; [done|]. unfold adopted, forked.
  destruct (fd s) eqn:Efd; cbn [negb orb andb]; [|by rewrite Efd].
  destruct (owner s =? o_pid o) eqn:Eo; cbn [negb orb andb]; [by rewrite Efd, Eo|].
  set (s' := set_file _ _ _ _ _ _ _ _). set (u' := mkUsers _ _ _ _ _ _).
  assert (Hsub : all_chunks s' u' ⊆+ all_chunks s u).
  { unfold all_chunks, heap_all. cbn. solve_submseteq. }
  assert (Hbase : ∀ b, is_base s' b → is_base s b).
  { intros b [[? Hb]|[? [Hb|[_ Hb]]%lookup_union_Some_raw]]; cbn in *; [by rewrite lookup_empty in Hb|right|left]; eauto. }
  split; [|split_and!; try done].
  2: { intros Ho. apply (os_ok_mono o s u); [|done|done]. intros p Hp. by eapply elem_of_submseteq. }
  destruct Hi. constructor; cbn; try done.
  - by eapply all_apart_sub.
  - eapply Forall_impl; [done|]. intros p [? ?]. split; [apply clear_of_empty|by apply clear_of_union].
  - apply Forall_app. split.
    + apply Forall_app in iv_file0 as [Hf _]. eapply Forall_impl; [done|]. intros p. apply in_range_mono.
      intros b [x Hb]. exists x. by apply lookup_union_Some_r.
    + eapply Forall_impl; [done|]. intros p. apply in_range_mono.
      intros b [x Hb]. exists x. by apply lookup_union_Some_l.
  - intros b b' Hb Hb'. apply iv_bases0; auto.
  - apply map_disjoint_empty_l.
Qed.

Lemma configured_view o s : ∃ s', configure_from_env o s = Ret tt s' ∧ same_view s s' ∧ pool s' = pool s ∧
  (configured s = true → config s' = config s).
Proof. unfold configure_from_env, modify. eexists. split; [done|]. by destruct (configured s). Qed.

Lemma forked_view o s s' : same_view s s' → forked o s' = forked o s.
Proof. intros []. unfold forked. congruence. Qed.
Lemma adopted_view o s s' u : same_view s s' → adopted o s' u = adopted o s u.
Proof. intros H. unfold adopted. by rewrite (forked_view o s s'). Qed.
Lemma os_ok_view o s s' u : same_view s s' → os_ok o s u → os_ok o s' u.
Proof.
  intros H. pose proof (view_idle _ _ H) as Hp. destruct H. apply os_ok_mono.
  - unfold all_chunks, heap_all. intros p. rewrite sv_free0. by rewrite Hp.
  - intros b. unfold is_base. by rewrite sv_slices0, sv_inherited0.
Qed.

(** The state in which acquire takes its chunk. *)
Record ready (o : Os) (s : State) (u : Users) (s1 : State) : Prop := mkReady {
  rd_inv : Inv s1 (adopted o s u);
  rd_os : os_ok o s u → os_ok o s1 (adopted o s u);
  rd_mem : ∀ a, pmem s1 a = pmem s a;
  rd_ram : ram s1 = ram s;
  rd_pool : pool s1 = pool s ∨ pool s1 = [];
  rd_config : configured s = true → config s1 = config s;
}.

Lemma ready_view o s u s1 s2 : guarded s1 s2 → ready o s u s1 → ready o s u s2.
Proof.
  intros (Hv & Hc & _ & Hp) []. constructor.
  - by apply (Inv_view s1).
  - intros Ho. apply (os_ok_view o s1); auto.
  - intros a. by rewrite (sv_mem _ _ Hv).
  - by rewrite (sv_ram _ _ Hv).
  - destruct Hp as [->| ->]; auto.
  - intros. rewrite Hc. auto.
Qed.

(** It goes to the heap without a spill directory, or within the RAM limit. *)
Definition heap_allowed (s : State) : Prop :=
  spill_dir (config s) = ""%string ∨ ram s + kChunkSize ≤ ram_limit_bytes (config s).

Lemma choose_spill_spec o s u : Inv s u →
  wp (choose_spill o s) (λ sp s1, ready o s u s1 ∧ (sp = false → heap_allowed s1)) (λ _ s1, ready o s u s1).
Proof.
  intros Hi. unfold choose_spill. destruct (configured_view o s) as (s1 & E1 & Hv1 & Hp1 & Hc1).
  rewrite (bind_Ret _ _ _ _ _ E1).
  destruct (adopt_spec o s1 u (Inv_view _ _ _ Hv1 Hi)) as (s2 & E2 & Hi2 & Ho2 & _ & Hm2 & Hc2 & _ & Hr2 & Hp2).
  rewrite (adopted_view o s s1) in * by done. rewrite (bind_Ret _ _ _ _ _ E2). unfold get. unfold bind at 1.
  set (sp := negb _ && _). set (s3 := set_spilling false s2).
  assert (Hrd : ready o s u s3).
  { constructor; cbn.
    - destruct Hi2. by constructor.
    - intros Ho. apply Ho2. by apply (os_ok_view o s).
    - intros a. by rewrite Hm2, (sv_mem _ _ Hv1).
    - by rewrite Hr2, (sv_ram _ _ Hv1).
    - left. congruence.
    - intros H. by rewrite Hc2, Hc1. }
  rewrite (bind_Ret _ _ _ tt s3) by done.
  assert (Hsp : sp = false → heap_allowed s3).
  { subst sp. unfold heap_allowed. cbn. case_bool_decide; cbn; intros; zify_bool; auto. }
  destruct sp; [by split|]. case_if; [by split; auto|].
  destruct (host_is_short_spec o s3) as (short & s4 & E4 & Hg).
  { pose proof (iv_idle_zero _ _ (rd_inv _ _ _ _ Hrd)) as Hz. by apply Forall_app in Hz as [Hz _]. }
  rewrite (bind_Ret _ _ _ _ _ E4). pose proof (ready_view _ _ _ _ _ Hg Hrd) as Hrd4.
  assert (Ha : heap_allowed s4).
  { destruct Hg as (Hv & Hc & _). unfold heap_allowed. rewrite Hc, (sv_ram _ _ Hv). by apply Hsp. }
  destruct short; cbn [negb]; [|by split]. case_if; [done|]. unfold modify, bind, ret. cbn [wp]. split; [|done].
  eapply ready_view; [|apply Hrd4]. split_and!; try done. by left.
Qed.

(** ** Taking a chunk *)

Definition add_heap (c : Z) (u : Users) : Users :=
  mkUsers (c :: heap_out u) (file_out u) (parent_out u) (clearing u) (cleared u) (leaving u).
Definition add_file (c : Z) (u : Users) : Users :=
  mkUsers (heap_out u) (c :: file_out u) (parent_out u) (clearing u) (cleared u) (leaving u).
Definition took (s : State) (c : Z) (u : Users) : Users :=
  match file_offset s c with Some _ => add_file c u | None => add_heap c u end.
Definition held (u : Users) : list Z := in_use u ++ releasing u.

Lemma held_all s u : held u ⊆+ all_chunks s u.
Proof. unfold held, in_use, all_chunks, heap_all. solve_submseteq. Qed.

Lemma promise_blit m base len l : Forall (chunk_tail_zero m) l → Forall (chunk_tail_zero (blit m base (λ _, 0) len)) l.
Proof. intros Hl. eapply Forall_impl; [done|]. intros cd Hz i Hi Hd. unfold blit. case_if; [done|by apply Hz]. Qed.
Lemma zeros_blit m base len l : Forall (zero_chunk m) l → Forall (zero_chunk (blit m base (λ _, 0) len)) l.
Proof. intros Hl. eapply Forall_impl; [done|]. intros p. apply zero_blit. Qed.

(** Zeroing keeps the invariant, whatever the range. *)
Lemma Inv_zero_range s u base len : Inv s u → Inv (set_pmem (blit (pmem s) base (λ _, 0) len) s) u.
Proof. intros []. constructor; cbn; try done; (by apply zeros_blit) || by apply promise_blit. Qed.

Lemma fresh_same s u base len : fresh s u base len →
  same_chunks (held u) (pmem s) (blit (pmem s) base (λ _, 0) len).
Proof. intros [Hf _]. apply same_blit. intros p Hp. apply Hf. eapply elem_of_submseteq; [done|apply held_all]. Qed.

(** An idle chunk of the heap is taken. *)
Lemma take_idle s s' u c : Inv s u → heap_idle s ≡ₚ c :: heap_idle s' → ram s' = ram s + kChunkSize →
  spill s' = spill s → fd s' = fd s → slices s' = slices s → free_file s' = free_file s → inherited s' = inherited s →
  pool_pending s' = pool_pending s → pmem s' = pmem s →
  (kChunkSize | arena_end s' - arena_next s') ∧ arena_next s' ≤ arena_end s' →
  Inv s' (add_heap c u) ∧ zero_chunk (pmem s') c.
Proof.
  intros [] Hp Er Es Ef Esl Eff Ei Ep Em Ha. rewrite Hp in *. apply Forall_cons in iv_idle_zero0 as [Hc Hz].
  split; [|by rewrite Em].
  assert (Hall : all_chunks s' (add_heap c u) ≡ₚ all_chunks s u).
  { unfold all_chunks, heap_all. rewrite Hp, Eff. cbn. unfold releasing. cbn. solve_Permutation. }
  assert (Hh : heap_all s' (add_heap c u) ≡ₚ heap_all s u).
  { unfold heap_all. rewrite Hp. cbn. unfold releasing. cbn. solve_Permutation. }
  constructor; rewrite ?Em, ?Es, ?Ef, ?Esl, ?Eff, ?Ei, ?Ep; try done.
  - by rewrite Hall.
  - rewrite Er, iv_ram0. cbn [add_heap heap_out length]. lia.
  - by rewrite Hh.
  - intros b b'. unfold is_base. rewrite Esl, Ei. apply iv_bases0.
Qed.

Lemma arena_rest_step s : (kChunkSize | arena_end s - arena_next s) → arena_next s < arena_end s →
  arena_rest s = arena_next s :: arena_rest (set_arena (arena_next s + kChunkSize) (arena_end s) s) ∧
  arena_next s + kChunkSize ≤ arena_end s.
Proof.
  intros [k Hk] Hlt. unfold arena_rest. cbn [set_arena arena_next arena_end].
  assert (0 < k) by (unfold kChunkSize in Hk; lia).
  rewrite Hk, Z.div_mul by done. replace (arena_end s - _) with ((k - 1) * kChunkSize) by lia. rewrite Z.div_mul by done.
  split; [|unfold kChunkSize in *; lia]. rewrite seqZ_cons by lia. cbn [fmap list_fmap]. f_equal; [lia|].
  replace (Z.pred k) with (k - 1) by lia. apply fmap_seqZ_ext. intros. lia.
Qed.

(** The start of the arena in its mapping. *)
Lemma arena_base m : let base := Z.land (m + kHugePage - 1) (Z.lnot (kHugePage - 1)) in
  m ≤ base ∧ base + kArenaBytes ≤ m + (kArenaBytes + kHugePage).
Proof.
  intros base. assert (E : base = (m + kHugePage - 1) - (m + kHugePage - 1) mod kHugePage).
  { subst base. rewrite <- Z.ldiff_land. change (kHugePage - 1) with (Z.ones 21). rewrite Z.ldiff_ones_r by lia.
    rewrite Z.shiftl_mul_pow2, Z.shiftr_div_pow2 by lia. change (2 ^ 21) with kHugePage.
    pose proof (Z.div_mod (m + Z.ones 21) kHugePage ltac:(done)). change (Z.ones 21) with (kHugePage - 1) in *.
    replace (m + kHugePage - 1) with (m + (kHugePage - 1)) by lia. lia. }
  pose proof (Z.mod_pos_bound (m + kHugePage - 1) kHugePage ltac:(done)). rewrite E. unfold kHugePage in *. lia.
Qed.

(** Chunks inside a fresh range. *)
Lemma fresh_apart s u base len p : fresh s u base len → base ≤ p → p + kChunkSize ≤ base + len →
  (∀ q, q ∈ all_chunks s u → apart p q) ∧ (∀ b, is_base s b → p + kChunkSize ≤ b ∨ b + kSliceBytes ≤ p).
Proof. intros [H1 H2] ? ?. split; [intros q Hq; destruct (H1 q Hq)|intros b Hb; destruct (H2 b Hb)]; unfold apart; lia. Qed.

Definition carve (base n : Z) : list Z := (λ i, base + i * kChunkSize) <$> seqZ 0 n.

Lemma carve_elem base n p : p ∈ carve base n → ∃ i, p = base + i * kChunkSize ∧ 0 ≤ i < n.
Proof. intros (i & -> & Hi%elem_of_seqZ)%list_elem_of_fmap. exists i. lia. Qed.

Lemma carve_fresh s u base len b n : fresh s u base len → base ≤ b → b + n * kChunkSize ≤ base + len →
  all_apart (all_chunks s u) → all_apart (carve b n ++ all_chunks s u) ∧
  Forall (λ p, clear_of (slices s) p ∧ clear_of (inherited s) p) (carve b n).
Proof.
  intros Hf Hb Hn Ha.
  assert (Hin : ∀ p, p ∈ carve b n → base ≤ p ∧ p + kChunkSize ≤ base + len).
  { intros p (i & -> & Hi)%carve_elem. unfold kChunkSize in *. lia. }
  split.
  - apply all_apart_app. split_and!; [apply all_apart_seq|done|]. intros p q Hp Hq. destruct (Hin p Hp).
    by eapply fresh_apart.
  - apply Forall_forall. intros p Hp. destruct (Hin p Hp) as [H1 H2].
    destruct (fresh_apart _ _ _ _ _ Hf H1 H2) as [_ Hs]. split; intros x Hx; apply Hs; [by left|by right].
Qed.

Lemma carve_zero m base len b n : base ≤ b → b + n * kChunkSize ≤ base + len →
  Forall (zero_chunk (blit m base (λ _, 0) len)) (carve b n).
Proof.
  intros. apply Forall_forall. intros p (i & -> & Hi)%carve_elem j Hj. unfold blit, kChunkSize in *. bool_cases; done.
Qed.

Definition new_arena (m : Z) (s : State) : State :=
  let base := Z.land (m + kHugePage - 1) (Z.lnot (kHugePage - 1)) in
  set_arena base (base + kArenaBytes) (set_pmem (blit (pmem s) m (λ _, 0) (kArenaBytes + kHugePage)) s).

Lemma new_arena_spec s u m : Inv s u → arena_next s = arena_end s → fresh s u m (kArenaBytes + kHugePage) →
  Inv (new_arena m s) u ∧ same_chunks (held u) (pmem s) (pmem (new_arena m s)) ∧
  arena_next (new_arena m s) < arena_end (new_arena m s).
Proof.
  intros Hi E Hf. unfold new_arena. destruct (arena_base m) as [Hb1 Hb2]. set (base := Z.land _ _) in *.
  pose proof (Inv_zero_range s u m (kArenaBytes + kHugePage) Hi) as Hz. set (s1 := set_pmem _ s) in *.
  split_and!; [|by apply fresh_same|cbn; unfold kArenaBytes; lia].
  assert (H0 : arena_rest s1 = []).
  { unfold arena_rest. cbn. rewrite E, Z.sub_diag. done. }
  assert (H1 : arena_rest (set_arena base (base + kArenaBytes) s1) = carve base 1024).
  { unfold arena_rest. cbn [set_arena arena_next arena_end]. by replace (base + kArenaBytes - base) with (1024 * kChunkSize) by (unfold kArenaBytes, kChunkSize; lia). }
  assert (Hf1 : fresh s1 u m (kArenaBytes + kHugePage)) by done.
  destruct (carve_fresh s1 u m _ base 1024 Hf1) as [Ha Hc]; [done|unfold kChunkSize, kArenaBytes in *; lia|apply Hz|].
  pose proof (carve_zero (pmem s) m (kArenaBytes + kHugePage) base 1024 Hb1 ltac:(unfold kChunkSize, kArenaBytes in *; lia)) as Hcz.
  destruct Hz. constructor; cbn; try done.
  - eapply all_apart_perm; [|apply Ha]. unfold all_chunks, heap_all, heap_idle. rewrite H0, H1. cbn. solve_Permutation.
  - unfold heap_idle in *. rewrite H1. rewrite H0 in *. cbn in *. rewrite !Forall_app in *. tauto.
  - unfold heap_all, heap_idle in *. rewrite H1. rewrite H0 in *. cbn in *. rewrite !Forall_app in *. tauto.
  - unfold kArenaBytes. split; [|lia]. exists 1024. unfold kChunkSize. lia.
Qed.

Lemma take_arena s u : Inv s u → pool s = [] → cold s = [] → arena_next s < arena_end s →
  let s' := set_arena (arena_next s + kChunkSize) (arena_end s) (set_ram (ram s + kChunkSize) s) in
  Inv s' (add_heap (arena_next s) u) ∧ zero_chunk (pmem s') (arena_next s).
Proof.
  intros Hi Ep Ec Hlt s'. destruct (iv_arena _ _ Hi) as [Hd _]. destruct (arena_rest_step s Hd Hlt) as [E Hle].
  apply (take_idle s); try done.
  - unfold heap_idle. cbn. rewrite Ep, Ec. cbn. rewrite E. done.
  - cbn. split; [|done]. replace (arena_end s - _) with (arena_end s - arena_next s - kChunkSize) by lia.
    apply Z.divide_sub_r; [done|apply Z.divide_refl].
Qed.

(** What happens to the pool in a call: it is emptied, kept, or gives its last
    chunk to the caller. *)
Definition pool_shift (s s' : State) : Prop :=
  pool s' = [] ∨ (pool s' = pool s ∧ ram s' = ram s) ∨ ∃ c, pool s = c :: pool s' ∧ ram s' = ram s + kChunkSize.

Lemma acquire_heap_spec o s u : Inv s u → os_ok o s u →
  wp (acquire_heap o s)
    (λ c s', Inv s' (add_heap c u) ∧ zero_chunk (pmem s') c ∧ same_chunks (held u) (pmem s) (pmem s') ∧
       ram s' = ram s + kChunkSize ∧ pool_shift s s')
    (λ _ s', Inv s' u ∧ same_chunks (held u) (pmem s) (pmem s') ∧ ram s' = ram s ∧ pool_shift s s').
Proof.
  intros Hi [Ho _]. unfold acquire_heap. unfold get, modify at 1. unfold bind at 1 2. cbn [set_ram pool].
  destruct (pool s) as [|c rest] eqn:Ep.
  2: { unfold modify, bind, ret. cbn [wp]. apply and_assoc. split; [|split_and!; try done; right; right; by exists c]. apply (take_idle s); try done; [|apply Hi].
       unfold heap_idle. by rewrite Ep. }
  unfold arena_chunk, get. unfold bind at 1. cbn [set_ram cold].
  destruct (cold s) as [|c rest] eqn:Ec.
  2: { unfold modify, bind, ret. cbn [wp]. apply and_assoc. split; [|split_and!; try done; by left]. apply (take_idle s); try done; [|apply Hi].
       unfold heap_idle. cbn. by rewrite Ep, Ec. }
  cbn [set_ram arena_next arena_end]. destruct (Z.eqb_spec (arena_next s) (arena_end s)) as [E|Hne].
  - destruct (o_mmap_arena o) as [m|] eqn:Em.
    + destruct (new_arena_spec s u m Hi E (Ho m eq_refl)) as (Hi' & Hs & Hlt).
      unfold zero_range, modify, bind, ret. cbn [wp]. apply and_assoc. split; [|split_and!; try done; by left].
      exact (take_arena (new_arena m s) u Hi' Ep Ec Hlt).
    + unfold modify, bind. cbn [wp]. cbn [set_ram ram]. replace (ram s + kChunkSize - kChunkSize) with (ram s) by lia.
      split; [destruct Hi; by constructor|]. split_and!; try done. by left.
  - unfold modify, bind, ret. cbn [wp]. apply and_assoc. split; [|split_and!; try done; by left].
    apply (take_arena s u); try done. destruct (iv_arena _ _ Hi). lia.
Qed.

Definition new_slice (base : Z) (s : State) : State :=
  set_file (fd s) (owner s) (file_size s + kSliceBytes) (spill s) (<[base := file_size s]> (slices s))
    (slice_chunks base ++ free_file s) (inherited s) (set_pmem (blit (pmem s) base (λ _, 0) kSliceBytes) s).

Lemma new_slice_clear s u base p : fresh s u base kSliceBytes → p ∈ all_chunks s u → clear_of (slices s) p →
  clear_of (<[base := file_size s]> (slices s)) p.
Proof.
  intros [Hf _] Hp Hc b Hb. destruct (decide (b = base)) as [->|Hne]; [|apply Hc; by rewrite lookup_insert_ne in Hb by done].
  destruct (Hf p Hp); lia.
Qed.

Lemma new_slice_spec s u base : Inv s u → fd s = true → fresh s u base kSliceBytes →
  Inv (new_slice base s) u ∧ same_chunks (held u) (pmem s) (pmem (new_slice base s)).
Proof.
  intros Hi Hfd Hf. split; [|by apply fresh_same].
  pose proof (Inv_zero_range s u base kSliceBytes Hi) as Hz.
  destruct (carve_fresh s u base kSliceBytes base kSliceChunks Hf) as [Ha _]; [lia|unfold kSliceBytes; lia|apply Hi|].
  pose proof (carve_zero (pmem s) base kSliceBytes base kSliceChunks ltac:(lia) ltac:(unfold kSliceBytes; lia)) as Hcz.
  change (slice_chunks base) with (carve base kSliceChunks) in *.
  assert (Hnb : ¬ is_base s base).
  { intros Hb. destruct Hf as [_ Hf]. destruct (Hf base Hb); unfold kSliceBytes, kSliceChunks, kChunkSize in *; lia. }
  assert (Hmono : ∀ p, in_range (slices s) p → in_range (<[base:=file_size s]> (slices s)) p).
  { intros p. apply in_range_mono. intros b Hb. destruct (decide (b = base)) as [->|]; [by rewrite lookup_insert_eq|by rewrite lookup_insert_ne]. }
  unfold new_slice. destruct Hz. constructor; cbn; try done.
  - eapply all_apart_perm; [|apply Ha]. unfold all_chunks, heap_all. cbn. change (slice_chunks base) with (carve base kSliceChunks).
    generalize (carve base kSliceChunks). intros l. unfold heap_idle, arena_rest. cbn. solve_Permutation.
  - apply Forall_app. split; [apply Hcz|done].
  - rewrite Forall_forall in iv_heap0 |- *. intros p Hp. destruct (iv_heap0 p Hp) as [? ?]. split; [|done].
    apply (new_slice_clear s u); try done. unfold all_chunks. apply elem_of_app. by left.
  - rewrite !Forall_app. apply Forall_app in iv_file0 as [H1 H2].
    split; [by eapply Forall_impl|]. split; [|by eapply Forall_impl].
    apply Forall_forall. intros p (i & -> & Hi')%carve_elem. exists base. rewrite lookup_insert_eq.
    unfold kSliceBytes, kChunkSize in *. split; [done|lia].
  - assert (Hbs : ∀ b, is_base (new_slice base s) b → b = base ∨ is_base s b).
    { intros b [Hb|Hb]; cbn in Hb; [|by right; right]. destruct (decide (b = base)) as [->|]; [by left|].
      right. left. by rewrite lookup_insert_ne in Hb. }
    intros b b' Hb Hb'. destruct Hf as [_ Hf]. destruct (Hbs b Hb) as [->|H1], (Hbs b' Hb') as [->|H2]; [by left| | |by apply iv_bases0].
    + destruct (Hf b' H2); lia.
    + destruct (Hf b H1); lia.
  - apply map_disjoint_insert_l. split; [|done]. destruct (inherited s !! base) eqn:E; [|done].
    destruct Hnb. right. by rewrite E.
  - congruence.
Qed.

Lemma open_file_inv s u own : Inv s u → fd s = false →
  Inv (set_file true own (file_size s) (spill s) (slices s) (free_file s) (inherited s) s) u.
Proof. intros [] E. by constructor. Qed.

(** What a call that ends in no chunk leaves. *)
Definition kept (s : State) (u : Users) (s' : State) : Prop :=
  Inv s' u ∧ same_chunks (held u) (pmem s) (pmem s') ∧ ram s' = ram s ∧ pool s' = pool s.

Lemma grow_spec o s u : Inv s u → os_ok o s u →
  wp (grow o s) (λ _ s', kept s u s' ∧ free_file s' ≠ []) (λ _ s', kept s u s').
Proof.
  intros Hi [_ Ho]. unfold grow, get. unfold bind at 1.
  assert (Hf : (if fd s then ret tt else if o_tmpfile o || o_mkostemp o
     then modify (λ s, set_file true (o_pid o) (file_size s) (spill s) (slices s) (free_file s) (inherited s) s)
     else throw OutOfMemory) s = Exn (Error OutOfMemory) s ∨
    ∃ s1, (if fd s then ret tt else if o_tmpfile o || o_mkostemp o
     then modify (λ s, set_file true (o_pid o) (file_size s) (spill s) (slices s) (free_file s) (inherited s) s)
     else throw OutOfMemory) s = Ret tt s1 ∧ Inv s1 u ∧ fd s1 = true ∧ pmem s1 = pmem s ∧ ram s1 = ram s ∧ pool s1 = pool s ∧
      ∀ b, fresh s u b kSliceBytes → fresh s1 u b kSliceBytes).
  { destruct (fd s) eqn:E; [right; by exists s|]. case_if; [right|by left].
    eexists. split; [done|]. by split; [apply open_file_inv|]. }
  destruct Hf as [E|(s1 & E & Hi1 & Hfd & Hm & Hr & Hp & Hfr)].
  { rewrite (bind_Exn _ _ _ _ _ E). by split_and!. }
  rewrite (bind_Ret _ _ _ _ _ E).
  assert (Hk : kept s u s1) by (split_and!; [done| |done|done]; by rewrite Hm).
  case_if; [done|]. destruct (o_mmap_slice o) as [base|] eqn:Eb; [|done].
  destruct (new_slice_spec s1 u base Hi1 Hfd (Hfr base (Ho base eq_refl))) as [Hi2 Hs].
  unfold zero_range, modify, bind. cbn [wp]. rewrite Hm in Hs. split; [by split_and!|].
  cbn [set_file free_file]. unfold slice_chunks. rewrite seqZ_cons by done. done.
Qed.

(** A free chunk of the file is taken. *)
Lemma take_file s u c rest : Inv s u → free_file s = c :: rest →
  Inv (set_file (fd s) (owner s) (file_size s) (spill s + kChunkSize) (slices s) rest (inherited s) s) (add_file c u) ∧
  zero_chunk (pmem s) c.
Proof.
  intros [] E. rewrite E in *. apply Forall_cons in iv_file_zero0 as [Hc Hz]. split; [|done].
  assert (Hall : all_chunks (set_file (fd s) (owner s) (file_size s) (spill s + kChunkSize) (slices s) rest (inherited s) s) (add_file c u)
    ≡ₚ all_chunks s u).
  { unfold all_chunks, heap_all. rewrite E. cbn. unfold releasing, heap_idle, arena_rest. cbn. solve_Permutation. }
  constructor; try done.
  - by rewrite Hall.
  - cbn [set_file spill]. rewrite iv_spill0. cbn [add_file file_out length]. lia.
  - cbn. rewrite Forall_app, Forall_cons in iv_file0. rewrite Forall_cons, Forall_app. tauto.
Qed.

Lemma acquire_file_spec o s u : Inv s u → os_ok o s u →
  wp (acquire_file o s)
    (λ c s', Inv s' (add_file c u) ∧ zero_chunk (pmem s') c ∧ same_chunks (held u) (pmem s) (pmem s') ∧ ram s' = ram s ∧ pool s' = pool s)
    (λ _ s', kept s u s').
Proof.
  intros Hi Ho. unfold acquire_file, get. unfold bind at 1. apply wp_bind.
  assert (Hg : wp (match free_file s with [] => grow o | _ => ret tt end s)
    (λ _ s', kept s u s' ∧ free_file s' ≠ []) (λ _ s', kept s u s')).
  { destruct (free_file s) eqn:E.
    - eapply wp_mono; [by apply grow_spec|done|done].
    - cbn. rewrite E. by split_and!. }
  eapply wp_mono; [apply Hg| |done]. intros [] s1 [(Hi1 & Hs & Hr & Hp) Hne]. unfold bind at 1.
  destruct (free_file s1) as [|c rest] eqn:E; [done|]. case_if; [by split_and!|].
  destruct (take_file s1 u c rest Hi1 E) as [Hi2 Hz]. unfold modify, bind, ret. cbn [wp]. by split_and!.
Qed.

Lemma took_heap s c u : Inv s (add_heap c u) → took s c u = add_heap c u.
Proof.
  intros []. unfold heap_all in iv_heap0. cbn in iv_heap0. apply Forall_cons in iv_heap0 as [[Hc _] _].
  unfold took, file_offset. by rewrite in_slices_clear.
Qed.
Lemma bases_spread s u : Inv s u → spread (slices s) ∧ spread (inherited s).
Proof. intros Hi. split; intros b b' Hb Hb'; apply (iv_bases _ _ Hi); (by left) || by right. Qed.
Lemma took_file s c u : Inv s (add_file c u) → took s c u = add_file c u.
Proof.
  intros Hi. destruct (bases_spread _ _ Hi) as [Hs _]. pose proof (iv_file _ _ Hi) as Hf. cbn in Hf. apply Forall_cons in Hf as [Hf _].
  unfold took, file_offset. by destruct (in_slices_range _ _ Hs Hf) as [? ->].
Qed.

(** ** acquire *)

Definition acquired (o : Os) (s : State) (u : Users) (c : Z) (s' : State) : Prop :=
  Inv s' (took s' c (adopted o s u)) ∧ zero_chunk (pmem s') c ∧ same_chunks (held u) (pmem s) (pmem s').
Definition refused (o : Os) (s : State) (u : Users) (s' : State) : Prop :=
  Inv s' (adopted o s u) ∧ same_chunks (held u) (pmem s) (pmem s') ∧ ram s' = ram s.

Lemma pool_shift_guard s s1 s' : pool s1 = pool s ∨ pool s1 = [] → ram s1 = ram s → pool_shift s1 s' → pool_shift s s'.
Proof.
  intros [Hp|Hp] Hr; unfold pool_shift; rewrite Hp, Hr; [done|]. intros [?|[[? _]|(c & ? & _)]]; [by left|by left|done].
Qed.

Lemma same_held o s u l m1 m2 : same_chunks (held (adopted o s u)) m1 m2 → (∀ a, m1 a = l a) → same_chunks (held u) l m2.
Proof.
  intros H Hm p i Hp Hi. rewrite <- Hm. apply H; [|done]. unfold held in *.
  by rewrite adopted_in_use, adopted_releasing.
Qed.

Lemma acquire_spec o s u : Inv s u → os_ok o s u →
  wp (acquire o s)
    (λ c s', acquired o s u c s' ∧ pool_shift s s' ∧ (configured s = true → spill_dir (config s) ≠ ""%string →
       ram s' = ram s ∨ ram s' ≤ ram_limit_bytes (config s)))
    (λ _ s', refused o s u s' ∧ pool_shift s s').
Proof.
  intros Hi Ho. unfold acquire. apply wp_bind. eapply wp_mono; [by apply choose_spill_spec| |].
  - intros sp s1 [[Hi1 Ho1 Hm Hr Hp Hc] Hh]. pose proof (λ s', pool_shift_guard s s1 s' Hp Hr) as Hps. destruct sp.
    + eapply wp_mono; [apply (acquire_file_spec o s1 (adopted o s u)); auto| |].
      * intros c s' (Hi2 & Hz & Hs & Hr2 & Hp2). unfold acquired. rewrite took_file by done.
        split_and!; [done|done|by eapply same_held|apply Hps; by right; left|]. intros. left. congruence.
      * intros e s' (Hi2 & Hs & Hr2 & Hp2). unfold refused. split_and!; [done|by eapply same_held|congruence|apply Hps; by right; left].
    + eapply wp_mono; [apply (acquire_heap_spec o s1 (adopted o s u)); auto| |].
      * intros c s' (Hi2 & Hz & Hs & Hr2 & Hp2). unfold acquired. rewrite took_heap by done.
        split_and!; [done|done|by eapply same_held|by apply Hps|]. intros Hcd Hd. right.
        destruct (Hh eq_refl) as [E|Hle]; rewrite Hc in * by done; [done|lia].
      * intros e s' (Hi2 & Hs & Hr2 & Hp2). unfold refused. split_and!; [done|by eapply same_held|congruence|by apply Hps].
  - intros e s1 []. unfold refused. split_and!; [done| |done|].
    + intros p i _ _. done.
    + apply (pool_shift_guard s s1); [done..|]. by right; left.
Qed.

(** ** Giving a chunk back *)

(** A holder gives up a chunk. *)
Inductive gives_up (c : Z) (u : Users) : Users → Prop :=
  | up_heap rest : heap_out u ≡ₚ c :: rest →
      gives_up c u (mkUsers rest (file_out u) (parent_out u) (clearing u) (cleared u) (leaving u))
  | up_file rest : file_out u ≡ₚ c :: rest →
      gives_up c u (mkUsers (heap_out u) rest (parent_out u) (clearing u) (cleared u) (leaving u))
  | up_parent rest : parent_out u ≡ₚ c :: rest →
      gives_up c u (mkUsers (heap_out u) (file_out u) rest (clearing u) (cleared u) (leaving u)).

(** Where release leaves the chunk. *)
Definition after (n : next) (c d : Z) (u : Users) : Users :=
  match n with
  | Done => u
  | Clear => mkUsers (heap_out u) (file_out u) (parent_out u) ((c, d) :: clearing u) (cleared u) (leaving u)
  | GiveBack => mkUsers (heap_out u) (file_out u) (parent_out u) (clearing u) (cleared u) (c :: leaving u)
  end.

Lemma gives_up_adopted o s c u u' : gives_up c u u' → gives_up c (adopted o s u) (adopted o s u').
Proof.
  intros Hg. unfold adopted. case_if; [|done]. destruct Hg as [rest H|rest H|rest H]; cbn.
  - by apply (up_heap c (mkUsers _ _ _ _ _ _)).
  - apply (up_parent c (mkUsers _ _ _ _ _ _)). cbn. by rewrite H.
  - apply (up_parent c (mkUsers _ _ _ _ _ _)). cbn. rewrite H. by rewrite Permutation_middle.
Qed.

Lemma file_clear_inherited s u p : Inv s u → in_range (slices s) p → clear_of (inherited s) p.
Proof.
  intros Hi (b & Hb & Hle & Hp) b' Hb'. destruct (iv_bases _ _ Hi b b' (or_introl Hb) (or_intror Hb')) as [->|[|]]; [|lia|lia].
  destruct Hb as [x Hx], Hb' as [y Hy]. by destruct (proj1 (map_disjoint_spec _ _) (iv_both _ _ Hi) b' x y).
Qed.

Lemma leave_heap s u c rest d : Inv s u → heap_out u ≡ₚ c :: rest → chunk_tail_zero (pmem s) (c, d) →
  let u' := mkUsers rest (file_out u) (parent_out u) (clearing u) (cleared u) (leaving u) in
  let s' := set_ram (ram s - kChunkSize) s in
  Inv s' (after GiveBack c d u') ∧ Inv (set_pending (pool_pending s' + 1) s') (after Clear c d u').
Proof.
  intros [] E Hd u' s'.
  assert (H1 : heap_all s' (after GiveBack c d u') ≡ₚ heap_all s u).
  { unfold heap_all, releasing. cbn. rewrite E. unfold heap_idle, arena_rest. cbn. solve_Permutation. }
  assert (H2 : heap_all (set_pending (pool_pending s' + 1) s') (after Clear c d u') ≡ₚ heap_all s u).
  { unfold heap_all, releasing. cbn. rewrite E. unfold heap_idle, arena_rest. cbn. solve_Permutation. }
  pose proof (Permutation_length E) as El. cbn in El.
  split; constructor; try done.
  - unfold all_chunks. by rewrite H1.
  - cbn [s' set_ram ram after heap_out u']. lia.
  - by rewrite H1.
  - unfold all_chunks. by rewrite H2.
  - cbn. by apply Forall_cons.
  - cbn [s' set_pending set_ram ram after heap_out u']. lia.
  - cbn [s' set_pending set_ram pool_pending after clearing cleared u' length]. lia.
  - by rewrite H2.
Qed.

Lemma leave_file s u c rest : Inv s u → file_out u ≡ₚ c :: rest →
  Inv (set_file (fd s) (owner s) (file_size s) (spill s - kChunkSize) (slices s) (c :: free_file s) (inherited s)
        (set_pmem (blit (pmem s) c (λ _, 0) kChunkSize) s))
    (mkUsers (heap_out u) rest (parent_out u) (clearing u) (cleared u) (leaving u)).
Proof.
  intros Hi E. destruct (Inv_zero_range s u c kChunkSize Hi). pose proof (Permutation_length E) as El. cbn in El.
  constructor; try done.
  - eapply all_apart_perm; [|apply iv_apart0]. unfold all_chunks, heap_all, releasing, heap_idle, arena_rest. cbn.
    rewrite E. solve_Permutation.
  - cbn. apply Forall_cons. split; [apply blit_zero|done].
  - cbn [set_file spill file_out]. cbn in iv_spill0. lia.
  - cbn. cbn in iv_file0. rewrite E in iv_file0. cbn in iv_file0. rewrite Forall_cons, Forall_app in iv_file0.
    rewrite Forall_app, Forall_cons. tauto.
Qed.

Lemma leave_parent s u c rest : Inv s u → parent_out u ≡ₚ c :: rest →
  Inv s (mkUsers (heap_out u) (file_out u) rest (clearing u) (cleared u) (leaving u)).
Proof.
  intros [] E. constructor; try done.
  - eapply all_apart_sub; [|apply iv_apart0]. unfold all_chunks, heap_all, releasing. cbn. rewrite E. solve_submseteq.
  - cbn. rewrite E in iv_parent0. by apply Forall_cons in iv_parent0 as [_ ?].
Qed.

(** The chunk a holder gave up is apart from the ones still held. *)
Lemma gives_up_apart s c u u' : Inv s u → gives_up c u u' → ∀ p, p ∈ held u' → apart c p.
Proof.
  intros Hi Hg p Hp. assert (Ha : all_apart (c :: held u')).
  { eapply all_apart_sub; [|apply (iv_apart _ _ Hi)]. etrans; [|apply held_all].
    unfold held, in_use, releasing. destruct Hg as [rest E|rest E|rest E]; cbn; rewrite E; solve_submseteq. }
  destruct Ha as [Ha _]. rewrite Forall_forall in Ha. by apply Ha.
Qed.

Lemma release_begin_spec o s u u' c d : Inv s u → gives_up c u u' → chunk_tail_zero (pmem s) (c, d) →
  ∃ n s', release_begin o c s = Ret n s' ∧ Inv s' (after n c d (adopted o s u')) ∧
    same_chunks (held u') (pmem s) (pmem s') ∧ config s' = config s ∧ pool s' = pool s ∧ ram s' ≤ ram s.
Proof.
  intros Hi Hg Hd. unfold release_begin.
  destruct (adopt_spec o s u Hi) as (s1 & E1 & Hi1 & _ & _ & Hm & Hc & _ & Hr & Hp). rewrite (bind_Ret _ _ _ _ _ E1).
  apply (gives_up_adopted o s) in Hg as Hg1. pose proof (gives_up_apart _ _ _ _ Hi Hg) as Hap.
  rewrite <- Hm in Hd |- *. rewrite <- Hc, <- Hr, <- Hp. clear Hm Hc Hr Hp Hi E1.
  set (u1 := adopted o s u) in *. set (u1' := adopted o s u') in *. unfold get. unfold bind at 1.
  destruct Hg1 as [rest E|rest E|rest E].
  - pose proof (iv_heap _ _ Hi1) as Hh. unfold heap_all in Hh. rewrite E in Hh. cbn in Hh. apply Forall_cons in Hh as [[H1 H2] _].
    rewrite (in_slices_clear (inherited s1)) by done. unfold file_offset. rewrite (in_slices_clear (slices s1)) by done.
    replace (if fd s1 then None else None) with (@None Z) by by destruct (fd s1).
    destruct (leave_heap s1 u1 c rest d Hi1 E Hd) as [Hgb Hcl]. unfold modify, bind, get, ret.
    case_if; do 2 eexists; (split; [done|]); split_and!; try done; cbn [set_pending set_ram ram]; unfold kChunkSize; lia.
  - pose proof (iv_file _ _ Hi1) as Hf. rewrite E in Hf. cbn in Hf. apply Forall_cons in Hf as [Hf _].
    rewrite (in_slices_clear (inherited s1)) by by eapply file_clear_inherited.
    destruct (in_slices_range _ _ (proj1 (bases_spread _ _ Hi1)) Hf) as [off Eo].
    assert (Hfd : fd s1 = true).
    { destruct (fd s1) eqn:Efd; [done|]. rewrite (iv_closed _ _ Hi1 Efd) in Hf. destruct Hf as (b & [? Hb] & _). by rewrite lookup_empty in Hb. }
    rewrite Hfd. unfold file_offset. rewrite Eo. unfold zero_range, modify, bind, ret.
    do 2 eexists. split; [done|]. split; [by apply (leave_file s1 u1)|]. split_and!; try done.
    apply same_blit. intros p Hp. destruct (Hap p Hp); auto.
  - pose proof (iv_parent _ _ Hi1) as Hf. rewrite E in Hf. apply Forall_cons in Hf as [Hf _].
    destruct (in_slices_range _ _ (proj2 (bases_spread _ _ Hi1)) Hf) as [off ->]. do 2 eexists. split; [done|].
    split; [by apply (leave_parent s1 u1 c)|done].
Qed.

(** ** The phases of a release *)

Lemma clear_phase s u c d rest : Inv s u → clearing u ≡ₚ (c, d) :: rest →
  let u' := mkUsers (heap_out u) (file_out u) (parent_out u) rest (c :: cleared u) (leaving u) in
  Inv (set_pmem (blit (pmem s) c (λ _, 0) (Z.min d kChunkSize)) s) u'.
Proof.
  intros Hi E u'. destruct (Inv_zero_range s u c (Z.min d kChunkSize) Hi). pose proof (iv_promise _ _ Hi) as Hpr.
  rewrite E in iv_promise0, Hpr. pose proof (Permutation_length E) as El. cbn in El. apply Forall_cons in iv_promise0 as [_ ?].
  apply Forall_cons in Hpr as [Hd _].
  assert (Hh : ∀ s', heap_all s' u' ≡ₚ heap_all s' u).
  { intros s'. unfold heap_all, releasing. cbn. rewrite E. cbn. solve_Permutation. }
  constructor; try done.
  - unfold all_chunks. by rewrite Hh.
  - cbn. apply Forall_cons. split; [|done]. intros i Hi'. unfold blit. bool_cases; try done. by apply Hd; cbn; lia.
  - cbn [u' clearing cleared length]. cbn in iv_pending0. cbn [set_pmem pool_pending]. lia.
  - by rewrite Hh.
Qed.

Lemma end_phase s u c rest : Inv s u → cleared u ≡ₚ c :: rest →
  let u' := mkUsers (heap_out u) (file_out u) (parent_out u) (clearing u) rest (leaving u) in
  let s' := set_pending (pool_pending s - 1) s in
  Inv (set_pool (c :: pool s) s') u' ∧ Inv s' (after GiveBack c 0 u').
Proof.
  intros [] E u' s'. rewrite E in iv_cleared_zero0. pose proof (Permutation_length E) as El. cbn in El.
  apply Forall_cons in iv_cleared_zero0 as [Hz ?].
  assert (H1 : heap_all (set_pool (c :: pool s) s') u' ≡ₚ heap_all s u).
  { unfold heap_all, releasing. cbn. rewrite E. unfold heap_idle, arena_rest. cbn. solve_Permutation. }
  assert (H2 : heap_all s' (after GiveBack c 0 u') ≡ₚ heap_all s u).
  { unfold heap_all, releasing. cbn. rewrite E. unfold heap_idle, arena_rest. cbn. solve_Permutation. }
  split; constructor; try done.
  - unfold all_chunks. by rewrite H1.
  - by apply Forall_cons.
  - cbn [s' u' set_pool set_pending pool_pending clearing cleared]. lia.
  - by rewrite H1.
  - unfold all_chunks. by rewrite H2.
  - cbn [s' u' after set_pool set_pending pool_pending clearing cleared]. lia.
  - by rewrite H2.
Qed.

Lemma give_back_phase s u c rest : Inv s u → leaving u ≡ₚ c :: rest →
  Inv (set_cold (c :: cold s) (set_pmem (blit (pmem s) c (λ _, 0) kChunkSize) s))
    (mkUsers (heap_out u) (file_out u) (parent_out u) (clearing u) (cleared u) rest).
Proof.
  intros Hi E. destruct (Inv_zero_range s u c kChunkSize Hi). set (u' := mkUsers _ _ _ _ _ _). set (s' := set_cold _ _).
  assert (H1 : heap_all s' u' ≡ₚ heap_all s u).
  { unfold heap_all, releasing. cbn. rewrite E. unfold heap_idle, arena_rest. cbn. solve_Permutation. }
  constructor; try done.
  - unfold all_chunks. by rewrite H1.
  - unfold heap_idle. cbn. rewrite <- (Permutation_middle (pool s)). apply Forall_cons. split; [apply blit_zero|done].
  - by rewrite H1.
Qed.

(** ** Reconfiguring *)

Lemma close_file_inv s u : Inv s u → spill s = 0 →
  Inv (set_file false (owner s) 0 (spill s) ∅ [] (inherited s) s) u.
Proof.
  intros [] Es. assert (Hf : file_out u = []).
  { destruct (file_out u); [done|]. rewrite Es in iv_spill0. cbn in iv_spill0. unfold kChunkSize in *. lia. }
  constructor; cbn; try done.
  - eapply all_apart_sub; [|apply iv_apart0]. unfold all_chunks. cbn. rewrite Hf. cbn.
    apply submseteq_app; [done|]. by apply submseteq_inserts_l.
  - eapply Forall_impl; [done|]. intros p [_ ?]. split; [apply clear_of_empty|done].
  - rewrite Hf. by constructor.
  - intros b b' Hb Hb'. apply iv_bases0; [destruct Hb as [[? Hb]|Hb]|destruct Hb' as [[? Hb']|Hb']];
      try (by right); cbn in *; by rewrite lookup_empty in *.
  - apply map_disjoint_empty_l.
Qed.

Lemma configure_spec o c s u : Inv s u → ∃ s', configure o c s = Ret tt s' ∧ Inv s' (adopted o s u) ∧ pmem s' = pmem s ∧
  pool s' = pool s ∧ ram s' = ram s.
Proof.
  intros Hi. unfold configure. set (s1 := set_guard 0 (samples s) false (last_look s) (set_config true c s)).
  rewrite (bind_Ret _ _ _ tt s1) by done. assert (Hi1 : Inv s1 u) by (destruct Hi; by constructor).
  destruct (adopt_spec o s1 u Hi1) as (s2 & E2 & Hi2 & _ & _ & Hm & _ & _ & Hr & Hp). rewrite (bind_Ret _ _ _ _ _ E2). unfold modify.
  eexists. split; [done|]. change (adopted o s u) with (adopted o s1 u). case_if; [|by split].
  split; [by apply close_file_inv|done].
Qed.

(** ** Everything a process does with its backing *)

Inductive bstep : State → Users → State → Users → Prop :=
  | st_acquire o s u c s' : os_ok o s u → acquire o s = Ret c s' → bstep s u s' (took s' c (adopted o s u))
  | st_refused o s u e s' : os_ok o s u → acquire o s = Exn e s' → bstep s u s' (adopted o s u)
  | st_write s u c m : c ∈ in_use u → (∀ a, a < c ∨ c + kChunkSize ≤ a → m a = pmem s a) → bstep s u (set_pmem m s) u
  | st_release o s u u' c d n s' : c ≠ 0 → gives_up c u u' → chunk_tail_zero (pmem s) (c, d) →
      release_begin o c s = Ret n s' → bstep s u s' (after n c d (adopted o s u'))
  | st_clear s u c d rest s' : clearing u ≡ₚ (c, d) :: rest → release_clear c d s = Ret tt s' →
      bstep s u s' (mkUsers (heap_out u) (file_out u) (parent_out u) rest (c :: cleared u) (leaving u))
  | st_end s u c rest n s' : cleared u ≡ₚ c :: rest → release_end c s = Ret n s' →
      bstep s u s' (after n c 0 (mkUsers (heap_out u) (file_out u) (parent_out u) (clearing u) rest (leaving u)))
  | st_give s u c rest s' : leaving u ≡ₚ c :: rest → give_back c s = Ret tt s' →
      bstep s u s' (mkUsers (heap_out u) (file_out u) (parent_out u) (clearing u) (cleared u) rest)
  | st_configure o c s u s' : configure o c s = Ret tt s' → bstep s u s' (adopted o s u).

Definition no_users : Users := mkUsers [] [] [] [] [] [].
Inductive reachable : State → Users → Prop :=
  | rc_start m : reachable (new_state m) no_users
  | rc_step s u s' u' : reachable s u → bstep s u s' u' → reachable s' u'.

(** A holder writes into its own chunk. *)
Lemma write_apart s u c m p : Inv s u → c ∈ in_use u → (∀ a, a < c ∨ c + kChunkSize ≤ a → m a = pmem s a) →
  p ∈ releasing u ++ heap_idle s ++ free_file s → ∀ i, 0 ≤ i < kChunkSize → m (p + i) = pmem s (p + i).
Proof.
  intros Hi Hc Hm Hp i Hr. apply Hm.
  assert (Ha : all_apart (in_use u ++ releasing u ++ heap_idle s ++ free_file s)).
  { eapply all_apart_perm; [|apply (iv_apart _ _ Hi)]. unfold all_chunks, heap_all, in_use. solve_Permutation. }
  apply all_apart_app in Ha as (_ & _ & Ha). destruct (Ha c p Hc Hp); lia.
Qed.

Lemma write_inv s u c m : Inv s u → c ∈ in_use u → (∀ a, a < c ∨ c + kChunkSize ≤ a → m a = pmem s a) → Inv (set_pmem m s) u.
Proof.
  intros Hi Hc Hm. pose proof (λ p, write_apart s u c m p Hi Hc Hm) as Hw.
  assert (Hz : ∀ l, l ⊆+ releasing u ++ heap_idle s ++ free_file s → Forall (zero_chunk (pmem s)) l → Forall (zero_chunk m) l).
  { intros l Hl HF. rewrite Forall_forall in HF |- *. intros p Hp i Hr. rewrite Hw by (by eapply elem_of_submseteq || done). by apply HF. }
  destruct Hi. constructor; try done; try (apply Hz; [|done]; unfold releasing; solve_submseteq).
  cbn. rewrite Forall_forall in iv_promise0 |- *. intros [p d] Hp i Hr Hd. cbn in *.
  rewrite Hw; [by apply (iv_promise0 (p, d))|unfold releasing; rewrite !elem_of_app, list_elem_of_fmap; left; left; by exists (p, d)|done].
Qed.
