(* ===== verification/BackingSafe.v ===== *)
(** * What the host backing promises its callers

    Every reachable state of the backing, with its holders, satisfies the
    invariant; a chunk handed out is zero and nobody else's, a refused request
    changes nothing, and the pool and the RAM limit are kept. *)

From stdpp Require Import strings.
From S2P Require Import Prelude Chunks Text HostGuard Backing BackingInv.

#[local] Open Scope Z_scope.

(** Replaces a call by its known result. *)
Ltac known H E := rewrite E in H; cbn [wp] in H.
Ltac same_call E E' := rewrite E in E'; injection E' as <- <-.

Lemma release_end_cases c s n s' : release_end c s = Ret n s' →
  let s1 := set_pending (pool_pending s - 1) s in
  (pool_has_room s1 = true ∧ n = Done ∧ s' = set_pool (c :: pool s) s1) ∨ (n = GiveBack ∧ s' = s1).
Proof.
  unfold release_end, modify, get, bind, ret. destruct (pool_has_room _) eqn:E; intros H; injection H as <- <-; auto.
Qed.

Lemma bstep_inv s u s' u' : bstep s u s' u' → Inv s u → Inv s' u'.
Proof.
  intros [o s1 u1 c s2 Ho E|o s1 u1 e s2 Ho E|s1 u1 c m Hc Hm|o s1 u1 u2 c d n s2 Hne Hg Hd E|s1 u1 c d rest s2 Hp E
    |s1 u1 c rest n s2 Hp E|s1 u1 c rest s2 Hp E|o c s1 u1 s2 E] Hi.
  - pose proof (acquire_spec o s1 u1 Hi Ho) as Hw. known Hw E. apply Hw.
  - pose proof (acquire_spec o s1 u1 Hi Ho) as Hw. known Hw E. apply Hw.
  - by eapply write_inv.
  - destruct (release_begin_spec o s1 u1 u2 c d Hi Hg Hd) as (n' & s3 & E' & Hi' & _). by same_call E E'.
  - injection E as <-. by apply (clear_phase _ _ _ d).
  - destruct (end_phase s1 u1 c rest Hi Hp) as [H1 H2]. by destruct (release_end_cases _ _ _ _ E) as [(_ & -> & ->)|[-> ->]].
  - injection E as <-. by apply give_back_phase.
  - destruct (configure_spec o c s1 u1 Hi) as (s3 & E' & Hi' & _). rewrite E in E'. by injection E' as <-.
Qed.

Lemma reachable_inv s u : reachable s u → Inv s u.
Proof.
  induction 1 as [m|s u s' u' _ IH Hs]; [|by eapply bstep_inv].
  constructor; cbn; try done.
  - intros b b' [[? Hb]|[? Hb]]; cbn in Hb; by rewrite lookup_empty in Hb.
  - split; [apply Z.divide_0_r|done].
Qed.

(** C26: the chunks a process holds, the ones being released by any number of
    threads and the ones ready to be handed out never overlap, whatever the order
    of acquisitions, writes, releases (with their phases interleaved), forks and
    reconfigurations; every idle chunk reads as zero; and the counters say exactly
    what is in use: RAM, spill file, and places held in the pool. *)
Theorem backing_exclusive s u : reachable s u →
  all_apart (in_use u ++ releasing u ++ pool s ++ cold s ++ free_file s) ∧
  Forall (zero_chunk (pmem s)) (pool s ++ cold s ++ free_file s) ∧
  ram_bytes s = kChunkSize * Z.of_nat (length (heap_out u)) ∧
  spill_bytes s = kChunkSize * Z.of_nat (length (file_out u)) ∧
  pool_pending s = Z.of_nat (length (clearing u)) + Z.of_nat (length (cleared u)).
Proof.
  intros []%reachable_inv. split; [|split]; [| |done].
  - eapply all_apart_sub; [|apply iv_apart]. unfold all_chunks, heap_all, heap_idle, in_use. solve_submseteq.
  - unfold heap_idle in iv_idle_zero. rewrite !Forall_app in *. tauto.
Qed.

(** C27: acquire, from any state a process can reach, ends; a chunk it returns
    is zero and apart from every chunk in use or being released, and no byte of
    those changes; when it throws (no memory, no room on disk, a host that is
    short) nothing that is held changes and nothing more is counted as used. *)
Theorem acquire_fresh o s u : reachable s u → os_ok o s u →
  wp (acquire o s)
    (λ c s', (∀ i, 0 ≤ i < kChunkSize → pmem s' (c + i) = 0) ∧ (∀ p, p ∈ held u → apart c p) ∧
       same_chunks (held u) (pmem s) (pmem s') ∧
       ram_bytes s' + spill_bytes s' = ram_bytes s + (if forked o s then 0 else spill_bytes s) + kChunkSize)
    (λ _ s', same_chunks (held u) (pmem s) (pmem s') ∧ ram_bytes s' = ram_bytes s ∧
       spill_bytes s' = if forked o s then 0 else spill_bytes s).
Proof.
  intros Hi%reachable_inv Ho. unfold ram_bytes, spill_bytes.
  assert (Hsp : ∀ v, kChunkSize * Z.of_nat (length (file_out (adopted o s u))) = v → v = if forked o s then 0 else spill s).
  { intros v <-. rewrite (iv_spill _ _ Hi). unfold adopted. by case_if. }
  assert (Hrm : ram s = kChunkSize * Z.of_nat (length (heap_out (adopted o s u)))).
  { rewrite (iv_ram _ _ Hi). unfold adopted. by case_if. }
  eapply wp_mono; [by apply (acquire_spec o s u)| |].
  - intros c s' ((Hi' & Hz & Hs) & _ & _). split_and!; [done| |done|].
    + intros p Hp. assert (Ha : all_apart (c :: held u)).
      { eapply all_apart_sub; [|apply (iv_apart _ _ Hi')]. etrans; [|apply held_all].
        unfold held. rewrite <- (adopted_in_use o s), <- (adopted_releasing o s u). unfold took, in_use.
        destruct (file_offset s' c); cbn; solve_submseteq. }
      destruct Ha as [Ha _]. rewrite Forall_forall in Ha. by apply Ha.
    + rewrite (iv_ram _ _ Hi'), (iv_spill _ _ Hi'), Hrm, <- (Hsp _ eq_refl). unfold took.
      destruct (file_offset s' c); cbn [add_file add_heap heap_out file_out length]; lia.
  - intros e s' ((Hi' & Hs & Hr) & _). split_and!; [done|done|]. rewrite (iv_spill _ _ Hi'). by apply Hsp.
Qed.

(** ** The limits *)

(** The pool is within its size, and beside the chunks in use within the RAM
    limit where there is one. *)
Definition pool_bounded (s : State) : Prop :=
  Z.of_nat (length (pool s)) * kChunkSize ≤ Z.max 0 (pool_max_bytes (config s)) ∧
  (ram_limit_bytes (config s) ≠ u64_max →
     pool s = [] ∨ ram s + Z.of_nat (length (pool s)) * kChunkSize ≤ ram_limit_bytes (config s)).

Lemma pool_bounded_shift s s' : config s' = config s → pool_shift s s' → pool_bounded s → pool_bounded s'.
Proof.
  intros Hc Hs [H1 H2]. unfold pool_bounded. rewrite Hc. destruct Hs as [E|[[-> ->]|(c & E & Hr)]].
  - rewrite E. cbn. split; [lia|by left].
  - done.
  - rewrite E in *. cbn [length] in *. unfold kChunkSize in *. split; [lia|]. intros Hne. right.
    destruct (H2 Hne); [done|lia].
Qed.

Lemma pool_bounded_less s s' : config s' = config s → pool s' = pool s → ram s' ≤ ram s → pool_bounded s → pool_bounded s'.
Proof.
  intros Hc Hp Hr [H1 H2]. unfold pool_bounded. rewrite Hc, Hp. split; [done|]. intros Hne. destruct (H2 Hne); [by left|right; lia].
Qed.

Lemma pool_bounded_push s c : 0 ≤ pool_pending s → pool_has_room s = true → pool_bounded (set_pool (c :: pool s) s).
Proof.
  intros Hpd Hr. unfold pool_has_room in Hr. unfold pool_bounded. cbn [set_pool pool config ram length].
  destruct (Z.eqb_spec (ram_limit_bytes (config s)) u64_max) as [E|E]; cbn [negb] in Hr; zify_bool; unfold kChunkSize in *.
  - split; [lia|done].
  - destruct (Z.ltb_spec (ram s) (ram_limit_bytes (config s))); (split; [lia|]); intros _; right; lia.
Qed.

(** C28: as long as the configuration stays, no step lets the pool grow past its
    size or, where a RAM limit is set, past what the limit leaves beside the
    chunks in use (release looks again after clearing, so threads that release at
    once cannot overfill it); and with a spill directory the chunks in RAM never
    go past the limit. *)
Theorem backing_limits s u s' u' : reachable s u → bstep s u s' u' → configured s = true → config s' = config s →
  (pool_bounded s → pool_bounded s') ∧
  (spill_dir (config s) ≠ ""%string → ram_bytes s ≤ ram_limit_bytes (config s) → ram_bytes s' ≤ ram_limit_bytes (config s)).
Proof.
  intros Hi%reachable_inv Hs. unfold ram_bytes. destruct Hs as [o s u c s2 Ho E|o s u e s2 Ho E|s u c m Hc Hm|o s u u2 c d n s2 Hne Hg Hd E
    |s u c d rest s2 Hp E|s u c rest n s2 Hp E|s u c rest s2 Hp E|o c s u s2 E]; intros Hcd Hcf.
  - pose proof (acquire_spec o s u Hi Ho) as Hw. known Hw E. destruct Hw as (_ & Hps & Hlim).
    split; [by apply pool_bounded_shift|]. intros Hd Hle. destruct (Hlim Hcd Hd); lia.
  - pose proof (acquire_spec o s u Hi Ho) as Hw. known Hw E. destruct Hw as ((_ & _ & Hr) & Hps).
    split; [by apply pool_bounded_shift|]. by rewrite Hr.
  - done.
  - destruct (release_begin_spec o s u u2 c d Hi Hg Hd) as (n' & s3 & E' & _ & _ & _ & Hp & Hr). same_call E E'.
    split; [by apply pool_bounded_less|lia].
  - by injection E as <-.
  - pose proof (iv_pending _ _ Hi) as Hpd. pose proof (Permutation_length Hp) as El. cbn in El.
    destruct (release_end_cases _ _ _ _ E) as [(Hroom & _ & ->)|[_ ->]]; [|done].
    split; [|done]. intros _. apply (pool_bounded_push (set_pending (pool_pending s - 1) s)); [|done]. cbn [set_pending pool_pending]. lia.
  - by injection E as <-.
  - destruct (configure_spec o c s u Hi) as (s3 & E' & _ & _ & Hp & Hr). rewrite E in E'. injection E' as <-.
    split; [apply pool_bounded_less; [done|done|lia]|lia].
Qed.

(** ** Every call ends *)

Definition ends {A} (m : M State A) : Prop := ∀ s, m s ≠ Undef.

Lemma ends_bind {A B} (m : M State A) (k : A → M State B) : ends m → (∀ a, ends (k a)) → ends (bind m k).
Proof. intros Hm Hk s. unfold bind. specialize (Hm s). destruct (m s); [apply Hk|done|done]. Qed.
Lemma ends_modify f : ends (modify f).
Proof. done. Qed.
Lemma ends_get_bind {B} (k : State → M State B) : (∀ s, k s s ≠ Undef) → ends (bind get k).
Proof. intros Hk s. apply Hk. Qed.
Lemma ends_make_all_cold l : ends (make_all_cold l).
Proof. induction l as [|c l IH]; [done|]. apply ends_bind; [done|]. intros _. apply IH. Qed.
Lemma ends_look fs : ends (look fs).
Proof. intros s. destruct (look_spec fs s) as (l & lw & ->). done. Qed.

Lemma ends_look_with_pool o : ends (look_at_host_with_pool o).
Proof.
  apply ends_bind; [apply ends_look|]. intros _. apply ends_get_bind. intros s. case_if; [|done].
  apply ends_bind; [|intros; apply ends_look]. apply ends_get_bind. intros s'. apply ends_bind; [apply ends_make_all_cold|done].
Qed.
Lemma ends_host_is_short o : ends (host_is_short o).
Proof.
  apply ends_get_bind. intros s. apply ends_bind; [|done]. case_if; [apply ends_look_with_pool|done].
Qed.
Lemma ends_choose_spill o : ends (choose_spill o).
Proof.
  apply ends_bind; [done|]. intros _. apply ends_bind; [done|]. intros _. apply ends_get_bind. intros s.
  apply ends_bind; [done|]. intros _. case_if; [done|]. case_if; [done|]. apply ends_bind; [apply ends_host_is_short|].
  intros short. case_if; [done|]. by case_if.
Qed.
Lemma grow_gives o s : match grow o s with Ret _ s' => free_file s' ≠ [] | Exn _ _ => True | Undef => False end.
Proof.
  unfold grow, get, modify, zero_range, throw, ret, bind.
  destruct (fd s), (o_tmpfile o || o_mkostemp o), (o_fallocate o), (o_mmap_slice o); cbn [negb]; try done;
    cbn [set_file free_file]; unfold slice_chunks; rewrite seqZ_cons by done; done.
Qed.

(** C29: acquire and release end from every state, whatever the operating system
    answers: the walk over cgroup directories reaches the root, and a file that
    grew has a free chunk. *)
Theorem backing_calls_end o s chunk dirty : acquire o s ≠ Undef ∧ release o chunk dirty s ≠ Undef.
Proof.
  split.
  - apply ends_bind; [apply ends_choose_spill|]. intros sp s1. destruct sp.
    + unfold acquire_file, get. unfold bind at 1. destruct (free_file s1) as [|c rest] eqn:E.
      * pose proof (grow_gives o s1) as Hg. unfold bind at 1. destruct (grow o s1) as [a s2|e s2|]; [|done|done]. unfold bind at 1.
        destruct (free_file s2); [done|]. by case_if.
      * unfold ret, bind. rewrite E. by case_if.
    + unfold acquire_heap, get, modify. unfold bind at 1 2. cbn [set_ram pool]. destruct (pool s1); [|done].
      unfold arena_chunk, get. unfold bind at 1. cbn [set_ram cold arena_next arena_end]. destruct (cold s1); [|done].
      case_if; [destruct (o_mmap_arena o); done|done].
  - unfold release. case_if; [done|]. apply ends_bind.
    + apply ends_bind; [done|]. intros _. apply ends_get_bind. intros s1. destruct (in_slices _ _); [done|].
      destruct (if fd s1 then _ else _); [done|]. unfold modify, get, bind. by case_if.
    + intros [| |]; try done. apply ends_bind; [done|]. intros _. apply ends_bind; [|by intros []].
      intros s1. unfold release_end, modify, get, bind. by case_if.
Qed.

(** ** An instance: one chunk acquired, written and given back *)

Definition os_first : Os :=
  mkOs (λ _, None) 1 (λ _, None) (λ _, None) true true true None true (Some 1073745920).
Definition os_later : Os := mkOs (λ _, None) 1 (λ _, None) (λ _, None) true true true None true None.

Definition left_in {A} (r : outcome State A) (d : State) : State :=
  match r with Ret _ s | Exn _ s => s | Undef => d end.
Definition sample_start : State := new_state (λ _, 170).
Definition sample_one : State := left_in (acquire os_first sample_start) sample_start.
Definition sample_chunk : Z := 1075838976.
Definition sample_written : State := set_pmem (blit (pmem sample_one) sample_chunk (λ _, 7) 10) sample_one.
Definition sample_users : Users := mkUsers [sample_chunk] [] [] [] [] [].
Definition sample_back : State := left_in (release_begin os_later sample_chunk sample_written) sample_start.

Lemma ret_value {A} (r : outcome State A) (d : State) (a : A) :
  match r with Ret b _ => Some b | _ => None end = Some a → r = Ret a (left_in r d).
Proof. destruct r; intros H; by inversion H. Qed.

Lemma sample_acquired : acquire os_first sample_start = Ret sample_chunk sample_one.
Proof. apply ret_value. vm_compute. reflexivity. Qed.

Lemma sample_os_first : os_ok os_first sample_start no_users.
Proof.
  split; intros m Hm; [|discriminate Hm]. split; [intros p Hp; by inversion Hp|].
  intros b [[x Hb]|[x Hb]]; discriminate Hb.
Qed.

Lemma sample_reach : reachable sample_written sample_users.
Proof.
  apply (rc_step sample_one sample_users).
  - apply (rc_step sample_start no_users); [apply rc_start|].
    replace sample_users with (took sample_one sample_chunk (adopted os_first sample_start no_users)) by (vm_compute; reflexivity).
    apply st_acquire; [apply sample_os_first|apply sample_acquired].
  - apply (st_write _ _ sample_chunk); [by left|]. intros a Ha. unfold blit, kChunkSize in *. bool_cases; done.
Qed.

Lemma sample_tail : chunk_tail_zero (pmem sample_written) (sample_chunk, 10).
Proof.
  pose proof (acquire_spec os_first sample_start no_users (reachable_inv _ _ (rc_start _)) sample_os_first) as Hw.
  known Hw sample_acquired. destruct Hw as ((_ & Hz & _) & _). intros i Hi Hd. cbn [fst snd] in *.
  unfold sample_written. cbn [set_pmem pmem]. unfold blit. bool_cases. by apply Hz.
Qed.

Lemma sample_os : os_ok os_later sample_written sample_users.
Proof. split; intros m Hm; discriminate Hm. Qed.

Lemma backing_exclusive_witness : reachable sample_written sample_users ∧ ram_bytes sample_written = 65536 ∧ spill_bytes sample_written = 0.
Proof.
  split; [exact sample_reach|]. destruct (backing_exclusive sample_written sample_users sample_reach) as (_ & _ & Hr & Hs & _).
  split; [exact Hr|exact Hs].
Defined.

Lemma acquire_fresh_witness : ∃ c s', acquire os_later sample_written = Ret c s' ∧ pmem s' (c + 5) = 0 ∧
  pmem s' (sample_chunk + 5) = 7 ∧ ram_bytes s' + spill_bytes s' = 131072.
Proof.
  pose proof (acquire_fresh os_later sample_written sample_users sample_reach sample_os) as Hw.
  assert (E : acquire os_later sample_written = Ret (sample_chunk + kChunkSize) (left_in (acquire os_later sample_written) sample_start))
    by (apply ret_value; vm_compute; reflexivity).
  rewrite E in Hw. destruct Hw as (Hz & _ & Hs & Hr). do 2 eexists. split; [exact E|].
  split; [apply Hz; unfold kChunkSize; lia|]. split; [|exact Hr].
  rewrite Hs; [vm_compute; reflexivity|left|unfold kChunkSize; lia].
Defined.

Lemma backing_limits_witness : pool_bounded sample_back ∧ pooled_chunks sample_back = 0 ∧ pool_pending sample_back = 1.
Proof.
  split; [|vm_compute; split; reflexivity].
  assert (Hs : bstep sample_written sample_users sample_back (after Clear sample_chunk 10 (adopted os_later sample_written no_users))).
  { apply (st_release os_later sample_written sample_users no_users sample_chunk 10 Clear).
    - discriminate.
    - by apply (up_heap sample_chunk sample_users []).
    - apply sample_tail.
    - apply ret_value. vm_compute. reflexivity. }
  destruct (backing_limits sample_written sample_users sample_back _ sample_reach Hs eq_refl eq_refl) as [Hp _]. apply Hp.
  split; [vm_compute; discriminate|]. intros H. by destruct H.
Defined.
