(* ===== verification/Scheduler.v ===== *)
(** * Which warp runs next (src/exec/scheduler.cpp)

    The generator of the seeded orders, the three schedulers behind one interface,
    and the choice of one from the environment. Shown: a draw ends within one more
    attempt than there are choices and favours none; the deterministic and the
    adversarial order let no warp wait longer than there are warps; the adversarial
    one never runs a warp twice while another can run. *)

From stdpp Require Import strings sorting.
From S2P Require Import Prelude Text.

#[local] Open Scope Z_scope.

(** ** SplitMix64 *)

Definition gamma : Z := 11400714819323198485.   (* 0x9E3779B97F4A7C15 *)
Definition mul1 : Z := 13787848793156543929.    (* 0xBF58476D1CE4E5B9 *)
Definition mul2 : Z := 10723151780598845931.    (* 0x94D049BB133111EB *)

Definition xorshift (z k : Z) : Z := Z.lxor z (Z.shiftr z k).
Definition mix (z : Z) : Z :=
  let z := u64 (xorshift z 30 * mul1) in
  let z := u64 (xorshift z 27 * mul2) in
  xorshift z 31.

(** next: the value drawn, and the state after *)
Definition next (state : Z) : Z * Z :=
  let state := u64 (state + gamma) in (mix state, state).

(** below's limit, and its loop *)
Definition draw_limit (n : Z) : Z := u64_max - u64_max mod n - 1.
Fixpoint draw (fuel : nat) (limit n state : Z) : option (Z * Z) :=
  match fuel with
  | O => None
  | S fuel' =>
      let '(v, state) := next state in
      if limit <? v then draw fuel' limit n state else Some (v mod n, state)
  end.
Definition below (n state : Z) : option (Z * Z) :=
  if n <=? 1 then Some (0, state) else draw (S (Z.to_nat n)) (draw_limit n) n state.

(** ** The schedulers *)

Definition size_max : Z := u64_max.

Inductive Scheduler :=
  | RoundRobin (last_ : Z)
  | RandomOrder (rng_ : Z)
  | Adversarial (rng_ : Z) (last_run_ : list Z) (tick_ last_ : Z).

Definition kMaxSlice : Z := 16.

(** RoundRobin::pick *)
Definition pick_round (last_ : Z) (runnable : list Z) : option Z :=
  match list_find (λ idx, last_ < idx) runnable with
  | Some (_, idx) => Some idx
  | None => head runnable
  end.

Definition seen_at (last_run_ : list Z) (idx : Z) : Z := default 0 (last_run_ !! Z.to_nat idx).

(** Adversarial::pick's loop over the runnable warps *)
Fixpoint oldest_loop (many : bool) (last_ : Z) (last_run_ : list Z) (runnable : list Z) (best oldest rng_ : Z) :
    option (Z * Z * Z) :=
  match runnable with
  | [] => Some (best, oldest, rng_)
  | idx :: rest =>
      if (idx =? last_) && many then oldest_loop many last_ last_run_ rest best oldest rng_ else
      let seen := seen_at last_run_ idx in
      if seen <? oldest then oldest_loop many last_ last_run_ rest idx seen rng_ else
      if seen =? oldest then
        '(toss, rng_) ← below 2 rng_;
        if toss =? 0 then oldest_loop many last_ last_run_ rest best oldest rng_
        else oldest_loop many last_ last_run_ rest idx seen rng_
      else oldest_loop many last_ last_run_ rest best oldest rng_
  end.

(** last_run_.resize(best + 1, 0) where it is too short, and the assignment *)
Definition mark_run (last_run_ : list Z) (best tick_ : Z) : list Z :=
  let grown := if Z.of_nat (length last_run_) <=? best then resize (S (Z.to_nat best)) 0 last_run_ else last_run_ in
  <[Z.to_nat best := tick_]> grown.

(** Scheduler::pick. An empty list is not a call the engine makes. *)
Definition pick (runnable : list Z) : M Scheduler Z := λ s,
  match s with
  | RoundRobin last_ =>
      match pick_round last_ runnable with
      | Some idx => Ret idx (RoundRobin idx)
      | None => Undef
      end
  | RandomOrder rng_ =>
      match below (Z.of_nat (length runnable)) rng_ with
      | Some (i, rng_) =>
          match runnable !! Z.to_nat i with
          | Some idx => Ret idx (RandomOrder rng_)
          | None => Undef
          end
      | None => Undef
      end
  | Adversarial rng_ last_run_ tick_ last_ =>
      let tick_ := u64 (tick_ + 1) in
      match head runnable with
      | None => Undef
      | Some front =>
          match oldest_loop (1 <? Z.of_nat (length runnable)) last_ last_run_ runnable front u64_max rng_ with
          | Some (best, _, rng_) => Ret best (Adversarial rng_ (mark_run last_run_ best tick_) tick_ best)
          | None => Undef
          end
      end
  end.

(** Scheduler::slice *)
Definition slice : M Scheduler Z := λ s,
  match s with
  | RoundRobin _ => Ret 0 s
  | RandomOrder rng_ =>
      match below kMaxSlice rng_ with
      | Some (v, rng_) => Ret (1 + v) (RandomOrder rng_)
      | None => Undef
      end
  | Adversarial _ _ _ _ => Ret 1 s
  end.

Inductive SchedulerKind := Deterministic | Random | AdversarialKind.
#[global] Instance SchedulerKind_eq_dec : EqDecision SchedulerKind.
Proof. solve_decision. Defined.

Definition make_scheduler (kind : SchedulerKind) (seed : Z) : Scheduler :=
  let seed := if seed =? 0 then 1 else seed in
  match kind with
  | Deterministic => RoundRobin size_max
  | Random => RandomOrder seed
  | AdversarialKind => Adversarial seed [] 0 size_max
  end.

Definition scheduler_name (kind : SchedulerKind) : string :=
  match kind with
  | Deterministic => "deterministic"
  | Random => "random"
  | AdversarialKind => "adversarial"
  end.

(** scheduler_from_env: the kind and the seed, changed where the variables say so *)
Definition scheduler_from_env (mode seed_value : option string) : M (SchedulerKind * Z) bool :=
  match mode with
  | None => ret false
  | Some mode =>
      let m := c_str mode in
      if bool_decide (m = "") then ret false else
      (if bool_decide (m = "deterministic") then modify (λ '(_, seed), (Deterministic, seed))
       else if bool_decide (m = "random") then modify (λ '(_, seed), (Random, seed))
       else if bool_decide (m = "adversarial") then modify (λ '(_, seed), (AdversarialKind, seed))
       else throw InvalidValue) ;;;
      match seed_value with
      | None => ret tt
      | Some v =>
          if bool_decide (c_str v = "") then ret tt
          else modify (λ '(kind, _), (kind, match strtoull (c_str v) with Some (n, _) => n | None => 0 end))
      end ;;;
      ret true
  end.

(** ** The generator draws each value once in a cycle *)

Lemma testbit_u64 z i : is_u64 z → 64 ≤ i → Z.testbit z i = false.
Proof. intros [H0 H1] Hi. apply Z.bits_above_log2; [done|]. destruct (decide (z = 0)) as [->|]; [cbn; lia|].
  assert (Z.log2 z < 64); [|lia]. apply Z.log2_lt_pow2; [lia|]. change (2 ^ 64) with 18446744073709551616. lia.
Qed.

(** Below bit [64 - j * k], the bits of [z] follow from those of the xorshift. *)
Lemma xorshift_inj k x y : 0 < k → is_u64 x → is_u64 y → xorshift x k = xorshift y k → x = y.
Proof.
  intros Hk Hx Hy E. apply Z.bits_inj'. intros i Hi.
  assert (Hdown : ∀ m : nat, ∀ i, 0 ≤ i → 64 ≤ i + Z.of_nat m → Z.testbit x i = Z.testbit y i).
  { induction m as [|m IH]; intros j Hj Hm; [rewrite !testbit_u64 by (done || lia); done|].
    assert (Hb : Z.testbit (xorshift x k) j = Z.testbit (xorshift y k) j) by by rewrite E.
    unfold xorshift in Hb. rewrite !Z.lxor_spec, !Z.shiftr_spec in Hb by lia. rewrite (IH (j + k)) in Hb by lia.
    destruct (Z.testbit x j), (Z.testbit y j), (Z.testbit y (j + k)); done. }
  apply (Hdown 64%nat); lia.
Qed.

Lemma xorshift_range z k : is_u64 z → 0 ≤ k → is_u64 (xorshift z k).
Proof.
  intros Hz Hk. unfold xorshift. assert (Hs : 0 ≤ Z.shiftr z k ≤ z).
  { split; [apply Z.shiftr_nonneg; apply Hz|]. rewrite Z.shiftr_div_pow2 by lia. apply Z.div_le_upper_bound; [lia|].
    destruct Hz. pose proof (Z.pow_pos_nonneg 2 k). nia. }
  assert (Hn : 0 ≤ Z.lxor z (Z.shiftr z k)) by (apply Z.lxor_nonneg; unfold is_u64 in *; lia).
  split; [done|]. destruct (decide (Z.lxor z (Z.shiftr z k) = 0)) as [->|Hne]; [lia|].
  change 18446744073709551616 with (2 ^ 64). apply Z.log2_lt_pow2; [lia|].
  pose proof (Z.log2_lxor z (Z.shiftr z k) ltac:(apply Hz) ltac:(lia)) as Hl.
  assert (Hlog : ∀ x, is_u64 x → Z.log2 x < 64).
  { intros x [? ?]. destruct (decide (x = 0)) as [->|]; [cbn; lia|]. apply Z.log2_lt_pow2; [lia|].
    change (2 ^ 64) with 18446744073709551616. lia. }
  pose proof (Hlog z Hz). pose proof (Hlog (Z.shiftr z k) ltac:(unfold is_u64 in *; lia)). lia.
Qed.

Lemma odd_mul_inj c inv x y : u64 (c * inv) = 1 → is_u64 x → is_u64 y → u64 (x * c) = u64 (y * c) → x = y.
Proof.
  intros Hc Hx Hy E.
  assert (Hback : ∀ z, is_u64 z → u64 (u64 (z * c) * inv) = z).
  { intros z Hz. unfold u64 in *. rewrite Zmult_mod_idemp_l, <- Z.mul_assoc, <- Zmult_mod_idemp_r, Hc, Z.mul_1_r. by apply Z.mod_small. }
  rewrite <- (Hback x), <- (Hback y) by done. by rewrite E.
Qed.

Lemma mix_inj x y : is_u64 x → is_u64 y → mix x = mix y → x = y.
Proof.
  intros Hx Hy E. unfold mix in E. cbv zeta in E.
  apply xorshift_inj in E; [|lia|apply u64_range..].
  apply (odd_mul_inj mul2 3573116690164977347) in E; [|vm_compute; reflexivity|apply xorshift_range; [apply u64_range|lia]..].
  apply xorshift_inj in E; [|lia|apply u64_range..].
  apply (odd_mul_inj mul1 10871156337175269513) in E; [|vm_compute; reflexivity|apply xorshift_range; [done|lia]..].
  by apply xorshift_inj in E.
Qed.

(** The i-th value drawn from a state, counted from 1. *)
Definition drawn (state i : Z) : Z := mix (u64 (state + i * gamma)).

Lemma draw_none fuel limit n state : draw fuel limit n state = None →
  ∀ i, 1 ≤ i ≤ Z.of_nat fuel → limit < drawn state i.
Proof.
  revert state. induction fuel as [|fuel IH]; intros state E i Hi; [lia|]. cbn [draw next] in E.
  destruct (Z.ltb_spec limit (mix (u64 (state + gamma)))) as [Hl|]; [|done].
  destruct (decide (i = 1)) as [->|]; [unfold drawn; by rewrite Z.mul_1_l|].
  specialize (IH _ E (i - 1) ltac:(lia)). unfold drawn in *. unfold u64 in *. rewrite Zplus_mod_idemp_l in IH.
  by replace (state + i * gamma) with (state + gamma + (i - 1) * gamma) by lia.
Qed.

Lemma drawn_inj state i j : 1 ≤ i ≤ u64_max → 1 ≤ j ≤ u64_max → drawn state i = drawn state j → i = j.
Proof.
  intros Hi Hj E%mix_inj; [|apply u64_range..].
  apply (odd_mul_inj gamma 17428512612931826493); [vm_compute; reflexivity|unfold is_u64, u64_max in *; lia..|].
  unfold u64 in *. apply (f_equal (λ x, (x - state) mod 18446744073709551616)) in E. rewrite !Zminus_mod_idemp_l in E.
  by replace (i * gamma) with (state + i * gamma - state) by lia; replace (j * gamma) with (state + j * gamma - state) by lia.
Qed.

Lemma mix_range z : is_u64 (mix z).
Proof. unfold mix. cbv zeta. apply xorshift_range; [apply u64_range|lia]. Qed.

(** More distinct draws than there are values to reject. *)
Lemma draw_some n state : 1 < n < u64_max → is_Some (draw (S (Z.to_nat n)) (draw_limit n) n state).
Proof.
  intros Hn. destruct (draw _ _ _ _) as [r|] eqn:E; [done|exfalso]. pose proof (draw_none _ _ _ _ E) as Hd.
  set (vs := drawn state <$> seqZ 1 (n + 1)). set (bad := seqZ (draw_limit n + 1) (u64_max - draw_limit n)).
  assert (Hnd : NoDup vs).
  { apply NoDup_fmap_2_strong; [|apply NoDup_seqZ]. intros i j Hi%elem_of_seqZ Hj%elem_of_seqZ. apply drawn_inj; lia. }
  assert (Hsub : vs ⊆+ bad).
  { apply NoDup_submseteq; [done|]. intros v (i & -> & Hi%elem_of_seqZ)%list_elem_of_fmap. apply elem_of_seqZ.
    specialize (Hd i ltac:(lia)). pose proof (mix_range (u64 (state + i * gamma))). unfold drawn, is_u64, u64_max in *. lia. }
  apply submseteq_length in Hsub. subst vs bad. rewrite length_fmap, !length_seqZ in Hsub.
  pose proof (Z.mod_pos_bound u64_max n ltac:(lia)). unfold draw_limit in Hsub. lia.
Qed.

Lemma draw_value fuel limit n state v state' : draw fuel limit n state = Some (v, state') →
  ∃ i, 1 ≤ i ≤ Z.of_nat fuel ∧ drawn state i ≤ limit ∧ v = drawn state i mod n ∧ (∀ j, 1 ≤ j < i → limit < drawn state j).
Proof.
  revert state. induction fuel as [|fuel IH]; intros state E; [done|]. cbn [draw next] in E.
  assert (Hshift : ∀ i, drawn (u64 (state + gamma)) i = drawn state (i + 1)).
  { intros i. unfold drawn, u64. rewrite Zplus_mod_idemp_l. do 2 f_equal. lia. }
  destruct (Z.ltb_spec limit (mix (u64 (state + gamma)))) as [Hl|Hl].
  - destruct (IH _ E) as (i & Hi & Hle & Hv & Hbefore). rewrite Hshift in *. exists (i + 1). split_and!; [lia|lia|done|done|].
    intros j Hj. destruct (decide (j = 1)) as [->|]; [unfold drawn; by rewrite Z.mul_1_l|].
    replace j with (j - 1 + 1) by lia. rewrite <- Hshift. apply Hbefore. lia.
  - injection E as <- _. exists 1. unfold drawn. rewrite Z.mul_1_l. split_and!; try done; lia.
Qed.

(** Below(n) ends within n + 1 draws from any state of the generator
    (distinct states give distinct values, and fewer than n + 1 values are
    rejected); its answer is the residue of the first value not rejected; and the
    choice is unbiased: the accepted values are the numbers below a multiple of n,
    so that each answer has the same number of them. *)
Theorem below_ends n state : n < u64_max →
  ∃ v state', below n state = Some (v, state') ∧ 0 ≤ v < Z.max 1 n ∧
    (1 < n → ∃ i, 1 ≤ i ≤ n + 1 ∧ v = drawn state i mod n ∧ drawn state i ≤ draw_limit n ∧
       (∀ j, 1 ≤ j < i → draw_limit n < drawn state j) ∧
       draw_limit n + 1 = n * (u64_max / n) ∧ 0 < u64_max / n).
Proof.
  intros Hn. unfold below. destruct (Z.leb_spec n 1) as [Hle|Hlt].
  - exists 0, state. split_and!; [done|lia|lia|lia].
  - destruct (draw_some n state ltac:(lia)) as [[v state'] E]. rewrite E. exists v, state'. split; [done|].
    destruct (draw_value _ _ _ _ _ _ E) as (i & Hi & Hle & -> & Hb). pose proof (Z.mod_pos_bound (drawn state i) n ltac:(lia)).
    split; [lia|]. intros _. exists i. pose proof (Z.div_mod u64_max n ltac:(lia)).
    split_and!; [lia|lia|done|done|done|unfold draw_limit; lia|]. apply Z.div_str_pos. lia.
Qed.

Lemma below_some n state : n < u64_max → ∃ v state', below n state = Some (v, state') ∧ 0 ≤ v < Z.max 1 n.
Proof.
  intros Hn. unfold below. destruct (Z.leb_spec n 1) as [Hle|Hlt]; [exists 0, state; split; [done|lia]|].
  destruct (draw_some n state ltac:(lia)) as [[v state'] E]. exists v, state'. split; [done|].
  destruct (draw_value _ _ _ _ _ _ E) as (i & _ & _ & -> & _). pose proof (Z.mod_pos_bound (drawn state i) n ltac:(lia)). lia.
Qed.

(** ** Bounded waiting, against an interface *)

(** The engine lists the warps that can run in index order, one at least. *)
Definition runnable_ok (count : Z) (r : list Z) : Prop :=
  StronglySorted Z.lt r ∧ Forall (λ idx, 0 ≤ idx < count) r ∧ r ≠ [].

(** A scheduler that gives every warp a place in a queue no longer than there are
    warps, and moves it forward at every turn another takes. *)
Class Fair (count : Z) (ok : nat → Scheduler → Prop) (rank : Scheduler → Z → Z) : Prop := {
  fair_rank k s w : ok k s → 0 ≤ w < count → 0 ≤ rank s w < count;
  fair_pick k s r : ok (S k) s → runnable_ok count r → ∃ p s', pick r s = Ret p s' ∧ p ∈ r ∧ ok k s' ∧
    ∀ w, w ∈ r → p ≠ w → rank s' w < rank s w;
}.

(** The picks of a run, one for each list of runnable warps. *)
Fixpoint picks (rs : list (list Z)) : M Scheduler (list Z) :=
  match rs with
  | [] => ret []
  | r :: rs' => p <- pick r ;; ps <- picks rs' ;; ret (p :: ps)
  end.

Section fair.
Context (count : Z) (ok : nat → Scheduler → Prop) (rank : Scheduler → Z → Z) `{Hfair : !Fair count ok rank}.

Lemma fair_total k rs s : ok (length rs + k) s → Forall (runnable_ok count) rs →
  ∃ ps s', picks rs s = Ret ps s' ∧ Forall2 (∈) ps rs ∧ ok k s'.
Proof.
  revert s. induction rs as [|r rs IH]; intros s Hok Hrs; [by exists [], s|]. apply Forall_cons in Hrs as [Hr1 Hrs].
  destruct (fair_pick (length rs + k) s r Hok Hr1) as (p & s1 & E & Hp & Hok1 & _). cbn [picks]. rewrite (bind_Ret _ _ _ _ _ E).
  destruct (IH s1 Hok1 Hrs) as (ps & s' & E' & H2 & Hk). rewrite (bind_Ret _ _ _ _ _ E'). exists (p :: ps), s'.
  split_and!; [done|by constructor|done].
Qed.

Lemma fair_run w rs s : ok (length rs) s → Forall (runnable_ok count) rs → Forall (λ r, w ∈ r) rs → 0 ≤ w < count →
  rank s w < Z.of_nat (length rs) → ∃ ps s', picks rs s = Ret ps s' ∧ Forall2 (∈) ps rs ∧ w ∈ ps.
Proof.
  revert s. induction rs as [|r rs IH]; intros s Hok Hrs Hw Hr Hlt.
  { pose proof (fair_rank 0 s w Hok Hr). cbn in Hlt. lia. }
  apply Forall_cons in Hrs as [Hr1 Hrs]. apply Forall_cons in Hw as [Hw1 Hw].
  destruct (fair_pick (length rs) s r Hok Hr1) as (p & s1 & E & Hp & Hok1 & Hrank).
  cbn [picks]. rewrite (bind_Ret _ _ _ _ _ E). destruct (decide (p = w)) as [->|Hne].
  - rewrite <- (Nat.add_0_r (length rs)) in Hok1. destruct (fair_total 0 rs s1 Hok1 Hrs) as (ps & s' & E' & H2 & _).
    rewrite (bind_Ret _ _ _ _ _ E'). exists (w :: ps), s'. split_and!; [done|by constructor|by left].
  - specialize (Hrank w Hw1 Hne). cbn [length] in Hlt. destruct (IH s1 Hok1 Hrs Hw Hr ltac:(lia)) as (ps & s' & E' & H2 & Hin).
    rewrite (bind_Ret _ _ _ _ _ E'). exists (p :: ps), s'. split_and!; [done|by constructor|by right].
Qed.

(** After any turns, a warp that stays runnable for as many turns as there are
    warps gets one. *)
Lemma fair_window w before window s : ok (length before + length window) s → Forall (runnable_ok count) (before ++ window) →
  Forall (λ r, w ∈ r) window → 0 ≤ w < count → count ≤ Z.of_nat (length window) →
  ∃ ps s1 qs s2, picks before s = Ret ps s1 ∧ picks window s1 = Ret qs s2 ∧ Forall2 (∈) ps before ∧ Forall2 (∈) qs window ∧ w ∈ qs.
Proof.
  intros Hok [Hb Hr]%Forall_app Hw Hwc Hlen. destruct (fair_total _ _ _ Hok Hb) as (ps & s1 & E1 & Hp & Hok1).
  destruct (fair_run w window s1 Hok1 Hr Hw Hwc) as (qs & s2 & E2 & Hq & Hin).
  { pose proof (fair_rank _ _ w Hok1 Hwc). lia. }
  by exists ps, s1, qs, s2.
Qed.
End fair.

(** ** Round robin *)

Definition round_ok (count : Z) (k : nat) (s : Scheduler) : Prop :=
  ∃ last_, s = RoundRobin last_ ∧ (last_ = size_max ∨ 0 ≤ last_ < count).
Definition round_rank (count : Z) (s : Scheduler) (w : Z) : Z :=
  match s with
  | RoundRobin last_ => if last_ <? w then w - last_ - 1 else if last_ <? count then count + w - last_ - 1 else w
  | _ => 0
  end.

Lemma sorted_lookup (r : list Z) (i j : nat) x y :
  StronglySorted Z.lt r → r !! i = Some x → r !! j = Some y → (i < j)%nat → x < y.
Proof.
  revert i j. induction r as [|z r IH]; intros i j Hs Hi Hj Hlt; [done|]. apply StronglySorted_cons in Hs as [Hz Hs].
  destruct j as [|j]; [lia|]. destruct i as [|i]; cbn in *.
  - simplify_eq. rewrite Forall_forall in Hz. apply Hz. by eapply list_elem_of_lookup_2.
  - eapply IH; [done|done|done|lia].
Qed.

(** The first index past the last pick, or the first of all. *)
Lemma pick_round_spec last_ r : r ≠ [] → StronglySorted Z.lt r → ∃ p, pick_round last_ r = Some p ∧ p ∈ r ∧
  ((last_ < p ∧ ∀ w, w ∈ r → last_ < w → p ≤ w) ∨ (∀ w, w ∈ r → w ≤ last_ ∧ p ≤ w)).
Proof.
  intros Hne Hs. unfold pick_round. destruct (list_find _ r) as [[i p]|] eqn:E.
  - apply list_find_Some in E as (Hi & Hp & Hmin). exists p. split_and!; [done|by eapply list_elem_of_lookup_2|].
    left. split; [done|]. intros w (j & Hj)%list_elem_of_lookup Hw. destruct (decide (j < i)%nat) as [Hlt|Hge].
    + destruct (Hmin j w Hj Hlt Hw).
    + destruct (decide (i = j)) as [->|]; [by simplify_eq|]. apply Z.lt_le_incl.
      eapply (sorted_lookup r i j); [done|done|done|lia].
  - destruct r as [|p r]; [done|]. exists p. split_and!; [done|by left|]. right. intros w Hw. split.
    + apply list_find_None in E. rewrite Forall_forall in E. specialize (E w Hw). cbn in E. lia.
    + apply StronglySorted_cons in Hs as [Hf _]. inversion Hw; subst; [lia|]. rewrite Forall_forall in Hf.
      apply Z.lt_le_incl. by apply Hf.
Qed.

Lemma round_fair count : count ≤ size_max → Fair count (round_ok count) (round_rank count).
Proof.
  intros Hc. split.
  - intros k s w (last_ & -> & Hl) Hw. cbn [round_rank]. unfold size_max, u64_max in *. bool_cases.
  - intros k s r (last_ & -> & Hl) (Hs & Hb & Hne). destruct (pick_round_spec last_ r Hne Hs) as (p & E & Hp & Hcase).
    rewrite Forall_forall in Hb. exists p, (RoundRobin p). cbn [pick]. rewrite E.
    split_and!; [done|done|exists p; split; [done|right; by apply Hb]|].
    intros w Hw Hpw. pose proof (Hb w Hw). pose proof (Hb p Hp). cbn [round_rank]. unfold size_max, u64_max in *.
    destruct Hcase as [[Hlp Hmin]|Hall].
    + specialize (Hmin w Hw). bool_cases.
    + specialize (Hall w Hw). bool_cases.
Qed.

(** ** Longest waiting first *)

Lemma seen_mark lr best tick i : 0 ≤ best → 0 ≤ i →
  seen_at (mark_run lr best tick) i = if decide (i = best) then tick else seen_at lr i.
Proof.
  intros Hb Hi. unfold mark_run. cbv zeta.
  set (grown := if _ : bool then _ else _).
  assert (Hlen : (Z.to_nat best < length grown)%nat).
  { subst grown. case_if; [rewrite length_resize; lia|lia]. }
  assert (Hold : ∀ j, default 0 (grown !! j) = default 0 (lr !! j)).
  { intros j. subst grown. case_if; [|done]. rewrite resize_ge by lia. destruct (decide (j < length lr)%nat).
    - by rewrite lookup_app_l by done.
    - rewrite lookup_app_r, (lookup_ge_None_2 lr) by lia. destruct (replicate _ _ !! _) eqn:E; [|done].
      by apply lookup_replicate_1 in E as [-> _]. }
  unfold seen_at. case_decide as E; [subst; by rewrite list_lookup_insert_eq by done|].
  rewrite list_lookup_insert_ne by lia. apply Hold.
Qed.

(** What the loop may choose. *)
Definition candidate (many : bool) (last_ idx : Z) : Prop := ¬ (idx = last_ ∧ many = true).

(** The loop's answer: the oldest of the candidates, where one is no younger than
    what it started from. *)
Definition chosen (many : bool) (last_ : Z) (lr r : list Z) (best oldest b o : Z) : Prop :=
  o ≤ oldest ∧ (∀ idx, idx ∈ r → candidate many last_ idx → o ≤ seen_at lr idx) ∧
  ((b = best ∧ o = oldest) ∨ (b ∈ r ∧ candidate many last_ b ∧ o = seen_at lr b)).

Lemma chosen_skip many last_ lr r idx best oldest b o : (candidate many last_ idx → oldest ≤ seen_at lr idx) →
  chosen many last_ lr r best oldest b o → chosen many last_ lr (idx :: r) best oldest b o.
Proof.
  intros Hle (Ho & Hmin & Hcase). split_and!; [done| |].
  - intros j Hj Hc. inversion Hj; subst; [specialize (Hle Hc); lia|by apply Hmin].
  - destruct Hcase as [?|(? & ? & ?)]; [by left|right]. split_and!; [by right|done|done].
Qed.

Lemma chosen_take many last_ lr r idx best oldest b o : candidate many last_ idx → seen_at lr idx ≤ oldest →
  chosen many last_ lr r idx (seen_at lr idx) b o → chosen many last_ lr (idx :: r) best oldest b o.
Proof.
  intros Hc Hle (Ho & Hmin & Hcase). split_and!; [lia| |].
  - intros j Hj Hcj. inversion Hj; subst; [done|by apply Hmin].
  - right. destruct Hcase as [[-> ->]|(? & ? & ?)]; split_and!; try done; (by left) || by right.
Qed.

Lemma oldest_loop_spec many last_ lr r best oldest rng : ∃ b o rng',
  oldest_loop many last_ lr r best oldest rng = Some (b, o, rng') ∧ chosen many last_ lr r best oldest b o.
Proof.
  revert best oldest rng. induction r as [|idx r IH]; intros best oldest rng.
  { exists best, oldest, rng. split; [done|]. split_and!; [lia| |by left]. intros idx Hidx. inversion Hidx. }
  assert (Hskip : ∀ rng, (candidate many last_ idx → oldest ≤ seen_at lr idx) → ∃ b o rng',
    oldest_loop many last_ lr r best oldest rng = Some (b, o, rng') ∧ chosen many last_ lr (idx :: r) best oldest b o).
  { intros g Hle. destruct (IH best oldest g) as (b & o & g' & E & Hch). exists b, o, g'. split; [done|by apply chosen_skip]. }
  assert (Htake : ∀ rng, candidate many last_ idx → seen_at lr idx ≤ oldest → ∃ b o rng',
    oldest_loop many last_ lr r idx (seen_at lr idx) rng = Some (b, o, rng') ∧ chosen many last_ lr (idx :: r) best oldest b o).
  { intros g Hc Hle. destruct (IH idx (seen_at lr idx) g) as (b & o & g' & E & Hch). exists b, o, g'. split; [done|by apply chosen_take]. }
  cbn [oldest_loop]. destruct ((idx =? last_) && many) eqn:Ex.
  - apply andb_true_iff in Ex as [Ei%Z.eqb_eq Em]. apply Hskip. intros Hc. by destruct Hc.
  - assert (Hc : candidate many last_ idx).
    { intros [-> ->]. rewrite Z.eqb_refl in Ex. done. }
    destruct (Z.ltb_spec (seen_at lr idx) oldest); [apply Htake; [done|lia]|].
    destruct (Z.eqb_spec (seen_at lr idx) oldest) as [Es|]; [|apply Hskip; lia].
    destruct (below_some 2 rng ltac:(done)) as (toss & rng' & -> & _). cbn [mbind option_bind].
    case_if; [apply Hskip; lia|apply Htake; [done|lia]].
Qed.

(** Some warp may be chosen: the last pick is passed over only for another. *)
Lemma some_candidate last_ r : r ≠ [] → StronglySorted Z.lt r →
  ∃ idx, idx ∈ r ∧ candidate (1 <? Z.of_nat (length r)) last_ idx.
Proof.
  intros Hne Hs. destruct r as [|a [|b r]]; [done| |].
  - exists a. split; [by left|]. by intros [_ ?].
  - apply StronglySorted_cons in Hs as [Hab _]. apply Forall_cons in Hab as [Hab _]. destruct (decide (a = last_)) as [->|].
    + exists b. split; [by right; left|]. intros [-> _]. lia.
    + exists a. split; [by left|]. by intros [? _].
Qed.

Definition adv_ok (count : Z) (k : nat) (s : Scheduler) : Prop :=
  ∃ rng lr tick last_, s = Adversarial rng lr tick last_ ∧ 0 ≤ tick ∧ tick + Z.of_nat k < u64_max ∧
    (∀ i, 0 ≤ i → 0 ≤ seen_at lr i ≤ tick) ∧ (last_ = size_max ∨ (0 ≤ last_ < count ∧ seen_at lr last_ = tick)).

(** The warps that may run before [w]. *)
Definition ahead (lr : list Z) (count w : Z) : list Z :=
  filter (λ p, p ≠ w ∧ seen_at lr p ≤ seen_at lr w) (seqZ 0 count).
Definition adv_rank (count : Z) (s : Scheduler) (w : Z) : Z :=
  match s with
  | Adversarial _ lr _ _ => Z.of_nat (length (ahead lr count w))
  | _ => 0
  end.

(** One pick: a candidate seen no later than any other. *)
Lemma adv_pick count k s r : count ≤ size_max → adv_ok count (S k) s → runnable_ok count r →
  ∃ rng lr tick last_ p rng', s = Adversarial rng lr tick last_ ∧
    pick r s = Ret p (Adversarial rng' (mark_run lr p (tick + 1)) (tick + 1) p) ∧ p ∈ r ∧
    candidate (1 <? Z.of_nat (length r)) last_ p ∧ (∀ w, w ∈ r → seen_at lr p ≤ seen_at lr w) ∧
    0 ≤ tick ∧ tick + Z.of_nat (S k) < u64_max ∧ (∀ i, 0 ≤ i → 0 ≤ seen_at lr i ≤ tick).
Proof.
  intros Hc (rng & lr & tick & last_ & -> & H0 & Hk & Hseen & Hlast) (Hs & Hb & Hne). rewrite Forall_forall in Hb.
  cbn [pick]. unfold u64. rewrite Z.mod_small by (unfold u64_max in *; lia). destruct (head r) as [front|] eqn:Eh; [|by destruct r].
  destruct (some_candidate last_ r Hne Hs) as (c & Hcr & Hcc). set (many := 1 <? Z.of_nat (length r)) in *.
  destruct (oldest_loop_spec many last_ lr r front u64_max rng) as (b & o & rng' & E & _ & Hmin & Hcase). rewrite E.
  pose proof (Hmin c Hcr Hcc) as Hoc. pose proof (Hseen c ltac:(apply Hb, Hcr)).
  destruct Hcase as [[-> ->]|(Hbr & Hbc & ->)]; [unfold u64_max in *; lia|].
  exists rng, lr, tick, last_, b, rng'. split_and!; try done. intros w Hw.
  destruct (decide (w = last_ ∧ many = true)) as [[-> Hm]|Hn]; [|by apply Hmin].
  destruct Hlast as [->|[_ ->]]; [|by apply Hseen, Hb]. exfalso. pose proof (Hb size_max Hw). unfold size_max, u64_max in *. lia.
Qed.

Lemma adv_fair count : count ≤ size_max → Fair count (adv_ok count) (adv_rank count).
Proof.
  intros Hc. split.
  - intros k s w (rng & lr & tick & last_ & -> & _) Hw. cbn [adv_rank]. split; [lia|].
    assert (Hsub : w :: ahead lr count w ⊆+ seqZ 0 count).
    { apply NoDup_submseteq.
      - constructor; [|apply NoDup_filter, NoDup_seqZ]. unfold ahead. rewrite list_elem_of_filter. tauto.
      - intros p Hp. inversion Hp; subst; [apply elem_of_seqZ; lia|]. by apply list_elem_of_filter in H1 as [_ ?]. }
    apply submseteq_length in Hsub. cbn [length] in Hsub. rewrite length_seqZ in Hsub. lia.
  - intros k s r Hok Hr. destruct (adv_pick count k s r Hc Hok Hr) as (rng & lr & tick & last_ & p & rng' & -> & E & Hp & Hcd & Hmin & H0 & Hk & Hseen).
    destruct Hr as (_ & Hb & _). rewrite Forall_forall in Hb. pose proof (Hb p Hp) as Hpb.
    do 2 eexists. split; [exact E|]. split; [done|]. split.
    + exists rng', (mark_run lr p (tick + 1)), (tick + 1), p. split_and!; [done|lia|lia| |].
      * intros i Hi. rewrite seen_mark by lia. specialize (Hseen i Hi). case_decide; lia.
      * right. rewrite seen_mark by lia. by rewrite decide_True.
    + intros w Hw Hpw. cbn [adv_rank]. pose proof (Hb w Hw). pose proof (Hseen w ltac:(lia)).
      assert (Hsub : p :: ahead (mark_run lr p (tick + 1)) count w ⊆+ ahead lr count w).
      { apply NoDup_submseteq.
        - constructor; [|apply NoDup_filter, NoDup_seqZ]. unfold ahead. rewrite list_elem_of_filter.
          rewrite !seen_mark by lia. rewrite decide_True, decide_False by done. lia.
        - intros q Hq. apply list_elem_of_filter. inversion Hq as [|? ? ? Hq']; subst.
          + split; [|apply elem_of_seqZ; lia]. split; [done|by apply Hmin].
          + apply list_elem_of_filter in Hq' as [[Hqw Hle] Hqr]. apply elem_of_seqZ in Hqr as Hqb.
            rewrite !seen_mark in Hle by lia. rewrite (decide_False (P := w = p)) in Hle by done.
            split; [|done]. split; [done|]. case_decide; [lia|done]. }
      apply submseteq_length in Hsub. cbn [length] in Hsub. lia.
Qed.

(** ** The schedulers of the engine *)

(** Decides what a concrete list of runnable warps satisfies. *)
Ltac listed :=
  unfold runnable_ok; cbn [app];
  repeat match goal with
  | |- _ ∧ _ => split
  | |- StronglySorted _ [] => apply SSorted_nil
  | |- StronglySorted _ (_ :: _) => apply SSorted_cons
  | |- Forall _ [] => apply Forall_nil_2
  | |- Forall _ (_ :: _) => apply Forall_cons_2
  | |- _ ∈ _ => solve [repeat (apply list_elem_of_here || apply list_elem_of_further)]
  | |- _ ≠ _ => discriminate
  | |- _ => lia
  end.

Lemma make_round_ok count k seed : round_ok count k (make_scheduler Deterministic seed).
Proof. exists size_max. by split; [|left]. Qed.

Lemma make_adv_ok count k seed : Z.of_nat k < u64_max → adv_ok count k (make_scheduler AdversarialKind seed).
Proof.
  intros Hk. unfold make_scheduler. cbv zeta. eexists _, [], 0, size_max. split_and!; [done|lia|lia| |by left].
  intros i Hi. unfold seen_at. rewrite lookup_nil. cbn. lia.
Qed.

(** C37: under the deterministic and the adversarial scheduler no warp starves:
    whatever was picked before, a warp that stays runnable for as many turns as the
    block has warps is picked in one of them; and every pick is a runnable warp. *)
Theorem scheduler_fair kind seed count w before window : kind ≠ Random → count ≤ size_max →
  Z.of_nat (length before + length window) < u64_max → Forall (runnable_ok count) (before ++ window) →
  Forall (λ r, w ∈ r) window → 0 ≤ w < count → count ≤ Z.of_nat (length window) →
  ∃ ps s1 qs s2, picks before (make_scheduler kind seed) = Ret ps s1 ∧ picks window s1 = Ret qs s2 ∧
    Forall2 (∈) ps before ∧ Forall2 (∈) qs window ∧ w ∈ qs.
Proof.
  intros Hk Hc Hlen Hr Hw Hwc Hcw. destruct kind; [|done|].
  - pose proof (round_fair count Hc). apply (fair_window count (round_ok count) (round_rank count)); [apply make_round_ok|done..].
  - pose proof (adv_fair count Hc). apply (fair_window count (adv_ok count) (adv_rank count)); [by apply make_adv_ok|done..].
Qed.

Lemma scheduler_fair_witness : ∃ qs s2, picks [[0;1;2];[0;2];[0;1;2]] (make_scheduler AdversarialKind 7) = Ret qs s2 ∧ 2 ∈ qs.
Proof.
  destruct (scheduler_fair AdversarialKind 7 3 2 [] [[0;1;2];[0;2];[0;1;2]]) as (ps & s1 & qs & s2 & E1 & E2 & _ & _ & Hin).
  - discriminate.
  - unfold size_max, u64_max. lia.
  - unfold u64_max. cbn. lia.
  - listed.
  - listed.
  - lia.
  - cbn. lia.
  - exists qs, s2. cbn [picks] in E1. injection E1 as _ <-. split; assumption.
Defined.

Lemma below_ends_witness : ∃ v state', below 16 1 = Some (v, state') ∧ 0 ≤ v < 16.
Proof.
  destruct (below_ends 16 1 ltac:(unfold u64_max; lia)) as (v & st & E & Hv & _). exists v, st. split; assumption.
Defined.

(** Two picks in a row differ. *)
Lemma adv_alternates count rs k s p0 : count ≤ size_max → adv_ok count (length rs + k) s →
  (match s with Adversarial _ _ _ last_ => last_ = p0 | _ => False end) → Forall (runnable_ok count) rs →
  ∃ ps s', picks rs s = Ret ps s' ∧ ∀ i p q r, (p0 :: ps) !! i = Some p → ps !! i = Some q → rs !! i = Some r →
    (1 < length r)%nat → p ≠ q.
Proof.
  intros Hc. revert s p0. induction rs as [|r rs IH]; intros s p0 Hok Hp0 Hrs; [by exists [], s|].
  apply Forall_cons in Hrs as [Hr Hrs].
  destruct (adv_pick count (length rs + k) s r Hc Hok Hr) as (rng & lr & tick & last_ & p & rng' & -> & E & _ & Hcd & _). subst p0.
  destruct (@fair_pick _ _ _ (adv_fair count Hc) (length rs + k)%nat _ r Hok Hr) as (p' & s1 & E' & _ & Hok1 & _).
  rewrite E in E'. injection E' as <- <-.
  destruct (IH _ p Hok1 eq_refl Hrs) as (ps & s' & Eps & Halt). cbn [picks].
  rewrite (bind_Ret _ _ _ _ _ E), (bind_Ret _ _ _ _ _ Eps). exists (p :: ps), s'. split; [done|].
  intros [|i] x y r' Hx Hy Hr' Hl; cbn in *.
  - simplify_eq. intros ->. apply Hcd. split; [done|]. apply Z.ltb_lt. lia.
  - by eapply Halt.
Qed.

(** The adversarial scheduler switches warps at every turn where it can:
    two picks in a row are different warps whenever more than one can run, and each
    turn is one instruction long. *)
Theorem adversarial_switches seed count rs : count ≤ size_max → Z.of_nat (length rs) < u64_max →
  Forall (runnable_ok count) rs → ∃ ps s', picks rs (make_scheduler AdversarialKind seed) = Ret ps s' ∧
    slice s' = Ret 1 s' ∧
    ∀ i p q r, ps !! i = Some p → ps !! S i = Some q → rs !! S i = Some r → (1 < length r)%nat → p ≠ q.
Proof.
  intros Hc Hl Hrs. pose proof (make_adv_ok count (length rs + 0) seed ltac:(lia)) as Hok.
  destruct (adv_alternates count rs 0 _ size_max Hc Hok eq_refl Hrs) as (ps & s' & E & Halt). exists ps, s'. split; [done|].
  split; [|intros i p q r Hp Hq Hr; by apply (Halt (S i) p q r)].
  destruct (@fair_total _ _ _ (adv_fair count Hc) 0%nat rs _ Hok Hrs) as (ps' & s1 & E' & _ & Hok1). rewrite E in E'. injection E' as <- <-.
  by destruct Hok1 as (rng & lr & tick & last_ & -> & _).
Qed.

Lemma adversarial_switches_witness : ∃ ps s', picks [[0;1];[0;1]] (make_scheduler AdversarialKind 0) = Ret ps s' ∧
  ∀ p q, ps !! 0%nat = Some p → ps !! 1%nat = Some q → p ≠ q.
Proof.
  destruct (adversarial_switches 0 2 [[0;1];[0;1]]) as (ps & s' & E & _ & H).
  - unfold size_max, u64_max. lia.
  - unfold u64_max. cbn. lia.
  - listed.
  - exists ps, s'. split; [exact E|]. intros p q Hp Hq. exact (H 0%nat p q [0;1] Hp Hq eq_refl ltac:(cbn; lia)).
Defined.
