(* ===== verification/Faults.v ===== *)
(** * Fault injection (src/core/faults.cpp)

    Which occurrences of an operation fail, as the environment's variables select
    them: the parser of a selection, the plans of the three operations with their
    counters, and the question asked at every occurrence. Shown: what is asked for
    in the environment is exactly what fails, whatever the order of operations. *)

From Stdlib Require Import Ascii.
From stdpp Require Import strings.
From S2P Require Import Prelude Text.

#[local] Open Scope Z_scope.

Inductive Op := Alloc | Launch | Memcpy.
#[global] Instance Op_eq_dec : EqDecision Op.
Proof. solve_decision. Defined.

Record Plan := mkPlan { all : bool; at_ : gset Z; seen : Z }.
Definition active (p : Plan) : bool := all p || negb (bool_decide (at_ p = ∅)).

(** The process's plans, g_any, and whether enabled()'s once-only part has run. *)
Record State := mkState {
  plan_alloc : Plan;
  plan_launch : Plan;
  plan_memcpy : Plan;
  g_any : bool;
  once : bool;
}.
Definition no_plan : Plan := mkPlan false ∅ 0.
Definition start : State := mkState no_plan no_plan no_plan false false.

Definition plan (op : Op) (s : State) : Plan :=
  match op with Alloc => plan_alloc s | Launch => plan_launch s | Memcpy => plan_memcpy s end.
Definition set_plan (op : Op) (p : Plan) (s : State) : State :=
  match op with
  | Alloc => mkState p (plan_launch s) (plan_memcpy s) (g_any s) (once s)
  | Launch => mkState (plan_alloc s) p (plan_memcpy s) (g_any s) (once s)
  | Memcpy => mkState (plan_alloc s) (plan_launch s) p (g_any s) (once s)
  end.
Definition set_any (any : bool) (s : State) : State := mkState (plan_alloc s) (plan_launch s) (plan_memcpy s) any (once s).
Definition set_once (s : State) : State := mkState (plan_alloc s) (plan_launch s) (plan_memcpy s) (g_any s) true.

Definition env_name (op : Op) : string :=
  match op with Alloc => "VGPU_FAIL_ALLOC" | Launch => "VGPU_FAIL_LAUNCH" | Memcpy => "VGPU_FAIL_MEMCPY" end.
Definition op_name (op : Op) : string :=
  match op with Alloc => "allocation" | Launch => "kernel launch" | Memcpy => "memory copy" end.

(** parse_into's loop over the items; [any]: one was a number *)
Fixpoint parse_items (op : Op) (l : list string) (any : bool) : M State bool :=
  match l with
  | [] => ret any
  | item :: l' =>
      if bool_decide (item = "") then parse_items op l' any else
      match strtoull item with
      | Some (n, EmptyString) =>
          if 0 <? n
          then modify (λ s, set_plan op (mkPlan (all (plan op s)) ({[n]} ∪ at_ (plan op s)) (seen (plan op s))) s) ;;;
               parse_items op l' true
          else throw InvalidValue
      | _ => throw InvalidValue
      end
  end.

Definition parse_into (op : Op) (value : option string) : M State unit :=
  modify (λ s, set_plan op (mkPlan false ∅ (seen (plan op s))) s) ;;;
  match value with
  | None => ret tt
  | Some value =>
      let v := c_str value in
      if bool_decide (v = "") then ret tt else
      if bool_decide (v = "all") then modify (λ s, set_plan op (mkPlan true (at_ (plan op s)) (seen (plan op s))) s)
      else any <- parse_items op (items v "") false ;;
           s <- get ;;
           if negb any && negb (all (plan op s)) then throw InvalidValue else ret tt
  end.

Fixpoint refresh_ops (values : Op → option string) (ops : list Op) (any : bool) : M State bool :=
  match ops with
  | [] => ret any
  | op :: ops' =>
      parse_into op (values op) ;;;
      s <- get ;;
      refresh_ops values ops' (if active (plan op s) then true else any)
  end.
Definition refresh (values : Op → option string) : M State unit :=
  any <- refresh_ops values [Alloc; Launch; Memcpy] false ;;
  modify (set_any any).

(** enabled(): the environment is read once; a reading that throws is tried again. *)
Definition enabled (env : string → option string) : M State bool :=
  s <- get ;;
  (if once s then ret tt else refresh (λ op, env (env_name op)) ;;; modify set_once) ;;;
  s <- get ;;
  ret (g_any s).

Definition should_fail (env : string → option string) (op : Op) : M State bool :=
  on <- enabled env ;;
  if negb on then ret false else
  s <- get ;;
  let p := plan op s in
  if negb (active p) then ret false else
  let n := u64 (seen p + 1) in
  modify (set_plan op (mkPlan (all p) (at_ p) n)) ;;;
  ret (if all p then true else bool_decide (n ∈ at_ p)).

(** ** A program's operations *)

Fixpoint attempts (env : string → option string) (ops : list Op) : M State (list bool) :=
  match ops with
  | [] => ret []
  | op :: ops' => b <- should_fail env op ;; bs <- attempts env ops' ;; ret (b :: bs)
  end.

(** What a user asks for, and how it is spelled. *)
Inductive Ask := Nothing | Every | These (ns : list Z).
Definition spell (a : Ask) : option string :=
  match a with
  | Nothing => None
  | Every => Some "all"
  | These ns => Some (join (show_u64 <$> ns))
  end.
Definition ask_ok (a : Ask) : Prop :=
  match a with These ns => ns ≠ [] ∧ Forall (λ n, 0 < n ≤ u64_max) ns | _ => True end.
Definition asked (a : Ask) (k : Z) : bool :=
  match a with Nothing => false | Every => true | These ns => bool_decide (k ∈ ns) end.

(** ** Reading what was asked for *)

Lemma plan_set op p s : plan op (set_plan op p s) = p.
Proof. by destruct op. Qed.
Lemma plan_set_ne op op' p s : op ≠ op' → plan op (set_plan op' p s) = plan op s.
Proof. by destruct op, op'. Qed.
Lemma set_plan_twice op p q s : set_plan op p (set_plan op q s) = set_plan op p s.
Proof. by destruct op. Qed.
Lemma set_plan_same op s : set_plan op (plan op s) s = s.
Proof. by destruct op, s. Qed.
Ltac plan_simpl := repeat first [rewrite plan_set | rewrite set_plan_twice].

Definition asked_plan (a : Ask) (n : Z) : Plan :=
  match a with
  | Nothing => mkPlan false ∅ n
  | Every => mkPlan true ∅ n
  | These ns => mkPlan false (list_to_set ns) n
  end.

Lemma parse_items_show op ns any s : Forall (λ n, 0 < n ≤ u64_max) ns →
  parse_items op (show_u64 <$> ns) any s =
  Ret (any || negb (bool_decide (ns = [])))
    (set_plan op (mkPlan (all (plan op s)) (list_to_set ns ∪ at_ (plan op s)) (seen (plan op s))) s).
Proof.
  intros Hns. revert any s. induction Hns as [|n ns Hn Hns IH]; intros any s.
  - cbn. rewrite orb_false_r. f_equal. rewrite (left_id_L ∅ (∪)). destruct (plan op s) eqn:E. cbn. rewrite <- E. by rewrite set_plan_same.
  - cbn [fmap list_fmap parse_items]. rewrite bool_decide_false by (apply show_not_empty; left; lia).
    rewrite strtoull_show by lia. destruct (Z.ltb_spec 0 n); [|lia]. unfold modify, bind. rewrite IH.
    plan_simpl. cbn [all at_ seen]. rewrite orb_true_l, bool_decide_false by done. cbn. rewrite orb_true_r.
    do 3 f_equal. by rewrite (assoc_L (∪)), (comm_L (∪) (list_to_set ns)).
Qed.

Lemma parse_into_spell op a s : ask_ok a → parse_into op (spell a) s = Ret tt (set_plan op (asked_plan a (seen (plan op s))) s).
Proof.
  intros Ha. unfold parse_into. destruct a as [| |ns]; cbn [spell].
  - done.
  - change (c_str "all") with "all". rewrite bool_decide_false by done. rewrite bool_decide_true by done.
    unfold modify, bind. by plan_simpl.
  - destruct Ha as [Hne Hns].
    assert (Hd : Forall (every plain) (show_u64 <$> ns)).
    { apply Forall_fmap. eapply Forall_impl; [done|]. intros n Hn. cbv beta in Hn. apply show_u64_head. lia. }
    assert (Hl : show_u64 <$> ns ≠ []) by by destruct ns.
    assert (Hh : ∃ c s', join (show_u64 <$> ns) = String c s' ∧ plain c).
    { destruct ns as [|n ns]; [done|]. apply Forall_cons in Hns as [Hn _].
      destruct (show_u64_head n ltac:(lia)) as (_ & c & s' & Es & Hc). by eapply join_head. }
    cbv zeta. rewrite c_str_no_nul.
    2: { apply join_every; [by vm_compute|]. eapply Forall_impl; [done|]. intros x Hx. eapply every_impl; [done|]. intros c Hc. by apply plain_not. }
    destruct Hh as (c & s' & Ej & Hc).
    rewrite !bool_decide_false.
    2: { rewrite Ej. intros E. injection E as -> _. by vm_compute in Hc. }
    2: { by rewrite Ej. }
    rewrite items_join; [|done|eapply Forall_impl; [done|]; intros x; apply plain_no_comma]. unfold modify. rewrite (bind_Ret _ _ _ tt (set_plan op (mkPlan false ∅ (seen (plan op s))) s)) by done.
    rewrite (bind_Ret _ _ _ _ _ (parse_items_show _ _ _ _ Hns)). plan_simpl. cbn [all at_ seen].
    unfold get, bind, ret. rewrite bool_decide_false by done. cbn. by rewrite (right_id_L ∅ (∪)).
Qed.

Definition asks_active (asks : Op → Ask) : bool := existsb (λ op, active (asked_plan (asks op) 0)) [Alloc; Launch; Memcpy].

Lemma active_asked a n n' : active (asked_plan a n) = active (asked_plan a n').
Proof. by destruct a. Qed.

(** The state once the environment has been read: how often each operation has
    been attempted matters only where something was asked for. *)
Definition running (asks : Op → Ask) (count : Op → Z) (s : State) : Prop :=
  once s = true ∧ g_any s = asks_active asks ∧
  ∀ op, plan op s = asked_plan (asks op) (if asks_active asks && active (asked_plan (asks op) 0) then count op else 0).

Lemma enabled_running env asks count s : running asks count s → enabled env s = Ret (asks_active asks) s.
Proof. intros (Ho & Hg & _). unfold enabled, get, bind, ret. rewrite Ho, Hg. done. Qed.

Lemma refresh_ops_step values asks op ops any s : ask_ok (asks op) → values op = spell (asks op) →
  refresh_ops values (op :: ops) any s =
  refresh_ops values ops (active (asked_plan (asks op) 0) || any) (set_plan op (asked_plan (asks op) (seen (plan op s))) s).
Proof.
  intros Ha Hv. cbn [refresh_ops]. rewrite Hv. rewrite (bind_Ret _ _ _ _ _ (parse_into_spell op (asks op) s Ha)).
  unfold get, bind. rewrite plan_set, (active_asked _ _ 0). by destruct (active _).
Qed.

Lemma refresh_start values asks : (∀ op, ask_ok (asks op)) → (∀ op, values op = spell (asks op)) →
  ∃ s, refresh values start = Ret tt s ∧ g_any s = asks_active asks ∧ ∀ op, plan op s = asked_plan (asks op) 0.
Proof.
  intros Ha Hv. unfold refresh, bind. rewrite !(refresh_ops_step values asks) by done. cbn [refresh_ops].
  unfold ret, modify. eexists. split; [done|]. split; [|by intros []].
  cbn [set_any g_any]. unfold asks_active. cbn [existsb].
  by destruct (active (asked_plan (asks Alloc) 0)), (active (asked_plan (asks Launch) 0)), (active (asked_plan (asks Memcpy) 0)).
Qed.

(** The first question reads the environment. *)
Lemma enabled_start env asks : (∀ op, ask_ok (asks op)) → (∀ op, env (env_name op) = spell (asks op)) →
  ∃ s, enabled env start = Ret (asks_active asks) s ∧ running asks (λ _, 0) s.
Proof.
  intros Ha Hv. destruct (refresh_start (λ op, env (env_name op)) asks Ha Hv) as (s & E & Hg & Hp).
  exists (set_once s). unfold enabled, get. unfold bind at 1. cbn [once start].
  rewrite (bind_Ret _ _ _ tt (set_once s)) by (unfold bind; by rewrite E). unfold bind, ret. cbn [set_once g_any].
  rewrite Hg. split; [done|]. split_and!; [done|done|]. intros op. case_if; by rewrite <- Hp; destruct op.
Qed.

Definition bump (op : Op) (count : Op → Z) : Op → Z := λ op', if decide (op' = op) then count op' + 1 else count op'.

Lemma asked_inactive a k n : active (asked_plan a n) = false → asked a k = false.
Proof.
  destruct a as [| |ns]; [done|done|]. unfold active. cbn. intros E%negb_false_iff%bool_decide_eq_true.
  apply bool_decide_eq_false_2. intros Hk. apply (elem_of_list_to_set (C := gset Z)) in Hk. rewrite E in Hk. by apply elem_of_empty in Hk.
Qed.

Lemma asks_inactive asks op : asks_active asks = false → active (asked_plan (asks op) 0) = false.
Proof. unfold asks_active. cbn [existsb]. rewrite !orb_false_iff. intros (? & ? & ? & _). by destruct op. Qed.

Lemma active_op asks op : active (asked_plan (asks op) 0) = true → asks_active asks = true.
Proof. intros E. destruct (asks_active asks) eqn:Ea; [done|]. by rewrite (asks_inactive asks op Ea) in E. Qed.

(** A question about an operation nobody asked to fail changes nothing. *)
Lemma running_inactive asks count op s : active (asked_plan (asks op) 0) = false → running asks count s → running asks (bump op count) s.
Proof.
  intros Ei (Ho & Hg & Hp). split_and!; [done|done|]. intros op'. rewrite Hp. unfold bump. destruct (decide (op' = op)) as [->|]; [|done].
  by rewrite Ei, andb_false_r.
Qed.

Lemma asked_answer a n : (if all (asked_plan a n) then true else bool_decide (n ∈ at_ (asked_plan a n))) = asked a n.
Proof.
  destruct a as [| |ns]; cbn; [|done|].
  - by apply bool_decide_eq_false_2.
  - apply bool_decide_ext. apply elem_of_list_to_set.
Qed.

(** One attempt in a running process. *)
Lemma attempt env asks count op s s0 : enabled env s0 = Ret (asks_active asks) s → running asks count s →
  0 ≤ count op < u64_max → ∃ s', should_fail env op s0 = Ret (asked (asks op) (count op + 1)) s' ∧ running asks (bump op count) s'.
Proof.
  intros E Hrun Hc. unfold should_fail. rewrite (bind_Ret _ _ _ _ _ E).
  destruct (active (asked_plan (asks op) 0)) eqn:Eop.
  - rewrite (active_op _ _ Eop). cbn [negb]. destruct Hrun as (Ho & Hg & Hp). pose proof (Hp op) as Hpo.
    rewrite (active_op _ _ Eop), Eop in Hpo. cbn [andb] in Hpo. unfold get. unfold bind at 1. cbv zeta.
    rewrite Hpo, (active_asked _ _ 0), Eop. cbn [negb]. replace (seen (asked_plan (asks op) (count op))) with (count op) by by destruct (asks op).
    rewrite u64_small by (unfold is_u64, u64_max in *; lia). unfold modify, bind, ret. eexists. split.
    + f_equal. rewrite <- asked_answer. by destruct (asks op).
    + split_and!; [by destruct op|by destruct op|]. intros op'. unfold bump. destruct (decide (op' = op)) as [->|Hne].
      * rewrite plan_set, (active_op _ _ Eop), Eop. by destruct (asks op).
      * by rewrite plan_set_ne, Hp.
  - rewrite (asked_inactive _ _ _ Eop). exists s. split; [|by apply running_inactive].
    destruct Hrun as (_ & _ & Hp). destruct (asks_active asks); cbn [negb]; [|done]. unfold get, bind. rewrite Hp.
    by rewrite (active_asked _ _ 0), Eop.
Qed.

(** How often an operation occurs among the first [i]. *)
Definition occurrences (op : Op) (ops : list Op) (i : nat) : Z := Z.of_nat (length (filter (op =.) (take i ops))).

Definition answers (asks : Op → Ask) (count : Op → Z) (ops : list Op) (bs : list bool) : Prop :=
  length bs = length ops ∧
  ∀ i op b, ops !! i = Some op → bs !! i = Some b → b = asked (asks op) (count op + occurrences op ops (S i)).

Lemma answers_cons asks count op ops bs : answers asks (bump op count) ops bs →
  answers asks count (op :: ops) (asked (asks op) (count op + 1) :: bs).
Proof.
  intros [Hl Ha]. split; [cbn; by rewrite Hl|]. intros [|i] op' b Hop Hb; cbn in Hop, Hb.
  - simplify_eq. do 2 f_equal. unfold occurrences. cbn [take]. rewrite filter_cons_True by done. rewrite take_0. done.
  - rewrite (Ha i op' b Hop Hb). f_equal. unfold occurrences, bump. cbn [take]. destruct (decide (op' = op)) as [->|Hne].
    + rewrite (filter_cons_True _ op) by done. cbn [length]. lia.
    + by rewrite (filter_cons_False _ op) by done.
Qed.

Lemma attempts_answer env asks ops count s0 s : enabled env s0 = Ret (asks_active asks) s → running asks count s →
  (∀ op, 0 ≤ count op) → (∀ op, count op + Z.of_nat (length ops) ≤ u64_max) →
  ∃ bs s', attempts env ops s0 = Ret bs s' ∧ answers asks count ops bs.
Proof.
  revert count s0 s. induction ops as [|op ops IH]; intros count s0 s E Hrun H0 Hle; [by exists [], s0|]. cbn [length] in Hle.
  destruct (attempt env asks count op s s0 E Hrun) as (s1 & E1 & Hrun1); [specialize (H0 op); specialize (Hle op); lia|].
  destruct (IH (bump op count) s1 s1 (enabled_running _ _ _ _ Hrun1) Hrun1) as (bs & s' & E2 & Ha).
  - intros op'. unfold bump. specialize (H0 op'). case_decide; lia.
  - intros op'. unfold bump. specialize (Hle op'). case_decide; lia.
  - cbn [attempts]. rewrite (bind_Ret _ _ _ _ _ E1), (bind_Ret _ _ _ _ _ E2). eexists _, s'. split; [done|by apply answers_cons].
Qed.

(** C38: what the environment asks for is what fails. With the three variables
    spelled as 'all' or as lists of occurrence numbers, and whatever the order in
    which a process allocates, launches and copies, the k-th occurrence of an
    operation fails exactly when its variable says so: numbers are counted for each
    operation, from one, and count every occurrence, failed or not. *)
Theorem faults_as_asked env asks ops : (∀ op, ask_ok (asks op)) → (∀ op, env (env_name op) = spell (asks op)) →
  Z.of_nat (length ops) ≤ u64_max →
  ∃ bs s', attempts env ops start = Ret bs s' ∧ length bs = length ops ∧
    ∀ i op b, ops !! i = Some op → bs !! i = Some b → b = asked (asks op) (occurrences op ops (S i)).
Proof.
  intros Ha Henv Hlen. destruct (enabled_start env asks Ha Henv) as (s & E & Hrun).
  destruct (attempts_answer env asks ops (λ _, 0) start s E Hrun ltac:(done) ltac:(done)) as (bs & s' & E2 & Hl & Hans). by exists bs, s'.
Qed.

Definition sample_asks (op : Op) : Ask := match op with Alloc => These [2; 3] | Launch => Nothing | Memcpy => Every end.
Definition sample_env (name : string) : option string :=
  if bool_decide (name = "VGPU_FAIL_ALLOC") then Some "2,3" else if bool_decide (name = "VGPU_FAIL_MEMCPY") then Some "all" else None.

Lemma faults_as_asked_witness : ∃ bs s', attempts sample_env [Alloc; Launch; Alloc; Memcpy; Alloc; Alloc] start = Ret bs s' ∧
  bs !! 2%nat = Some true ∧ bs !! 3%nat = Some true ∧ bs !! 5%nat = Some false.
Proof.
  destruct (faults_as_asked sample_env sample_asks [Alloc; Launch; Alloc; Memcpy; Alloc; Alloc]) as (bs & s' & E & Hl & Ha).
  - intros []; cbn; try exact I. split; [discriminate|]. repeat constructor; unfold u64_max; lia.
  - intros []; vm_compute; reflexivity.
  - unfold u64_max. cbn. lia.
  - exists bs, s'. split; [exact E|]. destruct bs as [|b0 [|b1 [|b2 [|b3 [|b4 [|b5 bs]]]]]]; try discriminate Hl.
    rewrite (Ha 2%nat Alloc b2 eq_refl eq_refl), (Ha 3%nat Memcpy b3 eq_refl eq_refl), (Ha 5%nat Alloc b5 eq_refl eq_refl).
    vm_compute. repeat split; reflexivity.
Defined.

(** ** Bad selections *)

Definition bad_item (item : string) : Prop := item ≠ "" ∧ ∀ n, strtoull item = Some (n, "") → n ≤ 0.
Definition refused {A} (r : outcome State A) (s : State) : Prop := ∃ s', r = Exn (Error InvalidValue) s' ∧ once s' = once s.

Lemma once_set_plan op p s : once (set_plan op p s) = once s.
Proof. by destruct op. Qed.

Lemma parse_items_bad op l any s : Exists bad_item l → refused (parse_items op l any s) s.
Proof.
  intros Hb. revert any s. induction l as [|item l IH]; intros any s; [by inversion Hb|]. cbn [parse_items].
  destruct (decide (item = "")) as [->|Hne].
  { rewrite bool_decide_true by done. apply IH. inversion Hb as [? ? [? _]|]; [done|done]. }
  rewrite bool_decide_false by done. destruct (strtoull item) as [[n rest]|] eqn:E; [|by exists s].
  destruct rest; [|by exists s]. destruct (Z.ltb_spec 0 n); [|by exists s].
  unfold modify. rewrite (bind_Ret _ _ _ tt (set_plan op (mkPlan (all (plan op s)) ({[n]} ∪ at_ (plan op s)) (seen (plan op s))) s)) by done.
  destruct (IH ltac:(inversion Hb as [? ? [_ Hz]|]; [specialize (Hz n E); lia|done]) true
    (set_plan op (mkPlan (all (plan op s)) ({[n]} ∪ at_ (plan op s)) (seen (plan op s))) s)) as (s' & Es & Ho).
  exists s'. split; [done|]. by rewrite Ho, once_set_plan.
Qed.

Lemma parse_items_blank op l any s : Forall (λ item, item = "") l → parse_items op l any s = Ret any s.
Proof. induction 1 as [|item l -> Hl IH]; [done|]. cbn [parse_items]. by rewrite bool_decide_true. Qed.

(** A value that selects nothing or cannot be read. *)
Definition bad_value (v : string) : Prop :=
  v ≠ "" ∧ v ≠ "all" ∧ (Exists bad_item (items v "") ∨ Forall (λ item, item = "") (items v "")).

Lemma parse_into_bad op v s : bad_value (c_str v) → refused (parse_into op (Some v) s) s.
Proof.
  intros (Hne & Hall & Hcase). unfold parse_into, modify. set (s1 := set_plan op (mkPlan false ∅ (seen (plan op s))) s).
  assert (Ho : once s1 = once s) by apply once_set_plan. rewrite (bind_Ret _ _ _ tt s1) by done. cbv zeta.
  rewrite !bool_decide_false by done. destruct Hcase as [Hb|Hb].
  - destruct (parse_items_bad op _ false s1 Hb) as (s' & E & Hs'). rewrite (bind_Exn _ _ _ _ _ E). exists s'. split; [done|congruence].
  - rewrite (bind_Ret _ _ _ _ _ (parse_items_blank op _ false s1 Hb)). unfold get, bind. exists s1. split; [|done].
    unfold s1. by rewrite plan_set.
Qed.

(** A selection that is not a list of occurrence numbers is refused and
    never taken for an empty one: with an item that is no number, a zero, or nothing
    but commas in the variable of allocations, every question about any operation is
    an error, however often it is asked, until the variable is mended. *)
Theorem bad_selection env op v s : once s = false → env (env_name Alloc) = Some v → bad_value (c_str v) →
  ∃ s', should_fail env op s = Exn (Error InvalidValue) s' ∧ once s' = false.
Proof.
  intros Ho Henv Hb. destruct (parse_into_bad Alloc v s Hb) as (s' & E & Ho'). exists s'. split; [|congruence].
  unfold should_fail. apply bind_Exn. unfold enabled, get. unfold bind at 1. rewrite Ho. apply bind_Exn. apply bind_Exn.
  unfold refresh. apply bind_Exn. cbn [refresh_ops]. apply bind_Exn. cbv beta. by rewrite Henv.
Qed.

Lemma bad_selection_witness : ∃ s', should_fail (λ _, Some "2,first") Memcpy start = Exn (Error InvalidValue) s' ∧ once s' = false.
Proof.
  apply (bad_selection (λ _, Some "2,first") Memcpy "2,first" start); [reflexivity|reflexivity|].
  split; [discriminate|]. split; [discriminate|]. left.
  replace (items (c_str "2,first") "") with ["2"; "first"] by (vm_compute; reflexivity).
  right. left. split; [discriminate|]. intros n Hn. vm_compute in Hn. discriminate Hn.
Defined.
