(* ===== verification/Visible.v ===== *)
(** * Which devices a CUDA program sees (src/runtime/visible_devices.cpp)

    CUDA_VISIBLE_DEVICES and CUDA_DEVICE_ORDER, with the devices' UUIDs as
    telemetry::describe_device makes them. Shown: the devices seen are distinct
    devices of the machine; a list printed from indices, or from UUIDs, shows
    exactly those devices in that order; and a UUID prefix that several devices
    have is taken for one of them when they are an odd number. *)

From stdpp Require Import strings.
From Stdlib Require Import Ascii String.
From S2P Require Import Prelude Text.

Local Open Scope string_scope.
#[local] Open Scope Z_scope.

(** The two members of DeviceProfile that count here. *)
Record DeviceProfile := mkProfile { vendor : string; id : string }.
Record VisibleDevices := mkVisible { physical : list Z; error : Z }.

Definition kNoDevice : Z := 100.
Definition kInvalidDevice : Z := 101.

Definition trimmed (s : string) : string := trim isspace s.

Definition to_lower (c : ascii) : ascii :=
  if N.leb 65 (N_of_ascii c) && N.leb (N_of_ascii c) 90 then ascii_of_N (N_of_ascii c + 32) else c.
Fixpoint lowered (s : string) : string :=
  match s with EmptyString => "" | String c s' => String (to_lower c) (lowered s') end.

(** ** UUIDs *)

(** [%0wx]: hexadecimal, at least [w] digits *)
Definition hex_char (d : Z) : ascii := if d <? 10 then digit_char d else ascii_of_N (Z.to_N (87 + d)).
Fixpoint show_hex (fuel : nat) (n : Z) (rest : string) : string :=
  match fuel with
  | O => rest
  | S fuel' =>
      if n <? 16 then String (hex_char n) rest else show_hex fuel' (n / 16) (String (hex_char (n mod 16)) rest)
  end.
Fixpoint zeros (w : nat) : string := match w with O => "" | S w' => String "0" (zeros w') end.
Definition hex (w : nat) (n : Z) : string :=
  let s := show_hex 8 n "" in zeros (w - String.length s) +:+ s.

(** The hash of the profile's name. *)
Fixpoint fnv (s : string) (h : Z) : Z :=
  match s with
  | EmptyString => h
  | String c s' => fnv s' (u32 (Z.lxor h (Z.of_N (N_of_ascii c)) * 16777619))
  end.
Definition device_hash (p : DeviceProfile) (ordinal : Z) : Z :=
  let h := fnv (id p) 2166136261 in
  if bool_decide (vendor p = "nvidia") then Z.lxor h (u32 (ordinal * 2654435761)) else h.
(** describe_device's uuid *)
Definition uuid (p : DeviceProfile) (ordinal : Z) : string :=
  let h := device_hash p ordinal in
  "GPU-" +:+ hex 8 h +:+ "-" +:+ hex 4 (Z.land (Z.shiftr h 16) 65535) +:+ "-" +:+
  hex 4 (Z.lor 16384 (Z.land h 4095)) +:+ "-" +:+ hex 4 (Z.lor 32768 (Z.land (Z.shiftr h 4) 16383)) +:+ "-" +:+
  hex 8 (u32 (h * 2654435761)) +:+ hex 4 ordinal.

(** ** The list *)

Inductive Kind := kIndex | kUuid.
#[global] Instance Kind_eq_dec : EqDecision Kind.
Proof. solve_decision. Defined.

(** The loop over the machine's devices: -1 none, -2 more than one *)
Fixpoint match_uuid (want : string) (uuids : list string) (i device : Z) : Z :=
  match uuids with
  | [] => device
  | u :: rest => match_uuid want rest (i + 1) (if String.prefix want u then (if device <? 0 then i else -2) else device)
  end.

Definition kLongMax : Z := 9223372036854775807.
(** An element's kind and the device it names, negative for none. *)
Definition element_device (machine : Z) (uuids : list string) (element : string) : Kind * Z :=
  if String.prefix "gpu-" (lowered element) then (kUuid, match_uuid (lowered element) uuids 0 (-1))
  else match element with
       | String c _ =>
           if is_digit c then
             let v := fst (digits element 0) in
             (kIndex, if (v <=? kLongMax) && (v <? machine) then v else -1)
           else (kIndex, -1)
       | EmptyString => (kIndex, -1)
       end.

Definition finish (physical : list Z) : VisibleDevices :=
  mkVisible physical (match physical with [] => kNoDevice | _ => 0 end).

Fixpoint list_loop (machine : Z) (uuids : list string) (elements : list string) (list_kind : option Kind)
    (named : gset Z) (physical : list Z) : VisibleDevices :=
  match elements with
  | [] => finish physical
  | e :: rest =>
      let '(kind, device) := element_device machine uuids (trimmed e) in
      if device <? 0 then finish physical else
      if match list_kind with Some k => negb (bool_decide (kind = k)) | None => false end then finish physical else
      if bool_decide (device ∈ named) then mkVisible [] kInvalidDevice else
      list_loop machine uuids rest (Some kind) ({[device]} ∪ named) (physical ++ [device])
  end.

Definition all_devices (machine : Z) : list Z := seqZ 0 machine.
Definition bad_order (order : option string) : bool :=
  match order with
  | None => false
  | Some o => let o := c_str o in
      negb (bool_decide (o = "")) && negb (bool_decide (o = "FASTEST_FIRST")) && negb (bool_decide (o = "PCI_BUS_ID"))
  end.

Definition cuda_visible_devices (profile : DeviceProfile) (machine : Z) (visible order : option string) : VisibleDevices :=
  if negb (bool_decide (vendor profile = "nvidia")) then mkVisible [] kNoDevice else
  if bad_order order then mkVisible [] kInvalidDevice else
  match visible with
  | None => mkVisible (all_devices machine) 0
  | Some list =>
      let uuids := (λ i, lowered (uuid profile i)) <$> seqZ 0 machine in
      list_loop machine uuids (items (c_str list) "") None ∅ []
  end.

Definition sample_profile : DeviceProfile := mkProfile "nvidia" "rtx-3060".
Example two_devices : cuda_visible_devices sample_profile 2 (Some " 1 , 0") None = mkVisible [1; 0] 0.
Proof. vm_compute. reflexivity. Qed.

(** ** The devices seen are devices *)

Lemma match_uuid_range want us i d : -2 ≤ d < i → -2 ≤ match_uuid want us i d < i + Z.of_nat (length us).
Proof.
  revert i d. induction us as [|u us IH]; intros i d Hd; cbn [match_uuid length]; [lia|].
  pose proof (IH (i + 1) (if String.prefix want u then (if d <? 0 then i else -2) else d)) as H.
  assert (-2 ≤ i) by lia. repeat case_if; lia.
Qed.

Lemma digits_nonneg s v : 0 ≤ v → 0 ≤ fst (digits s v).
Proof.
  revert v. induction s as [|c s IH]; intros v Hv; cbn [digits]; [done|]. destruct (is_digit c) eqn:E; [|done]. apply IH.
  unfold is_digit, digit in *. apply andb_true_iff in E as [E _]. apply N.leb_le in E. lia.
Qed.

Lemma element_range machine us e : Z.of_nat (length us) = machine → snd (element_device machine us e) < machine.
Proof.
  intros Hl. unfold element_device. case_if.
  - pose proof (match_uuid_range (lowered e) us 0 (-1) ltac:(lia)). cbn. lia.
  - destruct e as [|c s]; [cbn; lia|]. destruct (is_digit c); [|cbn; lia]. cbn [snd].
    destruct ((fst (digits (String c s) 0) <=? kLongMax) && (fst (digits (String c s) 0) <? machine)) eqn:E; zify_bool; lia.
Qed.

Definition valid (machine : Z) (v : VisibleDevices) : Prop :=
  NoDup (physical v) ∧ Forall (λ d, 0 ≤ d < machine) (physical v) ∧
  (error v = 0 ∨ error v = kNoDevice ∨ error v = kInvalidDevice) ∧ (physical v ≠ [] → error v = 0).

Lemma list_loop_valid machine us es k named ph : Z.of_nat (length us) = machine →
  NoDup ph → Forall (λ d, 0 ≤ d < machine) ph → named = list_to_set ph →
  valid machine (list_loop machine us es k named ph) ∧
  (error (list_loop machine us es k named ph) = 0 ↔ physical (list_loop machine us es k named ph) ≠ []).
Proof.
  intros Hl. revert k named ph. induction es as [|e es IH]; intros k named ph Hnd Hr Hn; cbn [list_loop].
  - unfold finish, valid. destruct ph; cbn; split_and!; try done; auto.
  - assert (Hfin : valid machine (finish ph) ∧ (error (finish ph) = 0 ↔ physical (finish ph) ≠ [])).
    { unfold finish, valid. destruct ph; cbn; split_and!; try done; auto. }
    destruct (element_device machine us (trimmed e)) as [kind d] eqn:E.
    pose proof (element_range machine us (trimmed e) Hl) as Hd. rewrite E in Hd. cbn [snd] in Hd.
    destruct (Z.ltb_spec d 0); [done|]. case_if; [done|]. case_bool_decide as Hin.
    + split; [|done]. unfold valid. cbn. split_and!; try done; [constructor|auto].
    + apply IH.
      * apply NoDup_app. split_and!; [done| |apply NoDup_singleton]. intros x Hx Hx'%list_elem_of_singleton. subst.
        apply Hin. by apply elem_of_list_to_set.
      * apply Forall_app. split; [done|]. constructor; [|constructor]. lia.
      * rewrite Hn, list_to_set_app_L. cbn. by rewrite (right_id_L ∅ (∪)), (comm_L (∪)).
Qed.

(** ** Devices differ from the first eight digits of their UUIDs *)

Definition hex_value (c : ascii) : Z :=
  let n := Z.of_N (N_of_ascii c) in if n <? 58 then n - 48 else n - 87.
Fixpoint read_hex (s : string) (v : Z) : Z :=
  match s with EmptyString => v | String c s' => read_hex s' (16 * v + hex_value c) end.

(** What a hexadecimal digit is and is not. *)
Definition hex_digit (c : ascii) : Prop := to_lower c = c ∧ isspace c = false ∧ no_comma c ∧ no_nul c.

Lemma hex_char_ok d : 0 ≤ d < 16 → hex_value (hex_char d) = d ∧ hex_digit (hex_char d).
Proof.
  intros Hd. assert (d ∈ seqZ 0 16) as Hin by (apply elem_of_seqZ; lia). clear Hd. revert d Hin.
  assert (H : Forall (λ d, hex_value (hex_char d) = d ∧ hex_digit (hex_char d)) (seqZ 0 16)).
  { vm_compute. repeat constructor. }
  rewrite Forall_forall in H. exact H.
Qed.

Lemma show_hex_value fuel n rest v : 0 ≤ n < 16 ^ Z.of_nat fuel → (0 < fuel)%nat →
  ∃ k, 0 ≤ k ∧ read_hex (show_hex fuel n rest) v = read_hex rest (v * 16 ^ k + n).
Proof.
  revert n rest. induction fuel as [|fuel IH]; intros n rest Hn Hf; [lia|]. cbn [show_hex].
  destruct (Z.ltb_spec n 16) as [Hlt|Hge].
  - exists 1. split; [lia|]. cbn [read_hex]. rewrite (proj1 (hex_char_ok n ltac:(lia))). f_equal. lia.
  - assert (0 < Z.of_nat fuel) by (destruct fuel; [cbn in Hn; lia|lia]).
    destruct (IH (n / 16) (String (hex_char (n mod 16)) rest)) as (k & Hk & ->); [|lia|].
    { split; [apply Z.div_pos; lia|]. apply Z.div_lt_upper_bound; [lia|]. rewrite Nat2Z.inj_succ, Z.pow_succ_r in Hn by lia. lia. }
    cbn [read_hex]. rewrite (proj1 (hex_char_ok (n mod 16) ltac:(apply Z.mod_pos_bound; lia))).
    pose proof (Z.div_mod n 16 ltac:(lia)). exists (Z.succ k). split; [lia|]. f_equal. rewrite Z.pow_succ_r by done. lia.
Qed.

Lemma show_hex_digits fuel n rest : 0 ≤ n → every hex_digit rest → every hex_digit (show_hex fuel n rest).
Proof.
  revert n rest. induction fuel as [|fuel IH]; intros n rest Hn Hr; cbn [show_hex]; [done|].
  destruct (Z.ltb_spec n 16) as [Hlt|Hge].
  - split; [|done]. apply hex_char_ok. lia.
  - apply IH; [apply Z.div_pos; lia|]. split; [|done]. apply hex_char_ok. apply Z.mod_pos_bound. lia.
Qed.

Lemma show_hex_length fuel n rest : (String.length (show_hex fuel n rest) ≤ fuel + String.length rest)%nat.
Proof.
  revert n rest. induction fuel as [|fuel IH]; intros n rest; cbn [show_hex]; [lia|]. case_if; [cbn; lia|].
  specialize (IH (n / 16) (String (hex_char (n mod 16)) rest)). cbn in IH. lia.
Qed.

Lemma length_zeros w : String.length (zeros w) = w.
Proof. induction w as [|w IH]; [done|]. exact (f_equal S IH). Qed.
Lemma read_zeros w s : read_hex (zeros w +:+ s) 0 = read_hex s 0.
Proof. induction w as [|w IH]; [done|]. exact IH. Qed.
Lemma zeros_hex w : every hex_digit (zeros w).
Proof. induction w as [|w IH]; [done|]. split; [|done]. apply (hex_char_ok 0). lia. Qed.

Lemma hex_digits w n : 0 ≤ n → every hex_digit (hex w n).
Proof. intros Hn. unfold hex. apply every_app. split; [apply zeros_hex|by apply show_hex_digits]. Qed.

Definition is_u32 (x : Z) : Prop := 0 ≤ x < 4294967296.

Lemma hex8 n : is_u32 n → String.length (hex 8 n) = 8%nat ∧ read_hex (hex 8 n) 0 = n.
Proof.
  intros Hn. unfold hex. split.
  - rewrite length_append, length_zeros. pose proof (show_hex_length 8 n "") as H. cbn [String.length] in H. lia.
  - rewrite read_zeros. destruct (show_hex_value 8 n "" 0) as (k & _ & ->); [unfold is_u32 in Hn; cbn; lia|lia|]. cbn. lia.
Qed.

Lemma u32_is_u32 x : is_u32 (u32 x).
Proof. apply Z.mod_pos_bound. lia. Qed.

Lemma lxor_u32 x y : is_u32 x → is_u32 y → is_u32 (Z.lxor x y).
Proof.
  intros Hx Hy. assert (Hn : 0 ≤ Z.lxor x y) by (apply Z.lxor_nonneg; unfold is_u32 in *; lia). split; [done|].
  destruct (decide (Z.lxor x y = 0)) as [->|]; [lia|]. change 4294967296 with (2 ^ 32). apply Z.log2_lt_pow2; [lia|].
  assert (Hlog : ∀ z, is_u32 z → Z.log2 z < 32).
  { intros z [? ?]. destruct (decide (z = 0)) as [->|]; [cbn; lia|]. apply Z.log2_lt_pow2; [lia|]. change (2 ^ 32) with 4294967296. lia. }
  pose proof (Z.log2_lxor x y ltac:(apply Hx) ltac:(apply Hy)). pose proof (Hlog x Hx). pose proof (Hlog y Hy). lia.
Qed.

Lemma fnv_range s h : is_u32 h → is_u32 (fnv s h).
Proof. revert h. induction s as [|c s IH]; intros h Hh; [done|]. cbn [fnv]. apply IH. apply u32_is_u32. Qed.

Lemma device_hash_range p i : is_u32 (device_hash p i).
Proof.
  unfold device_hash. assert (is_u32 (fnv (id p) 2166136261)) by (apply fnv_range; unfold is_u32; lia).
  case_bool_decide; [apply lxor_u32; [done|apply u32_is_u32]|done].
Qed.

(** Distinct devices of an NVIDIA profile have distinct hashes. *)
Lemma device_hash_inj p i j : vendor p = "nvidia" → is_u32 i → is_u32 j → device_hash p i = device_hash p j → i = j.
Proof.
  intros Hv Hi Hj E. unfold device_hash in E. rewrite !bool_decide_true in E by done.
  apply (f_equal (Z.lxor (fnv (id p) 2166136261))) in E. rewrite <- !Z.lxor_assoc, !Z.lxor_nilpotent, !Z.lxor_0_l in E.
  assert (Hback : ∀ x, is_u32 x → u32 (u32 (x * 2654435761) * 244002641) = x).
  { intros x Hx. unfold u32. rewrite Zmult_mod_idemp_l, <- Z.mul_assoc, <- Zmult_mod_idemp_r.
    change (2654435761 * 244002641 mod 4294967296) with 1. rewrite Z.mul_1_r. by apply Z.mod_small. }
  rewrite <- (Hback i), <- (Hback j) by done. by rewrite E.
Qed.

(** ** Lists that name devices *)

Definition word (c : ascii) : Prop := isspace c = false ∧ no_comma c ∧ no_nul c.

Lemma trimmed_word s : every word s → trimmed s = s.
Proof. intros Hs. apply trim_none. eapply every_impl; [done|]. by intros c (? & _). Qed.

Definition uuid_tail (p : DeviceProfile) (ordinal : Z) : string :=
  let h := device_hash p ordinal in
  "-" +:+ hex 4 (Z.land (Z.shiftr h 16) 65535) +:+ "-" +:+
  hex 4 (Z.lor 16384 (Z.land h 4095)) +:+ "-" +:+ hex 4 (Z.lor 32768 (Z.land (Z.shiftr h 4) 16383)) +:+ "-" +:+
  hex 8 (u32 (h * 2654435761)) +:+ hex 4 ordinal.

Lemma uuid_split p i : uuid p i = "GPU-" +:+ hex 8 (device_hash p i) +:+ uuid_tail p i.
Proof. done. Qed.

Lemma hex_word s : every hex_digit s → every word s.
Proof. intros Hs. eapply every_impl; [done|]. by intros c (_ & ? & ? & ?). Qed.

Lemma uuid_words p i : 0 ≤ i → every word (uuid p i).
Proof.
  intros Hi. destruct (device_hash_range p i) as [Hh _]. rewrite uuid_split. unfold uuid_tail. cbv zeta.
  assert (Hl : ∀ x y, 0 ≤ x → 0 ≤ y → 0 ≤ Z.lor x y) by (intros x y Hx Hy; by apply Z.lor_nonneg).
  assert (Ha : ∀ x y, 0 ≤ y → 0 ≤ Z.land x y) by (intros x y Hy; apply Z.land_nonneg; by right).
  pose proof (u32_is_u32 (device_hash p i * 2654435761)) as [Hu _].
  rewrite !every_app. split_and!; try (apply hex_word, hex_digits; auto; (done || (apply Hl; [done|by apply Ha]) || by apply Ha)); by vm_compute.
Qed.

Lemma lowered_app a b : lowered (a +:+ b) = lowered a +:+ lowered b.
Proof. induction a as [|c a IH]; [done|]. exact (f_equal (String (to_lower c)) IH). Qed.
Lemma lowered_hex s : every hex_digit s → lowered s = s.
Proof. induction s as [|c s IH]; [done|]. intros [(Hc & _) Hs]. cbn [lowered]. by rewrite Hc, IH. Qed.

Lemma lowered_uuid p i : lowered (uuid p i) = "gpu-" +:+ hex 8 (device_hash p i) +:+ lowered (uuid_tail p i).
Proof. rewrite uuid_split, !lowered_app, (lowered_hex (hex _ _)) by (apply hex_digits; apply device_hash_range). done. Qed.

Lemma prefix_append a b : String.prefix a b = true → ∃ r, b = a +:+ r.
Proof.
  revert b. induction a as [|c a IH]; intros b Hp; [by exists b|]. destruct b as [|d b]; [done|]. cbn in Hp.
  destruct (ascii_dec c d) as [->|]; [|done]. destruct (IH b Hp) as [r ->]. by exists r.
Qed.
Lemma prefix_self a r : String.prefix a (a +:+ r) = true.
Proof. induction a as [|c a IH]; [by destruct r|]. change (String c a +:+ r) with (String c (a +:+ r)). cbn. destruct (ascii_dec c c); [exact IH|congruence]. Qed.

Lemma append_inj (a b r r' : string) : String.length a = String.length b → a +:+ r = b +:+ r' → a = b.
Proof.
  revert b. induction a as [|c a IH]; intros [|d b] Hl E; try done. injection Hl as Hl. injection E as -> E. f_equal. by apply IH.
Qed.

Lemma append_cancel (a r r' : string) : a +:+ r = a +:+ r' → r = r'.
Proof. induction a as [|c a IH]; intros E; [done|]. injection E as E. by apply IH. Qed.

(** A UUID is a prefix of its own device's only. *)
Lemma uuid_prefix p i j : vendor p = "nvidia" → is_u32 i → is_u32 j →
  String.prefix (lowered (uuid p i)) (lowered (uuid p j)) = bool_decide (i = j).
Proof.
  intros Hv Hi Hj. case_bool_decide as E.
  - subst. rewrite <- (append_nil (lowered (uuid p j))) at 2. apply prefix_self.
  - destruct (String.prefix _ _) eqn:Ep; [|done]. exfalso. apply prefix_append in Ep as [r Er]. rewrite !lowered_uuid in Er.
    rewrite !append_assoc in Er. apply append_cancel in Er. destruct (hex8 _ (device_hash_range p i)) as [Li Ri], (hex8 _ (device_hash_range p j)) as [Lj Rj].
    apply append_inj in Er; [|by rewrite Li, Lj]. apply E. apply (device_hash_inj p); try done. rewrite <- Ri, <- Rj. by rewrite Er.
Qed.

Lemma match_uuid_app want us vs i d :
  match_uuid want (us ++ vs) i d = match_uuid want vs (i + Z.of_nat (length us)) (match_uuid want us i d).
Proof.
  revert i d. induction us as [|u us IH]; intros i d; cbn [app match_uuid length]; [f_equal; lia|]. rewrite IH. f_equal. lia.
Qed.
Lemma match_uuid_none want us i d : Forall (λ u, String.prefix want u = false) us → match_uuid want us i d = d.
Proof. intros Hu. revert i. induction Hu as [|u us Hu _ IH]; intros i; cbn [match_uuid]; [done|]. by rewrite Hu, IH. Qed.

Lemma match_uuid_one p machine i : vendor p = "nvidia" → machine ≤ 4294967296 → 0 ≤ i < machine →
  match_uuid (lowered (uuid p i)) ((λ i, lowered (uuid p i)) <$> seqZ 0 machine) 0 (-1) = i.
Proof.
  intros Hv Hm Hi. replace machine with (i + (1 + (machine - i - 1))) by lia. rewrite seqZ_app, seqZ_app by lia.
  assert (Hother : ∀ a n, 0 ≤ a → a + n ≤ machine → (a + n ≤ i ∨ i < a) →
    Forall (λ u, String.prefix (lowered (uuid p i)) u = false) ((λ i, lowered (uuid p i)) <$> seqZ a n)).
  { intros a n Ha Hn Hout. apply Forall_fmap, Forall_forall. intros j Hj%elem_of_seqZ. cbn. rewrite uuid_prefix by (done || (unfold is_u32; lia)).
    apply bool_decide_eq_false_2. lia. }
  rewrite !fmap_app, !match_uuid_app. rewrite (match_uuid_none _ (_ <$> seqZ 0 i)) by (apply Hother; lia).
  rewrite (match_uuid_none _ (_ <$> seqZ (0 + i + 1) _)) by (apply Hother; lia).
  rewrite length_fmap, length_seqZ, (seqZ_cons _ 1) by lia. cbn [fmap list_fmap match_uuid].
  rewrite (seqZ_nil _ (Z.pred 1)) by lia. cbn [fmap list_fmap match_uuid].
  replace (0 + i) with i by lia. rewrite uuid_prefix by (done || (unfold is_u32; lia)). rewrite bool_decide_true by done. cbn [Z.ltb Z.compare]. lia.
Qed.

(** A list whose elements name distinct devices, all in one way. *)
Lemma list_loop_names machine us k es ds ph named : Forall2 (λ e d, element_device machine us (trimmed e) = (k, d)) es ds →
  Forall (λ d, 0 ≤ d) ds → NoDup (ph ++ ds) → named = list_to_set ph → ∀ lk, (lk = None ∨ lk = Some k) →
  list_loop machine us es lk named ph = finish (ph ++ ds).
Proof.
  intros H2. revert ph named. induction H2 as [|e d es ds He _ IH]; intros ph named Hds Hnd Hn lk Hlk; cbn [list_loop].
  { by rewrite app_nil_r. }
  rewrite He. apply Forall_cons in Hds as [Hd Hds]. destruct (Z.ltb_spec d 0); [lia|].
  assert ((match lk with Some k' => negb (bool_decide (k = k')) | None => false end) = false) as ->.
  { destruct Hlk as [->| ->]; [done|]. by rewrite bool_decide_true. }
  assert (Hnew : d ∉ named).
  { subst named. rewrite elem_of_list_to_set. intros Hin. apply NoDup_app in Hnd as (_ & Hd' & _). apply (Hd' d Hin). by left. }
  rewrite bool_decide_false by done. rewrite (IH (ph ++ [d])%list).
  - by rewrite <- (assoc_L (++)).
  - done.
  - by rewrite <- (assoc_L (++)).
  - rewrite Hn, list_to_set_app_L. cbn. by rewrite (right_id_L ∅ (∪)), (comm_L (∪)).
  - by right.
Qed.

(** The two ways of naming a device. *)
Definition spelled (k : Kind) (p : DeviceProfile) (d : Z) : string :=
  match k with kIndex => show_u64 d | kUuid => uuid p d end.

Lemma spelled_words k p d : 0 ≤ d → every word (spelled k p d).
Proof.
  intros Hd. destruct k; cbn [spelled]; [|by apply uuid_words]. eapply every_impl; [by apply show_u64_head|].
  intros c Hc. split_and!; [by apply plain_not_space|by apply plain_not|by apply plain_not].
Qed.

Lemma element_spelled k p machine d : vendor p = "nvidia" → machine ≤ 4294967296 → 0 ≤ d < machine →
  element_device machine ((λ i, lowered (uuid p i)) <$> seqZ 0 machine) (trimmed (spelled k p d)) = (k, d).
Proof.
  intros Hv Hm Hd. rewrite trimmed_word by (apply spelled_words; lia). unfold element_device. destruct k; cbn [spelled].
  - pose proof (show_u64_digits d ltac:(unfold u64_max; lia)) as Hdig. destruct (show_u64_head d ltac:(lia)) as (_ & c & s & E & Hc).
    rewrite E in *. assert (String.prefix "gpu-" (lowered (String c s)) = false) as ->.
    { cbn [lowered]. assert (to_lower c = c) as ->.
      { unfold to_lower, plain, is_digit in *. apply andb_true_iff in Hc as [_ Hc]. apply N.leb_le in Hc.
        assert (N.leb 65 (N_of_ascii c) = false) as -> by (apply N.leb_gt; lia). done. }
      cbn [String.prefix]. destruct (ascii_dec "g" c) as [<-|]; [by vm_compute in Hc|done]. }
    rewrite Hc, Hdig. cbn [fst]. unfold kLongMax. f_equal. bool_cases.
  - rewrite lowered_uuid at 1. rewrite prefix_self. f_equal. by apply match_uuid_one.
Qed.

(** C40: a list of distinct devices of the machine, all by index or all by UUID,
    shows exactly those devices in that order, with no error; without the variable
    every device is seen; and whatever the variables say, the devices seen are
    distinct devices of the machine, and an error goes with none at all. *)
Theorem visible_as_listed p machine k ds order : vendor p = "nvidia" → 0 ≤ machine ≤ 4294967296 → bad_order order = false →
  ds ≠ [] → NoDup ds → Forall (λ d, 0 ≤ d < machine) ds →
  cuda_visible_devices p machine (Some (join (spelled k p <$> ds))) order = mkVisible ds 0 ∧
  cuda_visible_devices p machine None order = mkVisible (seqZ 0 machine) 0 ∧
  ∀ visible, valid machine (cuda_visible_devices p machine visible order).
Proof.
  intros Hv Hm Ho Hne Hnd Hds. unfold cuda_visible_devices. rewrite bool_decide_true by done. rewrite Ho. cbn [negb]. split_and!.
  - assert (Hw : Forall (every word) (spelled k p <$> ds)).
    { apply Forall_fmap. eapply Forall_impl; [done|]. intros d Hd. cbn in *. apply spelled_words. lia. }
    cbv zeta. rewrite c_str_no_nul, items_join.
    + rewrite (list_loop_names machine _ k _ ds [] ∅); [by destruct ds| | |done|done|by left].
      * apply Forall2_fmap_l, Forall_Forall2_diag, Forall_forall. rewrite Forall_forall in Hds. intros d Hd. cbn.
        apply element_spelled; [done|lia|by apply Hds].
      * eapply Forall_impl; [done|]. cbn. lia.
    + by destruct ds.
    + eapply Forall_impl; [done|]. intros x Hx. eapply every_impl; [done|]. by intros c (_ & ? & _).
    + apply join_every; [by vm_compute|]. eapply Forall_impl; [done|]. intros x Hx. eapply every_impl; [done|]. by intros c (_ & _ & ?).
  - done.
  - intros [v|].
    + apply list_loop_valid; [|constructor..|done]. rewrite length_fmap, length_seqZ. lia.
    + unfold valid, all_devices. cbn. split_and!; [apply NoDup_seqZ| |by left|done]. apply Forall_forall. intros d Hd%elem_of_seqZ. lia.
Qed.

Lemma visible_as_listed_witness :
  cuda_visible_devices sample_profile 4 (Some (join (spelled kUuid sample_profile <$> [3; 1]))) None = mkVisible [3; 1] 0.
Proof.
  refine (proj1 (visible_as_listed sample_profile 4 kUuid [3; 1] None eq_refl _ eq_refl _ _ _)).
  - lia.
  - discriminate.
  - apply (bool_decide_eq_true_1 _). vm_compute. reflexivity.
  - repeat constructor; lia.
Defined.

(** ** A prefix that several devices have *)

(** Where every device matches, the last of an odd number is taken. *)
Lemma match_uuid_every want us : Forall (λ u, String.prefix want u = true) us → ∀ i d, 0 ≤ i →
  match_uuid want us i d =
    match us with
    | [] => d
    | _ => if xorb (Z.odd (Z.of_nat (length us))) (d <? 0) then -2 else i + Z.of_nat (length us) - 1
    end.
Proof.
  induction 1 as [|u us Hu _ IH]; intros i d Hi; [done|]. cbn [match_uuid length]. rewrite Hu, IH by lia.
  rewrite Nat2Z.inj_succ, Z.odd_succ, <- Z.negb_odd. destruct us as [|v us].
  - change (Z.odd (Z.of_nat (length []))) with false. destruct (d <? 0); cbn [negb xorb length]; lia.
  - assert (((if d <? 0 then i else -2) <? 0) = negb (d <? 0)) as -> by (destruct (d <? 0); [apply Z.ltb_ge; lia|done]).
    destruct (Z.odd _), (d <? 0); cbn [negb xorb]; done || lia.
Qed.

(** The text GPU- alone, which every device's UUID begins with and which
    should therefore name none, names the last device of a machine that has an odd
    number of them: the mark for more than one match is itself taken for no match
    by the next one. On an even number the list is empty, as it should be. *)
Theorem visible_ambiguous p machine order : vendor p = "nvidia" → 0 < machine → bad_order order = false →
  cuda_visible_devices p machine (Some "GPU-") order =
    if Z.odd machine then mkVisible [machine - 1] 0 else mkVisible [] kNoDevice.
Proof.
  intros Hv Hm Ho. unfold cuda_visible_devices. rewrite bool_decide_true by done. rewrite Ho. cbn [negb]. cbv zeta.
  set (us := _ <$> seqZ 0 machine).
  assert (Hl : Z.of_nat (length us) = machine) by (subst us; rewrite length_fmap, length_seqZ; lia).
  assert (E : match_uuid "gpu-" us 0 (-1) = if Z.odd machine then machine - 1 else -2).
  { rewrite match_uuid_every; [|subst us|lia].
    - rewrite Hl. destruct us as [|u us]; [cbn in Hl; lia|]. cbn [Z.ltb Z.compare]. destruct (Z.odd machine); cbn [xorb]; done || lia.
    - apply Forall_fmap, Forall_forall. intros i _. cbn. rewrite lowered_uuid. apply prefix_self. }
  change (items (c_str "GPU-") "") with ["GPU-"]. cbn [list_loop]. change (trimmed "GPU-") with "GPU-".
  unfold element_device. change (lowered "GPU-") with "gpu-". change (String.prefix "gpu-" "gpu-") with true. cbv iota beta. rewrite E.
  destruct (Z.odd machine); [|done]. destruct (Z.ltb_spec (machine - 1) 0); [lia|]. rewrite bool_decide_false by (apply not_elem_of_empty). done.
Qed.

Lemma visible_ambiguous_witness : cuda_visible_devices sample_profile 3 (Some "GPU-") None = mkVisible [2] 0.
Proof. exact (visible_ambiguous sample_profile 3 None eq_refl eq_refl eq_refl). Defined.
