(* ===== verification/Slots.v ===== *)
(** * Finding a thread's memory of lookups (src/core/memory.cpp)

    A thread finds its LookupMemory by its thread pointer in a table of slots that
    all threads share, without a lock: lookups(), lookups_probe(), make_lookups()
    and the destructor that gives the slot back, as a step relation of any number
    of threads, one atomic access a step. Shown: two threads never use one memory,
    and a thread that has one always finds it. *)

From S2P Require Import Prelude.

#[local] Open Scope Z_scope.

Definition kLookupSlots : Z := 1024.
Definition kLookupProbes : Z := 8.
Definition first_slot (t : Z) : Z := Z.lxor (Z.shiftr t 6) (Z.shiftr t 16) mod 1024.
(** The slot of the p-th probe. *)
Definition slot_of (t p : Z) : Z := (first_slot t + p) mod kLookupSlots.

(** LookupOwner, the thread's own record. Memories are numbered as they are made. *)
Record Owner := mkOwner { o_memory : option Z; o_slot : Z; o_ended : bool }.
Definition new_owner : Owner := mkOwner None 0 false.

(** Where a thread is: outside; about to read the p-th probe's slot (lookups and
    lookups_probe); about to try to take it (make_lookups); with the slot taken and
    the memory not yet made; with an answer ([None]: the memory that stays empty);
    ending, its slot still to be given back. A thread that has ended may still look
    something up, in the destructors that run after this one. *)
Inductive pc :=
  | Outside
  | Reading (p : Z)
  | Taking (p : Z)
  | Taken (i : Z)
  | Using (m : option Z)
  | Ending.

Record state := mkState {
  thread : Z → Z;          (* the table: the thread of a slot, 0 for none, *)
  memory : Z → Z;          (* and its memory *)
  owner : Z → Owner;
  at_ : Z → pc;
  made : Z;                (* memories made so far *)
}.

Definition upd {A} (f : Z → A) (k : Z) (v : A) : Z → A := λ x, if decide (x = k) then v else f x.
Lemma upd_eq {A} (f : Z → A) k v : upd f k v k = v.
Proof. unfold upd. by rewrite decide_True. Qed.
Lemma upd_ne {A} (f : Z → A) k v x : x ≠ k → upd f k v x = f x.
Proof. intros. unfold upd. by rewrite decide_False. Qed.

Definition go (s : state) (t : Z) (c : pc) : state := mkState (thread s) (memory s) (owner s) (upd (at_ s) t c) (made s).

(** One step of the thread with pointer [t]. *)
Inductive step (t : Z) (s : state) : state → Prop :=
  | st_call : at_ s t = Outside → step t s (go s t (Reading 0))
  | st_read_hit p : at_ s t = Reading p → thread s (slot_of t p) = t →
      step t s (go s t (Using (Some (memory s (slot_of t p)))))
  | st_read_next p : at_ s t = Reading p → thread s (slot_of t p) ≠ t → p + 1 < kLookupProbes → step t s (go s t (Reading (p + 1)))
  | st_read_none p : at_ s t = Reading p → thread s (slot_of t p) ≠ t → kLookupProbes ≤ p + 1 →
      step t s (go s t (if o_ended (owner s t) || bool_decide (is_Some (o_memory (owner s t))) then Using None else Taking 0))
  | st_take p : at_ s t = Taking p → p < kLookupProbes → thread s (slot_of t p) = 0 →
      step t s (mkState (upd (thread s) (slot_of t p) t) (memory s) (owner s) (upd (at_ s) t (Taken (slot_of t p))) (made s))
  | st_take_next p : at_ s t = Taking p → p < kLookupProbes → thread s (slot_of t p) ≠ 0 → step t s (go s t (Taking (p + 1)))
  | st_take_none p : at_ s t = Taking p → kLookupProbes ≤ p → step t s (go s t (Using None))
  | st_make i : at_ s t = Taken i →
      step t s (mkState (thread s) (upd (memory s) i (made s)) (upd (owner s) t (mkOwner (Some (made s)) i (o_ended (owner s t))))
                  (upd (at_ s) t (Using (Some (made s)))) (made s + 1))
  | st_return m : at_ s t = Using m → step t s (go s t Outside)
  | st_end : at_ s t = Outside → o_ended (owner s t) = false →
      step t s (mkState (thread s) (memory s)
                  (upd (owner s) t (mkOwner (o_memory (owner s t)) (o_slot (owner s t)) true))
                  (upd (at_ s) t (if bool_decide (is_Some (o_memory (owner s t))) then Ending else Outside)) (made s))
  | st_give_back : at_ s t = Ending →
      step t s (mkState (upd (thread s) (o_slot (owner s t)) 0) (memory s) (owner s) (upd (at_ s) t Outside) (made s))
  | st_reuse : at_ s t = Outside → o_ended (owner s t) = true →   (* a later thread with the same pointer *)
      step t s (mkState (thread s) (memory s) (upd (owner s) t new_owner) (at_ s) (made s)).

Definition start : state := mkState (λ _, 0) (λ _, 0) (λ _, new_owner) (λ _, Outside) 1.
Inductive reachable : state → Prop :=
  | rc_start : reachable start
  | rc_step s t s' : t ≠ 0 → reachable s → step t s s' → reachable s'.

(** ** The invariant *)

(** The thread has a memory and has not given it back. *)
Definition has (s : state) (t m : Z) : Prop :=
  o_memory (owner s t) = Some m ∧ (o_ended (owner s t) = false ∨ at_ s t = Ending).
(** The thread has the slot: taken just now, or with its memory. *)
Definition holds (s : state) (t i : Z) : Prop := at_ s t = Taken i ∨ ∃ m, has s t m ∧ o_slot (owner s t) = i.
Definition in_probes (t i : Z) : Prop := ∃ p, 0 ≤ p < kLookupProbes ∧ i = slot_of t p.

(** What holds of a thread by itself: its owner and where it is. *)
Definition thread_ok (t : Z) (o : Owner) (c : pc) : Prop :=
  match c with
  | Outside => True
  | Reading p => 0 ≤ p ∧ (is_Some (o_memory o) → o_ended o = false → ∀ q, 0 ≤ q < p → slot_of t q ≠ o_slot o)
  | Taking p => 0 ≤ p ∧ o_memory o = None ∧ o_ended o = false
  | Taken i => o_memory o = None ∧ o_ended o = false ∧ in_probes t i
  | Using (Some m) => o_memory o = Some m ∧ o_ended o = false
  | Using None => o_memory o = None ∨ o_ended o = true
  | Ending => is_Some (o_memory o) ∧ o_ended o = true
  end ∧ (is_Some (o_memory o) → in_probes t (o_slot o)).

Record Inv (s : state) : Prop := mkInv {
  iv_thread : ∀ t, thread_ok t (owner s t) (at_ s t);
  (* a slot is its thread's, and a thread's slot says so *)
  iv_slot : ∀ i, thread s i ≠ 0 → holds s (thread s i) i;
  iv_held : ∀ t i, t ≠ 0 → holds s t i → thread s i = t;
  (* the memory of a slot is its thread's, and no other's *)
  iv_memory : ∀ t m, has s t m → memory s (o_slot (owner s t)) = m ∧ m < made s;
  iv_apart : ∀ t t' m, has s t m → has s t' m → t = t';
  iv_zero : o_memory (owner s 0) = None;   (* 0 is no thread *)
}.

(** A step that moves the thread without changing what it has. *)
Lemma Inv_go s t c : Inv s → thread_ok t (owner s t) c → (∀ i, at_ s t ≠ Taken i) → (∀ i, c ≠ Taken i) →
  at_ s t ≠ Ending → c ≠ Ending → Inv (go s t c).
Proof.
  intros [Ht Hs Hh Hm Ha Hz] Hc H1 H2 H3 H4.
  assert (Hhas : ∀ t' m, has (go s t c) t' m ↔ has s t' m).
  { intros t' m. unfold has. cbn. unfold upd. case_decide as E; [subst|done]. split; intros [? [?|?]]; split; auto; done. }
  assert (Hhold : ∀ t' i, holds (go s t c) t' i ↔ holds s t' i).
  { intros t' i. unfold holds. setoid_rewrite Hhas. cbn. unfold upd. case_decide as E; [subst|done].
    split; intros [E|?]; auto; exfalso; [by apply (H2 i)|by apply (H1 i)]. }
  constructor; cbn.
  - intros t'. unfold upd. case_decide; [by subst|apply Ht].
  - intros i Hi. apply Hhold. by apply Hs.
  - intros t' i Hne Hi. apply Hh; [done|]. by apply Hhold.
  - intros t' m Hx. apply Hhas in Hx. by apply Hm.
  - intros t1 t2 m Hx1 Hx2. apply Hhas in Hx1, Hx2. by eapply Ha.
  - done.
Qed.

(** Only the thread's own record and place change. *)
Definition others_same (t : Z) (s s' : state) : Prop := ∀ t', t' ≠ t → owner s' t' = owner s t' ∧ at_ s' t' = at_ s t'.

Lemma has_other t s s' t' m : others_same t s s' → t' ≠ t → has s' t' m ↔ has s t' m.
Proof. intros Ho Hne. unfold has. by destruct (Ho t' Hne) as [-> ->]. Qed.
Lemma holds_other t s s' t' i : others_same t s s' → t' ≠ t → holds s' t' i ↔ holds s t' i.
Proof. intros Ho Hne. unfold holds. setoid_rewrite (has_other t s s'); [|done..]. by destruct (Ho t' Hne) as [-> ->]. Qed.

(** The invariant from what is new of the one thread. *)
Lemma Inv_one t s s' : t ≠ 0 → Inv s → others_same t s s' → thread_ok t (owner s' t) (at_ s' t) → made s ≤ made s' →
  (∀ i, thread s' i ≠ 0 → thread s' i ≠ t → thread s i = thread s' i) →
  (∀ i, thread s' i = t → t ≠ 0 → holds s' t i) →
  (∀ t' i, t' ≠ 0 → t' ≠ t → thread s i = t' → thread s' i = t') →
  (∀ i, holds s' t i → thread s' i = t) →
  (∀ t' m, t' ≠ t → has s t' m → memory s' (o_slot (owner s t')) = memory s (o_slot (owner s t'))) →
  (∀ m, has s' t m → memory s' (o_slot (owner s' t)) = m ∧ m < made s') →
  (∀ t' m, t' ≠ t → has s' t m → ¬ has s t' m) → Inv s'.
Proof.
  intros Ht0 [Ht Hs Hh Hm Ha Hz] Ho Hok Hmade H1 H2 H3 H4 H5 H6 H7. constructor.
  - intros t'. destruct (decide (t' = t)) as [->|Hne]; [done|]. destruct (Ho t' Hne) as [-> ->]. apply Ht.
  - intros i Hi. destruct (decide (thread s' i = t)) as [E|Hne]; [rewrite E in *; auto|].
    apply (holds_other t s s'); [done|done|]. rewrite <- (H1 i) by done. apply Hs. by rewrite (H1 i).
  - intros t' i Hne Hi. destruct (decide (t' = t)) as [->|Hnt]; [by apply H4|]. apply H3; [done|done|].
    apply Hh; [done|]. by apply (holds_other t s s').
  - intros t' m Hx. destruct (decide (t' = t)) as [->|Hnt]; [by apply H6|]. apply (has_other t s s') in Hx; [|done..].
    destruct (Ho t' Hnt) as [-> _]. rewrite (H5 t' m) by done. destruct (Hm t' m Hx). split; [done|lia].
  - intros t1 t2 m X1 X2. destruct (decide (t1 = t)) as [->|N1], (decide (t2 = t)) as [->|N2]; [done| | |].
    + exfalso. apply (has_other t s s') in X2; [|done..]. by apply (H7 t2 m).
    + exfalso. apply (has_other t s s') in X1; [|done..]. by apply (H7 t1 m).
    + apply (has_other t s s') in X1, X2; try done. by eapply Ha.
  - destruct (Ho 0) as [-> _]; [congruence|done].
Qed.

Lemma others_upd t s th mem o c k : others_same t s (mkState th mem (upd (owner s) t o) (upd (at_ s) t c) k).
Proof. intros t' Hne. cbn. by rewrite !upd_ne. Qed.

(** A thread that reads its own pointer in a slot has the slot's memory. *)
Lemma hit_own s t p : Inv s → t ≠ 0 → at_ s t = Reading p → thread s (slot_of t p) = t →
  o_memory (owner s t) = Some (memory s (slot_of t p)) ∧ o_ended (owner s t) = false.
Proof.
  intros Hi Ht E Hth. destruct (iv_slot _ Hi (slot_of t p)) as [Hx|(m & Hx & Es)]; [congruence| |]; rewrite Hth in *; [congruence|].
  destruct (iv_memory _ Hi t m Hx) as [Em _]. destruct Hx as [Ho [He|He]]; [|congruence]. split; [|done]. by rewrite Ho, <- Em, Es.
Qed.

(** One that reads another has not found its own. *)
Lemma miss_own s t p : Inv s → t ≠ 0 → thread s (slot_of t p) ≠ t → is_Some (o_memory (owner s t)) → o_ended (owner s t) = false →
  slot_of t p ≠ o_slot (owner s t).
Proof.
  intros Hi Ht Hth [m Hm] He E. apply Hth. rewrite E. apply (iv_held _ Hi); [done|]. right. exists m. split; [|done]. split; [done|by left].
Qed.

Lemma step_take s t p : Inv s → t ≠ 0 → at_ s t = Taking p → p < kLookupProbes → thread s (slot_of t p) = 0 →
  Inv (mkState (upd (thread s) (slot_of t p) t) (memory s) (owner s) (upd (at_ s) t (Taken (slot_of t p))) (made s)).
Proof.
  intros Hi Ht E Hp H0. pose proof (iv_thread _ Hi t) as Hok. rewrite E in Hok. destruct Hok as [(Hp0 & Hm & He) _].
  assert (Hno : ∀ i, ¬ holds s t i). { intros i [Hx|(m & [Hx _] & _)]; congruence. }
  apply (Inv_one t s); [done|done| | | | | | | | | |].
  - intros t' Hne. cbn. by rewrite upd_ne.
  - cbn. rewrite upd_eq. split; [|by rewrite Hm; intros []]. split_and!; [done|done|]. exists p. split; [lia|done].
  - done.
  - cbn. intros i Hi0 Hit. unfold upd in *. by case_decide.
  - cbn. intros i Hit _. unfold holds. cbn. rewrite upd_eq. unfold upd in Hit. case_decide as Ei; [left; congruence|].
    exfalso. apply (Hno i). rewrite <- Hit at 1. apply (iv_slot _ Hi). congruence.
  - cbn. intros t' i H' Hne Hi'. unfold upd. case_decide; [congruence|done].
  - cbn. intros i [Hx|(m & [Hx _] & _)]; cbn in Hx; [|congruence]. rewrite upd_eq in Hx. injection Hx as ->. by rewrite upd_eq.
  - done.
  - intros m [Hx _]. cbn in Hx. congruence.
  - intros t' m _ [Hx _]. cbn in Hx. congruence.
Qed.

Lemma step_make s t i : Inv s → t ≠ 0 → at_ s t = Taken i →
  Inv (mkState (thread s) (upd (memory s) i (made s)) (upd (owner s) t (mkOwner (Some (made s)) i (o_ended (owner s t))))
         (upd (at_ s) t (Using (Some (made s)))) (made s + 1)).
Proof.
  intros Hi Ht E. pose proof (iv_thread _ Hi t) as Hok. rewrite E in Hok. destruct Hok as [(Hm & He & Hpr) _].
  assert (Hth : thread s i = t) by (apply (iv_held _ Hi); [done|by left]).
  apply (Inv_one t s); [done|done| | | | | | | | | |].
  - apply others_upd.
  - cbn. rewrite !upd_eq. cbn. done.
  - cbn. lia.
  - done.
  - cbn. intros j Hj _. right. exists (made s). unfold has. cbn. rewrite !upd_eq. cbn. split; [split; [done|by left]|].
    destruct (iv_slot _ Hi j) as [Hx|(m & [Hx _] & _)]; [congruence| |]; rewrite Hj in *; congruence.
  - done.
  - cbn. intros j [Hx|(m & _ & Hs)]; cbn in *; rewrite upd_eq in *; [done|]. cbn in Hs. congruence.
  - cbn. intros t' m Hne Hx. apply upd_ne. intros Es. apply Hne. rewrite <- Hth, <- Es. symmetry. apply (iv_held _ Hi).
    + intros ->. destruct Hx as [Hx _]. rewrite (iv_zero _ Hi) in Hx. done.
    + right. by exists m.
  - cbn. intros m [Hx _]. cbn in *. rewrite upd_eq in *. cbn in *. injection Hx as <-. rewrite upd_eq. lia.
  - cbn. intros t' m Hne [Hx _] Hx'. cbn in Hx. rewrite upd_eq in Hx. cbn in Hx. injection Hx as <-. destruct (iv_memory _ Hi t' _ Hx'). lia.
Qed.

Lemma step_end s t : Inv s → t ≠ 0 → at_ s t = Outside → o_ended (owner s t) = false →
  Inv (mkState (thread s) (memory s) (upd (owner s) t (mkOwner (o_memory (owner s t)) (o_slot (owner s t)) true))
         (upd (at_ s) t (if bool_decide (is_Some (o_memory (owner s t))) then Ending else Outside)) (made s)).
Proof.
  intros Hi Ht E He. set (s' := mkState _ _ _ _ _). destruct (iv_thread _ Hi t) as [_ Hpr].
  assert (Hhas : ∀ m, has s' t m ↔ has s t m).
  { intros m. unfold has, s'. cbn. rewrite !upd_eq. cbn. split; intros [Hm _]; (split; [done|]); [by left|right].
    rewrite bool_decide_true by (rewrite Hm; eauto). done. }
  assert (Hhold : ∀ i, holds s' t i ↔ holds s t i).
  { intros i. unfold holds. setoid_rewrite Hhas. unfold s'. cbn. rewrite !upd_eq. cbn.
    split; intros [Hx|?]; auto; exfalso; [by destruct (bool_decide _)|congruence]. }
  apply (Inv_one t s); [done|done|apply others_upd| |done|done| |done| |done| |].
  - cbn. rewrite !upd_eq. split; [|done]. by case_bool_decide.
  - intros i Hth _. apply Hhold. rewrite <- Hth at 1. apply (iv_slot _ Hi). cbn in Hth. congruence.
  - intros i Hx%Hhold. by apply (iv_held _ Hi).
  - intros m Hx%Hhas. cbn. rewrite upd_eq. by apply (iv_memory _ Hi).
  - intros t' m Hne Hx%Hhas Hx'. apply Hne. by apply (iv_apart _ Hi t' t m).
Qed.

Lemma step_give_back s t : Inv s → t ≠ 0 → at_ s t = Ending →
  Inv (mkState (upd (thread s) (o_slot (owner s t)) 0) (memory s) (owner s) (upd (at_ s) t Outside) (made s)).
Proof.
  intros Hi Ht E. pose proof (iv_thread _ Hi t) as Hok. rewrite E in Hok. destruct Hok as [[[m Hm] He] Hpr].
  set (s' := mkState _ _ _ _ _).
  assert (Hno : ∀ m, ¬ has s' t m).
  { intros m' [_ [Hx|Hx]]; unfold s' in Hx; cbn in Hx; [congruence|]. by rewrite upd_eq in Hx. }
  assert (Hnh : ∀ i, ¬ holds s' t i).
  { intros i [Hx|(m' & Hx & _)]; [|by apply (Hno m')]. unfold s' in Hx. cbn in Hx. by rewrite upd_eq in Hx. }
  assert (Hth : thread s (o_slot (owner s t)) = t).
  { apply (iv_held _ Hi); [done|]. right. exists m. split; [split; [done|by right]|done]. }
  assert (Hslots : ∀ i, thread s i = t → i = o_slot (owner s t)).
  { intros i Hx. destruct (iv_slot _ Hi i) as [Hy|(m' & _ & Hy)]; [congruence| |]; rewrite Hx in *; congruence. }
  apply (Inv_one t s); [done|done| | |done| | | | |done| |].
  - intros t' Hne. cbn. by rewrite upd_ne.
  - cbn. rewrite upd_eq. split; [done|]. intros _. apply Hpr. eauto.
  - cbn. intros i H1 H2. unfold upd in *. by case_decide.
  - cbn. intros i Hx _. exfalso. unfold upd in Hx. case_decide; [congruence|]. by apply Hslots in Hx.
  - cbn. intros t' i H0 Hne Hx. unfold upd. case_decide; [congruence|done].
  - intros i Hx. by destruct (Hnh i).
  - intros m' Hx. by destruct (Hno m').
  - intros t' m' _ Hx. by destruct (Hno m').
Qed.

Lemma step_reuse s t : Inv s → t ≠ 0 → at_ s t = Outside → o_ended (owner s t) = true →
  Inv (mkState (thread s) (memory s) (upd (owner s) t new_owner) (at_ s) (made s)).
Proof.
  intros Hi Ht E He. set (s' := mkState _ _ _ _ _).
  assert (Hno : ∀ m, ¬ has s' t m). { intros m [Hx _]. unfold s' in Hx. cbn in Hx. by rewrite upd_eq in Hx. }
  assert (Hnh : ∀ i, ¬ holds s' t i).
  { intros i [Hx|(m' & Hx & _)]; [|by apply (Hno m')]. unfold s' in Hx. cbn in Hx. congruence. }
  apply (Inv_one t s); [done|done| | |done|done| |done| |done| |].
  - intros t' Hne. cbn. by rewrite upd_ne.
  - cbn. rewrite upd_eq, E. split; [done|]. by intros [].
  - cbn. intros i Hx _. exfalso. destruct (iv_slot _ Hi i) as [Hy|(m' & [_ [Hy|Hy]] & _)]; [congruence| | |]; rewrite Hx in *; congruence.
  - intros i Hx. by destruct (Hnh i).
  - intros m' Hx. by destruct (Hno m').
  - intros t' m' _ Hx. by destruct (Hno m').
Qed.

Lemma step_inv s t s' : t ≠ 0 → step t s s' → Inv s → Inv s'.
Proof.
  intros Ht Hs Hi. pose proof (iv_thread _ Hi t) as Hok.
  destruct Hs as [E|p E Hth|p E Hth Hp|p E Hth Hp|p E Hp Hth|p E Hp Hth|p E Hp|i E|m E|E He|E|E He]; rewrite E in Hok.
  - apply Inv_go; try done; [|by intros; rewrite E|by rewrite E]. destruct Hok as [_ ?]. split; [|done]. split; [done|]. intros; lia.
  - destruct (hit_own s t p Hi Ht E Hth) as [Hm He]. apply Inv_go; try done; [|by intros; rewrite E|by rewrite E]. by destruct Hok.
  - destruct Hok as [[Hp0 Hr] Hpr]. apply Inv_go; try done; [|by intros; rewrite E|by rewrite E].
    split; [|done]. split; [lia|]. intros Hm He q Hq. destruct (decide (q = p)) as [->|]; [by apply miss_own|apply Hr; auto; lia].
  - destruct Hok as [[Hp0 Hr] Hpr].
    assert (Hthen : thread_ok t (owner s t) (if o_ended (owner s t) || bool_decide (is_Some (o_memory (owner s t))) then Using None else Taking 0)).
    { destruct (o_ended (owner s t)) eqn:He; cbn [orb]; [split; [by right|done]|]. case_bool_decide as Hm.
      - exfalso. destruct (Hpr Hm) as (q & Hq & Es). destruct (decide (q = p)) as [->|].
        + by apply (miss_own s t p).
        + apply (Hr Hm eq_refl q); [lia|done].
      - split; [|done]. split_and!; [lia|by apply eq_None_not_Some|done]. }
    apply Inv_go; try done; [by intros; rewrite E|by intros; case_if|by rewrite E|by case_if].
  - by apply step_take.
  - destruct Hok as [(Hp0 & Hm & He) Hpr]. apply Inv_go; try done; [|by intros; rewrite E|by rewrite E].
    split; [|done]. split_and!; [lia|done|done].
  - destruct Hok as [(Hp0 & Hm & He) Hpr]. apply Inv_go; try done; [|by intros; rewrite E|by rewrite E]. split; [by left|done].
  - by apply step_make.
  - destruct Hok as [_ Hpr]. apply Inv_go; try done; by intros; rewrite E.
  - by apply step_end.
  - by apply step_give_back.
  - by apply step_reuse.
Qed.

Lemma slots_inv s : reachable s → Inv s.
Proof.
  induction 1 as [|s t s' Ht _ IH Hs]; [|by eapply step_inv].
  assert (Hno : ∀ t m, ¬ has start t m) by by intros t m [? _].
  constructor.
  - intros t. split; [done|]. intros [? Hx]. done.
  - intros i Hx. done.
  - intros t i _ [Hx|(m & Hx & _)]; [done|by destruct (Hno t m)].
  - intros t m Hx. by destruct (Hno t m).
  - intros t t' m Hx. by destruct (Hno t m).
  - done.
Qed.

(** C18: two threads never use one memory of lookups, however their reads,
    compare-and-swaps and endings interleave and however thread pointers are used
    again; and a thread that has a memory and has not ended always gets that one,
    never the shared empty one. *)
Theorem lookup_slots_exclusive s : reachable s →
  (∀ t t' m, at_ s t = Using (Some m) → at_ s t' = Using (Some m) → t = t') ∧
  (∀ t m a, o_memory (owner s t) = Some m → o_ended (owner s t) = false → at_ s t = Using a → a = Some m).
Proof.
  intros Hi%slots_inv. split.
  - intros t t' m E E'. pose proof (iv_thread _ Hi t) as [H _]. pose proof (iv_thread _ Hi t') as [H' _]. rewrite E in H. rewrite E' in H'.
    destruct H as [Hm He], H' as [Hm' He']. apply (iv_apart _ Hi t t' m); (split; [done|by left]).
  - intros t m a Hm He E. pose proof (iv_thread _ Hi t) as [H _]. rewrite E in H. destruct a as [m'|]; [|destruct H; congruence].
    destruct H. congruence.
Qed.

(** A thread that takes its first memory, after eight slots that are not its own. *)
Lemma first_use : ∃ s, reachable s ∧ at_ s 64 = Using (Some 1) ∧ o_memory (owner s 64) = Some 1 ∧ o_ended (owner s 64) = false.
Proof.
  assert (Hgo : ∀ s s', reachable s → step 64 s s' → reachable s') by (intros s s' R Hs; by apply (rc_step s 64)).
  pose proof (Hgo _ _ rc_start (st_call 64 start eq_refl)) as R.
  do 7 (eapply Hgo in R; [|eapply st_read_next; [reflexivity|done|done]]).
  eapply Hgo in R; [|eapply st_read_none; [reflexivity|done|done]].
  eapply Hgo in R; [|eapply st_take; [reflexivity|done|reflexivity]].
  eapply Hgo in R; [|eapply st_make; reflexivity].
  eexists. split; [exact R|]. by vm_compute.
Qed.

Lemma lookup_slots_exclusive_witness : ∃ s, reachable s ∧ at_ s 64 = Using (Some 1) ∧ ∀ t, at_ s t = Using (Some 1) → t = 64.
Proof.
  destruct first_use as (s & R & E & _). exists s. split; [exact R|]. split; [exact E|]. intros t Et.
  exact (proj1 (lookup_slots_exclusive s R) t 64 1 Et E).
Defined.
