(* ===== verification/Yamlish.v ===== *)
(** * The parser of device profiles (src/core/yamlish.cpp)

    A restricted YAML: scalars, inline lists, and maps one level deep. A result is
    a value or an error with the line it names; a number too large for int64_t
    leaves std::stoll's own exception. Shown: parsing ends on every text, and a
    printed document is read back as it was. *)

From stdpp Require Import strings.
From Stdlib Require Import Ascii String.
From S2P Require Import Prelude Text.

Local Open Scope string_scope.
#[local] Open Scope Z_scope.

(** struct Value, where parse puts it: the top level holds scalars and one level of
    maps, a list holds scalars. *)
Inductive Value :=
  | VStr (s : string)
  | VInt (i : Z)
  | VBool (b : bool)
  | VList (l : list Value).
Inductive Entry :=
  | Scalar (v : Value)
  | Nested (m : gmap string Value).
Abbreviation Doc := (gmap string Entry).

(** fail(origin, line, ...), or std::out_of_range *)
Inductive parse_error := Fail (line : Z) | OutOfRange.
Definition result (A : Type) : Type := A + parse_error.
Definition rbind {A B} (r : result A) (k : A → result B) : result B :=
  match r with inl a => k a | inr e => inr e end.
Notation "x <-- r ;; k" := (rbind r (λ x, k)) (at level 100, r at next level, right associativity) : vgpu_scope.

Definition blank (c : ascii) : bool := chr c 32 || chr c 9.
Definition strip (s : string) : string := trim blank s.

(** strip_comment, from inside or outside a quote *)
Fixpoint strip_comment_from (in_quote : bool) (s : string) : string :=
  match s with
  | EmptyString => ""
  | String c s' =>
      let in_quote := if chr c 34 then negb in_quote else in_quote in
      if chr c 35 && negb in_quote then "" else String c (strip_comment_from in_quote s')
  end.
Definition strip_comment (s : string) : string := strip_comment_from false s.

Fixpoint all_digits (s : string) : bool :=
  match s with EmptyString => true | String c s' => is_digit c && all_digits s' end.
(** parse_int: [None] where the text is not a number *)
Definition parse_int (s : string) : option (result Z) :=
  let '(neg, body) := match s with
                      | String c s' => if chr c 45 then (true, s') else (false, s)
                      | EmptyString => (false, s)
                      end in
  match body with
  | EmptyString => None
  | _ =>
      if negb (all_digits body) then None else
      let v := fst (digits body 0) in
      let v := if neg then - v else v in
      Some (if (-9223372036854775808 <=? v) && (v <=? 9223372036854775807) then inl v else inr OutOfRange)
  end.


(** [s.substr(1, s.size() - 2)], of what follows the first character *)
Fixpoint drop_back (s : string) : string :=
  match s with
  | EmptyString => ""
  | String c EmptyString => ""
  | String c s' => String c (drop_back s')
  end.

(** The items of a list, in order; empty ones are skipped. *)
Fixpoint parse_list (scalar : string → option (result Value)) (l : list string) : option (result (list Value)) :=
  match l with
  | [] => Some (inl [])
  | item :: l' =>
      if bool_decide (strip item = "") then parse_list scalar l' else
      v ← scalar item;
      match v with
      | inr e => Some (inr e)
      | inl v => r ← parse_list scalar l'; Some (vs <-- r ;; inl (v :: vs))
      end
  end.

(** parse_scalar; [None] is out of fuel *)
Fixpoint parse_scalar (fuel : nat) (raw : string) (line : Z) : option (result Value) :=
  match fuel with
  | O => None
  | S fuel' =>
      let s := strip raw in
      match s with
      | EmptyString => Some (inr (Fail line))
      | String front rest =>
          if chr front 34 then
            Some (if (String.length s <? 2)%nat || negb (chr (back s) 34) then inr (Fail line) else inl (VStr (drop_back rest)))
          else if chr front 91 then
            if negb (chr (back s) 93) then Some (inr (Fail line)) else
            r ← parse_list (λ item, parse_scalar fuel' item line) (items (drop_back rest) "");
            Some (vs <-- r ;; inl (VList vs))
          else if bool_decide (s = "true") || bool_decide (s = "false") then Some (inl (VBool (bool_decide (s = "true"))))
          else match parse_int s with
               | Some r => Some (i <-- r ;; inl (VInt i))
               | None => Some (inl (VStr s))
               end
      end
  end.

(** A line without its carriage return. *)
Definition drop_cr (line : string) : string :=
  match line with EmptyString => "" | _ => if chr (back line) 13 then drop_back line else line end.

Fixpoint indent_of (line : string) : Z :=
  match line with
  | String c s' => if chr c 32 then 1 + indent_of s' else 0
  | EmptyString => 0
  end.
(** The key and the rest of an entry, around its first colon. *)
Fixpoint split_colon (s key : string) : option (string * string) :=
  match s with
  | EmptyString => None
  | String c s' => if chr c 58 then Some (key, s') else split_colon s' (key +:+ String c "")
  end.

(** The document so far, and the key of the map being filled. *)
Definition pstate : Type := Doc * option string.

(** One line of parse's loop. *)
Definition parse_line (st : pstate) (line : string) (lineno : Z) : option (result pstate) :=
  let '(root, open_map) := st in
  let line := strip_comment (drop_cr line) in
  if bool_decide (strip line = "") then Some (inl st) else
  let body := skip_while (λ c, chr c 32) line in
  let indent := indent_of line in
  if match body with String c _ => chr c 9 | EmptyString => false end then Some (inr (Fail lineno)) else
  if negb (indent =? 0) && negb (indent =? 2) then Some (inr (Fail lineno)) else
  match split_colon body "" with
  | None => Some (inr (Fail lineno))
  | Some (k, rest) =>
      let key := strip k in
      if bool_decide (key = "") then Some (inr (Fail lineno)) else
      if indent =? 2 then
        match open_map with
        | None => Some (inr (Fail lineno))
        | Some o =>
            if bool_decide (strip rest = "") then Some (inr (Fail lineno)) else
            r ← parse_scalar (S (String.length rest)) rest lineno;
            Some (v <-- r ;;
                  match root !! o with
                  | Some (Nested m) =>
                      match m !! key with
                      | Some _ => inr (Fail lineno)
                      | None => inl (<[o := Nested (<[key := v]> m)]> root, open_map)
                      end
                  | _ => inr (Fail lineno)
                  end)
        end
      else if bool_decide (strip rest = "") then
        match root !! key with
        | Some _ => Some (inr (Fail lineno))
        | None => Some (inl (<[key := Nested ∅]> root, Some key))
        end
      else
        r ← parse_scalar (S (String.length rest)) rest lineno;
        Some (v <-- r ;;
              match root !! key with
              | Some _ => inr (Fail lineno)
              | None => inl (<[key := Scalar v]> root, None)
              end)
  end.

Fixpoint parse_lines (st : pstate) (lines : list string) (lineno : Z) : option (result Doc) :=
  match lines with
  | [] => Some (inl (fst st))
  | line :: rest =>
      r ← parse_line st line lineno;
      match r with
      | inr e => Some (inr e)
      | inl st => parse_lines st rest (lineno + 1)
      end
  end.
Definition parse (src : string) : option (result Doc) := parse_lines (∅, None) (fields 10 src "") 1.

(** ** Every text is parsed to an end *)

Lemma skip_while_length p s : (String.length (skip_while p s) ≤ String.length s)%nat.
Proof. induction s as [|c s IH]; cbn [skip_while]; [done|]. case_if; cbn; lia. Qed.
Lemma trim_right_length p s : (String.length (trim_right p s) ≤ String.length s)%nat.
Proof.
  induction s as [|c s IH]; cbn [trim_right]; [done|]. destruct (trim_right p s); [case_if; cbn; lia|cbn in *; lia].
Qed.
Lemma strip_length s : (String.length (strip s) ≤ String.length s)%nat.
Proof. unfold strip, trim. etrans; [apply trim_right_length|apply skip_while_length]. Qed.
Lemma drop_back_length s : (String.length (drop_back s) ≤ String.length s)%nat.
Proof. induction s as [|c s IH]; [done|]. cbn [drop_back]. destruct s; [cbn; lia|]. cbn in *. lia. Qed.
Lemma fields_length sep v item : Forall (λ x, (String.length x ≤ String.length item + String.length v)%nat) (fields sep v item).
Proof.
  revert item. induction v as [|c v IH]; intros item; cbn [fields]; [constructor; [cbn; lia|constructor]|]. case_if.
  - constructor; [cbn; lia|]. eapply Forall_impl; [apply IH|]. cbn. lia.
  - eapply Forall_impl; [apply IH|]. intros x Hx. cbv beta in Hx. rewrite length_append in Hx. cbn in *. lia.
Qed.

Lemma parse_list_total scalar l : Forall (λ item, is_Some (scalar item)) l → is_Some (parse_list scalar l).
Proof.
  induction 1 as [|item l [v Hv] _ [r IH]]; [done|]. cbn [parse_list]. case_bool_decide; [by rewrite IH|].
  rewrite Hv, IH. cbn. by destruct v.
Qed.

Lemma parse_scalar_total fuel raw line : (String.length raw < fuel)%nat → is_Some (parse_scalar fuel raw line).
Proof.
  revert raw. induction fuel as [|fuel IH]; intros raw Hl; [lia|]. cbn [parse_scalar]. pose proof (strip_length raw) as Hs.
  destruct (strip raw) as [|front rest]; [done|]. case_if; [done|]. case_if.
  - case_if; [done|]. destruct (parse_list_total (λ item, parse_scalar fuel item line) (items (drop_back rest) "")) as [r ->]; [|done].
    eapply Forall_impl; [apply fields_length|]. intros item Hitem. cbv beta in *. apply IH. pose proof (drop_back_length rest).
    cbn in *. lia.
  - case_if; [done|]. by destruct (parse_int _).
Qed.

Lemma parse_line_total st line lineno : is_Some (parse_line st line lineno).
Proof.
  destruct st as [root open_map]. unfold parse_line. cbv zeta. case_bool_decide; [done|]. case_if; [done|]. case_if; [done|].
  destruct (split_colon _ _) as [[k rest]|]; [|done]. case_bool_decide; [done|].
  destruct (parse_scalar_total (S (String.length rest)) rest lineno ltac:(lia)) as [r Hr].
  case_if.
  - destruct open_map; [|done]. case_bool_decide; [done|]. by rewrite Hr.
  - case_bool_decide; [by destruct (root !! _)|]. by rewrite Hr.
Qed.

Lemma parse_total src : is_Some (parse src).
Proof.
  unfold parse. generalize (fields 10 src "") as l, (∅ : Doc, @None string) as st, 1 as n. induction l as [|x l IH]; intros st n; [done|].
  cbn [parse_lines]. destruct (parse_line_total st x n) as [[st'|e] ->]; [apply IH|done].
Qed.

(** ** Printing *)

Definition quote_ : string := String (ascii_of_N 34) "".
Definition newline : string := String (ascii_of_N 10) "".
Definition show_int (i : Z) : string := if i <? 0 then "-" +:+ show_u64 (- i) else show_u64 i.
Definition print_flat (v : Value) : string :=
  match v with
  | VStr s => quote_ +:+ s +:+ quote_
  | VInt i => show_int i
  | VBool b => if b then "true" else "false"
  | VList _ => ""
  end.
Definition print_value (v : Value) : string :=
  match v with
  | VList l => "[" +:+ join (print_flat <$> l) +:+ "]"
  | _ => print_flat v
  end.

(** What can be printed: quoted text without a quote or a line's end, and in a list
    without a comma. *)
Definition text_char (c : ascii) : Prop := chr c 34 = false ∧ chr c 10 = false.
Definition flat_ok (v : Value) : Prop :=
  match v with
  | VStr s => every text_char s
  | VInt i => -9223372036854775808 ≤ i ≤ 9223372036854775807
  | VBool _ => True
  | VList _ => False
  end.
Definition value_ok (v : Value) : Prop :=
  match v with
  | VList l => Forall (λ v, flat_ok v ∧ every no_comma (print_flat v)) l
  | _ => flat_ok v
  end.
Definition key_char (c : ascii) : Prop :=
  blank c = false ∧ chr c 58 = false ∧ chr c 34 = false ∧ chr c 35 = false ∧ chr c 10 = false ∧ chr c 13 = false.
Definition key_ok (k : string) : Prop := k ≠ "" ∧ every key_char k.

Inductive Item := IScalar (v : Value) | INested (l : list (string * Value)).
Definition entry_line (k : string) (v : Value) : string := k +:+ ": " +:+ print_value v.
Definition item_lines (e : string * Item) : list string :=
  match e.2 with
  | IScalar v => [entry_line e.1 v]
  | INested l => (e.1 +:+ ":") :: ((λ '(k, v), "  " +:+ entry_line k v) <$> l)
  end.
Definition print (items : list (string * Item)) : string := join_with newline (items ≫= item_lines).

Definition item_value (i : Item) : Entry :=
  match i with IScalar v => Scalar v | INested l => Nested (list_to_map l) end.
Definition doc_of (items : list (string * Item)) : Doc := list_to_map ((λ '(k, i), (k, item_value i)) <$> items).

Definition item_ok (e : string * Item) : Prop :=
  key_ok e.1 ∧
  match e.2 with
  | IScalar v => value_ok v
  | INested l => NoDup l.*1 ∧ Forall (λ '(k, v), key_ok k ∧ value_ok v) l
  end.

Definition sample_doc : list (string * Item) :=
  [("model", IScalar (VStr "RTX 3060 #1")); ("vram", IScalar (VInt (-12)));
   ("limits", INested [("warps", VInt 48); ("sizes", VList [VInt 1; VStr "a b"; VBool true])]); ("ecc", IScalar (VBool false))].
Example sample_parses : parse (print sample_doc) = Some (inl (doc_of sample_doc)).
Proof. vm_compute. reflexivity. Qed.

(** ** Printed values *)

Lemma back_app a c b : back (a +:+ String c b) = back (String c b).
Proof.
  induction a as [|d a IH]; [done|]. change (String d a +:+ String c b) with (String d (a +:+ String c b)). rewrite <- IH. cbn [back].
  by destruct a.
Qed.
Lemma drop_back_app a c : drop_back (a +:+ String c "") = a.
Proof.
  induction a as [|d a IH]; [done|]. change (String d a +:+ String c "") with (String d (a +:+ String c "")). cbn [drop_back].
  rewrite IH. by destruct a.
Qed.
Lemma back_every P s : P Ascii.zero → every P s → P (back s).
Proof. intros H0. induction s as [|c s IH]; [done|]. intros [Hc Hs]. destruct s; [done|]. by apply IH. Qed.

(** Nothing of the text is a comment, and it leaves no quote open. *)
Definition csafe (a : string) : Prop := ∀ b, strip_comment_from false (a +:+ b) = a +:+ strip_comment_from false b.

Lemma csafe_plain a : every (λ c, chr c 34 = false ∧ chr c 35 = false) a → csafe a.
Proof.
  induction a as [|c a IH]; intros Ha b; [done|]. destruct Ha as [[H1 H2] Ha]. change (String c a +:+ b) with (String c (a +:+ b)).
  cbn [strip_comment_from]. rewrite H1, H2. cbn [andb]. by rewrite (IH Ha b).
Qed.
Lemma csafe_app a b : csafe a → csafe b → csafe (a +:+ b).
Proof. intros Ha Hb c. rewrite !append_assoc. by rewrite Ha, Hb. Qed.
Lemma csafe_join sep l : csafe sep → Forall csafe l → csafe (join_with sep l).
Proof.
  intros Hs. induction 1 as [|x l Hx Hl IH]; [done|]. destruct l as [|y l]; [done|].
  change (join_with sep (x :: y :: l)) with (x +:+ sep +:+ join_with sep (y :: l)). by repeat apply csafe_app.
Qed.
Lemma csafe_quoted s : every (λ c, chr c 34 = false) s → csafe (quote_ +:+ s +:+ quote_).
Proof.
  intros Hs b. rewrite !append_assoc. unfold quote_ at 1 3. set (q := ascii_of_N 34). change (String q "" +:+ ?x) with (String q x).
  assert (Hin : strip_comment_from true (s +:+ quote_ +:+ b) = s +:+ quote_ +:+ strip_comment_from false b).
  { induction s as [|c s IH]; [done|]. destruct Hs as [Hc Hs]. change (String c s +:+ ?x) with (String c (s +:+ x)).
    cbn [strip_comment_from]. rewrite Hc. cbn [negb]. rewrite andb_false_r. by rewrite IH. }
  change (strip_comment_from false (String q (s +:+ quote_ +:+ b))) with (String q (strip_comment_from true (s +:+ quote_ +:+ b))). by rewrite Hin.
Qed.

(** A text that stands for itself on a line. *)
Record solid (s : string) : Prop := mkSolid {
  so_safe : csafe s;
  so_line : every (without 10) s;
  so_ends : ∃ c r, s = String c r ∧ blank c = false;
  so_back : blank (back s) = false ∧ chr (back s) 13 = false;
}.

Lemma solid_strip s : solid s → strip s = s ∧ s ≠ "".
Proof. intros [_ _ (c & r & -> & Hc) [Hb _]]. split; [by apply trim_ends|done]. Qed.

Lemma plain_chars c : plain c → blank c = false ∧ chr c 34 = false ∧ chr c 35 = false ∧ chr c 10 = false ∧ chr c 13 = false.
Proof. intros Hc. unfold blank. rewrite !plain_not by (done || lia). done. Qed.

Lemma show_int_shape i : -9223372036854775808 ≤ i ≤ 9223372036854775807 →
  ∃ c r, show_int i = String c r ∧ (plain c ∨ c = "-"%char) ∧ every (λ c, plain c ∨ c = "-"%char) (show_int i).
Proof.
  intros Hi. unfold show_int. destruct (Z.ltb_spec i 0).
  - destruct (show_u64_head (- i) ltac:(lia)) as (Hp & _). exists "-"%char, (show_u64 (- i)). split; [done|]. split; [by right|].
    split; [by right|]. eapply every_impl; [done|auto].
  - destruct (show_u64_head i ltac:(lia)) as (Hp & c & r & E & Hc). exists c, r. split; [done|]. split; [by left|].
    eapply every_impl; [done|auto].
Qed.

Lemma print_flat_solid v : flat_ok v → solid (print_flat v).
Proof.
  destruct v as [s|i|b|l]; intros Hv; cbn [print_flat]; [| | |done].
  - constructor.
    + apply csafe_quoted. eapply every_impl; [done|]. by intros c [? _].
    + rewrite !every_app. split; [by vm_compute|]. split; [|by vm_compute]. eapply every_impl; [done|]. by intros c [_ ?].
    + exists (ascii_of_N 34), (s +:+ quote_). by vm_compute.
    + rewrite <- append_assoc. unfold quote_ at 2 4. rewrite back_app. by vm_compute.
  - destruct (show_int_shape i Hv) as (c & r & E & Hc & Hall).
    assert (Hch : ∀ c, plain c ∨ c = "-"%char → blank c = false ∧ chr c 34 = false ∧ chr c 35 = false ∧ chr c 10 = false ∧ chr c 13 = false).
    { intros d [Hd| ->]; [by apply plain_chars|by vm_compute]. }
    constructor.
    + apply csafe_plain. eapply every_impl; [done|]. intros d Hd%Hch. tauto.
    + eapply every_impl; [done|]. intros d Hd%Hch. unfold without. tauto.
    + exists c, r. split; [done|]. by apply Hch.
    + assert (Hb : plain (back (show_int i)) ∨ back (show_int i) = "-"%char).
      { rewrite E in Hall |- *. clear -Hall. revert c Hall. induction r as [|d r IH]; intros c [Hc Hr]; [done|]. by apply (IH d). }
      apply Hch in Hb. tauto.
  - constructor; [apply csafe_plain; by destruct b| by destruct b|destruct b; by do 2 eexists|by destruct b].
Qed.

Lemma print_value_solid v : value_ok v → solid (print_value v).
Proof.
  destruct v as [s|i|b|l]; [apply (print_flat_solid (VStr s))|apply (print_flat_solid (VInt i))|apply (print_flat_solid (VBool b))|].
  intros Hl. cbn [value_ok print_value] in *.
  assert (Hs : Forall solid (print_flat <$> l)).
  { apply Forall_fmap. eapply Forall_impl; [done|]. intros v [Hv _]. by apply print_flat_solid. }
  constructor.
  - repeat apply csafe_app; [by apply csafe_plain; vm_compute| |by apply csafe_plain; vm_compute].
    apply csafe_join; [by apply csafe_plain; vm_compute|]. eapply Forall_impl; [done|]. by intros x [].
  - rewrite !every_app. split; [by vm_compute|]. split; [|by vm_compute]. apply join_every; [by vm_compute|].
    eapply Forall_impl; [done|]. by intros x [].
  - by do 2 eexists.
  - rewrite <- append_assoc. rewrite back_app. by vm_compute.
Qed.

(** ** Reading values back *)

Lemma all_digits_plain s : every plain s → all_digits s = true.
Proof. induction s as [|c s IH]; [done|]. intros [Hc Hs]. cbn [all_digits]. by rewrite Hc, IH. Qed.

Lemma parse_show_int i : -9223372036854775808 ≤ i ≤ 9223372036854775807 → parse_int (show_int i) = Some (inl i).
Proof.
  intros Hi. unfold parse_int, show_int. destruct (Z.ltb_spec i 0).
  - destruct (show_u64_head (- i) ltac:(lia)) as (Hp & c & r & E & Hc). change ("-" +:+ show_u64 (- i)) with (String "-" (show_u64 (- i))).
    pose proof (all_digits_plain _ Hp) as Had.
    pose proof (show_u64_digits (- i) ltac:(unfold u64_max; lia)) as Hd. rewrite E in *. cbv iota beta zeta. change (chr "-" 45) with true. cbv iota. rewrite Had, Hd. cbn [negb fst]. replace (- - i) with i by lia. do 2 f_equal. bool_cases; done.
  - destruct (show_u64_head i ltac:(lia)) as (Hp & c & r & E & Hc). pose proof (all_digits_plain _ Hp) as Had.
    pose proof (show_u64_digits i ltac:(unfold u64_max; lia)) as Hd. rewrite E in *. rewrite plain_not by (done || lia). cbv iota beta.
    rewrite Had, Hd. cbn [negb fst]. do 2 f_equal. bool_cases; done.
Qed.

(** What parse_scalar does with the stripped text. *)
Lemma parse_scalar_strip fuel raw raw' line : strip raw = strip raw' → parse_scalar fuel raw line = parse_scalar fuel raw' line.
Proof. intros E. destruct fuel; [done|]. cbn [parse_scalar]. by rewrite E. Qed.

Lemma parse_flat fuel v line : flat_ok v → parse_scalar (S fuel) (print_flat v) line = Some (inl v).
Proof.
  intros Hv. destruct (solid_strip _ (print_flat_solid v Hv)) as [Hs _]. cbn [parse_scalar]. rewrite Hs.
  destruct v as [s|i|b|l]; cbn [print_flat] in *; [| | |done].
  - assert ((String.length (quote_ +:+ s +:+ quote_) <? 2)%nat = false) as ->.
    { apply Nat.ltb_ge. rewrite !length_append. cbn. lia. }
    assert (back (quote_ +:+ s +:+ quote_) = ascii_of_N 34) as ->.
    { rewrite <- append_assoc. unfold quote_ at 2. by rewrite back_app. }
    unfold quote_. set (q := ascii_of_N 34). change (String q "" +:+ ?x) with (String q x). change (chr q 34) with true. cbn [orb negb].
    by rewrite drop_back_app.
  - destruct (show_int_shape i Hv) as (c & r & E & Hc & _). pose proof (parse_show_int i Hv) as Hp. rewrite E in *.
    assert (Hn : chr c 34 = false ∧ chr c 91 = false ∧ c ≠ "t"%char ∧ c ≠ "f"%char).
    { destruct Hc as [Hc| ->]; [|by vm_compute]. split_and!; [by apply plain_not| | |].
      - unfold plain, is_digit, chr in *. apply andb_true_iff in Hc as [_ Hc]. apply N.leb_le in Hc. apply N.eqb_neq. lia.
      - intros ->. by vm_compute in Hc.
      - intros ->. by vm_compute in Hc. }
    destruct Hn as (-> & -> & Ht & Hf). rewrite !bool_decide_false; [by rewrite Hp|..]; congruence.
  - by destruct b.
Qed.

Lemma parse_list_print fuel l line : Forall flat_ok l →
  parse_list (λ item, parse_scalar (S fuel) item line) (print_flat <$> l) = Some (inl l).
Proof.
  induction 1 as [|v l Hv _ IH]; [done|]. cbn [fmap list_fmap parse_list].
  destruct (solid_strip _ (print_flat_solid v Hv)) as [Hs Hne]. rewrite Hs, bool_decide_false by done.
  rewrite parse_flat by done. cbn [mbind option_bind]. change (list_fmap _ _ print_flat l) with (print_flat <$> l). by rewrite IH.
Qed.

Lemma parse_value fuel v line : value_ok v → parse_scalar (S (S fuel)) (print_value v) line = Some (inl v).
Proof.
  destruct v as [s|i|b|l]; [apply (parse_flat _ (VStr s))|apply (parse_flat _ (VInt i))|apply (parse_flat _ (VBool b))|].
  intros Hl. destruct (solid_strip _ (print_value_solid _ Hl)) as [Hs _]. cbn [value_ok] in Hl.
  set (n := S fuel). cbn [parse_scalar]. rewrite Hs. cbn [print_value].
  change ("[" +:+ ?x) with (String "[" x). change (chr "[" 34) with false. change (chr "[" 91) with true. cbv iota.
  assert (back (String "[" (join (print_flat <$> l) +:+ "]")) = "]"%char) as ->.
  { change (String "[" (join (print_flat <$> l) +:+ "]")) with (String "[" (join (print_flat <$> l)) +:+ String "]" ""). by rewrite back_app. }
  change (chr "]" 93) with true. cbn [negb]. rewrite drop_back_app.
  destruct l as [|v l]; [by vm_compute|]. rewrite items_join; [|done|].
  - unfold n. rewrite (parse_list_print fuel (v :: l)); [done|]. eapply Forall_impl; [done|]. by intros x [].
  - apply Forall_fmap. eapply Forall_impl; [done|]. by intros x [].
Qed.

(** ** Reading lines back *)

Lemma key_head k : key_ok k → ∃ c r, k = String c r ∧ key_char c.
Proof. intros [Hne Hk]. destruct k as [|c r]; [done|]. exists c, r. split; [done|apply Hk]. Qed.

Lemma split_colon_key k rest key : every key_char k → split_colon (k +:+ ":" +:+ rest) key = Some (key +:+ k, rest).
Proof.
  revert key. induction k as [|c k IH]; intros key Hk; [by rewrite append_nil|]. destruct Hk as [(_ & Hc & _) Hk].
  change (String c k +:+ ?x) with (String c (k +:+ x)). cbn [split_colon]. rewrite Hc, IH by done. by rewrite append_assoc.
Qed.

Lemma strip_key k : key_ok k → strip k = k.
Proof. intros [_ Hk]. apply trim_none. eapply every_impl; [done|]. by intros c (? & _). Qed.

Lemma trim_right_some p c s : p c = false → trim_right p (String c s) ≠ "".
Proof. intros Hc. cbn [trim_right]. destruct (trim_right p s); [by rewrite Hc|done]. Qed.

Lemma csafe_key k : every key_char k → csafe k.
Proof. intros Hk. apply csafe_plain. eapply every_impl; [done|]. by intros c (_ & _ & ? & ? & _). Qed.

Lemma drop_cr_id s : chr (back s) 13 = false → drop_cr s = s.
Proof. intros Hb. unfold drop_cr. destruct s; [done|]. by rewrite Hb. Qed.

(** What parse sees of a line it has printed. *)
Definition deep (nested : bool) (s : string) : string := if nested then "  " +:+ s else s.

Lemma line_seen nested k rest : key_ok k → csafe rest → chr (back (":" +:+ rest)) 13 = false →
  let line := deep nested (k +:+ ":" +:+ rest) in
  strip_comment (drop_cr line) = line ∧ strip line ≠ "" ∧ skip_while (λ c, chr c 32) line = k +:+ ":" +:+ rest ∧
  indent_of line = (if nested then 2 else 0) ∧ match k +:+ ":" +:+ rest with String c _ => chr c 9 | EmptyString => false end = false.
Proof.
  intros Hk Hr Hb line. destruct (key_head k Hk) as (c & r & -> & Hc & _). pose proof Hk as [_ Hkk].
  assert (Hbl : chr c 32 = false ∧ chr c 9 = false) by (unfold blank in Hc; by apply orb_false_iff in Hc).
  destruct Hbl as [H32 H9].
  assert (Hsafe : csafe line).
  { unfold line, deep. destruct nested; [apply csafe_app; [by apply csafe_plain; vm_compute|]|];
      (apply csafe_app; [by apply csafe_key|apply csafe_app; [by apply csafe_plain; vm_compute|done]]). }
  assert (Hback : chr (back line) 13 = false).
  { unfold line, deep. destruct nested; [rewrite <- append_assoc|]; by rewrite (back_app _ ":" rest). }
  split_and!.
  - rewrite (drop_cr_id line Hback). unfold strip_comment. rewrite <- (append_nil line) at 1. rewrite Hsafe. apply append_nil.
  - unfold line, deep, strip, trim. destruct nested; cbn [skip_while]; [change ("  " +:+ ?x) with (String " " (String " " x)); cbn [skip_while]; change (blank " ") with true; cbv iota|];
      (change (String c r +:+ ?x) with (String c (r +:+ x)); cbn [skip_while]; rewrite Hc; by apply trim_right_some).
  - unfold line, deep. destruct nested; [change ("  " +:+ ?x) with (String " " (String " " x)); cbn [skip_while]; change (chr " " 32) with true; cbv iota|];
      (change (String c r +:+ ?x) with (String c (r +:+ x)); cbn [skip_while]; by rewrite H32).
  - unfold line, deep. destruct nested; [change ("  " +:+ ?x) with (String " " (String " " x)); cbn [indent_of]; change (chr " " 32) with true; cbv iota|];
      (change (String c r +:+ ?x) with (String c (r +:+ x)); cbn [indent_of]; by rewrite H32).
  - done.
Qed.

Lemma entry_rest v line : value_ok v → strip (" " +:+ print_value v) = print_value v ∧ print_value v ≠ "" ∧
  csafe (" " +:+ print_value v) ∧ chr (back (":" +:+ " " +:+ print_value v)) 13 = false ∧
  parse_scalar (S (String.length (" " +:+ print_value v))) (" " +:+ print_value v) line = Some (inl v).
Proof.
  intros Hv. pose proof (print_value_solid v Hv) as Hs. destruct (solid_strip _ Hs) as [Hst Hne].
  assert (Hst' : strip (" " +:+ print_value v) = print_value v).
  { change (" " +:+ ?x) with (String " " x). unfold strip in *. by rewrite trim_skip. }
  split_and!; [done|done| | |].
  - apply csafe_app; [by apply csafe_plain; vm_compute|apply Hs].
  - destruct (so_ends _ Hs) as (c & r & E & _). destruct (so_back _ Hs) as [_ Hb]. rewrite E in *. by rewrite <- append_assoc, back_app.
  - rewrite (parse_scalar_strip _ _ (print_value v)) by (by rewrite Hst', Hst). by apply parse_value.
Qed.

(** The three kinds of lines. *)
Lemma parse_scalar_line root open_map k v n : key_ok k → value_ok v → root !! k = None →
  parse_line (root, open_map) (entry_line k v) n = Some (inl (<[k := Scalar v]> root, None)).
Proof.
  intros Hk Hv Hr. destruct (entry_rest v n Hv) as (Hst & Hne & Hsafe & Hb & Hp).
  destruct (line_seen false k (" " +:+ print_value v) Hk Hsafe Hb) as (H1 & H2 & H3 & H4 & H5). cbn [deep] in *.
  unfold parse_line, entry_line. change (": " +:+ print_value v) with (":" +:+ " " +:+ print_value v). cbv zeta.
  rewrite H1, bool_decide_false by done. rewrite H3, H4, H5. cbn [Z.eqb negb andb]. rewrite split_colon_key by apply Hk.
  change ("" +:+ k) with k. rewrite (strip_key k Hk), bool_decide_false by apply Hk. rewrite Hst, bool_decide_false by done.
  rewrite Hp. cbn [mbind option_bind rbind]. by rewrite Hr.
Qed.

Lemma parse_header_line root open_map k n : key_ok k → root !! k = None →
  parse_line (root, open_map) (k +:+ ":") n = Some (inl (<[k := Nested ∅]> root, Some k)).
Proof.
  intros Hk Hr. destruct (line_seen false k "" Hk ltac:(done) eq_refl) as (H1 & H2 & H3 & H4 & H5). cbn [deep] in *.
  unfold parse_line. change (k +:+ ":") with (k +:+ ":" +:+ ""). cbv zeta.
  rewrite H1, bool_decide_false by done. rewrite H3, H4, H5. cbn [Z.eqb negb andb]. rewrite split_colon_key by apply Hk.
  change ("" +:+ k) with k. rewrite (strip_key k Hk), bool_decide_false by apply Hk. rewrite bool_decide_true by done. by rewrite Hr.
Qed.

Lemma parse_nested_line root o m k v n : key_ok k → value_ok v → root !! o = Some (Nested m) → m !! k = None →
  parse_line (root, Some o) ("  " +:+ entry_line k v) n = Some (inl (<[o := Nested (<[k := v]> m)]> root, Some o)).
Proof.
  intros Hk Hv Hr Hm. destruct (entry_rest v n Hv) as (Hst & Hne & Hsafe & Hb & Hp).
  destruct (line_seen true k (" " +:+ print_value v) Hk Hsafe Hb) as (H1 & H2 & H3 & H4 & H5). cbn [deep] in *.
  unfold parse_line, entry_line. change (": " +:+ print_value v) with (":" +:+ " " +:+ print_value v). cbv zeta.
  rewrite H1, bool_decide_false by done. rewrite H3, H4, H5. cbn [Z.eqb negb andb Pos.eqb]. rewrite split_colon_key by apply Hk.
  change ("" +:+ k) with k. rewrite (strip_key k Hk), bool_decide_false by apply Hk. rewrite Hst, bool_decide_false by done.
  rewrite Hp. cbn [mbind option_bind rbind]. by rewrite Hr, Hm.
Qed.

(** ** Documents *)

(** Adding a list of new keys one by one. *)
Lemma add_key {A} (k : string) (x : A) l (m : gmap string A) : k ∉ l.*1 →
  list_to_map l ∪ <[k := x]> m = list_to_map ((k, x) :: l) ∪ m.
Proof.
  intros Hk. cbn [list_to_map foldr]. rewrite <- insert_union_l. symmetry. apply insert_union_r. by apply not_elem_of_list_to_map_1.
Qed.

Lemma parse_nested_lines l rest root o m n : NoDup l.*1 → Forall (λ '(k, v), key_ok k ∧ value_ok v) l →
  root !! o = Some (Nested m) → (∀ k, k ∈ l.*1 → m !! k = None) →
  ∃ n', parse_lines (root, Some o) (((λ '(k, v), "  " +:+ entry_line k v) <$> l) ++ rest)%list n =
    parse_lines (<[o := Nested (list_to_map l ∪ m)]> root, Some o) rest n'.
Proof.
  revert root m n. induction l as [|[k v] l IH]; intros root m n Hnd Hok Hr Hm.
  { exists n. assert (Hid : <[o := Nested (list_to_map [] ∪ m)]> root = root); [|cbn [fmap list_fmap app]; by rewrite Hid].
    apply insert_id. rewrite Hr. do 2 f_equal. symmetry. apply (left_id_L ∅ (∪)). }
  apply NoDup_cons in Hnd as [Hk Hnd]. apply Forall_cons in Hok as [[Hko Hvo] Hok].
  destruct (IH (<[o := Nested (<[k := v]> m)]> root) (<[k := v]> m) (n + 1) Hnd Hok) as (n' & E).
  - apply lookup_insert_eq.
  - intros j Hj. rewrite lookup_insert_ne; [apply Hm; by right|]. by intros ->.
  - exists n'. cbn [fmap list_fmap app parse_lines]. rewrite (parse_nested_line root o m k v n Hko Hvo Hr) by (apply Hm; by left).
    cbn [mbind option_bind]. etrans; [exact E|]. by rewrite insert_insert_eq, add_key.
Qed.

Lemma parse_items_lines items root open_map n : NoDup items.*1 → Forall item_ok items → (∀ k, k ∈ items.*1 → root !! k = None) →
  parse_lines (root, open_map) (items ≫= item_lines) n = Some (inl (doc_of items ∪ root)).
Proof.
  revert root open_map n. induction items as [|[k i] items IH]; intros root open_map n Hnd Hok Hr.
  { cbn. by rewrite (left_id_L ∅ (∪)). }
  apply NoDup_cons in Hnd as [Hk Hnd]. apply Forall_cons in Hok as [[Hko Hi] Hok]. cbn [fst snd] in *.
  assert (Hrk : root !! k = None) by (apply Hr; by left).
  assert (Hnext : ∀ om n', parse_lines (<[k := item_value i]> root, om) (items ≫= item_lines) n' = Some (inl (doc_of ((k, i) :: items) ∪ root))).
  { intros om n'. rewrite IH; [|done|done|].
    - unfold doc_of. cbn [fmap list_fmap]. rewrite <- add_key; [done|]. intros Hin. apply Hk.
      apply list_elem_of_fmap in Hin as ([k' e] & -> & Hin). apply list_elem_of_fmap in Hin as ([k'' i'] & [= -> ->] & Hin).
      apply list_elem_of_fmap. by exists (k'', i').
    - intros j Hj. rewrite lookup_insert_ne; [apply Hr; by right|]. by intros ->. }
  cbn [mbind list_bind]. change (list_bind _ _ item_lines items) with (items ≫= item_lines). unfold item_lines at 1. cbn [fst snd].
  destruct i as [v|l]; cbn [app parse_lines].
  - rewrite (parse_scalar_line root open_map k v n) by done. apply Hnext.
  - rewrite (parse_header_line root open_map k n) by done. cbn [mbind option_bind]. destruct Hi as [Hl Hlo].
    destruct (parse_nested_lines l (items ≫= item_lines) (<[k := Nested ∅]> root) k ∅ (n + 1) Hl Hlo) as (n' & E).
    + apply lookup_insert_eq.
    + intros j _. apply lookup_empty.
    + etrans; [exact E|]. rewrite insert_insert_eq, (right_id_L ∅ (∪)). apply Hnext.
Qed.

Lemma entry_line_clean k v : key_ok k → value_ok v → every (without 10) (entry_line k v).
Proof.
  intros [_ Hk] Hv. unfold entry_line. rewrite !every_app. split_and!; [|by vm_compute|by apply print_value_solid].
  eapply every_impl; [done|]. intros c Hc. unfold without. by destruct Hc as (_ & _ & _ & _ & ? & _).
Qed.

Lemma item_lines_clean e : item_ok e → Forall (every (without 10)) (item_lines e).
Proof.
  destruct e as [k [v|l]]; intros [Hk Hi]; cbn in *.
  - constructor; [by apply entry_line_clean|constructor].
  - constructor.
    + apply every_app. split; [|by vm_compute]. eapply every_impl; [apply Hk|]. intros c Hc. unfold without. by destruct Hc as (_ & _ & _ & _ & ? & _).
    + apply Forall_fmap. destruct Hi as [_ Hl]. eapply Forall_impl; [done|]. intros [k' v] [Hk' Hv]. cbn.
      apply (every_app _ "  "). split; [by vm_compute|by apply entry_line_clean].
Qed.

(** C39: a document printed in the profile's syntax, with scalars, inline lists,
    comments' characters inside quotes and maps one level deep, is parsed back to the
    same document; and parsing ends on every text. *)
Theorem parse_print items : NoDup items.*1 → Forall item_ok items →
  parse (print items) = Some (inl (doc_of items)) ∧ ∀ src, is_Some (parse src).
Proof.
  intros Hnd Hok. split; [|apply parse_total]. unfold parse, print. destruct items as [|e items]; [by vm_compute|].
  rewrite (fields_join 10 (ascii_of_N 10)); [|by vm_compute| |].
  - rewrite parse_items_lines; [by rewrite (right_id_L ∅ (∪))|done|done|]. intros k _. apply lookup_empty.
  - destruct e as [k [v|l]]; done.
  - apply Forall_forall. intros x Hx. apply list_elem_of_bind in Hx as (e' & Hx & He'). rewrite Forall_forall in Hok.
    specialize (Hok e' He'). apply item_lines_clean in Hok. rewrite Forall_forall in Hok. by apply Hok.
Qed.

Lemma parse_print_witness : NoDup sample_doc.*1 ∧ Forall item_ok sample_doc ∧ parse (print sample_doc) = Some (inl (doc_of sample_doc)).
Proof.
  assert (Hn : NoDup sample_doc.*1) by (apply (bool_decide_eq_true_1 _); vm_compute; reflexivity).
  assert (Hok : Forall item_ok sample_doc).
  { repeat constructor; try discriminate; try (apply Z.leb_le; reflexivity); apply (bool_decide_eq_true_1 _); vm_compute; reflexivity. }
  split; [exact Hn|]. split; [exact Hok|]. apply (parse_print sample_doc Hn Hok).
Defined.

(** A number past int64_t leaves the parser as std::out_of_range, not as an error of
    the profile's line. *)
Lemma parse_big_number : parse "vram: 9223372036854775808" = Some (inr OutOfRange).
Proof. vm_compute. reflexivity. Qed.
