(* ===== verification/Codec.v ===== *)
(** * What the codecs share (nvidia/src/nvcomp_codecs.cpp, nvcomp_codecs.hpp)

    The output sink of the decoders, which writes into the caller's buffer or only
    counts; the little-endian reads; the hash table and the match searches of the
    compressors. An access outside the input or the caller's buffer, or a loop that
    does not end, is [None]. *)

From S2P Require Import Prelude.

#[local] Open Scope Z_scope.
Ltac Zify.zify_post_hook ::= Z.to_euclidean_division_equations.

Abbreviation len l := (Z.of_nat (length l)).
Definition u8 (x : Z) : Z := x mod 256.

(** enum class Result *)
Inductive Result := Ok | Corrupt | NoRoom | BadChecksum.
#[global] Instance Result_eq_dec : EqDecision Result.
Proof. solve_decision. Defined.

(** ** struct Sink *)

Record Sink := mkSink { out : option (list Z); cap : Z; filled : Z }.

Definition room (s : Sink) (k : Z) : bool :=
  bool_decide (out s = None) || ((k <=? cap s) && (filled s <=? cap s - k)).

(** memcpy to [out + at]: every byte lies in the buffer. *)
Definition blit_at (buf : list Z) (at_ : Z) (l : list Z) : option (list Z) :=
  if (0 <=? at_) && (at_ + len l <=? len buf)
  then Some (take (Z.to_nat at_) buf ++ l ++ drop (Z.to_nat at_ + length l) buf) else None.

(** put(p, k), of the bytes [l] *)
Definition put (s : Sink) (l : list Z) : option Sink :=
  buf ← match out s with
        | None => Some None
        | Some buf => if len l =? 0 then Some (Some buf) else Some <$> blit_at buf (filled s) l
        end;
  Some (mkSink buf (cap s) (u64 (filled s + len l))).

(** The loop of copy: [d[i] = s[i]], [k] bytes from [i] on. *)
Fixpoint copy_loop (buf : list Z) (d s : Z) (i : Z) (k : nat) : option (list Z) :=
  match k with
  | O => Some buf
  | S k' =>
      if (s + i <? 0) then None else
      b ← buf !! Z.to_nat (s + i);
      buf' ← blit_at buf (d + i) [b];
      copy_loop buf' d s (i + 1) k'
  end.
Definition copy (s : Sink) (dist k : Z) : option Sink :=
  buf ← match out s with
        | None => Some None
        | Some buf =>
            let d := filled s in
            let from := d - dist in
            Some <$> (if k <=? dist
                      then if (0 <=? from) && (from + k <=? len buf)
                           then blit_at buf d (take (Z.to_nat k) (drop (Z.to_nat from) buf)) else None
                      else copy_loop buf d from 0 (Z.to_nat k))
        end;
  Some (mkSink buf (cap s) (u64 (filled s + k))).

(** What a back-reference stands for: each byte is the one [dist] before it. *)
Fixpoint extend (w : list Z) (dist k : nat) : list Z :=
  match k with
  | O => w
  | S k' => extend (w ++ [w !!! (length w - dist)%nat]) dist k'
  end.

(** The sink of a caller with buffer [o] and room [c], when [w] has been decoded: the
    buffer starts with it, and the rest of it is as it was. *)
Definition sink_at (o : option (list Z)) (c : Z) (w : list Z) : Sink :=
  mkSink ((λ b, w ++ drop (length w) b) <$> o) c (len w).
(** What the caller promises of the buffer, and whether [k] bytes fit it. *)
Definition buffer_ok (o : option (list Z)) (c : Z) : Prop := 0 ≤ c ∧ ∀ b, o = Some b → c ≤ len b.
Definition fits (o : option (list Z)) (c k : Z) : Prop := o = None ∨ k ≤ c.
#[global] Instance fits_dec o c k : Decision (fits o c k).
Proof. unfold fits. apply _. Defined.

Lemma room_fits o c w k : 0 ≤ k → room (sink_at o c w) k = bool_decide (fits o c (len w + k)).
Proof.
  intros Hk. unfold room, fits, sink_at. cbn [out cap filled]. destruct o as [b|]; cbn [fmap option_fmap option_map].
  - rewrite (bool_decide_false (Some _ = None)) by done. cbn [orb].
    destruct (Z.leb_spec k c), (Z.leb_spec (len w) (c - k)); cbn [andb]; symmetry; (apply bool_decide_eq_true || apply bool_decide_eq_false); (right; lia) || (intros [?|?]; [done|lia]).
  - rewrite bool_decide_true by done. by rewrite bool_decide_true by auto.
Qed.

Lemma blit_at_end b w l : len w + len l ≤ len b → blit_at (w ++ drop (length w) b) (len w) l = Some ((w ++ l) ++ drop (length (w ++ l)) b).
Proof.
  intros H. unfold blit_at. rewrite length_app, length_drop.
  destruct (Z.leb_spec 0 (len w)); [|lia]. destruct (Z.leb_spec (len w + len l) (Z.of_nat (length w + (length b - length w)))); [|lia].
  cbn [andb]. f_equal. rewrite Nat2Z.id, take_app_length, <- app_assoc. do 2 f_equal. rewrite drop_app_ge by lia.
  rewrite drop_drop, length_app. f_equal. lia.
Qed.

Lemma put_at o c w l : buffer_ok o c → fits o c (len w + len l) → len w + len l < 18446744073709551616 →
  put (sink_at o c w) l = Some (sink_at o c (w ++ l)).
Proof.
  intros [Hc Hb] Hf Hw. unfold put, sink_at. cbn [out cap filled]. rewrite u64_small by (unfold is_u64; lia). rewrite length_app, Nat2Z.inj_add.
  destruct o as [b|]; cbn [fmap option_fmap option_map]; [|done]. destruct Hf as [?|Hf]; [done|]. specialize (Hb b eq_refl).
  destruct (Z.eqb_spec (len l) 0) as [E|E].
  - destruct l; [|cbn in E; lia]. cbn. by rewrite !app_nil_r, Nat.add_0_r, Z.add_0_r.
  - rewrite blit_at_end by lia. cbn. by rewrite length_app.
Qed.

Lemma extend_length w dist k : length (extend w dist k) = (length w + k)%nat.
Proof. revert w. induction k as [|k IH]; intros w; cbn [extend]; [lia|]. rewrite IH, length_app. cbn. lia. Qed.

Lemma last_back (w : list Z) dist : (0 < dist ≤ length w)%nat → w !! (length w - dist)%nat = Some (w !!! (length w - dist)%nat).
Proof. intros H. destruct (lookup_lt_is_Some_2 w (length w - dist)) as [x Hx]; [lia|]. rewrite Hx. f_equal. symmetry. by apply list_lookup_total_correct. Qed.

(** A back-reference that does not overlap itself is a copy of what it names. *)
Lemma extend_apart w dist k : (k ≤ dist ≤ length w)%nat → extend w dist k = w ++ take k (drop (length w - dist) w).
Proof.
  intros H. enough (G : ∀ j, (j ≤ k)%nat → extend (w ++ take j (drop (length w - dist) w)) dist (k - j) = w ++ take k (drop (length w - dist) w)).
  { rewrite <- (G 0%nat) by lia. rewrite take_0, app_nil_r. f_equal. lia. }
  intros j Hj. remember (k - j)%nat as i eqn:Ei. revert j Hj Ei. induction i as [|i IH]; intros j Hj Ei; cbn [extend].
  - by replace j with k by lia.
  - rewrite <- (IH (S j)) by lia. f_equal. rewrite <- app_assoc. f_equal.
    assert (Hl : length (take j (drop (length w - dist) w)) = j) by (rewrite length_take, length_drop; lia).
    rewrite length_app, Hl. destruct (lookup_lt_is_Some_2 w (length w - dist + j)) as [x Hx]; [lia|].
    rewrite (take_S_r _ _ x); [|by rewrite lookup_drop]. f_equal. f_equal. apply list_lookup_total_correct.
    rewrite lookup_app_l by lia. rewrite <- Hx. f_equal. lia.
Qed.

Lemma copy_loop_at b (w0 : list Z) w i k dist : len w + Z.of_nat k ≤ len b → (0 < dist ≤ length w0)%nat → length w = (length w0 + i)%nat →
  copy_loop (w ++ drop (length w) b) (len w0) (len w0 - Z.of_nat dist) (Z.of_nat i) k =
    Some (extend w dist k ++ drop (length (extend w dist k)) b).
Proof.
  revert w i. induction k as [|k IH]; intros w i Hb Hd Hw; cbn [copy_loop extend]; [done|].
  destruct (Z.ltb_spec (len w0 - Z.of_nat dist + Z.of_nat i) 0); [lia|].
  rewrite lookup_app_l by lia. replace (Z.to_nat (len w0 - Z.of_nat dist + Z.of_nat i)) with (length w - dist)%nat by lia.
  rewrite last_back by lia. cbn [mbind option_bind]. replace (len w0 + Z.of_nat i) with (len w) by lia.
  rewrite blit_at_end by (cbn [length]; lia). cbn [mbind option_bind]. replace (Z.of_nat i + 1) with (Z.of_nat (S i)) by lia.
  apply IH; rewrite ?length_app; cbn [length]; lia.
Qed.

Lemma copy_at o c w dist k : buffer_ok o c → fits o c (len w + k) → 0 < dist ≤ len w → 0 ≤ k → len w + k < 18446744073709551616 →
  copy (sink_at o c w) dist k = Some (sink_at o c (extend w (Z.to_nat dist) (Z.to_nat k))).
Proof.
  intros [Hc Hb] Hf Hd Hk Hw. unfold copy, sink_at. cbn [out cap filled]. rewrite u64_small by (unfold is_u64; lia).
  rewrite extend_length. replace (Z.of_nat (length w + Z.to_nat k)) with (len w + k) by lia.
  destruct o as [b|]; cbn [fmap option_fmap option_map]; [|done]. destruct Hf as [?|Hf]; [done|]. specialize (Hb b eq_refl).
  destruct (Z.leb_spec k dist) as [E|E].
  - destruct (Z.leb_spec 0 (len w - dist)); [|lia]. rewrite length_app, length_drop.
    destruct (Z.leb_spec (len w - dist + k) (Z.of_nat (length w + (length b - length w)))); [|lia]. cbn [andb].
    rewrite drop_app_le by lia. rewrite take_app_le by (rewrite length_drop; lia).
    assert (Hl : length (take (Z.to_nat k) (drop (Z.to_nat (len w - dist)) w)) = Z.to_nat k) by (rewrite length_take, length_drop; lia).
    rewrite blit_at_end by (rewrite Hl; lia). cbn. rewrite length_app, Hl. rewrite extend_apart by lia.
    replace (length w - Z.to_nat dist)%nat with (Z.to_nat (len w - dist)) by lia. done.
  - replace dist with (Z.of_nat (Z.to_nat dist)) at 1 by lia. rewrite (copy_loop_at b w w 0) by lia. cbn. by rewrite extend_length.
Qed.

(** What a run of the decoder promises, where [G v] says that [v] is what the input
    decodes to. *)
Definition decoded (o : option (list Z)) (c : Z) (G : list Z → Prop) (r : Result) (w' : list Z) : Prop :=
  fits o c (len w') ∧
  match r with
  | Ok => G w'
  | Corrupt => ∀ v, ¬ G v
  | NoRoom => ∀ v, G v → ¬ fits o c (len v)
  | BadChecksum => False
  end.
Definition runs (o : option (list Z)) (c : Z) (G : list Z → Prop) (x : option (Result * Sink)) : Prop :=
  ∃ r w', x = Some (r, sink_at o c w') ∧ decoded o c G r w'.

Lemma runs_iff o c G G' x : (∀ v, G v ↔ G' v) → runs o c G x → runs o c G' x.
Proof.
  intros HG (r & w' & -> & Hf & H). exists r, w'. split; [done|]. split; [done|]. destruct r; [by apply HG| | |done].
  - intros v Hv. apply (H v). by apply HG.
  - intros v Hv. apply (H v). by apply HG.
Qed.
Lemma runs_corrupt o c G w : fits o c (len w) → (∀ v, ¬ G v) → runs o c G (Some (Corrupt, sink_at o c w)).
Proof. intros. by exists Corrupt, w. Qed.
Lemma fits_le o c k k' : fits o c k → k' ≤ k → fits o c k'.
Proof. unfold fits. intros [?|?]; [by left|right; lia]. Qed.
Lemma runs_no_room o c (G : list Z → Prop) w k : fits o c (len w) → ¬ fits o c (len w + k) → (∀ v, G v → len w + k ≤ len v) →
  runs o c G (Some (NoRoom, sink_at o c w)).
Proof. intros Hw Hk HG. exists NoRoom, w. split; [done|]. split; [done|]. intros v Hv Hf. apply Hk. eapply fits_le; [done|by apply HG]. Qed.

(** ** Reading the input *)

(** rd16, rd32: at an offset of the input *)
Definition rd (inp : list Z) (i : Z) : option Z := if i <? 0 then None else inp !! Z.to_nat i.
Definition rd16 (inp : list Z) (i : Z) : option Z :=
  a ← rd inp i; b ← rd inp (i + 1); Some (Z.lor a (Z.shiftl b 8)).
Definition rd32 (inp : list Z) (i : Z) : option Z :=
  a ← rd16 inp i; b ← rd16 inp (i + 2); Some (Z.lor a (Z.shiftl b 16)).
(** [in + a, in + a + k] *)
Definition slice (inp : list Z) (a k : Z) : option (list Z) :=
  if (0 <=? a) && (0 <=? k) && (a + k <=? len inp) then Some (take (Z.to_nat k) (drop (Z.to_nat a) inp)) else None.

Definition bytes (l : list Z) : Prop := Forall is_byte l.

Lemma rd_some inp i : 0 ≤ i < len inp → ∃ b, rd inp i = Some b ∧ inp !! Z.to_nat i = Some b.
Proof.
  intros Hi. unfold rd. destruct (Z.ltb_spec i 0); [lia|]. destruct (lookup_lt_is_Some_2 inp (Z.to_nat i)) as [b Hb]; [lia|]. eauto.
Qed.
Lemma rd_lookup inp i : 0 ≤ i → rd inp i = inp !! Z.to_nat i.
Proof. intros Hi. unfold rd. destruct (Z.ltb_spec i 0); [lia|done]. Qed.
Lemma slice_some inp a k : 0 ≤ a → 0 ≤ k → a + k ≤ len inp → slice inp a k = Some (take (Z.to_nat k) (drop (Z.to_nat a) inp)).
Proof.
  intros. unfold slice. destruct (Z.leb_spec 0 a), (Z.leb_spec 0 k), (Z.leb_spec (a + k) (len inp)); try lia. done.
Qed.

Lemma rd16_bytes inp i : bytes inp → 0 ≤ i → i + 2 ≤ len inp →
  ∃ v, rd16 inp i = Some v ∧ 0 ≤ v < 65536 ∧ rd inp i = Some (v mod 256) ∧ rd inp (i + 1) = Some (v / 256).
Proof.
  intros Hb Hi Hl. unfold rd16. destruct (rd_some inp i) as (a & -> & Ha); [lia|]. destruct (rd_some inp (i + 1)) as (b & -> & Hb'); [lia|].
  pose proof (Forall_lookup_1 _ _ _ _ Hb Ha) as H1. pose proof (Forall_lookup_1 _ _ _ _ Hb Hb') as H2. unfold is_byte in *.
  eexists. split; [done|]. rewrite lor_shiftl_add by (cbn; lia). change (2 ^ 8) with 256. split; [lia|].
  split; f_equal; lia.
Qed.

Lemma rd32_bytes inp i : bytes inp → 0 ≤ i → i + 4 ≤ len inp →
  ∃ v, rd32 inp i = Some v ∧ 0 ≤ v < 4294967296 ∧ ∀ k, 0 ≤ k < 4 → rd inp (i + k) = Some (v / 256 ^ k mod 256).
Proof.
  intros Hb Hi Hl. unfold rd32. destruct (rd16_bytes inp i Hb) as (a & -> & Ha & Ha0 & Ha1); [lia|lia|].
  destruct (rd16_bytes inp (i + 2) Hb) as (b & -> & Hb' & Hb0 & Hb1); [lia|lia|]. eexists. split; [done|].
  rewrite lor_shiftl_add by (cbn; lia). change (2 ^ 16) with 65536. split; [lia|]. intros k Hk. unfold is_byte in *.
  assert (k = 0 ∨ k = 1 ∨ k = 2 ∨ k = 3) as [->|[->|[->| ->]]] by lia.
  - rewrite Z.add_0_r, Ha0. f_equal. change (256 ^ 0) with 1. lia.
  - rewrite Ha1. f_equal. change (256 ^ 1) with 256. lia.
  - rewrite Hb0. f_equal. change (256 ^ 2) with 65536. lia.
  - replace (i + 3) with (i + 2 + 1) by lia. rewrite Hb1. f_equal. change (256 ^ 3) with 16777216. lia.
Qed.

(** Equal words are equal bytes. *)
Lemma rd32_same inp i j v : bytes inp → 0 ≤ i → i + 4 ≤ len inp → 0 ≤ j → j + 4 ≤ len inp →
  rd32 inp i = Some v → rd32 inp j = Some v → ∀ k, 0 ≤ k < 4 → rd inp (i + k) = rd inp (j + k).
Proof.
  intros Hb Hi Hi' Hj Hj' Ei Ej k Hk. destruct (rd32_bytes inp i Hb Hi Hi') as (a & Ea & _ & Ha).
  destruct (rd32_bytes inp j Hb Hj Hj') as (b & Eb & _ & Hb'). rewrite Ei in Ea. rewrite Ej in Eb. simplify_eq.
  by rewrite (Ha k Hk), (Hb' k Hk).
Qed.

(** ** struct HashTable *)

Definition index (bits v : Z) : Z := Z.shiftr (u32 (v * 2654435761)) (32 - bits).
(** A slot not written yet is -1. *)
Definition slot (ht : gmap Z Z) (i : Z) : Z := default (-1) (ht !! i).

(** Every index lies in the table of 2^bits slots. *)
Lemma index_range bits v : 0 ≤ bits ≤ 32 → 0 ≤ index bits v < 2 ^ bits.
Proof.
  intros Hb. unfold index, u32. rewrite Z.shiftr_div_pow2 by lia. pose proof (Z.mod_pos_bound (v * 2654435761) 4294967296 ltac:(lia)) as H.
  assert (0 < 2 ^ (32 - bits)) by (apply Z.pow_pos_nonneg; lia). split; [apply Z.div_pos; lia|]. apply Z.div_lt_upper_bound; [lia|].
  rewrite <- Z.pow_add_r by lia. replace (32 - bits + bits) with 32 by lia. change (2 ^ 32) with 4294967296. lia.
Qed.

(** What a table of positions holds at [ip]. *)
Definition table_ok (ht : gmap Z Z) (ip : Z) : Prop := ∀ i v, ht !! i = Some v → 0 ≤ v < ip.
Lemma table_slot ht ip i : table_ok ht ip → slot ht i = -1 ∨ 0 ≤ slot ht i < ip.
Proof. intros H. unfold slot. destruct (ht !! i) eqn:E; cbn; [right; eauto|by left]. Qed.
Lemma table_put ht ip i v ip' : table_ok ht ip → 0 ≤ v < ip' → ip ≤ ip' → table_ok (<[i := v]> ht) ip'.
Proof. intros H Hv Hi j x. rewrite lookup_insert_Some. intros [[-> <-]|[_ Hx]]; [done|]. specialize (H _ _ Hx). lia. Qed.

(** ** Matches *)

(** [while (ip + k < limit && in[ref + k] == in[ip + k]) ++k] *)
Fixpoint match_len (fuel : nat) (inp : list Z) (ref ip k limit : Z) : option Z :=
  match fuel with
  | O => None
  | S fuel' =>
      if ip + k <? limit then
        a ← rd inp (ref + k); b ← rd inp (ip + k);
        if a =? b then match_len fuel' inp ref ip (k + 1) limit else Some k
      else Some k
  end.

(** The same bytes at two places of the input, [k] of them. *)
Definition same_run (inp : list Z) (ref ip k : Z) : Prop := ∀ j, 0 ≤ j < k → rd inp (ref + j) = rd inp (ip + j).

Lemma match_len_spec fuel inp ref ip k limit : 0 ≤ ref < ip → limit ≤ len inp → 0 ≤ k → (Z.to_nat (limit - ip - k) < fuel)%nat →
  same_run inp ref ip k →
  ∃ k', match_len fuel inp ref ip k limit = Some k' ∧ k ≤ k' ∧ ip + k' ≤ Z.max (ip + k) limit ∧ same_run inp ref ip k'.
Proof.
  revert k. induction fuel as [|fuel IH]; intros k Hr Hl Hk Hf Hs; [lia|]. cbn [match_len].
  destruct (Z.ltb_spec (ip + k) limit); [|exists k; split_and!; [done|lia|lia|done]].
  destruct (rd_some inp (ref + k)) as (a & Ea & _); [lia|]. destruct (rd_some inp (ip + k)) as (b & Eb & _); [lia|]. rewrite Ea, Eb.
  cbn [mbind option_bind]. destruct (Z.eqb_spec a b) as [->|?]; [|exists k; split_and!; [done|lia|lia|done]].
  destruct (IH (k + 1)) as (k' & E & H1 & H2 & H3); [done|done|lia|lia| |].
  - intros j Hj. destruct (decide (j = k)) as [->|]; [congruence|]. apply Hs. lia.
  - exists k'. split_and!; [done|lia|lia|done].
Qed.

(** A run that repeats is what a back-reference to it gives. *)
Lemma extend_run inp ref ip k : 0 ≤ ref < ip → 0 ≤ k → ip + k ≤ len inp → same_run inp ref ip k →
  extend (take (Z.to_nat ip) inp) (Z.to_nat (ip - ref)) (Z.to_nat k) = take (Z.to_nat (ip + k)) inp.
Proof.
  intros Hr Hk Hl Hs. rewrite Z2Nat.inj_add by lia. remember (Z.to_nat k) as m eqn:Em.
  assert (Hs' : ∀ j, (j < m)%nat → inp !! (Z.to_nat ref + j)%nat = inp !! (Z.to_nat ip + j)%nat).
  { intros j Hj. specialize (Hs (Z.of_nat j)). rewrite !rd_lookup, !Z2Nat.inj_add, Nat2Z.id in Hs by lia. apply Hs. lia. }
  enough (G : ∀ i j, (j + i = m)%nat → extend (take (Z.to_nat ip + j) inp) (Z.to_nat (ip - ref)) i = take (Z.to_nat ip + m) inp).
  { specialize (G m 0%nat). rewrite Nat.add_0_r in G. by apply G. }
  induction i as [|i IH]; intros j Hj; cbn [extend]; [by replace m with j by lia|].
  rewrite <- (IH (S j)) by lia. f_equal. rewrite length_take. replace (Init.Nat.min (Z.to_nat ip + j) (length inp)) with (Z.to_nat ip + j)%nat by lia.
  destruct (lookup_lt_is_Some_2 inp (Z.to_nat ip + j)) as [x Hx]; [lia|].
  replace (Z.to_nat ip + S j)%nat with (S (Z.to_nat ip + j)) by lia. rewrite (take_S_r _ _ x) by done. do 2 f_equal.
  apply list_lookup_total_correct. rewrite lookup_take_lt by lia. rewrite <- Hx, <- Hs' by lia. f_equal. lia.
Qed.
