(* ===== verification/Lz4.v ===== *)
(** * LZ4 blocks (nvidia/src/nvcomp_codecs.cpp: lz4_compress, lz4_decompress)

    The compressor with its hash table and match searches, the decoder with its
    sink, and the block format as a relation. Shown: the decoder accepts exactly the
    blocks of the format, decodes them to what they stand for, stays inside its
    input and the caller's room, and measures what it would write; every input is
    compressed to a block of the format that fits lz4_bound and decodes to it. *)

From S2P Require Import Prelude Codec.

#[local] Open Scope Z_scope.

Definition lz4_bound (n : Z) : Z := Z.land (u64 (n + n / 255 + 9)) (Z.lnot 7).

(** ** Writing sequences *)

(** lz4_length, the bytes it appends *)
Fixpoint lz4_length_loop (fuel : nat) (v : Z) : list Z :=
  match fuel with
  | O => []
  | S fuel' => if 255 <=? v then 255 :: lz4_length_loop fuel' (v - 255) else [u8 v]
  end.
Definition lz4_length (v : Z) : list Z := lz4_length_loop (S (Z.to_nat v)) v.

(** lz4_sequence, the bytes it appends *)
Definition lz4_sequence (lit : list Z) (offset mlen : Z) : list Z :=
  let nlit := len lit in
  let m := if mlen =? 0 then 0 else mlen - 4 in
  [u8 (Z.lor (Z.shiftl (Z.min nlit 15) 4) (Z.min m 15))] ++
  (if 15 <=? nlit then lz4_length (nlit - 15) else []) ++
  lit ++
  (if mlen =? 0 then [] else
   [u8 offset; u8 (Z.shiftr offset 8)] ++ (if 15 <=? m then lz4_length (m - 15) else [])).

(** ** lz4_compress *)

Definition kLastLiterals : Z := 5.
Definition kMfLimit : Z := 12.
Definition kMaxOffset : Z := 65535.

(** [while (ip - back > anchor && ref > back && in[ip - back - 1] == in[ref - back - 1]) ++back] *)
Fixpoint match_back (fuel : nat) (inp : list Z) (anchor ip ref back : Z) : option Z :=
  match fuel with
  | O => None
  | S fuel' =>
      if (anchor <? ip - back) && (back <? ref) then
        a ← rd inp (ip - back - 1); b ← rd inp (ref - back - 1);
        if a =? b then match_back fuel' inp anchor ip ref (back + 1) else Some back
      else Some back
  end.

(** The output, the hash table, [anchor] and [ip]. *)
Record Comp := mkComp { c_o : list Z; c_ht : gmap Z Z; c_anchor : Z; c_ip : Z }.

(** The body of the loop. *)
Definition lz4_step (inp : list Z) (c : Comp) : option Comp :=
  let '(mkComp o ht anchor ip) := c in
  let n := len inp in
  let match_limit := n - kLastLiterals in
  seq ← rd32 inp ip;
  let ref := slot ht (index 16 seq) in
  let ht := <[index 16 seq := ip]> ht in
  miss ← (if (ref <? 0) || (kMaxOffset <? ip - ref) then Some true else r ← rd32 inp ref; Some (negb (r =? seq)));
  if miss : bool then Some (mkComp o ht anchor (ip + 1)) else
  k ← match_len (S (length inp)) inp ref ip 4 match_limit;
  back ← match_back (S (length inp)) inp anchor ip ref 0;
  lit ← slice inp anchor (ip - back - anchor);
  let o := o ++ lz4_sequence lit (ip - ref) (k + back) in
  let ip := ip + k in
  ht ← (if (2 <=? ip) && (ip + 4 <=? n) then v ← rd32 inp (ip - 2); Some (<[index 16 v := ip - 2]> ht) else Some ht);
  Some (mkComp o ht ip ip).

Fixpoint lz4_loop (fuel : nat) (inp : list Z) (c : Comp) : option Comp :=
  match fuel with
  | O => None
  | S fuel' => if c_ip c + kMfLimit <? len inp then c' ← lz4_step inp c; lz4_loop fuel' inp c' else Some c
  end.

Definition lz4_compress (inp : list Z) : option (list Z) :=
  let n := len inp in
  c ← (if kMfLimit <? n then lz4_loop (S (length inp)) inp (mkComp [] ∅ 0 0) else Some (mkComp [] ∅ 0 0));
  lit ← slice inp (c_anchor c) (n - c_anchor c);
  Some (c_o c ++ lz4_sequence lit 0 0).

(** ** lz4_decompress *)

(** ext: a 255-run continuation of [v], from the rest of the input on; [None] where
    the input ends. *)
Fixpoint ext (rest : list Z) (v : Z) : option (Z * list Z) :=
  match rest with
  | [] => None
  | b :: rest' => let v := u64 (v + b) in if b =? 255 then ext rest' v else Some (v, rest')
  end.
Definition nibble (v : Z) (rest : list Z) : option (Z * list Z) := if v =? 15 then ext rest v else Some (v, rest).

(** The match of a sequence, after its literals: what is left of the input
    ([in + ip]) and the sink. *)
Definition decode_match (again : list Z → Sink → option (Result * Sink)) (token : Z) (rest : list Z) (s : Sink) : option (Result * Sink) :=
  match rest with
  | [] => Some (Ok, s)   (* the last sequence has no match *)
  | [_] => Some (Corrupt, s)
  | b0 :: b1 :: rest =>
      let off := Z.lor b0 (Z.shiftl b1 8) in
      if (off =? 0) || (filled s <? off) then Some (Corrupt, s) else
      match nibble (Z.land token 15) rest with
      | None => Some (Corrupt, s)
      | Some (ml, rest) =>
          let ml := u64 (ml + 4) in
          if negb (room s ml) then Some (NoRoom, s) else
          s ← copy s off ml;
          again rest s
      end
  end.

Fixpoint decode_loop (fuel : nat) (rest : list Z) (s : Sink) : option (Result * Sink) :=
  match fuel with
  | O => None
  | S fuel' =>
      match rest with
      | [] => Some (Corrupt, s)
      | token :: rest =>
          match nibble (Z.shiftr token 4) rest with
          | None => Some (Corrupt, s)
          | Some (lit, rest) =>
              if len rest <? lit then Some (Corrupt, s) else
              if negb (room s lit) then Some (NoRoom, s) else
              s ← put s (take (Z.to_nat lit) rest);
              decode_match (decode_loop fuel') token (drop (Z.to_nat lit) rest) s
          end
      end
  end.

(** The result, [*produced] and the caller's buffer. *)
Definition lz4_decompress (inp : list Z) (o : option (list Z)) (c : Z) : option (Result * Z * option (list Z)) :=
  r ← decode_loop (S (length inp)) inp (mkSink o c 0);
  let '(r, s) := r in
  Some (r, if bool_decide (r = Ok) then filled s else 0, out s).

Definition sample : list Z := [1;2;3;4;5;6;7;8;1;2;3;4;5;6;7;8;1;2;3;4;5;6;7;8;9;9;9;9;9;9;9;9;9;9;9;9;9;9;9;9;9;9;1;2;3].
Example lz4_sample :
  (o ← lz4_compress sample; lz4_decompress o (Some (replicate 50 0)) 48) = Some (Ok, 45, Some (sample ++ replicate 5 0)).
Proof. vm_compute. reflexivity. Qed.

(** ** The block format *)

(** What follows a nibble of a length: nothing below 15, else 255s and the rest. *)
Definition run_code (v : Z) : list Z :=
  if v <? 15 then [] else replicate (Z.to_nat ((v - 15) / 255)) 255 ++ [(v - 15) mod 255].
Definition lits_code (lit : list Z) (low : Z) : list Z := (16 * Z.min (len lit) 15 + low) :: run_code (len lit) ++ lit.
Definition seq_code (lit : list Z) (off mlen : Z) : list Z :=
  lits_code lit (Z.min (mlen - 4) 15) ++ [off mod 256; off / 256] ++ run_code (mlen - 4).

(** [Block w b v]: after [w], the block [b] decodes to [v]. A block is sequences of
    literals and a match, and last a sequence of literals alone. *)
Inductive Block : list Z → list Z → list Z → Prop :=
  | blk_last w lit low : bytes lit → 0 ≤ low < 16 → Block w (lits_code lit low) (w ++ lit)
  | blk_seq w lit off mlen rest v : bytes lit → 0 < off < 65536 → off ≤ len w + len lit → 4 ≤ mlen →
      Block (extend (w ++ lit) (Z.to_nat off) (Z.to_nat mlen)) rest v →
      Block w (seq_code lit off mlen ++ rest) v.

Lemma Block_grows w b v : Block w b v → (length w ≤ length v)%nat.
Proof. induction 1; [rewrite length_app; lia|]. rewrite extend_length, length_app in *. lia. Qed.

(** ** Lengths *)

Lemma ext_code k r rest v : 0 ≤ r < 255 → 0 ≤ v → v + 255 * Z.of_nat k + r < 18446744073709551616 →
  ext (replicate k 255 ++ [r] ++ rest) v = Some (v + 255 * Z.of_nat k + r, rest).
Proof.
  intros Hr. revert v. induction k as [|k IH]; intros v Hv Hb; cbn [replicate app ext].
  - rewrite u64_small by (unfold is_u64; lia). destruct (Z.eqb_spec r 255); [lia|]. do 2 f_equal. lia.
  - rewrite u64_small by (unfold is_u64; lia). rewrite Z.eqb_refl. cbn [app] in IH. rewrite IH by lia. do 2 f_equal. lia.
Qed.

Lemma nibble_code v rest : 0 ≤ v < 18446744073709551616 → nibble (Z.min v 15) (run_code v ++ rest) = Some (v, rest).
Proof.
  intros Hv. unfold nibble, run_code. destruct (Z.ltb_spec v 15) as [E|E].
  - destruct (Z.eqb_spec (Z.min v 15) 15); [lia|]. by rewrite Z.min_l by lia.
  - rewrite Z.min_r by lia. rewrite Z.eqb_refl, <- app_assoc. rewrite ext_code by lia. do 2 f_equal. lia.
Qed.

Lemma ext_inv rest v x rest' : bytes rest → 0 ≤ v → v + 255 * len rest < 18446744073709551616 → ext rest v = Some (x, rest') →
  ∃ k r, rest = replicate k 255 ++ [r] ++ rest' ∧ 0 ≤ r < 255 ∧ x = v + 255 * Z.of_nat k + r.
Proof.
  intros Hb. revert v. induction Hb as [|b rest Hb Hr IH]; intros v Hv Hl E; [done|]. cbn [ext length] in *. unfold is_byte in Hb.
  rewrite u64_small in E by (unfold is_u64; lia). destruct (Z.eqb_spec b 255) as [->|].
  - destruct (IH (v + 255)) as (k & r & -> & H & ->); [lia|lia|done|]. exists (S k), r. split; [done|]. split; [done|lia].
  - injection E as <- <-. exists 0%nat, b. split; [done|]. split; lia.
Qed.

Lemma nibble_inv x rest v rest' : bytes rest → 0 ≤ x ≤ 15 → 15 + 255 * len rest < 18446744073709551616 → nibble x rest = Some (v, rest') →
  x = Z.min v 15 ∧ rest = run_code v ++ rest' ∧ 0 ≤ v ∧ v + 255 * len rest' ≤ 15 + 255 * len rest.
Proof.
  intros Hb Hx Hl. unfold nibble, run_code. destruct (Z.eqb_spec x 15) as [->|].
  - intros E. apply ext_inv in E as (k & r & -> & Hr & ->); [|done|lia|lia]. destruct (Z.ltb_spec (15 + 255 * Z.of_nat k + r) 15); [lia|].
    replace ((15 + 255 * Z.of_nat k + r - 15) / 255) with (Z.of_nat k) by lia.
    replace ((15 + 255 * Z.of_nat k + r - 15) mod 255) with r by lia. rewrite Nat2Z.id, <- app_assoc.
    rewrite !length_app, length_replicate. cbn [length]. split_and!; [lia|done|lia|lia].
  - intros [= <- <-]. destruct (Z.ltb_spec x 15); [|lia]. cbn [app]. split_and!; [lia|done|lia|lia].
Qed.

Lemma token_parts token : is_byte token → token = 16 * Z.shiftr token 4 + Z.land token 15 ∧ 0 ≤ Z.shiftr token 4 < 16 ∧ 0 ≤ Z.land token 15 < 16.
Proof.
  intros H. unfold is_byte in H. rewrite Z.shiftr_div_pow2 by lia. change 15 with (2 ^ 4 - 1). rewrite land_pow2_mod by lia.
  change (2 ^ 4) with 16. lia.
Qed.
Lemma token_code hi lo : 0 ≤ hi < 16 → 0 ≤ lo < 16 → Z.shiftr (16 * hi + lo) 4 = hi ∧ Z.land (16 * hi + lo) 15 = lo.
Proof.
  intros. rewrite Z.shiftr_div_pow2 by lia. change 15 with (2 ^ 4 - 1). rewrite land_pow2_mod by lia. change (2 ^ 4) with 16. lia.
Qed.

(** ** The decoder and the format *)

Lemma run_code_room v : 0 ≤ v → v ≤ 15 + 255 * len (run_code v).
Proof.
  intros Hv. unfold run_code. destruct (Z.ltb_spec v 15); [cbn; lia|]. rewrite length_app, length_replicate. cbn [length]. lia.
Qed.

(** What the decoder's steps find in a block: literals [lit], and then the end or a
    match and another block. *)
Definition Match (token : Z) (w b v : list Z) : Prop :=
  ∃ off b1 mlen b2, b = off mod 256 :: off / 256 :: b1 ∧ 0 < off < 65536 ∧ off ≤ len w ∧ 4 ≤ mlen ∧
    nibble (Z.land token 15) b1 = Some (mlen - 4, b2) ∧ Block (extend w (Z.to_nat off) (Z.to_nat mlen)) b2 v.
Definition Tail (token : Z) (w b v : list Z) : Prop := (b = [] ∧ v = w) ∨ Match token w b v.

Lemma Block_inv w b v : Block w b v → 20 + 255 * len b < 18446744073709551616 → ∃ token b1 lit b2,
  b = token :: b1 ∧ nibble (Z.shiftr token 4) b1 = Some (len lit, lit ++ b2) ∧ Tail token (w ++ lit) b2 v.
Proof.
  intros Hb Hl. destruct Hb as [w lit low Hlit Hlow|w lit off mlen rest v Hlit Ho Ho' Hm Hr].
  - unfold lits_code in *. cbn [length] in Hl. rewrite length_app in Hl.
    exists (16 * Z.min (len lit) 15 + low), (run_code (len lit) ++ lit), lit, []. split; [done|].
    destruct (token_code (Z.min (len lit) 15) low) as [-> _]; [lia|lia|].
    rewrite nibble_code, app_nil_r by lia. split; [done|]. by left.
  - unfold seq_code, lits_code in *. cbn [app] in *. cbn [length] in Hl. rewrite !length_app in Hl. cbn [length] in Hl.
    pose proof (run_code_room (mlen - 4) ltac:(lia)).
    destruct (token_code (Z.min (len lit) 15) (Z.min (mlen - 4) 15)) as [Hhi Hlo]; [lia|lia|].
    exists (16 * Z.min (len lit) 15 + Z.min (mlen - 4) 15), (run_code (len lit) ++ lit ++ off mod 256 :: off / 256 :: run_code (mlen - 4) ++ rest), lit,
      (off mod 256 :: off / 256 :: run_code (mlen - 4) ++ rest).
    split; [by rewrite <- !app_assoc|]. rewrite Hhi. rewrite nibble_code by lia. split; [reflexivity|]. right.
    exists off, (run_code (mlen - 4) ++ rest), mlen, rest. rewrite Hlo, nibble_code, length_app by lia. split_and!; try done; lia.
Qed.

(** The same of a block whose literals the decoder has found. *)
Lemma Block_tail token b1 lit b2 w v : Block w (token :: b1) v → 20 + 255 * len (token :: b1) < 18446744073709551616 →
  nibble (Z.shiftr token 4) b1 = Some (len lit, lit ++ b2) → Tail token (w ++ lit) b2 v.
Proof.
  intros Hv Hl E. destruct (Block_inv _ _ _ Hv Hl) as (token' & b1' & lit' & b2' & [= <- <-] & E' & H). rewrite E in E'. injection E' as E1 E2.
  apply app_inj_1 in E2 as [<- <-]; [done|lia].
Qed.
Lemma Tail_grows token w b v : Tail token w b v → (length w ≤ length v)%nat.
Proof. intros [[_ ->]|(off & b1 & mlen & b2 & _ & _ & _ & _ & _ & H)]; [done|]. apply Block_grows in H. rewrite extend_length in H. lia. Qed.

Lemma decode_match_spec o c again fuel token w b : buffer_ok o c → bytes b → 0 ≤ Z.land token 15 < 16 →
  19 + len w + 255 * len b < 18446744073709551616 → fits o c (len w) → (length b ≤ fuel)%nat →
  (∀ b w, bytes b → 20 + len w + 255 * len b < 18446744073709551616 → fits o c (len w) → (length b < fuel)%nat →
     runs o c (Block w b) (again b (sink_at o c w))) →
  runs o c (Tail token w b) (decode_match again token b (sink_at o c w)).
Proof.
  intros Hbuf Hb Ht Hl Hw Hf IH. unfold decode_match.
  destruct b as [|b0 [|b1 b2]]; [exists Ok, w; split; [done|]; split; [done|by left]|apply runs_corrupt; [done|]|].
  { by intros v [[? _]|(off & b1 & mlen & b2 & ? & _)]. }
  apply Forall_cons in Hb as [H0 Hb]. apply Forall_cons in Hb as [H1 Hb2]. unfold is_byte in H0, H1. cbn [length] in *.
  rewrite lor_shiftl_add by (cbn; lia). change (2 ^ 8) with 256. set (off := b0 + 256 * b1).
  assert (Hoff : ∀ off', b0 = off' mod 256 → b1 = off' / 256 → off' = off) by (unfold off; intros; lia). cbn [filled sink_at].
  destruct ((off =? 0) || (len w <? off)) eqn:Eo.
  { apply runs_corrupt; [done|]. intros v [[? _]|(off' & b1' & mlen & b2' & [= E0 E1 <-] & Ho & Ho' & _)]; [done|].
    specialize (Hoff off' E0 E1) as ->. apply orb_true_iff in Eo as [Eo|Eo]; lia. }
  apply orb_false_iff in Eo as [Eo1 Eo2].
  destruct (nibble (Z.land token 15) b2) as [[ml b3]|] eqn:En.
  2: { apply runs_corrupt; [done|]. intros v [[? _]|(off' & b1' & mlen & b2' & [= _ _ <-] & _ & _ & _ & E & _)]; [done|]. by rewrite En in E. }
  destruct (nibble_inv (Z.land token 15) b2 ml b3 Hb2 ltac:(lia) ltac:(lia) En) as (_ & Eb2 & Hml & Hlen).
  rewrite u64_small by (unfold is_u64; lia). rewrite room_fits by lia.
  assert (Hiff : ∀ v, Tail token w (b0 :: b1 :: b2) v ↔ Block (extend w (Z.to_nat off) (Z.to_nat (ml + 4))) b3 v).
  { intros v. split.
    - intros [[? _]|(off' & b1' & mlen & b2' & [= E0 E1 <-] & _ & _ & _ & E & Hv)]; [done|]. specialize (Hoff off' E0 E1) as ->.
      rewrite En in E. injection E as -> ->. by replace (mlen - 4 + 4) with mlen in * by lia.
    - intros Hv. right. exists off, b2, (ml + 4), b3. unfold off in *. split_and!; [|lia|lia|lia|lia|rewrite En; do 2 f_equal; lia|done].
      f_equal; [lia|]. f_equal. lia. }
  case_bool_decide as Hroom; cbn [negb].
  - rewrite (copy_at o c w off (ml + 4)) by (done || lia). cbn [mbind option_bind]. eapply runs_iff; [intros v; symmetry; apply Hiff|].
    assert (Hb3 : bytes b3) by (rewrite Eb2 in Hb2; by apply Forall_app in Hb2 as [_ ?]).
    apply IH; [done| | |]; rewrite ?extend_length, ?Nat2Z.inj_add, ?Z2Nat.id by lia; [lia|done|].
    rewrite Eb2, length_app in Hf. lia.
  - eapply runs_no_room; [done|done|]. intros v Hv%Hiff. apply Block_grows in Hv. rewrite extend_length in Hv. lia.
Qed.

(** A block, from what the decoder found in it. *)
Lemma tail_Block token b1 lit b2 w v : is_byte token → bytes b1 → 20 + 255 * len (token :: b1) < 18446744073709551616 →
  nibble (Z.shiftr token 4) b1 = Some (len lit, lit ++ b2) → Tail token (w ++ lit) b2 v → Block w (token :: b1) v.
Proof.
  intros Ht Hb1 Hl E Hv. cbn [length] in Hl. destruct (token_parts token Ht) as (Etok & Hhi & Hlo).
  destruct (nibble_inv (Z.shiftr token 4) b1 _ _ Hb1 ltac:(lia) ltac:(lia) E) as (Emin & Eb1 & _ & _).
  assert (Hb : bytes (lit ++ b2)) by (rewrite Eb1 in Hb1; by apply Forall_app in Hb1 as [_ ?]). apply Forall_app in Hb as [Hlit Hb2].
  rewrite Etok, Emin, Eb1. destruct Hv as [[-> ->]|(off & b3 & mlen & b4 & -> & Ho & Ho' & Hm & En & Hv)].
  - rewrite app_nil_r. by apply blk_last.
  - rewrite length_app in Ho'. apply Forall_cons in Hb2 as [_ Hb3]. apply Forall_cons in Hb3 as [_ Hb3].
    rewrite Eb1, !length_app in Hl. cbn [length] in Hl.
    destruct (nibble_inv (Z.land token 15) b3 _ _ Hb3 ltac:(lia) ltac:(lia) En) as (Emin' & -> & _ & _). rewrite Emin'.
    replace (_ :: _) with (seq_code lit off mlen ++ b4); [by apply blk_seq; try done; lia|].
    unfold seq_code, lits_code. cbn [app]. by rewrite <- !app_assoc.
Qed.

Lemma decode_loop_spec o c fuel b w : buffer_ok o c → bytes b → 20 + len w + 255 * len b < 18446744073709551616 → fits o c (len w) →
  (length b < fuel)%nat → runs o c (Block w b) (decode_loop fuel b (sink_at o c w)).
Proof.
  intros Hbuf. revert b w. induction fuel as [|fuel IH]; intros b w Hb Hl Hw Hf; [lia|]. cbn [decode_loop].
  assert (Hl' : 20 + 255 * len b < 18446744073709551616) by lia.
  destruct b as [|token b1]; [apply runs_corrupt; [done|]; intros v Hv; by destruct (Block_inv _ _ _ Hv Hl') as (? & ? & ? & ? & ? & _)|].
  pose proof Hb as [Ht Hb1]%Forall_cons. destruct (token_parts token Ht) as (_ & Hhi & Hlo).
  assert (Hlen : len (token :: b1) = 1 + len b1) by (cbn [length]; lia).
  assert (Hfound : ∀ v, Block w (token :: b1) v → ∃ lit b2, nibble (Z.shiftr token 4) b1 = Some (len lit, lit ++ b2)).
  { intros v Hv. destruct (Block_inv _ _ _ Hv Hl') as (? & ? & lit & b2 & [= <- <-] & E & _). by exists lit, b2. }
  destruct (nibble (Z.shiftr token 4) b1) as [[nl b2]|] eqn:E1.
  2: { apply runs_corrupt; [done|]. intros v Hv. by destruct (Hfound v Hv) as (? & ? & ?). }
  destruct (nibble_inv (Z.shiftr token 4) b1 nl b2 Hb1 ltac:(lia) ltac:(lia) E1) as (_ & Eb1 & Hnl & Hlen2).
  destruct (Z.ltb_spec (len b2) nl) as [Hshort|Hlong].
  { apply runs_corrupt; [done|]. intros v Hv. destruct (Hfound v Hv) as (lit & b3 & [= -> ->]). rewrite length_app in Hshort. lia. }
  set (lit := take (Z.to_nat nl) b2). set (b3 := drop (Z.to_nat nl) b2).
  assert (Eb2 : b2 = lit ++ b3) by (symmetry; apply take_drop). assert (Hlit : len lit = nl) by (unfold lit; rewrite length_take; lia).
  assert (Hlb2 : len b2 = nl + len b3) by (rewrite Eb2, length_app; lia).
  assert (Hb3 : bytes b3) by (rewrite Eb1, Eb2 in Hb1; by apply Forall_app in Hb1 as [_ [_ ?]%Forall_app]).
  rewrite Eb2, <- Hlit in E1.
  assert (Hiff : ∀ v, Block w (token :: b1) v ↔ Tail token (w ++ lit) b3 v).
  { intros v. split; intros; [by eapply Block_tail|by eapply tail_Block]. }
  rewrite room_fits by done. case_bool_decide as Hroom; cbn [negb].
  - rewrite (put_at o c w lit) by (done || (rewrite Hlit; done || lia)). cbn [mbind option_bind].
    eapply runs_iff; [intros v; symmetry; apply Hiff|]. assert (Hlb1 : (length b2 ≤ length b1)%nat) by (rewrite Eb1, length_app; lia).
    cbn [length] in Hf. apply decode_match_spec with fuel; rewrite ?length_app, ?Nat2Z.inj_add; try done; try lia. by rewrite Hlit.
  - eapply runs_no_room; [done|done|]. intros v Hv%Hiff%Tail_grows. rewrite length_app in Hv. lia.
Qed.

(** ** The compressor *)

Lemma lz4_length_code v : 0 ≤ v → lz4_length v = replicate (Z.to_nat (v / 255)) 255 ++ [v mod 255].
Proof.
  intros Hv. unfold lz4_length. generalize (le_n (S (Z.to_nat v))). generalize (S (Z.to_nat v)) at 2 3 as fuel.
  intros fuel. revert v Hv. induction fuel as [|fuel IH]; intros v Hv Hf; [lia|]. cbn [lz4_length_loop].
  destruct (Z.leb_spec 255 v) as [H|H].
  - rewrite IH by lia. replace (v / 255) with ((v - 255) / 255 + 1) by lia. replace ((v - 255) mod 255) with (v mod 255) by lia.
    rewrite Z2Nat.inj_add by lia. change (Z.to_nat 1) with 1%nat. rewrite Nat.add_comm. done.
  - replace (v / 255) with 0 by lia. replace (v mod 255) with v by lia. unfold u8. by rewrite Z.mod_small by lia.
Qed.

Lemma run_code_eq v : 0 ≤ v → (if 15 <=? v then lz4_length (v - 15) else []) = run_code v.
Proof. intros Hv. unfold run_code. destruct (Z.leb_spec 15 v), (Z.ltb_spec v 15); try lia; [|done]. apply lz4_length_code. lia. Qed.

Lemma token_u8 hi lo : 0 ≤ hi ≤ 15 → 0 ≤ lo ≤ 15 → u8 (Z.lor (Z.shiftl hi 4) lo) = 16 * hi + lo.
Proof.
  intros. rewrite Z.lor_comm, lor_shiftl_add by (cbn; lia). unfold u8. change (2 ^ 4) with 16. rewrite Z.mod_small by lia. lia.
Qed.

Lemma lz4_sequence_match lit off mlen : 0 ≤ off < 65536 → 4 ≤ mlen → lz4_sequence lit off mlen = seq_code lit off mlen.
Proof.
  intros Ho Hm. unfold lz4_sequence, seq_code, lits_code. destruct (Z.eqb_spec mlen 0); [lia|]. rewrite !run_code_eq by lia.
  rewrite token_u8 by lia. unfold u8. rewrite Z.shiftr_div_pow2 by lia. change (2 ^ 8) with 256. rewrite (Z.mod_small (off / 256)) by lia.
  cbn [app]. f_equal. by rewrite <- !app_assoc.
Qed.
Lemma lz4_sequence_last lit : lz4_sequence lit 0 0 = lits_code lit 0.
Proof.
  unfold lz4_sequence, lits_code. cbn [Z.eqb]. rewrite run_code_eq by lia. rewrite token_u8 by lia. cbn [app]. rewrite app_nil_r. done.
Qed.

(** What the compressor has written: sequences that decode to [w]. *)
Inductive Seqs : list Z → list Z → Prop :=
  | seqs_nil : Seqs [] []
  | seqs_snoc b w lit off mlen : Seqs b w → bytes lit → 0 < off < 65536 → off ≤ len w + len lit → 4 ≤ mlen →
      Seqs (b ++ seq_code lit off mlen) (extend (w ++ lit) (Z.to_nat off) (Z.to_nat mlen)).

Lemma Seqs_Block b w rest v : Seqs b w → Block w rest v → Block [] (b ++ rest) v.
Proof.
  intros Hs. revert rest v. induction Hs as [|b w lit off mlen Hs IH Hlit Ho Ho' Hm]; intros rest v Hv; [done|].
  rewrite <- app_assoc. apply IH. by apply blk_seq.
Qed.

Lemma run_code_size v : 0 ≤ v → len (run_code v) = if v <? 15 then 0 else (v - 15) / 255 + 1.
Proof.
  intros Hv. unfold run_code. destruct (Z.ltb_spec v 15); [done|]. rewrite length_app, length_replicate. cbn [length]. lia.
Qed.
Lemma Seqs_size b w : Seqs b w → 255 * len b ≤ 256 * len w.
Proof.
  induction 1 as [|b w lit off mlen Hs IH Hlit Ho Ho' Hm]; [done|]. unfold seq_code, lits_code. cbn [app].
  rewrite !length_app, !extend_length, !length_app. cbn [length]. rewrite !length_app. cbn [length].
  pose proof (run_code_size (len lit) ltac:(lia)) as H1. pose proof (run_code_size (mlen - 4) ltac:(lia)) as H2.
  destruct (Z.ltb_spec (len lit) 15), (Z.ltb_spec (mlen - 4) 15); lia.
Qed.

Lemma match_back_spec fuel inp anchor ip ref back k : 0 ≤ anchor ≤ ip → 0 ≤ ref < ip → ip ≤ len inp → 0 ≤ back → back ≤ ip - anchor → back ≤ ref →
  (Z.to_nat (ref - back) < fuel)%nat → same_run inp (ref - back) (ip - back) (k + back) →
  ∃ back', match_back fuel inp anchor ip ref back = Some back' ∧ 0 ≤ back' ≤ ip - anchor ∧ back' ≤ ref ∧
    same_run inp (ref - back') (ip - back') (k + back').
Proof.
  revert back. induction fuel as [|fuel IH]; intros back Ha Hr Hn Hb Hb1 Hb2 Hf Hs; [lia|]. cbn [match_back].
  destruct ((anchor <? ip - back) && (back <? ref)) eqn:E; [|exists back; split_and!; try done; lia].
  apply andb_true_iff in E as [E1%Z.ltb_lt E2%Z.ltb_lt].
  destruct (rd_some inp (ip - back - 1)) as (a & Ea & _); [lia|]. destruct (rd_some inp (ref - back - 1)) as (b & Eb & _); [lia|].
  rewrite Ea, Eb. cbn [mbind option_bind]. destruct (Z.eqb_spec a b) as [->|]; [|exists back; split_and!; try done; lia].
  apply IH; try lia. intros j Hj. destruct (decide (j = 0)) as [->|].
  - rewrite !Z.add_0_r. replace (ref - (back + 1)) with (ref - back - 1) by lia. replace (ip - (back + 1)) with (ip - back - 1) by lia. congruence.
  - specialize (Hs (j - 1)). replace (ref - back + (j - 1)) with (ref - (back + 1) + j) in Hs by lia.
    replace (ip - back + (j - 1)) with (ip - (back + 1) + j) in Hs by lia. apply Hs. lia.
Qed.

(** The loop's invariant: what is written decodes to the input up to the anchor. *)
Record CInv (inp : list Z) (c : Comp) : Prop := mkCInv {
  ci_anchor : 0 ≤ c_anchor c ≤ c_ip c;
  ci_ip : c_ip c ≤ len inp;
  ci_last : c_anchor c + kLastLiterals ≤ len inp;
  ci_table : table_ok (c_ht c) (c_ip c);
  ci_seqs : Seqs (c_o c) (take (Z.to_nat (c_anchor c)) inp);
}.

(** A sequence the compressor writes, from the anchor to the end of the match. *)
Lemma Seqs_match inp b anchor ip ref back k : bytes inp → Seqs b (take (Z.to_nat anchor) inp) → 0 ≤ anchor ≤ ip → ip + k ≤ len inp →
  0 ≤ ref < ip → ip - ref ≤ kMaxOffset → 4 ≤ k → 0 ≤ back ≤ ip - anchor → back ≤ ref →
  same_run inp (ref - back) (ip - back) (k + back) →
  Seqs (b ++ lz4_sequence (take (Z.to_nat (ip - back - anchor)) (drop (Z.to_nat anchor) inp)) (ip - ref) (k + back)) (take (Z.to_nat (ip + k)) inp).
Proof.
  unfold kMaxOffset. intros Hb Hs Ha Hk Hr Ho H4 Hback Hback' Hrun. rewrite lz4_sequence_match by lia.
  set (lit := take (Z.to_nat (ip - back - anchor)) (drop (Z.to_nat anchor) inp)).
  assert (Hw : take (Z.to_nat anchor) inp ++ lit = take (Z.to_nat (ip - back)) inp).
  { unfold lit. rewrite take_take_drop. f_equal. lia. }
  assert (Hl : len (take (Z.to_nat anchor) inp) + len lit = ip - back).
  { rewrite <- Nat2Z.inj_add, <- length_app, Hw, length_take. lia. }
  replace (take (Z.to_nat (ip + k)) inp) with (extend (take (Z.to_nat anchor) inp ++ lit) (Z.to_nat (ip - ref)) (Z.to_nat (k + back))).
  - apply seqs_snoc; try done; try lia. by apply Forall_take, Forall_drop.
  - rewrite Hw. replace (ip - ref) with (ip - back - (ref - back)) by lia. rewrite extend_run by (done || lia). f_equal. lia.
Qed.

Lemma lz4_step_spec inp c : bytes inp → CInv inp c → c_ip c + kMfLimit < len inp →
  ∃ c', lz4_step inp c = Some c' ∧ CInv inp c' ∧ c_ip c < c_ip c'.
Proof.
  destruct c as [o ht anchor ip]. intros Hb [Ha Hip Hlast Ht Hs] Hn. unfold lz4_step, kMfLimit, kLastLiterals in *. cbn [c_o c_ht c_anchor c_ip] in *.
  destruct (rd32_bytes inp ip Hb) as (seq & Eseq & _ & _); [lia|lia|]. rewrite Eseq. cbn [mbind option_bind].
  pose proof (table_slot ht ip (index 16 seq) Ht) as Hslot. set (ref := slot ht (index 16 seq)) in *.
  assert (Ht' : table_ok (<[index 16 seq:=ip]> ht) (ip + 1)) by (apply (table_put ht ip); [done|lia|lia]).
  assert (Hskip : CInv inp (mkComp o (<[index 16 seq:=ip]> ht) anchor (ip + 1))) by (split; cbn; try done; unfold kLastLiterals; lia).
  destruct ((ref <? 0) || (kMaxOffset <? ip - ref)) eqn:Eo; cbn [mbind option_bind].
  { eexists. split; [done|]. split; [done|]. cbn. lia. }
  apply orb_false_iff in Eo as [Er%Z.ltb_ge Eo%Z.ltb_ge].
  destruct (rd32_bytes inp ref Hb) as (seq' & Eseq' & _ & _); [lia|lia|]. rewrite Eseq'. cbn [mbind option_bind].
  destruct (Z.eqb_spec seq' seq) as [->|]; cbn [negb]; [|eexists; split; [done|]; split; [done|]; cbn; lia].
  destruct (match_len_spec (S (length inp)) inp ref ip 4 (len inp - 5)) as (k & -> & Hk4 & Hk & Hrun); [lia|lia|lia|lia| |].
  { intros j Hj. apply (rd32_same inp ref ip seq); (done || lia). }
  cbn [mbind option_bind]. destruct (match_back_spec (S (length inp)) inp anchor ip ref 0 k) as (back & -> & Hback & Hback' & Hrun'); try lia.
  { by rewrite !Z.sub_0_r, Z.add_0_r. }
  cbn [mbind option_bind]. rewrite slice_some by lia. cbn [mbind option_bind].
  assert (Hnext : ∀ ht', table_ok ht' (ip + k) → CInv inp (mkComp (o ++ lz4_sequence (take (Z.to_nat (ip - back - anchor))
      (drop (Z.to_nat anchor) inp)) (ip - ref) (k + back)) ht' (ip + k) (ip + k))).
  { intros ht' H. split; cbn; unfold kLastLiterals; try done; try lia. apply Seqs_match; (done || lia). }
  assert (Ht2 : table_ok (<[index 16 seq:=ip]> ht) (ip + k)) by (intros i v Hv; specialize (Ht' i v Hv); lia).
  destruct ((2 <=? ip + k) && (ip + k + 4 <=? len inp)) eqn:Eb; cbn [mbind option_bind].
  - apply andb_true_iff in Eb as [E2%Z.leb_le E4%Z.leb_le]. destruct (rd32_bytes inp (ip + k - 2) Hb) as (v & -> & _ & _); [lia|lia|].
    cbn [mbind option_bind]. eexists. split; [done|]. split; [apply Hnext; apply (table_put _ (ip + k)); [done|lia|lia]|]. cbn. lia.
  - eexists. split; [done|]. split; [by apply Hnext|]. cbn. lia.
Qed.

Lemma lz4_loop_spec inp fuel c : bytes inp → CInv inp c → (Z.to_nat (len inp - c_ip c) < fuel)%nat →
  ∃ c', lz4_loop fuel inp c = Some c' ∧ CInv inp c'.
Proof.
  intros Hb. revert c. induction fuel as [|fuel IH]; intros c Hc Hf; [lia|]. cbn [lz4_loop].
  destruct (Z.ltb_spec (c_ip c + kMfLimit) (len inp)) as [Hn|]; [|by eauto].
  destruct (lz4_step_spec inp c Hb Hc Hn) as (c' & -> & Hc' & Hlt). cbn [mbind option_bind]. apply IH; [done|]. pose proof (ci_ip _ _ Hc'). lia.
Qed.

(** What lz4_compress gives: sequences and the last literals. *)
Lemma lz4_compress_blocks inp : bytes inp → ∃ b w lit, lz4_compress inp = Some (b ++ lits_code lit 0) ∧ Seqs b w ∧ w ++ lit = inp ∧ bytes lit ∧
  (b ≠ [] → kLastLiterals ≤ len lit).
Proof.
  intros Hb. unfold lz4_compress.
  assert (Hgo : ∃ c, (if kMfLimit <? len inp then lz4_loop (S (length inp)) inp (mkComp [] ∅ 0 0) else Some (mkComp [] ∅ 0 0)) = Some c ∧
    0 ≤ c_anchor c ≤ len inp ∧ Seqs (c_o c) (take (Z.to_nat (c_anchor c)) inp) ∧ (c_o c ≠ [] → c_anchor c + kLastLiterals ≤ len inp)).
  { unfold kMfLimit. destruct (Z.ltb_spec 12 (len inp)).
    - destruct (lz4_loop_spec inp (S (length inp)) (mkComp [] ∅ 0 0) Hb) as (c & -> & [Ha Hip Hlast _ Hs]).
      + split; cbn; unfold kLastLiterals; try lia; [by intros i v Hv|constructor].
      + cbn. lia.
      + exists c. split_and!; try done; lia.
    - eexists. split; [done|]. cbn. split; [lia|]. split; [constructor|done]. }
  destruct Hgo as (c & -> & Ha & Hs & Hlast). cbn [mbind option_bind]. rewrite slice_some by lia. cbn [mbind option_bind].
  rewrite lz4_sequence_last. eexists _, _, _. split; [done|]. split; [done|]. rewrite take_take_drop. split; [|split].
  - apply take_ge. lia.
  - by apply Forall_take, Forall_drop.
  - intros Ho. rewrite length_take, length_drop. specialize (Hlast Ho). lia.
Qed.

(** ** The codec *)

Lemma ext_shorter rest v x rest' : ext rest v = Some (x, rest') → (length rest' ≤ length rest)%nat.
Proof. revert v. induction rest as [|b rest IH]; intros v; [done|]. cbn [ext length]. destruct (b =? 255); [intros H%IH; lia|intros [= _ <-]; lia]. Qed.
Lemma nibble_shorter n rest v rest' : nibble n rest = Some (v, rest') → (length rest' ≤ length rest)%nat.
Proof. unfold nibble. destruct (n =? 15); [apply ext_shorter|by intros [= _ <-]]. Qed.

(** A block decodes to one text. *)
Lemma Block_fun w b v v' : Block w b v → Block w b v' → 20 + 255 * len b < 18446744073709551616 → v = v'.
Proof.
  remember (length b) as n eqn:En. revert w b v v' En. induction (lt_wf n) as [n _ IH]. intros w b v v' -> Hv Hv' Hl.
  destruct (Block_inv _ _ _ Hv Hl) as (token & b1 & lit & b2 & -> & E & H).
  pose proof (Block_tail token b1 lit b2 w v' Hv' Hl E) as H'. cbn [length] in *.
  destruct H as [[-> ->]|(off & b3 & mlen & b4 & -> & Ho & _ & Hm & En & Hn)].
  - by destruct H' as [[_ ->]|(? & ? & ? & ? & ? & _)].
  - destruct H' as [[? _]|(off' & b3' & mlen' & b4' & [= E0 E1 <-] & Ho' & _ & Hm' & En' & Hn')]; [done|].
    assert (off' = off) as -> by lia. rewrite En in En'. injection En' as Em <-. assert (mlen' = mlen) as -> by lia.
    assert (Hshort : (length b4 < S (length b1))%nat).
    { apply nibble_shorter in E, En. rewrite length_app in E. cbn [length] in E. lia. }
    eapply (IH (length b4)); [lia|done|done|done|lia].
Qed.

Lemma run_code_bytes v : 0 ≤ v → bytes (run_code v).
Proof.
  intros Hv. unfold run_code, bytes, is_byte. destruct (Z.ltb_spec v 15); [done|]. apply Forall_app. split; [apply Forall_replicate; lia|].
  repeat constructor; lia.
Qed.
Lemma lits_code_bytes lit low : bytes lit → 0 ≤ low < 16 → bytes (lits_code lit low).
Proof. intros Hb Hl. constructor; [unfold is_byte; lia|]. apply Forall_app. split; [apply run_code_bytes; lia|done]. Qed.
Lemma Seqs_bytes b w : Seqs b w → bytes b.
Proof.
  induction 1 as [|b w lit off mlen Hs IH Hlit Ho Ho' Hm]; [constructor|]. apply Forall_app. split; [done|].
  apply Forall_app. split; [apply lits_code_bytes; [done|lia]|]. constructor; [unfold is_byte; lia|]. constructor; [unfold is_byte; lia|].
  apply run_code_bytes. lia.
Qed.

Lemma lz4_decompress_spec inp o c : bytes inp → 20 + 255 * len inp < 18446744073709551616 → buffer_ok o c → ∃ r w,
  lz4_decompress inp o c = Some (r, if bool_decide (r = Ok) then len w else 0, (λ b, w ++ drop (length w) b) <$> o) ∧
  decoded o c (Block [] inp) r w.
Proof.
  intros Hb Hl Hbuf. assert (Hs : mkSink o c 0 = sink_at o c []) by (unfold sink_at; by destruct o).
  destruct (decode_loop_spec o c (S (length inp)) inp [] Hbuf Hb) as (r & w & E & H); [cbn [length]; lia|right; apply Hbuf|lia|].
  exists r, w. split; [|done]. unfold lz4_decompress. rewrite Hs, E. cbn [mbind option_bind]. by destruct (bool_decide (r = Ok)).
Qed.

Lemma lz4_bound_ge n : 0 ≤ n < 1152921504606846976 → n + n / 255 + 2 ≤ lz4_bound n.
Proof.
  intros Hn. unfold lz4_bound. rewrite u64_small by (unfold is_u64; lia). set (x := n + n / 255 + 9).
  replace (Z.land x (Z.lnot 7)) with (x - x mod 8); [unfold x; lia|].
  change 8 with (2 ^ 3). change (Z.lnot 7) with (Z.lnot (Z.ones 3)). rewrite <- Z.ldiff_land, Z.ldiff_ones_r, Z.shiftl_mul_pow2, Z.shiftr_div_pow2 by lia.
  change (2 ^ 3) with 8. lia.
Qed.


(** C30: every input is compressed, to a block of the format that is no longer than
    lz4_bound and whose last five bytes, where it has a match, are literals; and
    lz4_decompress gives the input back, into any buffer with room for it, and
    measures its size with none. *)
Theorem lz4_roundtrip inp : bytes inp → len inp < 36028797018963968 → ∃ b body lit, lz4_compress inp = Some b ∧
  b = body ++ lits_code lit 0 ∧ (body ≠ [] → kLastLiterals ≤ len lit) ∧ Block [] b inp ∧ len b ≤ lz4_bound (len inp) ∧
  (∀ buf c, len inp ≤ c ≤ len buf → lz4_decompress b (Some buf) c = Some (Ok, len inp, Some (inp ++ drop (length inp) buf))) ∧
  (∀ c, 0 ≤ c → lz4_decompress b None c = Some (Ok, len inp, None)).
Proof.
  intros Hb Hl. destruct (lz4_compress_blocks inp Hb) as (body & w & lit & Ec & Hs & Hin & Hlit & Hlast).
  exists (body ++ lits_code lit 0), body, lit. assert (Hblock : Block [] (body ++ lits_code lit 0) inp).
  { eapply Seqs_Block; [done|]. rewrite <- Hin. apply blk_last; [done|lia]. }
  assert (Hn : len inp = len w + len lit) by (rewrite <- Hin, length_app; lia).
  assert (Hsize : len (body ++ lits_code lit 0) ≤ len inp + len inp / 255 + 2).
  { pose proof (Seqs_size _ _ Hs). pose proof (run_code_size (len lit) ltac:(lia)) as H1. rewrite length_app. unfold lits_code. cbn [length].
    rewrite length_app. destruct (Z.ltb_spec (len lit) 15); lia. }
  assert (Hbytes : bytes (body ++ lits_code lit 0)) by (apply Forall_app; split; [by eapply Seqs_bytes|apply lits_code_bytes; [done|lia]]).
  pose proof (lz4_bound_ge (len inp) ltac:(lia)) as Hbound.
  assert (Hdec : ∀ o c, buffer_ok o c → fits o c (len inp) →
    lz4_decompress (body ++ lits_code lit 0) o c = Some (Ok, len inp, (λ b, inp ++ drop (length inp) b) <$> o)).
  { intros o c Hbuf Hfit. destruct (lz4_decompress_spec _ o c Hbytes ltac:(lia) Hbuf) as (r & v & E & Hf & H). rewrite E. destruct r; [| | |done].
    - by rewrite (Block_fun _ _ _ _ Hblock H), bool_decide_true by (done || lia).
    - by destruct (H _ Hblock).
    - by destruct (H _ Hblock). }
  split_and!; [done|done|done|done|lia| |].
  - intros buf c Hc. rewrite Hdec; [done| |right; lia]. split; [lia|]. intros ? [= <-]. lia.
  - intros c Hc. rewrite Hdec; [done| |by left]. by split.
Qed.

Lemma sample_bytes : bytes sample.
Proof. unfold bytes, is_byte. apply (bool_decide_eq_true_1 _). vm_compute. reflexivity. Qed.
Definition sample_block : list Z := Eval vm_compute in default [] (lz4_compress sample).

Lemma lz4_roundtrip_witness : bytes sample ∧ ∃ b, lz4_compress sample = Some b ∧ len b ≤ lz4_bound (len sample).
Proof.
  split; [exact sample_bytes|]. destruct (lz4_roundtrip sample sample_bytes ltac:(reflexivity)) as (b & _ & _ & E & _ & _ & _ & H & _). exists b. exact (conj E H).
Defined.

