(* ===== verification/Snappy.v ===== *)
(** * Raw Snappy (nvidia/src/nvcomp_codecs.cpp: snappy_compress, snappy_length, snappy_decompress)

    The compressor, the decoder with its sink, and the format as a relation. Shown:
    the decoder accepts exactly the streams of the format and gives what they stand
    for, inside its input and the caller's room; every input of less than 4 GiB is
    compressed to a stream that fits snappy_bound and decodes to it. *)

From S2P Require Import Prelude Codec.

#[local] Open Scope Z_scope.

Definition snappy_bound (n : Z) : Z := u64 (32 + n + n / 6).

(** ** snappy_compress *)

(** snappy_literal, the bytes it appends *)
Fixpoint snappy_literal_loop (fuel : nat) (p : list Z) : list Z :=
  match fuel with
  | O => []
  | S fuel' =>
      if len p =? 0 then [] else
      let k := Z.min (len p) 65536 in
      let m := k - 1 in
      (if m <? 60 then [u8 (Z.shiftl m 2)]
       else if m <? 256 then [Z.shiftl 60 2; u8 m]
       else [Z.shiftl 61 2; u8 m; u8 (Z.shiftr m 8)]) ++
      take (Z.to_nat k) p ++ snappy_literal_loop fuel' (drop (Z.to_nat k) p)
  end.
Definition snappy_literal (p : list Z) : list Z := snappy_literal_loop (S (length p)) p.

(** snappy_copy, the bytes it appends *)
Fixpoint snappy_copy_loop (fuel : nat) (offset n : Z) : list Z :=
  match fuel with
  | O => []
  | S fuel' =>
      if n =? 0 then [] else
      let k := if (64 <? n) && (n - 64 <? 4) then 60 else Z.min n 64 in
      (if (4 <=? k) && (k <=? 11) && (offset <? 2048)
       then [u8 (Z.lor (Z.lor 1 (Z.shiftl (k - 4) 2)) (Z.shiftl (Z.shiftr offset 8) 5)); u8 offset]
       else [u8 (Z.lor 2 (Z.shiftl (k - 1) 2)); u8 offset; u8 (Z.shiftr offset 8)]) ++
      snappy_copy_loop fuel' offset (n - k)
  end.
Definition snappy_copy (offset n : Z) : list Z := snappy_copy_loop (S (Z.to_nat n)) offset n.

(** The preamble: a length as a varint. *)
Fixpoint preamble_loop (fuel : nat) (v : Z) : list Z :=
  match fuel with
  | O => []
  | S fuel' => if v <? 128 then [u8 v] else u8 (Z.lor v 128) :: preamble_loop fuel' (Z.shiftr v 7)
  end.
Definition preamble (n : Z) : list Z := preamble_loop 10 n.

Definition kMaxOffset : Z := 65535.
Record Comp := mkComp { c_o : list Z; c_ht : gmap Z Z; c_anchor : Z; c_ip : Z }.

(** The body of the loop. *)
Definition snappy_step (inp : list Z) (c : Comp) : option Comp :=
  let '(mkComp o ht anchor ip) := c in
  let n := len inp in
  seq ← rd32 inp ip;
  let ref := slot ht (index 15 seq) in
  let ht := <[index 15 seq := ip]> ht in
  miss ← (if (ref <? 0) || (kMaxOffset <? ip - ref) then Some true else r ← rd32 inp ref; Some (negb (r =? seq)));
  if miss : bool then Some (mkComp o ht anchor (ip + 1)) else
  k ← match_len (S (length inp)) inp ref ip 4 n;
  o ← (if anchor <? ip then lit ← slice inp anchor (ip - anchor); Some (o ++ snappy_literal lit) else Some o);
  let o := o ++ snappy_copy (ip - ref) k in
  Some (mkComp o ht (ip + k) (ip + k)).

Fixpoint snappy_loop (fuel : nat) (inp : list Z) (c : Comp) : option Comp :=
  match fuel with
  | O => None
  | S fuel' => if c_ip c + 4 <=? len inp then c' ← snappy_step inp c; snappy_loop fuel' inp c' else Some c
  end.

Definition snappy_compress (inp : list Z) : option (list Z) :=
  let n := len inp in
  let start := mkComp (preamble n) ∅ 0 0 in
  c ← (if 8 <=? n then snappy_loop (S (length inp)) inp start else Some start);
  if c_anchor c <? n then lit ← slice inp (c_anchor c) (n - c_anchor c); Some (c_o c ++ snappy_literal lit) else Some (c_o c).

(** ** snappy_decompress *)

(** snappy_length from byte [i] on; [None] is Corrupt *)
Fixpoint length_loop (fuel : nat) (inp : list Z) (i v : Z) : option Z :=
  match fuel with
  | O => None
  | S fuel' =>
      match inp with
      | [] => None
      | b :: inp' =>
          let v := Z.lor v (Z.shiftl (Z.land b 127) (7 * i)) in
          if Z.land b 128 =? 0 then (if 4294967295 <? v then None else Some v) else length_loop fuel' inp' (i + 1) v
      end
  end.
Definition snappy_length (inp : list Z) : option Z := length_loop 5 inp 0 0.

(** [while (in[ip] & 128) ++ip; ++ip]; [None] reads past the input *)
Fixpoint skip_preamble (inp : list Z) : option (list Z) :=
  match inp with
  | [] => None
  | b :: inp' => if Z.land b 128 =? 0 then Some inp' else skip_preamble inp'
  end.

(** [len |= in[ip + i] << (8 * i)] *)
Fixpoint gather (l : list Z) (i v : Z) : Z :=
  match l with
  | [] => v
  | b :: l' => gather l' (i + 1) (Z.lor v (Z.shiftl b (8 * i)))
  end.

(** The length of a literal and the input after it; [None] is Corrupt. *)
Definition literal_length (tag : Z) (rest : list Z) : option (Z * list Z) :=
  let n := Z.shiftr tag 2 in
  if 60 <=? n then
    let k := n - 59 in
    if len rest <? k then None else
    Some (gather (take (Z.to_nat k) rest) 0 0 + 1, drop (Z.to_nat k) rest)
  else Some (n + 1, rest).

(** The offset and the length of a copy, and the input after it. *)
Definition copy_parts (tag : Z) (rest : list Z) : option (Z * Z * list Z) :=
  if Z.land tag 3 =? 1 then
    match rest with
    | b :: rest => Some (Z.lor (Z.shiftl (Z.shiftr tag 5) 8) b, 4 + Z.land (Z.shiftr tag 2) 7, rest)
    | _ => None
    end
  else if Z.land tag 3 =? 2 then
    match rest with
    | b0 :: b1 :: rest => Some (Z.lor b0 (Z.shiftl b1 8), 1 + Z.shiftr tag 2, rest)
    | _ => None
    end
  else
    match rest with
    | b0 :: b1 :: b2 :: b3 :: rest =>
        Some (Z.lor (Z.lor b0 (Z.shiftl b1 8)) (Z.shiftl (Z.lor b2 (Z.shiftl b3 8)) 16), 1 + Z.shiftr tag 2, rest)
    | _ => None
    end.

Fixpoint decode_loop (fuel : nat) (want : Z) (rest : list Z) (s : Sink) : option (Result * Sink) :=
  match fuel with
  | O => None
  | S fuel' =>
      match rest with
      | [] => Some (if filled s =? want then Ok else Corrupt, s)
      | tag :: rest =>
          if Z.land tag 3 =? 0 then
            match literal_length tag rest with
            | None => Some (Corrupt, s)
            | Some (n, rest) =>
                if (len rest <? n) || (want - filled s <? n) then Some (Corrupt, s) else
                s ← put s (take (Z.to_nat n) rest);
                decode_loop fuel' want (drop (Z.to_nat n) rest) s
            end
          else
            match copy_parts tag rest with
            | None => Some (Corrupt, s)
            | Some (off, n, rest) =>
                if (off =? 0) || (filled s <? off) || (want - filled s <? n) then Some (Corrupt, s) else
                s ← copy s off n;
                decode_loop fuel' want rest s
            end
      end
  end.

(** The result, [*produced] and the caller's buffer. *)
Definition snappy_decompress (inp : list Z) (o : option (list Z)) (c : Z) : option (Result * Z * option (list Z)) :=
  match snappy_length inp with
  | None => Some (Corrupt, 0, o)
  | Some want =>
      rest ← skip_preamble inp;
      if bool_decide (is_Some o) && (c <? want) then Some (NoRoom, 0, o) else
      r ← decode_loop (S (length rest)) want rest (mkSink o c 0);
      let '(r, s) := r in
      Some (r, if bool_decide (r = Ok) then filled s else 0, out s)
  end.

Definition sample : list Z := [1;2;3;4;5;6;7;8;1;2;3;4;5;6;7;8;1;2;3;4;5;6;7;8;9;9;9;9;9;9;9;9;9;9;9;9;9;9;9;9;9;9;1;2;3].
Example snappy_sample : (o ← snappy_compress sample; snappy_decompress o (Some (replicate 50 0)) 48) = Some (Ok, 45, Some (sample ++ replicate 5 0)).
Proof. vm_compute. reflexivity. Qed.

(** ** The format *)

Fixpoint le_value (l : list Z) : Z := match l with [] => 0 | b :: l' => b + 256 * le_value l' end.

(** The header of a literal of [n] bytes. *)
Inductive LitHead (n : Z) : list Z → Prop :=
  | head_short : 1 ≤ n ≤ 60 → LitHead n [4 * (n - 1)]
  | head_long l : 1 ≤ len l ≤ 4 → bytes l → le_value l = n - 1 → LitHead n (4 * (59 + len l) :: l).
(** A copy of [n] bytes from [off] back, with an offset of one, two or four bytes. *)
Inductive CopyCode (off n : Z) : list Z → Prop :=
  | copy_1 : 4 ≤ n ≤ 11 → 0 ≤ off < 2048 → CopyCode off n [1 + 4 * (n - 4) + 32 * (off / 256); off mod 256]
  | copy_2 : 1 ≤ n ≤ 64 → 0 ≤ off < 65536 → CopyCode off n [2 + 4 * (n - 1); off mod 256; off / 256]
  | copy_4 l : 1 ≤ n ≤ 64 → len l = 4 → bytes l → le_value l = off → CopyCode off n (3 + 4 * (n - 1) :: l).

(** [Elems w b v]: after [w], the elements [b] give [v]. *)
Inductive Elems : list Z → list Z → list Z → Prop :=
  | el_nil w : Elems w [] w
  | el_lit w head lit rest v : LitHead (len lit) head → bytes lit → Elems (w ++ lit) rest v → Elems w (head ++ lit ++ rest) v
  | el_copy w code off n rest v : CopyCode off n code → 0 < off ≤ len w → Elems (extend w (Z.to_nat off) (Z.to_nat n)) rest v →
      Elems w (code ++ rest) v.

(** A length of seven bits a byte, the low ones first. *)
Inductive Varint : list Z → Z → Prop :=
  | varint_last b : 0 ≤ b < 128 → Varint [b] b
  | varint_more b l n : 128 ≤ b < 256 → Varint l n → Varint (b :: l) (b - 128 + 128 * n).

(** A stream that stands for [v]. *)
Definition Stream (b v : list Z) : Prop :=
  ∃ pre body, b = pre ++ body ∧ (length pre ≤ 5)%nat ∧ Varint pre (len v) ∧ len v ≤ 4294967295 ∧ Elems [] body v.

(** ** Headers *)

Lemma le_value_range l : bytes l → 0 ≤ le_value l < 256 ^ len l.
Proof.
  induction 1 as [|b l Hb Hl IH]; [done|]. cbn [le_value length]. unfold is_byte in Hb. rewrite Nat2Z.inj_succ, Z.pow_succ_r by lia. lia.
Qed.
Lemma gather_value l i v : bytes l → 0 ≤ i → 0 ≤ v < 256 ^ i → gather l i v = v + 256 ^ i * le_value l.
Proof.
  intros Hb. revert i v. induction Hb as [|b l Hb Hl IH]; intros i v Hi Hv; cbn [gather le_value]; [lia|]. unfold is_byte in Hb.
  assert (E : 256 ^ i = 2 ^ (8 * i)) by (change 256 with (2 ^ 8); by rewrite <- Z.pow_mul_r by lia).
  rewrite lor_shiftl_add by lia. rewrite <- E, IH; rewrite ?Z.pow_add_r by lia; change (256 ^ 1) with 256; nia.
Qed.

Lemma land3 x : Z.land x 3 = x mod 4.
Proof. change 3 with (2 ^ 2 - 1). by rewrite land_pow2_mod by lia. Qed.

Lemma literal_length_iff tag rest n rest' : is_byte tag → bytes rest → tag mod 4 = 0 →
  literal_length tag rest = Some (n, rest') ↔ ∃ l, rest = l ++ rest' ∧ LitHead n (tag :: l).
Proof.
  intros Ht Hb H4. unfold is_byte in Ht. unfold literal_length. rewrite Z.shiftr_div_pow2 by lia. change (2 ^ 2) with 4.
  destruct (Z.leb_spec 60 (tag / 4)) as [H60|H60].
  - destruct (Z.ltb_spec (len rest) (tag / 4 - 59)) as [Hs|Hs].
    { split; [done|]. intros (l & -> & H). rewrite length_app in Hs. inversion H; subst; lia. }
    set (k := Z.to_nat (tag / 4 - 59)) in *. assert (Hk : bytes (take k rest)) by (by apply Forall_take).
    assert (Hlk : len (take k rest) = tag / 4 - 59) by (rewrite length_take; lia).
    rewrite gather_value by (done || (cbn; lia)). change (256 ^ 0) with 1. rewrite Z.mul_1_l. split.
    + intros [= <- <-]. exists (take k rest). split; [by rewrite take_drop|].
      replace tag with (4 * (59 + len (take k rest))) by lia. constructor; [lia|done|lia].
    + intros (l & -> & H). inversion H as [|l' Hl Hbl Hv]; subst; [lia|].
      assert (k = length l) as Ek by lia. rewrite Ek, take_app_length, drop_app_length. do 2 f_equal. lia.
  - split.
    + intros [= <- <-]. exists []. split; [done|]. replace tag with (4 * (tag / 4 + 1 - 1)) at 2 by lia. constructor. lia.
    + intros (l & -> & H). inversion H; subst; [|lia]. cbn [app]. do 2 f_equal. lia.
Qed.

Lemma copy_1_iff tag b (rest : list Z) off n rest' : is_byte tag → is_byte b → tag mod 4 = 1 →
  (Z.lor (Z.shiftl (Z.shiftr tag 5) 8) b, 4 + Z.land (Z.shiftr tag 2) 7, rest) = (off, n, rest') ↔
  rest = rest' ∧ tag = 1 + 4 * (n - 4) + 32 * (off / 256) ∧ b = off mod 256 ∧ 4 ≤ n ≤ 11 ∧ 0 ≤ off < 2048.
Proof.
  unfold is_byte. intros Ht Hb H4. rewrite Z.lor_comm, lor_shiftl_add by (cbn; lia). change 7 with (2 ^ 3 - 1). rewrite land_pow2_mod by lia.
  rewrite !Z.shiftr_div_pow2 by lia. change (2 ^ 8) with 256. change (2 ^ 5) with 32. change (2 ^ 3) with 8. change (2 ^ 2) with 4. split.
  - intros [= <- <- <-]. split; [done|lia].
  - intros (-> & H). f_equal. f_equal; lia.
Qed.
Lemma rd16_bounds b0 b1 : is_byte b0 → is_byte b1 → Z.lor b0 (Z.shiftl b1 8) = b0 + 256 * b1.
Proof. unfold is_byte. intros. rewrite lor_shiftl_add by (cbn; lia). done. Qed.

Lemma copy_parts_iff tag rest off n rest' : is_byte tag → bytes rest → tag mod 4 ≠ 0 →
  copy_parts tag rest = Some (off, n, rest') ↔ ∃ l, rest = l ++ rest' ∧ CopyCode off n (tag :: l).
Proof.
  intros Ht Hb H4. unfold copy_parts. rewrite land3. pose proof Ht as Ht'. unfold is_byte in Ht'.
  destruct (Z.eqb_spec (tag mod 4) 1) as [E1|E1]; [|destruct (Z.eqb_spec (tag mod 4) 2) as [E2|E2]].
  - destruct rest as [|b rest].
    { split; [done|]. intros (l & E & H). inversion H; subst; try lia. done. }
    apply Forall_cons in Hb as [Hb0 Hb]. rewrite (inj_iff Some), copy_1_iff by done. split.
    + intros (-> & -> & -> & Hn & Ho). exists [off mod 256]. split; [done|by constructor].
    + intros (l & E & H). inversion H; subst; try lia. injection E as -> ->. done.
  - destruct rest as [|b0 [|b1 rest]]; try (split; [done|]; intros (l & E & H); inversion H; subst; try lia; done).
    apply Forall_cons in Hb as [Hb0 Hb]. apply Forall_cons in Hb as [Hb1 Hb]. rewrite rd16_bounds by done. unfold is_byte in *.
    rewrite Z.shiftr_div_pow2 by lia. change (2 ^ 2) with 4. split.
    + intros [= <- <- <-]. exists [b0; b1]. split; [done|]. 
      replace [b0; b1] with [(b0 + 256 * b1) mod 256; (b0 + 256 * b1) / 256] by (f_equal; [lia|f_equal; lia]).
      replace tag with (2 + 4 * (1 + tag / 4 - 1)) at 2 by lia. constructor; lia.
    + intros (l & E & H). inversion H; subst; try lia. injection E as -> -> ->. do 3 f_equal; lia.
  - destruct rest as [|b0 [|b1 [|b2 [|b3 rest]]]];
      try (split; [done|]; intros (l & E & H); inversion H as [| |l' ? Hl]; subst; try lia; apply (f_equal length) in E; rewrite length_app in E; cbn [length] in E; lia).
    unfold bytes in Hb. rewrite !Forall_cons in Hb. destruct Hb as (Hb0 & Hb1 & Hb2 & Hb3 & Hb).
    assert (Hval : Z.lor (Z.lor b0 (Z.shiftl b1 8)) (Z.shiftl (Z.lor b2 (Z.shiftl b3 8)) 16) = le_value [b0; b1; b2; b3]).
    { rewrite !rd16_bounds by done. unfold is_byte in *. rewrite lor_shiftl_add by (cbn; lia). change (2 ^ 16) with 65536. cbn [le_value]. lia. }
    rewrite Hval, Z.shiftr_div_pow2 by lia. change (2 ^ 2) with 4. split.
    + intros [= <- <- <-]. exists [b0; b1; b2; b3]. split; [done|]. replace tag with (3 + 4 * (1 + tag / 4 - 1)) at 2 by lia.
      constructor; [lia|done|by repeat (apply Forall_cons; split; [done|])|done].
    + intros (l & E & H). inversion H as [| |l' Hn Hl Hbl Hv]; subst; try lia. destruct l as [|c0 [|c1 [|c2 [|c3 [|]]]]]; try (cbn [length] in Hl; lia).
      injection E as -> -> -> -> ->. do 3 f_equal. lia.
Qed.

Lemma LitHead_tag n head : LitHead n head → ∃ tag l, head = tag :: l ∧ tag mod 4 = 0 ∧ is_byte tag.
Proof. unfold is_byte. destruct 1; do 2 eexists; (split; [done|]); lia. Qed.
Lemma CopyCode_tag off n code : CopyCode off n code → ∃ tag l, code = tag :: l ∧ tag mod 4 ≠ 0 ∧ is_byte tag ∧ 1 ≤ n ≤ 64.
Proof. unfold is_byte. destruct 1; do 2 eexists; (split; [done|]); lia. Qed.
Lemma CopyCode_off off n code : CopyCode off n code → 0 ≤ off.
Proof. destruct 1 as [| |l ? ? Hl <-]; [lia|lia|]. by apply le_value_range. Qed.
Lemma LitHead_pos n head : LitHead n head → 1 ≤ n ≤ 4294967296.
Proof.
  destruct 1 as [|l Hl Hb Hv]; [lia|]. pose proof (le_value_range l Hb). assert (256 ^ len l ≤ 256 ^ 4) by (apply Z.pow_le_mono_r; lia).
  change (256 ^ 4) with 4294967296 in *. lia.
Qed.

(** What the decoder's steps find in the elements. *)
Definition LitStep (w : list Z) (tag : Z) (b v : list Z) : Prop :=
  ∃ n b', literal_length tag b = Some (n, b') ∧ n ≤ len b' ∧ Elems (w ++ take (Z.to_nat n) b') (drop (Z.to_nat n) b') v.
Definition CopyStep (w : list Z) (tag : Z) (b v : list Z) : Prop :=
  ∃ off n b', copy_parts tag b = Some (off, n, b') ∧ 0 < off ≤ len w ∧ Elems (extend w (Z.to_nat off) (Z.to_nat n)) b' v.

Lemma Elems_literal w tag b v : is_byte tag → bytes b → tag mod 4 = 0 → Elems w (tag :: b) v ↔ LitStep w tag b v.
Proof.
  intros Ht Hb H4. split.
  - intros H. remember (tag :: b) as x eqn:E. destruct H as [|w head lit rest v Hh Hl Hr|w code off n rest v Hc Ho Hr]; [done|..].
    + destruct (LitHead_tag _ _ Hh) as (tag' & l & -> & _). injection E as -> <-. exists (len lit), (lit ++ rest).
      rewrite literal_length_iff by done. split; [by exists l|]. rewrite Nat2Z.id, take_app_length, drop_app_length, length_app. split; [lia|done].
    + destruct (CopyCode_tag _ _ _ Hc) as (tag' & l & -> & Hm & _). injection E as -> _. done.
  - intros (n & b' & E & Hn & Hr). apply literal_length_iff in E as (l & -> & Hh); [|done|done|done].
    pose proof (LitHead_pos _ _ Hh). rewrite <- (take_drop (Z.to_nat n) b'). apply Forall_app in Hb as [_ Hb].
    apply (el_lit w (tag :: l)); [|by apply Forall_take|done]. by rewrite length_take, Nat.min_l, Z2Nat.id by lia.
Qed.

Lemma Elems_copy w tag b v : is_byte tag → bytes b → tag mod 4 ≠ 0 → Elems w (tag :: b) v ↔ CopyStep w tag b v.
Proof.
  intros Ht Hb H4. split.
  - intros H. remember (tag :: b) as x eqn:E. destruct H as [|w head lit rest v Hh Hl Hr|w code off n rest v Hc Ho Hr]; [done|..].
    + destruct (LitHead_tag _ _ Hh) as (tag' & l & -> & Hm & _). injection E as -> _. done.
    + destruct (CopyCode_tag _ _ _ Hc) as (tag' & l & -> & _). injection E as -> <-. exists off, n, rest.
      rewrite copy_parts_iff by done. split; [by exists l|done].
  - intros (off & n & b' & E & Ho & Hr). apply copy_parts_iff in E as (l & -> & Hc); [|done|done|done]. by apply (el_copy w (tag :: l) off n).
Qed.

Lemma Elems_grows w b v : Elems w b v → (length w ≤ length v)%nat.
Proof. induction 1; rewrite ?extend_length, ?length_app in *; lia. Qed.

Lemma Elems_nil w v : Elems w [] v → v = w.
Proof.
  intros H. remember [] as x eqn:E. destruct H as [|w head lit rest v Hh|w code off n rest v Hc]; [done|..].
  - by destruct (LitHead_tag _ _ Hh) as (? & ? & -> & _).
  - by destruct (CopyCode_tag _ _ _ Hc) as (? & ? & -> & _).
Qed.

(** ** The decoder and the format *)

Lemma elems_loop_spec o c want fuel b w : buffer_ok o c → fits o c want → want ≤ 4294967295 → bytes b → len w ≤ want → (length b < fuel)%nat →
  runs o c (λ v, Elems w b v ∧ len v = want) (decode_loop fuel want b (sink_at o c w)).
Proof.
  intros Hbuf Hfit Hwant. revert b w. induction fuel as [|fuel IH]; intros b w Hb Hw Hf; [lia|]. cbn [decode_loop filled sink_at].
  assert (Hfw : ∀ k, k ≤ want → fits o c k) by (intros; by eapply fits_le).
  destruct b as [|tag b].
  { destruct (Z.eqb_spec (len w) want) as [E|E].
    - exists Ok, w. split; [done|]. split; [by apply Hfw|]. split; [constructor|done].
    - apply runs_corrupt; [by apply Hfw|]. intros v [->%Elems_nil Hv]. done. }
  apply Forall_cons in Hb as [Ht Hb]. cbn [length] in Hf. rewrite land3. destruct (Z.eqb_spec (tag mod 4) 0) as [E0|E0].
  - apply (runs_iff o c (λ v, LitStep w tag b v ∧ len v = want)); [intros v; by rewrite Elems_literal|].
    unfold LitStep. destruct (literal_length tag b) as [[n b']|] eqn:E; [|apply runs_corrupt; [by apply Hfw|]; by intros v [(? & ? & ? & _) _]].
    pose proof E as (l & El & Hh)%literal_length_iff; [|done|done|done]. pose proof (LitHead_pos _ _ Hh) as Hn.
    destruct ((len b' <? n) || (want - len w <? n)) eqn:Eo.
    { apply runs_corrupt; [by apply Hfw|]. intros v [(n' & b2 & [= <- <-] & Hn' & Hv) Hlv]. apply Elems_grows in Hv.
      rewrite length_app, length_take in Hv. apply orb_true_iff in Eo as [Eo|Eo]; lia. }
    apply orb_false_iff in Eo as [Eo1 Eo2]. assert (Hl : len (take (Z.to_nat n) b') = n) by (rewrite length_take; lia).
    rewrite put_at by (done || (rewrite Hl; (apply Hfw; lia) || lia)). cbn [mbind option_bind]. eapply runs_iff; [|apply IH].
    + intros v. split; [intros [? ?]; split; [|done]; exists n, b'; split_and!; (done || lia)|intros [(n' & b2 & [= <- <-] & _ & ?) ?]; done].
    + rewrite El in Hb. apply Forall_app in Hb as [_ Hb]. by apply Forall_drop.
    + rewrite length_app. lia.
    + rewrite length_drop. rewrite El, length_app in Hf. lia.
  - apply (runs_iff o c (λ v, CopyStep w tag b v ∧ len v = want)); [intros v; by rewrite Elems_copy|].
    unfold CopyStep. destruct (copy_parts tag b) as [[[off n] b']|] eqn:E; [|apply runs_corrupt; [by apply Hfw|]; by intros v [(? & ? & ? & ? & _) _]].
    pose proof E as (l & El & Hc)%copy_parts_iff; [|done|done|done]. destruct (CopyCode_tag _ _ _ Hc) as (_ & _ & _ & _ & _ & Hn).
    destruct ((off =? 0) || (len w <? off) || (want - len w <? n)) eqn:Eo.
    { apply runs_corrupt; [by apply Hfw|]. intros v [(off' & n' & b2 & [= <- <- <-] & Ho & Hv) Hlv]. apply Elems_grows in Hv.
      rewrite extend_length in Hv. apply orb_true_iff in Eo as [[Eo|Eo]%orb_true_iff|Eo]; lia. }
    apply orb_false_iff in Eo as [[Eo1 Eo2]%orb_false_iff Eo3]. assert (Hoff : 0 ≤ off) by (by eapply CopyCode_off).
    rewrite (copy_at o c w off n) by (done || (apply Hfw; lia) || lia). cbn [mbind option_bind]. eapply runs_iff; [|apply IH].
    + intros v. split; [intros [? ?]; split; [|done]; exists off, n, b'; split_and!; (done || lia)|intros [(? & ? & b2 & [= <- <- <-] & _ & ?) ?]; done].
    + rewrite El in Hb. by apply Forall_app in Hb as [_ Hb].
    + rewrite extend_length. lia.
    + rewrite El, length_app in Hf. lia.
Qed.

(** ** The preamble *)

Lemma byte_parts b : is_byte b → (Z.land b 128 =? 0) = (b <? 128) ∧ Z.land b 127 = b mod 128 ∧ u8 (Z.lor b 128) = b mod 128 + 128.
Proof.
  intros Hb. assert (H : Forall (λ b, (Z.land b 128 =? 0) = (b <? 128) ∧ Z.land b 127 = b mod 128 ∧ u8 (Z.lor b 128) = b mod 128 + 128) (seqZ 0 256))
    by (apply (bool_decide_eq_true_1 _); vm_compute; reflexivity).
  rewrite Forall_forall in H. apply H. apply elem_of_seqZ. unfold is_byte in Hb. lia.
Qed.

Lemma Varint_nonneg pre m : Varint pre m → 0 ≤ m.
Proof. induction 1; lia. Qed.
Lemma Varint_bytes pre m : Varint pre m → bytes pre.
Proof. induction 1; constructor; unfold is_byte; try lia; try constructor; done. Qed.

Lemma length_loop_iff fuel inp i v n : bytes inp → 0 ≤ i → 0 ≤ v < 2 ^ (7 * i) →
  length_loop fuel inp i v = Some n ↔
  ∃ pre body m, inp = pre ++ body ∧ (length pre ≤ fuel)%nat ∧ Varint pre m ∧ n = v + 2 ^ (7 * i) * m ∧ n ≤ 4294967295.
Proof.
  revert inp i v. induction fuel as [|fuel IH]; intros inp i v Hb Hi Hv; cbn [length_loop].
  { split; [done|]. intros (pre & body & m & -> & Hl & Hp & _). destruct Hp; cbn in Hl; lia. }
  destruct inp as [|b inp]; [split; [done|]; intros (pre & body & m & E & _ & Hp & _); by destruct Hp|].
  apply Forall_cons in Hb as [Hb Hinp]. destruct (byte_parts b Hb) as (-> & -> & _). unfold is_byte in Hb.
  assert (Hpow : 0 < 2 ^ (7 * i)) by (apply Z.pow_pos_nonneg; lia).
  assert (Hpow' : 2 ^ (7 * (i + 1)) = 128 * 2 ^ (7 * i)) by (rewrite Z.mul_add_distr_l, Z.pow_add_r by lia; change (2 ^ (7 * 1)) with 128; lia).
  rewrite lor_shiftl_add by lia. destruct (Z.ltb_spec b 128) as [H|H].
  - rewrite Z.mod_small by lia. transitivity (n = v + 2 ^ (7 * i) * b ∧ n ≤ 4294967295).
    { destruct (Z.ltb_spec 4294967295 (v + 2 ^ (7 * i) * b)); split; [done|lia|intros [= <-]; lia|by intros [-> _]]. }
    split; [intros [? ?]; exists [b], inp, b; split_and!; [done|cbn; lia|apply varint_last; lia|done|done]|].
    intros (pre & body & m & E & _ & Hp & Hn & ?). destruct Hp; injection E as -> _; [done|lia].
  - replace (b mod 128) with (b - 128) by lia. rewrite IH by (done || lia || nia). rewrite Hpow'. split.
    + intros (pre & body & m & -> & Hl & Hp & -> & Hn). exists (b :: pre), body, (b - 128 + 128 * m).
      split_and!; [done|cbn; lia|apply varint_more; [lia|done]|lia|lia].
    + intros (pre & body & m & E & Hl & Hp & -> & Hn). destruct Hp as [b' ?|b' pre m ? Hp]; injection E as -> ->; [lia|].
      exists pre, body, m. cbn in Hl. split_and!; [done|lia|done|lia|lia].
Qed.

Lemma skip_varint pre m body : Varint pre m → skip_preamble (pre ++ body) = Some body.
Proof.
  induction 1 as [b Hb|b pre m Hb Hp IH]; cbn [app skip_preamble].
  - destruct (byte_parts b) as (-> & _); [unfold is_byte; lia|]. by destruct (Z.ltb_spec b 128); [|lia].
  - destruct (byte_parts b) as (-> & _); [unfold is_byte; lia|]. by destruct (Z.ltb_spec b 128); [lia|].
Qed.

(** The preamble of a stream is found as it is. *)
Lemma snappy_length_iff inp n : bytes inp →
  snappy_length inp = Some n ↔ ∃ pre body, inp = pre ++ body ∧ (length pre ≤ 5)%nat ∧ Varint pre n ∧ n ≤ 4294967295.
Proof.
  intros Hb. unfold snappy_length. rewrite length_loop_iff by (done || (cbn; lia)). change (2 ^ (7 * 0)) with 1. split.
  - intros (pre & body & m & -> & Hl & Hp & -> & Hn). exists pre, body. rewrite Z.mul_1_l in *. by split_and!.
  - intros (pre & body & -> & Hl & Hp & Hn). exists pre, body, n. split_and!; (done || lia).
Qed.

(** ** What the decoder gives *)

Lemma snappy_decompress_spec inp o c : bytes inp → buffer_ok o c → ∃ r w,
  snappy_decompress inp o c = Some (r, if bool_decide (r = Ok) then len w else 0, (λ b, w ++ drop (length w) b) <$> o) ∧
  decoded o c (Stream inp) r w.
Proof.
  intros Hb Hbuf. unfold snappy_decompress. assert (Ho : (λ b, [] ++ drop (length (@nil Z)) b) <$> o = o) by (by destruct o).
  assert (H0 : fits o c (len (@nil Z))) by (right; apply Hbuf).
  destruct (snappy_length inp) as [want|] eqn:E.
  2: { exists Corrupt, []. rewrite Ho. split; [done|]. split; [done|]. intros v (pre & body & -> & Hl & Hp & Hn & _).
    assert (snappy_length (pre ++ body) = Some (len v)) by (rewrite snappy_length_iff by done; by exists pre, body). congruence. }
  pose proof E as (pre & body & -> & Hl & Hp & Hn)%snappy_length_iff; [|done]. rewrite (skip_varint pre want body Hp). cbn [mbind option_bind].
  assert (Hstream : ∀ v, Stream (pre ++ body) v ↔ Elems [] body v ∧ len v = want).
  { intros v. split.
    - intros (pre' & body' & Epb & Hl' & Hp' & Hn' & Hv).
      assert (snappy_length (pre ++ body) = Some (len v)) by (rewrite snappy_length_iff by done; by exists pre', body'). simplify_eq.
      pose proof (skip_varint pre _ body Hp) as H1. rewrite Epb, (skip_varint pre' _ body' Hp') in H1. by simplify_eq.
    - intros [Hv <-]. by exists pre, body. }
  destruct (bool_decide (is_Some o) && (c <? want)) eqn:Er.
  { exists NoRoom, []. rewrite Ho. split; [done|]. split; [done|]. intros v [_ Hv]%Hstream. apply andb_true_iff in Er as [[b ->]%bool_decide_eq_true Er].
    intros [?|?]; [done|lia]. }
  assert (Hfit : fits o c want).
  { apply andb_false_iff in Er as [Er%bool_decide_eq_false|Er]; [left; by destruct o as [b|]; [destruct Er; exists b|]|right; lia]. }
  pose proof (Varint_nonneg _ _ Hp). assert (Hs : mkSink o c 0 = sink_at o c []) by (unfold sink_at; by rewrite Ho).
  apply Forall_app in Hb as [_ Hbody]. destruct (elems_loop_spec o c want (S (length body)) body [] Hbuf Hfit Hn Hbody) as (r & w & Ed & Hd); [done|lia|].
  rewrite Hs, Ed. cbn [mbind option_bind]. exists r, w. split; [by destruct (bool_decide (r = Ok))|].
  destruct Hd as [Hf Hd]. split; [done|]. destruct r; [by apply Hstream| | |done]; intros v Hv%Hstream; by apply (Hd v).
Qed.

(** ** The compressor *)

(** The bytes [b] take the text from [w] to [w'], whatever follows. *)
Definition Grow (b w w' : list Z) : Prop := bytes b ∧ ∀ rest v, Elems w' rest v → Elems w (b ++ rest) v.
Lemma Grow_app b b' w w' w'' : Grow b w w' → Grow b' w' w'' → Grow (b ++ b') w w''.
Proof. intros [H1 H2] [H3 H4]. split; [by apply Forall_app|]. intros rest v H. rewrite <- app_assoc. auto. Qed.
Lemma Grow_nil w : Grow [] w w.
Proof. split; [constructor|done]. Qed.

Lemma bytes_cons b l : is_byte b → bytes l → bytes (b :: l).
Proof. by constructor. Qed.

(** The header snappy_literal writes for [m + 1] bytes. *)
Lemma literal_head m : 0 ≤ m < 65536 →
  let h := if m <? 60 then [u8 (Z.shiftl m 2)] else if m <? 256 then [Z.shiftl 60 2; u8 m] else [Z.shiftl 61 2; u8 m; u8 (Z.shiftr m 8)] in
  LitHead (m + 1) h ∧ bytes h ∧ len h ≤ 3 ∧ 6 * len h ≤ m + 6.
Proof.
  intros Hm. unfold u8. cbv zeta. destruct (Z.ltb_spec m 60); [|destruct (Z.ltb_spec m 256)].
  - rewrite Z.shiftl_mul_pow2 by lia. change (2 ^ 2) with 4. rewrite Z.mod_small by lia. replace (m * 4) with (4 * (m + 1 - 1)) by lia.
    split; [constructor; lia|]. split; [|cbn; lia]. apply bytes_cons; [unfold is_byte; lia|constructor].
  - rewrite Z.mod_small by lia. assert (Hb : bytes [m]) by (apply bytes_cons; [unfold is_byte; lia|constructor]). split; [|split].
    + apply (head_long _ [m]); [cbn; lia|done|cbn; lia].
    + apply bytes_cons; [by split; vm_compute|done].
    + cbn; lia.
  - rewrite Z.shiftr_div_pow2 by lia. change (2 ^ 8) with 256. rewrite (Z.mod_small (m / 256)) by lia.
    assert (Hb : bytes [m mod 256; m / 256]) by (repeat apply bytes_cons; unfold is_byte; try lia; constructor). split; [|split].
    + apply (head_long _ [m mod 256; m / 256]); [cbn; lia|done|cbn [le_value]; lia].
    + apply bytes_cons; [by split; vm_compute|done].
    + cbn; lia.
Qed.

Lemma snappy_literal_grow p w : bytes p → Grow (snappy_literal p) w (w ++ p) ∧ 6 * len (snappy_literal p) ≤ 7 * len p + 5 ∧ (p = [] → snappy_literal p = []).
Proof.
  unfold snappy_literal. generalize (le_n (S (length p))). generalize (S (length p)) at 2 3 4 5 as fuel.
  intros fuel. revert p w. induction fuel as [|fuel IH]; intros p w Hf Hp; [lia|]. cbn [snappy_literal_loop].
  destruct (Z.eqb_spec (len p) 0) as [E|E].
  { destruct p; [|cbn in E; lia]. rewrite app_nil_r. split; [apply Grow_nil|]. cbn. split; [lia|done]. }
  set (k := Z.min (len p) 65536). destruct (literal_head (k - 1)) as (Hh & Hb & Hs3 & Hs); [lia|].
  set (h := if k - 1 <? 60 then _ else _) in *. set (a := take (Z.to_nat k) p). set (b := drop (Z.to_nat k) p).
  assert (Epb : p = a ++ b) by (symmetry; apply take_drop). assert (Hla : len a = k) by (unfold a; rewrite length_take; lia).
  assert (Hlb : len b = len p - k) by (unfold b; rewrite length_drop; lia).
  destruct (IH b (w ++ a)) as (Hg & Hsz & Hnil); [lia|by apply Forall_drop|]. split; [|split; [|by intros ->]].
  - replace (w ++ p) with ((w ++ a) ++ b) by (by rewrite <- app_assoc, <- Epb). rewrite (app_assoc h). eapply Grow_app; [|done]. split; [apply Forall_app; split; [done|by apply Forall_take]|].
    intros rest v Hv. rewrite <- app_assoc. apply el_lit; [|by apply Forall_take|done]. rewrite Hla. by replace k with (k - 1 + 1) by lia.
  - rewrite !length_app. fold a. destruct b eqn:Eb; [rewrite Hnil by done; cbn [length] in *; lia|]. cbn [length] in *. lia.
Qed.

Lemma extend_app w d a b : extend w d (a + b) = extend (extend w d a) d b.
Proof. revert w. induction a as [|a IH]; intros w; [done|]. cbn [Nat.add extend]. apply IH. Qed.

(** One copy element snappy_copy writes. *)
Lemma copy_code off k : 0 < off ≤ 65535 → 4 ≤ k ≤ 64 →
  let h := if (4 <=? k) && (k <=? 11) && (off <? 2048)
           then [u8 (Z.lor (Z.lor 1 (Z.shiftl (k - 4) 2)) (Z.shiftl (Z.shiftr off 8) 5)); u8 off]
           else [u8 (Z.lor 2 (Z.shiftl (k - 1) 2)); u8 off; u8 (Z.shiftr off 8)] in
  CopyCode off k h ∧ bytes h ∧ len h ≤ 3.
Proof.
  intros Ho Hk. unfold u8. cbv zeta. rewrite Z.shiftr_div_pow2 by lia. change (2 ^ 8) with 256.
  destruct ((4 <=? k) && (k <=? 11) && (off <? 2048)) eqn:E.
  - apply andb_true_iff in E as [[E1 E2]%andb_true_iff E3]. rewrite (lor_shiftl_add 1 (k - 4) 2) by (cbn; lia). change (2 ^ 2) with 4.
    rewrite lor_shiftl_add by (cbn; lia). change (2 ^ 5) with 32. rewrite (Z.mod_small (1 + _ + _)) by lia.
    split; [constructor; lia|]. split; [repeat apply bytes_cons; unfold is_byte; try lia; constructor|cbn; lia].
  - rewrite (lor_shiftl_add 2 (k - 1) 2) by (cbn; lia). change (2 ^ 2) with 4. rewrite (Z.mod_small (2 + _)), (Z.mod_small (off / 256)) by lia.
    split; [constructor; lia|]. split; [repeat apply bytes_cons; unfold is_byte; try lia; constructor|cbn; lia].
Qed.

Lemma snappy_copy_grow off n w : 0 < off ≤ 65535 → off ≤ len w → n = 0 ∨ 4 ≤ n →
  Grow (snappy_copy off n) w (extend w (Z.to_nat off) (Z.to_nat n)) ∧ 4 * len (snappy_copy off n) ≤ 3 * n.
Proof.
  unfold snappy_copy. intros Ho. generalize (le_n (S (Z.to_nat n))). generalize (S (Z.to_nat n)) at 2 3 4 as fuel.
  intros fuel. revert n w. induction fuel as [|fuel IH]; intros n w Hf Hw Hn; [lia|]. cbn [snappy_copy_loop].
  destruct (Z.eqb_spec n 0) as [->|E]; [split; [apply Grow_nil|done]|].
  set (k := if (64 <? n) && (n - 64 <? 4) then 60 else Z.min n 64).
  assert (Hk : 4 ≤ k ≤ 64 ∧ (n - k = 0 ∨ 4 ≤ n - k)).
  { unfold k. destruct (Z.ltb_spec 64 n), (Z.ltb_spec (n - 64) 4); cbn [andb]; lia. }
  destruct (copy_code off k Ho) as (Hc & Hb & Hs); [lia|]. set (h := if _ && (off <? 2048) then _ else _) in *.
  destruct (IH (n - k) (extend w (Z.to_nat off) (Z.to_nat k))) as [Hg Hsz]; [lia|rewrite extend_length; lia|lia|]. split.
  - replace (Z.to_nat n) with (Z.to_nat k + Z.to_nat (n - k))%nat by lia. rewrite extend_app. eapply Grow_app; [|done].
    split; [done|]. intros rest v Hv. apply (el_copy w h off k); [done|lia|done].
  - rewrite length_app. lia.
Qed.

(** The loop's invariant: what is written is the preamble and the input up to the
    anchor. *)
Record CInv (inp : list Z) (c : Comp) : Prop := mkCInv {
  ci_anchor : 0 ≤ c_anchor c ≤ c_ip c;
  ci_ip : c_ip c ≤ len inp;
  ci_table : table_ok (c_ht c) (c_ip c);
  ci_body : ∃ body, c_o c = preamble (len inp) ++ body ∧ Grow body [] (take (Z.to_nat (c_anchor c)) inp) ∧ 6 * len body ≤ 7 * c_anchor c;
}.

(** The literals before a match, where there are any. *)
Lemma literals_before inp o body anchor ip : bytes inp → 0 ≤ anchor ≤ ip → ip ≤ len inp → o = preamble (len inp) ++ body →
  Grow body [] (take (Z.to_nat anchor) inp) → 6 * len body ≤ 7 * anchor →
  ∃ body', (if anchor <? ip then lit ← slice inp anchor (ip - anchor); Some (o ++ snappy_literal lit) else Some o) = Some (preamble (len inp) ++ body') ∧
    Grow body' [] (take (Z.to_nat ip) inp) ∧ 6 * len body' ≤ 7 * ip + 5.
Proof.
  intros Hb Ha Hip -> Hg Hs. destruct (Z.ltb_spec anchor ip).
  - rewrite slice_some by lia. cbn [mbind option_bind]. rewrite <- app_assoc. eexists. split; [done|].
    set (lit := take (Z.to_nat (ip - anchor)) (drop (Z.to_nat anchor) inp)). assert (Hlit : bytes lit) by (by apply Forall_take, Forall_drop).
    destruct (snappy_literal_grow lit (take (Z.to_nat anchor) inp) Hlit) as (Hl & Hsz & _).
    assert (Hll : len lit = ip - anchor) by (unfold lit; rewrite length_take, length_drop; lia). split.
    + eapply Grow_app; [done|]. replace (take (Z.to_nat ip) inp) with (take (Z.to_nat anchor) inp ++ lit); [done|].
      unfold lit. rewrite take_take_drop. f_equal. lia.
    + rewrite length_app. lia.
  - replace ip with anchor by lia. exists body. split; [done|]. split; [done|lia].
Qed.

Lemma snappy_step_spec inp c : bytes inp → CInv inp c → c_ip c + 4 ≤ len inp →
  ∃ c', snappy_step inp c = Some c' ∧ CInv inp c' ∧ c_ip c < c_ip c'.
Proof.
  destruct c as [o ht anchor ip]. intros Hb [Ha Hip Ht (body & Eo & Hg & Hs)] Hn. unfold snappy_step. cbn [c_o c_ht c_anchor c_ip] in *.
  destruct (rd32_bytes inp ip Hb) as (seq & Eseq & _ & _); [lia|lia|]. rewrite Eseq. cbn [mbind option_bind].
  pose proof (table_slot ht ip (index 15 seq) Ht) as Hslot. set (ref := slot ht (index 15 seq)) in *.
  assert (Ht' : table_ok (<[index 15 seq:=ip]> ht) (ip + 1)) by (apply (table_put ht ip); [done|lia|lia]).
  assert (Hskip : CInv inp (mkComp o (<[index 15 seq:=ip]> ht) anchor (ip + 1))) by (split; cbn; try done; try lia; by exists body).
  destruct ((ref <? 0) || (kMaxOffset <? ip - ref)) eqn:Er; cbn [mbind option_bind].
  { eexists. split; [done|]. split; [done|]. cbn. lia. }
  apply orb_false_iff in Er as [Er%Z.ltb_ge Eo'%Z.ltb_ge].
  destruct (rd32_bytes inp ref Hb) as (seq' & Eseq' & _ & _); [lia|lia|]. rewrite Eseq'. cbn [mbind option_bind].
  destruct (Z.eqb_spec seq' seq) as [->|]; cbn [negb]; [|eexists; split; [done|]; split; [done|]; cbn; lia].
  destruct (match_len_spec (S (length inp)) inp ref ip 4 (len inp)) as (k & -> & Hk4 & Hk & Hrun); [lia|lia|lia|lia| |].
  { intros j Hj. apply (rd32_same inp ref ip seq); (done || lia). }
  cbn [mbind option_bind]. destruct (literals_before inp o body anchor ip Hb Ha Hip Eo Hg Hs) as (body' & -> & Hg' & Hs'). cbn [mbind option_bind].
  eexists. split; [done|]. cbn [c_ip]. split; [|lia]. unfold kMaxOffset in Eo'.
  destruct (snappy_copy_grow (ip - ref) k (take (Z.to_nat ip) inp)) as [Hc Hcs]; [lia|rewrite length_take; lia|lia|].
  split; cbn [c_o c_ht c_anchor c_ip]; [lia|lia|intros i x Hx; specialize (Ht' i x Hx); lia|].
  exists (body' ++ snappy_copy (ip - ref) k). split; [by rewrite app_assoc|]. split; [|rewrite length_app; lia].
  eapply Grow_app; [done|]. by rewrite <- (extend_run inp ref ip k) by (done || lia).
Qed.

Lemma snappy_loop_spec inp fuel c : bytes inp → CInv inp c → (Z.to_nat (len inp - c_ip c) < fuel)%nat →
  ∃ c', snappy_loop fuel inp c = Some c' ∧ CInv inp c'.
Proof.
  intros Hb. revert c. induction fuel as [|fuel IH]; intros c Hc Hf; [lia|]. cbn [snappy_loop].
  destruct (Z.leb_spec (c_ip c + 4) (len inp)) as [Hn|]; [|by eauto].
  destruct (snappy_step_spec inp c Hb Hc Hn) as (c' & -> & Hc' & Hlt). cbn [mbind option_bind]. apply IH; [done|]. pose proof (ci_ip _ _ Hc'). lia.
Qed.

(** The preamble is a varint, as short as its value allows. *)
Lemma u8_lor v : 0 ≤ v → u8 (Z.lor v 128) = v mod 128 + 128.
Proof.
  intros Hv. assert (E : u8 (Z.lor v 128) = u8 (Z.lor (v mod 256) 128)).
  { unfold u8. change 256 with (2 ^ 8). rewrite <- !Z.land_ones by lia. rewrite !Z.land_lor_distr_l, <- Z.land_assoc, Z.land_diag. done. }
  rewrite E. destruct (byte_parts (v mod 256)) as (_ & _ & ->); [unfold is_byte; lia|]. lia.
Qed.
Lemma preamble_varint fuel k n : (1 ≤ k ≤ fuel)%nat → 0 ≤ n < 128 ^ Z.of_nat k →
  Varint (preamble_loop fuel n) n ∧ (length (preamble_loop fuel n) ≤ k)%nat.
Proof.
  revert k n. induction fuel as [|fuel IH]; intros k n Hk Hn; [lia|]. cbn [preamble_loop]. destruct (Z.ltb_spec n 128).
  - unfold u8. rewrite Z.mod_small by lia. split; [apply varint_last; lia|cbn; lia].
  - destruct k as [|[|k]]; [lia|change (128 ^ Z.of_nat 1) with 128 in Hn; lia|]. rewrite Nat2Z.inj_succ, Z.pow_succ_r in Hn by lia.
    rewrite Z.shiftr_div_pow2, u8_lor by lia. change (2 ^ 7) with 128. destruct (IH (S k) (n / 128)) as [Hv Hl]; [lia|lia|]. split; [|cbn; lia].
    replace n with (n mod 128 + 128 - 128 + 128 * (n / 128)) at 3 by lia. apply varint_more; [lia|done].
Qed.

Lemma snappy_compress_stream inp : bytes inp → len inp ≤ 4294967295 →
  ∃ b, snappy_compress inp = Some b ∧ bytes b ∧ Stream b inp ∧ len b ≤ snappy_bound (len inp).
Proof.
  intros Hb Hl. unfold snappy_compress. set (start := mkComp (preamble (len inp)) ∅ 0 0).
  assert (Hstart : CInv inp start).
  { split; cbn; try lia; [by intros i v Hv|]. exists []. rewrite app_nil_r. split; [done|]. split; [apply Grow_nil|done]. }
  assert (Hgo : ∃ c, (if 8 <=? len inp then snappy_loop (S (length inp)) inp start else Some start) = Some c ∧ CInv inp c).
  { destruct (8 <=? len inp); [|by exists start]. apply snappy_loop_spec; [done|done|cbn; lia]. }
  destruct Hgo as (c & -> & [Ha Hip _ (body & Eo & Hg & Hs)]). cbn [mbind option_bind].
  destruct (literals_before inp (c_o c) body (c_anchor c) (len inp) Hb) as (body' & -> & [Hbb Hg'] & Hs'); [lia|lia|done|done|lia|].
  destruct (preamble_varint 10 5 (len inp)) as [Hv Hvl]; [lia|change (128 ^ Z.of_nat 5) with 34359738368; lia|].
  exists (preamble (len inp) ++ body'). split; [done|]. split; [apply Forall_app; split; [by eapply Varint_bytes|done]|]. split.
  - exists (preamble (len inp)), body'. split_and!; try done. rewrite <- (app_nil_r body'). apply Hg'. rewrite Nat2Z.id, firstn_all. constructor.
  - unfold snappy_bound. rewrite u64_small by (unfold is_u64; lia). rewrite length_app. unfold preamble. lia.
Qed.

(** ** The codec *)

Lemma Elems_fun w b v v' : bytes b → Elems w b v → Elems w b v' → v = v'.
Proof.
  remember (length b) as n eqn:En. revert w b v v' En. induction (lt_wf n) as [n _ IH]. intros w b v v' -> Hb Hv Hv'.
  destruct b as [|tag b]; [by rewrite (Elems_nil _ _ Hv), (Elems_nil _ _ Hv')|]. apply Forall_cons in Hb as [Ht Hb].
  destruct (decide (tag mod 4 = 0)) as [E|E].
  - apply (Elems_literal w tag b v Ht Hb E) in Hv as (n & b' & E1 & _ & Hv). apply (Elems_literal w tag b v' Ht Hb E) in Hv' as (n' & b2 & E2 & _ & Hv').
    rewrite E1 in E2. injection E2 as <- <-. apply literal_length_iff in E1 as (l & -> & _); [|done|done|done]. apply Forall_app in Hb as [_ Hb].
    refine (IH _ _ _ _ _ _ eq_refl _ Hv Hv'); [cbn [length]; rewrite length_drop, length_app; lia|by apply Forall_drop].
  - apply (Elems_copy w tag b v Ht Hb E) in Hv as (off & n & b' & E1 & _ & Hv). apply (Elems_copy w tag b v' Ht Hb E) in Hv' as (? & ? & b2 & E2 & _ & Hv').
    rewrite E1 in E2. injection E2 as <- <- <-. apply copy_parts_iff in E1 as (l & -> & _); [|done|done|done]. apply Forall_app in Hb as [_ Hb].
    refine (IH _ _ _ _ _ _ eq_refl _ Hv Hv'); [cbn [length]; rewrite length_app; lia|done].
Qed.
Lemma Stream_fun b v v' : bytes b → Stream b v → Stream b v' → v = v'.
Proof.
  intros Hb (pre & body & -> & _ & Hp & _ & Hv) (pre' & body' & E & _ & Hp' & _ & Hv').
  pose proof (skip_varint pre _ body Hp) as H. rewrite E, (skip_varint pre' _ body' Hp') in H. injection H as ->.
  apply Forall_app in Hb as [_ Hb]. by eapply Elems_fun.
Qed.

(** C33: snappy_decompress accepts exactly the streams of the format, and gives
    what they stand for. On any input it returns without leaving the input or the
    caller's room, and the buffer past what it decoded is as it was; it says Ok just
    when the input is a stream whose text fits, Corrupt only of an input that is no
    stream, and NoRoom only where the text does not fit. *)
Theorem snappy_decompress_exact inp o c : bytes inp → buffer_ok o c →
  (∃ r w, snappy_decompress inp o c = Some (r, if bool_decide (r = Ok) then len w else 0, (λ b, w ++ drop (length w) b) <$> o) ∧
     decoded o c (Stream inp) r w) ∧
  (∀ v, Stream inp v → fits o c (len v) → snappy_decompress inp o c = Some (Ok, len v, (λ b, v ++ drop (length v) b) <$> o)).
Proof.
  intros Hb Hbuf. destruct (snappy_decompress_spec inp o c Hb Hbuf) as (r & w & E & Hf & H). split; [by exists r, w|].
  intros v Hv Hfit. rewrite E. destruct r; [| | |done].
  - by rewrite (Stream_fun _ _ _ Hb Hv H), bool_decide_true by done.
  - by destruct (H v Hv).
  - by destruct (H v Hv).
Qed.

(** C32: every input of less than 4 GiB is compressed, to a stream of the format
    no longer than snappy_bound, and snappy_decompress gives the input back, into any
    buffer with room for it, and measures its size with none. *)
Theorem snappy_roundtrip inp : bytes inp → len inp ≤ 4294967295 → ∃ b, snappy_compress inp = Some b ∧ Stream b inp ∧
  len b ≤ snappy_bound (len inp) ∧
  (∀ buf c, len inp ≤ c ≤ len buf → snappy_decompress b (Some buf) c = Some (Ok, len inp, Some (inp ++ drop (length inp) buf))) ∧
  (∀ c, 0 ≤ c → snappy_decompress b None c = Some (Ok, len inp, None)).
Proof.
  intros Hb Hl. destruct (snappy_compress_stream inp Hb Hl) as (b & E & Hbb & Hs & Hbound). exists b.
  assert (Hdec : ∀ o c, buffer_ok o c → fits o c (len inp) → snappy_decompress b o c = Some (Ok, len inp, (λ b, inp ++ drop (length inp) b) <$> o)).
  { intros o c Hbuf Hfit. destruct (snappy_decompress_spec b o c Hbb Hbuf) as (r & v & Ed & Hf & H). rewrite Ed. destruct r; [| | |done].
    - by rewrite (Stream_fun _ _ _ Hbb Hs H), bool_decide_true by done.
    - by destruct (H _ Hs).
    - by destruct (H _ Hs). }
  split_and!; [done|done|done| |].
  - intros buf c Hc. rewrite Hdec; [done| |right; lia]. split; [lia|]. intros ? [= <-]. lia.
  - intros c Hc. rewrite Hdec; [done| |by left]. by split.
Qed.

Lemma snappy_sample_bytes : bytes sample.
Proof. unfold bytes, is_byte. apply (bool_decide_eq_true_1 _). vm_compute. reflexivity. Qed.
Definition sample_stream : list Z := Eval vm_compute in default [] (snappy_compress sample).

Lemma snappy_roundtrip_witness : bytes sample ∧ ∃ b, snappy_compress sample = Some b ∧ len b ≤ snappy_bound (len sample).
Proof.
  split; [exact snappy_sample_bytes|]. destruct (snappy_roundtrip sample snappy_sample_bytes ltac:(vm_compute; discriminate)) as (b & E & _ & H & _).
  exists b. exact (conj E H).
Defined.

Lemma snappy_decompress_exact_witness : bytes (255 :: sample_stream) ∧
  snappy_decompress (255 :: sample_stream) (Some (replicate 40 7)) 40 = Some (NoRoom, 0, Some (replicate 40 7)) ∧
  ∀ v, Stream (255 :: sample_stream) v → 40 < len v.
Proof.
  assert (Hb : bytes (255 :: sample_stream)) by (unfold bytes, is_byte; apply (bool_decide_eq_true_1 _); vm_compute; reflexivity).
  assert (E : snappy_decompress (255 :: sample_stream) (Some (replicate 40 7)) 40 = Some (NoRoom, 0, Some (replicate 40 7))) by (vm_compute; reflexivity).
  split; [exact Hb|]. split; [exact E|]. assert (Hbuf : buffer_ok (Some (replicate 40 7)) 40) by (split; [lia|]; intros ? [= <-]; reflexivity).
  destruct (snappy_decompress_exact (255 :: sample_stream) (Some (replicate 40 7)) 40 Hb Hbuf) as [_ H]. intros v Hv.
  destruct (Z.lt_ge_cases 40 (len v)) as [|Hle]; [assumption|]. specialize (H v Hv (or_intror Hle)). rewrite E in H. discriminate H.
Defined.
