(* ===== verification/Alu.v ===== *)
(** * Integer arithmetic of the PTX interpreter (src/exec/interpreter.cpp)

    The scalar functions every tier of the interpreter calls once per lane:
    narrowing, int_bin, compare, mul_hi, bfe, bfi, the funnel shift, the carry
    chains, popc, clz and brev, and the 32- and 64-bit loops of the fast paths.
    A uint64_t is a [Z] below [2^64]; an int64_t is a [Z] read in two's complement
    ([sread]). [Math] holds what each is to compute, on integers. *)

From S2P Require Import Prelude.

(** ** Types and operations (include/vgpu/ptx/ast.hpp) *)

Inductive Kind := KB | KU | KS | KF | KBF | KPred.

#[global] Instance Kind_eq_dec : EqDecision Kind.
Proof. solve_decision. Defined.

Record Ty := mkTy { kind : Kind; bits : Z }.

Definition is_float (t : Ty) : bool := bool_decide (kind t = KF).
Definition is_bfloat (t : Ty) : bool := bool_decide (kind t = KBF).
Definition is_real (t : Ty) : bool := is_float t || is_bfloat t.
Definition is_signed (t : Ty) : bool := bool_decide (kind t = KS).

Inductive IntBinOp := Add | Sub | Mul | Min | Max | Div | Rem | And | Or | Xor | Shl | Shr.
Inductive CmpOp :=
  Eq | Ne | Lt | Le | Gt | Ge | Equ | Neu | Ltu | Leu | Gtu | Geu | Num | Nan.
Inductive PredBinOp := PAnd | POr | PXor.

#[global] Instance IntBinOp_eq_dec : EqDecision IntBinOp.
Proof. solve_decision. Defined.
#[global] Instance CmpOp_eq_dec : EqDecision CmpOp.
Proof. solve_decision. Defined.

(** ** Casts *)

(** The low [n] bits in two's complement: a static_cast to a signed type. *)
Definition sread (n x : Z) : Z :=
  let y := x mod 2 ^ n in if y <? 2 ^ (n - 1) then y else y - 2 ^ n.
Definition i64 (x : Z) : Z := sread 64 x.
Definition i32 (x : Z) : Z := sread 32 x.

(** [~x] of a uint64_t, of a uint32_t. *)
Definition unot (x : Z) : Z := u64 (Z.lnot x).
Definition unot32 (x : Z) : Z := u32 (Z.lnot x).

Definition mask_to_bits (v bits : Z) : Z :=
  if 64 <=? bits then v else Z.land v (Z.shiftl 1 bits - 1).

Definition narrow_u (v bits : Z) : Z :=
  if 64 <=? bits then v else Z.land v (Z.shiftl 1 bits - 1).

Definition narrow_s (v bits : Z) : Z :=
  if 64 <=? bits then i64 v
  else
    let mask := Z.shiftl 1 bits - 1 in
    let m := Z.land v mask in
    let sign := Z.shiftl 1 (bits - 1) in
    i64 (if Z.land m sign =? 0 then m else Z.lor m (unot mask)).

Definition sign_extend (v bits : Z) : Z :=
  if 64 <=? bits then v
  else
    let sign := Z.shiftl 1 (bits - 1) in
    let v := mask_to_bits v bits in
    if Z.land v sign =? 0 then v else Z.lor v (unot (Z.shiftl sign 1 - 1)).

(** ** The operations *)

(** [int_bin]; [None] is the strict mode's InvalidValue error. *)
Definition int_bin (strict : bool) (op : IntBinOp) (ty : Ty) (a b : Z) : option Z :=
  let sig := is_signed ty in
  let s v := narrow_s v (bits ty) in
  let u v := narrow_u v (bits ty) in
  match op with
  | Add => Some (u64 (a + b))
  | Sub => Some (u64 (a - b))
  | Mul => Some (u64 (a * b))
  | Min => Some (if sig then u64 (s a `min` s b) else u a `min` u b)
  | Max => Some (if sig then u64 (s a `max` s b) else u a `max` u b)
  | Div | Rem =>
      if u b =? 0 then
        if strict then None else Some (narrow_u (unot 0) (bits ty))
      else if sig && (s b =? -1) then
        Some (if bool_decide (op = Div) then u64 (0 - u64 (s a)) else 0)
      else if bool_decide (op = Div) then
        Some (if sig then u64 (s a `quot` s b) else u a `quot` u b)
      else Some (if sig then u64 (s a `rem` s b) else u a `rem` u b)
  | And => Some (Z.land a b)
  | Or => Some (Z.lor a b)
  | Xor => Some (Z.lxor a b)
  | Shl =>
      let sh := u32 b in
      Some (if bits ty <=? sh then 0 else u64 (Z.shiftl a sh))
  | Shr =>
      let sh := u32 b in
      if sig then
        let v := s a in
        Some (if bits ty <=? sh then u64 (if v <? 0 then -1 else 0) else u64 (Z.shiftr v sh))
      else Some (if bits ty <=? sh then 0 else Z.shiftr (u a) sh)
  end.

(** The integer part of [compare]; its float part is not modelled. *)
Definition do_cmp (cmp : CmpOp) (x y : Z) : bool :=
  match cmp with
  | Eq => x =? y
  | Ne => negb (x =? y)
  | Lt => x <? y
  | Le => x <=? y
  | Gt => y <? x
  | Ge => y <=? x
  | _ => false
  end.

Definition compare (cmp : CmpOp) (ty : Ty) (a b : Z) : bool :=
  if is_signed ty then do_cmp cmp (narrow_s a (bits ty)) (narrow_s b (bits ty))
  else do_cmp cmp (narrow_u a (bits ty)) (narrow_u b (bits ty)).

(** [mul_hi]: 128-bit products at 64 bits, 64-bit ones below. *)
Definition mul_hi (ty : Ty) (a b : Z) : Z :=
  if bits ty =? 64 then
    if is_signed ty then u64 (Z.shiftr ((i64 a * i64 b) mod 2 ^ 128) 64)
    else u64 (Z.shiftr (a * b) 64)
  else if is_signed ty then
    let x := i64 (sign_extend a (bits ty)) in
    let y := i64 (sign_extend b (bits ty)) in
    mask_to_bits (u64 (Z.shiftr (x * y) (bits ty))) (bits ty)
  else
    let prod := u64 (mask_to_bits a (bits ty) * mask_to_bits b (bits ty)) in
    mask_to_bits (Z.shiftr prod (bits ty)) (bits ty).

(** All ones in the low [len] bits, for [len] up to 64. *)
Definition ones_below (len : Z) : Z := if 64 <=? len then unot 0 else Z.shiftl 1 len - 1.

Definition bfe (ty : Ty) (a bpos clen : Z) : Z :=
  let fmask := if bits ty =? 64 then 4294967295 else 255 in
  let pos := Z.land (u32 bpos) fmask in
  let len := Z.land (u32 clen) fmask in
  if (bits ty <=? pos) || (len =? 0) then
    if negb (is_signed ty) || (len =? 0) then 0
    else
      if Z.land (Z.shiftr a (bits ty - 1)) 1 =? 0 then 0
      else mask_to_bits (unot 0) (bits ty)
  else
    let len := if bits ty - pos <? len then bits ty - pos else len in
    let field := Z.land (Z.shiftr a pos) (ones_below len) in
    let field :=
      if is_signed ty && (len <? 64) && negb (Z.land field (Z.shiftl 1 (len - 1)) =? 0)
      then Z.lor field (unot (Z.shiftl 1 len - 1)) else field in
    mask_to_bits field (bits ty).

Definition bfi (ty : Ty) (a b cpos dlen : Z) : Z :=
  let fmask := if bits ty =? 64 then 4294967295 else 255 in
  let pos := Z.land (u32 cpos) fmask in
  let len := Z.land (u32 dlen) fmask in
  if (bits ty <=? pos) || (len =? 0) then mask_to_bits b (bits ty)
  else
    let len := if bits ty - pos <? len then bits ty - pos else len in
    let field_mask := u64 (Z.shiftl (ones_below len) pos) in
    mask_to_bits (Z.lor (Z.land b (unot field_mask)) (Z.land (u64 (Z.shiftl a pos)) field_mask))
      (bits ty).

(** OpShf: the 64-bit value [b:a] shifted by [c] (the body of its lane loop). *)
Definition shf (left wrap : bool) (a b c : Z) : Z :=
  let hi := u32 b in
  let lo := u32 a in
  let n := if wrap then Z.land (u32 c) 31 else u32 c `min` 32 in
  let funnel := Z.lor (u64 (Z.shiftl hi 32)) lo in
  if left then u32 (Z.shiftr (u64 (Z.shiftl funnel n)) 32) else u32 (Z.shiftr funnel n).

(** add/sub.cc, addc, subc: one lane of exec_carry_add_sub, with the lane's carry
    bit in and out. *)
Definition carry_add_sub (bits : Z) (sub carry_in carry_out : bool) (carry : bool) (a b : Z)
    : Z * bool :=
  let x := mask_to_bits a bits in
  let cin := if carry_in then Z.b2z carry else if sub then 1 else 0 in
  let y := if sub then mask_to_bits (unot b) bits else mask_to_bits b bits in
  let sum := mask_to_bits (u64 (x + y + cin)) bits in
  let cout := (sum <? x) || (negb (cin =? 0) && (sum =? x)) in
  (sum, if carry_out then cout else carry).

(** mad.cc, madc: one lane of exec_carry_mad. *)
Definition carry_mad (bits : Z) (carry_in carry_out : bool) (carry : bool) (prod c : Z)
    : Z * bool :=
  let p := mask_to_bits prod bits in
  let addend := mask_to_bits c bits in
  let cin := if carry_in then Z.b2z carry else 0 in
  let sum := mask_to_bits (u64 (p + addend + cin)) bits in
  let cout := (sum <? p) || (negb (cin =? 0) && (sum =? p)) in
  (sum, if carry_out then cout else carry).

(** add/sub.sat.s32: the true sum, clamped. *)
Definition add_sub_sat (op : IntBinOp) (a b : Z) : Z :=
  let x := i32 a in
  let y := i32 b in
  let t := if bool_decide (op = Sub) then x - y else x + y in
  u32 (Z.max (-2147483648) (Z.min t 2147483647)).

(** OpMulWide: the full product of 16- or 32-bit values. *)
Definition mul_wide (src_bits : Z) (sig : bool) (a b : Z) : Z :=
  if src_bits =? 16 then
    if sig then u32 (sread 16 a * sread 16 b) else u32 ((a mod 2 ^ 16) * (b mod 2 ^ 16))
  else if sig then u64 (i32 a * i32 b)
  else u64 (u32 a * u32 b).

(** popcount64_soft (and popcount_mask, the same four lines on a Mask). *)
Definition popcount64_soft (x : Z) : Z :=
  let x := u64 (x - Z.land (Z.shiftr x 1) 6148914691236517205) in
  let x := u64 (Z.land x 3689348814741910323 + Z.land (Z.shiftr x 2) 3689348814741910323) in
  let x := Z.land (u64 (x + Z.shiftr x 4)) 1085102592571150095 in
  Z.shiftr (u64 (x * 72340172838076673)) 56.

(** [__builtin_clzll] of a non-zero word. *)
Definition clzll (x : Z) : Z := 63 - Z.log2 x.

(** OpPopcClz of a type of 1 to 64 bits. *)
Definition popc_clz (popc : bool) (tb v : Z) : Z :=
  let keep := if 64 <=? tb then unot 0 else Z.shiftl 1 tb - 1 in
  let x := Z.land v keep in
  if popc then popcount64_soft x else if x =? 0 then tb else clzll x - (64 - tb).

(** OpBrev: the loop over the bits. *)
Definition brev (tb v : Z) : Z :=
  let x := mask_to_bits v tb in
  foldl (λ out i,
    if Z.land x (Z.shiftl 1 i) =? 0 then out else Z.lor out (Z.shiftl 1 (tb - 1 - i)))
    0 (seqZ 0 tb).

(** OpNot, OpNeg and OpAbs on integers. *)
Definition not_op (logical : bool) (tb v : Z) : Z :=
  if logical then (if mask_to_bits v tb =? 0 then 1 else 0) else unot v.
Definition neg_op (v : Z) : Z := u64 (- i64 v).
Definition abs_op (tb v : Z) : Z :=
  let x := if 64 <=? tb then i64 v else Z.shiftr (i64 (u64 (Z.shiftl v (64 - tb)))) (64 - tb) in
  u64 (if x <? 0 then - x else x).

(** ** The loops of the fast paths, one lane *)

(** One lane of int_bin32_lanes (the portable loops; division does not fail). *)
Definition int_bin32 (o : IntBinOp) (sig : bool) (x y : Z) : Z :=
  match o with
  | Add => u32 (x + y)
  | Sub => u32 (x - y)
  | Mul => u32 (x * y)
  | And => Z.land x y
  | Or => Z.lor x y
  | Xor => Z.lxor x y
  | Min => if sig then u32 (i32 x `min` i32 y) else x `min` y
  | Max => if sig then u32 (i32 x `max` i32 y) else x `max` y
  | Div =>
      if y =? 0 then unot32 0
      else if sig then (if y =? 4294967295 then u32 (0 - x) else u32 (i32 x `quot` i32 y))
      else x `quot` y
  | Rem =>
      if y =? 0 then unot32 0
      else if sig then (if y =? 4294967295 then 0 else u32 (i32 x `rem` i32 y))
      else x `rem` y
  | Shl => if 32 <=? y then 0 else u32 (Z.shiftl x y)
  | Shr =>
      if sig then
        let v := i32 x in
        u32 (if 32 <=? y then (if v <? 0 then -1 else 0) else Z.shiftr v y)
      else if 32 <=? y then 0 else Z.shiftr x y
  end.

(** One lane of int_bin64_lanes; [None] for the operations it does not do. *)
Definition int_bin64 (o : IntBinOp) (sig : bool) (x y : Z) : option Z :=
  match o with
  | Add => Some (u64 (x + y))
  | Sub => Some (u64 (x - y))
  | Mul => Some (u64 (x * y))
  | And => Some (Z.land x y)
  | Or => Some (Z.lor x y)
  | Xor => Some (Z.lxor x y)
  | Min => Some (if sig then u64 (i64 x `min` i64 y) else x `min` y)
  | Max => Some (if sig then u64 (i64 x `max` i64 y) else x `max` y)
  | Shl => let y := u32 y in Some (if 64 <=? y then 0 else u64 (Z.shiftl x y))
  | Shr =>
      if sig then
        let v := i64 x in
        let y := u32 y in
        Some (u64 (if 64 <=? y then (if v <? 0 then -1 else 0) else Z.shiftr v y))
      else let y := u32 y in Some (if 64 <=? y then 0 else Z.shiftr x y)
  | _ => None
  end.

(** One lane of micro_int16, before the cut to 16 bits; [None] as above. *)
Definition int_bin16 (o : IntBinOp) (sig : bool) (x y : Z) : option Z :=
  match o with
  | Add => Some (u32 (x + y))
  | Sub => Some (u32 (x - y))
  | Mul => Some (u32 (x * y))
  | And => Some (Z.land x y)
  | Or => Some (Z.lor x y)
  | Xor => Some (Z.lxor x y)
  | Min =>
      Some (if sig then u32 (sread 16 x `min` sread 16 y) else Z.land x 65535 `min` Z.land y 65535)
  | Max =>
      Some (if sig then u32 (sread 16 x `max` sread 16 y) else Z.land x 65535 `max` Z.land y 65535)
  | Shl => Some (if 16 <=? y then 0 else u32 (Z.shiftl x y))
  | Shr =>
      if sig then
        let v := sread 16 x in
        Some (u32 (if 16 <=? y then (if v <? 0 then -1 else 0) else Z.shiftr v y))
      else Some (if 16 <=? y then 0 else Z.shiftr (Z.land x 65535) y)
  | _ => None
  end.

(** One lane of setp32_lanes on integers; [None] for the unordered comparisons. *)
Definition setp32 (cmp : CmpOp) (sig : bool) (x y : Z) : option bool :=
  match cmp with
  | Eq | Ne | Lt | Le | Gt | Ge =>
      Some (if sig then do_cmp cmp (i32 x) (i32 y) else do_cmp cmp x y)
  | _ => None
  end.

(** One lane of setp64_lanes on integers. *)
Definition setp64 (cmp : CmpOp) (sig : bool) (x y : Z) : option bool :=
  match cmp with
  | Eq | Ne | Lt | Le | Gt | Ge =>
      Some (if sig then do_cmp cmp (i64 x) (i64 y) else do_cmp cmp x y)
  | _ => None
  end.

(** ** What they are to compute *)

Module Math.

(** An operand, read at the instruction's width. *)
Definition value (ty : Ty) (v : Z) : Z :=
  if is_signed ty then sread (bits ty) v else v mod 2 ^ bits ty.

(** The operation on integers. Shift amounts are 32-bit and not clamped: shifting
    by more than the width is what the integers say. *)
Definition int_op (op : IntBinOp) (ty : Ty) (a b : Z) : Z :=
  let x := value ty a in
  let y := value ty b in
  match op with
  | Add => x + y
  | Sub => x - y
  | Mul => x * y
  | Min => x `min` y
  | Max => x `max` y
  | Div => if y =? 0 then -1 else x `quot` y
  | Rem => if y =? 0 then -1 else x `rem` y
  | And => Z.land x y
  | Or => Z.lor x y
  | Xor => Z.lxor x y
  | Shl => x * 2 ^ u32 b
  | Shr => x / 2 ^ u32 b
  end.

(** bfe and bfi as the PTX ISA writes them, bit by bit. *)
Definition field (ty : Ty) (v : Z) : Z := if bits ty =? 64 then u32 v else u32 v mod 256.

Definition bfe_bit (ty : Ty) (a bpos clen i : Z) : bool :=
  let pos := field ty bpos in
  let len := field ty clen in
  let msb := bits ty - 1 in
  let sbit := is_signed ty && negb (len =? 0) && Z.testbit a ((pos + len - 1) `min` msb) in
  if (i <? len) && (pos + i <=? msb) then Z.testbit a (pos + i) else sbit.

Definition bfi_bit (ty : Ty) (a b cpos dlen i : Z) : bool :=
  let pos := field ty cpos in
  let len := field ty dlen in
  if (pos <=? i) && (i <? pos + len) then Z.testbit a (i - pos) else Z.testbit b i.

End Math.

(** ** Words and their residues *)

Lemma pow2_pos n : 0 ≤ n → 0 < 2 ^ n.
Proof. intros. by apply Z.pow_pos_nonneg. Qed.
#[export] Hint Resolve pow2_pos : vgpu.

(** Two numbers agree modulo [2^n] when their low [n] bits do. *)
Lemma mod_pow2_bits a b n : 0 ≤ n →
  (∀ i, 0 ≤ i < n → Z.testbit a i = Z.testbit b i) → a mod 2 ^ n = b mod 2 ^ n.
Proof.
  intros Hn H. apply Z.bits_inj'. intros i Hi.
  destruct (Z.lt_ge_cases i n).
  - rewrite !Z.mod_pow2_bits_low by lia. apply H. lia.
  - rewrite !Z.mod_pow2_bits_high by lia. done.
Qed.

Lemma mod_pow2_testbit a b n i :
  a mod 2 ^ n = b mod 2 ^ n → 0 ≤ i < n → Z.testbit a i = Z.testbit b i.
Proof.
  intros H Hi. rewrite <- (Z.mod_pow2_bits_low a n), <- (Z.mod_pow2_bits_low b n) by lia.
  by rewrite H.
Qed.

Lemma mod_mod_pow2 a n k : 0 ≤ n ≤ k → (a mod 2 ^ k) mod 2 ^ n = a mod 2 ^ n.
Proof.
  intros. apply mod_pow2_bits; [lia|]. intros i Hi. rewrite Z.mod_pow2_bits_low by lia. done.
Qed.

Lemma u64_pow2 x : u64 x = x mod 2 ^ 64.
Proof. done. Qed.
Lemma u32_pow2 x : u32 x = x mod 2 ^ 32.
Proof. done. Qed.

Lemma u64_mod x n : 0 ≤ n ≤ 64 → u64 x mod 2 ^ n = x mod 2 ^ n.
Proof. intros. rewrite u64_pow2. by apply mod_mod_pow2. Qed.
Lemma u32_mod x n : 0 ≤ n ≤ 32 → u32 x mod 2 ^ n = x mod 2 ^ n.
Proof. intros. rewrite u32_pow2. by apply mod_mod_pow2. Qed.

Lemma sread_mod n x : 0 ≤ n → sread n x mod 2 ^ n = x mod 2 ^ n.
Proof.
  intros Hn. unfold sread. case_if; [by apply Zmod_mod|].
  rewrite Zminus_mod, Z_mod_same_full, Z.sub_0_r, !Zmod_mod. done.
Qed.

Lemma sread_range n x : 1 ≤ n → - 2 ^ (n - 1) ≤ sread n x < 2 ^ (n - 1).
Proof.
  intros Hn. unfold sread. pose proof (Z.mod_pos_bound x (2 ^ n) (pow2_pos n ltac:(lia))).
  assert (2 ^ n = 2 * 2 ^ (n - 1)) by (rewrite <- Z.pow_succ_r by lia; f_equal; lia).
  case_if; lia.
Qed.

(** The reading is the only number of the range with that residue. *)
Lemma sread_unique n x y : 1 ≤ n → - 2 ^ (n - 1) ≤ y < 2 ^ (n - 1) →
  y mod 2 ^ n = x mod 2 ^ n → sread n x = y.
Proof.
  intros Hn Hy Hm. pose proof (sread_range n x Hn). pose proof (sread_mod n x ltac:(lia)) as Hs.
  assert (2 ^ n = 2 * 2 ^ (n - 1)) by (rewrite <- Z.pow_succ_r by lia; f_equal; lia).
  rewrite <- Hm in Hs.
  assert (Hd : (sread n x - y) mod 2 ^ n = 0) by (rewrite Zminus_mod, Hs, Z.sub_diag; done).
  pose proof (pow2_pos (n - 1) ltac:(lia)).
  apply Z.mod_divide in Hd as [q Hq]; [|lia].
  enough (q = 0) by (subst q; lia).
  destruct (Z.lt_trichotomy q 0) as [?|[?|?]]; [|done|]; exfalso; nia.
Qed.

Lemma sread_congr n x y : x mod 2 ^ n = y mod 2 ^ n → sread n x = sread n y.
Proof. unfold sread. by intros ->. Qed.

Lemma sread_small n x : 1 ≤ n → - 2 ^ (n - 1) ≤ x < 2 ^ (n - 1) → sread n x = x.
Proof. intros. by apply sread_unique. Qed.

Lemma value_mod ty v : 0 ≤ bits ty → Math.value ty v mod 2 ^ bits ty = v mod 2 ^ bits ty.
Proof. intros. unfold Math.value. case_if; [by apply sread_mod|apply Zmod_mod]. Qed.

Lemma value_congr ty v v' :
  v mod 2 ^ bits ty = v' mod 2 ^ bits ty → Math.value ty v = Math.value ty v'.
Proof. unfold Math.value. intros H. case_if; [by apply sread_congr|done]. Qed.

Lemma shiftl_1_pow2 n : 0 ≤ n → Z.shiftl 1 n = 2 ^ n.
Proof. intros. rewrite Z.shiftl_mul_pow2 by lia. lia. Qed.

Lemma mask_to_bits_mod v n : is_u64 v → 0 ≤ n → mask_to_bits v n = v mod 2 ^ (n `min` 64).
Proof.
  unfold is_u64. intros Hv Hn. unfold mask_to_bits. case_if.
  - rewrite Z.min_r by lia. rewrite Z.mod_small; [done|]. change (2 ^ 64) with 18446744073709551616. lia.
  - rewrite Z.min_l by lia. rewrite shiftl_1_pow2 by lia. apply land_pow2_mod. lia.
Qed.

Lemma narrow_u_mod v n : is_u64 v → 0 ≤ n ≤ 64 → narrow_u v n = v mod 2 ^ n.
Proof. intros. rewrite <- (Z.min_l n 64) at 2 by lia. apply mask_to_bits_mod; [done|lia]. Qed.

Lemma land_pow2_testbit x k : 0 ≤ k → (Z.land x (2 ^ k) =? 0) = negb (Z.testbit x k).
Proof.
  intros Hk. destruct (Z.testbit x k) eqn:E; simpl.
  - apply Z.eqb_neq. intros H. apply (f_equal (λ z, Z.testbit z k)) in H.
    rewrite Z.land_spec, Z.pow2_bits_true, E, Z.bits_0 in H by lia. done.
  - apply Z.eqb_eq. apply Z.bits_inj'. intros i Hi.
    rewrite Z.land_spec, Z.bits_0. destruct (decide (i = k)) as [->|]; [by rewrite E|].
    rewrite Z.pow2_bits_false by done. apply andb_false_r.
Qed.

(** The bit at [n - 1] decides the sign. *)
Lemma testbit_top x n : 1 ≤ n → 0 ≤ x < 2 ^ n → Z.testbit x (n - 1) = negb (x <? 2 ^ (n - 1)).
Proof.
  intros Hn Hx. assert (2 ^ n = 2 * 2 ^ (n - 1)) by (rewrite <- Z.pow_succ_r by lia; f_equal; lia).
  rewrite Z.testbit_eqb by lia. pose proof (pow2_pos (n - 1) ltac:(lia)).
  destruct (Z.ltb_spec x (2 ^ (n - 1))); simpl.
  - rewrite Z.div_small by lia. done.
  - rewrite <- (Z.div_unique x (2 ^ (n - 1)) 1 (x - 2 ^ (n - 1))) by lia. done.
Qed.

(** Filling the bits above [n] with ones: subtracting [2^n], in 64 bits. *)
Lemma lor_unot_ones m n : 0 ≤ n ≤ 64 → 0 ≤ m < 2 ^ n →
  Z.lor m (unot (2 ^ n - 1)) = u64 (m - 2 ^ n).
Proof.
  intros Hn Hm. apply Z.bits_inj'. intros i Hi. unfold unot. rewrite !u64_pow2, Z.lor_spec.
  replace (m - 2 ^ n) with (Z.lor m (Z.shiftl (-1) n)).
  2: { rewrite lor_shiftl_add by lia. lia. }
  replace (Z.lnot (2 ^ n - 1)) with (Z.shiftl (-1) n).
  2: { rewrite Z.shiftl_mul_pow2 by lia. unfold Z.lnot. lia. }
  destruct (Z.lt_ge_cases i 64).
  - rewrite !Z.mod_pow2_bits_low by lia. rewrite Z.lor_spec. done.
  - rewrite !Z.mod_pow2_bits_high by lia. rewrite orb_false_r.
    rewrite <- (Z.mod_small m (2 ^ n)), Z.mod_pow2_bits_high by lia. done.
Qed.

(** Sign extension of the low [n] bits, the three ways the code writes it. *)
Lemma sext_read v n : is_u64 v → 1 ≤ n < 64 →
  (let m := v mod 2 ^ n in
   if Z.land m (2 ^ (n - 1)) =? 0 then m else Z.lor m (unot (2 ^ n - 1))) = u64 (sread n v).
Proof.
  intros Hv Hn. pose proof (Z.mod_pos_bound v (2 ^ n) (pow2_pos n ltac:(lia))).
  cbv zeta. rewrite land_pow2_testbit, testbit_top, negb_involutive by lia. unfold sread.
  case_if; [|apply lor_unot_ones; lia].
  symmetry. apply u64_small. pose proof (Z.pow_le_mono_r 2 n 64). unfold is_u64.
  change 18446744073709551616 with (2 ^ 64). lia.
Qed.

Lemma i64_u64 x : - 2 ^ 63 ≤ x < 2 ^ 63 → i64 (u64 x) = x.
Proof. intros. apply sread_unique; [lia|done|]. rewrite (u64_mod x 64) by lia. done. Qed.

Lemma sread_i64_range n x : 1 ≤ n ≤ 64 → - 2 ^ 63 ≤ sread n x < 2 ^ 63.
Proof.
  intros. pose proof (sread_range n x ltac:(lia)).
  pose proof (Z.pow_le_mono_r 2 (n - 1) 63). lia.
Qed.

Lemma narrow_s_sread v n : is_u64 v → 1 ≤ n ≤ 64 → narrow_s v n = sread n v.
Proof.
  intros Hv Hn. unfold narrow_s. case_if; [by replace n with 64 by lia|].
  rewrite !shiftl_1_pow2, land_pow2_mod by lia.
  pose proof (sext_read v n Hv ltac:(lia)) as E. cbv zeta in E. rewrite E.
  apply i64_u64, sread_i64_range. lia.
Qed.

Lemma sign_extend_sread v n : is_u64 v → 1 ≤ n ≤ 64 → sign_extend v n = u64 (sread n v).
Proof.
  intros Hv Hn. unfold sign_extend. case_if.
  - replace n with 64 by lia. rewrite u64_pow2, sread_mod by lia.
    symmetry. by apply u64_small.
  - rewrite mask_to_bits_mod, Z.min_l by (done || lia).
    rewrite shiftl_1_pow2, Z.shiftl_mul_pow2 by lia.
    replace (2 ^ (n - 1) * 2 ^ 1) with (2 ^ n) by (rewrite <- Z.pow_add_r by lia; f_equal; lia).
    apply (sext_read v n Hv ltac:(lia)).
Qed.

(** ** Arithmetic *)

Section congr.
Context (n : Z) (Hn : 0 ≤ n).
Implicit Types a b x y : Z.

Lemma add_congr a b x y : a mod 2 ^ n = x mod 2 ^ n → b mod 2 ^ n = y mod 2 ^ n →
  (a + b) mod 2 ^ n = (x + y) mod 2 ^ n.
Proof. intros Ha Hb. by rewrite Zplus_mod, Ha, Hb, <- Zplus_mod. Qed.
Lemma sub_congr a b x y : a mod 2 ^ n = x mod 2 ^ n → b mod 2 ^ n = y mod 2 ^ n →
  (a - b) mod 2 ^ n = (x - y) mod 2 ^ n.
Proof. intros Ha Hb. by rewrite Zminus_mod, Ha, Hb, <- Zminus_mod. Qed.
Lemma mul_congr a b x y : a mod 2 ^ n = x mod 2 ^ n → b mod 2 ^ n = y mod 2 ^ n →
  (a * b) mod 2 ^ n = (x * y) mod 2 ^ n.
Proof. intros Ha Hb. by rewrite Zmult_mod, Ha, Hb, <- Zmult_mod. Qed.
Lemma bitop_congr (f : Z → Z → Z) (g : bool → bool → bool) a b x y :
  (∀ a b i, Z.testbit (f a b) i = g (Z.testbit a i) (Z.testbit b i)) →
  a mod 2 ^ n = x mod 2 ^ n → b mod 2 ^ n = y mod 2 ^ n → f a b mod 2 ^ n = f x y mod 2 ^ n.
Proof.
  intros Hf Ha Hb. apply mod_pow2_bits; [done|]. intros i Hi.
  by rewrite !Hf, (mod_pow2_testbit a x n), (mod_pow2_testbit b y n).
Qed.
End congr.

Lemma value_range ty v : 1 ≤ bits ty ≤ 64 →
  - 2 ^ (bits ty - 1) ≤ Math.value ty v < 2 ^ bits ty ∧ (is_signed ty = false → 0 ≤ Math.value ty v).
Proof.
  intros. unfold Math.value.
  pose proof (Z.mod_pos_bound v (2 ^ bits ty) (pow2_pos (bits ty) ltac:(lia))).
  pose proof (sread_range (bits ty) v ltac:(lia)).
  assert (2 ^ bits ty = 2 * 2 ^ (bits ty - 1)) by (rewrite <- Z.pow_succ_r by lia; f_equal; lia).
  pose proof (pow2_pos (bits ty - 1) ltac:(lia)).
  case_if; split; try done; lia.
Qed.

(** Shifting out more bits than there are leaves the sign. *)
Lemma shr_all v n sh : 0 ≤ n ≤ sh → - 2 ^ n ≤ v < 2 ^ n → v / 2 ^ sh = if v <? 0 then -1 else 0.
Proof.
  intros Hn Hv. pose proof (Z.pow_le_mono_r 2 n sh ltac:(lia) ltac:(lia)). case_if.
  - symmetry. apply (Z.div_unique _ _ _ (v + 2 ^ sh)); lia.
  - apply Z.div_small. lia.
Qed.

Lemma shl_all v n sh : 0 ≤ n ≤ sh → (v * 2 ^ sh) mod 2 ^ n = 0.
Proof.
  intros. replace (v * 2 ^ sh) with (v * 2 ^ (sh - n) * 2 ^ n); [apply Z_mod_mult|].
  rewrite <- Z.mul_assoc, <- Z.pow_add_r by lia. do 2 f_equal. lia.
Qed.

Lemma value_zero ty v : 1 ≤ bits ty → Math.value ty v = 0 ↔ v mod 2 ^ bits ty = 0.
Proof.
  intros. split; intros E.
  - rewrite <- value_mod, E by lia. apply Z.mod_0_l. pose proof (pow2_pos (bits ty)). lia.
  - unfold Math.value. case_if; [|done]. apply sread_unique; [lia| |].
    + pose proof (pow2_pos (bits ty - 1)). lia.
    + rewrite E. apply Z.mod_0_l. pose proof (pow2_pos (bits ty)). lia.
Qed.

Lemma is_u64_value ty v : 1 ≤ bits ty ≤ 64 → is_signed ty = false → is_u64 (Math.value ty v).
Proof.
  intros Hn Hs. destruct (value_range ty v Hn) as [? ?].
  pose proof (Z.pow_le_mono_r 2 (bits ty) 64). unfold is_u64.
  change 18446744073709551616 with (2 ^ 64). specialize (H0 Hs). lia.
Qed.

(** [r] is a uint64_t that reads as the integer [z] at the width of [ty]. *)
Definition reads_as (ty : Ty) (r z : Z) : Prop := is_u64 r ∧ r mod 2 ^ bits ty = z mod 2 ^ bits ty.

Lemma reads_as_u64 ty z : 0 ≤ bits ty ≤ 64 → reads_as ty (u64 z) z.
Proof. split; [apply u64_range|]. by apply u64_mod. Qed.

Lemma reads_as_congr ty r z z' : z mod 2 ^ bits ty = z' mod 2 ^ bits ty → reads_as ty r z → reads_as ty r z'.
Proof. intros E [? ?]. split; congruence. Qed.

Lemma is_u64_bitop (f : Z → Z → Z) (g : bool → bool → bool) a b :
  (∀ a b i, Z.testbit (f a b) i = g (Z.testbit a i) (Z.testbit b i)) → g false false = false →
  is_u64 a → is_u64 b → is_u64 (f a b).
Proof.
  intros Hf Hg Ha Hb. rewrite <- (u64_small a), <- (u64_small b) by done.
  replace (f (u64 a) (u64 b)) with (u64 (f (u64 a) (u64 b))); [apply u64_range|].
  rewrite !u64_pow2. apply Z.bits_inj'. intros i Hi. destruct (Z.lt_ge_cases i 64).
  - by rewrite Z.mod_pow2_bits_low by lia.
  - rewrite Z.mod_pow2_bits_high, Hf, !Z.mod_pow2_bits_high by lia. done.
Qed.

(** Division: the two quotients the code takes, and the one it does not. *)
Lemma int_bin_div ty a b (rem : bool) :
  1 ≤ bits ty ≤ 64 → is_u64 a → is_u64 b →
  let op := if rem then Rem else Div in
  ∃ r, int_bin false op ty a b = Some r ∧ reads_as ty r (Math.int_op op ty a b).
Proof.
  intros Hn Ha Hb op. unfold int_bin, op.
  rewrite !narrow_u_mod, !narrow_s_sread by (done || lia).
  assert (HZ : (b mod 2 ^ bits ty =? 0) = (Math.value ty b =? 0)).
  { apply eq_true_iff_eq. rewrite !Z.eqb_eq. symmetry. apply value_zero. lia. }
  assert (Hd : bool_decide (Div = Div) = true) by done.
  assert (Hr : bool_decide (Rem = Div) = false) by done.
  exists (if b mod 2 ^ bits ty =? 0 then unot 0 mod 2 ^ bits ty
     else if is_signed ty && (sread (bits ty) b =? -1)
          then (if rem then 0 else u64 (0 - u64 (sread (bits ty) a)))
     else if rem then (if is_signed ty then u64 (sread (bits ty) a `rem` sread (bits ty) b)
                       else (a mod 2 ^ bits ty) `rem` (b mod 2 ^ bits ty))
     else (if is_signed ty then u64 (sread (bits ty) a `quot` sread (bits ty) b)
           else (a mod 2 ^ bits ty) `quot` (b mod 2 ^ bits ty))).
  split; [destruct rem; rewrite ?Hd, ?Hr; repeat case_if; done|].
  unfold Math.int_op. rewrite HZ.
  destruct (Math.value ty b =? 0) eqn:E0; zify_bool.
  { destruct rem;
      (split; [|rewrite Zmod_mod; apply (u64_mod (Z.lnot 0)); lia]);
      (pose proof (Z.mod_pos_bound (unot 0) (2 ^ bits ty) (pow2_pos (bits ty) ltac:(lia)));
       pose proof (Z.pow_le_mono_r 2 (bits ty) 64); unfold is_u64;
       change 18446744073709551616 with (2 ^ 64); lia). }
  unfold Math.value in *. destruct (is_signed ty) eqn:Hs; simpl.
  - destruct (sread (bits ty) b =? -1) eqn:E1; zify_bool.
    + rewrite E1. destruct rem.
      * replace (sread (bits ty) a `rem` (-1)) with 0 by (rewrite (Z.rem_opp_r _ 1), Z.rem_1_r by lia; done).
        split; [unfold is_u64; lia|done].
      * apply (reads_as_congr _ _ (0 - u64 (sread (bits ty) a))); [|apply reads_as_u64; lia].
        rewrite (Z.quot_opp_r _ 1), Z.quot_1_r by lia. rewrite <- (Z.sub_0_l (sread (bits ty) a)).
        apply sub_congr; [done|]. apply u64_mod. lia.
    + destruct rem; apply reads_as_u64; lia.
  - pose proof (is_u64_value ty b Hn Hs) as Hub. pose proof (is_u64_value ty a Hn Hs) as Hua.
    unfold Math.value, is_u64 in *. rewrite Hs in Hua, Hub.
    destruct rem; (split; [|done]); unfold is_u64.
    + pose proof (Z.rem_bound_pos (a mod 2 ^ bits ty) (b mod 2 ^ bits ty)). lia.
    + pose proof (Z.quot_pos (a mod 2 ^ bits ty) (b mod 2 ^ bits ty)).
      pose proof (Z.quot_le_upper_bound (a mod 2 ^ bits ty) (b mod 2 ^ bits ty) (a mod 2 ^ bits ty)). nia.
Qed.

Lemma value_unsigned ty v : is_signed ty = false → Math.value ty v = v mod 2 ^ bits ty.
Proof. unfold Math.value. by intros ->. Qed.
Lemma value_signed ty v : is_signed ty = true → Math.value ty v = sread (bits ty) v.
Proof. unfold Math.value. by intros ->. Qed.

Lemma int_bin_shift ty a b (right : bool) :
  1 ≤ bits ty ≤ 64 → is_u64 a → is_u64 b →
  let op := if right then Shr else Shl in
  ∃ r, int_bin false op ty a b = Some r ∧ reads_as ty r (Math.int_op op ty a b).
Proof.
  intros Hn Ha Hb op. unfold int_bin, op, Math.int_op.
  assert (Hsh : 0 ≤ u32 b) by (apply Z.mod_pos_bound; lia).
  destruct (value_range ty a Hn) as [HV HV0].
  assert (2 ^ bits ty = 2 * 2 ^ (bits ty - 1)) by (rewrite <- Z.pow_succ_r by lia; f_equal; lia).
  pose proof (pow2_pos (bits ty - 1) ltac:(lia)).
  destruct right.
  - destruct (is_signed ty) eqn:Hs; eexists; (split; [done|]).
    + rewrite narrow_s_sread, <- value_signed by (done || lia). case_if.
      * rewrite (shr_all (Math.value ty a) (bits ty) (u32 b)) by lia. apply reads_as_u64. lia.
      * rewrite Z.shiftr_div_pow2 by lia. apply reads_as_u64. lia.
    + rewrite narrow_u_mod, <- value_unsigned by (done || lia). specialize (HV0 eq_refl).
      case_if.
      * rewrite (shr_all (Math.value ty a) (bits ty) (u32 b)) by lia.
        case_if; [lia|]. split; [unfold is_u64; lia|done].
      * rewrite Z.shiftr_div_pow2 by lia. split; [|done].
        pose proof (is_u64_value ty a Hn Hs). unfold is_u64 in *.
        pose proof (pow2_pos (u32 b) Hsh).
        pose proof (Z.div_pos (Math.value ty a) (2 ^ u32 b)).
        pose proof (Z.div_le_upper_bound (Math.value ty a) (2 ^ u32 b) (Math.value ty a)). nia.
  - eexists; split; [done|]. case_if.
    + split; [unfold is_u64; lia|]. rewrite shl_all by lia. done.
    + rewrite Z.shiftl_mul_pow2 by lia.
      apply (reads_as_congr _ _ (a * 2 ^ u32 b)); [|apply reads_as_u64; lia].
      apply mul_congr; [|done]. symmetry. apply value_mod. lia.
Qed.

Lemma int_bin_minmax ty a b (mx : bool) :
  1 ≤ bits ty ≤ 64 → is_u64 a → is_u64 b →
  let op := if mx then Max else Min in
  ∃ r, int_bin false op ty a b = Some r ∧ reads_as ty r (Math.int_op op ty a b).
Proof.
  intros Hn Ha Hb op. unfold int_bin, op, Math.int_op.
  rewrite !narrow_u_mod, !narrow_s_sread by (done || lia).
  destruct (is_signed ty) eqn:Hs.
  - rewrite !value_signed by done. destruct mx; eexists; (split; [done|]); apply reads_as_u64; lia.
  - pose proof (is_u64_value ty a Hn Hs). pose proof (is_u64_value ty b Hn Hs). unfold is_u64 in *.
    rewrite !value_unsigned in * by done. destruct mx; eexists; (split; [done|]); (split; [unfold is_u64; lia|done]).
Qed.

Lemma int_bin_total ty op a b : 1 ≤ bits ty ≤ 64 → is_u64 a → is_u64 b →
  ∃ r, int_bin false op ty a b = Some r ∧ reads_as ty r (Math.int_op op ty a b).
Proof.
  intros Hn Ha Hb.
  pose proof (value_mod ty a ltac:(lia)) as Va. pose proof (value_mod ty b ltac:(lia)) as Vb.
  assert (HL : ∀ f g x y, (∀ a b i, Z.testbit (f a b) i = g (Z.testbit a i) (Z.testbit b i)) →
    g false false = false → is_u64 x → is_u64 y →
    reads_as ty (f x y) (f (Math.value ty x) (Math.value ty y))).
  { intros f g x y Hf Hg Hx Hy. split; [by apply (is_u64_bitop f g)|].
    apply (bitop_congr (bits ty) ltac:(lia) f g); [done|symmetry; apply value_mod; lia..]. }
  destruct op; [| | | | | | | | | |by apply (int_bin_shift ty a b false)|by apply (int_bin_shift ty a b true)].
  1-3: eexists; (split; [done|]); (eapply reads_as_congr; [|apply reads_as_u64; lia]).
  - apply add_congr; by symmetry.
  - apply sub_congr; by symmetry.
  - apply mul_congr; by symmetry.
  - by apply (int_bin_minmax ty a b false).
  - by apply (int_bin_minmax ty a b true).
  - by apply (int_bin_div ty a b false).
  - by apply (int_bin_div ty a b true).
  - eexists; split; [done|]. apply (HL Z.land andb); auto using Z.land_spec.
  - eexists; split; [done|]. apply (HL Z.lor orb); auto using Z.lor_spec.
  - eexists; split; [done|]. apply (HL Z.lxor xorb); auto using Z.lxor_spec.
Qed.

(** Strict mode differs by its error and nothing else. *)
Lemma int_bin_strict op ty a b :
  int_bin true op ty a b =
    match op with
    | Div | Rem => if narrow_u b (bits ty) =? 0 then None else int_bin false op ty a b
    | _ => int_bin false op ty a b
    end.
Proof. unfold int_bin. destruct op; try done; by destruct (narrow_u b (bits ty) =? 0). Qed.



(** ** The fast loops are int_bin at their width *)

Lemma u32_range x : 0 ≤ u32 x < 2 ^ 32.
Proof. by apply Z.mod_pos_bound. Qed.

Lemma u32_small x : 0 ≤ x < 2 ^ 32 → u32 x = x.
Proof. intros. by apply Z.mod_small. Qed.

Lemma u32_u64 x : u32 (u64 x) = u32 x.
Proof. rewrite !u32_pow2. by apply u64_mod. Qed.
Lemma u32_u32 x : u32 (u32 x) = u32 x.
Proof. apply Zmod_mod. Qed.
Lemma i32_u32 x : i32 (u32 x) = i32 x.
Proof. apply sread_congr. apply u32_mod. lia. Qed.

Lemma is_u64_u32 x : is_u64 (u32 x).
Proof. pose proof (u32_range x). unfold is_u64. lia. Qed.
#[export] Hint Resolve is_u64_u32 u32_range : vgpu.

Lemma u32_bitop (f : Z → Z → Z) (g : bool → bool → bool) a b :
  (∀ a b i, Z.testbit (f a b) i = g (Z.testbit a i) (Z.testbit b i)) → g false false = false →
  u32 (f a b) = f (u32 a) (u32 b).
Proof.
  intros Hf Hg. rewrite !u32_pow2. apply Z.bits_inj'. intros i Hi. destruct (Z.lt_ge_cases i 32).
  - by rewrite !Z.mod_pow2_bits_low, !Hf, !Z.mod_pow2_bits_low by lia.
  - rewrite Hf, !Z.mod_pow2_bits_high by lia. done.
Qed.

Lemma u32_congr_op (f : Z → Z → Z) a b :
  (∀ a b x y, a mod 2 ^ 32 = x mod 2 ^ 32 → b mod 2 ^ 32 = y mod 2 ^ 32 →
     f a b mod 2 ^ 32 = f x y mod 2 ^ 32) →
  u32 (u64 (f a b)) = u32 (f (u32 a) (u32 b)).
Proof.
  intros Hf. rewrite u32_u64. rewrite !(u32_pow2 (f _ _)).
  apply Hf; symmetry; apply u32_mod; lia.
Qed.

Lemma minus_one_32 b : is_u64 b → (i32 b =? -1) = (u32 b =? 4294967295).
Proof.
  intros Hb. apply eq_true_iff_eq. rewrite !Z.eqb_eq. unfold i32, sread. rewrite <- u32_pow2.
  pose proof (u32_range b). case_if; change (2 ^ 32) with 4294967296 in *; change (2 ^ (32 - 1)) with 2147483648 in *; lia.
Qed.

Lemma int_bin32_is op ty a b : bits ty = 32 → is_u64 a → is_u64 b →
  u32 <$> int_bin false op ty a b = Some (int_bin32 op (is_signed ty) (u32 a) (u32 b)).
Proof.
  intros H32 Ha Hb. unfold int_bin, int_bin32. rewrite !H32.
  rewrite !narrow_u_mod, !narrow_s_sread by (done || lia).
  change (sread 32) with i32. rewrite !i32_u32, <- !u32_pow2.
  pose proof (u32_range a). pose proof (u32_range b).
  destruct op; simpl.
  - f_equal. apply u32_congr_op, add_congr.
  - f_equal. apply u32_congr_op, sub_congr.
  - f_equal. apply u32_congr_op, mul_congr.
  - f_equal. case_if; [by rewrite u32_u64|rewrite u32_small by lia; done].
  - f_equal. case_if; [by rewrite u32_u64|rewrite u32_small by lia; done].
  - destruct (u32 b =? 0); [done|]. simpl. rewrite minus_one_32 by done.
    destruct (is_signed ty); simpl.
    + case_if; simpl; f_equal; [|by rewrite u32_u64].
      rewrite u32_u64, !u32_pow2. apply sub_congr; [done|].
      rewrite u64_mod, Zmod_mod by lia. by apply sread_mod.
    + f_equal. apply u32_small. pose proof (Z.quot_pos (u32 a) (u32 b)).
      destruct (Z.eq_dec (u32 b) 0) as [->|]; [by destruct (u32 a)|].
      pose proof (Z.quot_le_upper_bound (u32 a) (u32 b) (u32 a)). nia.
  - destruct (u32 b =? 0) eqn:E0; [done|]. simpl. rewrite minus_one_32 by done.
    destruct (is_signed ty); simpl.
    + case_if; simpl; f_equal; by rewrite u32_u64.
    + f_equal. apply u32_small. zify_bool. pose proof (Z.rem_bound_pos (u32 a) (u32 b)). lia.
  - f_equal. by apply (u32_bitop Z.land andb); [apply Z.land_spec|].
  - f_equal. by apply (u32_bitop Z.lor orb); [apply Z.lor_spec|].
  - f_equal. by apply (u32_bitop Z.lxor xorb); [apply Z.lxor_spec|].
  - f_equal. case_if; [done|]. rewrite u32_u64, !Z.shiftl_mul_pow2, !(u32_pow2 (_ * _)) by lia.
    apply mul_congr; [|done]. symmetry. apply u32_mod. lia.
  - destruct (is_signed ty); simpl; f_equal; case_if; rewrite ?u32_u64; try done.
    apply u32_small. rewrite Z.shiftr_div_pow2 by lia. pose proof (pow2_pos (u32 b)).
    pose proof (Z.div_pos (u32 a) (2 ^ u32 b)).
    pose proof (Z.div_le_upper_bound (u32 a) (2 ^ u32 b) (u32 a)). nia.
Qed.

Lemma int_bin64_is op ty a b strict : bits ty = 64 → op ≠ Div → op ≠ Rem →
  int_bin strict op ty a b = int_bin64 op (is_signed ty) a b.
Proof.
  intros H64 ? ?. unfold int_bin, int_bin64, narrow_s, narrow_u. rewrite !H64. simpl.
  destruct op; try done. destruct (is_signed ty); [|done]. by case_if.
Qed.

Lemma land_65535 x : Z.land x 65535 = x mod 2 ^ 16.
Proof. apply (land_pow2_mod x 16). lia. Qed.

Lemma int_bin16_is op ty x y strict : bits ty = 16 → op ≠ Div → op ≠ Rem →
  0 ≤ x < 2 ^ 32 → 0 ≤ y < 2 ^ 32 →
  (λ r, r mod 2 ^ 16) <$> int_bin strict op ty x y =
  (λ r, r mod 2 ^ 16) <$> int_bin16 op (is_signed ty) x y.
Proof.
  intros H16 ? ? Hx Hy. unfold int_bin, int_bin16. rewrite !H16, !land_65535.
  rewrite !narrow_u_mod, !narrow_s_sread by (unfold is_u64; lia). rewrite (u32_small y) by lia.
  destruct op; simpl; try done; try apply (f_equal Some).
  all: try (rewrite (u64_mod _ 16), (u32_mod _ 16) by lia; done).
  1-2: case_if; [by rewrite (u64_mod _ 16), (u32_mod _ 16) by lia|done].
  - case_if; [done|by rewrite (u64_mod _ 16), (u32_mod _ 16) by lia].
  - destruct (is_signed ty); simpl; [|done]. apply (f_equal Some). case_if; by rewrite (u64_mod _ 16), (u32_mod _ 16) by lia.
Qed.

Lemma setp32_is cmp ty a b r : bits ty = 32 → is_u64 a → is_u64 b →
  setp32 cmp (is_signed ty) (u32 a) (u32 b) = Some r → compare cmp ty a b = r.
Proof.
  intros H32 Ha Hb. unfold setp32, compare. rewrite H32.
  rewrite !narrow_u_mod, !narrow_s_sread by (done || lia). rewrite !i32_u32.
  destruct cmp, (is_signed ty); intros [= <-]; done.
Qed.

Lemma setp64_is cmp ty a b r : bits ty = 64 →
  setp64 cmp (is_signed ty) a b = Some r → compare cmp ty a b = r.
Proof.
  intros H64. unfold setp64, compare, narrow_s, narrow_u. rewrite H64.
  destruct cmp, (is_signed ty); intros [= <-]; done.
Qed.

(** The loops of the fast paths compute what the general int_bin does: the
    32-bit loop its low 32 bits whatever is above them in the operands (division
    by zero and the quotient that does not fit included), the 64-bit loop the
    same word, the 16-bit loop the same low 16 bits. *)
Theorem fast_loops_are_int_bin op ty a b :
  is_u64 a → is_u64 b →
  (bits ty = 32 →
    u32 <$> int_bin false op ty a b = Some (int_bin32 op (is_signed ty) (u32 a) (u32 b))) ∧
  (∀ r, bits ty = 64 → int_bin64 op (is_signed ty) a b = Some r → int_bin false op ty a b = Some r) ∧
  (∀ r, bits ty = 16 → a < 2 ^ 32 → b < 2 ^ 32 → int_bin16 op (is_signed ty) a b = Some r →
    ∃ r', int_bin false op ty a b = Some r' ∧ r' mod 2 ^ 16 = r mod 2 ^ 16).
Proof.
  intros Ha Hb. split_and!.
  - intros. by apply int_bin32_is.
  - intros r H64 Hr. rewrite int_bin64_is; [done|done|by intros ->..].
  - intros r H16 ? ? Hr.
    assert (op ≠ Div ∧ op ≠ Rem) as [? ?] by (split; by intros ->).
    unfold is_u64 in *. pose proof (int_bin16_is op ty a b false H16 ltac:(done) ltac:(done) ltac:(lia) ltac:(lia)) as E.
    rewrite Hr in E. destruct (int_bin false op ty a b) as [r'|]; [|done].
    exists r'. split; [done|]. by injection E.
Qed.

Lemma fast_loops_are_int_bin_witness :
  (bits (mkTy KS 32) = 32 →
    u32 <$> int_bin false Div (mkTy KS 32) 18446744071562067968 4294967295 =
    Some (int_bin32 Div true (u32 18446744071562067968) (u32 4294967295))) ∧
  int_bin32 Div true (u32 18446744071562067968) (u32 4294967295) = 2147483648.
Proof.
  split; [|done].
  apply (fast_loops_are_int_bin Div (mkTy KS 32) 18446744071562067968 4294967295); unfold is_u64; lia.
Defined.

(** ** Products, fields and shifts *)

Lemma mask_to_bits_u64 v n : is_u64 v → 0 ≤ n ≤ 64 → mask_to_bits v n = v mod 2 ^ n.
Proof. apply narrow_u_mod. Qed.

Lemma div_mod_pow2 p n k : 0 ≤ n → 0 ≤ k → (p mod 2 ^ (n + k)) / 2 ^ n = (p / 2 ^ n) mod 2 ^ k.
Proof.
  intros. apply Z.bits_inj'. intros i Hi. rewrite Z.div_pow2_bits by lia.
  destruct (Z.lt_ge_cases i k).
  - rewrite !Z.mod_pow2_bits_low, Z.div_pow2_bits by lia. done.
  - rewrite !Z.mod_pow2_bits_high by lia. done.
Qed.

(** C34: mul_hi is the high half of the product of its operands, read at their
    width and signedness: no intermediate of it wraps. *)
Theorem mul_hi_correct ty a b :
  1 ≤ bits ty ≤ 32 ∨ bits ty = 64 → is_u64 a → is_u64 b →
  mul_hi ty a b = (Math.value ty a * Math.value ty b / 2 ^ bits ty) mod 2 ^ bits ty.
Proof.
  intros Hn Ha Hb. unfold mul_hi, Math.value.
  destruct (Z.eqb_spec (bits ty) 64) as [E|E].
  - rewrite E. rewrite (Z.mod_small a), (Z.mod_small b) by (unfold is_u64 in *; lia).
    destruct (is_signed ty); rewrite Z.shiftr_div_pow2, u64_pow2 by lia; [|done].
    change (2 ^ 128) with (2 ^ (64 + 64)). rewrite div_mod_pow2 by lia. apply Zmod_mod.
  - destruct (is_signed ty).
    + rewrite !sign_extend_sread by (done || lia).
      rewrite !i64_u64 by (apply sread_i64_range; lia).
      rewrite mask_to_bits_u64, u64_mod, Z.shiftr_div_pow2 by (apply u64_range || lia). done.
    + rewrite !(mask_to_bits_u64 a), !(mask_to_bits_u64 b) by (done || lia).
      pose proof (Z.mod_pos_bound a (2 ^ bits ty) (pow2_pos (bits ty) ltac:(lia))).
      pose proof (Z.mod_pos_bound b (2 ^ bits ty) (pow2_pos (bits ty) ltac:(lia))).
      assert (2 ^ bits ty ≤ 2 ^ 32) by (apply Z.pow_le_mono_r; lia).
      assert (is_u64 (a mod 2 ^ bits ty * (b mod 2 ^ bits ty))).
      { unfold is_u64. change 18446744073709551616 with (2 ^ 32 * 2 ^ 32). nia. }
      rewrite u64_small, Z.shiftr_div_pow2 by (done || lia).
      apply mask_to_bits_u64; [|lia]. unfold is_u64 in *. pose proof (pow2_pos (bits ty)).
      split; [apply Z.div_pos; lia|]. apply Z.div_lt_upper_bound; nia.
Qed.

Lemma mul_hi_correct_witness :
  mul_hi (mkTy KS 64) 9223372036854775808 9223372036854775807 =
    (Math.value (mkTy KS 64) 9223372036854775808 * Math.value (mkTy KS 64) 9223372036854775807 / 2 ^ 64) mod 2 ^ 64.
Proof. apply (mul_hi_correct (mkTy KS 64)); [by right|unfold is_u64; lia..]. Defined.

Lemma field_land ty v : Z.land (u32 v) (if bits ty =? 64 then 4294967295 else 255) = Math.field ty v.
Proof.
  unfold Math.field. case_if.
  - change 4294967295 with (2 ^ 32 - 1). rewrite land_pow2_mod by lia. apply u32_u32.
  - change 255 with (2 ^ 8 - 1). by rewrite land_pow2_mod by lia.
Qed.

Lemma field_nonneg ty v : 0 ≤ Math.field ty v.
Proof. unfold Math.field. pose proof (u32_range v). case_if; [lia|]. apply Z.mod_pos_bound. lia. Qed.

Lemma mask_to_bits_testbit v n i : 0 ≤ n ≤ 64 → 0 ≤ i < n → Z.testbit (mask_to_bits v n) i = Z.testbit v i.
Proof.
  intros Hn Hi. unfold mask_to_bits. case_if; [done|].
  rewrite shiftl_1_pow2, land_pow2_mod, Z.mod_pow2_bits_low by lia. done.
Qed.

Lemma ones_below_ones len : 0 ≤ len ≤ 64 → ones_below len = Z.ones len.
Proof.
  intros. unfold ones_below. case_if.
  - by replace len with 64 by lia.
  - rewrite shiftl_1_pow2, Z.ones_equiv by lia. lia.
Qed.

Lemma testbit_ones' n i : 0 ≤ n → 0 ≤ i → Z.testbit (Z.ones n) i = (i <? n).
Proof.
  intros. destruct (Z.ltb_spec i n); [apply Z.ones_spec_low; lia|apply Z.ones_spec_high; lia].
Qed.

Lemma unot_testbit x i : 0 ≤ i < 64 → Z.testbit (unot x) i = negb (Z.testbit x i).
Proof. intros. unfold unot. rewrite u64_pow2, Z.mod_pow2_bits_low, Z.lnot_spec by lia. done. Qed.

Lemma u64_testbit x i : 0 ≤ i < 64 → Z.testbit (u64 x) i = Z.testbit x i.
Proof. intros. rewrite u64_pow2, Z.mod_pow2_bits_low by lia. done. Qed.

Lemma bfe_isa ty a p l i : bits ty = 32 ∨ bits ty = 64 → 0 ≤ i < bits ty →
  Z.testbit (bfe ty a p l) i = Math.bfe_bit ty a p l i.
Proof.
  intros Hn Hi. unfold bfe, Math.bfe_bit. rewrite !field_land.
  pose proof (field_nonneg ty p). pose proof (field_nonneg ty l).
  generalize dependent (Math.field ty p). generalize dependent (Math.field ty l). intros len Hl pos Hp.
  destruct (Z.leb_spec (bits ty) pos); simpl.
  - replace (pos + i <=? bits ty - 1) with false by (symmetry; apply Z.leb_gt; lia). rewrite andb_false_r.
    destruct (Z.eqb_spec len 0) as [->|]; [by rewrite orb_true_r, andb_false_r, Z.bits_0|].
    rewrite orb_false_r, andb_true_r. rewrite Z.min_r by lia.
    destruct (is_signed ty); simpl; [|by rewrite Z.bits_0].
    change 1 with (2 ^ 0) at 2. rewrite land_pow2_testbit, Z.shiftr_spec, Z.add_0_l by lia.
    destruct (Z.testbit a (bits ty - 1)); simpl; [|by rewrite Z.bits_0].
    rewrite mask_to_bits_testbit, unot_testbit, Z.bits_0 by lia. done.
  - destruct (Z.eqb_spec len 0) as [->|]; simpl.
    { replace (i <? 0) with false by (symmetry; apply Z.ltb_ge; lia).
      by rewrite orb_true_r, andb_false_r, Z.bits_0. }
    rewrite mask_to_bits_testbit by lia.
    set (len' := if bits ty - pos <? len then bits ty - pos else len).
    assert (Hlen' : 0 < len' ≤ 64 ∧ len' = len `min` (bits ty - pos)) by (unfold len'; case_if; lia).
    rewrite !ones_below_ones by lia. replace ((pos + len - 1) `min` (bits ty - 1)) with (pos + (len' - 1)) by lia.
    assert (HF : ∀ j, 0 ≤ j → Z.testbit (Z.land (Z.shiftr a pos) (Z.ones len')) j = Z.testbit a (pos + j) && (j <? len')).
    { intros j Hj. rewrite Z.land_spec, Z.shiftr_spec, testbit_ones' by lia. do 2 f_equal. lia. }
    replace ((i <? len) && (pos + i <=? bits ty - 1)) with (i <? len') by (bool_cases; symmetry; bool_cases).
    rewrite shiftl_1_pow2, land_pow2_testbit, negb_involutive, HF by lia.
    replace (len' - 1 <? len') with true by (symmetry; apply Z.ltb_lt; lia). rewrite !andb_true_r.
    destruct (Z.ltb_spec len' 64) as [|].
    + rewrite andb_true_r. destruct (is_signed ty && Z.testbit a (pos + (len' - 1))) eqn:E.
      * rewrite Z.lor_spec, HF, shiftl_1_pow2, unot_testbit by lia.
         replace (2 ^ len' - 1) with (Z.ones len') by (rewrite Z.ones_equiv; lia). rewrite testbit_ones' by lia.
         case_if; simpl; [by rewrite andb_true_r, orb_false_r|]. by rewrite andb_false_r.
      * rewrite HF by lia. case_if; [by rewrite andb_true_r|by rewrite andb_false_r].
    + rewrite andb_false_r; simpl. rewrite HF by lia.
      replace (i <? len') with true by (symmetry; apply Z.ltb_lt; lia). by rewrite andb_true_r.
Qed.

Lemma bfi_isa ty a b p l i : bits ty = 32 ∨ bits ty = 64 → 0 ≤ i < bits ty →
  Z.testbit (bfi ty a b p l) i = Math.bfi_bit ty a b p l i.
Proof.
  intros Hn Hi. unfold bfi, Math.bfi_bit. rewrite !field_land.
  pose proof (field_nonneg ty p). pose proof (field_nonneg ty l).
  generalize dependent (Math.field ty p). generalize dependent (Math.field ty l). intros len Hl pos Hp.
  destruct (Z.leb_spec (bits ty) pos); simpl.
  - rewrite mask_to_bits_testbit by lia.
    replace (pos <=? i) with false by (symmetry; apply Z.leb_gt; lia). done.
  - destruct (Z.eqb_spec len 0) as [->|]; simpl.
    { rewrite mask_to_bits_testbit by lia. bool_cases; done. }
    set (len' := if bits ty - pos <? len then bits ty - pos else len).
    assert (Hlen' : 0 < len' ≤ 64 ∧ len' = len `min` (bits ty - pos)) by (unfold len'; case_if; lia).
    rewrite mask_to_bits_testbit, Z.lor_spec, !Z.land_spec, unot_testbit, !u64_testbit by lia.
    rewrite ones_below_ones by lia. rewrite !Z.shiftl_spec by lia.
    destruct (Z.leb_spec pos i); simpl.
    + rewrite testbit_ones' by lia.
      replace (i <? pos + len) with (i - pos <? len') by (bool_cases; symmetry; bool_cases).
      case_if; simpl; [by rewrite andb_false_r, andb_true_r|by rewrite andb_true_r, andb_false_r, orb_false_r].
    + rewrite !(Z.testbit_neg_r _ (i - pos)) by lia. simpl. by rewrite andb_true_r, orb_false_r.
Qed.



(** ** Carry chains *)

Lemma carry_sum n x y cin : 0 ≤ n ≤ 64 → 0 ≤ x < 2 ^ n → 0 ≤ y < 2 ^ n → 0 ≤ cin ≤ 1 →
  let sum := mask_to_bits (u64 (x + y + cin)) n in
  sum + 2 ^ n * Z.b2z ((sum <? x) || (negb (cin =? 0) && (sum =? x))) = x + y + cin ∧ 0 ≤ sum < 2 ^ n.
Proof.
  intros Hn Hx Hy Hc sum.
  assert (E : sum = (x + y + cin) mod 2 ^ n).
  { unfold sum. rewrite mask_to_bits_u64 by (apply u64_range || lia). by apply u64_mod. }
  pose proof (Z.mod_pos_bound (x + y + cin) (2 ^ n) (pow2_pos n ltac:(lia))) as Hb. rewrite <- E in Hb.
  clearbody sum. destruct (Z.lt_ge_cases (x + y + cin) (2 ^ n)).
  - rewrite Z.mod_small in E by lia.
    destruct (Z.ltb_spec sum x), (Z.eqb_spec cin 0), (Z.eqb_spec sum x); simpl; lia.
  - assert (sum = x + y + cin - 2 ^ n) as ->.
    { rewrite E. symmetry. apply (Z.mod_unique_pos _ _ 1); lia. }
    destruct (Z.ltb_spec (x + y + cin - 2 ^ n) x), (Z.eqb_spec cin 0), (Z.eqb_spec (x + y + cin - 2 ^ n) x);
      simpl; lia.
Qed.

Lemma mask_unot b n : is_u64 b → 0 ≤ n ≤ 64 → mask_to_bits (unot b) n = 2 ^ n - 1 - b mod 2 ^ n.
Proof.
  intros Hb Hn. rewrite mask_to_bits_u64 by (apply u64_range || lia). unfold unot.
  rewrite u64_mod by lia. unfold Z.lnot.
  pose proof (Z.mod_pos_bound b (2 ^ n) (pow2_pos n ltac:(lia))).
  pose proof (Z.div_mod b (2 ^ n)) as E. pose proof (pow2_pos n ltac:(lia)).
  symmetry. apply (Z.mod_unique_pos _ _ (- (b / 2 ^ n) - 1)); [lia|]. specialize (E ltac:(lia)). nia.
Qed.

(** The multi-word number whose words, least significant first, are the low [n]
    bits of the entries. *)
Fixpoint words (n : Z) (l : list Z) : Z :=
  match l with
  | [] => 0
  | d :: l => d mod 2 ^ n + 2 ^ n * words n l
  end.

(** The instruction sequence that adds or subtracts two such numbers: add.cc (or
    sub.cc), then addc.cc (or subc.cc) for every further word; the carry bit goes
    from one to the next. *)
Fixpoint add_sub_chain (n : Z) (sub first carry : bool) (a b : list Z) : list Z * bool :=
  match a, b with
  | x :: a, y :: b =>
      let '(s, carry) := carry_add_sub n sub (negb first) true carry x y in
      let '(r, carry) := add_sub_chain n sub false carry a b in
      (s :: r, carry)
  | _, _ => ([], carry)
  end.

(** mad.lo.cc, then madc.lo.cc: products added to an accumulator word by word. *)
Fixpoint mad_chain (n : Z) (first carry : bool) (p c : list Z) : list Z * bool :=
  match p, c with
  | x :: p, y :: c =>
      let '(s, carry) := carry_mad n (negb first) true carry x y in
      let '(r, carry) := mad_chain n false carry p c in
      (s :: r, carry)
  | _, _ => ([], carry)
  end.

Lemma words_mod n l : 0 ≤ n → 0 ≤ words n l < 2 ^ (n * Z.of_nat (length l)).
Proof.
  intros Hn. pose proof (pow2_pos n Hn). induction l as [|d l IH]; simpl words; simpl length; [lia|].
  replace (n * Z.of_nat (S (length l))) with (n + n * Z.of_nat (length l)) by lia.
  rewrite Z.pow_add_r by lia. pose proof (Z.mod_pos_bound d (2 ^ n) ltac:(lia)). nia.
Qed.

Lemma carry_add_sub_spec n sub ci carry x y : 1 ≤ n ≤ 64 → is_u64 x → is_u64 y →
  let '(s, c) := carry_add_sub n sub ci true carry x y in
  s + 2 ^ n * Z.b2z c =
    x mod 2 ^ n + (if sub then 2 ^ n - 1 - y mod 2 ^ n else y mod 2 ^ n) +
    (if ci then Z.b2z carry else Z.b2z sub) ∧
  0 ≤ s < 2 ^ n.
Proof.
  intros Hn Hx Hy. unfold carry_add_sub.
  pose proof (Z.mod_pos_bound x (2 ^ n) (pow2_pos n ltac:(lia))).
  pose proof (Z.mod_pos_bound y (2 ^ n) (pow2_pos n ltac:(lia))).
  rewrite (mask_to_bits_u64 x), (mask_to_bits_u64 y), mask_unot by (done || lia).
  apply carry_sum; [lia|lia|destruct sub; lia|destruct ci, carry, sub; simpl; lia].
Qed.

Lemma carry_mad_spec n ci carry p c : 1 ≤ n ≤ 64 → is_u64 p → is_u64 c →
  let '(s, co) := carry_mad n ci true carry p c in
  s + 2 ^ n * Z.b2z co = p mod 2 ^ n + c mod 2 ^ n + (if ci then Z.b2z carry else 0) ∧ 0 ≤ s < 2 ^ n.
Proof.
  intros Hn Hx Hy. unfold carry_mad. rewrite (mask_to_bits_u64 p), (mask_to_bits_u64 c) by (done || lia).
  apply carry_sum; [lia|apply Z.mod_pos_bound, pow2_pos; lia..|destruct ci, carry; simpl; lia].
Qed.

Lemma add_sub_chain_spec n sub first carry a b :
  1 ≤ n ≤ 64 → length a = length b → Forall is_u64 a → Forall is_u64 b →
  let '(r, c) := add_sub_chain n sub first carry a b in
  length r = length a ∧
  words n r + 2 ^ (n * Z.of_nat (length a)) * Z.b2z c =
    words n a + (if sub then 2 ^ (n * Z.of_nat (length a)) - 1 - words n b else words n b) +
    (if first && negb (bool_decide (a = [])) then Z.b2z sub else Z.b2z carry).
Proof.
  intros Hn. revert first carry b. induction a as [|x a IH]; intros first carry b Hl Ha Hb.
  { destruct b; [|done]. simpl. rewrite andb_false_r, Z.mul_0_r. destruct sub; simpl; split; (done || lia). }
  destruct b as [|y b]; [done|]. inversion Ha; inversion Hb; subst.
  cbn [add_sub_chain length words]. rewrite bool_decide_eq_false_2, andb_true_r by done.
  pose proof (carry_add_sub_spec n sub (negb first) carry x y) as HS.
  destruct (carry_add_sub n sub (negb first) true carry x y) as [s c1]. destruct HS as [HS HB]; [done..|].
  specialize (IH false c1 b). rewrite andb_false_l in IH.
  destruct (add_sub_chain n sub false c1 a b) as [r c]. destruct IH as [Hr IH]; [simpl in Hl; lia|done..|].
  split; [simpl; lia|]. cbn [words].
  replace (n * Z.of_nat (S (length a))) with (n + n * Z.of_nat (length a)) by lia.
  rewrite Z.pow_add_r by lia. rewrite (Z.mod_small _ _ HB).
  apply (f_equal (Z.mul (2 ^ n))) in IH. destruct sub, first; simpl in *; lia.
Qed.

(** C36: chained add.cc/addc.cc computes the exact sum of two numbers of any
    number of words, with the carry out of the top word; chained sub.cc/subc.cc
    the difference, the final carry clear exactly when it borrowed. *)
Theorem carry_chain_exact n a b carry :
  1 ≤ n ≤ 64 → length a = length b → a ≠ [] → Forall is_u64 a → Forall is_u64 b →
  (let '(r, c) := add_sub_chain n false true carry a b in
   words n r + 2 ^ (n * Z.of_nat (length a)) * Z.b2z c = words n a + words n b) ∧
  (let '(r, c) := add_sub_chain n true true carry a b in
   words n r - 2 ^ (n * Z.of_nat (length a)) * Z.b2z (negb c) = words n a - words n b ∧
   (c = true ↔ words n b ≤ words n a)).
Proof.
  intros Hn Hl Hne Ha Hb. pose proof (words_mod n b ltac:(lia)) as HB. rewrite <- Hl in HB.
  split.
  - pose proof (add_sub_chain_spec n false true carry a b Hn Hl Ha Hb) as H.
    destruct (add_sub_chain n false true carry a b) as [r c]. cbv beta iota zeta in H.
    rewrite bool_decide_eq_false_2 in H by done. simpl in H. lia.
  - pose proof (add_sub_chain_spec n true true carry a b Hn Hl Ha Hb) as H.
    destruct (add_sub_chain n true true carry a b) as [r c]. cbv beta iota zeta in H. destruct H as [Hr H].
    rewrite bool_decide_eq_false_2 in H by done. simpl in H.
    pose proof (words_mod n r ltac:(lia)) as HR. rewrite Hr in HR.
    destruct c; simpl in *; split; try lia; split; intros; lia || done.
Qed.

Lemma carry_chain_exact_witness :
  (let '(r, c) := add_sub_chain 32 false true false [4294967295; 4294967295] [1; 0] in
   words 32 r + 2 ^ (32 * 2) * Z.b2z c = words 32 [4294967295; 4294967295] + words 32 [1; 0]) ∧
  (let '(r, c) := add_sub_chain 32 true true false [4294967295; 4294967295] [1; 0] in
   words 32 r - 2 ^ (32 * 2) * Z.b2z (negb c) = words 32 [4294967295; 4294967295] - words 32 [1; 0] ∧
   (c = true ↔ words 32 [1; 0] ≤ words 32 [4294967295; 4294967295])).
Proof.
  apply (carry_chain_exact 32 [4294967295; 4294967295] [1; 0] false); try done; repeat constructor; try done; lia.
Defined.

(** mad.lo.cc and madc.lo.cc: one number added to another, word by word. *)
Lemma mad_chain_spec n first carry p c :
  1 ≤ n ≤ 64 → length p = length c → Forall is_u64 p → Forall is_u64 c →
  let '(r, co) := mad_chain n first carry p c in
  length r = length p ∧
  words n r + 2 ^ (n * Z.of_nat (length p)) * Z.b2z co =
    words n p + words n c + (if first && negb (bool_decide (p = [])) then 0 else Z.b2z carry).
Proof.
  intros Hn. revert first carry c. induction p as [|x p IH]; intros first carry c Hl Ha Hb.
  { destruct c; [|done]. simpl. rewrite andb_false_r, Z.mul_0_r. split; (done || lia). }
  destruct c as [|y c]; [done|]. inversion Ha; inversion Hb; subst.
  cbn [mad_chain length words]. rewrite bool_decide_eq_false_2, andb_true_r by done.
  pose proof (carry_mad_spec n (negb first) carry x y) as HS.
  destruct (carry_mad n (negb first) true carry x y) as [s c1]. destruct HS as [HS HB]; [done..|].
  specialize (IH false c1 c). rewrite andb_false_l in IH.
  destruct (mad_chain n false c1 p c) as [r co]. destruct IH as [Hr IH]; [simpl in Hl; lia|done..|].
  split; [simpl; lia|]. cbn [words].
  replace (n * Z.of_nat (S (length p))) with (n + n * Z.of_nat (length p)) by lia.
  rewrite Z.pow_add_r by lia. rewrite (Z.mod_small _ _ HB).
  apply (f_equal (Z.mul (2 ^ n))) in IH. destruct first; simpl in *; lia.
Qed.

(** ** Counting bits *)

(** The number of set bits among the lowest [n]. *)
Fixpoint bit_count (n : nat) (x : Z) : Z :=
  match n with
  | O => 0
  | S n => Z.b2z (Z.odd x) + bit_count n (x / 2)
  end.

(** A word as its bytes, least significant first. *)
Fixpoint of_bytes (l : list Z) : Z :=
  match l with
  | [] => 0
  | b :: l => b + 256 * of_bytes l
  end.

Fixpoint to_bytes (n : nat) (x : Z) : list Z :=
  match n with
  | O => []
  | S n => x mod 256 :: to_bytes n (x / 256)
  end.

Lemma of_to_bytes n x : 0 ≤ x < 2 ^ (8 * Z.of_nat n) → of_bytes (to_bytes n x) = x.
Proof.
  revert x. induction n as [|n IH]; intros x Hx; simpl of_bytes; [simpl in Hx; lia|].
  assert (2 ^ (8 * Z.of_nat (S n)) = 256 * 2 ^ (8 * Z.of_nat n)).
  { replace (8 * Z.of_nat (S n)) with (8 + 8 * Z.of_nat n) by lia. by rewrite Z.pow_add_r by lia. }
  rewrite IH; [rewrite (Z.div_mod x 256) at 3 by lia; lia|].
  split; [apply Z.div_pos; lia|]. apply Z.div_lt_upper_bound; lia.
Qed.

Lemma to_bytes_bytes n x : Forall is_byte (to_bytes n x).
Proof.
  revert x. induction n; intros x; constructor; [|done]. apply Z.mod_pos_bound. lia.
Qed.

Lemma length_to_bytes n x : length (to_bytes n x) = n.
Proof. revert x. induction n; intros; simpl; auto. Qed.

Lemma land_byte b c x y : is_byte b → is_byte c →
  Z.land (b + 256 * x) (c + 256 * y) = Z.land b c + 256 * Z.land x y.
Proof.
  unfold is_byte. intros Hb Hc. change 256 with (2 ^ 8) in *.
  assert (HL : 0 ≤ Z.land b c < 2 ^ 8).
  { rewrite <- (Z.mod_small b (2 ^ 8)), <- (land_pow2_mod b 8), <- Z.land_assoc, (Z.land_comm (2 ^ 8 - 1)),
      Z.land_assoc, land_pow2_mod by lia. apply Z.mod_pos_bound. lia. }
  rewrite <- !(lor_shiftl_add _ _ 8) by lia. apply Z.bits_inj'. intros i Hi.
  rewrite !Z.land_spec, !Z.lor_spec, !Z.land_spec, !Z.shiftl_spec, Z.land_spec by lia.
  destruct (Z.lt_ge_cases i 8).
  - rewrite !(Z.testbit_neg_r _ (i - 8)) by lia. by rewrite !orb_false_r.
  - rewrite <- (Z.mod_small b (2 ^ 8)), <- (Z.mod_small c (2 ^ 8)) by lia.
    rewrite !Z.mod_pow2_bits_high by lia. done.
Qed.

(** The three steps of the count, on a word's bytes. *)
Definition pop_byte1 (b : Z) : Z := b - Z.land (Z.shiftr b 1) 85.
Definition pop_byte2 (b : Z) : Z := Z.land b 51 + Z.land (Z.shiftr b 2) 51.
Definition pop_byte3 (b : Z) : Z := Z.land (b + Z.shiftr b 4) 15.

Lemma pop_byte_facts : Forall (λ b,
  0 ≤ Z.land (Z.shiftr b 1) 85 ≤ b ∧ is_byte (pop_byte1 b) ∧ is_byte (pop_byte2 (pop_byte1 b)) ∧
  pop_byte2 (pop_byte1 b) + Z.shiftr (pop_byte2 (pop_byte1 b)) 4 < 256 ∧
  Z.land (pop_byte2 (pop_byte1 b)) 15 ≤ 4 ∧ Z.shiftr (pop_byte2 (pop_byte1 b)) 4 ≤ 4 ∧
  pop_byte3 (pop_byte2 (pop_byte1 b)) = bit_count 8 b ∧ 0 ≤ bit_count 8 b ≤ 8 ∧
  pop_byte3 (pop_byte2 (pop_byte1 b)) = Z.land (pop_byte2 (pop_byte1 b)) 15 + Z.shiftr (pop_byte2 (pop_byte1 b)) 4)
  (seqZ 0 256).
Proof. apply (bool_decide_eq_true_1 _). vm_compute. reflexivity. Qed.

Lemma byte_in b : is_byte b → b ∈ seqZ 0 256.
Proof. unfold is_byte. intros. apply elem_of_seqZ. lia. Qed.

(** A mask of equal bytes takes a shifted word byte by byte, when the byte of the
    mask leaves out the bits that come in from the next byte. *)
Lemma shift_mask_byte k c b x y : 0 ≤ k ≤ 8 → is_byte b → is_byte c → c < 2 ^ (8 - k) → 0 ≤ x →
  Z.land (Z.shiftr (b + 256 * x) k) (c + 256 * y) =
  Z.land (Z.shiftr b k) c + 256 * Z.land (Z.shiftr x k) y.
Proof.
  unfold is_byte. intros Hk Hb Hc Hck Hx.
  assert (Hp : 256 = 2 ^ (8 - k) * 2 ^ k) by (rewrite <- Z.pow_add_r by lia; change 256 with (2 ^ 8); f_equal; lia).
  assert (0 < 2 ^ k) by (apply pow2_pos; lia). assert (0 < 2 ^ (8 - k)) by (apply pow2_pos; lia).
  set (s := Z.shiftr b k + 2 ^ (8 - k) * (x mod 2 ^ k)).
  assert (E : Z.shiftr (b + 256 * x) k = s + 256 * Z.shiftr x k).
  { unfold s. rewrite !Z.shiftr_div_pow2 by lia. rewrite Hp at 1.
    replace (b + 2 ^ (8 - k) * 2 ^ k * x) with (b + (2 ^ (8 - k) * x) * 2 ^ k) by ring.
    rewrite Z.div_add by lia. rewrite (Z.div_mod x (2 ^ k)) at 1 by lia. rewrite Hp. ring. }
  assert (Hq : 0 ≤ Z.shiftr b k < 2 ^ (8 - k)).
  { rewrite Z.shiftr_div_pow2 by lia. split; [apply Z.div_pos; lia|]. apply Z.div_lt_upper_bound; lia. }
  pose proof (Z.mod_pos_bound x (2 ^ k) ltac:(lia)).
  assert (is_byte s) by (unfold is_byte, s; nia).
  rewrite E, land_byte by done. f_equal. unfold s.
  rewrite <- (lor_shiftl_add _ _ (8 - k)) by lia. apply Z.bits_inj'. intros i Hi.
  rewrite !Z.land_spec, Z.lor_spec, Z.shiftl_spec by lia. destruct (Z.lt_ge_cases i (8 - k)).
  - rewrite (Z.testbit_neg_r _ (i - (8 - k))) by lia. by rewrite orb_false_r.
  - rewrite <- (Z.mod_small c (2 ^ (8 - k))), (Z.mod_pow2_bits_high c) by lia. by rewrite !andb_false_r.
Qed.

Lemma of_bytes_nonneg l : Forall is_byte l → 0 ≤ of_bytes l.
Proof. induction 1 as [|b l Hb Hl IH]; simpl; [done|]. unfold is_byte in Hb. lia. Qed.

Lemma of_bytes_bound l : Forall is_byte l → of_bytes l < 2 ^ (8 * Z.of_nat (length l)).
Proof.
  induction 1 as [|b l Hb Hl IH]; simpl of_bytes; [done|]. unfold is_byte in Hb.
  simpl length. replace (8 * Z.of_nat (S (length l))) with (8 + 8 * Z.of_nat (length l)) by lia.
  rewrite Z.pow_add_r by lia. change (2 ^ 8) with 256. lia.
Qed.

Lemma land_shift_bytes k c l : 0 ≤ k ≤ 8 → is_byte c → c < 2 ^ (8 - k) → Forall is_byte l →
  Z.land (Z.shiftr (of_bytes l) k) (of_bytes (replicate (length l) c)) =
  of_bytes ((λ b, Z.land (Z.shiftr b k) c) <$> l).
Proof.
  intros Hk Hc Hck. induction 1 as [|b l Hb Hl IH]; [cbn; by rewrite Z.shiftr_0_l|]. simpl of_bytes.
  rewrite (shift_mask_byte k c b); [|done..|by apply of_bytes_nonneg]. rewrite IH. done.
Qed.

Lemma of_bytes_sub (f g : Z → Z) (l : list Z) : of_bytes ((λ b, f b - g b) <$> l) = of_bytes (f <$> l) - of_bytes (g <$> l).
Proof. induction l as [|b l IH]; [done|]. cbn [fmap list_fmap of_bytes] in *. lia. Qed.
Lemma of_bytes_add (f g : Z → Z) (l : list Z) : of_bytes ((λ b, f b + g b) <$> l) = of_bytes (f <$> l) + of_bytes (g <$> l).
Proof. induction l as [|b l IH]; [done|]. cbn [fmap list_fmap of_bytes] in *. lia. Qed.

Lemma land_15 x : Z.land x 15 = x mod 16.
Proof. apply (land_pow2_mod x 4). lia. Qed.

(** The third step: nibbles of at most 4 add without reaching the next. *)
Lemma add_nibbles l : Forall is_byte l →
  Forall (λ b, Z.land b 15 ≤ 4 ∧ Z.shiftr b 4 ≤ 4) l →
  Z.land (of_bytes l + Z.shiftr (of_bytes l) 4) (of_bytes (replicate (length l) 15)) =
  of_bytes (pop_byte3 <$> l).
Proof.
  intros Hl. induction Hl as [|b l Hb Hl IH]; intros HN; [done|].
  inversion HN as [|? ? [H1 H2] HN']; subst. cbn [length replicate fmap list_fmap of_bytes]. rewrite <- (IH HN').
  assert (Hm : 0 ≤ of_bytes l mod 16 ≤ 4).
  { destruct l as [|c l]; [done|]. cbn [of_bytes].
    replace (c + 256 * of_bytes l) with (c + 16 * of_bytes l * 16) by lia. rewrite Z.mod_add by lia.
    inversion HN' as [|? ? [H3 _] _]; subst. rewrite land_15 in H3.
    pose proof (Z.mod_pos_bound c 16). lia. }
  rewrite land_15 in H1. unfold is_byte in Hb. rewrite !Z.shiftr_div_pow2 in * by lia. change (2 ^ 4) with 16 in *.
  set (X := of_bytes l) in *. pose proof (of_bytes_nonneg l Hl).
  assert (E : (b + 256 * X) / 16 = b / 16 + 16 * (X mod 16) + 256 * (X / 16)).
  { replace (b + 256 * X) with (b + 16 * X * 16) by lia. rewrite Z.div_add by lia.
    pose proof (Z.div_mod X 16). lia. }
  rewrite E. pose proof (Z.div_mod b 16). pose proof (Z.mod_pos_bound b 16).
  pose proof (Z.div_pos b 16).
  replace (b + 256 * X + (b / 16 + 16 * (X mod 16) + 256 * (X / 16)))
    with (b + b / 16 + 16 * (X mod 16) + 256 * (X + X / 16)) by lia.
  rewrite land_byte by (unfold is_byte; lia). f_equal. unfold pop_byte3.
  rewrite !land_15, Z.shiftr_div_pow2 by lia. change (2 ^ 4) with 16.
  replace (b + b / 16 + 16 * (X mod 16)) with (b + b / 16 + X mod 16 * 16) by lia. by rewrite Z.mod_add by lia.
Qed.

Lemma bit_count_app n m x : bit_count (n + m) x = bit_count n x + bit_count m (x / 2 ^ Z.of_nat n).
Proof.
  revert x. induction n as [|n IH]; intros x; cbn [bit_count Nat.add].
  { change (2 ^ Z.of_nat 0) with 1. rewrite Z.div_1_r. lia. }
  rewrite IH. rewrite Z.div_div by (pose proof (pow2_pos (Z.of_nat n)); lia).
  rewrite <- Z.pow_succ_r by lia. replace (Z.succ (Z.of_nat n)) with (Z.of_nat (S n)) by lia. lia.
Qed.

Lemma bit_count_byte n b x : (n ≤ 8)%nat → bit_count n (b + 2 ^ Z.of_nat n * x) = bit_count n b.
Proof.
  intros _. revert b. induction n as [|n IH]; intros b; cbn [bit_count]; [done|].
  replace (2 ^ Z.of_nat (S n) * x) with (2 ^ Z.of_nat n * x * 2).
  2: { replace (Z.of_nat (S n)) with (Z.succ (Z.of_nat n)) by lia. rewrite Z.pow_succ_r by lia. lia. }
  rewrite Z.div_add by lia. rewrite IH. f_equal.
  rewrite Z.odd_add. replace (Z.odd (2 ^ Z.of_nat n * x * 2)) with false; [by rewrite xorb_false_r|].
  rewrite Z.odd_mul, andb_false_r. done.
Qed.

Lemma bit_count_bytes l : Forall is_byte l →
  bit_count (8 * length l) (of_bytes l) = foldr Z.add 0 (bit_count 8 <$> l).
Proof.
  induction 1 as [|b l Hb Hl IH]; [done|]. cbn [length fmap list_fmap foldr of_bytes]. rewrite <- IH.
  replace (8 * S (length l))%nat with (8 + 8 * length l)%nat by lia. rewrite bit_count_app.
  change (2 ^ Z.of_nat 8) with 256. change 256 with (2 ^ Z.of_nat 8) at 1.
  rewrite (bit_count_byte 8) by lia. f_equal. f_equal. change (2 ^ Z.of_nat 8) with 256.
  unfold is_byte in Hb. replace (b + 256 * of_bytes l) with (b + of_bytes l * 256) by lia.
  rewrite Z.div_add, Z.div_small by lia. lia.
Qed.

(** The last step sums eight small bytes into the top one. *)
Lemma sum_bytes l : length l = 8%nat → Forall (λ b, 0 ≤ b ≤ 8) l →
  Z.shiftr (u64 (of_bytes l * 72340172838076673)) 56 = foldr Z.add 0 l.
Proof.
  intros Hl HF.
  destruct l as [|a [|b [|c [|d [|e [|f [|g [|h [|]]]]]]]]]; try done. clear Hl.
  repeat match goal with H : Forall _ (_ :: _) |- _ => inversion H; clear H; subst end.
  cbn [of_bytes foldr]. rewrite Z.shiftr_div_pow2 by lia. unfold u64.
  symmetry. apply (Z.div_unique _ _ _ (of_bytes [a; a + b; a + b + c; a + b + c + d; a + b + c + d + e;
    a + b + c + d + e + f; a + b + c + d + e + f + g])).
  - left. cbn [of_bytes]. change (2 ^ 56) with 72057594037927936. lia.
  - symmetry. cbn [of_bytes]. change (2 ^ 56) with 72057594037927936.
    apply (Z.mod_unique_pos _ _ (of_bytes [b + c + d + e + f + g + h; c + d + e + f + g + h; d + e + f + g + h;
      e + f + g + h; f + g + h; g + h; h])); cbn [of_bytes]; lia.
Qed.

Lemma nibble_sum_fits l : length l = 8%nat → Forall is_byte l →
  Forall (λ b, Z.land b 15 ≤ 4 ∧ Z.shiftr b 4 ≤ 4) l →
  is_u64 (of_bytes l + Z.shiftr (of_bytes l) 4).
Proof.
  intros Hl HB HN. pose proof (of_bytes_nonneg l HB).
  assert (HM : of_bytes l ≤ 68 * of_bytes (replicate (length l) 1)).
  { clear Hl H. induction HN as [|b l [H1 H2] HN IH]; [done|]. inversion HB; subst.
    specialize (IH ltac:(done)). cbn [length replicate of_bytes].
    rewrite land_15 in H1. rewrite Z.shiftr_div_pow2 in H2 by lia. change (2 ^ 4) with 16 in H2.
    pose proof (Z.div_mod b 16). lia. }
  rewrite Hl in HM. rewrite Z.shiftr_div_pow2 by lia. change (2 ^ 4) with 16. cbn in HM.
  pose proof (Z.div_pos (of_bytes l) 16). pose proof (Z.div_le_upper_bound (of_bytes l) 16 (of_bytes l)).
  unfold is_u64. lia.
Qed.

(** The branch-free bit count of popc and of the lane masks counts the set
    bits of every 64-bit word. *)
Theorem popcount_counts x : is_u64 x → popcount64_soft x = bit_count 64 x.
Proof.
  intros Hx. pose proof pop_byte_facts as HF. rewrite Forall_forall in HF.
  assert (HB : ∀ b, b ∈ to_bytes 8 x → is_byte b).
  { intros b Hb. pose proof (to_bytes_bytes 8 x) as H. rewrite Forall_forall in H. by apply H. }
  set (l := to_bytes 8 x) in *. assert (Hl : length l = 8%nat) by apply length_to_bytes.
  assert (Ex : of_bytes l = x) by (by apply of_to_bytes).
  assert (Fl : Forall is_byte l) by (apply to_bytes_bytes).
  assert (F1 : Forall is_byte (pop_byte1 <$> l)).
  { apply Forall_fmap, Forall_forall. intros b Hb. by apply HF, byte_in, HB. }
  assert (F2 : Forall is_byte (pop_byte2 <$> (pop_byte1 <$> l))).
  { rewrite <- list_fmap_compose. apply Forall_fmap, Forall_forall. intros b Hb. by apply HF, byte_in, HB. }
  assert (Hu : ∀ k, Forall is_byte k → length k = 8%nat → u64 (of_bytes k) = of_bytes k).
  { intros k Hk Hk8. apply u64_small. split; [by apply of_bytes_nonneg|].
    pose proof (of_bytes_bound k Hk) as HH. rewrite Hk8 in HH. exact HH. }
  rewrite <- Ex at 1. unfold popcount64_soft.
  change 6148914691236517205 with (of_bytes (replicate 8 85)).
  change 3689348814741910323 with (of_bytes (replicate 8 51)).
  change 1085102592571150095 with (of_bytes (replicate 8 15)).
  assert (E1 : u64 (of_bytes l - Z.land (Z.shiftr (of_bytes l) 1) (of_bytes (replicate 8 85))) = of_bytes (pop_byte1 <$> l)).
  { rewrite <- Hl, land_shift_bytes by (done || lia || (unfold is_byte; lia)).
    rewrite <- (list_fmap_id l) at 1. rewrite <- of_bytes_sub. apply Hu; [done|by rewrite length_fmap]. }
  rewrite E1.
  assert (E2 : u64 (Z.land (of_bytes (pop_byte1 <$> l)) (of_bytes (replicate 8 51)) +
      Z.land (Z.shiftr (of_bytes (pop_byte1 <$> l)) 2) (of_bytes (replicate 8 51))) =
      of_bytes (pop_byte2 <$> (pop_byte1 <$> l))).
  { rewrite <- (Z.shiftr_0_r (of_bytes (pop_byte1 <$> l))) at 1.
    rewrite <- Hl, <- (length_fmap pop_byte1 l).
    rewrite !land_shift_bytes by (done || lia || (unfold is_byte; lia)).
    rewrite <- of_bytes_add. apply Hu; [|by rewrite !length_fmap].
    exact F2. }
  rewrite E2.
  assert (FN : Forall (λ b, Z.land b 15 ≤ 4 ∧ Z.shiftr b 4 ≤ 4) (pop_byte2 <$> (pop_byte1 <$> l))).
  { rewrite <- list_fmap_compose. apply Forall_fmap, Forall_forall. intros b Hb.
    destruct (HF b) as (_ & _ & _ & _ & ? & ? & _); [by apply byte_in, HB|]. done. }
  assert (E3 : Z.land (u64 (of_bytes (pop_byte2 <$> (pop_byte1 <$> l)) +
      Z.shiftr (of_bytes (pop_byte2 <$> (pop_byte1 <$> l))) 4)) (of_bytes (replicate 8 15)) =
      of_bytes (bit_count 8 <$> l)).
  { assert (EN : pop_byte3 <$> (pop_byte2 <$> (pop_byte1 <$> l)) = bit_count 8 <$> l).
    { rewrite <- !list_fmap_compose. apply list_fmap_ext. intros i b Hb. apply list_elem_of_lookup_2 in Hb.
      by destruct (HF b) as (_ & _ & _ & _ & _ & _ & E & _); [apply byte_in, HB|]. }
    rewrite <- EN, <- add_nibbles; [|done|].
    - rewrite !length_fmap, Hl. f_equal. apply u64_small. by apply nibble_sum_fits; [rewrite !length_fmap|..].
    - done. }
  rewrite E3, sum_bytes; [|by rewrite length_fmap|].
  - rewrite <- bit_count_bytes, Hl, Ex by done. done.
  - apply Forall_fmap, Forall_forall. intros b Hb. by apply HF, byte_in, HB.
Qed.

Lemma popcount_counts_witness :
  popcount64_soft 18446744073709551615 = 64 ∧ popcount64_soft 18446744073709551615 = bit_count 64 18446744073709551615.
Proof. split; [done|]. apply popcount_counts. unfold is_u64. lia. Defined.
