(* ===== verification/Isa.v ===== *)
(** * Instructions of the PTX interpreter and their decoded form

    The integer, predicate and control instructions of include/vgpu/ptx/ast.hpp
    (struct Op... and Instr), the pre-decoded MicroOp and build_micro's choice of it
    (src/ptx/ast.cpp). Memory, floating-point, call and warp-collective
    instructions are left out, and with them the fields that only they use;
    names, lines and texts kept for diagnostics are left out too. *)

From S2P Require Import Prelude Alu.

Definition kNoReg : Z := 4294967295.

Record Reg := mkReg { id : Z; wide : bool }.

(** Special registers a kernel reads its position from. *)
Inductive Sreg :=
  | TidX | TidY | TidZ | NtidX | NtidY | NtidZ | CtaidX | CtaidY | CtaidZ
  | NctaidX | NctaidY | NctaidZ | LaneId.

Inductive Operand :=
  | RegOperand (reg : Reg)
  | ImmInt (value : Z)
  | ImmFloatBits (bits : Z)
  | SregOperand (reg : Sreg).

Record IntBin := mkIntBin {
  ib_op : IntBinOp; ib_ty : Ty; ib_dst : Reg; ib_a : Operand; ib_b : Operand;
  ib_carry_in : bool; ib_carry_out : bool; ib_sat : bool }.

Record MadLo := mkMadLo {
  ml_ty : Ty; ml_dst : Reg; ml_a : Operand; ml_b : Operand; ml_c : Operand;
  ml_carry_in : bool; ml_carry_out : bool }.

(** setp on integers: [p = (a cmp b) bop c] and, when there is one, [q] the
    same of the comparison's negation. *)
Record Setp := mkSetp {
  sp_cmp : CmpOp; sp_ty : Ty; sp_dst : Reg; sp_a : Operand; sp_b : Operand;
  sp_bop : option (PredBinOp * Reg * bool); sp_q : option Reg }.

Inductive Op :=
  | OpMov (ty : Ty) (dst : Reg) (src : Operand)
  | OpIntBin (op : IntBin)
  | OpMadLo (op : MadLo)
  | OpMulWide (src_bits : Z) (is_signed : bool) (dst : Reg) (a b : Operand)
  | OpMulHi (ty : Ty) (dst : Reg) (a b : Operand)
  | OpSetp (op : Setp)
  | OpSelp (ty : Ty) (dst : Reg) (a b : Operand) (pred : Reg) (pred_negated : bool)
  | OpNot (ty : Ty) (dst : Reg) (src : Operand) (logical : bool)
  | OpNeg (ty : Ty) (dst : Reg) (src : Operand)
  | OpAbs (ty : Ty) (dst : Reg) (src : Operand)
  | OpShf (left wrap : bool) (dst : Reg) (a b c : Operand)
  | OpBfe (ty : Ty) (dst : Reg) (a b c : Operand)
  | OpBfi (ty : Ty) (dst : Reg) (a b c d : Operand)
  | OpBrev (ty : Ty) (dst : Reg) (src : Operand)
  | OpPopcClz (popc : bool) (ty : Ty) (dst : Reg) (src : Operand)
  | OpPredBin (op : PredBinOp) (dst a b : Reg) (a_imm b_imm : Z) (a_neg b_neg : bool)
  | OpNotPred (dst src : Reg) (src_neg : bool)
  | OpNop
  | OpBra (target : Z)
  | OpBrx (a : Operand) (targets : list Z)
  | OpRet
  | OpBar (bar : Operand).

Record Instr := mkInstr {
  has_pred : bool; pred_negated : bool; pred : Reg; op : Op }.

(** ** MicroOp *)

Inductive MicroKind :=
  | MNone | Int32 | MadLo32 | Mov32 | Setp32 | Selp32 | Not32 | Shf32 | MBra | Int64
  | MulWide32 | Setp64 | MulHi32 | Sign32 | Mov64 | MovSreg | PredBin | NotPred
  | Int16 | Setp16 | Mov16 | PopcClz32 | CarryAddSub32 | CarryMadLo32 | MovImm64.

#[global] Instance MicroKind_eq_dec : EqDecision MicroKind.
Proof. solve_decision. Defined.

(** The record has the source's fields. [sub] is a sum of what the source packs
    into its byte: the operation, by kind; the flags are booleans; [imm i] and
    [wide64 i] are bits [i] and [3 + i] of src_imm. [konst] is the entry of
    micro_consts a MovImm64 names. *)
Inductive MSub :=
  | SubNone
  | SubInt (o : IntBinOp)
  | SubCmp (c : CmpOp)
  | SubPred (o : PredBinOp)
  | SubBool (b : bool)
  | SubSreg (s : Sreg)
  | SubCarry (sub carry_in carry_out : bool).

Record MicroOp := mkMicroOp {
  mk : MicroKind; sub : MSub;
  kSigned : bool; kHasPred : bool; kPredNeg : bool; kLeft : bool; kWrap : bool;
  mpred : Z; mdst : Z; src : nat → Z; imm : nat → bool; wide64 : nat → bool; konst : Z }.

Definition micro_none : MicroOp :=
  mkMicroOp MNone SubNone false false false false false 0 0 (λ _, 0) (λ _, false) (λ _, false) 0.

Definition upd {A} (f : nat → A) (i : nat) (x : A) : nat → A := λ j, if Nat.eqb j i then x else f j.

Definition set_src (u : MicroOp) (i : nat) (v : Z) (b w : bool) : MicroOp :=
  mkMicroOp (mk u) (sub u) (kSigned u) (kHasPred u) (kPredNeg u) (kLeft u) (kWrap u) (mpred u) (mdst u)
    (upd (src u) i v) (upd (imm u) i b) (upd (wide64 u) i w) (konst u).
Definition set_dst (u : MicroOp) (d : Z) : MicroOp :=
  mkMicroOp (mk u) (sub u) (kSigned u) (kHasPred u) (kPredNeg u) (kLeft u) (kWrap u) (mpred u) d
    (src u) (imm u) (wide64 u) (konst u).
Definition set_kind (u : MicroOp) (k : MicroKind) (s : MSub) (sg : bool) : MicroOp :=
  mkMicroOp k s sg (kHasPred u) (kPredNeg u) (kLeft u) (kWrap u) (mpred u) (mdst u)
    (src u) (imm u) (wide64 u) (konst u).
Definition set_shift (u : MicroOp) (l w : bool) : MicroOp :=
  mkMicroOp (mk u) (sub u) (kSigned u) (kHasPred u) (kPredNeg u) l w (mpred u) (mdst u)
    (src u) (imm u) (wide64 u) (konst u).
Definition set_const (u : MicroOp) (v : Z) : MicroOp :=
  mkMicroOp (mk u) (sub u) (kSigned u) (kHasPred u) (kPredNeg u) (kLeft u) (kWrap u) (mpred u) (mdst u)
    (src u) (imm u) (wide64 u) v.

(** ** build_micro, one instruction *)

(** micro_source: the narrow register or immediate a source can be. *)
Definition micro_source (o : Operand) : option (Z * bool) :=
  match o with
  | RegOperand r => if wide r || (id r =? kNoReg) then None else Some (id r, false)
  | ImmInt v => Some (u32 v, true)
  | ImmFloatBits v => Some (u32 v, true)
  | _ => None
  end.

Definition source (i : nat) (o : Operand) (u : MicroOp) : option MicroOp :=
  match micro_source o with
  | Some (v, b) => Some (set_src u i v b false)
  | None => None
  end.

Definition source64 (i : nat) (o : Operand) (u : MicroOp) : option MicroOp :=
  match o with
  | RegOperand r => if id r =? kNoReg then None else Some (set_src u i (id r) false (wide r))
  | ImmInt v =>
      if (v <? -2147483648) || (2147483647 <? v) then None else Some (set_src u i (u32 v) true false)
  | _ => None
  end.

Definition narrow_dst (r : Reg) (u : MicroOp) : option MicroOp :=
  if wide r || (id r =? kNoReg) then None else Some (set_dst u (id r)).
Definition wide_dst (r : Reg) (u : MicroOp) : option MicroOp :=
  if negb (wide r) || (id r =? kNoReg) then None else Some (set_dst u (id r)).

(** A condition of the source's conjunctions. *)
Definition need (b : bool) (u : MicroOp) : option MicroOp := if b then Some u else None.

Notation "m >=> k" := (λ u, match m u with Some u' => k u' | None => None end)
  (at level 60, right associativity) : vgpu_scope.

(** The integer comparisons the fast paths know. *)
Definition ordered_cmp (c : CmpOp) : bool :=
  match c with Eq | Ne | Lt | Le | Gt | Ge => true | _ => false end.

Definition no_division (o : IntBinOp) : bool :=
  match o with Div | Rem => false | _ => true end.

Definition decode_int_bin (o : IntBin) : MicroOp → option MicroOp :=
  let plain := negb (ib_carry_in o || ib_carry_out o || ib_sat o) in
  let carry := ib_carry_in o || ib_carry_out o in
  let sg := is_signed (ib_ty o) in
  if bits (ib_ty o) =? 64 then
    need (plain && no_division (ib_op o)) >=> wide_dst (ib_dst o) >=>
    source64 0 (ib_a o) >=> source64 1 (ib_b o) >=> λ u, Some (set_kind u Int64 (SubInt (ib_op o)) sg)
  else if bits (ib_ty o) =? 16 then
    need (plain && no_division (ib_op o) && negb (is_float (ib_ty o))) >=> narrow_dst (ib_dst o) >=>
    source 0 (ib_a o) >=> source 1 (ib_b o) >=> λ u, Some (set_kind u Int16 (SubInt (ib_op o)) sg)
  else if carry && (bits (ib_ty o) =? 32) && negb (ib_sat o) &&
          (bool_decide (ib_op o = Add) || bool_decide (ib_op o = Sub)) then
    narrow_dst (ib_dst o) >=> source 0 (ib_a o) >=> source 1 (ib_b o) >=>
    λ u, Some (set_kind u CarryAddSub32
                 (SubCarry (bool_decide (ib_op o = Sub)) (ib_carry_in o) (ib_carry_out o)) false)
  else
    need (plain && (bits (ib_ty o) =? 32)) >=> narrow_dst (ib_dst o) >=>
    source 0 (ib_a o) >=> source 1 (ib_b o) >=> λ u, Some (set_kind u Int32 (SubInt (ib_op o)) sg).

Definition decode_mov (ty : Ty) (dst : Reg) (s : Operand) : MicroOp → option MicroOp :=
  if bits ty =? 64 then λ u,
    match (wide_dst dst >=> source64 0 s) u with
    | Some u => Some (set_kind u Mov64 SubNone false)
    | None =>
        match wide_dst dst u, s with
        | Some u, ImmInt v => Some (set_kind (set_const u (u64 v)) MovImm64 SubNone false)
        | Some u, ImmFloatBits v => Some (set_kind (set_const u v) MovImm64 SubNone false)
        | _, _ => None
        end
    end
  else
    match s with
    | SregOperand sr =>
        need (bits ty =? 32) >=> narrow_dst dst >=> λ u, Some (set_kind u MovSreg (SubSreg sr) false)
    | _ =>
        if bits ty =? 16 then narrow_dst dst >=> source 0 s >=> λ u, Some (set_kind u Mov16 SubNone false)
        else need (bits ty =? 32) >=> narrow_dst dst >=> source 0 s >=>
             λ u, Some (set_kind u Mov32 SubNone false)
    end.

Definition decode_setp (o : Setp) : MicroOp → option MicroOp :=
  let plain := match sp_bop o, sp_q o with None, None => true | _, _ => false end in
  let sg := is_signed (sp_ty o) in
  if (bits (sp_ty o) =? 16) && negb (is_real (sp_ty o)) then
    need plain >=> narrow_dst (sp_dst o) >=> source 0 (sp_a o) >=> source 1 (sp_b o) >=>
    need (ordered_cmp (sp_cmp o)) >=> λ u, Some (set_kind u Setp16 (SubCmp (sp_cmp o)) sg)
  else if bits (sp_ty o) =? 64 then
    need (negb (is_bfloat (sp_ty o)) && plain) >=> narrow_dst (sp_dst o) >=>
    source64 0 (sp_a o) >=> source64 1 (sp_b o) >=>
    need (ordered_cmp (sp_cmp o)) >=> λ u, Some (set_kind u Setp64 (SubCmp (sp_cmp o)) sg)
  else
    need ((bits (sp_ty o) =? 32) && negb (is_bfloat (sp_ty o)) && plain) >=> narrow_dst (sp_dst o) >=>
    source 0 (sp_a o) >=> source 1 (sp_b o) >=>
    need (ordered_cmp (sp_cmp o)) >=> λ u, Some (set_kind u Setp32 (SubCmp (sp_cmp o)) sg).

(** A predicate source of and/or/xor.pred: an immediate or a narrow register. *)
Definition pred_source (i : nat) (r : Reg) (im : Z) (u : MicroOp) : MicroOp :=
  if 0 <=? im then set_src u i (if im =? 0 then 0 else 1) true false
  else set_src u i (id r) false false.
Definition pred_reg_ok (r : Reg) : bool := negb (wide r) && negb (id r =? kNoReg).

(** The guard of the instruction, then its kind. *)
Definition decode_guard (ins : Instr) : option MicroOp :=
  if has_pred ins then
    if wide (pred ins) || (id (pred ins) =? kNoReg) || (65535 <? id (pred ins)) then None
    else Some (mkMicroOp MNone SubNone false true (pred_negated ins) false false (id (pred ins)) 0
                 (λ _, 0) (λ _, false) (λ _, false) 0)
  else Some micro_none.

Definition decode_mul_hi (ty : Ty) (dst : Reg) (a b : Operand) : MicroOp → option MicroOp :=
  need ((bits ty =? 32) && negb (is_real ty)) >=> narrow_dst dst >=> source 0 a >=> source 1 b >=>
  λ u, Some (set_kind u MulHi32 SubNone (is_signed ty)).

(** neg and abs *)
Definition decode_sign (neg : bool) (ty : Ty) (dst : Reg) (s : Operand) : MicroOp → option MicroOp :=
  need ((bits ty =? 32) && negb (is_bfloat ty)) >=> narrow_dst dst >=> source 0 s >=>
  λ u, Some (set_kind u Sign32 (SubBool neg) false).

Definition decode_popc_clz (popc : bool) (ty : Ty) (dst : Reg) (s : Operand) : MicroOp → option MicroOp :=
  need (bits ty =? 32) >=> narrow_dst dst >=> source 0 s >=>
  λ u, Some (set_kind u PopcClz32 (SubBool popc) false).

Definition decode_mul_wide (src_bits : Z) (sg : bool) (dst : Reg) (a b : Operand) : MicroOp → option MicroOp :=
  need (src_bits =? 32) >=> wide_dst dst >=> source 0 a >=> source 1 b >=>
  λ u, Some (set_kind u MulWide32 SubNone sg).

Definition decode_mad_lo (o : MadLo) : MicroOp → option MicroOp :=
  need (bits (ml_ty o) =? 32) >=> narrow_dst (ml_dst o) >=>
  source 0 (ml_a o) >=> source 1 (ml_b o) >=> source 2 (ml_c o) >=> λ u,
  Some (if ml_carry_in o || ml_carry_out o
        then set_kind u CarryMadLo32 (SubCarry false (ml_carry_in o) (ml_carry_out o)) false
        else set_kind u MadLo32 SubNone false).

Definition decode_pred_bin (o : PredBinOp) (dst a b : Reg) (a_imm b_imm : Z) (a_neg b_neg : bool)
    : MicroOp → option MicroOp :=
  need (((0 <=? a_imm) || pred_reg_ok a) && ((0 <=? b_imm) || pred_reg_ok b) &&
        negb a_neg && negb b_neg) >=> narrow_dst dst >=> λ u,
  Some (set_kind (pred_source 1 b b_imm (pred_source 0 a a_imm u)) PredBin (SubPred o) false).

Definition decode_not_pred (dst s : Reg) (s_neg : bool) : MicroOp → option MicroOp :=
  need (pred_reg_ok s && negb s_neg) >=> narrow_dst dst >=> λ u,
  Some (set_kind (set_src u 0 (id s) false false) NotPred SubNone false).

Definition decode_selp (ty : Ty) (dst : Reg) (a b : Operand) (p : Reg) (neg : bool) : MicroOp → option MicroOp :=
  need ((bits ty =? 32) && negb neg && pred_reg_ok p) >=> narrow_dst dst >=>
  source 0 a >=> source 1 b >=> λ u,
  Some (set_kind (set_src u 2 (id p) false false) Selp32 SubNone false).

Definition decode_not (ty : Ty) (dst : Reg) (s : Operand) (logical : bool) : MicroOp → option MicroOp :=
  need (negb logical && (bits ty =? 32)) >=> narrow_dst dst >=> source 0 s >=>
  λ u, Some (set_kind u Not32 SubNone false).

Definition decode_shf (lft wrap : bool) (dst : Reg) (a b c : Operand) : MicroOp → option MicroOp :=
  narrow_dst dst >=> source 0 a >=> source 1 b >=> source 2 c >=>
  λ u, Some (set_shift (set_kind u Shf32 SubNone false) lft wrap).

Definition decode_bra (target : Z) : MicroOp → option MicroOp :=
  need (target <=? 4294967295) >=> λ u, Some (set_kind (set_src u 0 target false false) MBra SubNone false).

(** The chain of ifs. *)
Definition decode_op (o : Op) : MicroOp → option MicroOp :=
  match o with
  | OpIntBin o => decode_int_bin o
  | OpMulHi ty dst a b => decode_mul_hi ty dst a b
  | OpNeg ty dst s => decode_sign true ty dst s
  | OpAbs ty dst s => decode_sign false ty dst s
  | OpPopcClz popc ty dst s => decode_popc_clz popc ty dst s
  | OpMulWide src_bits sg dst a b => decode_mul_wide src_bits sg dst a b
  | OpMadLo o => decode_mad_lo o
  | OpMov ty dst s => decode_mov ty dst s
  | OpPredBin o dst a b a_imm b_imm a_neg b_neg => decode_pred_bin o dst a b a_imm b_imm a_neg b_neg
  | OpNotPred dst s s_neg => decode_not_pred dst s s_neg
  | OpSetp o => decode_setp o
  | OpSelp ty dst a b p neg => decode_selp ty dst a b p neg
  | OpNot ty dst s logical => decode_not ty dst s logical
  | OpShf lft wrap dst a b c => decode_shf lft wrap dst a b c
  | OpBra target => decode_bra target
  | _ => λ _, None
  end.

(** An instruction's part of the chain, unfolded in [E]. *)
Ltac open_decode E :=
  unfold decode_op, decode_mul_hi, decode_sign, decode_popc_clz, decode_mul_wide, decode_mad_lo,
    decode_pred_bin, decode_not_pred, decode_selp, decode_not, decode_shf, decode_bra in E.

(** build_micro's entry for an instruction: kind None when it is not decoded. *)
Definition decode (ins : Instr) : MicroOp :=
  match decode_guard ins with
  | None => micro_none
  | Some u => default micro_none (decode_op (op ins) u)
  end.

Definition build_micro (body : list Instr) : list MicroOp := decode <$> body.
