(* ===== verification/Warp.v ===== *)
(** * A warp of the PTX interpreter (src/exec/interpreter.cpp)

    struct Path and struct Warp, the register files, the dispatch of the
    instructions of [Isa] in its three tiers (the general handlers, fast_path and the
    pre-decoded exec_micro), divergence (select_path, exec_bra, exec_brx, exec_ret),
    bar.sync, and the loop run_warp_until_yield with run_micro_batch.

    A warp's call frames, call slots, pending copies, store gate and statistics
    are left out with the instructions that use them; the SIMD kernels are taken to
    be off (simd::enabled() false), so the portable loops run. An array of lanes is
    a list of the warp's width. Indexing a register file out of range is [Undef]. *)

From S2P Require Import Prelude Alu Isa.

(** ** Data *)

Inductive Parked := kRunnable | kAtBarrier | kThisTurn.
#[global] Instance Parked_eq_dec : EqDecision Parked.
Proof. solve_decision. Defined.

Record Path := mkPath { pc : Z; mask : Z; parked : Parked; issued_at : Z; boost : Z }.

Inductive WState := Ready | AtBarrier | Done.
#[global] Instance WState_eq_dec : EqDecision WState.
Proof. solve_decision. Defined.

Record Warp := mkWarp {
  state : WState;
  paths : list Path;
  exited : Z;
  regs32 : list (list Z);
  regs64 : list (list Z);
  preds : list Z;
  written32 : list bool;
  written64 : list bool;
  carry : Z;
  yield_now : bool;
  steps : Z;
  barrier_id : Z }.

(** One setter a field the code assigns. *)
Definition set_state (s : WState) (w : Warp) : Warp :=
  mkWarp s (paths w) (exited w) (regs32 w) (regs64 w) (preds w) (written32 w) (written64 w)
    (carry w) (yield_now w) (steps w) (barrier_id w).
Definition set_paths (p : list Path) (w : Warp) : Warp :=
  mkWarp (state w) p (exited w) (regs32 w) (regs64 w) (preds w) (written32 w) (written64 w)
    (carry w) (yield_now w) (steps w) (barrier_id w).
Definition set_exited (m : Z) (w : Warp) : Warp :=
  mkWarp (state w) (paths w) m (regs32 w) (regs64 w) (preds w) (written32 w) (written64 w)
    (carry w) (yield_now w) (steps w) (barrier_id w).
Definition set_regs32 (r : list (list Z)) (wr : list bool) (w : Warp) : Warp :=
  mkWarp (state w) (paths w) (exited w) r (regs64 w) (preds w) wr (written64 w)
    (carry w) (yield_now w) (steps w) (barrier_id w).
Definition set_regs64 (r : list (list Z)) (wr : list bool) (w : Warp) : Warp :=
  mkWarp (state w) (paths w) (exited w) (regs32 w) r (preds w) (written32 w) wr
    (carry w) (yield_now w) (steps w) (barrier_id w).
Definition set_preds (p : list Z) (w : Warp) : Warp :=
  mkWarp (state w) (paths w) (exited w) (regs32 w) (regs64 w) p (written32 w) (written64 w)
    (carry w) (yield_now w) (steps w) (barrier_id w).
Definition set_carry (m : Z) (w : Warp) : Warp :=
  mkWarp (state w) (paths w) (exited w) (regs32 w) (regs64 w) (preds w) (written32 w) (written64 w)
    m (yield_now w) (steps w) (barrier_id w).
Definition set_yield (b : bool) (w : Warp) : Warp :=
  mkWarp (state w) (paths w) (exited w) (regs32 w) (regs64 w) (preds w) (written32 w) (written64 w)
    (carry w) b (steps w) (barrier_id w).
Definition set_steps (n : Z) (w : Warp) : Warp :=
  mkWarp (state w) (paths w) (exited w) (regs32 w) (regs64 w) (preds w) (written32 w) (written64 w)
    (carry w) (yield_now w) n (barrier_id w).
Definition set_barrier (b : Z) (w : Warp) : Warp :=
  mkWarp (state w) (paths w) (exited w) (regs32 w) (regs64 w) (preds w) (written32 w) (written64 w)
    (carry w) (yield_now w) (steps w) b.

Definition with_pc (p : Path) (n : Z) : Path := mkPath n (mask p) (parked p) (issued_at p) (boost p).
Definition with_mask (p : Path) (m : Z) : Path := mkPath (pc p) m (parked p) (issued_at p) (boost p).
Definition with_parked (p : Path) (k : Parked) : Path := mkPath (pc p) (mask p) k (issued_at p) (boost p).
Definition with_issued (p : Path) (n : Z) : Path := mkPath (pc p) (mask p) (parked p) n (boost p).
Definition with_boost (p : Path) (n : Z) : Path := mkPath (pc p) (mask p) (parked p) (issued_at p) n.

(** What the launch fixes: the warp's width, the function, the step budget, strict
    mode, whether the fast paths are on, and the special registers of the warp's
    lanes (the thread ids, from setup_block, and the block's). *)
Record Cfg := mkCfg {
  W : nat; body : list Instr; num_regs32 : Z; max_steps : Z;
  strict : bool; fast_enabled : bool; sreg : Sreg → nat → Z }.

Definition kStarvedSteps : Z := 1024.
Definition kBoostSteps : Z := 256.
Definition kLongTurn : Z := 65536.
Definition kMaxOthers : nat := 7.

(** ** Lanes and masks *)

(** [v[i]], when it is there. *)
Definition nth_z {A} (l : list A) (i : Z) : option A :=
  if (0 <=? i) && (i <? Z.of_nat (length l)) then l !! Z.to_nat i else None.
Definition set_z {A} (l : list A) (i : Z) (x : A) : list A :=
  if (0 <=? i) && (i <? Z.of_nat (length l)) then <[Z.to_nat i := x]> l else l.

Definition bit (m : Z) (l : nat) : bool := Z.testbit m (Z.of_nat l).

(** [__builtin_ctzll] of a non-zero mask. *)
Definition ctzll (m : Z) : nat := default 63%nat (head (filter (λ l, bit m l = true) (seq 0 64))).
Definition first_set (m : Z) : nat := if m =? 0 then 0%nat else ctzll m.

(** [while (rest) { lane = ctz(rest); rest &= rest - 1; ... }]: the lanes visited. *)
Fixpoint walk (fuel : nat) (rest : Z) : list nat :=
  match fuel with
  | O => []
  | S f => if rest =? 0 then [] else ctzll rest :: walk f (Z.land rest (rest - 1))
  end.

Section exec.
Context (c : Cfg).
#[local] Abbreviation W := (W c).

Definition all_lanes : Z := u64 (u64 (Z.shiftl 2 (Z.of_nat W - 1)) - 1).

Definition active_lanes (m : Z) : list nat := if m =? all_lanes then seq 0 W else walk 64 m.

(** [for_active(m, W_, [&](l) { d[l] = f(l); })]: every lane reads what it reads
    before it writes its own element. *)
Definition for_active (m : Z) (f : nat → Z) (d : list Z) : list Z :=
  foldl (λ d l, <[l := f l]> d) d (active_lanes m).

(** [for (lane...) if (m & (Mask{1} << lane)) r[lane] = f(lane);] where [f] may
    fail; what other lanes hold is not read. *)
Definition for_lanes (m : Z) (f : nat → option Z) : option (list Z) :=
  mapM (λ l, if bit m l then f l else Some 0) (seq 0 W).

(** [if (m & bit && f(lane)) t |= Mask{1} << lane], over the lanes. *)
Definition gather (m : Z) (f : nat → bool) : Z :=
  foldl (λ t l, if bit m l && f l then Z.lor t (Z.shiftl 1 (Z.of_nat l)) else t) 0 (seq 0 W).

(** The same through for_active. *)
Definition gather_active (m : Z) (f : nat → bool) : Z :=
  foldl (λ t l, Z.lor t (Z.shiftl (Z.b2z (f l)) (Z.of_nat l))) 0 (active_lanes m).

(** [(p & ~m) | (v & m)] *)
Definition blend (p v m : Z) : Z := Z.lor (Z.land p (unot m)) (Z.land v m).

(** ** Registers *)

Definition fill (v : Z) : list Z := replicate W v.

(** A register's lanes, zeros for one nothing has written. *)
Definition file_read (regs : list (list Z)) (written : list bool) (i : Z) : list Z :=
  match nth_z regs i, nth_z written i with
  | Some r, Some true => r
  | _, _ => fill 0
  end.

Definition read_operand (w : Warp) (o : Operand) : list Z :=
  match o with
  | RegOperand r =>
      if wide r then file_read (regs64 w) (written64 w) (id r)
      else file_read (regs32 w) (written32 w) (id r)
  | ImmInt v => fill (u64 v)
  | ImmFloatBits v => fill v
  | SregOperand s => sreg c s <$> seq 0 W
  end.

Definition narrow_operand (o : Operand) : bool :=
  match o with
  | RegOperand r => negb (wide r)
  | ImmInt _ | ImmFloatBits _ => true
  | _ => false
  end.

Definition read_narrow (w : Warp) (o : Operand) : list Z :=
  match o with
  | RegOperand r => file_read (regs32 w) (written32 w) (id r)
  | ImmInt v => fill (u32 v)
  | ImmFloatBits v => fill (u32 v)
  | _ => fill 0
  end.

(** dst32 and dst64: the array a write goes to, marked written; a first write that
    does not cover the warp zero-fills it. *)
Definition dst32 (i m : Z) : M Warp (list Z) := λ w,
  match nth_z (regs32 w) i, nth_z (written32 w) i with
  | Some r, Some true => Ret r w
  | Some r, Some false =>
      let r := if m =? all_lanes then r else fill 0 in
      Ret r (set_regs32 (set_z (regs32 w) i r) (set_z (written32 w) i true) w)
  | _, _ => Undef
  end.
Definition dst64 (i m : Z) : M Warp (list Z) := λ w,
  match nth_z (regs64 w) i, nth_z (written64 w) i with
  | Some r, Some true => Ret r w
  | Some r, Some false =>
      let r := if m =? all_lanes then r else fill 0 in
      Ret r (set_regs64 (set_z (regs64 w) i r) (set_z (written64 w) i true) w)
  | _, _ => Undef
  end.

(** The array, stored into; [w.written32[id] = 1] after it. *)
Definition store32 (i : Z) (r : list Z) : M Warp unit :=
  modify (λ w, set_regs32 (set_z (regs32 w) i r) (set_z (written32 w) i true) w).
Definition store64 (i : Z) (r : list Z) : M Warp unit :=
  modify (λ w, set_regs64 (set_z (regs64 w) i r) (set_z (written64 w) i true) w).

(** [d = dst32(w, id, m); for_active(m, W_, d[l] = f(l)); written32[id] = 1] *)
Definition put32 (i m : Z) (f : nat → Z) : M Warp unit :=
  d <- dst32 i m ;; store32 i (for_active m f d).
Definition put64 (i m : Z) (f : nat → Z) : M Warp unit :=
  d <- dst64 i m ;; store64 i (for_active m f d).

Definition write_reg (reg : Reg) (m : Z) (vals : list Z) (bits : Z) : M Warp unit :=
  if wide reg then
    if 64 <=? bits then put64 (id reg) m (λ l, vals !!! l)
    else put64 (id reg) m (λ l, Z.land (vals !!! l) (Z.shiftl 1 bits - 1))
  else
    if 32 <=? bits then put32 (id reg) m (λ l, u32 (vals !!! l))
    else put32 (id reg) m (λ l, Z.land (u32 (vals !!! l)) (Z.shiftl 1 bits - 1)).

Definition pred_index (reg : Reg) : Z := if wide reg then num_regs32 c + id reg else id reg.

Definition read_pred (reg : Reg) : M Warp Z := λ w,
  let idx := pred_index reg in
  let ok := if wide reg then nth_z (written64 w) (id reg) else nth_z (written32 w) (id reg) in
  match ok, nth_z (preds w) idx with
  | Some true, Some p => Ret p w
  | _, _ => Exn (Error UninitializedRegister) w
  end.

(** pred_slot, and the store through the reference it returns. *)
Definition set_pred (reg : Reg) (f : Z → Z) : M Warp unit := λ w,
  let wr := if wide reg then nth_z (written64 w) (id reg) else nth_z (written32 w) (id reg) in
  match wr, nth_z (preds w) (pred_index reg) with
  | Some _, Some p =>
      let w :=
        if wide reg then set_regs64 (regs64 w) (set_z (written64 w) (id reg) true) w
        else set_regs32 (regs32 w) (set_z (written32 w) (id reg) true) w in
      Ret tt (set_preds (set_z (preds w) (pred_index reg) (f p)) w)
  | _, _ => Undef
  end.

(** [if (neg) p = ~p] *)
Definition negate (neg : bool) (p : Z) : Z := if neg then unot p else p.

Definition pred_mask (o : PredBinOp) (x y : Z) : Z :=
  match o with PAnd => Z.land x y | POr => Z.lor x y | PXor => Z.lxor x y end.

(** ** The general handlers (dispatch) *)

(** A handler whose lanes are computed by [f] and written to [dst]. *)
Definition write_lanes (dst : Reg) (m bits : Z) (f : nat → option Z) : M Warp unit :=
  match for_lanes m f with
  | Some r => write_reg dst m r bits
  | None => throw InvalidValue
  end.

(** exec_carry_add_sub and exec_carry_mad: the results, and the carry bits of the
    warp with those of the active lanes replaced. *)
Definition carry_lanes (m : Z) (carry_out : bool) (f : nat → bool → Z * bool) (cy : Z) : list Z * Z :=
  ((λ l, if bit m l then (f l (bit cy l)).1 else 0) <$> seq 0 W,
   if carry_out then
     foldl (λ out l,
       if bit m l then Z.lor (Z.land out (unot (Z.shiftl 1 (Z.of_nat l))))
                         (Z.shiftl (Z.b2z (f l (bit cy l)).2) (Z.of_nat l))
       else out) cy (seq 0 W)
   else cy).

(** A handler with the carry bit: the results are written, then the carry (it is
    a member of its own, so the order of the two stores does not show). *)
Definition write_carry (dst : Reg) (m bits : Z) (carry_out : bool) (f : nat → bool → Z * bool)
    : M Warp unit :=
  w <- get ;;
  let '(r, out) := carry_lanes m carry_out f (carry w) in
  modify (set_carry out) ;;; write_reg dst m r bits.

(** What dispatch does for each instruction; [w] is the warp it reads its operands in. *)
Definition do_int_bin (w : Warp) (o : IntBin) (m : Z) : M Warp unit :=
  let rd o l := read_operand w o !!! l in
  if ib_carry_in o || ib_carry_out o then
    write_carry (ib_dst o) m (bits (ib_ty o)) (ib_carry_out o) (λ l cy,
      carry_add_sub (bits (ib_ty o)) (bool_decide (ib_op o = Sub)) (ib_carry_in o) (ib_carry_out o)
        cy (rd (ib_a o) l) (rd (ib_b o) l))
  else if ib_sat o then
    write_lanes (ib_dst o) m (bits (ib_ty o)) (λ l, Some (add_sub_sat (ib_op o) (rd (ib_a o) l) (rd (ib_b o) l)))
  else
    write_lanes (ib_dst o) m (bits (ib_ty o)) (λ l,
      int_bin (strict c) (ib_op o) (ib_ty o) (rd (ib_a o) l) (rd (ib_b o) l)).

Definition do_mad_lo (w : Warp) (o : MadLo) (m : Z) : M Warp unit :=
  let rd o l := read_operand w o !!! l in
  if ml_carry_in o || ml_carry_out o then
    write_carry (ml_dst o) m (bits (ml_ty o)) (ml_carry_out o) (λ l cy,
      carry_mad (bits (ml_ty o)) (ml_carry_in o) (ml_carry_out o) cy
        (u64 (rd (ml_a o) l * rd (ml_b o) l)) (rd (ml_c o) l))
  else
    write_lanes (ml_dst o) m (bits (ml_ty o)) (λ l,
      Some (u64 (rd (ml_a o) l * rd (ml_b o) l + rd (ml_c o) l))).

Definition do_setp (w : Warp) (o : Setp) (m : Z) : M Warp unit :=
  let rd o l := read_operand w o !!! l in
  let t := gather m (λ l, compare (sp_cmp o) (sp_ty o) (rd (sp_a o) l) (rd (sp_b o) l)) in
  pq <- match sp_bop o with
        | None => ret (t, unot t)
        | Some (bop, cr, neg) =>
            cp <- read_pred cr ;;
            let cp := negate neg cp in
            ret (pred_mask bop t cp, pred_mask bop (unot t) cp)
        end ;;
  set_pred (sp_dst o) (λ p, blend p pq.1 m) ;;;
  match sp_q o with
  | None => ret tt
  | Some q => set_pred q (λ p, blend p pq.2 m)
  end.

Definition do_selp (w : Warp) (ty : Ty) (dst : Reg) (a b : Operand) (p : Reg) (neg : bool) (m : Z) : M Warp unit :=
  let rd o l := read_operand w o !!! l in
  p <- read_pred p ;;
  let p := negate neg p in
  write_lanes dst m (bits ty) (λ l, Some (if bit p l then rd a l else rd b l)).

Definition do_pred_bin (o : PredBinOp) (dst a b : Reg) (a_imm b_imm : Z) (a_neg b_neg : bool) (m : Z) : M Warp unit :=
  x <- (if 0 <=? a_imm then ret (if a_imm =? 0 then 0 else unot 0) else read_pred a) ;;
  y <- (if 0 <=? b_imm then ret (if b_imm =? 0 then 0 else unot 0) else read_pred b) ;;
  let x := negate a_neg x in
  let y := negate b_neg y in
  set_pred dst (λ p, blend p (pred_mask o x y) m).

Definition do_not_pred (dst s : Reg) (s_neg : bool) (m : Z) : M Warp unit :=
  x <- read_pred s ;;
  let x := negate s_neg x in
  set_pred dst (λ p, blend p (unot x) m).

Definition general (ins_op : Op) (m : Z) : M Warp unit :=
  w <- get ;;
  let rd o l := read_operand w o !!! l in
  match ins_op with
  | OpMov ty dst s => write_reg dst m (read_operand w s) (bits ty)
  | OpIntBin o => do_int_bin w o m
  | OpMadLo o => do_mad_lo w o m
  | OpMulWide src_bits sg dst a b =>
      write_lanes dst m (src_bits * 2) (λ l, Some (mul_wide src_bits sg (rd a l) (rd b l)))
  | OpMulHi ty dst a b => write_lanes dst m (bits ty) (λ l, Some (mul_hi ty (rd a l) (rd b l)))
  | OpSetp o => do_setp w o m
  | OpSelp ty dst a b p neg => do_selp w ty dst a b p neg m
  | OpNot ty dst s logical => write_lanes dst m (bits ty) (λ l, Some (not_op logical (bits ty) (rd s l)))
  | OpNeg ty dst s => write_lanes dst m (bits ty) (λ l, Some (neg_op (rd s l)))
  | OpAbs ty dst s => write_lanes dst m (bits ty) (λ l, Some (abs_op (bits ty) (rd s l)))
  | OpShf lft wrap dst a b x => write_lanes dst m 32 (λ l, Some (shf lft wrap (rd a l) (rd b l) (rd x l)))
  | OpBfe ty dst a b x => write_lanes dst m (bits ty) (λ l, Some (bfe ty (rd a l) (rd b l) (rd x l)))
  | OpBfi ty dst a b x y =>
      write_lanes dst m (bits ty) (λ l, Some (bfi ty (rd a l) (rd b l) (rd x l) (rd y l)))
  | OpBrev ty dst s => write_lanes dst m (bits ty) (λ l, Some (brev (bits ty) (rd s l)))
  | OpPopcClz popc ty dst s => write_lanes dst m 32 (λ l, Some (popc_clz popc (bits ty) (rd s l)))
  | OpPredBin o dst a b a_imm b_imm a_neg b_neg => do_pred_bin o dst a b a_imm b_imm a_neg b_neg m
  | OpNotPred dst s s_neg => do_not_pred dst s s_neg m
  | OpNop => ret tt
  | _ => ret tt   (* control flow, which step takes first *)
  end.

(** ** The fast paths *)

(** fast_path: [Ret false] declines, having changed nothing. *)
Definition fast_int_bin (o : IntBin) (m : Z) : M Warp bool :=
  if ib_carry_in o || ib_carry_out o || ib_sat o || negb (bits (ib_ty o) =? 32) || wide (ib_dst o) ||
     negb (narrow_operand (ib_a o)) || negb (narrow_operand (ib_b o)) || negb (no_division (ib_op o))
  then ret false
  else
    w <- get ;;
    let a := read_narrow w (ib_a o) in
    let b := read_narrow w (ib_b o) in
    put32 (id (ib_dst o)) m (λ l, int_bin32 (ib_op o) (is_signed (ib_ty o)) (a !!! l) (b !!! l)) ;;;
    ret true.

Definition fast_int_bin64 (o : IntBin) (m : Z) : M Warp bool :=
  if ib_carry_in o || ib_carry_out o || ib_sat o || negb (wide (ib_dst o)) || negb (no_division (ib_op o))
  then ret false
  else
    w <- get ;;
    let a := read_operand w (ib_a o) in
    let b := read_operand w (ib_b o) in
    put64 (id (ib_dst o)) m (λ l, default 0 (int_bin64 (ib_op o) (is_signed (ib_ty o)) (a !!! l) (b !!! l))) ;;;
    ret true.

Definition fast_mad_lo (o : MadLo) (m : Z) : M Warp bool :=
  if ml_carry_in o || ml_carry_out o || negb (bits (ml_ty o) =? 32) || wide (ml_dst o) ||
     negb (narrow_operand (ml_a o)) || negb (narrow_operand (ml_b o)) || negb (narrow_operand (ml_c o))
  then ret false
  else
    w <- get ;;
    let a := read_narrow w (ml_a o) in
    let b := read_narrow w (ml_b o) in
    let x := read_narrow w (ml_c o) in
    put32 (id (ml_dst o)) m (λ l, u32 ((a !!! l) * (b !!! l) + (x !!! l))) ;;; ret true.

Definition fast_mov (ty : Ty) (dst : Reg) (s : Operand) (m : Z) : M Warp bool :=
  if negb (bits ty =? 32) || wide dst || negb (narrow_operand s) then ret false
  else
    w <- get ;;
    let v := read_narrow w s in
    put32 (id dst) m (λ l, v !!! l) ;;; ret true.

Definition fast_setp (o : Setp) (m : Z) : M Warp bool :=
  if negb (bits (sp_ty o) =? 32) || is_bfloat (sp_ty o) || negb (narrow_operand (sp_a o)) ||
     negb (narrow_operand (sp_b o)) || bool_decide (is_Some (sp_bop o)) || bool_decide (is_Some (sp_q o))
  then ret false
  else
    w <- get ;;
    let a := read_narrow w (sp_a o) in
    let b := read_narrow w (sp_b o) in
    if ordered_cmp (sp_cmp o) then
      let res := gather_active m (λ l,
        default false (setp32 (sp_cmp o) (is_signed (sp_ty o)) (a !!! l) (b !!! l))) in
      set_pred (sp_dst o) (λ p, blend p res m) ;;; ret true
    else ret false.

Definition fast_mul_wide (src_bits : Z) (sg : bool) (dst : Reg) (oa ob : Operand) (m : Z) : M Warp bool :=
  if negb (src_bits =? 32) || negb (wide dst) || negb (narrow_operand oa) || negb (narrow_operand ob)
  then ret false
  else
    w <- get ;;
    let a := read_narrow w oa in
    let b := read_narrow w ob in
    put64 (id dst) m (λ l,
      if sg then u64 (i32 (a !!! l) * i32 (b !!! l)) else u64 ((a !!! l) * (b !!! l))) ;;;
    ret true.

Definition fast_kind (o : Op) : bool :=
  match o with
  | OpIntBin _ | OpMadLo _ | OpMov _ _ _ | OpSetp _ | OpMulWide _ _ _ _ _ => true
  | _ => false
  end.

Definition fast_path (o : Op) (m : Z) : M Warp bool :=
  match o with
  | OpIntBin o => if bits (ib_ty o) =? 64 then fast_int_bin64 o m else fast_int_bin o m
  | OpMadLo o => fast_mad_lo o m
  | OpMov ty dst s => fast_mov ty dst s m
  | OpSetp o => fast_setp o m
  | OpMulWide src_bits sg dst a b => fast_mul_wide src_bits sg dst a b m
  | _ => ret false
  end.

Definition dispatch (o : Op) (m : Z) : M Warp unit :=
  fast <- (if fast_enabled c then fast_path o m else ret false) ;;
  if fast : bool then ret tt else general o m.

(** ** Pre-decoded instructions *)

(** The lanes the guard lets through; [None] when its predicate is unwritten. *)
Definition micro_guard (w : Warp) (u : MicroOp) (m : Z) : option Z :=
  if kHasPred u then
    match nth_z (written32 w) (mpred u), nth_z (preds w) (mpred u) with
    | Some true, Some p => Some (Z.land m (negate (kPredNeg u) p))
    | _, _ => None
    end
  else Some m.

Definition micro_src (w : Warp) (u : MicroOp) (i : nat) : list Z :=
  if imm u i then fill (src u i) else file_read (regs32 w) (written32 w) (src u i).

Definition micro_src64 (w : Warp) (u : MicroOp) (i : nat) : list Z :=
  if imm u i then fill (u64 (i32 (src u i)))
  else if wide64 u i then file_read (regs64 w) (written64 w) (src u i)
  else file_read (regs32 w) (written32 w) (src u i).

(** A predicate source: an immediate, or a written predicate. *)
Definition micro_pred (w : Warp) (u : MicroOp) (i : nat) : option Z :=
  if imm u i then Some (if src u i =? 0 then 0 else unot 0)
  else
    match nth_z (written32 w) (src u i), nth_z (preds w) (src u i) with
    | Some true, Some p => Some p
    | _, _ => None
    end.

(** [w.written32[u.dst] = 1; Mask& p = w.preds[u.dst]; p = f(p)] *)
Definition micro_set_pred (u : MicroOp) (f : Z → Z) : M Warp unit := set_pred (mkReg (mdst u) false) f.

(** micro_carry_add_sub32 and micro_carry_mad_lo32: the results, and the carry
    bits of the lanes that ran. *)
Definition micro_carry (u : MicroOp) (fm : Z) (carry_out : bool) (f : nat → bool → Z * bool) : M Warp unit :=
  w <- get ;;
  put32 (mdst u) fm (λ l, (f l (bit (carry w) l)).1) ;;;
  if carry_out then
    modify (set_carry (foldl (λ out l,
      Z.lor (Z.land out (unot (Z.shiftl 1 (Z.of_nat l))))
        (Z.shiftl (Z.b2z (f l (bit (carry w) l)).2) (Z.of_nat l))) (carry w) (active_lanes fm)))
  else ret tt.

(** One lane of each. *)
Definition micro_add_sub (sub carry_in : bool) (cy : bool) (a b : Z) : Z * bool :=
  let cin := if carry_in then Z.b2z cy else if sub then 1 else 0 in
  let y := if sub then unot32 b else b in
  let sum := u32 (a + y + cin) in
  (sum, (sum <? a) || (negb (cin =? 0) && (sum =? a))).
Definition micro_mad (carry_in : bool) (cy : bool) (a b x : Z) : Z * bool :=
  let p := u32 (a * b) in
  let cin := if carry_in then Z.b2z cy else 0 in
  let sum := u32 (p + x + cin) in
  (sum, (sum <? p) || (negb (cin =? 0) && (sum =? p))).

(** The handlers; [w] is the warp they read, and [Ret false] declines, having changed
    nothing. *)
Definition micro_int32 (w : Warp) (u : MicroOp) (o : IntBinOp) (fm : Z) : M Warp bool :=
  let s i l := micro_src w u i !!! l in
  if negb (no_division o) && strict c then ret false
  else put32 (mdst u) fm (λ l, int_bin32 o (kSigned u) (s 0%nat l) (s 1%nat l)) ;;; ret true.

Definition micro_mad_lo32 (w : Warp) (u : MicroOp) (fm : Z) : M Warp bool :=
  let s i l := micro_src w u i !!! l in
  put32 (mdst u) fm (λ l, u32 (s 0%nat l * s 1%nat l + s 2%nat l)) ;;; ret true.

Definition micro_mov32 (w : Warp) (u : MicroOp) (fm : Z) : M Warp bool :=
  let s i l := micro_src w u i !!! l in
  put32 (mdst u) fm (λ l, s 0%nat l) ;;; ret true.

Definition micro_setp32 (w : Warp) (u : MicroOp) (o : CmpOp) (fm : Z) : M Warp bool :=
  let s i l := micro_src w u i !!! l in
  if ordered_cmp o then
    let res := gather_active fm (λ l, default false (setp32 o (kSigned u) (s 0%nat l) (s 1%nat l))) in
    micro_set_pred u (λ p, blend p res fm) ;;; ret true
  else ret false.

Definition micro_selp32 (w : Warp) (u : MicroOp) (fm : Z) : M Warp bool :=
  let s i l := micro_src w u i !!! l in
  match nth_z (written32 w) (src u 2), nth_z (preds w) (src u 2) with
  | Some true, Some p =>
      put32 (mdst u) fm (λ l, if bit p l then s 0%nat l else s 1%nat l) ;;; ret true
  | _, _ => ret false
  end.

Definition micro_not32 (w : Warp) (u : MicroOp) (fm : Z) : M Warp bool :=
  let s i l := micro_src w u i !!! l in
  put32 (mdst u) fm (λ l, unot32 (s 0%nat l)) ;;; ret true.

Definition micro_shf32 (w : Warp) (u : MicroOp) (fm : Z) : M Warp bool :=
  let s i l := micro_src w u i !!! l in
  put32 (mdst u) fm (λ l,
    let funnel := Z.lor (u64 (Z.shiftl (s 1%nat l) 32)) (s 0%nat l) in
    let n := if kWrap u then Z.land (s 2%nat l) 31 else s 2%nat l `min` 32 in
    if kLeft u then u32 (Z.shiftr (u64 (Z.shiftl funnel n)) 32) else u32 (Z.shiftr funnel n)) ;;;
  ret true.

Definition micro_int64 (w : Warp) (u : MicroOp) (o : IntBinOp) (fm : Z) : M Warp bool :=
  let s64 i l := micro_src64 w u i !!! l in
  if no_division o then
    put64 (mdst u) fm (λ l, default 0 (int_bin64 o (kSigned u) (s64 0%nat l) (s64 1%nat l))) ;;; ret true
  else ret false.

Definition micro_mul_wide32 (w : Warp) (u : MicroOp) (fm : Z) : M Warp bool :=
  let s i l := micro_src w u i !!! l in
  put64 (mdst u) fm (λ l,
    if kSigned u then u64 (i32 (s 0%nat l) * i32 (s 1%nat l)) else u64 (s 0%nat l * s 1%nat l)) ;;;
  ret true.

Definition micro_setp64 (w : Warp) (u : MicroOp) (o : CmpOp) (fm : Z) : M Warp bool :=
  let s64 i l := micro_src64 w u i !!! l in
  if ordered_cmp o then
    let res := gather_active fm (λ l, default false (setp64 o (kSigned u) (s64 0%nat l) (s64 1%nat l))) in
    micro_set_pred u (λ p, blend p res fm) ;;; ret true
  else ret false.

Definition micro_mul_hi32 (w : Warp) (u : MicroOp) (fm : Z) : M Warp bool :=
  let s i l := micro_src w u i !!! l in
  put32 (mdst u) fm (λ l,
    if kSigned u then u32 (Z.shiftr (u64 (i32 (s 0%nat l) * i32 (s 1%nat l))) 32)
    else u32 (Z.shiftr (u64 (s 0%nat l * s 1%nat l)) 32)) ;;;
  ret true.

Definition micro_sign32 (w : Warp) (u : MicroOp) (neg : bool) (fm : Z) : M Warp bool :=
  let s i l := micro_src w u i !!! l in
  put32 (mdst u) fm (λ l,
    if neg then u32 (0 - s 0%nat l)
    else let x := i32 (s 0%nat l) in u32 (if x <? 0 then - x else x)) ;;;
  ret true.

Definition micro_mov64 (w : Warp) (u : MicroOp) (fm : Z) : M Warp bool :=
  let s64 i l := micro_src64 w u i !!! l in
  put64 (mdst u) fm (λ l, s64 0%nat l) ;;; ret true.

Definition micro_mov_sreg (u : MicroOp) (sr : Sreg) (fm : Z) : M Warp bool :=
  put32 (mdst u) fm (λ l, sreg c sr l) ;;; ret true.

Definition micro_pred_bin (w : Warp) (u : MicroOp) (o : PredBinOp) (fm : Z) : M Warp bool :=
  match micro_pred w u 0, micro_pred w u 1 with
  | Some a, Some b =>
      micro_set_pred u (λ p, blend p (pred_mask o a b) fm) ;;; ret true
  | _, _ => ret false
  end.

Definition micro_not_pred (w : Warp) (u : MicroOp) (fm : Z) : M Warp bool :=
  match micro_pred w u 0 with
  | Some a => micro_set_pred u (λ p, blend p (unot a) fm) ;;; ret true
  | None => ret false
  end.

Definition micro_int16 (w : Warp) (u : MicroOp) (o : IntBinOp) (fm : Z) : M Warp bool :=
  let s i l := micro_src w u i !!! l in
  if no_division o then
    put32 (mdst u) fm (λ l,
      Z.land (default 0 (int_bin16 o (kSigned u) (s 0%nat l) (s 1%nat l))) 65535) ;;; ret true
  else ret false.

Definition micro_setp16 (w : Warp) (u : MicroOp) (o : CmpOp) (fm : Z) : M Warp bool :=
  let s i l := micro_src w u i !!! l in
  if ordered_cmp o then
    let cast v := if kSigned u then sread 16 v else Z.land v 65535 in
    let res := gather_active fm (λ l, do_cmp o (cast (s 0%nat l)) (cast (s 1%nat l))) in
    micro_set_pred u (λ p, blend p res fm) ;;; ret true
  else ret false.

Definition micro_mov16 (w : Warp) (u : MicroOp) (fm : Z) : M Warp bool :=
  let s i l := micro_src w u i !!! l in
  put32 (mdst u) fm (λ l, Z.land (s 0%nat l) 65535) ;;; ret true.

Definition micro_popc_clz32 (w : Warp) (u : MicroOp) (popc : bool) (fm : Z) : M Warp bool :=
  let s i l := micro_src w u i !!! l in
  put32 (mdst u) fm (λ l,
    if popc then u32 (popcount64_soft (s 0%nat l))
    else if s 0%nat l =? 0 then 32 else 31 - Z.log2 (s 0%nat l)) ;;;
  ret true.

Definition micro_carry_add_sub32 (w : Warp) (u : MicroOp) (sb ci co : bool) (fm : Z) : M Warp bool :=
  let s i l := micro_src w u i !!! l in
  micro_carry u fm co (λ l cy, micro_add_sub sb ci cy (s 0%nat l) (s 1%nat l)) ;;; ret true.

Definition micro_carry_mad_lo32 (w : Warp) (u : MicroOp) (ci co : bool) (fm : Z) : M Warp bool :=
  let s i l := micro_src w u i !!! l in
  micro_carry u fm co (λ l cy, micro_mad ci cy (s 0%nat l) (s 1%nat l) (s 2%nat l)) ;;; ret true.

Definition micro_mov_imm64 (u : MicroOp) (fm : Z) : M Warp bool :=
  put64 (mdst u) fm (λ l, konst u) ;;; ret true.

(** The switch. *)
Definition micro_body (u : MicroOp) (fm : Z) : M Warp bool :=
  w <- get ;;
  match mk u, sub u with
  | Int32, SubInt o => micro_int32 w u o fm
  | MadLo32, _ => micro_mad_lo32 w u fm
  | Mov32, _ => micro_mov32 w u fm
  | Setp32, SubCmp o => micro_setp32 w u o fm
  | Selp32, _ => micro_selp32 w u fm
  | Not32, _ => micro_not32 w u fm
  | Shf32, _ => micro_shf32 w u fm
  | Int64, SubInt o => micro_int64 w u o fm
  | MulWide32, _ => micro_mul_wide32 w u fm
  | Setp64, SubCmp o => micro_setp64 w u o fm
  | MulHi32, _ => micro_mul_hi32 w u fm
  | Sign32, SubBool neg => micro_sign32 w u neg fm
  | Mov64, _ => micro_mov64 w u fm
  | MovSreg, SubSreg sr => micro_mov_sreg u sr fm
  | PredBin, SubPred o => micro_pred_bin w u o fm
  | NotPred, _ => micro_not_pred w u fm
  | Int16, SubInt o => micro_int16 w u o fm
  | Setp16, SubCmp o => micro_setp16 w u o fm
  | Mov16, _ => micro_mov16 w u fm
  | PopcClz32, SubBool popc => micro_popc_clz32 w u popc fm
  | CarryAddSub32, SubCarry sb ci co => micro_carry_add_sub32 w u sb ci co fm
  | CarryMadLo32, SubCarry _ ci co => micro_carry_mad_lo32 w u ci co fm
  | MovImm64, _ => micro_mov_imm64 u fm
  | _, _ => ret false
  end.

Definition exec_micro (u : MicroOp) (m : Z) : M Warp bool :=
  w <- get ;;
  match micro_guard w u m with
  | None => ret false
  | Some fm =>
      if (fm =? 0) && negb (bool_decide (mk u = MBra)) then ret true else micro_body u fm
  end.

(** ** Divergence *)

(** The merging loops of select_path: a path takes the lanes of every later one at
    its pc, which is erased. *)
Definition absorb (p : Path) (rest : list Path) : Path :=
  foldr (λ q p, if pc q =? pc p then with_parked (with_mask p (Z.lor (mask p) (mask q))) kRunnable else p)
    p rest.
Definition others (p : Path) (rest : list Path) : list Path :=
  filter (λ q, pc q ≠ pc p) rest.
Fixpoint merge_paths (fuel : nat) (ps : list Path) : list Path :=
  match fuel, ps with
  | S f, p :: rest => absorb p rest :: merge_paths f (others p rest)
  | _, _ => ps
  end.

Definition runnable (p : Path) : bool := bool_decide (parked p = kRunnable).

(** Lowest pc first, among the paths not waiting: the loop over [best]. *)
Definition lowest_pc (ps : list Path) : option nat :=
  foldl (λ best i,
    match ps !! i with
    | Some p =>
        if runnable p then
          match best ≫= λ b, ps !! b with
          | Some q => if pc p <? pc q then Some i else best
          | None => Some i
          end
        else best
    | None => best
    end) None (seq 0 (length ps)).

(** The first path owed instructions. *)
Definition boosted (ps : list Path) : option nat :=
  fst <$> list_find (λ p, runnable p && negb (boost p =? 0) = true) ps.

(** The starved path that has waited longest. *)
Definition starved (n : Z) (ps : list Path) : option nat :=
  foldl (λ pick i,
    match ps !! i with
    | Some p =>
        if runnable p && (kStarvedSteps <? u64 (n - issued_at p)) then
          match pick ≫= λ b, ps !! b with
          | Some q => if issued_at p <? issued_at q then Some i else pick
          | None => Some i
          end
        else pick
    | None => pick
    end) None (seq 0 (length ps)).

Definition alter_path (i : nat) (f : Path → Path) (w : Warp) : Warp := set_paths (alter f i (paths w)) w.

Definition select_path : M Warp nat := λ w,
  match paths w with
  | [p] => Ret 0%nat (set_paths [with_issued (with_parked p kRunnable) (steps w)] w)
  | ps =>
      let ps := merge_paths (length ps) ps in
      let best := default 0%nat (lowest_pc ps) in
      let '(pick, ps) :=
        match boosted ps with
        | Some i => (Some i, ps)
        | None =>
            match starved (steps w) ps with
            | Some i => (Some i, alter (λ p, with_boost p kBoostSteps) i ps)
            | None => (None, ps)
            end
        end in
      let '(best, ps) :=
        match pick with
        | Some i => (i, alter (λ p, with_boost p (boost p - 1)) i ps)
        | None => (best, ps)
        end in
      match ps !! best with
      | Some p => Ret best (set_paths (<[best := with_issued p (steps w)]> ps) w)
      | None => Undef
      end
  end.

Definition select_other_runnable (w : Warp) (idx : nat) : nat :=
  default idx (head (filter (λ i, i ≠ idx ∧ default false (runnable <$> paths w !! i) = true)
                       (seq 0 (length (paths w))))).

(** [w.paths[idx].f], and a new path. *)
Definition path_at (idx : nat) : M Warp Path := λ w,
  match paths w !! idx with Some p => Ret p w | None => Undef end.
Definition set_pc (idx : nat) (n : Z) : M Warp unit := modify (alter_path idx (λ p, with_pc p n)).
Definition push_path (n m : Z) : M Warp unit :=
  modify (λ w, set_paths (paths w ++ [mkPath n m kRunnable (steps w) 0]) w).

Definition exec_bra (turn_start : Z) (idx : nat) (target m : Z) : M Warp unit :=
  w <- get ;;
  p <- path_at idx ;;
  when (negb (m =? 0) && (target <=? pc p) && (kLongTurn <=? u64 (steps w - turn_start)))
    (modify (set_yield true)) ;;;
  let fallthrough := Z.land (mask p) (unot m) in
  if m =? 0 then set_pc idx (pc p + 1)
  else if fallthrough =? 0 then set_pc idx target
  else
    modify (alter_path idx (λ p, with_mask (with_pc p target) m)) ;;;
    push_path (pc p + 1) fallthrough.

(** The groups of brx.idx: a target and the lanes going there, in the order the
    lanes are visited; [None] when a lane's index is outside the list. *)
Definition add_group (t : Z) (l : nat) (gs : list (Z * Z)) : list (Z * Z) :=
  match list_find (λ g, g.1 = t) gs with
  | Some (i, _) => alter (λ g, (g.1, Z.lor g.2 (Z.shiftl 1 (Z.of_nat l)))) i gs
  | None => gs ++ [(t, Z.lor 0 (Z.shiftl 1 (Z.of_nat l)))]
  end.
Definition brx_groups (targets index : list Z) (m : Z) : option (list (Z * Z)) :=
  foldl (λ acc l,
    gs ← acc;
    t ← nth_z targets (u32 (index !!! l));
    Some (add_group t l gs)) (Some []) (walk 64 m).

Definition exec_brx (turn_start : Z) (idx : nat) (a : Operand) (targets : list Z) (m : Z) : M Warp unit :=
  w <- get ;;
  p <- path_at idx ;;
  if m =? 0 then set_pc idx (pc p + 1)
  else
    match brx_groups targets (read_operand w a) m with
    | None => throw OutOfBounds
    | Some gs =>
        when ((kLongTurn <=? u64 (steps w - turn_start)) && existsb (λ g, g.1 <=? pc p) gs)
          (modify (set_yield true)) ;;;
        let fallthrough := Z.land (mask p) (unot m) in
        match gs with
        | [] => undef
        | g :: rest =>
            if bool_decide (rest = []) && (fallthrough =? 0) then set_pc idx g.1
            else
              modify (alter_path idx (λ p, with_mask (with_pc p g.1) g.2)) ;;;
              foldl (λ k g, k ;;; push_path g.1 g.2) (ret tt) rest ;;;
              when (negb (fallthrough =? 0)) (push_path (pc p + 1) fallthrough)
        end
    end.

(** exec_ret outside a call. *)
Definition exec_ret (idx : nat) (m : Z) : M Warp unit :=
  p <- path_at idx ;;
  modify (λ w, set_exited (Z.lor (exited w) m) w) ;;;
  let survivors := Z.land (mask p) (unot m) in
  (if survivors =? 0 then modify (λ w, set_paths (delete idx (paths w)) w)
   else modify (alter_path idx (λ p, with_pc (with_mask p survivors) (pc p + 1)))) ;;;
  w <- get ;;
  when (bool_decide (paths w = [])) (modify (set_state Done)).

(** bar.sync without a count. *)
Definition exec_bar (idx : nat) (guarded : bool) (bar : Operand) (m : Z) : M Warp unit :=
  p <- path_at idx ;;
  if guarded && (m =? 0) then set_pc idx (pc p + 1)
  else if guarded && negb (m =? mask p) then throw UnsupportedPtx
  else
    w <- get ;;
    if (1 <? Z.of_nat (length (paths w))) then
      if Nat.eqb (select_other_runnable w idx) idx then throw UnsupportedPtx
      else modify (alter_path idx (λ p, with_parked p kAtBarrier))
    else
      let b := read_operand w bar !!! first_set m in
      if 15 <? b then throw InvalidValue
      else
        set_pc idx (pc p + 1) ;;;
        modify (set_state AtBarrier) ;;; modify (set_barrier b).

(** The guard: the lanes of a path that run the instruction. *)
Definition guard (ins : Instr) (m : Z) : M Warp Z :=
  if has_pred ins then
    p <- read_pred (pred ins) ;; ret (Z.land m (negate (pred_negated ins) p))
  else ret m.

Definition step (turn_start : Z) (idx : nat) (ins : Instr) : M Warp unit :=
  p <- path_at idx ;;
  m <- guard ins (mask p) ;;
  match op ins with
  | OpBra target => exec_bra turn_start idx target m
  | OpBrx a targets => exec_brx turn_start idx a targets m
  | OpRet => exec_ret idx m
  | OpBar bar => exec_bar idx (has_pred ins) bar m
  | o => when (negb (m =? 0)) (dispatch o m) ;;; set_pc idx (pc p + 1)
  end.

(** ** The loop *)

Definition micro : list MicroOp := build_micro (body c).

(** run_micro_batch. [ps] is what the other paths were when it began: their pcs,
    and of those that could take the turn also when they last issued. *)
Definition batch_ok (w : Warp) (idx : nat) : bool :=
  (length (paths w) <=? kMaxOthers + 1)%nat && forallb (λ p, boost p =? 0) (paths w).

Definition would_switch (ps : list Path) (idx : nat) (n at_ : Z) : bool :=
  existsb (λ iq, negb (Nat.eqb iq.1 idx) &&
    ((pc iq.2 =? at_) ||
     (runnable iq.2 && ((pc iq.2 <? at_) || (kStarvedSteps <? u64 (n - issued_at iq.2))))))
    (imap pair ps).

(** [Ret (n, issued)]: how many ran, and the slice's count. *)
Fixpoint batch_loop (fuel : nat) (turn_start slice : Z) (idx : nat) (n issued : Z) : M Warp (Z * Z) :=
  match fuel with
  | O => undef
  | S fuel =>
      w <- get ;;
      p <- path_at idx ;;
      let multi := 1 <? Z.of_nat (length (paths w)) in
      match nth_z micro (pc p) with
      | None => ret (n, issued)
      | Some u =>
          if bool_decide (mk u = MNone) then ret (n, issued)
          else if negb (n =? 0) && negb (slice =? 0) && (slice <=? issued) then ret (n, issued)
          else if max_steps c <? steps w + 1 then ret (n, issued)
          else if multi && negb (n =? 0) && would_switch (paths w) idx (steps w) (pc p) then ret (n, issued)
          else
            when (multi && negb (n =? 0)) (modify (alter_path idx (λ p, with_issued p (steps w)))) ;;;
            r <- (if bool_decide (mk u = MBra) then
                    match micro_guard w u (mask p) with
                    | None => ret None
                    | Some fm =>
                        if negb (fm =? 0) && negb (fm =? mask p) then ret None
                        else if fm =? 0 then ret (Some (pc p + 1, false))
                        else ret (Some (src u 0, (src u 0 <=? pc p) &&
                                     (kLongTurn <=? u64 (steps w + 1 - turn_start))))
                    end
                  else
                    ok <- exec_micro u (mask p) ;;
                    ret (if ok : bool then Some (pc p + 1, false) else None)) ;;
            match r with
            | None => ret (n, issued)
            | Some (next, yield) =>
                let issued := if n =? 0 then issued else issued + 1 in
                modify (λ w, set_steps (steps w + 1) w) ;;;
                set_pc idx next ;;;
                if yield : bool then modify (set_yield true) ;;; ret (n + 1, issued)
                else batch_loop fuel turn_start slice idx (n + 1) issued
            end
      end
  end.

Definition run_micro_batch (turn_start slice : Z) (idx : nat) (issued : Z) : M Warp (Z * Z) :=
  w <- get ;;
  if (1 <? Z.of_nat (length (paths w))) && negb (batch_ok w idx) then ret (0, issued)
  else batch_loop (S (Z.to_nat (max_steps c - steps w))) turn_start slice idx 0 issued.

(** One instruction of the warp, after select_path has picked [idx] at [ins]. *)
Definition issue (turn_start : Z) (idx : nat) (ins : Instr) : M Warp unit :=
  modify (λ w, set_steps (steps w + 1) w) ;;;
  w <- get ;;
  if max_steps c <? steps w then throw ExecLimit
  else
    p <- path_at idx ;;
    fast <- (if fast_enabled c then
               match nth_z micro (pc p) with
               | Some u => if bool_decide (mk u = MNone) then ret false else exec_micro u (mask p)
               | None => ret false
               end
             else ret false) ;;
    if fast : bool then set_pc idx (pc p + 1)
    else
      fast <- (if fast_enabled c && fast_kind (op ins) then
                 fm <- guard ins (mask p) ;;
                 if fm =? 0 then ret true else fast_path (op ins) fm
               else ret false) ;;
      if fast : bool then set_pc idx (pc p + 1) else step turn_start idx ins.

(** One pass of the loop of run_warp_until_yield while the warp is ready: [Ret
    (Some issued)] goes round again, [Ret None] returns. *)
Definition pass (turn_start slice issued : Z) : M Warp (option Z) :=
  if negb (slice =? 0) && (slice <=? issued) then ret None
  else
    let issued := if slice =? 0 then issued else issued + 1 in
    w <- get ;;
    if bool_decide (paths w = []) then modify (set_state Done) ;;; ret None
    else if yield_now w then modify (set_yield false) ;;; ret None
    else
      idx <- select_path ;;
      p <- path_at idx ;;
      match nth_z (body c) (pc p) with
      | None => exec_ret idx (mask p) ;;; ret (Some issued)
      | Some ins =>
          nb <- (if fast_enabled c then run_micro_batch turn_start slice idx issued else ret (0, issued)) ;;
          if nb.1 =? 0 then issue turn_start idx ins ;;; ret (Some issued) else ret (Some nb.2)
      end.

Fixpoint run_loop (fuel : nat) (turn_start slice issued : Z) : M Warp unit :=
  match fuel with
  | O => undef
  | S fuel =>
      w <- get ;;
      if bool_decide (state w = Ready) then
        r <- pass turn_start slice issued ;;
        match r with
        | None => ret tt
        | Some issued => run_loop fuel turn_start slice issued
        end
      else ret tt
  end.

(** Enough passes: each counts a step or retires a path, of which a warp has at most
    one a lane. *)
Definition loop_fuel (w : Warp) : nat :=
  (S (S (Z.to_nat (max_steps c - steps w))) * S (S W) + length (paths w))%nat.

Definition run_warp_until_yield (slice : Z) : M Warp unit :=
  w <- get ;;
  modify (λ w, set_paths ((λ p, if bool_decide (parked p = kThisTurn) then with_parked p kRunnable else p)
                            <$> paths w) w) ;;;
  run_loop (loop_fuel w) (steps w) slice 0.
End exec.

(** ** Opening the handlers *)

(** Every handler of dispatch, unfolded. *)
Ltac open_general :=
  unfold general, do_int_bin, do_mad_lo, do_setp, do_selp, do_pred_bin, do_not_pred.

(** Every handler of exec_micro, unfolded. *)
Ltac open_micro :=
  unfold micro_body, micro_int32, micro_mad_lo32, micro_mov32, micro_setp32, micro_selp32,
    micro_not32, micro_shf32, micro_int64, micro_mul_wide32, micro_setp64, micro_mul_hi32,
    micro_sign32, micro_mov64, micro_mov_sreg, micro_pred_bin, micro_not_pred,
    micro_int16, micro_setp16, micro_mov16, micro_popc_clz32, micro_carry_add_sub32,
    micro_carry_mad_lo32, micro_mov_imm64.
