(* ===== verification/Lanes.v ===== *)
(** * Masks and arrays of lanes

    What the mask loops of [Warp] visit, and what a store through them leaves in each
    lane: for_active's two loops (all lanes, or the set bits one by one) touch exactly
    the lanes of the mask. *)

From S2P Require Import Prelude Alu Isa Warp.

(** ** Bits of 64-bit masks *)

Lemma bit_spec m l : bit m l = Z.testbit m (Z.of_nat l).
Proof. done. Qed.

Lemma bit_high m l n : 0 ≤ m < 2 ^ n → n ≤ Z.of_nat l → bit m l = false.
Proof.
  intros Hm Hl. unfold bit. destruct (Z.lt_ge_cases n 0) as [Hn|Hn].
  { rewrite Z.pow_neg_r in Hm by lia. lia. }
  rewrite <- (Z.mod_small m (2 ^ n)) by lia. apply Z.mod_pow2_bits_high. lia.
Qed.

Lemma mask_eq n m m' : 0 ≤ m < 2 ^ Z.of_nat n → 0 ≤ m' < 2 ^ Z.of_nat n →
  (∀ l, (l < n)%nat → bit m l = bit m' l) → m = m'.
Proof.
  intros Hm Hm' H. apply Z.bits_inj'. intros i Hi. destruct (Z.lt_ge_cases i (Z.of_nat n)).
  - specialize (H (Z.to_nat i) ltac:(lia)). unfold bit in H. by rewrite Z2Nat.id in H by lia.
  - pose proof (bit_high m (Z.to_nat i) (Z.of_nat n) Hm ltac:(lia)) as E1.
    pose proof (bit_high m' (Z.to_nat i) (Z.of_nat n) Hm' ltac:(lia)) as E2.
    unfold bit in *. rewrite Z2Nat.id in E1, E2 by lia. congruence.
Qed.

Lemma bit_land a b l : bit (Z.land a b) l = bit a l && bit b l.
Proof. apply Z.land_spec. Qed.
Lemma bit_lor a b l : bit (Z.lor a b) l = bit a l || bit b l.
Proof. apply Z.lor_spec. Qed.
Lemma bit_lxor a b l : bit (Z.lxor a b) l = xorb (bit a l) (bit b l).
Proof. apply Z.lxor_spec. Qed.
Lemma bit_0 l : bit 0 l = false.
Proof. apply Z.bits_0. Qed.
Lemma bit_unot a l : (l < 64)%nat → bit (unot a) l = negb (bit a l).
Proof. intros. apply unot_testbit. lia. Qed.
Lemma bit_one k l : bit (Z.shiftl 1 (Z.of_nat k)) l = Nat.eqb l k.
Proof.
  unfold bit. rewrite shiftl_1_pow2 by lia. destruct (Nat.eqb_spec l k) as [->|].
  - by apply Z.pow2_bits_true; lia.
  - apply Z.pow2_bits_false. lia.
Qed.
Lemma bit_shift_b2z b k l : bit (Z.shiftl (Z.b2z b) (Z.of_nat k)) l = b && Nat.eqb l k.
Proof. destruct b; simpl; [apply bit_one|]. rewrite Z.shiftl_0_l. apply bit_0. Qed.

Lemma land_range a b n : 0 ≤ n → 0 ≤ a < 2 ^ n → 0 ≤ b → 0 ≤ Z.land a b < 2 ^ n.
Proof.
  intros Hn Ha Hb. rewrite <- (Z.mod_small a (2 ^ n)), <- (land_pow2_mod a n), <- Z.land_assoc,
    (Z.land_comm (2 ^ n - 1)), Z.land_assoc, land_pow2_mod by lia.
  apply Z.mod_pos_bound. by apply pow2_pos.
Qed.

Lemma lor_range a b n : 0 ≤ n → 0 ≤ a < 2 ^ n → 0 ≤ b < 2 ^ n → 0 ≤ Z.lor a b < 2 ^ n.
Proof.
  intros Hn Ha Hb. split; [apply Z.lor_nonneg; lia|].
  rewrite <- (Z.mod_small a (2 ^ n)), <- (Z.mod_small b (2 ^ n)) by lia.
  replace (Z.lor (a mod 2 ^ n) (b mod 2 ^ n)) with (Z.lor (a mod 2 ^ n) (b mod 2 ^ n) mod 2 ^ n).
  { apply Z.mod_pos_bound. by apply pow2_pos. }
  apply Z.bits_inj'. intros i Hi. destruct (Z.lt_ge_cases i n).
  - by rewrite Z.mod_pow2_bits_low by lia.
  - rewrite Z.mod_pow2_bits_high, Z.lor_spec, !Z.mod_pow2_bits_high by lia. done.
Qed.

(** ** The walk over the set bits *)

Lemma mask_has_bit m : 0 < m < 2 ^ 64 → ∃ l, (l < 64)%nat ∧ bit m l = true.
Proof.
  intros Hm. destruct (decide (Exists (λ l, bit m l = true) (seq 0 64))) as [H|H].
  - apply Exists_exists in H as (l & Hl & ?). apply elem_of_seq in Hl. exists l. split; [lia|done].
  - exfalso. enough (m = 0) by lia. apply (mask_eq 64); [lia|lia|]. intros l Hl.
    rewrite bit_0. destruct (bit m l) eqn:E; [|done]. destruct H. apply Exists_exists.
    exists l. split; [apply elem_of_seq; lia|done].
Qed.

(** The first element of a filtered range is its least. *)
Lemma head_filter_seq (P : nat → Prop) `{!∀ n, Decision (P n)} a n k :
  (a ≤ k < a + n)%nat → P k →
  ∃ j, head (filter P (seq a n)) = Some j ∧ (a ≤ j ≤ k)%nat ∧ P j ∧ ∀ i, (a ≤ i < j)%nat → ¬ P i.
Proof.
  revert a. induction n as [|n IH]; intros a Hk HP; [lia|]. cbn [seq]. rewrite filter_cons.
  destruct (decide (P a)).
  - exists a. split_and!; [done|lia|lia|done|lia].
  - assert (k ≠ a) by congruence. destruct (IH (S a) ltac:(lia) HP) as (j & E & Hj & Pj & Hl).
    exists j. split_and!; [done|lia|lia|done|]. intros i Hi. destruct (decide (i = a)) as [->|]; [done|].
    apply Hl. lia.
Qed.

Lemma ctzll_spec m : 0 < m < 2 ^ 64 →
  (ctzll m < 64)%nat ∧ bit m (ctzll m) = true ∧ ∀ i, (i < ctzll m)%nat → bit m i = false.
Proof.
  intros Hm. destruct (mask_has_bit m Hm) as (k & Hk & HB).
  destruct (head_filter_seq (λ l, bit m l = true) 0 64 k ltac:(lia) HB) as (j & E & Hj & HP & Hl).
  unfold ctzll. rewrite E. simpl. split_and!; [lia|done|]. intros i Hi.
  apply not_true_iff_false, Hl. lia.
Qed.

(** [m & (m - 1)] clears the lowest set bit. *)
Lemma clear_lowest m l : 0 < m < 2 ^ 64 → bit (Z.land m (m - 1)) l = bit m l && negb (Nat.eqb l (ctzll m)).
Proof.
  intros Hm. destruct (ctzll_spec m Hm) as (Hk & HB & HL). set (k := ctzll m) in *.
  set (q := m / 2 ^ (Z.of_nat k + 1)).
  assert (P1 : 0 < 2 ^ Z.of_nat k) by (apply pow2_pos; lia).
  assert (P2 : 2 ^ (Z.of_nat k + 1) = 2 * 2 ^ Z.of_nat k) by (rewrite Z.pow_add_r by lia; lia).
  assert (E : m = 2 ^ Z.of_nat k + 2 ^ (Z.of_nat k + 1) * q).
  { assert (HM : m mod 2 ^ (Z.of_nat k + 1) = 2 ^ Z.of_nat k).
    { rewrite <- (Z.mod_small (2 ^ Z.of_nat k) (2 ^ (Z.of_nat k + 1))) by lia.
      apply mod_pow2_bits; [lia|]. intros i Hi.
      destruct (decide (i = Z.of_nat k)) as [->|Hne].
      - rewrite Z.pow2_bits_true by lia. exact HB.
      - rewrite Z.pow2_bits_false by lia. specialize (HL (Z.to_nat i) ltac:(lia)).
        unfold bit in HL. by rewrite Z2Nat.id in HL by lia. }
    unfold q. rewrite (Z.div_mod m (2 ^ (Z.of_nat k + 1))) at 1 by lia. lia. }
  rewrite bit_land. destruct (bit m l) eqn:El; [|done]. simpl.
  replace (m - 1) with (Z.lor (2 ^ Z.of_nat k - 1) (Z.shiftl q (Z.of_nat k + 1))).
  2: { rewrite lor_shiftl_add by lia. lia. }
  rewrite bit_lor. unfold bit at 1 2. rewrite Z.shiftl_spec by lia.
  replace (2 ^ Z.of_nat k - 1) with (Z.ones (Z.of_nat k)) by (rewrite Z.ones_equiv; lia).
  rewrite testbit_ones' by lia. destruct (Nat.eqb_spec l k) as [->|Hne]; simpl.
  - rewrite (Z.testbit_neg_r q) by lia. bool_cases; done.
  - assert (¬ (l < k)%nat) by (intros Hl; rewrite (HL l Hl) in El; done).
    replace (Z.of_nat l <? Z.of_nat k) with false by (symmetry; apply Z.ltb_ge; lia). simpl.
    unfold bit in El. rewrite E in El.
    rewrite <- (lor_shiftl_add (2 ^ Z.of_nat k) q (Z.of_nat k + 1)) in El by lia.
    rewrite Z.lor_spec, Z.pow2_bits_false, Z.shiftl_spec in El by lia. done.
Qed.

Lemma elem_of_walk fuel m l : 0 ≤ m < 2 ^ 64 → (∀ i, (i < 64 - fuel)%nat → bit m i = false) →
  l ∈ walk fuel m ↔ bit m l = true.
Proof.
  revert m. induction fuel as [|f IH]; intros m Hm HF; cbn [walk].
  - split; [by intros ?%elem_of_nil|]. intros HB. exfalso.
    destruct (decide (l < 64)%nat); [rewrite HF in HB by lia; done|].
    rewrite (bit_high m l 64) in HB by lia. done.
  - destruct (Z.eqb_spec m 0) as [->|Hne].
    { rewrite bit_0. split; [by intros ?%elem_of_nil|done]. }
    destruct (ctzll_spec m ltac:(lia)) as (Hk & HB & HL).
    rewrite elem_of_cons, IH.
    + rewrite clear_lowest by lia. destruct (Nat.eqb_spec l (ctzll m)) as [->|]; simpl.
      * rewrite andb_false_r. intuition.
      * rewrite andb_true_r. intuition congruence.
    + apply land_range; lia.
    + intros i Hi. rewrite clear_lowest by lia. destruct (Nat.eqb_spec i (ctzll m)); simpl; [apply andb_false_r|].
      rewrite andb_true_r. destruct (decide (i < ctzll m)%nat); [by apply HL|].
      destruct (decide (i < 64 - S f)%nat); [by apply HF|].
      assert (ctzll m < 64 - S f)%nat by lia. rewrite HF in HB by done. done.
Qed.

(** ** The loops *)

Lemma bit_blend p v m l : (l < 64)%nat → bit (blend p v m) l = if bit m l then bit v l else bit p l.
Proof.
  intros. unfold blend. rewrite bit_lor, !bit_land, bit_unot by done.
  destruct (bit m l), (bit v l), (bit p l); done.
Qed.

Lemma is_u64_blend p v m : is_u64 p → is_u64 v → is_u64 m → is_u64 (blend p v m).
Proof.
  intros Hp Hv Hm. unfold blend. assert (Hu : is_u64 (unot m)) by apply u64_range. unfold is_u64 in *.
  change 18446744073709551616 with (2 ^ 64) in *. apply lor_range; [lia|apply land_range; lia..].
Qed.

Lemma foldl_insert_length {A} (f : nat → A) (L : list nat) (d : list A) :
  length (foldl (λ d l, <[l := f l]> d) d L) = length d.
Proof. revert d. induction L as [|l L IH]; intros d; simpl; [done|]. by rewrite IH, length_insert. Qed.

Lemma foldl_insert_lookup {A} (f : nat → A) (L : list nat) (d : list A) i :
  (i < length d)%nat →
  foldl (λ d l, <[l := f l]> d) d L !! i = if bool_decide (i ∈ L) then Some (f i) else d !! i.
Proof.
  revert d. induction L as [|l L IH]; intros d Hi; cbn [foldl].
  - rewrite bool_decide_eq_false_2; [done|]. apply not_elem_of_nil.
  - rewrite IH by (by rewrite length_insert). destruct (decide (i ∈ L)).
    + rewrite !bool_decide_eq_true_2; [done|by right|done].
    + rewrite (bool_decide_eq_false_2 (i ∈ L)) by done. destruct (decide (i = l)) as [->|Hne].
      * rewrite bool_decide_eq_true_2 by left. by apply list_lookup_insert_eq.
      * rewrite bool_decide_eq_false_2; [by apply list_lookup_insert_ne|].
        intros [?|?]%elem_of_cons; congruence.
Qed.

Lemma foldl_set_bits (f : nat → bool) (L : list nat) t l :
  bit (foldl (λ t l, if f l then Z.lor t (Z.shiftl 1 (Z.of_nat l)) else t) t L) l =
  bit t l || (bool_decide (l ∈ L) && f l).
Proof.
  revert t. induction L as [|k L IH]; intros t; cbn [foldl].
  { rewrite bool_decide_eq_false_2 by apply not_elem_of_nil. by rewrite orb_false_r. }
  rewrite IH. destruct (decide (l = k)) as [->|Hne].
  - rewrite (bool_decide_eq_true_2 (k ∈ k :: L)) by left. simpl.
    destruct (f k) eqn:E; [rewrite bit_lor, bit_one, Nat.eqb_refl, orb_true_r; done|].
    by rewrite andb_false_r.
  - replace (bool_decide (l ∈ k :: L)) with (bool_decide (l ∈ L)).
    2: { apply bool_decide_ext. rewrite elem_of_cons. intuition congruence. }
    destruct (f k); [|done]. rewrite bit_lor, bit_one.
    apply Nat.eqb_neq in Hne. by rewrite Hne, orb_false_r.
Qed.

Section lanes.
Context (c : Cfg) (HW : (1 ≤ W c ≤ 64)%nat).
#[local] Abbreviation W := (W c).

(** A mask of the warp's lanes. *)
Definition is_mask (m : Z) : Prop := 0 ≤ m < 2 ^ Z.of_nat W.

Lemma is_mask_64 m : is_mask m → 0 ≤ m < 2 ^ 64.
Proof. unfold is_mask. intros. pose proof (Z.pow_le_mono_r 2 (Z.of_nat W) 64). lia. Qed.

Lemma is_mask_bit m l : is_mask m → bit m l = true → (l < W)%nat.
Proof.
  intros Hm HB. destruct (decide (l < W)%nat); [done|]. rewrite (bit_high m l (Z.of_nat W)) in HB; [done|done|lia].
Qed.

Lemma is_mask_land m p : is_mask m → 0 ≤ p → is_mask (Z.land m p).
Proof. intros. apply land_range; unfold is_mask in *; lia. Qed.

Lemma is_mask_lor m p : is_mask m → is_mask p → is_mask (Z.lor m p).
Proof. intros. apply lor_range; unfold is_mask in *; lia. Qed.

Lemma all_lanes_ones : all_lanes c = 2 ^ Z.of_nat W - 1.
Proof.
  unfold all_lanes. rewrite Z.shiftl_mul_pow2 by lia.
  replace (2 * 2 ^ (Z.of_nat W - 1)) with (2 ^ Z.of_nat W).
  2: { rewrite <- Z.pow_succ_r by lia. f_equal. lia. }
  pose proof (pow2_pos (Z.of_nat W)). pose proof (Z.pow_le_mono_r 2 (Z.of_nat W) 64).
  destruct (decide (W = 64%nat)) as [->|]; [done|].
  assert (2 ^ Z.of_nat W ≤ 2 ^ 63) by (apply Z.pow_le_mono_r; lia).
  rewrite (u64_small (2 ^ _)); [apply u64_small|]; unfold is_u64; lia.
Qed.

Lemma bit_all_lanes l : bit (all_lanes c) l = bool_decide (l < W)%nat.
Proof.
  rewrite all_lanes_ones. unfold bit.
  replace (2 ^ Z.of_nat W - 1) with (Z.ones (Z.of_nat W)) by (rewrite Z.ones_equiv; lia).
  rewrite testbit_ones' by lia. case_bool_decide; bool_cases; done.
Qed.

Lemma elem_of_active m l : is_mask m → l ∈ active_lanes c m ↔ bit m l = true.
Proof.
  intros Hm. unfold active_lanes. destruct (Z.eqb_spec m (all_lanes c)) as [->|].
  - rewrite bit_all_lanes, bool_decide_eq_true, elem_of_seq. lia.
  - apply elem_of_walk; [by apply is_mask_64|]. intros i Hi. lia.
Qed.

Lemma length_for_active m f d : length (for_active c m f d) = length d.
Proof. apply foldl_insert_length. Qed.

(** for_active writes the lanes of the mask and no other. *)
Lemma lookup_for_active m f d l : is_mask m → (l < length d)%nat →
  for_active c m f d !! l = if bit m l then Some (f l) else d !! l.
Proof.
  intros Hm Hl. unfold for_active. rewrite foldl_insert_lookup by done.
  destruct (bit m l) eqn:E.
  - rewrite bool_decide_eq_true_2; [done|]. by apply elem_of_active.
  - rewrite bool_decide_eq_false_2; [done|]. rewrite elem_of_active by done. congruence.
Qed.

Lemma for_active_ext m f g d : is_mask m → (∀ l, bit m l = true → f l = g l) →
  for_active c m f d = for_active c m g d.
Proof.
  intros Hm H. apply list_eq. intros l. destruct (decide (l < length d)%nat).
  - rewrite !lookup_for_active by done. destruct (bit m l) eqn:E; [|done]. by rewrite H.
  - rewrite !lookup_ge_None_2; [done|rewrite length_for_active; lia..].
Qed.

Lemma bit_gather m f l : bit (gather c m f) l = bool_decide (l < W)%nat && (bit m l && f l).
Proof.
  unfold gather. rewrite (foldl_set_bits (λ l, bit m l && f l)), bit_0. simpl. f_equal.
  apply bool_decide_ext. rewrite elem_of_seq. lia.
Qed.

Lemma bit_gather_active m f l : is_mask m → bit (gather_active c m f) l = bit m l && f l.
Proof.
  intros Hm. unfold gather_active.
  assert (E : ∀ L t, foldl (λ t l, Z.lor t (Z.shiftl (Z.b2z (f l)) (Z.of_nat l))) t L =
    foldl (λ t l, if f l then Z.lor t (Z.shiftl 1 (Z.of_nat l)) else t) t L).
  { induction L as [|k L IH]; intros t; simpl; [done|]. rewrite IH. f_equal.
    destruct (f k); simpl; [done|]. rewrite Z.shiftl_0_l. apply Z.lor_0_r. }
  rewrite E, foldl_set_bits, bit_0. simpl. f_equal.
  apply eq_true_iff_eq. rewrite bool_decide_eq_true. by apply elem_of_active.
Qed.

Lemma is_mask_gather m f : is_mask (gather c m f).
Proof.
  unfold gather. assert (H : ∀ L t, is_mask t → Forall (λ l, (l < W)%nat) L →
    is_mask (foldl (λ t l, if bit m l && f l then Z.lor t (Z.shiftl 1 (Z.of_nat l)) else t) t L)).
  { induction L as [|l L IH]; intros t Ht HL; simpl; [done|]. inversion HL; subst. apply IH; [|done].
    destruct (bit m l && f l); [|done]. apply is_mask_lor; [done|]. rewrite shiftl_1_pow2 by lia.
    unfold is_mask. split; [apply Z.pow_nonneg; lia|]. apply Z.pow_lt_mono_r; lia. }
  apply H; [unfold is_mask; split; [lia|apply pow2_pos; lia]|].
  apply Forall_forall. intros l Hl. apply elem_of_seq in Hl. lia.
Qed.

(** A blend depends only on the lanes of the mask. *)
Lemma blend_ext p v v' m : is_mask m → is_u64 p → 0 ≤ v → 0 ≤ v' →
  (∀ l, bit m l = true → bit v l = bit v' l) → blend p v m = blend p v' m.
Proof.
  intros Hm Hp Hv Hv' H. unfold blend. f_equal. apply (mask_eq W).
  - rewrite Z.land_comm. by apply is_mask_land.
  - rewrite Z.land_comm. by apply is_mask_land.
  - intros l _. rewrite !bit_land. destruct (bit m l) eqn:E; [by rewrite (H l E)|by rewrite !andb_false_r].
Qed.

Lemma for_lanes_some m f r : for_lanes c m f = Some r →
  length r = W ∧ ∀ l, bit m l = true → (l < W)%nat → f l = Some (r !!! l).
Proof.
  unfold for_lanes. intros H. apply mapM_Some in H. pose proof (Forall2_length _ _ _ H) as HL.
  rewrite length_seq in HL. split; [done|]. intros l HB Hl.
  apply (Forall2_lookup_l _ _ _ l l) in H as (y & Hy & E); [|by apply lookup_seq_lt].
  simpl in E. rewrite HB in E. by rewrite (list_lookup_total_correct _ _ _ Hy).
Qed.

Lemma for_lanes_total m f : (∀ l, bit m l = true → (l < W)%nat → is_Some (f l)) →
  ∃ r, for_lanes c m f = Some r.
Proof.
  intros H. unfold for_lanes.
  destruct (mapM _ (seq 0 W)) eqn:E; [by eexists|]. exfalso.
  apply mapM_None, Exists_exists in E as (l & Hl & E). apply elem_of_seq in Hl.
  destruct (bit m l) eqn:HB; [|done]. destruct (H l HB ltac:(lia)) as [y Hy]. congruence.
Qed.
End lanes.

#[export] Hint Resolve is_mask_land is_mask_lor is_mask_64 : vgpu.
