(* ===== verification/Thread.v ===== *)
(** * One thread, and the registers of a warp seen from it

    [Thread]: the registers, predicates and carry bit one lane owns; [teval]: what an
    instruction does to them; [tstep]: a scalar machine that runs the function for
    one thread, with no warp, masks, tiers or schedulers. [view] reads a lane's
    [Thread] out of a warp. The lemmas say what each register write of [Warp] does to
    the views, and that it keeps the files well-formed ([wf_regs]). *)

From S2P Require Import Prelude Alu Isa Warp Lanes.

(** ** The scalar machine *)

Record Thread := mkThread { t32 : list Z; t64 : list Z; tp : list bool; tcy : bool }.

Section thread.
Context (c : Cfg) (l : nat).

Definition topnd (t : Thread) (o : Operand) : Z :=
  match o with
  | RegOperand r => default 0 (nth_z (if wide r then t64 t else t32 t) (id r))
  | ImmInt v => u64 v
  | ImmFloatBits v => v
  | SregOperand s => sreg c s l
  end.

Definition tpred (t : Thread) (r : Reg) : bool := default false (nth_z (tp t) (pred_index c r)).

(** A result cut to the instruction's width and to the register's. *)
Definition cut (reg : Reg) (bits v : Z) : Z :=
  if wide reg then (if 64 <=? bits then v else Z.land v (Z.shiftl 1 bits - 1))
  else (if 32 <=? bits then u32 v else Z.land (u32 v) (Z.shiftl 1 bits - 1)).

Definition tset (t : Thread) (reg : Reg) (bits v : Z) : Thread :=
  if wide reg then mkThread (t32 t) (set_z (t64 t) (id reg) (cut reg bits v)) (tp t) (tcy t)
  else mkThread (set_z (t32 t) (id reg) (cut reg bits v)) (t64 t) (tp t) (tcy t).
Definition tset_pred (t : Thread) (r : Reg) (b : bool) : Thread :=
  mkThread (t32 t) (t64 t) (set_z (tp t) (pred_index c r) b) (tcy t).
Definition tset_carry (t : Thread) (b : bool) : Thread := mkThread (t32 t) (t64 t) (tp t) b.

Definition pred_op (o : PredBinOp) (x y : bool) : bool :=
  match o with PAnd => x && y | POr => x || y | PXor => xorb x y end.

Definition teval (o : Op) (t : Thread) : Thread :=
  let rd := topnd t in
  match o with
  | OpMov ty dst s => tset t dst (bits ty) (rd s)
  | OpIntBin o =>
      if ib_carry_in o || ib_carry_out o then
        let r := carry_add_sub (bits (ib_ty o)) (bool_decide (ib_op o = Sub)) (ib_carry_in o) (ib_carry_out o)
                   (tcy t) (rd (ib_a o)) (rd (ib_b o)) in
        tset (tset_carry t r.2) (ib_dst o) (bits (ib_ty o)) r.1
      else if ib_sat o then
        tset t (ib_dst o) (bits (ib_ty o)) (add_sub_sat (ib_op o) (rd (ib_a o)) (rd (ib_b o)))
      else
        tset t (ib_dst o) (bits (ib_ty o))
          (default 0 (int_bin false (ib_op o) (ib_ty o) (rd (ib_a o)) (rd (ib_b o))))
  | OpMadLo o =>
      if ml_carry_in o || ml_carry_out o then
        let r := carry_mad (bits (ml_ty o)) (ml_carry_in o) (ml_carry_out o) (tcy t)
                   (u64 (rd (ml_a o) * rd (ml_b o))) (rd (ml_c o)) in
        tset (tset_carry t r.2) (ml_dst o) (bits (ml_ty o)) r.1
      else tset t (ml_dst o) (bits (ml_ty o)) (u64 (rd (ml_a o) * rd (ml_b o) + rd (ml_c o)))
  | OpMulWide src_bits sg dst a b => tset t dst (src_bits * 2) (mul_wide src_bits sg (rd a) (rd b))
  | OpMulHi ty dst a b => tset t dst (bits ty) (mul_hi ty (rd a) (rd b))
  | OpSetp o =>
      let x := compare (sp_cmp o) (sp_ty o) (rd (sp_a o)) (rd (sp_b o)) in
      let combine x :=
        match sp_bop o with
        | None => x
        | Some (bop, cr, neg) => pred_op bop x (xorb neg (tpred t cr))
        end in
      let t1 := tset_pred t (sp_dst o) (combine x) in
      match sp_q o with
      | None => t1
      | Some q => tset_pred t1 q (combine (negb x))
      end
  | OpSelp ty dst a b p neg => tset t dst (bits ty) (if xorb neg (tpred t p) then rd a else rd b)
  | OpNot ty dst s logical => tset t dst (bits ty) (not_op logical (bits ty) (rd s))
  | OpNeg ty dst s => tset t dst (bits ty) (neg_op (rd s))
  | OpAbs ty dst s => tset t dst (bits ty) (abs_op (bits ty) (rd s))
  | OpShf lft wrap dst a b x => tset t dst 32 (shf lft wrap (rd a) (rd b) (rd x))
  | OpBfe ty dst a b x => tset t dst (bits ty) (bfe ty (rd a) (rd b) (rd x))
  | OpBfi ty dst a b x y => tset t dst (bits ty) (bfi ty (rd a) (rd b) (rd x) (rd y))
  | OpBrev ty dst s => tset t dst (bits ty) (brev (bits ty) (rd s))
  | OpPopcClz popc ty dst s => tset t dst 32 (popc_clz popc (bits ty) (rd s))
  | OpPredBin o dst a b a_imm b_imm a_neg b_neg =>
      let src r im neg := xorb neg (if 0 <=? im then negb (im =? 0) else tpred t r) in
      tset_pred t dst (pred_op o (src a a_imm a_neg) (src b b_imm b_neg))
  | OpNotPred dst s s_neg => tset_pred t dst (negb (xorb s_neg (tpred t s)))
  | _ => t
  end.

(** Where a thread is: at an instruction, or done. *)
Inductive TState := Running (pc : Z) (t : Thread) | Exited (t : Thread).

Definition tguard (ins : Instr) (t : Thread) : bool :=
  if has_pred ins then xorb (pred_negated ins) (tpred t (pred ins)) else true.

(** One instruction of one thread; [None] when it has none to run, or for an index
    outside a branch table. *)
Definition tstep (s : TState) : option TState :=
  match s with
  | Exited _ => None
  | Running pc t =>
      match nth_z (body c) pc with
      | None => Some (Exited t)
      | Some ins =>
          if tguard ins t then
            match op ins with
            | OpBra target => Some (Running target t)
            | OpBrx a targets =>
                match nth_z targets (u32 (topnd t a)) with
                | Some target => Some (Running target t)
                | None => None
                end
            | OpRet => Some (Exited t)
            | OpBar _ => Some (Running (pc + 1) t)
            | o => Some (Running (pc + 1) (teval o t))
            end
          else Some (Running (pc + 1) t)
      end
  end.
End thread.

Definition tregs (s : TState) : Thread := match s with Running _ t | Exited t => t end.

(** ** Lists indexed by [Z] *)

Lemma nth_z_Some {A} (l : list A) i x : nth_z l i = Some x ↔ 0 ≤ i ∧ l !! Z.to_nat i = Some x.
Proof.
  unfold nth_z. split.
  - intros H. destruct (Z.leb_spec 0 i); [|done]. destruct (i <? _); done.
  - intros [Hi Hx]. pose proof (lookup_lt_Some _ _ _ Hx).
    replace (0 <=? i) with true by (symmetry; apply Z.leb_le; lia).
    replace (i <? Z.of_nat (length l)) with true by (symmetry; apply Z.ltb_lt; lia). done.
Qed.

Lemma nth_z_is_Some {A} (l : list A) i : 0 ≤ i < Z.of_nat (length l) → is_Some (nth_z l i).
Proof.
  intros Hi. destruct (lookup_lt_is_Some_2 l (Z.to_nat i)) as [x Hx]; [lia|].
  exists x. apply nth_z_Some. split; [lia|done].
Qed.

Lemma nth_z_None {A} (l : list A) i : nth_z l i = None ↔ ¬ (0 ≤ i < Z.of_nat (length l)).
Proof.
  split.
  - intros H Hi. destruct (nth_z_is_Some l i Hi). congruence.
  - intros H. destruct (nth_z l i) eqn:E; [|done]. apply nth_z_Some in E as [? E%lookup_lt_Some]. lia.
Qed.

Lemma nth_z_fmap {A B} (f : A → B) (l : list A) i : nth_z (f <$> l) i = f <$> nth_z l i.
Proof. unfold nth_z. rewrite length_fmap. case_if; [by rewrite list_lookup_fmap|done]. Qed.

Lemma length_set_z {A} (l : list A) i x : length (set_z l i x) = length l.
Proof. unfold set_z. case_if; [by rewrite length_insert|done]. Qed.

Lemma set_z_insert {A} (l : list A) i x : 0 ≤ i < Z.of_nat (length l) → set_z l i x = <[Z.to_nat i := x]> l.
Proof.
  intros. unfold set_z. replace (0 <=? i) with true by (symmetry; apply Z.leb_le; lia).
  by replace (i <? Z.of_nat (length l)) with true by (symmetry; apply Z.ltb_lt; lia).
Qed.

Lemma set_z_same {A} (l : list A) i x : nth_z l i = Some x → set_z l i x = l.
Proof. intros [? H]%nth_z_Some. unfold set_z. case_if; [by apply list_insert_id|done]. Qed.

Lemma set_z_twice {A} (l : list A) i x y : set_z (set_z l i x) i y = set_z l i y.
Proof. unfold set_z at 1 3. rewrite length_set_z. unfold set_z. case_if; [apply list_insert_insert_eq|done]. Qed.

Lemma fmap_set_z {A B} (f : A → B) l i x : f <$> set_z l i x = set_z (f <$> l) i (f x).
Proof. unfold set_z. rewrite length_fmap. case_if; [apply list_fmap_insert|done]. Qed.

Lemma Forall_set_z {A} (P : A → Prop) l i x : Forall P l → P x → Forall P (set_z l i x).
Proof. intros. unfold set_z. case_if; [by apply Forall_insert|done]. Qed.

Lemma nth_z_set_eq {A} (l : list A) i x : 0 ≤ i < Z.of_nat (length l) → nth_z (set_z l i x) i = Some x.
Proof.
  intros. apply nth_z_Some. split; [lia|]. rewrite set_z_insert by done. apply list_lookup_insert_eq. lia.
Qed.

(** ** Well-formed register files *)

Definition is_u32 (x : Z) : Prop := 0 ≤ x < 2 ^ 32.

(** Predicates share the numbering (and the written flags) of the narrow and wide
    registers: [isp] says which numbers were declared .pred, whose array of lanes
    is never used. *)
Section files.
Context (c : Cfg) (HW : (1 ≤ W c ≤ 64)%nat) (isp : Reg → bool).
#[local] Abbreviation W := (W c).

Record wf_regs (w : Warp) : Prop := {
  wf_len32 : length (written32 w) = length (regs32 w);
  wf_len64 : length (written64 w) = length (regs64 w);
  wf_num32 : num_regs32 c = Z.of_nat (length (regs32 w));
  wf_npred : length (preds w) = (length (regs32 w) + length (regs64 w))%nat;
  wf_r32 : Forall (λ r : list Z, length r = W ∧ Forall is_u32 r) (regs32 w);
  wf_r64 : Forall (λ r : list Z, length r = W ∧ Forall is_u64 r) (regs64 w);
  wf_preds : Forall is_u64 (preds w);
  wf_carry : is_u64 (carry w) }.

(** A register array seen from a lane: zero until something writes it. *)
Definition lane_file (regs : list (list Z)) (wr : list bool) (l : nat) : list Z :=
  zip_with (λ r (b : bool), if b then r !!! l else 0) regs wr.

(** The written flags of the registers that hold data. *)
Definition data_flags (wd : bool) (wr : list bool) : list bool :=
  imap (λ i b, b && negb (isp (mkReg (Z.of_nat i) wd))) wr.

Definition view (w : Warp) (l : nat) : Thread :=
  mkThread (lane_file (regs32 w) (data_flags false (written32 w)) l)
    (lane_file (regs64 w) (data_flags true (written64 w)) l)
    ((λ p, bit p l) <$> preds w) (bit (carry w) l).

Lemma length_data_flags wd wr : length (data_flags wd wr) = length wr.
Proof. apply length_imap. Qed.

Lemma nth_z_data_flags wd wr i :
  nth_z (data_flags wd wr) i = (λ b, b && negb (isp (mkReg i wd))) <$> nth_z wr i.
Proof.
  unfold nth_z. rewrite length_data_flags. destruct (Z.leb_spec 0 i); [|done]. simpl.
  destruct (_ <? _); [|done]. unfold data_flags. rewrite list_lookup_imap.
  destruct (wr !! Z.to_nat i); [|done]. simpl. by rewrite Z2Nat.id.
Qed.

Lemma data_flags_set wd wr i : isp (mkReg i wd) = false →
  data_flags wd (set_z wr i true) = set_z (data_flags wd wr) i true.
Proof.
  clear HW. intros Hi. unfold set_z. rewrite length_data_flags. destruct (Z.leb_spec 0 i); [|done]. simpl.
  destruct (_ <? _); [|done]. unfold data_flags. apply list_eq. intros j.
  destruct (decide (j = Z.to_nat i)) as [->|Hne].
  - rewrite list_lookup_imap. destruct (decide (Z.to_nat i < length wr)%nat).
    + rewrite !list_lookup_insert_eq by (rewrite ?length_imap; done). simpl.
      by rewrite Z2Nat.id, Hi by done.
    + rewrite !(lookup_ge_None_2 (<[_:=_]> _)) by (rewrite length_insert, ?length_imap; lia). done.
  - rewrite list_lookup_imap, !list_lookup_insert_ne, list_lookup_imap by done. done.
Qed.

(** Marking a predicate written shows in no data register. *)
Lemma data_flags_pred wd wr i : isp (mkReg i wd) = true → data_flags wd (set_z wr i true) = data_flags wd wr.
Proof.
  clear HW. intros Hi. unfold set_z. destruct (Z.leb_spec 0 i); [|done]. simpl.
  destruct (Z.ltb_spec i (Z.of_nat (length wr))); [|done]. unfold data_flags. apply list_eq. intros j.
  rewrite !list_lookup_imap. destruct (decide (j = Z.to_nat i)) as [->|Hne].
  - rewrite list_lookup_insert_eq by lia. destruct (lookup_lt_is_Some_2 wr (Z.to_nat i)) as [b ->]; [lia|].
    simpl. rewrite Z2Nat.id, Hi by done. simpl. by rewrite andb_false_r.
  - by rewrite list_lookup_insert_ne.
Qed.

Lemma lane_file_nth regs wr l i : length wr = length regs →
  nth_z (lane_file regs wr l) i =
    match nth_z regs i, nth_z wr i with
    | Some r, Some b => Some (if b : bool then r !!! l else 0)
    | _, _ => None
    end.
Proof.
  intros HL. unfold lane_file, nth_z. rewrite length_zip_with, HL, Nat.min_id.
  destruct (_ && _); [|done]. rewrite lookup_zip_with.
  destruct (regs !! Z.to_nat i); [|done]. by destruct (wr !! Z.to_nat i).
Qed.

Lemma file_read_lane regs wr i l : length wr = length regs → Forall (λ r : list Z, length r = W) regs →
  (l < W)%nat → file_read c regs wr i !!! l = default 0 (nth_z (lane_file regs wr l) i).
Proof.
  intros HL HF Hl. rewrite lane_file_nth by done. unfold file_read.
  assert (HZ : fill c 0 !!! l = 0) by (by apply lookup_total_replicate_2).
  destruct (nth_z regs i); [|done]. destruct (nth_z wr i) as [[]|]; done.
Qed.

Lemma Forall_len {P : Z → Prop} regs : Forall (λ r : list Z, length r = W ∧ Forall P r) regs → Forall (λ r : list Z, length r = W) regs.
Proof. intros H. eapply Forall_impl; [exact H|]. by intros ? [? ?]. Qed.

Lemma length_file_read regs wr i : Forall (λ r : list Z, length r = W) regs → length (file_read c regs wr i) = W.
Proof.
  intros HF. unfold file_read. destruct (nth_z regs i) as [r|] eqn:E; [|by apply length_replicate].
  destruct (nth_z wr i) as [[]|]; [|by apply length_replicate..].
  apply nth_z_Some in E as [_ E]. by eapply Forall_lookup_1 in HF.
Qed.

Lemma file_read_data wd regs wr i : isp (mkReg i wd) = false →
  file_read c regs wr i = file_read c regs (data_flags wd wr) i.
Proof.
  intros Hi. unfold file_read. rewrite nth_z_data_flags, Hi. destruct (nth_z regs i); [|done].
  by destruct (nth_z wr i) as [[]|].
Qed.

(** Operands that name a register name one that holds data. *)
Definition opnd_ok (o : Operand) : Prop :=
  match o with
  | RegOperand r => isp r = false
  | ImmFloatBits v => is_u64 v
  | _ => True
  end.

Lemma read_operand_view w o l : wf_regs w → opnd_ok o → (l < W)%nat →
  read_operand c w o !!! l = topnd c l (view w l) o.
Proof.
  intros Hw Ho Hl. destruct o as [[i wd]| | |]; simpl.
  - simpl in Ho. destruct wd; rewrite (file_read_data _ _ _ _ Ho); apply file_read_lane; try done;
      rewrite ?length_data_flags; try apply Hw; eapply Forall_len; apply Hw.
  - by apply lookup_total_replicate_2.
  - by apply lookup_total_replicate_2.
  - rewrite (list_lookup_total_correct _ l (sreg c reg l)); [done|].
    by rewrite list_lookup_fmap, lookup_seq_lt.
Qed.

(** The registers of an array the warp writes through put32. *)
Lemma lane_file_set (regs : list (list Z)) (wr : list bool) l i r b : length wr = length regs → 0 ≤ i < Z.of_nat (length regs) →
  lane_file (set_z regs i r) (set_z wr i b) l = set_z (lane_file regs wr l) i (if b then r !!! l else 0).
Proof.
  clear HW. intros HL Hi. rewrite !set_z_insert.
  - unfold lane_file. symmetry. apply (insert_zip_with (λ r (b : bool), if b then r !!! l else 0)).
  - unfold lane_file. rewrite length_zip_with. lia.
  - lia.
  - lia.
Qed.

Lemma fill_lanes m f r l : is_mask c m → length r = W → (l < W)%nat →
  for_active c m f r !!! l = if bit m l then f l else r !!! l.
Proof.
  intros Hm Hr Hl. rewrite !list_lookup_total_alt, lookup_for_active by (done || lia). by destruct (bit m l).
Qed.

Lemma Forall_for_active (P : Z → Prop) m f r : is_mask c m → Forall P r →
  (∀ l, bit m l = true → P (f l)) → Forall P (for_active c m f r).
Proof.
  intros Hm Hr Hf. apply Forall_lookup_2. intros l x Hx.
  pose proof (lookup_lt_Some _ _ _ Hx) as Hl. rewrite length_for_active in Hl.
  rewrite lookup_for_active in Hx by done. destruct (bit m l) eqn:E; [injection Hx as <-; by apply Hf|].
  by eapply Forall_lookup_1 in Hr.
Qed.

(** What put32 and put64 do, over any file. *)
Lemma put_file (P : Z → Prop) (regs : list (list Z)) (wr : list bool) i m f r b :
  P 0 → length wr = length regs → Forall (λ r : list Z, length r = W ∧ Forall P r) regs →
  nth_z regs i = Some r → nth_z wr i = Some b → is_mask c m → (∀ l, bit m l = true → P (f l)) →
  let d := if b then r else if m =? all_lanes c then r else fill c 0 in
  let regs' := set_z regs i (for_active c m f d) in
  let wr' := set_z wr i true in
  Forall (λ r : list Z, length r = W ∧ Forall P r) regs' ∧ length wr' = length regs' ∧ length regs' = length regs ∧
  ∀ l, (l < W)%nat →
    lane_file regs' wr' l = if bit m l then set_z (lane_file regs wr l) i (f l) else lane_file regs wr l.
Proof.
  intros P0 HL HF Hr Hb Hm Hf d regs' wr'.
  assert (Hi : 0 ≤ i < Z.of_nat (length regs)).
  { apply nth_z_Some in Hr as [? Hr%lookup_lt_Some]. lia. }
  assert (HR : length r = W ∧ Forall P r).
  { apply nth_z_Some in Hr as [_ Hr]. by eapply Forall_lookup_1 in HF. }
  assert (HD : length d = W ∧ Forall P d).
  { unfold d. destruct b; [done|]. case_if; [done|]. split; [apply length_replicate|by apply Forall_replicate]. }
  split_and!.
  - apply Forall_set_z; [done|]. split; [rewrite length_for_active; apply HD|]. apply Forall_for_active; [done|apply HD|done].
  - unfold wr', regs'. rewrite !length_set_z. done.
  - apply length_set_z.
  - intros l Hl. unfold regs', wr'. rewrite lane_file_set by done. rewrite fill_lanes by (done || apply HD).
    destruct (bit m l) eqn:E; [done|]. apply set_z_same. rewrite lane_file_nth, Hr, Hb by done. f_equal.
    unfold d. destruct b; [done|]. case_if; [|symmetry; by apply lookup_total_replicate_2].
    subst m. rewrite bit_all_lanes, bool_decide_eq_true_2 in E by done. done.
Qed.

Lemma put32_spec w i m f : wf_regs w → isp (mkReg i false) = false → 0 ≤ i < Z.of_nat (length (regs32 w)) → is_mask c m →
  (∀ l, bit m l = true → is_u32 (f l)) →
  ∃ R WR, let w' := set_regs32 R WR w in
    put32 c i m f w = Ret tt w' ∧ wf_regs w' ∧ length R = length (regs32 w) ∧
    ∀ l, (l < W)%nat → view w' l =
      if bit m l then mkThread (set_z (t32 (view w l)) i (f l)) (t64 (view w l)) (tp (view w l)) (tcy (view w l))
      else view w l.
Proof.
  intros Hw Hip Hi Hm Hf. destruct Hw as [H1 H2 H3 H4 H5 H6 H7 H8].
  destruct (nth_z_is_Some (regs32 w) i Hi) as [r Hr].
  destruct (nth_z_is_Some (written32 w) i ltac:(lia)) as [b Hb].
  assert (Hb' : nth_z (data_flags false (written32 w)) i = Some b).
  { rewrite nth_z_data_flags, Hb, Hip. simpl. by rewrite andb_true_r. }
  pose proof (put_file is_u32 _ (data_flags false (written32 w)) i m f r b ltac:(unfold is_u32; lia)
    ltac:(by rewrite length_data_flags) H5 Hr Hb' Hm Hf) as (F1 & F2 & F3 & F4).
  rewrite <- data_flags_set, length_data_flags in F2 by done.
  exists (set_z (regs32 w) i (for_active c m f (if b then r else if m =? all_lanes c then r else fill c 0))),
    (set_z (written32 w) i true).
  split; [|split; [|split; [exact F3|]]].
  - unfold put32, dst32, bind. rewrite Hr, Hb. destruct b; [done|].
    unfold store32, modify; simpl. f_equal. unfold set_regs32; simpl. by rewrite !set_z_twice.
  - split; simpl; try done; try lia.
  - intros l Hl. unfold view; simpl. rewrite data_flags_set, F4 by done. by destruct (bit m l).
Qed.

Lemma put64_spec w i m f : wf_regs w → isp (mkReg i true) = false → 0 ≤ i < Z.of_nat (length (regs64 w)) → is_mask c m →
  (∀ l, bit m l = true → is_u64 (f l)) →
  ∃ R WR, let w' := set_regs64 R WR w in
    put64 c i m f w = Ret tt w' ∧ wf_regs w' ∧ length R = length (regs64 w) ∧
    ∀ l, (l < W)%nat → view w' l =
      if bit m l then mkThread (t32 (view w l)) (set_z (t64 (view w l)) i (f l)) (tp (view w l)) (tcy (view w l))
      else view w l.
Proof.
  intros Hw Hip Hi Hm Hf. destruct Hw as [H1 H2 H3 H4 H5 H6 H7 H8].
  destruct (nth_z_is_Some (regs64 w) i Hi) as [r Hr].
  destruct (nth_z_is_Some (written64 w) i ltac:(lia)) as [b Hb].
  assert (Hb' : nth_z (data_flags true (written64 w)) i = Some b).
  { rewrite nth_z_data_flags, Hb, Hip. simpl. by rewrite andb_true_r. }
  pose proof (put_file is_u64 _ (data_flags true (written64 w)) i m f r b ltac:(unfold is_u64; lia)
    ltac:(by rewrite length_data_flags) H6 Hr Hb' Hm Hf) as (F1 & F2 & F3 & F4).
  rewrite <- data_flags_set, length_data_flags in F2 by done.
  exists (set_z (regs64 w) i (for_active c m f (if b then r else if m =? all_lanes c then r else fill c 0))),
    (set_z (written64 w) i true).
  split; [|split; [|split; [exact F3|]]].
  - unfold put64, dst64, bind. rewrite Hr, Hb. destruct b; [done|].
    unfold store64, modify; simpl. f_equal. unfold set_regs64; simpl. by rewrite !set_z_twice.
  - split; simpl; try done; try lia.
  - intros l Hl. unfold view; simpl. rewrite data_flags_set, F4 by done. by destruct (bit m l).
Qed.

Lemma put32_ext w i m f g : is_mask c m → (∀ l, bit m l = true → f l = g l) →
  put32 c i m f w = put32 c i m g w.
Proof.
  intros Hm H. unfold put32, bind. destruct (dst32 c i m w); [|done..].
  by rewrite (for_active_ext c HW m f g).
Qed.
Lemma put64_ext w i m f g : is_mask c m → (∀ l, bit m l = true → f l = g l) →
  put64 c i m f w = put64 c i m g w.
Proof.
  intros Hm H. unfold put64, bind. destruct (dst64 c i m w); [|done..].
  by rewrite (for_active_ext c HW m f g).
Qed.
End files.
