(* ===== verification/Handlers.v ===== *)
(** * The general handlers, lane by lane

    [general_spec]: an instruction's handler, run under a mask, does to every lane of
    the mask what [teval] does to one thread, and nothing to the others; it leaves the
    control state alone; the only errors are a predicate nothing has written and,
    in strict mode, a division by zero. *)

From S2P Require Import Prelude Alu Isa Warp Lanes Thread.

(** ** Results stay words *)

Lemma is_u64_mask v n : is_u64 v → 0 ≤ n → is_u64 (mask_to_bits v n).
Proof.
  intros Hv Hn. unfold mask_to_bits. case_if; [done|]. rewrite shiftl_1_pow2, land_pow2_mod by lia.
  unfold is_u64 in *. pose proof (Z.mod_pos_bound v (2 ^ n) (pow2_pos n Hn)).
  pose proof (Z.pow_le_mono_r 2 n 64). change 18446744073709551616 with (2 ^ 64). lia.
Qed.

Lemma is_u64_shiftr v n : is_u64 v → 0 ≤ n → is_u64 (Z.shiftr v n).
Proof.
  unfold is_u64. intros Hv Hn. rewrite Z.shiftr_div_pow2 by done. pose proof (pow2_pos n Hn).
  split; [apply Z.div_pos; lia|]. pose proof (Z.div_le_upper_bound v (2 ^ n) v). nia.
Qed.

Lemma is_u64_land a b : is_u64 a → 0 ≤ b → is_u64 (Z.land a b).
Proof. intros. apply (land_range a b 64); unfold is_u64 in *; lia. Qed.
Lemma is_u64_lor a b : is_u64 a → is_u64 b → is_u64 (Z.lor a b).
Proof. intros. apply (lor_range a b 64); unfold is_u64 in *; lia. Qed.
Lemma is_u64_unot a : is_u64 (unot a).
Proof. apply u64_range. Qed.

#[export] Hint Resolve is_u64_mask is_u64_shiftr is_u64_lor is_u64_unot is_u64_u32 : vgpu.

Lemma is_u64_ones len : 0 ≤ len → is_u64 (ones_below len).
Proof.
  intros. unfold ones_below. case_if; [done|]. rewrite shiftl_1_pow2 by lia.
  pose proof (Z.pow_le_mono_r 2 len 64). pose proof (pow2_pos len). unfold is_u64.
  change 18446744073709551616 with (2 ^ 64). lia.
Qed.

Lemma is_u64_mul_hi ty a b : 0 ≤ bits ty → is_u64 (mul_hi ty a b).
Proof.
  intros. unfold mul_hi. case_if; [case_if; apply u64_range|].
  case_if; (apply is_u64_mask; [|done]); [apply u64_range|].
  apply is_u64_shiftr; [apply u64_range|done].
Qed.

Lemma is_u64_bfe ty a p l : 1 ≤ bits ty → is_u64 a → is_u64 (bfe ty a p l).
Proof.
  intros Hn Ha. unfold bfe. rewrite !field_land. pose proof (field_nonneg ty p). pose proof (field_nonneg ty l).
  case_if.
  - case_if; [unfold is_u64; lia|]. case_if; [unfold is_u64; lia|]. apply is_u64_mask; [apply is_u64_unot|lia].
  - apply is_u64_mask; [|lia].
    set (len := if bits ty - Math.field ty p <? Math.field ty l then bits ty - Math.field ty p else Math.field ty l).
    assert (HF : is_u64 (Z.land (Z.shiftr a (Math.field ty p)) (ones_below len))).
    { apply is_u64_land; [by apply is_u64_shiftr|].
      assert (0 ≤ len) by (unfold len; zify_bool; case_if; lia). pose proof (is_u64_ones len). unfold is_u64 in *. lia. }
    case_if; [apply is_u64_lor; [done|apply is_u64_unot]|done].
Qed.

Lemma is_u64_bfi ty a b p l : 0 ≤ bits ty → is_u64 b → is_u64 (bfi ty a b p l).
Proof.
  intros Hn Hb. unfold bfi. case_if; [by apply is_u64_mask|]. apply is_u64_mask; [|done].
  apply is_u64_lor; apply is_u64_land; try done; try apply u64_range.
Qed.

Lemma is_u64_brev tb v : 0 ≤ tb ≤ 64 → is_u64 (brev tb v).
Proof.
  intros Htb. unfold brev. set (x := mask_to_bits v tb).
  assert (H : ∀ L t, is_u64 t → Forall (λ i, 0 ≤ i < tb) L →
    is_u64 (foldl (λ out i, if Z.land x (Z.shiftl 1 i) =? 0 then out
       else Z.lor out (Z.shiftl 1 (tb - 1 - i))) t L)).
  { induction L as [|i L IH]; intros t Ht HL; simpl; [done|]. inversion HL; subst. apply IH; [|done].
    case_if; [done|]. apply is_u64_lor; [done|]. rewrite shiftl_1_pow2 by lia. unfold is_u64.
    split; [apply Z.pow_nonneg; lia|]. change 18446744073709551616 with (2 ^ 64). apply Z.pow_lt_mono_r; lia. }
  apply H; [unfold is_u64; lia|]. apply Forall_forall. intros i Hi. apply elem_of_seqZ in Hi. lia.
Qed.

Lemma is_u64_popc_clz p tb v : 1 ≤ tb ≤ 64 → is_u64 v → is_u64 (popc_clz p tb v).
Proof.
  intros Htb Hv. unfold popc_clz. set (x := Z.land _ _). destruct p.
  { unfold popcount64_soft. cbv zeta. apply is_u64_shiftr; [apply u64_range|lia]. }
  case_if; [unfold is_u64; lia|].
  assert (0 < x < 2 ^ tb).
  { assert (HX : x = v mod 2 ^ tb).
    { unfold x. destruct (Z.leb_spec 64 tb).
      - replace tb with 64 by lia. change (unot 0) with (2 ^ 64 - 1). apply land_pow2_mod. lia.
      - rewrite shiftl_1_pow2 by lia. apply land_pow2_mod. lia. }
    pose proof (Z.mod_pos_bound v (2 ^ tb) (pow2_pos tb ltac:(lia))). lia. }
  pose proof (Z.log2_lt_pow2 x tb ltac:(lia)) as [HL _]. specialize (HL ltac:(lia)).
  pose proof (Z.log2_nonneg x). unfold clzll, is_u64. lia.
Qed.

(** ** Well-typed instructions *)

Section handlers.
Context (c : Cfg) (HW : (1 ≤ W c ≤ 64)%nat) (isp : Reg → bool).
#[local] Abbreviation W := (W c).
#[local] Abbreviation view := (view isp).
#[local] Abbreviation opnd_ok := (opnd_ok isp).

(** What the launch supplies as special registers are 32-bit words. *)
Definition sregs_ok : Prop := ∀ s l, is_u32 (sreg c s l).
Context (HS : sregs_ok).

(** The register is one the function declares, for data or as a predicate. *)
Definition reg_ok (n32 n64 : Z) (r : Reg) : Prop := isp r = false ∧ 0 ≤ id r < if wide r then n64 else n32.
Definition pred_ok (n32 n64 : Z) (r : Reg) : Prop := isp r = true ∧ 0 ≤ id r < if wide r then n64 else n32.

Definition ty_ok (ty : Ty) : Prop := 1 ≤ bits ty ≤ 64 ∧ is_real ty = false.

Definition op_ok (n32 n64 : Z) (o : Op) : Prop :=
  let reg := reg_ok n32 n64 in
  let prd := pred_ok n32 n64 in
  match o with
  | OpMov ty dst s => ty_ok ty ∧ reg dst ∧ opnd_ok s
  | OpIntBin o => ty_ok (ib_ty o) ∧ reg (ib_dst o) ∧ opnd_ok (ib_a o) ∧ opnd_ok (ib_b o)
  | OpMadLo o => ty_ok (ml_ty o) ∧ reg (ml_dst o) ∧ opnd_ok (ml_a o) ∧ opnd_ok (ml_b o) ∧ opnd_ok (ml_c o)
  | OpMulWide src_bits _ dst a b => (src_bits = 16 ∨ src_bits = 32) ∧ reg dst ∧ opnd_ok a ∧ opnd_ok b
  | OpMulHi ty dst a b => ty_ok ty ∧ reg dst ∧ opnd_ok a ∧ opnd_ok b
  | OpSetp o =>
      ty_ok (sp_ty o) ∧ prd (sp_dst o) ∧ opnd_ok (sp_a o) ∧ opnd_ok (sp_b o) ∧
      match sp_q o with Some q => prd q | None => True end
  | OpSelp ty dst a b _ _ => ty_ok ty ∧ reg dst ∧ opnd_ok a ∧ opnd_ok b
  | OpNot ty dst s _ | OpNeg ty dst s | OpAbs ty dst s | OpBrev ty dst s | OpPopcClz _ ty dst s =>
      ty_ok ty ∧ reg dst ∧ opnd_ok s
  | OpShf _ _ dst a b x => reg dst ∧ opnd_ok a ∧ opnd_ok b ∧ opnd_ok x
  | OpBfe ty dst a b x => ty_ok ty ∧ reg dst ∧ opnd_ok a ∧ opnd_ok b ∧ opnd_ok x
  | OpBfi ty dst a b x y => ty_ok ty ∧ reg dst ∧ opnd_ok a ∧ opnd_ok b ∧ opnd_ok x ∧ opnd_ok y
  | OpPredBin _ dst _ _ _ _ _ _ | OpNotPred dst _ _ => prd dst
  | OpNop | OpRet => True
  | OpBra target => 0 ≤ target
  | OpBrx a targets => opnd_ok a ∧ Forall (λ t, 0 ≤ t) targets
  | OpBar b => opnd_ok b
  end.

(** ** The control state, which no handler touches *)

Definition ctl (w : Warp) :=
  (state w, paths w, exited w, yield_now w, steps w, barrier_id w, length (regs32 w), length (regs64 w)).

(** [w'] is [w] after every lane of [m] has taken [f]. *)
Definition lanes_step (w w' : Warp) (m : Z) (f : nat → Thread → Thread) : Prop :=
  wf_regs c w' ∧ ctl w' = ctl w ∧
  ∀ l, (l < W)%nat → view w' l = if bit m l then f l (view w l) else view w l.

Lemma lanes_step_refl w m : wf_regs c w → lanes_step w w m (λ _ t, t).
Proof. intros. split_and!; [done..|]. intros l _. by case_match. Qed.

Lemma lanes_step_trans w1 w2 w3 m f g :
  lanes_step w1 w2 m f → lanes_step w2 w3 m g → lanes_step w1 w3 m (λ l t, g l (f l t)).
Proof.
  intros (_ & C1 & V1) (H2 & C2 & V2). split_and!; [done|congruence|]. intros l Hl.
  rewrite (V2 l Hl), (V1 l Hl). by destruct (bit m l).
Qed.

Lemma lanes_step_ext w w' m f g :
  (∀ l, (l < W)%nat → bit m l = true → f l (view w l) = g l (view w l)) →
  lanes_step w w' m f → lanes_step w w' m g.
Proof.
  intros E (H & C & V). split_and!; [done..|]. intros l Hl. rewrite (V l Hl).
  destruct (bit m l) eqn:B; [by apply E|done].
Qed.

Lemma view_u64 w o l : wf_regs c w → opnd_ok o → (l < W)%nat → is_u64 (topnd c l (view w l) o).
Proof.
  intros Hw Ho Hl. destruct o as [[i wd]|v|v|s]; simpl; [|apply u64_range|done|].
  2: { specialize (HS s l). unfold is_u32, is_u64 in *. lia. }
  destruct wd; rewrite lane_file_nth by (rewrite length_data_flags; apply Hw); rewrite nth_z_data_flags, Ho.
  - destruct (nth_z (regs64 w) i) as [r|] eqn:E; [|unfold is_u64; simpl; lia].
    destruct (nth_z (written64 w) i) as [[]|]; simpl; try (unfold is_u64; lia); rewrite ?andb_true_r.
    apply nth_z_Some in E as [_ E]. pose proof (wf_r64 _ _ Hw) as F. eapply Forall_lookup_1 in F as [HL F]; [|exact E].
    apply (Forall_lookup_total_1 _ r); [done|lia].
  - destruct (nth_z (regs32 w) i) as [r|] eqn:E; [|unfold is_u64; simpl; lia].
    destruct (nth_z (written32 w) i) as [[]|]; simpl; try (unfold is_u64; lia).
    apply nth_z_Some in E as [_ E]. pose proof (wf_r32 _ _ Hw) as F. eapply Forall_lookup_1 in F as [HL F]; [|exact E].
    pose proof (Forall_lookup_total_1 _ r l F ltac:(lia)) as HX. unfold is_u32, is_u64 in *. lia.
Qed.

(** ** Writes *)

Lemma cut_range reg bits v : 1 ≤ bits → (wide reg = true → 64 ≤ bits → is_u64 v) →
  if wide reg then is_u64 (cut reg bits v) else is_u32 (cut reg bits v).
Proof.
  intros Hb Hv. unfold cut. destruct (wide reg).
  - case_if; [by apply Hv|]. rewrite shiftl_1_pow2, land_pow2_mod by lia.
    pose proof (Z.mod_pos_bound v (2 ^ bits) (pow2_pos bits ltac:(lia))).
    pose proof (Z.pow_le_mono_r 2 bits 64). unfold is_u64. change 18446744073709551616 with (2 ^ 64). lia.
  - case_if; [apply u32_range|]. rewrite shiftl_1_pow2, land_pow2_mod by lia.
    pose proof (Z.mod_pos_bound (u32 v) (2 ^ bits) (pow2_pos bits ltac:(lia))).
    pose proof (Z.pow_le_mono_r 2 bits 32). unfold is_u32. lia.
Qed.

(** write_reg is put32 or put64 of the cut values. *)
Lemma write_reg_put reg m vals bits w :
  write_reg c reg m vals bits w =
    (if wide reg then put64 c (id reg) m (λ l, cut reg bits (vals !!! l)) w
     else put32 c (id reg) m (λ l, cut reg bits (vals !!! l)) w).
Proof. unfold write_reg, cut. destruct (wide reg); by case_if. Qed.

Lemma write_reg_spec reg m vals bits w :
  wf_regs c w → is_mask c m → reg_ok (Z.of_nat (length (regs32 w))) (Z.of_nat (length (regs64 w))) reg →
  1 ≤ bits → (∀ l, bit m l = true → is_u64 (vals !!! l)) →
  ∃ w', write_reg c reg m vals bits w = Ret tt w' ∧
    lanes_step w w' m (λ l t, tset t reg bits (vals !!! l)).
Proof.
  intros Hw Hm Hr Hb Hv. rewrite write_reg_put. destruct reg as [i wd], Hr as [Hip Hr]; simpl in *.
  assert (HC : ∀ l, bit m l = true → if wd then is_u64 (cut (mkReg i wd) bits (vals !!! l)) else is_u32 (cut (mkReg i wd) bits (vals !!! l))).
  { intros l Hl. apply (cut_range (mkReg i wd)); auto. }
  unfold tset. simpl. destruct wd.
  - destruct (put64_spec c HW isp w i m _ Hw Hip Hr Hm HC) as (R & WR & E & H1 & H2 & H3).
    eexists; split; [exact E|]. split_and!; [done|unfold ctl; simpl; by rewrite H2|done].
  - destruct (put32_spec c HW isp w i m _ Hw Hip Hr Hm HC) as (R & WR & E & H1 & H2 & H3).
    eexists; split; [exact E|]. split_and!; [done|unfold ctl; simpl; by rewrite H2|done].
Qed.

Lemma write_lanes_spec dst m bits f g w :
  wf_regs c w → is_mask c m → reg_ok (Z.of_nat (length (regs32 w))) (Z.of_nat (length (regs64 w))) dst → 1 ≤ bits →
  (∀ l v, bit m l = true → (l < W)%nat → f l = Some v → is_u64 v ∧ v = g l (view w l)) →
  match write_lanes c dst m bits f w with
  | Ret _ w' => lanes_step w w' m (λ l t, tset t dst bits (g l (view w l)))
  | Exn e w' => e = Error InvalidValue ∧ w' = w ∧ ∃ l, bit m l = true ∧ (l < W)%nat ∧ f l = None
  | Undef => False
  end.
Proof.
  intros Hw Hm Hr Hb Hf. unfold write_lanes. destruct (for_lanes c m f) as [r|] eqn:E.
  - apply for_lanes_some in E as [HL HE].
    destruct (write_reg_spec dst m r bits w Hw Hm Hr Hb) as (w' & -> & HLS).
    { intros l Hl. pose proof (is_mask_bit c HW m l Hm Hl). by apply (Hf l (r !!! l)); [..|apply HE]. }
    eapply lanes_step_ext; [|exact HLS]. intros l Hl HB. simpl.
    by destruct (Hf l (r !!! l) HB Hl (HE l HB Hl)) as [_ <-].
  - simpl. split_and!; [done..|]. unfold for_lanes in E. apply mapM_None, Exists_exists in E as (l & Hl & E).
    apply elem_of_seq in Hl. exists l. destruct (bit m l); [|done]. split_and!; [done|lia|done].
Qed.

(** The common case: a handler that cannot fail. *)
Lemma write_lanes_some dst m bits g w :
  wf_regs c w → is_mask c m → reg_ok (Z.of_nat (length (regs32 w))) (Z.of_nat (length (regs64 w))) dst → 1 ≤ bits →
  (∀ l, bit m l = true → (l < W)%nat → is_u64 (g l)) →
  ∃ w', write_lanes c dst m bits (λ l, Some (g l)) w = Ret tt w' ∧ lanes_step w w' m (λ l t, tset t dst bits (g l)).
Proof.
  intros Hw Hm Hr Hb Hg.
  pose proof (write_lanes_spec dst m bits (λ l, Some (g l)) (λ l _, g l) w Hw Hm Hr Hb) as H.
  destruct (write_lanes c dst m bits (λ l, Some (g l)) w) as [[] w'|e w'|].
  - exists w'. split; [done|]. apply H. intros l v HB Hl [= <-]. split; [by apply Hg|done].
  - destruct H as (_ & _ & l & _ & _ & ?); [|done]. intros l v HB Hl [= <-]. split; [by apply Hg|done].
  - destruct H. intros l v HB Hl [= <-]. split; [by apply Hg|done].
Qed.

(** ** Predicates *)

Lemma pred_index_ok w r : wf_regs c w → pred_ok (Z.of_nat (length (regs32 w))) (Z.of_nat (length (regs64 w))) r →
  0 ≤ pred_index c r < Z.of_nat (length (preds w)).
Proof.
  intros Hw [_ Hr]. unfold pred_index. rewrite (wf_npred _ _ Hw), (wf_num32 _ _ Hw).
  destruct (wide r); lia.
Qed.

Lemma read_pred_spec r w : wf_regs c w →
  match read_pred c r w with
  | Ret p w' => w' = w ∧ is_u64 p ∧ ∀ l, bit p l = tpred c (view w l) r
  | Exn e w' => e = Error UninitializedRegister ∧ w' = w
  | Undef => False
  end.
Proof.
  intros Hw. unfold read_pred. destruct (if wide r then _ else _) as [[]|]; [|done..].
  destruct (nth_z (preds w) (pred_index c r)) as [p|] eqn:E; [|done]. split_and!; [done|..].
  - apply nth_z_Some in E as [_ E]. pose proof (wf_preds _ _ Hw) as F. by eapply Forall_lookup_1 in F.
  - intros l. unfold tpred, view; simpl. by rewrite nth_z_fmap, E.
Qed.

Lemma set_pred_spec r f g w : wf_regs c w → pred_ok (Z.of_nat (length (regs32 w))) (Z.of_nat (length (regs64 w))) r →
  (∀ p, is_u64 p → is_u64 (f p)) → (∀ p l, (l < W)%nat → is_u64 p → bit (f p) l = g l (bit p l)) →
  ∃ w', set_pred c r f w = Ret tt w' ∧ wf_regs c w' ∧ ctl w' = ctl w ∧
    ∀ l, (l < W)%nat → view w' l = tset_pred c (view w l) r (g l (tpred c (view w l) r)).
Proof.
  intros Hw Hr Hf Hg. pose proof (pred_index_ok w r Hw Hr) as Hi. destruct Hr as [Hip Hr].
  destruct (nth_z_is_Some (preds w) _ Hi) as [p Hp].
  assert (HP : is_u64 p).
  { apply nth_z_Some in Hp as [_ E]. pose proof (wf_preds _ _ Hw) as F. by eapply Forall_lookup_1 in F. }
  destruct Hw as [H1 H2 H3 H4 H5 H6 H7 H8].
  assert (HV : ∀ l, (l < W)%nat → (λ q, bit q l) <$> set_z (preds w) (pred_index c r) (f p) =
    set_z ((λ q, bit q l) <$> preds w) (pred_index c r) (g l (tpred c (view w l) r))).
  { intros l Hl. rewrite fmap_set_z. f_equal. rewrite Hg by done. unfold tpred, view; simpl.
    by rewrite nth_z_fmap, Hp. }
  destruct r as [i wd]; simpl in *. unfold set_pred; simpl. destruct wd; simpl in *.
  - destruct (nth_z_is_Some (written64 w) i ltac:(lia)) as [b ->]. rewrite Hp. eexists; split; [done|].
    split; [split; simpl; rewrite ?length_set_z; try done; by apply Forall_set_z, Hf|]. split; [done|].
    intros l Hl. specialize (HV l Hl). unfold view, tset_pred; simpl.
    rewrite data_flags_pred by done. by rewrite HV.
  - destruct (nth_z_is_Some (written32 w) i ltac:(lia)) as [b ->]. rewrite Hp. eexists; split; [done|].
    split; [split; simpl; rewrite ?length_set_z; try done; by apply Forall_set_z, Hf|]. split; [done|].
    intros l Hl. specialize (HV l Hl). unfold view, tset_pred; simpl.
    rewrite data_flags_pred by done. by rewrite HV.
Qed.

(** The store of a blend: the lanes of the mask take the new bit. *)
Lemma tset_pred_same t r b : b = tpred c t r → tset_pred c t r b = t.
Proof.
  intros ->. destruct t as [a b d e]. unfold tset_pred, tpred; simpl. f_equal.
  destruct (nth_z d (pred_index c r)) as [x|] eqn:E; [by apply set_z_same|].
  apply nth_z_None in E. unfold set_z. case_if; [lia|done].
Qed.

Lemma blend_pred_spec r v m g w : wf_regs c w → is_mask c m → is_u64 v →
  pred_ok (Z.of_nat (length (regs32 w))) (Z.of_nat (length (regs64 w))) r →
  (∀ l, (l < W)%nat → bit m l = true → bit v l = g l) →
  ∃ w', set_pred c r (λ p, blend p v m) w = Ret tt w' ∧
    lanes_step w w' m (λ l t, tset_pred c t r (g l)).
Proof.
  intros Hw Hm Hv Hr Hg.
  destruct (set_pred_spec r (λ p, blend p v m) (λ l b, if bit m l then bit v l else b) w Hw Hr) as (w' & E & H1 & H2 & H3).
  - intros p Hp. apply is_u64_blend; [done..|]. apply is_mask_64 in Hm; [|done]. done.
  - intros p l Hl _. apply bit_blend. lia.
  - exists w'. split; [done|]. split_and!; [done..|]. intros l Hl. rewrite H3 by done.
    destruct (bit m l) eqn:B; [by rewrite Hg|]. by apply tset_pred_same.
Qed.

(** ** The carry bit *)

Lemma foldl_carry (P f : nat → bool) L cy l : is_u64 cy → Forall (λ k, (k < 64)%nat) L → (l < 64)%nat →
  let r := foldl (λ out k, if P k then Z.lor (Z.land out (unot (Z.shiftl 1 (Z.of_nat k))))
                         (Z.shiftl (Z.b2z (f k)) (Z.of_nat k)) else out) cy L in
  is_u64 r ∧ bit r l = if bool_decide (l ∈ L) && P l then f l else bit cy l.
Proof.
  intros Hc HL Hl. revert cy Hc. induction L as [|k L IH]; intros cy Hc; cbn [foldl].
  { split; [done|]. by rewrite bool_decide_eq_false_2 by apply not_elem_of_nil. }
  inversion HL; subst.
  set (cy' := if P k then _ else cy).
  assert (Hc' : is_u64 cy').
  { unfold cy'. destruct (P k); [|done]. apply is_u64_lor; [apply is_u64_land; [done|]|].
    - pose proof (u64_range (Z.lnot (Z.shiftl 1 (Z.of_nat k)))). unfold unot, is_u64 in *. lia.
    - destruct (f k); [|rewrite Z.shiftl_0_l; unfold is_u64; lia]. simpl. rewrite shiftl_1_pow2 by lia.
      unfold is_u64. split; [apply Z.pow_nonneg; lia|]. change 18446744073709551616 with (2 ^ 64).
      apply Z.pow_lt_mono_r; lia. }
  destruct (IH ltac:(done) cy' Hc') as [IH1 IH2]. split; [done|]. rewrite IH2.
  destruct (decide (l = k)) as [->|Hne].
  - rewrite (bool_decide_eq_true_2 (k ∈ k :: L)) by left. simpl.
    unfold cy'. destruct (P k); [|by rewrite andb_false_r]. destruct (bool_decide (k ∈ L)); [done|]. simpl. rewrite bit_lor, bit_land, bit_unot, bit_one, bit_shift_b2z, Nat.eqb_refl by done.
    simpl. by rewrite andb_false_r, andb_true_r.
  - replace (bool_decide (l ∈ k :: L)) with (bool_decide (l ∈ L)).
    2: { apply bool_decide_ext. rewrite elem_of_cons. intuition congruence. }
    destruct (bool_decide (l ∈ L) && P l); [done|]. unfold cy'. destruct (P k); [|done].
    rewrite bit_lor, bit_land, bit_unot, bit_one, bit_shift_b2z by done.
    apply Nat.eqb_neq in Hne. rewrite Hne. simpl. by rewrite andb_true_r, andb_false_r, orb_false_r.
Qed.

Lemma write_carry_spec dst m bits co f w :
  wf_regs c w → is_mask c m → reg_ok (Z.of_nat (length (regs32 w))) (Z.of_nat (length (regs64 w))) dst → 1 ≤ bits →
  (∀ l b, bit m l = true → (l < W)%nat → is_u64 (f l b).1 ∧ (co = false → (f l b).2 = b)) →
  ∃ w', write_carry c dst m bits co f w = Ret tt w' ∧
    lanes_step w w' m (λ l t, let r := f l (tcy t) in tset (tset_carry t r.2) dst bits r.1).
Proof.
  intros Hw Hm Hr Hb Hf. unfold write_carry, bind, get, carry_lanes, modify.
  set (r := (λ l, if bit m l then (f l (bit (carry w) l)).1 else 0) <$> seq 0 W).
  set (out := if co then _ else carry w).
  assert (HO : is_u64 out ∧ ∀ l, (l < W)%nat → bit out l = if bit m l then (f l (bit (carry w) l)).2 else bit (carry w) l).
  { assert (HF : ∀ l, (l < W)%nat → _) by (intros l Hl; exact (foldl_carry (bit m) (λ l, (f l (bit (carry w) l)).2)
      (seq 0 W) (carry w) l (wf_carry _ _ Hw) ltac:(apply Forall_forall; intros k Hk%elem_of_seq; lia)  ltac:(lia))).
    unfold out. destruct co.
    - split; [apply (HF 0%nat); lia|]. intros l Hl. destruct (HF l Hl) as [_ ->].
      rewrite bool_decide_eq_true_2 by (apply elem_of_seq; lia). done.
    - split; [apply Hw|]. intros l Hl. destruct (bit m l) eqn:B; [|done]. symmetry. by apply Hf. }
  destruct HO as [HO1 HO2].
  assert (Hw' : wf_regs c (set_carry out w)) by (destruct Hw; by split).
  assert (Hrl : ∀ l, (l < W)%nat → r !!! l = if bit m l then (f l (bit (carry w) l)).1 else 0).
  { intros l Hl. apply list_lookup_total_correct. unfold r. by rewrite list_lookup_fmap, lookup_seq_lt. }
  destruct (write_reg_spec dst m r bits (set_carry out w) Hw' Hm Hr Hb) as (w' & E & H1 & H2 & H3).
  { intros l HB. pose proof (is_mask_bit c HW m l Hm HB). rewrite Hrl, HB by done. by apply Hf. }
  exists w'. split; [done|]. split_and!; [done|done|]. intros l Hl. rewrite H3 by done.
  rewrite Hrl by done. unfold view; simpl. rewrite HO2 by done.
  destruct (bit m l); [|done]. unfold tset, tset_carry; simpl. by destruct (wide dst).
Qed.

(** ** Every handler *)

(** What the outcome of a handler is to be. *)
Definition handled (w : Warp) (m : Z) (f : nat → Thread → Thread) (o : outcome Warp unit) : Prop :=
  match o with
  | Ret _ w' => lanes_step w w' m f
  | Exn e w' => w' = w ∧ (e = Error UninitializedRegister ∨ (e = Error InvalidValue ∧ strict c = true))
  | Undef => False
  end.

Lemma handled_lanes dst m bits g (f : nat → Thread → Thread) w :
  wf_regs c w → is_mask c m → reg_ok (Z.of_nat (length (regs32 w))) (Z.of_nat (length (regs64 w))) dst → 1 ≤ bits →
  (∀ l, bit m l = true → (l < W)%nat → is_u64 (g l) ∧ tset (view w l) dst bits (g l) = f l (view w l)) →
  handled w m f (write_lanes c dst m bits (λ l, Some (g l)) w).
Proof.
  intros Hw Hm Hr Hb Hg. destruct (write_lanes_some dst m bits g w Hw Hm Hr Hb) as (w' & -> & H).
  - intros l HB Hl. by apply Hg.
  - eapply lanes_step_ext; [|exact H]. intros l Hl HB. by apply Hg.
Qed.

Lemma is_u64_carry_add_sub n sub ci co cy a b : 0 ≤ n → is_u64 (carry_add_sub n sub ci co cy a b).1.
Proof. intros. unfold carry_add_sub. simpl. apply is_u64_mask; [apply u64_range|done]. Qed.
Lemma is_u64_carry_mad n ci co cy a b : 0 ≤ n → is_u64 (carry_mad n ci co cy a b).1.
Proof. intros. unfold carry_mad. simpl. apply is_u64_mask; [apply u64_range|done]. Qed.

Lemma int_bin_relax op ty a b r : int_bin true op ty a b = Some r → int_bin false op ty a b = Some r.
Proof. rewrite int_bin_strict. destruct op; try done; by case_if. Qed.

Section general.
Context (w : Warp) (m : Z) (Hw : wf_regs c w) (Hm : is_mask c m).
#[local] Abbreviation n32 := (Z.of_nat (length (regs32 w))).
#[local] Abbreviation n64 := (Z.of_nat (length (regs64 w))).

Lemma int_bin_handled o : op_ok n32 n64 (OpIntBin o) →
  handled w m (λ l t, teval c l (OpIntBin o) t) (general c (OpIntBin o) m w).
Proof.
  intros (Hty & Hd & Ha & Hb). destruct Hty as [Hn _]. open_general; unfold bind, get. simpl teval.
  destruct (ib_carry_in o || ib_carry_out o) eqn:EC; [|destruct (ib_sat o)].
  - destruct (write_carry_spec (ib_dst o) m (bits (ib_ty o)) (ib_carry_out o) (λ l cy,
      carry_add_sub (bits (ib_ty o)) (bool_decide (ib_op o = Sub)) (ib_carry_in o) (ib_carry_out o)
        cy (read_operand c w (ib_a o) !!! l) (read_operand c w (ib_b o) !!! l)) w Hw Hm Hd ltac:(lia)) as (w' & -> & H).
    + intros l b _ _. split; [apply is_u64_carry_add_sub; lia|]. by intros ->.
    + eapply lanes_step_ext; [|exact H]. intros l Hl HB. simpl. by rewrite !(read_operand_view c isp) by done.
  - apply handled_lanes; [done..|lia|]. intros l HB Hl. rewrite !(read_operand_view c isp) by done.
    split; [apply is_u64_u32|done].
  - assert (HV : ∀ l, (l < W)%nat → is_u64 (topnd c l (view w l) (ib_a o)) ∧ is_u64 (topnd c l (view w l) (ib_b o))).
    { intros l Hl. split; by apply view_u64. }
    pose proof (write_lanes_spec (ib_dst o) m (bits (ib_ty o))
      (λ l, int_bin (strict c) (ib_op o) (ib_ty o) (read_operand c w (ib_a o) !!! l) (read_operand c w (ib_b o) !!! l))
      (λ l t, default 0 (int_bin false (ib_op o) (ib_ty o) (topnd c l t (ib_a o)) (topnd c l t (ib_b o)))) w Hw Hm Hd ltac:(lia)) as H.
    unfold handled. destruct (write_lanes _ _ _ _ _ w) as [[] w'|e w'|].
    1: apply H. 2: destruct H as (-> & -> & l & HB & Hl & HI). 4: destruct H.
    1,2,4: intros l v HB Hl; rewrite !(read_operand_view c isp) by done; intros HI;
      destruct (int_bin_total (ib_ty o) (ib_op o) _ _ Hn (proj1 (HV l Hl)) (proj2 (HV l Hl))) as (r & Er & Hr & _);
      assert (v = r) as -> by (destruct (strict c); [apply int_bin_relax in HI|]; congruence); by rewrite Er.
    rewrite !(read_operand_view c isp) in HI by done.
    destruct (int_bin_total (ib_ty o) (ib_op o) _ _ Hn (proj1 (HV l Hl)) (proj2 (HV l Hl))) as (r & Er & _ & _).
    split; [done|]. right. destruct (strict c); [done|congruence].
Qed.

Lemma mad_lo_handled o : op_ok n32 n64 (OpMadLo o) →
  handled w m (λ l t, teval c l (OpMadLo o) t) (general c (OpMadLo o) m w).
Proof.
  intros (Hty & Hd & Ha & Hb & Hx). destruct Hty as [Hn _]. open_general; unfold bind, get. simpl teval.
  destruct (ml_carry_in o || ml_carry_out o) eqn:EC.
  - destruct (write_carry_spec (ml_dst o) m (bits (ml_ty o)) (ml_carry_out o) (λ l cy,
      carry_mad (bits (ml_ty o)) (ml_carry_in o) (ml_carry_out o) cy
        (u64 ((read_operand c w (ml_a o) !!! l) * (read_operand c w (ml_b o) !!! l)))
        (read_operand c w (ml_c o) !!! l)) w Hw Hm Hd ltac:(lia)) as (w' & -> & H).
    + intros l b _ _. split; [apply is_u64_carry_mad; lia|]. by intros ->.
    + eapply lanes_step_ext; [|exact H]. intros l Hl HB. simpl. by rewrite !(read_operand_view c isp) by done.
  - apply handled_lanes; [done..|lia|]. intros l HB Hl. rewrite !(read_operand_view c isp) by done.
    split; [apply u64_range|done].
Qed.

Lemma bit_negate neg p l : (l < 64)%nat → bit (negate neg p) l = xorb neg (bit p l).
Proof. intros. unfold negate. destruct neg; [by rewrite bit_unot|by destruct (bit p l)]. Qed.

Lemma is_u64_negate neg p : is_u64 p → is_u64 (negate neg p).
Proof. intros. unfold negate. destruct neg; [apply u64_range|done]. Qed.

Lemma bit_pred_mask o x y l : bit (pred_mask o x y) l = pred_op o (bit x l) (bit y l).
Proof. destruct o; [apply bit_land|apply bit_lor|apply bit_lxor]. Qed.

Lemma is_u64_pred_mask o x y : is_u64 x → is_u64 y → is_u64 (pred_mask o x y).
Proof.
  intros. destruct o; simpl; [apply (is_u64_bitop Z.land andb)|apply (is_u64_bitop Z.lor orb)|apply (is_u64_bitop Z.lxor xorb)];
    auto using Z.land_spec, Z.lor_spec, Z.lxor_spec.
Qed.

(** setp: one comparison, perhaps combined with a predicate, into one or two. *)
Lemma setp_handled o : op_ok n32 n64 (OpSetp o) →
  handled w m (λ l t, teval c l (OpSetp o) t) (general c (OpSetp o) m w).
Proof.
  intros (Hty & Hd & Ha & Hb & Hq). open_general; unfold bind at 1, get.
  set (t := gather c m (λ l, compare (sp_cmp o) (sp_ty o) (read_operand c w (sp_a o) !!! l) (read_operand c w (sp_b o) !!! l))).
  assert (Ht : is_u64 t).
  { pose proof (is_mask_gather c HW m (λ l, compare (sp_cmp o) (sp_ty o) (read_operand c w (sp_a o) !!! l) (read_operand c w (sp_b o) !!! l))) as Hg.
    by apply is_mask_64 in Hg. }
  assert (HB : ∀ l, (l < W)%nat → bit m l = true → bit t l =
    compare (sp_cmp o) (sp_ty o) (topnd c l (view w l) (sp_a o)) (topnd c l (view w l) (sp_b o))).
  { intros l Hl Hml. unfold t. rewrite bit_gather, bool_decide_eq_true_2, Hml by done. simpl.
    by rewrite !(read_operand_view c isp) by done. }
  set (comb := λ (t : Thread) x, match sp_bop o with
     | None => x | Some (bop, cr, neg) => pred_op bop x (xorb neg (tpred c t cr)) end).
  set (pq := match sp_bop o with None => _ | Some _ => _ end).
  assert (HP : match pq w with
    | Ret (p, q) w' => w' = w ∧ is_u64 p ∧ is_u64 q ∧ ∀ l, (l < W)%nat → bit m l = true →
        bit p l = comb (view w l) (bit t l) ∧ bit q l = comb (view w l) (negb (bit t l))
    | Exn e w' => w' = w ∧ e = Error UninitializedRegister
    | Undef => False end).
  { unfold pq, comb. destruct (sp_bop o) as [[[bop cr] neg]|].
    - pose proof (read_pred_spec cr w Hw) as HR. unfold bind. destruct (read_pred c cr w) as [p w1|e w1|]; [|destruct HR as [-> ->]; simpl; auto|done].
      destruct HR as (-> & Hp & HR). simpl. split; [done|].
      split_and!; [by apply is_u64_pred_mask, is_u64_negate|apply is_u64_pred_mask; [apply u64_range|by apply is_u64_negate]|].
      intros l Hl _. by rewrite !bit_pred_mask, bit_negate, bit_unot, HR by lia.
    - simpl. split_and!; [done..|apply u64_range|]. intros l Hl _. by rewrite bit_unot by lia. }
  unfold handled, bind. destruct (pq w) as [[p q] w1|e w1|]; [|destruct HP as [-> ->]; auto|done].
  destruct HP as (-> & Hp & Hqq & HPQ). simpl.
  destruct (blend_pred_spec (sp_dst o) p m (λ l, bit p l) w Hw Hm Hp Hd) as (w1 & -> & H1); [done|].
  simpl teval. destruct (sp_q o) as [qr|].
  - assert (Hw1 : wf_regs c w1) by apply H1. assert (C1 : ctl w1 = ctl w) by apply H1.
    assert (Hq1 : pred_ok (Z.of_nat (length (regs32 w1))) (Z.of_nat (length (regs64 w1))) qr).
    { unfold ctl in C1. injection C1 as E1 E2 E3 E4 E5 E6 E7 E8. by rewrite E7, E8. }
    destruct (blend_pred_spec qr q m (λ l, bit q l) w1 Hw1 Hm Hqq Hq1) as (w2 & -> & H2); [done|].
    eapply lanes_step_ext; [|exact (lanes_step_trans _ _ _ _ _ _ H1 H2)].
    intros l Hl HBm. simpl. destruct (HPQ l Hl HBm) as [-> ->]. by rewrite HB.
  - eapply lanes_step_ext; [|exact H1]. intros l Hl HBm. simpl. destruct (HPQ l Hl HBm) as [-> _]. by rewrite HB.
Qed.

Lemma pred_source_spec (r : Reg) im neg :
  match (if 0 <=? im then ret (if im =? 0 then 0 else unot 0) else read_pred c r) w with
  | Ret p w' => w' = w ∧ is_u64 p ∧ ∀ l, (l < W)%nat →
      bit (negate neg p) l = xorb neg (if 0 <=? im then negb (im =? 0) else tpred c (view w l) r)
  | Exn e w' => w' = w ∧ e = Error UninitializedRegister
  | Undef => False
  end.
Proof.
  destruct (0 <=? im).
  - simpl. split; [done|]. split; [case_if; [unfold is_u64; lia|apply u64_range]|]. intros l Hl.
    rewrite bit_negate by lia. f_equal. case_if; simpl; [apply bit_0|]. by rewrite bit_unot, bit_0 by lia.
  - pose proof (read_pred_spec r w Hw) as HR. destruct (read_pred c r w) as [p w1|e w1|]; [|destruct HR as [-> ->]; simpl; auto|done].
    destruct HR as (-> & Hp & HR). split_and!; [done..|]. intros l Hl. by rewrite bit_negate, HR by lia.
Qed.

(** The handlers that write one register from values of the lanes. *)
Ltac handle_lanes :=
  open_general; unfold bind, get; simpl teval; apply handled_lanes; [done..|lia|];
  intros l HB Hl; rewrite !(read_operand_view c isp) by done; split; [|done].

Lemma general_spec o : op_ok n32 n64 o → handled w m (λ l t, teval c l o t) (general c o m w).
Proof.
  intros Ho. destruct o; try (simpl; split_and!; [done..|]; intros; by destruct (bit m l)).
  - destruct Ho as ([Hn _] & Hd & Hs). open_general; unfold bind, get. simpl teval.
    destruct (write_reg_spec dst m (read_operand c w src) (bits ty) w Hw Hm Hd ltac:(lia)) as (w' & -> & H).
    { intros l Hl. pose proof (is_mask_bit c HW m l Hm Hl). rewrite (read_operand_view c isp) by done. by apply view_u64. }
    eapply lanes_step_ext; [|exact H]. intros l Hl HB. simpl. by rewrite (read_operand_view c isp) by done.
  - by apply int_bin_handled.
  - by apply mad_lo_handled.
  - destruct Ho as (Hn & Hd & Ha & Hb). handle_lanes. unfold mul_wide.
    repeat case_if; apply u64_range || apply is_u64_u32.
  - destruct Ho as ([Hn _] & Hd & Ha & Hb). handle_lanes. apply is_u64_mul_hi. lia.
  - by apply setp_handled.
  - destruct Ho as ([Hn _] & Hd & Ha & Hb). open_general; unfold bind, get.
    pose proof (read_pred_spec pred w Hw) as HR. destruct (read_pred c pred w) as [p w1|e w1|]; [|destruct HR as [-> ->]; simpl; auto|done].
    destruct HR as (-> & Hp & HR). simpl teval. apply handled_lanes; [done..|lia|]. intros l HB Hl.
    rewrite bit_negate, HR, !(read_operand_view c isp) by (done || lia).
    split; [case_if; by apply view_u64|done].
  - destruct Ho as ([Hn _] & Hd & Hs). handle_lanes. unfold not_op. repeat case_if; unfold is_u64; try lia. apply u64_range.
  - destruct Ho as ([Hn _] & Hd & Hs). handle_lanes. apply u64_range.
  - destruct Ho as ([Hn _] & Hd & Hs). handle_lanes. apply u64_range.
  - destruct Ho as (Hd & Ha & Hb & Hx). handle_lanes. unfold shf. case_if; apply is_u64_u32.
  - destruct Ho as ([Hn _] & Hd & Ha & Hb & Hx). handle_lanes. apply is_u64_bfe; [lia|by apply view_u64].
  - destruct Ho as ([Hn _] & Hd & Ha & Hb & Hx & Hy). handle_lanes. apply is_u64_bfi; [lia|by apply view_u64].
  - destruct Ho as ([Hn _] & Hd & Hs). handle_lanes. apply is_u64_brev. lia.
  - destruct Ho as ([Hn _] & Hd & Hs). handle_lanes. apply is_u64_popc_clz; [lia|by apply view_u64].
  - simpl in Ho. open_general; unfold bind at 1, get.
    pose proof (pred_source_spec a a_imm a_neg) as HA. unfold bind at 1.
    set (sa := if 0 <=? a_imm then _ else read_pred c a) in *.
    destruct (sa w) as [x w1|e w1|]; [|destruct HA as [-> ->]; simpl; auto|done]. destruct HA as (-> & Hx & HA).
    pose proof (pred_source_spec b b_imm b_neg) as HB. unfold bind at 1.
    set (sb := if 0 <=? b_imm then _ else read_pred c b) in *.
    destruct (sb w) as [y w1|e w1|]; [|destruct HB as [-> ->]; simpl; auto|done]. destruct HB as (-> & Hy & HB).
    destruct (blend_pred_spec dst (pred_mask op (negate a_neg x) (negate b_neg y)) m
      (λ l, pred_op op (bit (negate a_neg x) l) (bit (negate b_neg y) l)) w Hw Hm) as (w' & E & H);
      [by apply is_u64_pred_mask; apply is_u64_negate|done|intros; apply bit_pred_mask|].
    rewrite E. eapply lanes_step_ext; [|exact H]. intros l Hl HBm. simpl. by rewrite HA, HB.
  - simpl in Ho. open_general; unfold bind at 1, get. pose proof (read_pred_spec src w Hw) as HR. unfold bind at 1.
    destruct (read_pred c src w) as [p w1|e w1|]; [|destruct HR as [-> ->]; simpl; auto|done].
    destruct HR as (-> & Hp & HR).
    destruct (blend_pred_spec dst (unot (negate src_neg p)) m (λ l, negb (xorb src_neg (tpred c (view w l) src))) w Hw Hm) as (w' & -> & H);
      [apply u64_range|done|intros l Hl _; by rewrite bit_unot, bit_negate, HR by lia|].
    eapply lanes_step_ext; [|exact H]. done.
Qed.
End general.
End handlers.
