(* ===== verification/Tiers.v ===== *)
(** * The interpreter's tiers compute the same

    fast_path and the pre-decoded exec_micro against the general handlers: whenever a
    faster tier takes an instruction, the warp it leaves is, field by field, the one
    the general handler leaves; when it declines, nothing has changed. *)

From S2P Require Import Prelude Alu Isa Warp Lanes Thread Handlers.

(** ** Scalar identities between the tiers *)

Lemma u32_add_mul a b x : u32 (u64 (a * b + x)) = u32 (u32 a * u32 b + u32 x).
Proof.
  rewrite u32_u64, !(u32_pow2 (_ + _)). apply add_congr; [|symmetry; by apply u32_mod].
  apply mul_congr; symmetry; by apply u32_mod.
Qed.

Lemma u32_unot v : u32 (unot v) = unot32 (u32 v).
Proof.
  unfold unot, unot32. rewrite u32_u64. unfold Z.lnot. rewrite <- !Z.sub_1_r, <- (Z.sub_0_l v), <- (Z.sub_0_l (u32 v)), !u32_pow2.
  apply sub_congr; [|done]. apply sub_congr; [done|]. symmetry. apply Zmod_mod.
Qed.

Lemma shf_narrow lft wrap a b x : shf lft wrap a b x = shf lft wrap (u32 a) (u32 b) (u32 x).
Proof. unfold shf. by rewrite !u32_u32. Qed.

Lemma mul_hi_32 ty a b : bits ty = 32 → is_u64 a → is_u64 b →
  u32 (mul_hi ty a b) =
    if is_signed ty then u32 (Z.shiftr (u64 (i32 (u32 a) * i32 (u32 b))) 32)
    else u32 (Z.shiftr (u64 (u32 a * u32 b)) 32).
Proof.
  intros H32 Ha Hb. unfold mul_hi. rewrite !H32. simpl. rewrite !i32_u32.
  destruct (is_signed ty).
  - rewrite !sign_extend_sread, !i64_u64 by (done || lia || (apply sread_i64_range; lia)).
    rewrite mask_to_bits_u64, u64_mod, !Z.shiftr_div_pow2 by (apply u64_range || lia).
    rewrite u64_pow2. change 64 with (32 + 32). rewrite div_mod_pow2 by lia. rewrite <- u32_pow2. done.
  - rewrite !(mask_to_bits_u64 _ 32), <- !u32_pow2 by (done || lia || (apply is_u64_shiftr; [apply u64_range|lia])).
    apply u32_u32.
Qed.

(** [(int64_t)(v << (64 - n)) >> (64 - n)] is the reading at [n] bits. *)
Lemma shift_read v n : 1 ≤ n < 64 → Z.shiftr (i64 (u64 (Z.shiftl v (64 - n)))) (64 - n) = sread n v.
Proof.
  intros Hn. symmetry. apply sread_unique; [lia|..].
  - pose proof (sread_range 64 (u64 (Z.shiftl v (64 - n))) ltac:(lia)) as HR. change (sread 64) with i64 in HR.
    rewrite Z.shiftr_div_pow2 by lia. pose proof (pow2_pos (64 - n) ltac:(lia)).
    replace (2 ^ (64 - 1)) with (2 ^ (n - 1) * 2 ^ (64 - n)) in HR by (rewrite <- Z.pow_add_r by lia; f_equal; lia).
    split; [apply Z.div_le_lower_bound; lia|apply Z.div_lt_upper_bound; lia].
  - apply mod_pow2_bits; [lia|]. intros i Hi. rewrite Z.shiftr_spec by lia.
    rewrite (mod_pow2_testbit (i64 _) (Z.shiftl v (64 - n)) 64); [|unfold i64; rewrite sread_mod, u64_mod by lia; done|lia].
    rewrite Z.shiftl_spec by lia. f_equal. lia.
Qed.

Lemma abs_32 v : u32 (abs_op 32 v) = u32 (if i32 (u32 v) <? 0 then - i32 (u32 v) else i32 (u32 v)).
Proof. unfold abs_op. simpl (64 <=? 32). cbv iota. rewrite shift_read by lia. rewrite i32_u32. apply u32_u64. Qed.

Lemma neg_32 v : u32 (neg_op v) = u32 (0 - u32 v).
Proof.
  unfold neg_op. rewrite u32_u64, <- (Z.sub_0_l (i64 v)), !(u32_pow2 (_ - _)).
  apply sub_congr; [done|]. rewrite u32_mod by lia.
  rewrite <- (mod_mod_pow2 (i64 v) 32 64), <- (mod_mod_pow2 v 32 64) by lia. f_equal. by apply sread_mod.
Qed.

Lemma land_ones32 v : Z.land v (Z.shiftl 1 32 - 1) = u32 v.
Proof. rewrite u32_pow2. apply (land_pow2_mod v 32). lia. Qed.

Lemma popc_clz_32 p v : is_u64 v → u32 (popc_clz p 32 v) =
  if p then u32 (popcount64_soft (u32 v)) else if u32 v =? 0 then 32 else 31 - Z.log2 (u32 v).
Proof.
  intros Hv. unfold popc_clz. simpl (64 <=? 32). cbv iota. rewrite land_ones32.
  destruct p; [done|]. case_if; [done|]. unfold clzll.
  pose proof (u32_range v). pose proof (Z.log2_lt_pow2 (u32 v) 32 ltac:(lia)) as [HL _]. specialize (HL ltac:(lia)).
  pose proof (Z.log2_nonneg (u32 v)). rewrite u32_small by lia. lia.
Qed.

Lemma carry_add_sub_32 sub ci co cy a b : is_u64 a → is_u64 b →
  carry_add_sub 32 sub ci co cy a b =
    let r := micro_add_sub sub ci cy (u32 a) (u32 b) in (r.1, if co then r.2 else cy).
Proof.
  intros Ha Hb. unfold carry_add_sub, micro_add_sub.
  assert (EN : mask_to_bits (unot b) 32 = unot32 (u32 b)).
  { rewrite mask_to_bits_u64, <- u32_pow2, u32_unot by (apply u64_range || lia). done. }
  rewrite EN, !(mask_to_bits_u64 _ 32), <- !u32_pow2 by (done || lia || apply u64_range).
  set (cin := if ci then _ else _). rewrite u32_u64. destruct sub; done.
Qed.

Lemma carry_mad_32 ci co cy a b x : is_u64 a → is_u64 b → is_u64 x →
  carry_mad 32 ci co cy (u64 (a * b)) x =
    let r := micro_mad ci cy (u32 a) (u32 b) (u32 x) in (r.1, if co then r.2 else cy).
Proof.
  intros Ha Hb Hx. unfold carry_mad, micro_mad.
  assert (EP : mask_to_bits (u64 (a * b)) 32 = u32 (u32 a * u32 b)).
  { rewrite mask_to_bits_u64, <- u32_pow2 by (apply u64_range || lia). apply (u32_congr_op Z.mul), mul_congr. }
  rewrite EP, !(mask_to_bits_u64 _ 32), <- !u32_pow2 by (done || lia || apply u64_range).
  rewrite u32_u64. done.
Qed.

Lemma cut_narrow_16 i v : cut (mkReg i false) 16 v = v mod 2 ^ 16.
Proof. unfold cut. simpl. change (Z.shiftl 1 16 - 1) with 65535. rewrite land_65535. by apply u32_mod. Qed.

Section tiers.
Context (c : Cfg) (HW : (1 ≤ W c ≤ 64)%nat) (isp : Reg → bool) (HS : sregs_ok c).
#[local] Abbreviation W := (W c).
#[local] Abbreviation opnd_ok := (opnd_ok isp).

(** ** Operands *)

(** A source of a pre-decoded instruction. *)
Definition msrc (w : Warp) (v : Z) (b : bool) : list Z :=
  if b then fill c v else file_read c (regs32 w) (written32 w) v.

Section operands.
Context (w : Warp) (Hw : wf_regs c w).

Lemma file_read32_u32 i l : (l < W)%nat → is_u32 (file_read c (regs32 w) (written32 w) i !!! l).
Proof.
  intros Hl. unfold file_read.
  assert (HZ : is_u32 (fill c 0 !!! l)) by (unfold fill; rewrite (lookup_total_replicate_2 _ _ _ Hl); unfold is_u32; lia).
  destruct (nth_z (regs32 w) i) as [r|] eqn:E; [|done]. destruct (nth_z (written32 w) i) as [[]|]; [|done..].
  apply nth_z_Some in E as [_ E]. pose proof (wf_r32 _ _ Hw) as F. eapply Forall_lookup_1 in F as [HL F]; [|exact E].
  apply (Forall_lookup_total_1 _ r); [done|lia].
Qed.

Lemma operand_u64 o l : opnd_ok o → (l < W)%nat → is_u64 (read_operand c w o !!! l).
Proof. intros. rewrite (read_operand_view c isp) by done. by apply view_u64. Qed.

Lemma msrc_read o v b l : micro_source o = Some (v, b) → (l < W)%nat →
  msrc w v b !!! l = u32 (read_operand c w o !!! l).
Proof.
  intros E Hl. unfold msrc, micro_source, read_operand, fill in *. destruct o as [r|x|x|]; simplify_eq/=.
  - destruct (wide r); [done|]. simpl in E. destruct (id r =? kNoReg); [done|]. injection E as <- <-. symmetry. apply u32_small.
    by apply file_read32_u32.
  - rewrite !(lookup_total_replicate_2 _ _ _ Hl). by rewrite u32_u64.
  - by rewrite !(lookup_total_replicate_2 _ _ _ Hl).
Qed.

Lemma narrow_read o l : narrow_operand o = true → (l < W)%nat →
  read_narrow c w o !!! l = u32 (read_operand c w o !!! l).
Proof.
  intros E Hl. unfold narrow_operand, read_narrow, read_operand, fill in *. destruct o as [r|x|x|]; [..|done].
  - destruct (wide r); [done|]. symmetry. apply u32_small. by apply file_read32_u32.
  - rewrite !(lookup_total_replicate_2 _ _ _ Hl). by rewrite u32_u64.
  - by rewrite !(lookup_total_replicate_2 _ _ _ Hl).
Qed.

(** A 64-bit source: the operand itself. *)
Lemma src64_read i o u u' l : source64 i o u = Some u' → (l < W)%nat →
  micro_src64 c w u' i !!! l = read_operand c w o !!! l.
Proof.
  intros E Hl. unfold source64 in E. destruct o as [r|x|x|]; [|..|done]; [| |done].
  - destruct (id r =? kNoReg); [done|]. injection E as <-. unfold micro_src64; simpl. unfold upd.
    rewrite Nat.eqb_refl. by destruct (wide r).
  - destruct (_ || _) eqn:EV; [done|]. injection E as <-. unfold micro_src64; simpl. unfold upd. rewrite Nat.eqb_refl.
    unfold fill. rewrite !(lookup_total_replicate_2 _ _ _ Hl). rewrite i32_u32. f_equal.
    apply sread_small; [lia|]. zify_bool. change (2 ^ (32 - 1)) with 2147483648. lia.
Qed.
End operands.

(** ** Writes *)

Lemma write_lanes_put dst m bits f g w : is_mask c m →
  (∀ l, bit m l = true → (l < W)%nat → f l = Some (g l)) →
  write_lanes c dst m bits f w =
    if wide dst then put64 c (id dst) m (λ l, cut dst bits (g l)) w
    else put32 c (id dst) m (λ l, cut dst bits (g l)) w.
Proof.
  intros Hm Hf. unfold write_lanes. destruct (for_lanes_total c HW m f) as [r Hr].
  { intros l HB Hl. rewrite Hf by done. by eexists. }
  rewrite Hr. apply for_lanes_some in Hr as [_ HE]. rewrite write_reg_put.
  destruct (wide dst); [apply put64_ext|apply put32_ext]; try done; intros l HB;
    pose proof (is_mask_bit c HW m l Hm HB) as Hl; specialize (HE l HB Hl); rewrite Hf in HE by done; by injection HE as <-.
Qed.

Lemma write_reg_lanes dst m bits (v : list Z) w :
  write_reg c dst m v bits w =
    if wide dst then put64 c (id dst) m (λ l, cut dst bits (v !!! l)) w
    else put32 c (id dst) m (λ l, cut dst bits (v !!! l)) w.
Proof. apply write_reg_put. Qed.

Lemma set_pred_ext r f g w : wf_regs c w → (∀ p, is_u64 p → f p = g p) → set_pred c r f w = set_pred c r g w.
Proof.
  intros Hw H. unfold set_pred. destruct (if wide r then _ else _); [|done].
  destruct (nth_z (preds w) (pred_index c r)) as [p|] eqn:E; [|done]. rewrite H; [done|].
  apply nth_z_Some in E as [_ E]. pose proof (wf_preds _ _ Hw) as F. by eapply Forall_lookup_1 in F.
Qed.

(** A mask gathered lane by lane, by either loop. *)
Lemma gather_blend p m f g : is_mask c m → is_u64 p → (∀ l, bit m l = true → f l = g l) →
  blend p (gather_active c m f) m = blend p (gather c m g) m.
Proof.
  intros Hm Hp H. apply (blend_ext c HW); [done..| | |].
  - unfold gather_active. assert (HH : ∀ L t, 0 ≤ t → 0 ≤ foldl (λ t l, Z.lor t (Z.shiftl (Z.b2z (f l)) (Z.of_nat l))) t L).
    { induction L as [|k L IH]; intros t Ht; simpl; [done|]. apply IH, Z.lor_nonneg. split; [done|].
      apply Z.shiftl_nonneg. by destruct (f k). }
    by apply HH.
  - apply (is_mask_gather c HW).
  - intros l HB. rewrite (bit_gather_active c HW), bit_gather by done. rewrite HB, H by done.
    rewrite bool_decide_eq_true_2; [done|]. by apply (is_mask_bit c HW m).
Qed.

(** The carry is a member of its own: its store commutes with a register's. *)
Lemma put32_carry i m f o w : put32 c i m f (set_carry o w) =
  match put32 c i m f w with Ret a w' => Ret a (set_carry o w') | Exn e w' => Exn e (set_carry o w') | Undef => Undef end.
Proof.
  unfold put32, bind, dst32. simpl. destruct (nth_z (regs32 w) i); [|done].
  by destruct (nth_z (written32 w) i) as [[]|].
Qed.

Lemma carry_folds m f cy : is_mask c m → is_u64 cy →
  foldl (λ out l, if bit m l then Z.lor (Z.land out (unot (Z.shiftl 1 (Z.of_nat l))))
                    (Z.shiftl (Z.b2z (f l)) (Z.of_nat l)) else out) cy (seq 0 W) =
  foldl (λ out l, Z.lor (Z.land out (unot (Z.shiftl 1 (Z.of_nat l))))
                    (Z.shiftl (Z.b2z (f l)) (Z.of_nat l))) cy (active_lanes c m).
Proof.
  intros Hm Hc.
  assert (HL1 : Forall (λ k, (k < 64)%nat) (seq 0 W)) by (apply Forall_forall; intros k Hk%elem_of_seq; lia).
  assert (HL2 : Forall (λ k, (k < 64)%nat) (active_lanes c m)).
  { apply Forall_forall. intros k Hk. apply (elem_of_active c HW m k Hm) in Hk.
    pose proof (is_mask_bit c HW m k Hm Hk). lia. }
  assert (E1 := λ l Hl, foldl_carry c HW (bit m) f (seq 0 W) cy l Hc HL1 Hl).
  assert (E2 := λ l Hl, foldl_carry c HW (λ _, true) f (active_lanes c m) cy l Hc HL2 Hl).
  apply (mask_eq 64); [apply (E1 0%nat); lia|apply (E2 0%nat); lia|]. intros l Hl.
  destruct (E1 l Hl) as [_ ->]. destruct (E2 l Hl) as [_ ->]. rewrite andb_true_r.
  destruct (bit m l) eqn:B.
  - pose proof (is_mask_bit c HW m l Hm B). rewrite !bool_decide_eq_true_2; [done|..].
    + by apply (elem_of_active c HW).
    + apply elem_of_seq. lia.
  - rewrite andb_false_r, bool_decide_eq_false_2; [done|]. rewrite (elem_of_active c HW) by done. congruence.
Qed.

Lemma put32_shape i m f w : put32 c i m f w = Undef ∨ ∃ R WR, put32 c i m f w = Ret tt (set_regs32 R WR w).
Proof.
  unfold put32, bind, dst32. destruct (nth_z (regs32 w) i); [|by left].
  destruct (nth_z (written32 w) i) as [[]|]; [right..|by left]; by do 2 eexists.
Qed.
Lemma put32_no_exn i m f w e w' : put32 c i m f w ≠ Exn e w'.
Proof. destruct (put32_shape i m f w) as [->|(? & ? & ->)]; done. Qed.
Lemma put32_keeps_carry i m f w w' : put32 c i m f w = Ret tt w' → carry w' = carry w.
Proof. destruct (put32_shape i m f w) as [->|(? & ? & ->)]; [done|]. by intros [= <-]. Qed.

Lemma foldl_seq_ext {A} (f g : A → nat → A) n a : (∀ l x, (l < n)%nat → f x l = g x l) →
  foldl f a (seq 0 n) = foldl g a (seq 0 n).
Proof.
  intros H. assert (HL : Forall (λ l, (l < n)%nat) (seq 0 n)) by (apply Forall_forall; intros k Hk%elem_of_seq; lia).
  revert a HL. induction (seq 0 n) as [|k L IH]; intros a HL; simpl; [done|]. inversion HL; subst.
  rewrite H by done. by apply IH.
Qed.

(** A lane-wise handler into a narrow or a wide register is one put. *)
Lemma write_lanes_32 dst m bits f h w : is_mask c m → wide dst = false →
  (∀ l, bit m l = true → (l < W)%nat → ∃ v, f l = Some v ∧ cut dst bits v = h l) →
  write_lanes c dst m bits f w = put32 c (id dst) m h w.
Proof.
  intros Hm Hd Hf. rewrite (write_lanes_put dst m bits f (λ l, default 0 (f l))) by (done || (intros l HB Hl; by destruct (Hf l HB Hl) as (v & -> & _))).
  rewrite Hd. apply (put32_ext c HW); [done|]. intros l HB. destruct (Hf l HB (is_mask_bit c HW m l Hm HB)) as (v & -> & <-). done.
Qed.
Lemma write_lanes_64 dst m bits f h w : is_mask c m → wide dst = true →
  (∀ l, bit m l = true → (l < W)%nat → ∃ v, f l = Some v ∧ cut dst bits v = h l) →
  write_lanes c dst m bits f w = put64 c (id dst) m h w.
Proof.
  intros Hm Hd Hf. rewrite (write_lanes_put dst m bits f (λ l, default 0 (f l))) by (done || (intros l HB Hl; by destruct (Hf l HB Hl) as (v & -> & _))).
  rewrite Hd. apply (put64_ext c HW); [done|]. intros l HB. destruct (Hf l HB (is_mask_bit c HW m l Hm HB)) as (v & -> & <-). done.
Qed.

(** ** What a faster tier may do *)

(** It declines, nothing changed, or its outcome is the general handler's. *)
Definition took (gen : outcome Warp unit) : outcome Warp bool :=
  match gen with Ret _ w' => Ret true w' | Exn e w' => Exn e w' | Undef => Undef end.
Definition tier (fast : outcome Warp bool) (gen : outcome Warp unit) (w : Warp) : Prop :=
  fast = Ret false w ∨ fast = took gen.

Lemma tier_took (k : M Warp unit) gen w : k w = gen → tier ((k ;;; ret true) w) gen w.
Proof. intros <-. right. unfold bind. by destruct (k w) as [[] ?| |]. Qed.
Lemma tier_declines gen w : tier (ret false w) gen w.
Proof. by left. Qed.

Lemma cut_32 i v : cut (mkReg i false) 32 v = u32 v.
Proof. done. Qed.
Lemma cut_64 i v : cut (mkReg i true) 64 v = v.
Proof. done. Qed.

Section fast.
Context (w : Warp) (m : Z) (Hw : wf_regs c w) (Hm : is_mask c m).
#[local] Abbreviation n32 := (Z.of_nat (length (regs32 w))).
#[local] Abbreviation n64 := (Z.of_nat (length (regs64 w))).

(** The compares of the faster tiers, gathered through for_active. *)
Lemma setp_tier o f : op_ok isp n32 n64 (OpSetp o) → sp_bop o = None → sp_q o = None →
  (∀ l, bit m l = true → (l < W)%nat →
     f l = compare (sp_cmp o) (sp_ty o) (read_operand c w (sp_a o) !!! l) (read_operand c w (sp_b o) !!! l)) →
  tier ((set_pred c (sp_dst o) (λ p, blend p (gather_active c m f) m) ;;; ret true) w) (general c (OpSetp o) m w) w.
Proof.
  intros Ho HB HQ Hf. apply tier_took. open_general; unfold bind at 1, get. rewrite HB, HQ. unfold bind, ret.
  rewrite (set_pred_ext _ _ (λ p, blend p (gather c m (λ l, compare (sp_cmp o) (sp_ty o)
     (read_operand c w (sp_a o) !!! l) (read_operand c w (sp_b o) !!! l))) m) w Hw).
  - simpl. by destruct (set_pred _ _ _ w) as [[] ?| |].
  - intros p Hp. apply gather_blend; [done..|]. intros l HBl. apply Hf; [done|]. by apply (is_mask_bit c HW m).
Qed.

Lemma int_bin_plain o : ib_carry_in o || ib_carry_out o || ib_sat o = false →
  general c (OpIntBin o) m w =
    write_lanes c (ib_dst o) m (bits (ib_ty o)) (λ l,
      int_bin (strict c) (ib_op o) (ib_ty o) (read_operand c w (ib_a o) !!! l) (read_operand c w (ib_b o) !!! l)) w.
Proof. intros H%orb_false_elim. destruct H as [H1 H2]. open_general; unfold bind at 1, get. by rewrite H1, H2. Qed.

Lemma no_division_ne op : no_division op = true → op ≠ Div ∧ op ≠ Rem.
Proof. by destruct op. Qed.

Lemma int_bin_32_lane op ty a b : bits ty = 32 → is_u64 a → is_u64 b → no_division op = true ∨ strict c = false →
  ∃ v, int_bin (strict c) op ty a b = Some v ∧ u32 v = int_bin32 op (is_signed ty) (u32 a) (u32 b).
Proof.
  intros H32 Ha Hb Hd. pose proof (int_bin32_is op ty a b H32 Ha Hb) as H.
  destruct (int_bin false op ty a b) as [v|] eqn:E; [|done]. exists v. injection H as H. split; [|done].
  destruct (strict c); [|done]. destruct Hd as [Hd|]; [|done]. rewrite int_bin_strict, E. by destruct op.
Qed.

Lemma int_bin_64_lane op ty a b : bits ty = 64 → no_division op = true →
  is_u64 a → is_u64 b →
  ∃ v, int_bin (strict c) op ty a b = Some v ∧ v = default 0 (int_bin64 op (is_signed ty) a b).
Proof.
  intros H64 [? ?]%no_division_ne Ha Hb. rewrite (int_bin64_is op ty a b) by done.
  destruct (int_bin64 op _ a b) as [v|] eqn:E; [by exists v|]. exfalso.
  rewrite <- (int_bin64_is op ty a b false) in E by done.
  destruct (int_bin_total ty op a b ltac:(lia) Ha Hb) as (v & E' & _). congruence.
Qed.

Lemma fast_path_tier o : op_ok isp n32 n64 o → tier (fast_path c o m w) (general c o m w) w.
Proof.
  intros Ho. destruct o; try apply tier_declines; simpl fast_path.
  - destruct Ho as (Hty & Hd & Hs). unfold fast_mov. destruct dst as [i wd]; simpl.
    destruct (Z.eqb_spec (bits ty) 32) as [H32|]; [|apply tier_declines]. destruct wd; [apply tier_declines|].
    destruct (narrow_operand src) eqn:EN; [|apply tier_declines]. simpl. unfold bind at 1, get.
    apply tier_took. open_general; unfold bind, get. rewrite write_reg_lanes, H32. simpl. apply (put32_ext c HW); [done|].
    intros l HB. pose proof (is_mask_bit c HW m l Hm HB). by rewrite narrow_read.
  - destruct Ho as (Hty & Hd & Ha & Hb). destruct (Z.eqb_spec (bits (ib_ty op)) 64) as [H64|].
    + unfold fast_int_bin64. destruct (_ || _) eqn:EC; [apply tier_declines|].
      rewrite !orb_false_iff, !negb_false_iff in EC. destruct EC as [[EC EW] EN]. unfold bind at 1, get. apply tier_took.
      rewrite int_bin_plain by (by rewrite !orb_false_iff). symmetry. apply write_lanes_64; [done..|]. intros l HB Hl.
      destruct (int_bin_64_lane (ib_op op) (ib_ty op) (read_operand c w (ib_a op) !!! l) (read_operand c w (ib_b op) !!! l))
        as (v & -> & ->); [done..|by apply operand_u64|by apply operand_u64|].
      eexists; split; [done|]. destruct (ib_dst op) as [i wd]; simpl in *; subst wd. by rewrite H64.
    + unfold fast_int_bin. destruct (_ || _) eqn:EC; [apply tier_declines|].
      rewrite !orb_false_iff, !negb_false_iff in EC. destruct EC as [[[[[EC EB] EW] EA1] EA2] EN].
      apply Z.eqb_eq in EB. unfold bind at 1, get. apply tier_took.
      rewrite int_bin_plain by (by rewrite !orb_false_iff). symmetry. apply write_lanes_32; [done..|]. intros l HB Hl.
      destruct (int_bin_32_lane (ib_op op) (ib_ty op) (read_operand c w (ib_a op) !!! l) (read_operand c w (ib_b op) !!! l))
        as (v & -> & Ev); [done|by apply operand_u64|by apply operand_u64|by left|].
      eexists; split; [done|]. rewrite !narrow_read by done. rewrite <- Ev.
      destruct (ib_dst op) as [i wd]; simpl in *; subst wd. by rewrite EB.
  - destruct Ho as (Hty & Hd & Ha & Hb & Hx). unfold fast_mad_lo. destruct (_ || _) eqn:EC; [apply tier_declines|].
    rewrite !orb_false_iff, !negb_false_iff in EC. destruct EC as [[[[[EC EB] EW] EA1] EA2] EA3].
    apply Z.eqb_eq in EB. unfold bind at 1, get. apply tier_took. open_general; unfold bind at 1, get.
    destruct EC as [-> ->]. simpl. symmetry. apply write_lanes_32; [done..|]. intros l HB Hl.
    eexists; split; [done|]. rewrite !narrow_read, EB by done.
    destruct (ml_dst op) as [i wd]; simpl in *; subst wd. rewrite cut_32. apply u32_add_mul.
  - destruct Ho as (Hn & Hd & Ha & Hb). unfold fast_mul_wide. destruct (_ || _) eqn:EC; [apply tier_declines|].
    rewrite !orb_false_iff, !negb_false_iff in EC. destruct EC as [[[EB EW] EA1] EA2].
    apply Z.eqb_eq in EB as ->. unfold bind at 1, get. apply tier_took. open_general; unfold bind at 1, get.
    symmetry. apply write_lanes_64; [done..|]. intros l HB Hl. eexists; split; [done|].
    rewrite !narrow_read by done. destruct dst as [i wd]; simpl in *; subst wd. change (32 * 2) with 64. rewrite cut_64.
    unfold mul_wide. simpl. by rewrite !i32_u32.
  - unfold fast_setp. destruct (_ || _) eqn:EC; [apply tier_declines|].
    rewrite !orb_false_iff, !negb_false_iff in EC. destruct EC as [[[[[EB EF] EA1] EA2] EP] EQ].
    apply Z.eqb_eq in EB. apply bool_decide_eq_false in EP, EQ. apply eq_None_not_Some in EP, EQ.
    unfold bind at 1, get. destruct (ordered_cmp (sp_cmp op)) eqn:EO; [|apply tier_declines].
    apply setp_tier; [done..|]. destruct Ho as (Hty & Hd & Ha & Hb & Hq). intros l HB Hl. rewrite !narrow_read by done.
    symmetry. apply setp32_is; [done|by apply operand_u64|by apply operand_u64|].
    by destruct (sp_cmp op).
Qed.

(** ** Pre-decoded instructions *)

Lemma int_bin_16_lane op ty a b : bits ty = 16 → no_division op = true → is_u64 a → is_u64 b →
  ∃ v, int_bin (strict c) op ty a b = Some v ∧
    v mod 2 ^ 16 = Z.land (default 0 (int_bin16 op (is_signed ty) (u32 a) (u32 b))) 65535.
Proof.
  intros H16 Hn Ha Hb. pose proof (no_division_ne _ Hn) as [HD HR].
  pose proof (int_bin16_is op ty (u32 a) (u32 b) false H16 HD HR (u32_range a) (u32_range b)) as E.
  destruct (int_bin_total ty op a b ltac:(lia) Ha Hb) as (v & Ev & _ & Hv).
  destruct (int_bin_total ty op (u32 a) (u32 b) ltac:(lia) (is_u64_u32 a) (is_u64_u32 b)) as (v' & Ev' & _ & Hv').
  rewrite Ev' in E. destruct (int_bin16 _ _ _ _) as [x|]; [|done]. injection E as E. simpl default. rewrite land_65535, <- E.
  exists v. split; [destruct (strict c); [rewrite int_bin_strict; by destruct op|done]|].
  rewrite H16 in Hv, Hv'. rewrite Hv, Hv'. unfold Math.int_op.
  rewrite !(value_congr ty (u32 _) _) by (rewrite H16; by apply u32_mod). by rewrite u32_u32.
Qed.

Lemma need_Some b u u' : need b u = Some u' → b = true ∧ u' = u.
Proof. unfold need. destruct b; [|done]. by intros [= ->]. Qed.
Lemma narrow_dst_Some r u u' : narrow_dst r u = Some u' → wide r = false ∧ u' = set_dst u (id r).
Proof. unfold narrow_dst. destruct (wide r); [done|]. simpl. case_if; [done|]. by intros [= <-]. Qed.
Lemma wide_dst_Some r u u' : wide_dst r u = Some u' → wide r = true ∧ u' = set_dst u (id r).
Proof. unfold wide_dst. destruct (wide r); [|done]. simpl. case_if; [done|]. by intros [= <-]. Qed.
Lemma source_Some i o u u' : source i o u = Some u' → ∃ v b, micro_source o = Some (v, b) ∧ u' = set_src u i v b false.
Proof. unfold source. destruct (micro_source o) as [[v b]|]; [|done]. intros [= <-]. by exists v, b. Qed.

(** A decoded 64-bit source names its operand whatever is set after it. *)
Lemma source64_Some i o u u' : source64 i o u = Some u' →
  ∃ v b wd, u' = set_src u i v b wd ∧
    ∀ u2 l, src u2 i = v → imm u2 i = b → wide64 u2 i = wd → (l < W)%nat →
      micro_src64 c w u2 i !!! l = read_operand c w o !!! l.
Proof.
  intros E. assert (∃ v b wd, u' = set_src u i v b wd) as (v & b & wd & ->).
  { unfold source64 in E. destruct o; repeat case_match; simplify_eq; by do 3 eexists. }
  exists v, b, wd. split; [done|]. intros u2 l H1 H2 H3 Hl. rewrite <- (src64_read w i o u _ l E Hl).
  unfold micro_src64. rewrite H1, H2, H3. simpl. unfold upd. by rewrite Nat.eqb_refl.
Qed.

Lemma micro_src_read u i o v b l : micro_source o = Some (v, b) → src u i = v → imm u i = b → (l < W)%nat →
  micro_src c w u i !!! l = u32 (read_operand c w o !!! l).
Proof. intros E <- <- Hl. by apply (msrc_read w Hw o). Qed.

Ltac decode_inv E :=
  repeat (cbv beta in E;
    match type of E with
    | context [match need ?b ?u with _ => _ end] =>
        let N := fresh "N" in destruct (need b u) eqn:N; [apply need_Some in N as [N ->]|done]
    | context [match narrow_dst ?b ?u with _ => _ end] =>
        let N := fresh "D" in destruct (narrow_dst b u) eqn:N; [apply narrow_dst_Some in N as [N ->]|done]
    | context [match wide_dst ?b ?u with _ => _ end] =>
        let N := fresh "D" in destruct (wide_dst b u) eqn:N; [apply wide_dst_Some in N as [N ->]|done]
    | context [match source ?i ?b ?u with _ => _ end] =>
        let N := fresh "S" in destruct (source i b u) eqn:N; [apply source_Some in N as (? & ? & N & ->)|done]
    | context [match source64 ?i ?b ?u with _ => _ end] =>
        let N := fresh "S" in destruct (source64 i b u) eqn:N; [apply source64_Some in N as (? & ? & ? & -> & N)|done]
    end);
  try (injection E as <-).

Ltac micro_start :=
  open_micro; unfold bind at 1, get;
  cbn [mk sub kSigned kLeft kWrap mdst konst set_kind set_src set_dst set_shift set_const];
  try apply tier_took.

Ltac srcs :=
  cbv beta;
  repeat match goal with
  | H : micro_source ?o = Some _ |- context [micro_src c w ?u ?i !!! ?l] =>
      rewrite (micro_src_read u i o _ _ l H eq_refl eq_refl) by done
  | H : ∀ u2 l, src u2 ?i = _ → _ |- context [micro_src64 c w ?u ?i !!! ?l] =>
      rewrite (H u l eq_refl eq_refl eq_refl) by done
  end.

(** The carry chain: the micro form stores the result first, the handler the carry. *)
Lemma carry_tier u dst (co : bool) (f g : nat → bool → Z * bool) : wide dst = false → mdst u = id dst →
  (∀ l cy, bit m l = true → (l < W)%nat →
     f l cy = ((g l cy).1, if co then (g l cy).2 else cy) ∧ u32 (g l cy).1 = (g l cy).1) →
  micro_carry c u m co g w = write_carry c dst m 32 co f w.
Proof.
  intros Hd Hu Hf. set (F := λ l, (g l (bit (carry w) l)).1).
  assert (HR : ∀ w1, write_reg c dst m (carry_lanes c m co f (carry w)).1 32 w1 = put32 c (id dst) m F w1).
  { intros w1. rewrite write_reg_lanes, Hd. apply (put32_ext c HW); [done|]. intros l HB.
    pose proof (is_mask_bit c HW m l Hm HB) as Hl. destruct (Hf l (bit (carry w) l) HB Hl) as [HF HU].
    rewrite (list_lookup_total_correct _ l (F l)); [by destruct dst; simpl in *; subst|].
    unfold carry_lanes; simpl. by rewrite list_lookup_fmap, lookup_seq_lt by done; simpl; rewrite HB, HF. }
  unfold write_carry, micro_carry. unfold bind at 1 3, get. rewrite (surjective_pairing (carry_lanes c m co f (carry w))).
  unfold bind at 2, modify at 2. rewrite HR, put32_carry, Hu. fold F. unfold bind.
  destruct co; simpl (carry_lanes _ _ _ _ _).2.
  - destruct (put32 c (id dst) m F w) as [[] w'|e w'|] eqn:E; [|by apply put32_no_exn in E|done].
    unfold modify. f_equal. f_equal. rewrite <- (carry_folds m (λ l, (g l (bit (carry w) l)).2)) by (done || apply Hw).
    apply foldl_seq_ext. intros l out Hl. destruct (bit m l) eqn:HB; [|done]. by destruct (Hf l (bit (carry w) l) HB Hl) as [-> _].
  - destruct (put32 c (id dst) m F w) as [[] w'|e w'|] eqn:E; [|by apply put32_no_exn in E|done].
    unfold ret. f_equal. apply put32_keeps_carry in E. rewrite <- E. by destruct w'.
Qed.

(** Integer instructions, by width. *)
Lemma micro_int_bin o u0 u : op_ok isp n32 n64 (OpIntBin o) → decode_int_bin o u0 = Some u →
  tier (micro_body c u m w) (general c (OpIntBin o) m w) w.
Proof.
  intros (Hty & Hd & Ha & Hb) E. unfold decode_int_bin in E.
  destruct (Z.eqb_spec (bits (ib_ty o)) 64) as [H64|].
  { decode_inv E. apply andb_true_iff in N as [N1%negb_true_iff N2]. micro_start. rewrite N2. apply tier_took.
    rewrite int_bin_plain by done. symmetry. apply write_lanes_64; [done..|]. intros l HB Hl. srcs.
    destruct (int_bin_64_lane (ib_op o) (ib_ty o) (read_operand c w (ib_a o) !!! l) (read_operand c w (ib_b o) !!! l))
      as (v & -> & ->); [done..|by apply operand_u64|by apply operand_u64|].
    eexists; split; [done|]. destruct (ib_dst o); simpl in *; subst. by rewrite H64. }
  destruct (Z.eqb_spec (bits (ib_ty o)) 16) as [H16|].
  { decode_inv E. rewrite !andb_true_iff, !negb_true_iff in N. destruct N as [[N1 N2] _]. micro_start. rewrite N2. apply tier_took.
    rewrite int_bin_plain by done. symmetry. apply write_lanes_32; [done..|]. intros l HB Hl. srcs.
    destruct (int_bin_16_lane (ib_op o) (ib_ty o) (read_operand c w (ib_a o) !!! l) (read_operand c w (ib_b o) !!! l))
      as (v & -> & Ev); [done..|by apply operand_u64|by apply operand_u64|].
    eexists; split; [done|]. rewrite <- Ev, H16. destruct (ib_dst o); simpl in *; subst. apply cut_narrow_16. }
  destruct (_ && _ && _ && _) eqn:EC.
  { decode_inv E. rewrite !andb_true_iff, negb_true_iff in EC. destruct EC as [[[EC E32] ES] EO]. apply Z.eqb_eq in E32.
    micro_start. open_general; unfold bind at 1, get. rewrite EC, E32. apply carry_tier; [done..|]. intros l cy HB Hl. srcs.
    split; [|apply u32_u32]. apply carry_add_sub_32; by apply operand_u64. }
  decode_inv E. rewrite !andb_true_iff, !negb_true_iff in N. destruct N as [N1 N2]. apply Z.eqb_eq in N2. micro_start.
  destruct (negb (no_division (ib_op o)) && strict c) eqn:ED; [apply tier_declines|]. apply tier_took.
  rewrite int_bin_plain by done. symmetry. apply write_lanes_32; [done..|]. intros l HB Hl. srcs.
  destruct (int_bin_32_lane (ib_op o) (ib_ty o) (read_operand c w (ib_a o) !!! l) (read_operand c w (ib_b o) !!! l))
    as (v & -> & Ev); [done|by apply operand_u64|by apply operand_u64| |].
  { destruct (no_division (ib_op o)); [by left|by right]. }
  eexists; split; [done|]. rewrite <- Ev, N2. by destruct (ib_dst o); simpl in *; subst.
Qed.

Lemma compare_16 o ty a b : bits ty = 16 → is_u64 a → is_u64 b →
  do_cmp o (if is_signed ty then sread 16 (u32 a) else Z.land (u32 a) 65535)
    (if is_signed ty then sread 16 (u32 b) else Z.land (u32 b) 65535) = compare o ty a b.
Proof.
  intros H16 Ha Hb. unfold compare. rewrite H16, !narrow_u_mod, !narrow_s_sread, !land_65535 by (done || lia).
  destruct (is_signed ty); [|by rewrite !u32_mod by lia].
  by rewrite !(sread_congr 16 (u32 _) _) by (by apply u32_mod).
Qed.

Lemma micro_setp o u0 u : op_ok isp n32 n64 (OpSetp o) → decode_setp o u0 = Some u →
  tier (micro_body c u m w) (general c (OpSetp o) m w) w.
Proof.
  intros Ho E. unfold decode_setp in E. pose proof Ho as (Hty & Hd & Ha & Hb & Hq).
  assert (HP : ∀ b, b && match sp_bop o, sp_q o with None, None => true | _, _ => false end = true →
    sp_bop o = None ∧ sp_q o = None) by (intros b; destruct (sp_bop o), (sp_q o); rewrite ?andb_false_r; done).
  assert (HD : wide (sp_dst o) = false → mkReg (id (sp_dst o)) false = sp_dst o) by (intros; destruct (sp_dst o); simpl in *; by subst).
  destruct ((bits (sp_ty o) =? 16) && _) eqn:E16; [|destruct (Z.eqb_spec (bits (sp_ty o)) 64) as [H64|]].
  - apply andb_true_iff in E16 as [H16%Z.eqb_eq _]. decode_inv E. destruct (HP true N) as [P1 P2]. micro_start. rewrite N0.
    unfold micro_set_pred. cbn [mdst set_kind set_src set_dst]. rewrite HD by done. apply setp_tier; [done..|]. intros l HB Hl. srcs.
    rewrite <- compare_16 by (done || by apply operand_u64). by destruct (is_signed (sp_ty o)).
  - decode_inv E. destruct (HP _ N) as [P1 P2]. micro_start. rewrite N0.
    unfold micro_set_pred. cbn [mdst set_kind set_src set_dst]. rewrite HD by done. apply setp_tier; [done..|]. intros l HB Hl. srcs.
    symmetry. apply setp64_is; [done|]. by destruct (sp_cmp o).
  - decode_inv E. destruct (HP _ N) as [P1 P2]. rewrite !andb_true_iff in N. destruct N as [[N1%Z.eqb_eq _] _]. micro_start. rewrite N0.
    unfold micro_set_pred. cbn [mdst set_kind set_src set_dst]. rewrite HD by done. apply setp_tier; [done..|]. intros l HB Hl. srcs.
    symmetry. apply setp32_is; [done|by apply operand_u64|by apply operand_u64|]. by destruct (sp_cmp o).
Qed.

Lemma micro_mov ty dst s u0 u : op_ok isp n32 n64 (OpMov ty dst s) → decode_mov ty dst s u0 = Some u →
  tier (micro_body c u m w) (general c (OpMov ty dst s) m w) w.
Proof.
  intros (Hty & Hd & Hs) E. unfold decode_mov in E.
  assert (HG : ∀ h, (∀ l, bit m l = true → (l < W)%nat → cut dst (bits ty) (read_operand c w s !!! l) = h l) →
    general c (OpMov ty dst s) m w = if wide dst then put64 c (id dst) m h w else put32 c (id dst) m h w).
  { intros h Hh. open_general; unfold bind, get. rewrite write_reg_lanes.
    destruct (wide dst); [apply (put64_ext c HW)|apply (put32_ext c HW)]; try done; intros l HB; apply Hh; [done| |done|];
      by apply (is_mask_bit c HW m). }
  destruct (Z.eqb_spec (bits ty) 64) as [H64|].
  - cbv beta in E. destruct (wide_dst dst u0) as [u1|] eqn:ED; [|done]. apply wide_dst_Some in ED as [ED ->].
    assert (HC : ∀ v, cut dst (bits ty) v = v) by (intros v; destruct dst; simpl in *; subst; by rewrite H64).
    destruct (source64 0 s (set_dst u0 (id dst))) as [u2|] eqn:ES.
    { apply source64_Some in ES as (? & ? & ? & -> & S). injection E as <-. micro_start.
      rewrite (HG (λ l, micro_src64 c w (set_kind (set_src (set_dst u0 (id dst)) 0 x x0 x1) Mov64 SubNone false) 0 !!! l)), ED; [done|].
      intros l HB Hl. rewrite HC. symmetry. by apply S. }
    destruct s as [?|value|fbits|?]; try done; injection E as <-; micro_start.
    + rewrite (HG (λ _, u64 value)), ED; [done|]. intros l HB Hl. rewrite HC. by apply lookup_total_replicate_2.
    + rewrite (HG (λ _, fbits)), ED; [done|]. intros l HB Hl. rewrite HC. by apply lookup_total_replicate_2.
  - assert (HM : (if bits ty =? 16 then narrow_dst dst >=> source 0 s >=> λ u, Some (set_kind u Mov16 SubNone false)
        else need (bits ty =? 32) >=> narrow_dst dst >=> source 0 s >=> λ u, Some (set_kind u Mov32 SubNone false)) u0 = Some u →
      tier (micro_body c u m w) (general c (OpMov ty dst s) m w) w).
    { clear E. intros E. destruct (Z.eqb_spec (bits ty) 16) as [H16|].
      - decode_inv E. micro_start. erewrite HG, D; [done|]. intros l HB Hl. srcs. rewrite H16.
        destruct dst as [i wd]; simpl in D; subst wd. rewrite cut_narrow_16, land_65535. by rewrite u32_mod by lia.
      - decode_inv E. apply Z.eqb_eq in N. micro_start. erewrite HG, D; [done|]. intros l HB Hl. srcs. rewrite N.
        by destruct dst; simpl in *; subst. }
    destruct s; [by apply HM..|]. decode_inv E. apply Z.eqb_eq in N. micro_start. erewrite HG, D; [done|].
    intros l HB Hl. rewrite N. destruct dst as [i wd]; simpl in D; subst wd. rewrite cut_32.
    rewrite (list_lookup_total_correct _ l (sreg c reg l)); [apply u32_small, HS|]. cbn [read_operand]. by rewrite list_lookup_fmap, lookup_seq_lt.
Qed.

(** A predicate source, read before anything is written. *)
Lemma micro_pred_read u i r im u1 : (0 <=? im) || pred_reg_ok r = true →
  imm u1 i = imm (pred_source i r im u) i → src u1 i = src (pred_source i r im u) i →
  match micro_pred w u1 i with
  | Some p => (if 0 <=? im then ret (if im =? 0 then 0 else unot 0) else read_pred c r) w = Ret p w
  | None => True
  end.
Proof.
  intros Ho HI HR. unfold micro_pred, pred_source in *. rewrite HI, HR. destruct (0 <=? im); simpl; unfold upd; rewrite Nat.eqb_refl.
  - by destruct (im =? 0).
  - unfold pred_reg_ok in Ho. simpl in Ho. apply andb_true_iff in Ho as [Ho%negb_true_iff _].
    unfold read_pred, pred_index. rewrite Ho.
    destruct (nth_z (written32 w) (id r)) as [[]|]; [|done..]. by destruct (nth_z (preds w) (id r)).
Qed.

Lemma pred_bin_tier o dst a b a_imm b_imm a_neg b_neg u0 u :
  decode_op (OpPredBin o dst a b a_imm b_imm a_neg b_neg) u0 = Some u →
  tier (micro_body c u m w) (general c (OpPredBin o dst a b a_imm b_imm a_neg b_neg) m w) w.
Proof.
  intros E. open_decode E. decode_inv E. rewrite !andb_true_iff, !negb_true_iff in N. destruct N as [[[N1 N2] ->] ->].
  open_micro; unfold bind at 1, get. cbn [mk sub set_kind].
  set (u := set_kind _ _ _ _).
  pose proof (micro_pred_read (set_dst u0 (id dst)) 0 a a_imm u N1) as HA.
  pose proof (micro_pred_read (pred_source 0 a a_imm (set_dst u0 (id dst))) 1 b b_imm u N2) as HB.
  destruct (micro_pred w u 0) as [x|]; [|by left]. destruct (micro_pred w u 1) as [y|]; [|by left].
  apply tier_took. open_general; unfold bind at 1, get. unfold bind.
  rewrite HA, HB; [| |..].
  - unfold micro_set_pred, u. unfold pred_source. destruct (0 <=? a_imm), (0 <=? b_imm); simpl; destruct dst; simpl in *; by subst.
  - done.
  - done.
  - unfold u, pred_source. by destruct (0 <=? a_imm), (0 <=? b_imm).
  - unfold u, pred_source. by destruct (0 <=? a_imm), (0 <=? b_imm).
Qed.

Lemma micro_mad_lo o u0 u : op_ok isp n32 n64 (OpMadLo o) → decode_op (OpMadLo o) u0 = Some u →
  tier (micro_body c u m w) (general c (OpMadLo o) m w) w.
Proof.
  intros (Hty & Hd & Ha & Hb & Hx) E. open_decode E. decode_inv E. apply Z.eqb_eq in N.
  open_general; unfold bind at 1, get. destruct (ml_carry_in o || ml_carry_out o).
  - micro_start. rewrite N. apply carry_tier; [done..|]. intros l cy HB Hl. srcs.
    split; [|apply u32_u32]. apply carry_mad_32; by apply operand_u64.
  - micro_start. symmetry. apply write_lanes_32; [done..|]. intros l HB Hl. eexists; split; [done|]. srcs. rewrite N.
    destruct (ml_dst o) as [i wd]; simpl in D; subst wd. rewrite cut_32. apply u32_add_mul.
Qed.

Ltac narrow_handler E :=
  open_decode E; decode_inv E; micro_start; open_general; unfold bind at 1, get; symmetry;
  apply write_lanes_32; [done..|]; intros l HB Hl; eexists; split; [done|]; srcs.

Lemma micro_body_tier o u0 u : op_ok isp n32 n64 o → decode_op o u0 = Some u →
  tier (micro_body c u m w) (general c o m w) w.
Proof.
  intros Ho E. destruct o; try done.
  - by apply micro_mov with u0.
  - by apply micro_int_bin with u0.
  - by apply micro_mad_lo with u0.
  - destruct Ho as (Hn & Hd & Ha & Hb). open_decode E. decode_inv E. apply Z.eqb_eq in N as ->. micro_start.
    open_general; unfold bind at 1, get. symmetry. apply write_lanes_64; [done..|]. intros l HB Hl. eexists; split; [done|]. srcs.
    destruct dst as [i wd]; simpl in D; subst wd. change (32 * 2) with 64. rewrite cut_64.
    unfold mul_wide. simpl (32 =? 16). cbv iota. by rewrite !i32_u32.
  - destruct Ho as (Hty & Hd & Ha & Hb). narrow_handler E. apply andb_true_iff in N as [N%Z.eqb_eq _].
    destruct dst as [i wd]; simpl in D; subst wd. rewrite N, cut_32. by apply mul_hi_32; [|apply operand_u64..].
  - by apply micro_setp with u0.
  - destruct Ho as (Hty & Hd & Ha & Hb). open_decode E. decode_inv E.
    rewrite !andb_true_iff, negb_true_iff in N. destruct N as [[N%Z.eqb_eq ->] NP]. unfold pred_reg_ok in NP.
    apply andb_true_iff in NP as [NP%negb_true_iff _]. micro_start.
    open_general; unfold bind at 2, get. unfold read_pred, pred_index, bind at 2. rewrite NP.
    match goal with |- context [src ?u 2] => change (src u 2) with (id pred) end.
    destruct (nth_z (written32 w) (id pred)) as [[]|]; [|apply tier_declines..].
    destruct (nth_z (preds w) (id pred)) as [p|]; [|apply tier_declines]. apply tier_took.
    symmetry. apply write_lanes_32; [done..|]. intros l HB Hl. eexists; split; [done|]. srcs.
    destruct dst as [i wd]; simpl in D; subst wd. rewrite N, cut_32. simpl negate. by destruct (bit p l).
  - destruct Ho as (Hty & Hd & Hs). narrow_handler E. apply andb_true_iff in N as [N1%negb_true_iff N%Z.eqb_eq]. subst logical.
    destruct dst as [i wd]; simpl in D; subst wd. rewrite N, cut_32. apply u32_unot.
  - destruct Ho as (Hty & Hd & Hs). narrow_handler E. apply andb_true_iff in N as [N%Z.eqb_eq _].
    destruct dst as [i wd]; simpl in D; subst wd. rewrite N, cut_32. apply neg_32.
  - destruct Ho as (Hty & Hd & Hs). narrow_handler E. apply andb_true_iff in N as [N%Z.eqb_eq _].
    destruct dst as [i wd]; simpl in D; subst wd. rewrite N, cut_32. apply abs_32.
  - destruct Ho as (Hd & Ha & Hb & Hx). narrow_handler E.
    destruct dst as [i wd]; simpl in D; subst wd. rewrite cut_32, shf_narrow. unfold shf. rewrite !u32_u32.
    by destruct left; rewrite u32_u32.
  - destruct Ho as (Hty & Hd & Hs). narrow_handler E. apply Z.eqb_eq in N.
    destruct dst as [i wd]; simpl in D; subst wd. rewrite N, cut_32. by apply popc_clz_32, operand_u64.
  - by apply pred_bin_tier with u0.
  - open_decode E. decode_inv E. apply andb_true_iff in N as [NP ->%negb_true_iff].
    apply andb_true_iff in NP as [NP%negb_true_iff _]. open_micro; unfold bind at 1, get. cbn [mk sub set_kind].
    open_general; unfold bind at 2, get. unfold read_pred, pred_index, bind at 2. rewrite NP. unfold micro_pred. simpl.
    change (upd (Isa.src u0) 0 (id src) 0%nat) with (id src).
    destruct (nth_z (written32 w) (id src)) as [[]|]; [|apply tier_declines..].
    destruct (nth_z (preds w) (id src)) as [p|]; [|apply tier_declines]. apply tier_took.
    unfold micro_set_pred. simpl. destruct dst; simpl in D; by subst.
  - open_decode E. decode_inv E. apply tier_declines.
Qed.

(** exec_micro, guard included, against the guard and the handler of the general loop. *)
Lemma decode_guarded ins u0 : decode_guard ins = Some u0 → ∀ u, kHasPred u = kHasPred u0 → kPredNeg u = kPredNeg u0 →
  mpred u = mpred u0 →
  match micro_guard w u m with
  | Some fm => guard c ins m w = Ret fm w
  | None => True
  end.
Proof.
  unfold decode_guard, micro_guard, guard. destruct (has_pred ins).
  - destruct (wide (pred ins)) eqn:EW; [done|]. simpl. destruct (_ || _); [done|]. intros [= <-] u -> -> ->. simpl.
    unfold read_pred, pred_index, bind. rewrite EW.
    destruct (nth_z (written32 w) (id (pred ins))) as [[]|]; [|done..]. by destruct (nth_z (preds w) (id (pred ins))).
  - intros [= <-] u -> _ _. done.
Qed.

Lemma decode_keeps o u0 u : decode_op o u0 = Some u →
  kHasPred u = kHasPred u0 ∧ kPredNeg u = kPredNeg u0 ∧ mpred u = mpred u0.
Proof.
  intros E. destruct o; try done; open_decode E;
    unfold decode_mov, decode_int_bin, decode_setp, need, narrow_dst, wide_dst, source, source64 in E;
    cbv beta in E; repeat (case_match; try done); simplify_eq; try done.
  all: unfold pred_source; by repeat case_if.
Qed.

Lemma guard_mask ins fm w' : guard c ins m w = Ret fm w' → w' = w ∧ is_mask c fm.
Proof.
  unfold guard. destruct (has_pred ins); [|by intros [= <- <-]]. unfold bind.
  pose proof (read_pred_spec c isp (pred ins) w Hw) as HR. destruct (read_pred c (pred ins) w) as [p w1|e w1|]; [|done..].
  destruct HR as (-> & Hp & _). intros [= <- <-]. split; [done|]. apply is_mask_land; [done..|].
  pose proof (is_u64_negate (pred_negated ins) p Hp) as [? _]. done.
Qed.
End fast.

(** ** One instruction, with the faster tiers and without *)

Definition slow : Cfg := mkCfg (Warp.W c) (body c) (num_regs32 c) (max_steps c) (strict c) false (sreg c).

Section issue.
Context (w : Warp) (m : Z) (Hw : wf_regs c w) (Hm : is_mask c m).
#[local] Abbreviation n32 := (Z.of_nat (length (regs32 w))).
#[local] Abbreviation n64 := (Z.of_nat (length (regs64 w))).

Definition plain_step (ins : Instr) : M Warp unit :=
  fm <- guard c ins m ;; when (negb (fm =? 0)) (general c (op ins) fm).

Lemma exec_micro_tier ins : op_ok isp n32 n64 (op ins) → mk (decode ins) ≠ MNone →
  tier (exec_micro c (decode ins) m w) (plain_step ins w) w.
Proof.
  intros Ho Hk. unfold decode in *. destruct (decode_guard ins) as [u0|] eqn:EG; [|done].
  destruct (decode_op (op ins) u0) as [u|] eqn:EO; [|done]. simpl. simpl in Hk.
  destruct (decode_keeps _ _ _ EO) as (K1 & K2 & K3).
  pose proof (decode_guarded w m ins u0 EG u K1 K2 K3) as HG. unfold exec_micro, bind at 1, get.
  destruct (micro_guard w u m) as [fm|] eqn:EM; [|by left].
  destruct (guard_mask w m Hw Hm ins fm w HG) as [_ Hfm].
  unfold plain_step, bind. rewrite HG. destruct (Z.eqb_spec fm 0) as [->|Hne]; simpl.
  - destruct (bool_decide_reflect (mk u = MBra)) as [E|]; simpl; [|by right]. left.
    open_micro; unfold bind, get. by rewrite E.
  - by apply micro_body_tier with u0.
Qed.

Lemma exec_micro_branch ins t : op ins = OpBra t → mk (decode ins) ≠ MNone →
  exec_micro c (decode ins) m w = Ret false w.
Proof.
  intros E Hk. unfold decode in *. rewrite E in *. unfold exec_micro, bind at 1, get.
  destruct (decode_guard ins) as [u0|]; [|done]. simpl in *. unfold decode_bra, need in *. destruct (t <=? 4294967295); [|done].
  simpl. destruct (micro_guard _ _ _); [|done]. by rewrite andb_false_r.
Qed.

Lemma dispatch_general o : op_ok isp n32 n64 o → dispatch c o m w = general c o m w.
Proof.
  intros Ho. unfold dispatch, bind at 1. destruct (fast_enabled c); [|done].
  destruct (fast_path_tier w m Hw Hm o Ho) as [->| ->]; [done|].
  by destruct (general c o m w) as [[] ?| |].
Qed.
End issue.

Definition control (o : Op) : bool :=
  match o with OpBra _ | OpBrx _ _ | OpRet | OpBar _ => true | _ => false end.

Lemma decode_control ins : control (op ins) = true → mk (decode ins) ≠ MNone → ∃ t, op ins = OpBra t.
Proof.
  unfold decode. destruct (decode_guard ins); [|done]. destruct (op ins); try done. intros. by eexists.
Qed.

Lemma step_plain ts idx ins w p : paths w !! idx = Some p → control (op ins) = false →
  wf_regs c w → is_mask c (mask p) →
  op_ok isp (Z.of_nat (length (regs32 w))) (Z.of_nat (length (regs64 w))) (op ins) →
  step c ts idx ins w = (plain_step (mask p) ins ;;; set_pc idx (pc p + 1)) w.
Proof.
  intros Hp HC Hw Hm Ho. unfold step, path_at, plain_step. unfold bind at 1. rewrite Hp.
  unfold bind. destruct (guard c ins (mask p) w) as [fm w1|e w1|] eqn:EG; [|done..].
  destruct (guard_mask w (mask p) Hw Hm ins fm w1 EG) as [-> Hfm].
  assert (HD : when (negb (fm =? 0)) (dispatch c (op ins) fm) w = when (negb (fm =? 0)) (general c (op ins) fm) w).
  { unfold when. destruct (fm =? 0); [done|]. by apply dispatch_general. }
  destruct (op ins); try done; unfold bind; by rewrite HD.
Qed.

(** The faster tiers do not show: an instruction does what its general handler does. *)
Lemma issue_step ts idx ins w p : paths w !! idx = Some p → nth_z (body c) (pc p) = Some ins →
  wf_regs c w → is_mask c (mask p) →
  op_ok isp (Z.of_nat (length (regs32 w))) (Z.of_nat (length (regs64 w))) (op ins) →
  issue c ts idx ins w =
    (let w1 := set_steps (steps w + 1) w in
     if max_steps c <? steps w1 then Exn (Error ExecLimit) w1 else step c ts idx ins w1).
Proof.
  intros Hp Hi Hw Hm Ho. unfold issue, bind at 1, modify. unfold bind at 1, get. set (w1 := set_steps (steps w + 1) w).
  destruct (max_steps c <? steps w1); [done|]. unfold path_at, bind at 1. change (paths w1) with (paths w). rewrite Hp.
  assert (Hp1 : paths w1 !! idx = Some p) by done. assert (Hw1 : wf_regs c w1) by (destruct Hw; by split).
  assert (Ho1 : op_ok isp (Z.of_nat (length (regs32 w1))) (Z.of_nat (length (regs64 w1))) (op ins)) by done.
  clearbody w1. clear Hp Hw Ho w. rename w1 into w. unfold bind at 1. destruct (fast_enabled c); [|done].
  assert (HP : control (op ins) = false → ∀ r, r = took (plain_step (mask p) ins w) →
    match r with Ret a w' => (if a : bool then set_pc idx (pc p + 1) else step c ts idx ins) w'
      | Exn e w' => Exn e w' | Undef => Undef end = step c ts idx ins w).
  { intros HC r ->. rewrite (step_plain ts idx ins w p) by done. unfold bind. by destruct (plain_step (mask p) ins w) as [[] ?| |]. }
  assert (HF : ∀ k, (if andb true (fast_kind (op ins)) then fm <- guard c ins (mask p) ;; if fm =? 0 then ret true else fast_path c (op ins) fm else ret false) = k →
     (fast <- k ;; if fast : bool then set_pc idx (pc p + 1) else step c ts idx ins) w = step c ts idx ins w).
  { intros k <-. simpl. destruct (fast_kind (op ins)) eqn:EK; [|done].
    assert (HC : control (op ins) = false) by (by destruct (op ins)). unfold bind at 1 2.
    destruct (guard c ins (mask p) w) as [fm w1|e w1|] eqn:EG.
    - destruct (guard_mask w (mask p) Hw1 Hm ins fm w1 EG) as [-> Hfm]. destruct (fm =? 0) eqn:E0.
      + apply (HP HC (Ret true w)). unfold plain_step, bind. by rewrite EG, E0.
      + destruct (fast_path_tier w fm Hw1 Hfm _ Ho1) as [->| ->]; [done|]. apply (HP HC (took _)). f_equal.
        unfold plain_step, bind. by rewrite EG, E0.
    - apply (HP HC (Exn e w1)). unfold plain_step, bind. by rewrite EG.
    - apply (HP HC Undef). unfold plain_step, bind. by rewrite EG. }
  unfold micro, build_micro. rewrite nth_z_fmap, Hi. simpl option_map.
  change (decode <$> Some ins) with (Some (decode ins)). cbv iota beta.
  destruct (bool_decide_reflect (mk (decode ins) = MNone)) as [|Hk]; [by apply (HF _ eq_refl)|].
  destruct (exec_micro_tier w (mask p) Hw1 Hm ins Ho1 Hk) as [->|HE]; [by apply (HF _ eq_refl)|].
  destruct (control (op ins)) eqn:EC.
  - destruct (decode_control ins EC Hk) as [t Et]. rewrite (exec_micro_branch w (mask p) ins t Et Hk). by apply (HF _ eq_refl).
  - rewrite HE. rewrite <- (HP eq_refl _ eq_refl). destruct (took _) as [[] ?| |] eqn:ET; try done.
    by destruct (plain_step (mask p) ins w) as [[] ?| |].
Qed.
End tiers.
