(* ===== verification/Simt.v ===== *)
(** * Divergence: a warp runs its threads

    The paths of a warp partition its live lanes ([wf_warp]), and every step of the
    interpreter moves each lane by steps of the scalar machine of [Thread]
    ([follows]): branches, indexed branches, returns, barriers, the merging and
    scheduling of paths, and the batches of pre-decoded instructions. *)

From S2P Require Import Prelude Alu Isa Warp Lanes Thread Handlers Tiers.

(** ** Counting the paths a lane is on *)

Definition on_path (l : nat) (p : Path) : nat := Nat.b2n (bit (mask p) l).
Definition count (l : nat) (ps : list Path) : nat := list_sum (on_path l <$> ps).

Lemma list_sum_Permutation xs ys : xs ≡ₚ ys → list_sum xs = list_sum ys.
Proof. induction 1; simpl; lia. Qed.

Lemma count_Permutation l ps qs : ps ≡ₚ qs → count l ps = count l qs.
Proof. intros H. unfold count. apply list_sum_Permutation. by rewrite H. Qed.

Lemma count_app l ps qs : count l (ps ++ qs) = (count l ps + count l qs)%nat.
Proof. unfold count. by rewrite fmap_app, list_sum_app. Qed.

Lemma count_cons l p ps : count l (p :: ps) = (on_path l p + count l ps)%nat.
Proof. done. Qed.

Lemma count_elem l ps p : p ∈ ps → (on_path l p ≤ count l ps)%nat.
Proof.
  induction ps as [|q ps IH]; [by intros ?%elem_of_nil|]. rewrite count_cons. intros [->|H]%elem_of_cons; [lia|].
  specialize (IH H). lia.
Qed.

Lemma count_delete l ps i p : ps !! i = Some p → count l ps = (on_path l p + count l (delete i ps))%nat.
Proof. intros H. by rewrite (count_Permutation l ps (p :: delete i ps)) by (by apply delete_Permutation). Qed.

Lemma count_zero l ps p : count l ps = 0%nat → p ∈ ps → bit (mask p) l = false.
Proof. intros H Hp%(count_elem l). unfold on_path in Hp. destruct (bit (mask p) l); [simpl in *; lia|done]. Qed.

Lemma count_pos l ps : (0 < count l ps)%nat → ∃ p, p ∈ ps ∧ bit (mask p) l = true.
Proof.
  induction ps as [|q ps IH]; [unfold count; simpl; lia|]. rewrite count_cons. destruct (bit (mask q) l) eqn:BQ.
  - intros _. exists q. split; [left|done].
  - intros H. destruct IH as (r & ? & ?); [unfold on_path in H; rewrite BQ in H; simpl in H; lia|].
    exists r. split; [by right|done].
Qed.

(** Replacing a path moves it to the front, up to order. *)
Lemma insert_Permutation {A} (ps : list A) i p q : ps !! i = Some p → <[i := q]> ps ≡ₚ q :: delete i ps.
Proof.
  intros H. pose proof (lookup_lt_Some _ _ _ H). rewrite insert_take_drop by done. rewrite delete_take_drop.
  by rewrite Permutation_middle.
Qed.

Lemma alter_Permutation {A} (f : A → A) (ps : list A) i p : ps !! i = Some p → alter f i ps ≡ₚ f p :: delete i ps.
Proof.
  intros H. rewrite <- (insert_Permutation ps i p (f p) H). apply reflexive_eq.
  apply list_eq. intros j. destruct (decide (i = j)) as [<-|].
  - rewrite list_lookup_alter_eq, H, list_lookup_insert_eq; [done|]. by eapply lookup_lt_Some.
  - by rewrite list_lookup_alter_ne, list_lookup_insert_ne.
Qed.

(** ** The invariant, and where a lane is *)

Section simt.
Context (c : Cfg) (HW : (1 ≤ W c ≤ 64)%nat) (isp : Reg → bool) (HS : sregs_ok c).
#[local] Abbreviation W := (W c).
#[local] Abbreviation view := (view isp).

Record wf_path (p : Path) : Prop := {
  path_mask : is_mask c (mask p); path_lanes : mask p ≠ 0; path_pc : 0 ≤ pc p }.

(** The warp of the threads [lanes]: each of them has exited, or is on exactly one
    path. *)
Record wf_warp (lanes : Z) (n32 n64 : nat) (w : Warp) : Prop := {
  warp_regs : wf_regs c w;
  warp_n32 : length (regs32 w) = n32;
  warp_n64 : length (regs64 w) = n64;
  warp_exited : is_mask c (exited w);
  warp_paths : Forall wf_path (paths w);
  warp_places : ∀ l, (Nat.b2n (bit (exited w) l) + count l (paths w) = Nat.b2n (bit lanes l))%nat }.

(** Where a lane is. *)
Inductive lane_is (w : Warp) (l : nat) : TState → Prop :=
  | on_a_path p : p ∈ paths w → bit (mask p) l = true → lane_is w l (Running (pc p) (view w l))
  | gone : bit (exited w) l = true → lane_is w l (Exited (view w l)).

(** Every lane of [w] has gone on, by zero or more steps of its own, in [w']. *)
Definition tmove (l : nat) (s s' : TState) : Prop := tstep c l s = Some s'.
Definition follows (w w' : Warp) : Prop :=
  ∀ l s, (l < W)%nat → lane_is w l s → ∃ s', lane_is w' l s' ∧ rtc (tmove l) s s'.

#[export] Instance follows_preorder : PreOrder follows.
Proof.
  split.
  - intros w l s Hl H. by exists s.
  - intros w1 w2 w3 H12 H23 l s Hl H. destruct (H12 l s Hl H) as (s2 & H2 & R2).
    destruct (H23 l s2 Hl H2) as (s3 & H3 & R3). exists s3. split; [done|]. by etrans.
Qed.

(** Only the pc and the mask of a path say where its lanes are. *)
Definition place (p : Path) : Z * Z := (pc p, mask p).

Lemma same_place lanes n32 n64 w w' : place <$> paths w' = place <$> paths w → exited w' = exited w →
  (∀ l, view w' l = view w l) → wf_regs c w' → length (regs32 w') = length (regs32 w) → length (regs64 w') = length (regs64 w) →
  wf_warp lanes n32 n64 w → wf_warp lanes n32 n64 w' ∧ follows w w'.
Proof.
  intros HP HE HV HR H3 H6 Hw.
  assert (HI : ∀ p, p ∈ paths w → ∃ q, q ∈ paths w' ∧ pc q = pc p ∧ mask q = mask p).
  { intros p Hp. assert (Hin : place p ∈ place <$> paths w') by (rewrite HP; by apply list_elem_of_fmap_2).
    apply list_elem_of_fmap in Hin as (q & E & Hq). injection E as E1 E2. by exists q. }
  split.
  - destruct Hw. split; try congruence.
    + apply Forall_forall. intros q Hq. assert (Hin : place q ∈ place <$> paths w) by (rewrite <- HP; by apply list_elem_of_fmap_2).
      apply list_elem_of_fmap in Hin as (p & E & Hp). injection E as E1 E2.
      rewrite Forall_forall in warp_paths0. destruct (warp_paths0 p Hp). split; by rewrite ?E1, ?E2.
    + intros l. rewrite HE, <- warp_places0. f_equal. unfold count.
      assert (HC : ∀ ps : list Path, on_path l <$> ps = (λ x : Z * Z, Nat.b2n (bit x.2 l)) <$> (place <$> ps)).
      { intros ps. by rewrite <- list_fmap_compose. }
      by rewrite !HC, HP.
  - intros l s Hl H. exists s. split; [|done]. destruct H as [p Hp HB|HB].
    + destruct (HI p Hp) as (q & Hq & <- & E2). rewrite <- HV. apply on_a_path; [done|by rewrite E2].
    + rewrite <- HV. apply gone. by rewrite HE.
Qed.

(** What a warp that is not ready has come to: no path left, or one path, just past
    a bar.sync. *)
Definition settled (w : Warp) : Prop :=
  match state w with
  | Ready => True
  | Done => paths w = []
  | AtBarrier => ∃ q ins b, paths w = [q] ∧ nth_z (body c) (pc q - 1) = Some ins ∧ op ins = OpBar b
  end.

(** ** A path that steps

    The path at [idx] is replaced by [news], and the lanes [ex] leave; each lane has
    made one step of its own, or none ([stay]). *)
Record splits (w w' : Warp) (idx : nat) (p : Path) (news : list Path) (ex : Z) (stay : bool) : Prop := {
  split_regs : wf_regs c w';
  split_n32 : length (regs32 w') = length (regs32 w);
  split_n64 : length (regs64 w') = length (regs64 w);
  split_steps : steps w' = steps w;
  split_state : settled w';
  split_paths : paths w' ≡ₚ news ++ delete idx (paths w);
  split_exited : exited w' = Z.lor (exited w) ex;
  split_mask : is_mask c ex;
  split_news : Forall wf_path news;
  split_count : ∀ l, (Nat.b2n (bit ex l) + count l news = on_path l p)%nat;
  split_others : ∀ l, (l < W)%nat → bit (mask p) l = false → view w' l = view w l;
  split_stay : stay = true → ∀ l, (l < W)%nat → view w' l = view w l ∧ ∀ q, q ∈ news → pc q = pc p;
  split_gone : ∀ l, (l < W)%nat → bit ex l = true → tstep c l (Running (pc p) (view w l)) = Some (Exited (view w' l));
  split_went : stay = false → ∀ l q, (l < W)%nat → q ∈ news → bit (mask q) l = true →
    tstep c l (Running (pc p) (view w l)) = Some (Running (pc q) (view w' l)) }.

Lemma splits_wf lanes n32 n64 w w' idx p news ex stay : paths w !! idx = Some p → wf_warp lanes n32 n64 w →
  splits w w' idx p news ex stay → wf_warp lanes n32 n64 w' ∧ follows w w'.
Proof.
  intros Hp Hw HS'. destruct Hw as [R1 R2 R3 E P C]. destruct HS' as [S1 S2 S3 _ _ SP SE SM SN SC SO SY SG ST].
  assert (CD : ∀ l, count l (paths w) = (on_path l p + count l (delete idx (paths w)))%nat) by (intros; by apply count_delete).
  assert (CL : ∀ l, bit (exited w) l = true → bit (mask p) l = false).
  { intros l HB. specialize (C l). rewrite HB, (CD l) in C. unfold on_path in C. destruct (bit (mask p) l); [|done].
    destruct (bit lanes l); simpl in C; lia. }
  assert (PW : wf_path p) by (by eapply Forall_lookup_1 in P).
  assert (DL : ∀ q l, q ∈ delete idx (paths w) → bit (mask q) l = true → bit (mask p) l = false).
  { intros q l Hq HB. specialize (C l). rewrite (CD l) in C. apply (count_elem l) in Hq. unfold on_path in *. rewrite HB in Hq.
    destruct (bit (mask p) l), (bit lanes l); simpl in *; lia. }
  split.
  - split; try congruence.
    + rewrite SE. by apply is_mask_lor.
    + rewrite SP, Forall_app. split; [done|]. by apply Forall_delete.
    + intros l. rewrite SE, bit_lor, (count_Permutation l _ _ SP), count_app. specialize (C l). specialize (SC l). rewrite (CD l) in C.
      destruct (bit (exited w) l) eqn:B; [|simpl in *; lia].
      assert (H0 : on_path l p = 0%nat) by (unfold on_path; by rewrite (CL l B)).
      destruct (bit ex l); simpl in *; lia.
  - intros l s Hl H. destruct H as [q Hq HB|HB].
    + rewrite (delete_Permutation _ _ _ Hp) in Hq. apply elem_of_cons in Hq as [->|Hq].
      * specialize (SC l). assert (H1 : on_path l p = 1%nat) by (unfold on_path; by rewrite HB).
        destruct (bit ex l) eqn:BX.
        { exists (Exited (view w' l)). split; [apply gone; by rewrite SE, bit_lor, BX, orb_true_r|].
          apply rtc_once. by apply SG. }
        assert (HN : ∃ q, q ∈ news ∧ bit (mask q) l = true).
        { apply count_pos. simpl in SC. lia. }
        destruct HN as (q & Hq & BQ). exists (Running (pc q) (view w' l)). split.
        { apply on_a_path; [|done]. rewrite SP. apply elem_of_app. by left. }
        destruct stay.
        -- destruct (SY eq_refl l Hl) as [-> E2]. by rewrite (E2 q Hq).
        -- apply rtc_once. by apply ST.
      * exists (Running (pc q) (view w' l)). rewrite SO by (done || by apply (DL q)). split; [|done].
        rewrite <- (SO l Hl) by (by apply (DL q)). apply on_a_path; [|done]. rewrite SP. apply elem_of_app. by right.
    + exists (Exited (view w' l)). rewrite SO by (done || by apply CL). split; [|done].
      rewrite <- (SO l Hl) by (by apply CL). apply gone. by rewrite SE, bit_lor, HB.
Qed.

(** ** The control instructions *)

(** The errors a run can end with. *)
Inductive warp_error : exn → Prop :=
  | unwritten_predicate : warp_error (Error UninitializedRegister)
  | bad_value : warp_error (Error InvalidValue)
  | bad_index : warp_error (Error OutOfBounds)
  | divergent_barrier : warp_error (Error UnsupportedPtx)
  | out_of_steps : warp_error (Error ExecLimit).

Lemma guard_lanes ins m w fm w' : wf_regs c w → is_mask c m → guard c ins m w = Ret fm w' →
  w' = w ∧ is_mask c fm ∧ ∀ l, (l < W)%nat → bit fm l = bit m l && tguard c ins (view w l).
Proof.
  intros Hw Hm H. destruct (guard_mask c HW isp w m Hw Hm ins fm w' H) as [-> Hf]. split_and!; [done..|].
  intros l Hl. unfold guard, tguard in *. destruct (has_pred ins); [|injection H as <-; by rewrite andb_true_r].
  unfold bind in H. pose proof (read_pred_spec c isp (pred ins) w Hw) as HR.
  destruct (read_pred c (pred ins) w) as [q w1|e w1|]; [|done..]. destruct HR as (-> & Hq & HR).
  injection H as <-. rewrite bit_land, bit_negate, HR by lia. done.
Qed.

(** The registers of a warp, which control instructions leave alone. *)
Definition regs_of (w : Warp) := (regs32 w, regs64 w, preds w, written32 w, written64 w, carry w).

Lemma same_regs w w' : regs_of w' = regs_of w → wf_regs c w →
  wf_regs c w' ∧ length (regs32 w') = length (regs32 w) ∧ length (regs64 w') = length (regs64 w) ∧
  ∀ l, view w' l = view w l.
Proof.
  unfold regs_of. intros [= E1 E2 E3 E4 E5 E6] [H1 H2 H3 H4 H5 H6 H7 H8]. split; [|split_and!].
  - split; by rewrite ?E1, ?E2, ?E3, ?E4, ?E5, ?E6.
  - by rewrite E1.
  - by rewrite E2.
  - intros l. unfold Thread.view. by rewrite E1, E2, E3, E4, E5, E6.
Qed.

(** A long turn raises its flag and touches nothing else. *)
Lemma when_yield b w : ∃ w1, when b (modify (set_yield true)) w = Ret tt w1 ∧
  regs_of w1 = regs_of w ∧ steps w1 = steps w ∧ state w1 = state w ∧ exited w1 = exited w ∧ paths w1 = paths w.
Proof. destruct b; by eexists. Qed.

(** ** The groups of an indexed branch *)

Section groups.
Context (targets index : list Z).

(** After the lanes [L]: a group a target, with just the lanes that go there. *)
Record groups_ok (L : list nat) (gs : list (Z * Z)) : Prop := {
  group_targets : NoDup gs.*1;
  group_lanes : ∀ g l, g ∈ gs → bit g.2 l = true → l ∈ L ∧ nth_z targets (u32 (index !!! l)) = Some g.1;
  group_all : ∀ l, l ∈ L → ∃ g, g ∈ gs ∧ bit g.2 l = true;
  group_masks : ∀ g, g ∈ gs → is_mask c g.2 ∧ g.2 ≠ 0 }.

Lemma one_lane k : (k < W)%nat → is_mask c (Z.shiftl 1 (Z.of_nat k)) ∧ Z.shiftl 1 (Z.of_nat k) ≠ 0.
Proof.
  intros Hk. rewrite shiftl_1_pow2 by lia. pose proof (pow2_pos (Z.of_nat k)). unfold is_mask.
  pose proof (Z.pow_lt_mono_r 2 (Z.of_nat k) (Z.of_nat W)). lia.
Qed.

Lemma lor_nonzero a b : 0 ≤ a → 0 ≤ b → b ≠ 0 → Z.lor a b ≠ 0.
Proof. intros ? ? ? E%Z.lor_eq_0_iff. lia. Qed.

Lemma add_group_ok L gs k t : (k < W)%nat → nth_z targets (u32 (index !!! k)) = Some t →
  groups_ok L gs → groups_ok (L ++ [k]) (add_group t k gs).
Proof.
  intros Hk Ht [G1 G2 G3 G4]. destruct (one_lane k Hk) as [K1 K2]. unfold add_group.
  destruct (list_find (λ g, g.1 = t) gs) as [[i g0]|] eqn:EF.
  - apply list_find_Some in EF as (Hg & Hgt & _).
    set (g' := (g0.1, Z.lor g0.2 (Z.shiftl 1 (Z.of_nat k)))).
    assert (HP : alter (λ g, (g.1, Z.lor g.2 (Z.shiftl 1 (Z.of_nat k)))) i gs ≡ₚ g' :: delete i gs)
      by (etrans; [by apply (alter_Permutation _ _ _ _ Hg)|done]).
    pose proof (delete_Permutation _ _ _ Hg) as HD.
    assert (Hin : g0 ∈ gs) by (by eapply list_elem_of_lookup_2).
    assert (HN : g' ∈ g' :: delete i gs) by left.
    split.
    + rewrite HP. rewrite HD in G1. done.
    + intros g l. rewrite HP. intros [->|Hgi]%elem_of_cons.
      * simpl. rewrite bit_lor, bit_one. intros [HB|E%Nat.eqb_eq]%orb_true_iff.
        -- destruct (G2 g0 l Hin HB). split; [apply elem_of_app; by left|done].
        -- subst l. split; [apply elem_of_app; right; by left|]. by rewrite Hgt.
      * intros HB. destruct (G2 g l) as [? ?]; [rewrite HD; by right|done|]. split; [apply elem_of_app; by left|done].
    + intros l [Hl|Hl%list_elem_of_singleton]%elem_of_app.
      * destruct (G3 l Hl) as (g & Hgi & HB). rewrite HD in Hgi. apply elem_of_cons in Hgi as [->|Hgi].
        -- exists g'. rewrite HP. split; [done|]. simpl. by rewrite bit_lor, HB.
        -- exists g. rewrite HP. split; [by right|done].
      * subst l. exists g'. rewrite HP. split; [done|]. simpl. by rewrite bit_lor, bit_one, Nat.eqb_refl, orb_true_r.
    + intros g. rewrite HP. intros [->|Hgi]%elem_of_cons; [|apply G4; rewrite HD; by right].
      simpl. destruct (G4 g0 Hin) as [M1 M2]. split; [by apply is_mask_lor|]. apply lor_nonzero; [apply M1|apply K1|done].
  - apply list_find_None in EF. rewrite Z.lor_0_l. split.
    + rewrite fmap_app. apply NoDup_app. split_and!; [done| |apply NoDup_singleton].
      intros x (g & -> & Hgi)%list_elem_of_fmap Hx%list_elem_of_singleton. rewrite Forall_forall in EF. by apply (EF g).
    + intros g l [Hgi| ->%list_elem_of_singleton]%elem_of_app HB.
      * destruct (G2 g l Hgi HB). split; [apply elem_of_app; by left|done].
      * simpl in HB. rewrite bit_one in HB. apply Nat.eqb_eq in HB. subst l. split; [apply elem_of_app; right; by left|done].
    + intros l [Hl|Hl%list_elem_of_singleton]%elem_of_app.
      * destruct (G3 l Hl) as (g & Hgi & HB). exists g. split; [apply elem_of_app; by left|done].
      * subst l. eexists. split; [apply elem_of_app; right; by left|]. simpl. by rewrite bit_one, Nat.eqb_refl.
    + intros g [Hgi| ->%list_elem_of_singleton]%elem_of_app; [by apply G4|done].
Qed.

Lemma fold_groups_ok L gs0 gs L0 : Forall (λ k, (k < W)%nat) L → groups_ok L0 gs0 →
  foldl (λ acc l, gs ← acc; t ← nth_z targets (u32 (index !!! l)); Some (add_group t l gs)) (Some gs0) L = Some gs →
  groups_ok (L0 ++ L) gs.
Proof.
  revert gs0 L0. induction L as [|k L IH]; intros gs0 L0 HL H0.
  - simpl. intros [= <-]. by rewrite app_nil_r.
  - inversion HL; subst. cbn [foldl]. destruct (nth_z targets (u32 (index !!! k))) as [t|] eqn:Et; simpl.
    + intros H. replace (L0 ++ k :: L) with ((L0 ++ [k]) ++ L) by (by rewrite <- app_assoc).
      eapply IH; [done| |exact H]. by apply add_group_ok.
    + intros H. exfalso. clear -H. induction L as [|? ? IH]; simpl in H; [done|auto].
Qed.

Lemma brx_groups_fold m L : L = walk 64 m → brx_groups targets index m =
  foldl (λ acc l, gs ← acc; t ← nth_z targets (u32 (index !!! l)); Some (add_group t l gs)) (Some []) L.
Proof. by intros ->. Qed.

Lemma brx_groups_ok m gs : is_mask c m → brx_groups targets index m = Some gs →
  ∃ L, groups_ok L gs ∧ ∀ l, l ∈ L ↔ bit m l = true.
Proof.
  intros Hm H. assert (HK : ∃ L, L = walk 64 m ∧ ∀ l, l ∈ L ↔ bit m l = true).
  { exists (walk 64 m). split; [done|]. intros l. apply elem_of_walk; [by apply (is_mask_64 c HW)|lia]. }
  destruct HK as (L & EL & HK). rewrite (brx_groups_fold m L EL) in H. exists L. split; [|done].
  apply (fold_groups_ok L [] gs []); [| |exact H].
  - apply Forall_forall. intros k Hk. apply (is_mask_bit c HW m); [done|]. by apply HK.
  - split; [constructor|..]; intros *; by intros ?%elem_of_nil.
Qed.

(** A lane is in exactly one group. *)
Lemma groups_count L gs l : groups_ok L gs →
  list_sum ((λ g : Z * Z, Nat.b2n (bit g.2 l)) <$> gs) = Nat.b2n (bool_decide (l ∈ L)).
Proof.
  intros [G1 G2 G3 _].
  assert (HS0 : ∀ gs', (∀ g, g ∈ gs' → bit g.2 l = false) → list_sum ((λ g : Z * Z, Nat.b2n (bit g.2 l)) <$> gs') = 0%nat).
  { induction gs' as [|g gs' IH]; intros H; [done|]. rewrite fmap_cons. simpl. rewrite (H g) by left. simpl.
    apply IH. intros g' Hg'. apply H. by right. }
  case_bool_decide as HL.
  - destruct (G3 l HL) as (g & Hg & HB). apply list_elem_of_lookup in Hg as [i Hg].
    pose proof (delete_Permutation _ _ _ Hg) as HD. rewrite HD in G1. simpl in G1. apply NoDup_cons in G1 as [N1 _].
    rewrite (list_sum_Permutation _ ((λ g : Z * Z, Nat.b2n (bit g.2 l)) <$> g :: delete i gs)) by (by rewrite <- HD).
    rewrite fmap_cons. simpl list_sum. rewrite HB, HS0; [done|]. intros g' Hg'. apply not_true_is_false. intros HB'.
    apply N1. destruct (G2 g l) as [_ E1]; [rewrite HD; left|done|]. destruct (G2 g' l) as [_ E2]; [rewrite HD; by right|done|].
    replace (g.1) with (g'.1) by congruence. by apply list_elem_of_fmap_2.
  - apply HS0. intros g Hg. apply not_true_is_false. intros HB. by apply HL, (G2 g l Hg HB).
Qed.
End groups.

Section path.
Context (w : Warp) (idx : nat) (p : Path).
Context (Hp : paths w !! idx = Some p) (Hst : state w = Ready) (Hw : wf_regs c w) (HPW : wf_path p).

Definition moves {A} (o : outcome Warp A) : Prop :=
  match o with
  | Ret _ w' => ∃ news ex stay, splits w w' idx p news ex stay
  | Exn e _ => warp_error e
  | Undef => False
  end.

(** The lanes of the path that are not in [m]. *)
Lemma bit_fallthrough m l : bit (Z.land (mask p) (unot m)) l = bit (mask p) l && negb (bit m l).
Proof.
  rewrite bit_land. destruct (decide (l < 64)%nat); [by rewrite bit_unot|].
  replace (bit (mask p) l) with false; [done|]. symmetry. apply not_true_is_false. intros H.
  apply (is_mask_bit c HW) in H; [lia|]. apply HPW.
Qed.

Lemma fallthrough_mask m : is_mask c (Z.land (mask p) (unot m)).
Proof. apply (is_mask_land c HW); [apply HPW|apply u64_range]. Qed.

Lemma is_mask_0 : is_mask c 0.
Proof. split; [done|]. apply pow2_pos. lia. Qed.

(** A control instruction: registers kept, one step of every lane. *)
Lemma control_splits w' news ex : regs_of w' = regs_of w → steps w' = steps w → settled w' →
  paths w' ≡ₚ news ++ delete idx (paths w) → exited w' = Z.lor (exited w) ex → is_mask c ex → Forall wf_path news →
  (∀ l, (Nat.b2n (bit ex l) + count l news = on_path l p)%nat) →
  (∀ l, (l < W)%nat → bit ex l = true → tstep c l (Running (pc p) (view w l)) = Some (Exited (view w l))) →
  (∀ l q, (l < W)%nat → q ∈ news → bit (mask q) l = true →
     tstep c l (Running (pc p) (view w l)) = Some (Running (pc q) (view w l))) →
  splits w w' idx p news ex false.
Proof.
  intros HR Hs HT HP HE HM HN HC HG HQ. destruct (same_regs w w' HR Hw) as (R1 & R2 & R3 & RV).
  split; try done.
  - intros l Hl HX. rewrite RV. by apply HG.
  - intros _ l q Hl Hq Hb. rewrite RV. by apply HQ.
Qed.

(** All the lanes of the path go to [n]. *)
Lemma goto_splits w' n : regs_of w' = regs_of w → steps w' = steps w → settled w' → exited w' = exited w → 0 ≤ n →
  paths w' ≡ₚ [with_pc p n] ++ delete idx (paths w) →
  (∀ l, (l < W)%nat → bit (mask p) l = true → tstep c l (Running (pc p) (view w l)) = Some (Running n (view w l))) →
  splits w w' idx p [with_pc p n] 0 false.
Proof.
  intros HR Hs HT HE Hn HP HQ. apply control_splits; try done.
  - by rewrite HE, Z.lor_0_r.
  - split; [done|]. apply pow2_pos. lia.
  - apply Forall_singleton. split; [apply HPW..|done].
  - intros l. rewrite bit_0. unfold count; simpl. unfold on_path; simpl. lia.
  - intros l _. by rewrite bit_0.
  - intros l q Hl Hq%list_elem_of_singleton. subst q. by apply HQ.
Qed.

(** exec_ret of some of the path's lanes, the others going on. *)
Lemma exec_ret_moves m : is_mask c m → (∀ l, bit m l = true → bit (mask p) l = true) →
  (∀ l, (l < W)%nat → bit m l = true → tstep c l (Running (pc p) (view w l)) = Some (Exited (view w l))) →
  (∀ l, (l < W)%nat → bit (mask p) l = true → bit m l = false →
     tstep c l (Running (pc p) (view w l)) = Some (Running (pc p + 1) (view w l))) →
  moves (exec_ret idx m w).
Proof.
  intros Hm Hsub HX HG. unfold exec_ret, bind at 1, path_at. rewrite Hp. unfold bind at 1, modify at 1.
  set (w1 := set_exited (Z.lor (exited w) m) w).
  assert (HC : ∀ l n q, mask q = Z.land (mask p) (unot m) → n = on_path l q → (Nat.b2n (bit m l) + n = on_path l p)%nat).
  { intros l n q Hq ->. unfold on_path. rewrite Hq, bit_fallthrough. specialize (Hsub l).
    destruct (bit m l); [by rewrite Hsub|]. by destruct (bit (mask p) l). }
  destruct (Z.eqb_spec (Z.land (mask p) (unot m)) 0) as [HZ|HZ].
  - unfold bind, modify, get. set (w2 := set_paths (delete idx (paths w1)) w1).
    assert (HM : ∀ w3, regs_of w3 = regs_of w → steps w3 = steps w → settled w3 → paths w3 = paths w2 → exited w3 = exited w2 →
      splits w w3 idx p [] m false).
    { intros w3 HR HS3 HT HP3 HE3. apply control_splits; try done.
      - by rewrite HP3.
      - intros l. apply (HC l 0%nat (with_mask p 0)); [done|]. unfold on_path; simpl. by rewrite bit_0.
      - intros l q _ Hq. by apply elem_of_nil in Hq. }
    destruct (bool_decide_reflect (paths w2 = [])) as [E|E]; simpl; eexists [], m, false; apply HM; try done.
    unfold settled. simpl. by rewrite Hst.
  - unfold bind, modify, get. set (q := with_pc (with_mask p (Z.land (mask p) (unot m))) (pc p + 1)).
    set (w2 := alter_path idx _ w1).
    assert (HP2 : paths w2 ≡ₚ [q] ++ delete idx (paths w)) by (etrans; [apply (alter_Permutation _ _ _ _ Hp)|done]).
    rewrite bool_decide_eq_false_2 by (intros E; rewrite E in HP2; by apply Permutation_nil_l in HP2).
    simpl. exists [q], m, false. apply control_splits; try done.
    + unfold settled. simpl. by rewrite Hst.
    + apply Forall_singleton. split; [apply fallthrough_mask|done|destruct HPW; simpl; lia].
    + intros l. apply (HC l _ q); [done|]. rewrite count_cons. unfold count; simpl. lia.
    + intros l q' Hl Hq%list_elem_of_singleton. subst q'. simpl. rewrite bit_fallthrough, andb_true_iff, negb_true_iff.
      intros [? ?]. by apply HG.
Qed.

Section step.
Context (ins : Instr) (fm : Z) (Hi : nth_z (body c) (pc p) = Some ins) (Hf : is_mask c fm).
Context (HB : ∀ l, (l < W)%nat → bit fm l = bit (mask p) l && tguard c ins (view w l)).

Lemma sub_lanes l : bit fm l = true → bit (mask p) l = true ∧ tguard c ins (view w l) = true ∧ (l < W)%nat.
Proof.
  intros H. pose proof (is_mask_bit c HW fm l Hf H) as Hl. rewrite HB in H by done.
  apply andb_true_iff in H as [? ?]. done.
Qed.

Lemma tstep_held l : tguard c ins (view w l) = false → tstep c l (Running (pc p) (view w l)) = Some (Running (pc p + 1) (view w l)).
Proof. intros H. unfold tstep. by rewrite Hi, H. Qed.

Lemma fallthrough_bit l : (l < W)%nat → bit (Z.land (mask p) (unot fm)) l = true → tguard c ins (view w l) = false.
Proof.
  intros Hl. rewrite bit_fallthrough, HB by done. destruct (bit (mask p) l), (tguard c ins (view w l)); done.
Qed.

Lemma exec_bra_moves ts t : op ins = OpBra t → 0 ≤ t → moves (exec_bra ts idx t fm w).
Proof.
  intros Ho Ht. unfold exec_bra, bind at 1, get. unfold bind at 1, path_at. rewrite Hp.
  destruct (when_yield (negb (fm =? 0) && (t <=? pc p) && (kLongTurn <=? u64 (steps w - ts))) w)
    as (w1 & EW & R1 & S1 & T1 & E1 & P1). rewrite (bind_Ret _ _ _ _ _ EW). clear EW.
  assert (HD : ∀ f, alter f idx (paths w1) ≡ₚ f p :: delete idx (paths w)).
  { intros f. rewrite P1. by apply alter_Permutation. }
  assert (HT : ∀ l, (l < W)%nat → bit fm l = true → tstep c l (Running (pc p) (view w l)) = Some (Running t (view w l))).
  { intros l Hl Hb. destruct (sub_lanes l Hb) as (_ & HG & _). unfold tstep. by rewrite Hi, HG, Ho. }
  destruct (Z.eqb_spec fm 0) as [->|Hne]; [|destruct (Z.eqb_spec (Z.land (mask p) (unot fm)) 0) as [HZ|HZ]].
  - eexists [with_pc p (pc p + 1)], 0, false. apply goto_splits; try done.
    + unfold settled; simpl. by rewrite T1, Hst.
    + destruct HPW. lia.
    + apply (HD (λ p0, with_pc p0 (pc p + 1))).
    + intros l Hl Hb. apply tstep_held. specialize (HB l Hl). rewrite bit_0, Hb in HB. done.
  - eexists [with_pc p t], 0, false. apply goto_splits; try done.
    + unfold settled; simpl. by rewrite T1, Hst.
    + apply (HD (λ p0, with_pc p0 t)).
    + intros l Hl Hb. apply HT; [done|]. pose proof (bit_fallthrough fm l) as HF. rewrite HZ, bit_0, Hb in HF.
      by destruct (bit fm l).
  - eexists [with_mask (with_pc p t) fm; mkPath (pc p + 1) (Z.land (mask p) (unot fm)) kRunnable (steps w1) 0], 0, false.
    apply control_splits; try done.
    + unfold settled; simpl. by rewrite T1, Hst.
    + simpl. rewrite (HD (λ p0, with_mask (with_pc p0 t) fm)). simpl. constructor. by rewrite Permutation_app_comm.
    + simpl. by rewrite E1, Z.lor_0_r.
    + apply is_mask_0.
    + apply Forall_cons; split; [by split|]. apply Forall_singleton. split; [apply fallthrough_mask|done|destruct HPW; simpl; lia].
    + intros l. rewrite bit_0. unfold count, on_path. simpl. rewrite bit_fallthrough.
      destruct (bit fm l) eqn:Bf; [by destruct (sub_lanes l Bf) as (-> & _)|]. destruct (bit (mask p) l); done.
    + intros l _. by rewrite bit_0.
    + intros l q Hl Hq. apply elem_of_cons in Hq as [->|Hq%list_elem_of_singleton]; [by apply HT|].
      subst q. simpl. intros Hb. apply tstep_held. by apply fallthrough_bit.
Qed.

Lemma ret_moves : op ins = OpRet → moves (exec_ret idx fm w).
Proof.
  intros Ho. apply exec_ret_moves; [done|..].
  - intros l Hb. by apply sub_lanes in Hb as (? & _).
  - intros l Hl Hb. apply sub_lanes in Hb as (_ & HG & _). unfold tstep. by rewrite Hi, HG, Ho.
  - intros l Hl Hb Hn. apply tstep_held. rewrite HB, Hb in Hn by done. done.
Qed.

(** bar.sync: past it when the path is the warp's only one; parked otherwise. *)
Lemma all_guarded : fm = mask p → ∀ l, (l < W)%nat → bit (mask p) l = true → tguard c ins (view w l) = true.
Proof. intros E l Hl Hb. specialize (HB l Hl). rewrite E, Hb in HB. by destruct (tguard c ins (view w l)). Qed.

Lemma unguarded : has_pred ins = false → fm = mask p.
Proof.
  intros Hn. apply (mask_eq (Warp.W c)); [apply Hf|apply HPW|]. intros l Hl. rewrite HB by done. unfold tguard. rewrite Hn. apply andb_true_r.
Qed.

Lemma exec_bar_moves b : op ins = OpBar b → moves (exec_bar c idx (has_pred ins) b fm w).
Proof.
  intros Ho. unfold exec_bar, bind at 1, path_at. rewrite Hp.
  destruct (has_pred ins && (fm =? 0)) eqn:E0.
  { apply andb_true_iff in E0 as [_ E0%Z.eqb_eq]. exists [with_pc p (pc p + 1)], 0, false. apply goto_splits; try done.
    - unfold settled; simpl. by rewrite Hst.
    - destruct HPW; lia.
    - etrans; [apply (alter_Permutation _ _ _ _ Hp)|done].
    - intros l Hl Hb. apply tstep_held. specialize (HB l Hl). rewrite E0, bit_0, Hb in HB. done. }
  destruct (has_pred ins && negb (fm =? mask p)) eqn:E1; [constructor|].
  assert (HF : fm = mask p).
  { destruct (has_pred ins) eqn:EP; [|by apply unguarded]. simpl in E1. apply negb_false_iff, Z.eqb_eq in E1. done. }
  unfold bind at 1, get. destruct (1 <? Z.of_nat (length (paths w))) eqn:EL.
  - destruct (Nat.eqb _ idx); [constructor|]. unfold modify.
    exists [with_parked p kAtBarrier], 0, true.
    destruct (same_regs w (alter_path idx (λ p0, with_parked p0 kAtBarrier) w) eq_refl Hw) as (R1 & R2 & R3 & RV).
    split; try done.
    + unfold settled; simpl. by rewrite Hst.
    + etrans; [apply (alter_Permutation _ _ _ _ Hp)|done].
    + simpl. by rewrite Z.lor_0_r.
    + apply is_mask_0.
    + apply Forall_singleton. split; apply HPW.
    + intros l. rewrite bit_0. unfold count; simpl. unfold on_path; simpl. lia.
    + intros _ l Hl. split; [done|]. by intros q ->%list_elem_of_singleton.
    + intros l _. by rewrite bit_0.
  - destruct (15 <? _); [constructor|]. unfold bind, modify, set_pc.
    assert (HO : paths w = [p]).
    { apply Z.ltb_ge in EL. destruct (paths w) as [|q [|q' ps]]; [done| |simpl in EL; lia].
      destruct idx as [|[]]; [|done..]. by injection Hp as ->. }
    assert (HI0 : idx = 0%nat).
    { apply lookup_lt_Some in Hp. rewrite HO in Hp. simpl in Hp. lia. }
    exists [with_pc p (pc p + 1)], 0, false. apply goto_splits; try done.
    + unfold settled; simpl. exists (with_pc p (pc p + 1)), ins, b. rewrite HO, HI0; simpl. split_and!; [done| |done].
      by replace (pc p + 1 - 1) with (pc p) by lia.
    + destruct HPW; lia.
    + etrans; [apply (alter_Permutation _ _ _ _ Hp)|done].
    + intros l Hl Hb. unfold tstep. by rewrite Hi, all_guarded, Ho.
Qed.

(** A push for every group. *)
Lemma push_groups gs w1 : foldl (λ k (g : Z * Z), k ;;; push_path g.1 g.2) (ret tt) gs w1 =
  Ret tt (set_paths (paths w1 ++ ((λ g : Z * Z, mkPath g.1 g.2 kRunnable (steps w1) 0) <$> gs)) w1).
Proof.
  induction gs as [|g gs IH] using rev_ind; [by simpl; rewrite app_nil_r; destruct w1|].
  rewrite foldl_app. cbn [foldl]. rewrite (bind_Ret _ _ _ _ _ IH). unfold push_path, modify. f_equal.
  unfold set_paths; simpl. by rewrite fmap_app, app_assoc.
Qed.

Definition group_path (n : Z) (g : Z * Z) : Path := mkPath g.1 g.2 kRunnable n 0.

Lemma count_groups n l gs : count l (group_path n <$> gs) = list_sum ((λ g : Z * Z, Nat.b2n (bit g.2 l)) <$> gs).
Proof. unfold count. by rewrite <- list_fmap_compose. Qed.

Section brx.
Context (a : Operand) (targets : list Z) (Ho : op ins = OpBrx a targets) (Ha : opnd_ok isp a) (Ht : Forall (λ t, 0 ≤ t) targets).
Context (L : list nat) (gs : list (Z * Z)) (HG : groups_ok targets (read_operand c w a) L gs).
Context (HL : ∀ l, l ∈ L ↔ bit fm l = true).

Lemma brx_lane g l : g ∈ gs → bit g.2 l = true →
  bit fm l = true ∧ tstep c l (Running (pc p) (view w l)) = Some (Running g.1 (view w l)).
Proof.
  intros Hg Hb. destruct (group_lanes _ _ _ _ HG g l Hg Hb) as [H1%HL H2]. split; [done|].
  destruct (sub_lanes l H1) as (_ & HT & Hl). unfold tstep. rewrite Hi, HT, Ho.
  rewrite (read_operand_view c isp) in H2 by done. by rewrite H2.
Qed.

Lemma brx_target g : g ∈ gs → 0 ≤ g.1.
Proof.
  intros Hg. destruct (group_masks _ _ _ _ HG g Hg) as [M1 M2].
  destruct (mask_has_bit g.2) as (l & _ & Hb); [pose proof (is_mask_64 c HW _ M1); lia|].
  destruct (group_lanes _ _ _ _ HG g l Hg Hb) as [_ E]. apply nth_z_Some in E as [_ E].
  by eapply Forall_lookup_1 in Ht.
Qed.

Lemma brx_split w' g rest fall : gs = g :: rest →
  fall = (if Z.land (mask p) (unot fm) =? 0 then [] else [mkPath (pc p + 1) (Z.land (mask p) (unot fm)) kRunnable (steps w) 0]) →
  regs_of w' = regs_of w → steps w' = steps w → state w' = Ready → exited w' = exited w →
  paths w' ≡ₚ with_mask (with_pc p g.1) g.2 :: (group_path (steps w) <$> rest) ++ fall ++ delete idx (paths w) →
  ∃ news ex stay, splits w w' idx p news ex stay.
Proof.
  intros HE HF HR Hs Hst' HX HP. exists (with_mask (with_pc p g.1) g.2 :: (group_path (steps w) <$> rest) ++ fall), 0, false.
  assert (HGP : ∀ q, q ∈ with_mask (with_pc p g.1) g.2 :: (group_path (steps w) <$> rest) ++ fall →
    (∃ g, g ∈ gs ∧ pc q = g.1 ∧ mask q = g.2) ∨ (pc q = pc p + 1 ∧ mask q = Z.land (mask p) (unot fm) ∧ mask q ≠ 0)).
  { intros q. rewrite elem_of_cons, elem_of_app. intros [->|[(g' & -> & Hg')%list_elem_of_fmap|Hq]].
    - left. exists g. rewrite HE. split_and!; [left|done..].
    - left. exists g'. rewrite HE. split_and!; [by right|done..].
    - right. subst fall. destruct (Z.eqb_spec (Z.land (mask p) (unot fm)) 0); [by apply elem_of_nil in Hq|].
      apply list_elem_of_singleton in Hq. by subst q. }
  apply control_splits; try done.
  - unfold settled. by rewrite Hst'.
  - simpl. by rewrite <- app_assoc.
  - by rewrite HX, Z.lor_0_r.
  - apply is_mask_0.
  - apply Forall_forall. intros q [(g' & Hg' & E1 & E2)|(E1 & E2 & E3)]%HGP.
    + destruct (group_masks _ _ _ _ HG g' Hg'). split; rewrite ?E1, ?E2; [done|done|by apply brx_target].
    + split; [rewrite E2; apply fallthrough_mask|done|rewrite E1; destruct HPW; lia].
  - intros l. rewrite bit_0, count_cons, count_app, count_groups. pose proof (groups_count _ _ L gs l HG) as HC.
    rewrite HE in HC. rewrite fmap_cons in HC. simpl list_sum in HC.
    assert (HFC : count l fall = Nat.b2n (bit (mask p) l && negb (bit fm l))).
    { rewrite <- bit_fallthrough. subst fall. destruct (Z.eqb_spec (Z.land (mask p) (unot fm)) 0) as [->|]; [by rewrite bit_0|].
      unfold count; simpl. unfold on_path; simpl. lia. }
    rewrite HFC. unfold on_path; simpl. replace (bool_decide (l ∈ L)) with (bit fm l) in HC.
    2: { symmetry. destruct (bit fm l) eqn:E; [apply bool_decide_eq_true_2; by apply HL|apply bool_decide_eq_false_2; rewrite HL; congruence]. }
    destruct (bit fm l) eqn:E; [destruct (sub_lanes l E) as (-> & _)|destruct (bit (mask p) l)]; simpl in *; lia.
  - intros l _. by rewrite bit_0.
  - intros l q Hl [(g' & Hg' & E1 & E2)|(E1 & E2 & E3)]%HGP; rewrite E1, E2; intros Hb.
    + by apply (brx_lane g').
    + apply tstep_held. by apply fallthrough_bit.
Qed.
End brx.

Lemma exec_brx_moves ts a targets : op ins = OpBrx a targets → opnd_ok isp a → Forall (λ t, 0 ≤ t) targets →
  moves (exec_brx c ts idx a targets fm w).
Proof.
  intros Ho Ha Ht. unfold exec_brx, bind at 1, get. unfold bind at 1, path_at. rewrite Hp.
  destruct (Z.eqb_spec fm 0) as [E0|Hne].
  { exists [with_pc p (pc p + 1)], 0, false. apply goto_splits; try done.
    - unfold settled; simpl. by rewrite Hst.
    - destruct HPW; lia.
    - etrans; [apply (alter_Permutation _ _ _ _ Hp)|done].
    - intros l Hl Hb. apply tstep_held. specialize (HB l Hl). rewrite E0, bit_0, Hb in HB. done. }
  destruct (brx_groups targets (read_operand c w a) fm) as [gs|] eqn:EG; [|constructor].
  apply brx_groups_ok in EG as (L & HG & HL); [|done].
  destruct (when_yield ((kLongTurn <=? u64 (steps w - ts)) && existsb (λ g : Z * Z, g.1 <=? pc p) gs) w)
    as (w1 & EW & R1 & S1 & T1 & E1 & P1). rewrite (bind_Ret _ _ _ _ _ EW). clear EW. rewrite Hst in T1.
  assert (Hp1 : paths w1 !! idx = Some p) by (by rewrite P1).
  destruct gs as [|g rest].
  { exfalso. destruct (mask_has_bit fm) as (l & _ & Hb); [pose proof (is_mask_64 c HW _ Hf); lia|].
    apply HL in Hb. destruct (group_all _ _ _ _ HG l Hb) as (? & ?%elem_of_nil & _). done. }
  destruct (bool_decide_reflect (rest = [])) as [->|Hr]; [destruct (Z.eqb_spec (Z.land (mask p) (unot fm)) 0) as [HZ|HZ]|]; simpl.
  - exists [with_pc p g.1], 0, false. apply goto_splits; try done.
    + unfold settled; simpl. by rewrite T1.
    + by apply (brx_target a targets Ht L [g]); [..|left].
    + etrans; [apply (alter_Permutation _ _ _ _ Hp1)|]. by rewrite P1.
    + intros l Hl Hb. pose proof (bit_fallthrough fm l) as HF. rewrite HZ, bit_0, Hb in HF. symmetry in HF. simpl in HF.
      apply negb_false_iff in HF. apply HL in HF. destruct (group_all _ _ _ _ HG l HF) as (g' & ->%list_elem_of_singleton & Hb').
      by eapply (brx_lane a targets Ho Ha L [g]); [..|left|].
  - unfold bind, modify, when, push_path, ret. eapply (brx_split a targets Ho Ha Ht L [g] HG HL _ g [] _ eq_refl eq_refl); try done.
    rewrite (proj2 (Z.eqb_neq _ _) HZ). simpl. etrans; [apply Permutation_app_comm|]. simpl.
    rewrite (alter_Permutation _ _ _ _ Hp1), P1, S1. by rewrite Permutation_swap.
  - unfold bind at 1, modify at 1. rewrite (bind_Ret _ _ _ _ _ (push_groups rest _)). unfold when.
    assert (HA : alter (λ p0 : Path, with_mask (with_pc p0 g.1) g.2) idx (paths w1) ≡ₚ
      with_mask (with_pc p g.1) g.2 :: delete idx (paths w)) by (rewrite (alter_Permutation _ _ _ _ Hp1); by rewrite P1).
    destruct (Z.eqb_spec (Z.land (mask p) (unot fm)) 0) as [HZ|HZ]; simpl.
    + eapply (brx_split a targets Ho Ha Ht L (g :: rest) HG HL _ g rest _ eq_refl eq_refl); try done.
      simpl. rewrite HA, HZ, S1. simpl. constructor. by rewrite Permutation_app_comm.
    + eapply (brx_split a targets Ho Ha Ht L (g :: rest) HG HL _ g rest _ eq_refl eq_refl); try done.
      rewrite (proj2 (Z.eqb_neq _ _) HZ). simpl. rewrite HA, S1. simpl. constructor.
      rewrite (Permutation_app_comm (delete _ _)), <- app_assoc. apply Permutation_app_head. by rewrite Permutation_app_comm.
Qed.

(** The other instructions: the lanes of the mask take the handler's step. *)
Lemma plain_moves w1 : control (op ins) = false → lanes_step c isp w w1 fm (λ l t, teval c l (op ins) t) →
  moves (set_pc idx (pc p + 1) w1).
Proof.
  intros HC (H1 & H2 & H3). unfold ctl in H2. injection H2 as C1 C2 C3 C4 C5 C6 C7 C8.
  exists [with_pc p (pc p + 1)], 0, false. split; simpl; try done.
  - destruct H1. by split.
  - unfold settled; simpl. by rewrite C1, Hst.
  - rewrite C2. etrans; [apply (alter_Permutation _ _ _ _ Hp)|done].
  - by rewrite C3, Z.lor_0_r.
  - apply is_mask_0.
  - apply Forall_singleton. split; [apply HPW..|destruct HPW; simpl; lia].
  - intros l. rewrite bit_0. unfold count; simpl. unfold on_path; simpl. lia.
  - intros l Hl Hb. change (view (alter_path idx (λ p0, with_pc p0 (pc p + 1)) w1) l) with (view w1 l).
    rewrite H3 by done. destruct (bit fm l) eqn:E; [|done]. apply sub_lanes in E as (E & _). congruence.
  - intros l _. by rewrite bit_0.
  - intros _ l q Hl Hq%list_elem_of_singleton. subst q. simpl. intros Hb.
    change (view (alter_path idx (λ p0, with_pc p0 (pc p + 1)) w1) l) with (view w1 l). rewrite H3 by done.
    specialize (HB l Hl). rewrite Hb in HB. simpl in HB. rewrite HB. unfold tstep. rewrite Hi.
    destruct (tguard c ins (view w l)); [|done]. by destruct (op ins).
Qed.
End step.

Lemma step_moves ts ins : nth_z (body c) (pc p) = Some ins →
  op_ok isp (Z.of_nat (length (regs32 w))) (Z.of_nat (length (regs64 w))) (op ins) →
  moves (step c ts idx ins w).
Proof.
  intros Hi Ho.
  assert (HG : match guard c ins (mask p) w with
     | Ret fm w' => w' = w ∧ is_mask c fm ∧ ∀ l, (l < W)%nat → bit fm l = bit (mask p) l && tguard c ins (view w l)
     | Exn e _ => warp_error e | Undef => False end).
  { pose proof (guard_lanes ins (mask p) w) as HL. unfold guard in *. destruct (has_pred ins).
    - pose proof (read_pred_spec c isp (pred ins) w Hw) as HR. unfold bind in *.
      destruct (read_pred c (pred ins) w) as [q w1|e w1|]; [|destruct HR as [-> _]; constructor|done].
      apply HL; [done|apply HPW|done].
    - apply HL; [done|apply HPW|done]. }
  destruct (control (op ins)) eqn:EC.
  - unfold step, bind at 1, path_at. rewrite Hp. unfold bind at 1.
    destruct (guard c ins (mask p) w) as [fm w1|e w1|]; [|done|done]. destruct HG as (-> & Hf & HB).
    destruct (op ins) eqn:EO; try done.
    + by apply (exec_bra_moves ins fm Hi Hf HB).
    + destruct Ho. by apply (exec_brx_moves ins fm Hi Hf HB).
    + by apply (ret_moves ins fm Hi Hf HB).
    + by apply (exec_bar_moves ins fm Hi Hf HB).
  - rewrite (step_plain c HW isp HS ts idx ins w p) by (done || apply HPW). unfold plain_step, bind.
    destruct (guard c ins (mask p) w) as [fm w1|e w1|] eqn:EG; [|done|done]. destruct HG as (-> & Hf & HB).
    unfold when. destruct (Z.eqb_spec fm 0) as [E0|Hne]; simpl.
    + apply (plain_moves ins fm Hi Hf HB); [done|]. split_and!; [done..|]. intros l Hl. by rewrite E0, bit_0.
    + pose proof (general_spec c HW isp HS w fm Hw Hf (op ins) Ho) as HH. unfold handled in HH.
      destruct (general c (op ins) fm w) as [[] w1|e w1|]; [|destruct HH as [_ [->|[-> _]]]; constructor|done].
      by apply (plain_moves ins fm Hi Hf HB).
Qed.
End path.
End simt.
