(* ===== verification/Turn.v ===== *)
(** * A turn of a warp

    select_path merges the paths that meet and picks the one to run; a batch of
    pre-decoded instructions, or one instruction, runs on it; run_warp_until_yield goes
    round until the warp parks, ends or gives up its turn. Here: a turn keeps
    [wf_warp], moves every lane by steps of its own, and always comes to an end. *)

From S2P Require Import Prelude Alu Isa Warp Lanes Thread Handlers Tiers Simt.

(** ** Merging paths *)

Lemma absorb_pc p rest : pc (absorb p rest) = pc p.
Proof. induction rest as [|q rest IH]; [done|]. simpl. by case_if. Qed.

Lemma absorb_bit p rest l : bit (mask (absorb p rest)) l = bit (mask p) l || existsb (λ q, (pc q =? pc p) && bit (mask q) l) rest.
Proof.
  induction rest as [|q rest IH]; simpl; [by rewrite orb_false_r|]. rewrite absorb_pc.
  destruct (pc q =? pc p); simpl; [|done]. rewrite bit_lor, IH.
  destruct (bit (mask p) l), (bit (mask q) l), (existsb _ rest); done.
Qed.

Lemma absorb_count p rest l : (on_path l p + count l rest ≤ 1)%nat →
  (on_path l (absorb p rest) + count l (others p rest) = on_path l p + count l rest)%nat.
Proof.
  induction rest as [|q rest IH]; [done|]. rewrite count_cons. intros H.
  change (absorb p (q :: rest)) with
    (if pc q =? pc (absorb p rest) then with_parked (with_mask (absorb p rest) (Z.lor (mask (absorb p rest)) (mask q))) kRunnable
     else absorb p rest). rewrite absorb_pc.
  unfold others in *. destruct (Z.eqb_spec (pc q) (pc p)) as [E|E].
  - rewrite filter_cons_False by (by intros ?). unfold on_path at 1; simpl. rewrite bit_lor.
    specialize (IH ltac:(lia)). unfold on_path in *. destruct (bit (mask (absorb p rest)) l), (bit (mask q) l); simpl in *; lia.
  - rewrite filter_cons_True, count_cons by done. lia.
Qed.

Lemma length_others p rest : (length (others p rest) ≤ length rest)%nat.
Proof. apply length_filter. Qed.

Lemma merge_count fuel ps l : (length ps ≤ fuel)%nat → (count l ps ≤ 1)%nat → count l (merge_paths fuel ps) = count l ps.
Proof.
  revert ps. induction fuel as [|f IH]; intros [|p rest] HL HC; try done. simpl merge_paths. rewrite !count_cons.
  rewrite count_cons in HC. pose proof (absorb_count p rest l HC). pose proof (length_others p rest). simpl in HL.
  rewrite IH by lia. lia.
Qed.

Lemma merge_length fuel ps : (length (merge_paths fuel ps) ≤ length ps)%nat.
Proof.
  revert ps. induction fuel as [|f IH]; intros [|p rest]; simpl; try lia.
  specialize (IH (others p rest)). pose proof (length_others p rest). lia.
Qed.

Lemma merge_nonempty fuel ps : ps ≠ [] → merge_paths fuel ps ≠ [].
Proof. by destruct fuel, ps. Qed.

(** The lanes of a path end up on one at the same pc. *)
Lemma merge_lane fuel ps p l : p ∈ ps → bit (mask p) l = true →
  ∃ q, q ∈ merge_paths fuel ps ∧ pc q = pc p ∧ bit (mask q) l = true.
Proof.
  revert ps. induction fuel as [|f IH]; intros [|p0 rest] Hp HB; simpl; try (by exists p).
  destruct (decide (pc p = pc p0)) as [E|E].
  - exists (absorb p0 rest). split; [left|]. rewrite absorb_pc. split; [done|]. rewrite absorb_bit.
    apply elem_of_cons in Hp as [->|Hp]; [by rewrite HB|]. apply orb_true_iff. right. apply existsb_exists.
    exists p. split; [by apply list_elem_of_In|]. by rewrite E, Z.eqb_refl.
  - destruct (IH (others p0 rest)) as (q & Hq & E1 & E2); [|done|].
    + apply list_elem_of_filter. split; [done|]. by apply elem_of_cons in Hp as [->|Hp].
    + exists q. split; [by right|done].
Qed.

(** Every merged path is at the pc of one of the paths. *)
Lemma merge_pc fuel ps q : q ∈ merge_paths fuel ps → ∃ p, p ∈ ps ∧ pc p = pc q.
Proof.
  revert ps. induction fuel as [|f IH]; intros [|p0 rest]; simpl; try (by intros ?%elem_of_nil); [by exists q|].
  intros [->|Hq]%elem_of_cons.
  - exists p0. split; [left|]. by rewrite absorb_pc.
  - destruct (IH _ Hq) as (p & Hp & E). apply list_elem_of_filter in Hp as [_ Hp]. exists p. split; [by right|done].
Qed.

(** Two paths never share a pc once merged. *)
Lemma merge_distinct fuel ps : (length ps ≤ fuel)%nat → NoDup (pc <$> merge_paths fuel ps).
Proof.
  revert ps. induction fuel as [|f IH]; intros [|p0 rest]; simpl; intros HL; try (by apply NoDup_nil_2); [lia|]. apply NoDup_cons. split.
  - rewrite absorb_pc. intros (q & E & Hq)%list_elem_of_fmap. apply merge_pc in Hq as (p & Hp & E').
    apply list_elem_of_filter in Hp as [Hp _]. congruence.
  - apply IH. pose proof (length_others p0 rest). lia.
Qed.

(** ** The choice of a path *)

Lemma fold_pick {A} (ps : list A) (f : option nat → nat → option nat) :
  (∀ best i, f best i = best ∨ (f best i = Some i ∧ (i < length ps)%nat)) →
  ∀ b, foldl f None (seq 0 (length ps)) = Some b → (b < length ps)%nat.
Proof.
  intros H b. assert (HI : ∀ L o, (∀ b, o = Some b → (b < length ps)%nat) → foldl f o L = Some b → (b < length ps)%nat).
  { induction L as [|i L IH]; intros o Ho; simpl; [apply Ho|]. apply IH.
    intros b'. destruct (H o i) as [->|[-> Hi]]; [apply Ho|]. by intros [= <-]. }
  by apply HI.
Qed.

Lemma lowest_pc_lt ps b : lowest_pc ps = Some b → (b < length ps)%nat.
Proof.
  apply fold_pick. intros best i. destruct (ps !! i) as [p|] eqn:E; [|by left].
  apply lookup_lt_Some in E. destruct (runnable p); [|by left].
  destruct (best ≫= _); [|by right]. case_if; [by right|by left].
Qed.

Lemma starved_lt n ps b : starved n ps = Some b → (b < length ps)%nat.
Proof.
  apply fold_pick. intros best i. destruct (ps !! i) as [p|] eqn:E; [|by left].
  apply lookup_lt_Some in E. destruct (runnable p && _); [|by left].
  destruct (best ≫= _); [|by right]. case_if; [by right|by left].
Qed.

Lemma boosted_lt ps b : boosted ps = Some b → (b < length ps)%nat.
Proof.
  unfold boosted. destruct (list_find _ ps) as [[i p]|] eqn:E; [|done]. intros [= <-].
  apply list_find_Some in E as [E _]. simpl. by apply lookup_lt_Some in E.
Qed.

Lemma place_alter f (i : nat) (ps : list Path) : (∀ p, place (f p) = place p) → place <$> alter f i ps = place <$> ps.
Proof.
  intros H. apply list_eq. intros j. rewrite !list_lookup_fmap. destruct (decide (i = j)) as [<-|].
  - rewrite list_lookup_alter_eq. destruct (ps !! i); [|done]. simpl. by rewrite H.
  - by rewrite list_lookup_alter_ne.
Qed.

Lemma place_insert (i : nat) p q (ps : list Path) : ps !! i = Some p → place q = place p → place <$> <[i := q]> ps = place <$> ps.
Proof.
  intros Hp H. rewrite list_fmap_insert, H. apply list_insert_id. by rewrite list_lookup_fmap, Hp.
Qed.

(** What select_path leaves: the merged paths, one of them stamped. *)
Lemma select_path_shape w : paths w ≠ [] →
  ∃ idx ps, select_path w = Ret idx (set_paths ps w) ∧ (idx < length ps)%nat ∧
    place <$> ps = place <$> (match paths w with [p] => [p] | _ => merge_paths (length (paths w)) (paths w) end).
Proof.
  intros Hne. unfold select_path. destruct (paths w) as [|p [|p' rest]] eqn:EP; [done| |].
  - exists 0%nat, [with_issued (with_parked p kRunnable) (steps w)]. split_and!; [done|simpl; lia|done].
  - rewrite <- EP in *. clear EP. set (ps0 := merge_paths (length (paths w)) (paths w)).
    assert (H0 : (0 < length ps0)%nat).
    { pose proof (merge_nonempty (length (paths w)) _ Hne). fold ps0 in H. destruct ps0; [done|simpl; lia]. }
    set (best := default 0%nat (lowest_pc ps0)).
    assert (Hb : (best < length ps0)%nat).
    { unfold best. destruct (lowest_pc ps0) eqn:E; [by apply lowest_pc_lt in E|done]. }
    set (st := match boosted ps0 with Some i => (Some i, ps0) | None => _ end).
    assert (Hst : place <$> st.2 = place <$> ps0 ∧ length st.2 = length ps0 ∧ ∀ i, st.1 = Some i → (i < length ps0)%nat).
    { unfold st. destruct (boosted ps0) as [i|] eqn:EB.
      - split_and!; [done..|]. intros i' [= <-]. by apply boosted_lt in EB.
      - destruct (starved (steps w) ps0) as [i|] eqn:ES; simpl; [|done]. rewrite place_alter, length_alter by done.
        split_and!; [done..|]. intros i' [= <-]. by apply starved_lt in ES. }
    destruct st as [pick ps1]. simpl in Hst. destruct Hst as (Hp1 & Hl1 & Hk).
    set (st2 := match pick with Some i => _ | None => _ end).
    assert (Hst2 : place <$> st2.2 = place <$> ps0 ∧ length st2.2 = length ps0 ∧ (st2.1 < length ps0)%nat).
    { unfold st2. destruct pick as [i|]; simpl; [|done]. rewrite place_alter, length_alter by done. auto. }
    destruct st2 as [b ps2]. simpl in Hst2. destruct Hst2 as (Hp2 & Hl2 & Hb2).
    destruct (lookup_lt_is_Some_2 ps2 b) as [q Hq]; [lia|]. rewrite Hq.
    exists b, (<[b := with_issued q (steps w)]> ps2). split; [done|]. rewrite length_insert. split; [lia|].
    rewrite <- Hp2. by apply (place_insert _ q).
Qed.

Section turn.
Context (c : Cfg) (HW : (1 ≤ W c ≤ 64)%nat) (isp : Reg → bool) (HS : sregs_ok c).
Context (lanes : Z) (n32 n64 : nat).
#[local] Abbreviation W := (W c).
#[local] Abbreviation view := (view isp).
#[local] Abbreviation good := (wf_warp c lanes n32 n64).
#[local] Abbreviation follows := (follows c isp).

(** The function is well typed for the register files the warps have. *)
Definition prog_ok : Prop := Forall (λ ins, op_ok isp (Z.of_nat n32) (Z.of_nat n64) (op ins)) (body c).
Context (HO : prog_ok).

Lemma good_count w l : good w → (count l (paths w) ≤ 1)%nat.
Proof. intros []. specialize (warp_places l). destruct (bit lanes l); simpl in *; lia. Qed.

(** Changing paths to ones with the same places, registers and lanes kept. *)
Lemma replaced w ps : place <$> ps = place <$> paths w → good w → good (set_paths ps w) ∧ follows w (set_paths ps w).
Proof. intros HP Hw. eapply same_place; try done. destruct Hw as [[] ? ? ? ? ?]. by split. Qed.

Lemma absorb_wf p rest : wf_path c p → Forall (wf_path c) rest → wf_path c (absorb p rest).
Proof.
  intros Hp. induction 1 as [|q rest Hq Hr IH]; [done|]. simpl. case_if; [|done].
  destruct IH, Hq. split; simpl; [by apply is_mask_lor|intros [? ?]%Z.lor_eq_0_iff; done|done].
Qed.

Lemma merge_wf fuel ps : Forall (wf_path c) ps → Forall (wf_path c) (merge_paths fuel ps).
Proof.
  revert ps. induction fuel as [|f IH]; intros [|p rest] HF; simpl; try done. inversion HF; subst. constructor.
  - by apply absorb_wf.
  - apply IH. apply Forall_forall. intros q [_ Hq]%list_elem_of_filter. by eapply Forall_forall in Hq; [|done].
Qed.

Lemma merged w : good w → good (set_paths (merge_paths (length (paths w)) (paths w)) w) ∧
  follows w (set_paths (merge_paths (length (paths w)) (paths w)) w).
Proof.
  intros Hw. pose proof Hw as [R1 R2 R3 E P C]. split.
  - split; try done.
    + destruct R1. by split.
    + by apply merge_wf.
    + simpl. intros l. rewrite merge_count; [done|done|by apply good_count].
  - intros l s Hl H. exists s. split; [|done]. destruct H as [p Hp HB|HB].
    + destruct (merge_lane (length (paths w)) (paths w) p l Hp HB) as (q & Hq & <- & Bq).
      by apply (on_a_path isp (set_paths _ w) l q).
    + by apply (gone isp (set_paths _ w) l).
Qed.

Lemma select_path_ok w : good w → paths w ≠ [] →
  ∃ idx ps, select_path w = Ret idx (set_paths ps w) ∧ (idx < length ps ≤ length (paths w))%nat ∧
    good (set_paths ps w) ∧ follows w (set_paths ps w).
Proof.
  intros Hw Hne. destruct (select_path_shape w Hne) as (idx & ps & E & Hi & HP). exists idx, ps. split; [done|].
  assert (HL : length ps = length (match paths w with [p] => [p] | _ => merge_paths (length (paths w)) (paths w) end)).
  { rewrite <- (length_fmap place), HP. apply length_fmap. }
  pose proof (merge_length (length (paths w)) (paths w)) as HM. destruct (merged w Hw) as [G1 F1].
  assert (HC : (place <$> ps = place <$> paths w ∧ length ps = length (paths w)) ∨ (place <$> ps = place <$> merge_paths (length (paths w)) (paths w)
    ∧ length ps = length (merge_paths (length (paths w)) (paths w)))).
  { destruct (paths w) as [|p [|p' rest]]; [by right|by left|by right]. }
  destruct HC as [[HC HL']|[HC HL']].
  - split; [lia|]. by apply replaced.
  - split; [lia|]. destruct (replaced (set_paths (merge_paths (length (paths w)) (paths w)) w) ps HC G1) as [G2 F2].
    split; [done|]. etrans; [exact F1|exact F2].
Qed.

(** ** One instruction *)

(** Good and, from [w], reached by its lanes' own steps. *)
Definition reached (w w' : Warp) : Prop := good w' ∧ follows w w' ∧ settled c w'.

Lemma reached_trans w1 w2 w3 : follows w1 w2 → reached w2 w3 → reached w1 w3.
Proof. intros H (G & F & S). split_and!; [done|by etrans|done]. Qed.

Lemma op_ok_at w p ins : good w → nth_z (body c) (pc p) = Some ins →
  op_ok isp (Z.of_nat (length (regs32 w))) (Z.of_nat (length (regs64 w))) (op ins).
Proof.
  intros [_ -> -> _ _ _] Hi. apply nth_z_Some in Hi as [_ Hi]. unfold prog_ok in HO. by eapply Forall_lookup_1 in HO.
Qed.

Lemma good_path w idx p : good w → paths w !! idx = Some p → wf_path c p.
Proof. intros [_ _ _ _ H _] Hp. by eapply Forall_lookup_1 in H. Qed.

(** The counter is no part of where the lanes are. *)
Lemma good_steps w n : good w → good (set_steps n w) ∧ follows w (set_steps n w).
Proof. intros Hw. eapply same_place; try done. destruct Hw as [[] ? ? ? ? ?]. by split. Qed.

Lemma good_yield w b : good w → good (set_yield b w) ∧ follows w (set_yield b w).
Proof. intros Hw. eapply same_place; try done. destruct Hw as [[] ? ? ? ? ?]. by split. Qed.

Lemma moves_reached {A} w idx p (o : outcome Warp A) : good w → paths w !! idx = Some p → moves c isp w idx p o →
  match o with
  | Ret _ w' => reached w w' ∧ steps w' = steps w
  | Exn e _ => warp_error e
  | Undef => False
  end.
Proof.
  intros Hw Hp H. destruct o as [a w'|e w'|]; [|done..]. destruct H as (news & ex & stay & H).
  destruct (splits_wf c HW isp lanes n32 n64 w w' idx p news ex stay Hp Hw H). destruct H. by split.
Qed.

Lemma step_ok ts w idx p ins : good w → state w = Ready → paths w !! idx = Some p → nth_z (body c) (pc p) = Some ins →
  match step c ts idx ins w with
  | Ret _ w' => reached w w' ∧ steps w' = steps w
  | Exn e _ => warp_error e
  | Undef => False
  end.
Proof.
  intros Hw Hst Hp Hi. apply (moves_reached w idx p); [done..|]. apply step_moves; try done.
  - apply Hw.
  - by apply (good_path w idx).
  - by apply (op_ok_at w p).
Qed.

Lemma issue_ok ts w idx p ins : good w → state w = Ready → paths w !! idx = Some p → nth_z (body c) (pc p) = Some ins →
  match issue c ts idx ins w with
  | Ret _ w' => reached w w' ∧ steps w' = steps w + 1 ∧ steps w' ≤ max_steps c
  | Exn e _ => warp_error e
  | Undef => False
  end.
Proof.
  intros Hw Hst Hp Hi. destruct (good_steps w (steps w + 1) Hw) as [G1 F1].
  rewrite (issue_step c HW isp HS ts idx ins w p Hp Hi) by (apply Hw || apply (good_path w idx p Hw Hp) || by apply (op_ok_at w p)).
  cbv zeta. simpl steps. destruct (Z.ltb_spec (max_steps c) (steps w + 1)); [constructor|].
  pose proof (step_ok ts (set_steps (steps w + 1) w) idx p ins G1 Hst Hp Hi) as H1.
  destruct (step c ts idx ins _) as [[] w'|e w'|]; [|done..]. destruct H1 as [H1 H2].
  split; [by eapply reached_trans|]. rewrite H2. done.
Qed.

(** ** Batches of pre-decoded instructions *)

Lemma decode_bra_inv ins : mk (decode ins) = MBra → ∃ t, op ins = OpBra t ∧ src (decode ins) 0 = t.
Proof.
  unfold decode. destruct (decode_guard ins) as [u0|]; [|done]. destruct (decode_op (op ins) u0) as [u|] eqn:E; [|done]. simpl.
  intros HK. destruct (op ins); try done; open_decode E;
    unfold decode_mov, decode_int_bin, decode_setp, need, narrow_dst, wide_dst, source, source64 in E;
    cbv beta in E; repeat (case_match; try done); simplify_eq; try done.
  by eexists.
Qed.

(** An iteration of the batch: the instruction at the path, or a decline. *)
Definition batch_iter (ts : Z) (w : Warp) (u : MicroOp) (p : Path) : M Warp (option (Z * bool)) :=
  if bool_decide (mk u = MBra) then
    match micro_guard w u (mask p) with
    | None => ret None
    | Some fm =>
        if negb (fm =? 0) && negb (fm =? mask p) then ret None
        else if fm =? 0 then ret (Some (pc p + 1, false))
        else ret (Some (src u 0, (src u 0 <=? pc p) && (kLongTurn <=? u64 (steps w + 1 - ts))))
    end
  else
    ok <- exec_micro c u (mask p) ;;
    ret (if ok : bool then Some (pc p + 1, false) else None).

(** The path at the batch's next pc. *)
Definition advance (idx : nat) (next : Z) (w : Warp) : Warp :=
  alter_path idx (λ p, with_pc p next) (set_steps (steps w + 1) w).

Lemma goto_ok w idx p n : good w → state w = Ready → paths w !! idx = Some p → 0 ≤ n →
  (∀ l, (l < W)%nat → bit (mask p) l = true → tstep c l (Running (pc p) (view w l)) = Some (Running n (view w l))) →
  reached w (advance idx n w) ∧ state (advance idx n w) = Ready ∧ steps (advance idx n w) = steps w + 1 ∧
  length (paths (advance idx n w)) = length (paths w).
Proof.
  intros Hw Hst Hp Hn HT. split; [|split_and!; [done..|apply length_alter]].
  assert (HS1 : splits c isp w (alter_path idx (λ p, with_pc p n) w) idx p [with_pc p n] 0 false).
  { apply goto_splits; try done.
    - apply Hw.
    - by apply (good_path w idx).
    - unfold settled; simpl. by rewrite Hst.
    - etrans; [apply (alter_Permutation _ _ _ _ Hp)|done]. }
  destruct (splits_wf c HW isp lanes n32 n64 w _ idx p _ _ _ Hp Hw HS1) as [G1 F1].
  destruct (good_steps _ (steps w + 1) G1) as [G2 F2]. split_and!; [exact G2|by etrans|].
  unfold settled; simpl. by rewrite Hst.
Qed.

Lemma plain_step_ctl w m ins w1 : wf_regs c w → is_mask c m →
  op_ok isp (Z.of_nat (length (regs32 w))) (Z.of_nat (length (regs64 w))) (op ins) →
  plain_step c m ins w = Ret tt w1 → state w1 = state w ∧ steps w1 = steps w ∧ paths w1 = paths w.
Proof.
  intros Hw Hm Ho. unfold plain_step, bind. destruct (guard c ins m w) as [fm w'|e w'|] eqn:EG; [|done..].
  destruct (guard_lanes c HW isp ins m w fm w' Hw Hm EG) as (-> & Hf & _). unfold when.
  destruct (negb (fm =? 0)); [|by intros [= ->]].
  pose proof (general_spec c HW isp HS w fm Hw Hf (op ins) Ho) as HH. intros E. rewrite E in HH.
  destruct HH as (_ & HC & _). unfold ctl in HC. by injection HC.
Qed.

Lemma batch_iter_ok ts w idx p ins : good w → state w = Ready → paths w !! idx = Some p → nth_z (body c) (pc p) = Some ins →
  mk (decode ins) ≠ MNone →
  match batch_iter ts w (decode ins) p w with
  | Ret None w' => w' = w
  | Ret (Some (next, _)) w' =>
      reached w (advance idx next w') ∧ state (advance idx next w') = Ready ∧ steps (advance idx next w') = steps w + 1 ∧
      length (paths (advance idx next w')) = length (paths w)
  | Exn e _ => warp_error e
  | Undef => False
  end.
Proof.
  intros Hw Hst Hp Hi Hk. unfold batch_iter. pose proof (good_path w idx p Hw Hp) as Hpath.
  assert (HR : wf_regs c w) by apply Hw. assert (Ho := op_ok_at w p ins Hw Hi).
  destruct (bool_decide_reflect (mk (decode ins) = MBra)) as [EB|EB].
  - destruct (decode_bra_inv ins EB) as (t & Et & Es). rewrite Es. rewrite Et in Ho.
    assert (HG : match micro_guard w (decode ins) (mask p) with
       | Some fm => is_mask c fm ∧ ∀ l, (l < W)%nat → bit fm l = bit (mask p) l && tguard c ins (view w l) | None => True end).
    { unfold decode in *. destruct (decode_guard ins) as [u0|] eqn:EG; [|done].
      destruct (decode_op (op ins) u0) as [u|] eqn:EO; [|done]. simpl. destruct (decode_keeps _ _ _ EO) as (K1 & K2 & K3).
      pose proof (decode_guarded c w (mask p) ins u0 EG u K1 K2 K3) as HG.
      destruct (micro_guard w u (mask p)) as [fm|]; [|done].
      by apply (guard_lanes c HW isp ins (mask p) w fm w HR (path_mask _ _ Hpath)) in HG as (_ & ? & ?). }
    destruct (micro_guard w (decode ins) (mask p)) as [fm|]; [|done]. destruct HG as [Hf HB].
    destruct (negb (fm =? 0) && negb (fm =? mask p)) eqn:EU; [done|].
    assert (HT : ∀ l b, (l < W)%nat → bit (mask p) l = true → tguard c ins (view w l) = b →
      tstep c l (Running (pc p) (view w l)) = Some (Running (if b then t else pc p + 1) (view w l))).
    { intros l b Hl Hb Hg. unfold tstep. rewrite Hi, Hg, Et. by destruct b. }
    destruct (Z.eqb_spec fm 0) as [E0|Hne]; simpl.
    + apply (goto_ok w idx p); [done..|destruct Hpath; lia|]. intros l Hl Hb. apply (HT l false Hl Hb).
      specialize (HB l Hl). rewrite E0, bit_0, Hb in HB. by destruct (tguard c ins (view w l)).
    + simpl in EU. apply negb_false_iff, Z.eqb_eq in EU. apply (goto_ok w idx p); [done..|]. intros l Hl Hb.
      apply (HT l true Hl Hb). specialize (HB l Hl). rewrite EU, Hb in HB. by destruct (tguard c ins (view w l)).
  - unfold bind. assert (Hc : control (op ins) = false).
    { destruct (control (op ins)) eqn:EC; [|done]. exfalso. destruct (decode_control ins EC Hk) as [t Et].
      unfold decode in *. destruct (decode_guard ins) as [u0|]; [|done]. rewrite Et in *. simpl in *. unfold decode_bra, need in *.
      by destruct (t <=? 4294967295). }
    destruct (exec_micro_tier c HW isp HS w (mask p) HR (path_mask _ _ Hpath) ins Ho Hk) as [->| ->]; [done|].
    pose proof (step_ok ts w idx p ins Hw Hst Hp Hi) as HSt.
    rewrite (step_plain c HW isp HS ts idx ins w p) in HSt by (done || apply Hpath). unfold bind in HSt.
    destruct (plain_step c (mask p) ins w) as [[] w1|e w1|] eqn:EP; simpl; [|done..].
    destruct (plain_step_ctl w (mask p) ins w1) as (C1 & C2 & C3); [done|apply Hpath|done|exact EP|].
    unfold set_pc, modify in HSt. destruct HSt as [(G1 & F1 & S1) E1]. simpl in E1.
    destruct (good_steps _ (steps w1 + 1) G1) as [G2 F2].
    split; [|split_and!; [simpl; by rewrite C1|simpl; by rewrite C2|simpl; by rewrite length_alter, C3]]. split_and!; [exact G2|by etrans|]. unfold settled; simpl. by rewrite C1, Hst.
Qed.

(** A path stamped with its last issue. *)
Definition stamp (b : bool) (idx : nat) (w : Warp) : Warp :=
  if b then alter_path idx (λ p, with_issued p (steps w)) w else w.

Lemma stamp_ok b w idx p : good w → paths w !! idx = Some p →
  good (stamp b idx w) ∧ follows w (stamp b idx w) ∧ ∃ p', paths (stamp b idx w) !! idx = Some p' ∧ place p' = place p.
Proof.
  intros Hw Hp. unfold stamp. destruct b; [|split_and!; [done..|by exists p]].
  destruct (replaced w (alter (λ p, with_issued p (steps w)) idx (paths w))) as [G F]; [by apply place_alter|done|].
  split_and!; [done..|]. exists (with_issued p (steps w)). split; [|done]. simpl. by rewrite list_lookup_alter_eq, Hp.
Qed.

(** One round of the batch's loop. *)
Lemma batch_loop_S fuel ts slice idx n issued w p u : paths w !! idx = Some p → nth_z (micro c) (pc p) = Some u →
  batch_loop c (S fuel) ts slice idx n issued w =
    (let multi := 1 <? Z.of_nat (length (paths w)) in
     if bool_decide (mk u = MNone) || (negb (n =? 0) && negb (slice =? 0) && (slice <=? issued)) ||
        (max_steps c <? steps w + 1) || (multi && negb (n =? 0) && would_switch (paths w) idx (steps w) (pc p))
     then Ret (n, issued) w
     else
       match batch_iter ts w u p (stamp (multi && negb (n =? 0)) idx w) with
       | Ret None w' => Ret (n, issued) w'
       | Ret (Some (next, yield)) w' =>
           let issued := if n =? 0 then issued else issued + 1 in
           if yield : bool then Ret (n + 1, issued) (set_yield true (advance idx next w'))
           else batch_loop c fuel ts slice idx (n + 1) issued (advance idx next w')
       | Exn e w' => Exn e w'
       | Undef => Undef
       end).
Proof.
  intros Hp Hu. cbn [batch_loop]. unfold bind at 1, get. unfold bind at 1, path_at. rewrite Hp. cbv zeta. rewrite Hu.
  destruct (bool_decide (mk u = MNone)); [done|]. simpl orb.
  destruct (negb (n =? 0) && negb (slice =? 0) && (slice <=? issued)); [done|]. simpl orb.
  destruct (max_steps c <? steps w + 1); [done|]. simpl orb.
  destruct (_ && _ && would_switch _ _ _ _); [done|].
  set (b := (1 <? Z.of_nat (length (paths w))) && negb (n =? 0)).
  assert (EW : when b (modify (alter_path idx (λ p0, with_issued p0 (steps w)))) w = Ret tt (stamp b idx w)) by (by destruct b).
  rewrite (bind_Ret _ _ _ _ _ EW). 
  match goal with |- bind ?m _ _ = _ => change m with (batch_iter ts w u p) end. unfold bind at 1.
  destruct (batch_iter ts w u p (stamp b idx w)) as [[[next y]|] w1|e w1|]; [|done..].
  unfold bind at 1, modify at 1. unfold bind at 1, set_pc, modify at 1.
  fold (advance idx next w1). by destruct y.
Qed.

Lemma batch_iter_pc ts w w1 u p p1 : place p1 = place p → steps w1 = steps w → regs_of w1 = regs_of w →
  batch_iter ts w u p = batch_iter ts w1 u p1.
Proof.
  unfold place. intros [= E1 E2] E3 E4. unfold regs_of in E4. injection E4 as R1 R2 R3 R4 R5 R6.
  unfold batch_iter, micro_guard. by rewrite E1, E2, E3, R3, R4.
Qed.

Lemma stamp_regs b idx w : regs_of (stamp b idx w) = regs_of w ∧ state (stamp b idx w) = state w ∧
  steps (stamp b idx w) = steps w ∧ length (paths (stamp b idx w)) = length (paths w).
Proof. unfold stamp. destruct b; [|done]. split_and!; [done..|]. apply length_alter. Qed.

Definition batch_result (w : Warp) (n : Z) (o : outcome Warp (Z * Z)) : Prop :=
  match o with
  | Ret (n', _) w' => reached w w' ∧ state w' = Ready ∧ n ≤ n' ∧ steps w' = steps w + (n' - n) ∧
      (n < n' → steps w' ≤ max_steps c) ∧ (n' = 0 → w' = w)
  | Exn e _ => warp_error e
  | Undef => False
  end.

Lemma ready_reached w : good w → state w = Ready → reached w w.
Proof. intros Hw Hst. split_and!; [done..|]. unfold settled. by rewrite Hst. Qed.

Lemma batch_result_trans w w1 n n1 o : follows w w1 → steps w1 = steps w + (n1 - n) → n ≤ n1 → 0 < n1 →
  steps w1 ≤ max_steps c → batch_result w1 n1 o → batch_result w n o.
Proof.
  intros HF HS1 Hn H0 HM. unfold batch_result. destruct o as [[n' i'] w'|e w'|]; [|done..].
  intros (R & S & L & E & B & _). split_and!; [by eapply reached_trans|done|lia|lia| |lia].
  intros _. destruct (Z.eq_dec n1 n'); [|apply B; lia]. subst n'. lia.
Qed.

Lemma batch_loop_ok fuel ts slice idx n issued w : 0 ≤ n → good w → state w = Ready → (idx < length (paths w))%nat →
  (0 < fuel)%nat → max_steps c - steps w < Z.of_nat fuel → batch_result w n (batch_loop c fuel ts slice idx n issued w).
Proof.
  revert n issued w. induction fuel as [|fuel IH]; intros n issued w Hn Hw Hst Hi H0 HF; [lia|].
  destruct (lookup_lt_is_Some_2 (paths w) idx Hi) as [p Hp].
  assert (HStop : batch_result w n (Ret (n, issued) w)).
  { split_and!; [by apply ready_reached|done|lia|lia|lia|done]. }
  destruct (nth_z (micro c) (pc p)) as [u|] eqn:EU.
  2: { cbn [batch_loop]. unfold bind at 1, get. unfold bind at 1, path_at. rewrite Hp. cbv zeta. by rewrite EU. }
  rewrite (batch_loop_S _ _ _ _ _ _ _ p u) by done. cbv zeta.
  destruct (_ || _) eqn:EC; [done|]. rewrite !orb_false_iff in EC. destruct EC as [[[EK _] EM] _].
  apply bool_decide_eq_false in EK. apply Z.ltb_ge in EM.
  set (b := (1 <? Z.of_nat (length (paths w))) && negb (n =? 0)). destruct (stamp_ok b w idx p Hw Hp) as (G1 & F1 & p1 & Hp1 & E1).
  destruct (stamp_regs b idx w) as (R1 & T1 & S1 & L1).
  rewrite (batch_iter_pc ts w (stamp b idx w) u p p1) by done.
  unfold micro, build_micro in EU. rewrite nth_z_fmap in EU. destruct (nth_z (body c) (pc p)) as [ins|] eqn:EI; [|done].
  injection EU as <-. assert (EI1 : nth_z (body c) (pc p1) = Some ins) by (unfold place in E1; injection E1 as -> _; done).
  pose proof (batch_iter_ok ts (stamp b idx w) idx p1 ins G1 ltac:(by rewrite T1) Hp1 EI1 EK) as HI.
  destruct (batch_iter _ _ _ _ _) as [[[next y]|] w2|e w2|]; [|subst w2|done|done].
  - destruct HI as ((G2 & F2 & S2) & T2 & E2 & L2). rewrite S1 in E2.
    assert (F3 : follows w (advance idx next w2)) by (by etrans).
    destruct y.
    + destruct (good_yield _ true G2) as [G4 F4]. simpl. split_and!; [|done|lia|simpl in *; lia|simpl in *; lia|lia].
      split_and!; [exact G4|by etrans|]. unfold settled. simpl in *. by rewrite T2.
    + apply (batch_result_trans w (advance idx next w2) n (n + 1)); [done|lia|lia|lia|lia|apply IH; (done || lia || idtac)].
  - simpl. split_and!; [|by rewrite T1|lia|lia|lia|].
    + split_and!; [done..|]. unfold settled. by rewrite T1, Hst.
    + intros ->. unfold b, stamp. by rewrite andb_false_r.
Qed.

Lemma run_micro_batch_ok ts slice idx issued w : good w → state w = Ready → (idx < length (paths w))%nat →
  batch_result w 0 (run_micro_batch c ts slice idx issued w).
Proof.
  intros Hw Hst Hi. unfold run_micro_batch, bind, get. destruct (_ && _).
  - split_and!; [by apply ready_reached|done|lia|lia|lia|done].
  - apply batch_loop_ok; try done; lia.
Qed.

(** ** Every pass makes headway *)

Lemma sum_lanes_pos (m : Z) : is_mask c m → m ≠ 0 → (0 < list_sum ((λ l, Nat.b2n (bit m l)) <$> seq 0 W))%nat.
Proof.
  intros Hm Hne. pose proof (is_mask_64 c HW m Hm). destruct (mask_has_bit m) as (l & _ & HB); [lia|].
  pose proof (is_mask_bit c HW m l Hm HB) as Hl.
  assert (Hin : l ∈ seq 0 W) by (apply elem_of_seq; lia).
  clear -HB Hin. induction (seq 0 W) as [|k L IH]; [by apply elem_of_nil in Hin|]. rewrite fmap_cons. simpl list_sum.
  apply elem_of_cons in Hin as [<-|Hin]; [rewrite HB; simpl Nat.b2n; lia|]. specialize (IH Hin). lia.
Qed.

Lemma sum_add (f g h : nat → nat) L : (∀ l, h l = f l + g l)%nat →
  list_sum (h <$> L) = (list_sum (f <$> L) + list_sum (g <$> L))%nat.
Proof. intros H. induction L as [|k L IH]; [done|]. rewrite !fmap_cons. simpl list_sum. rewrite IH, H. lia. Qed.

(** A path a lane at most. *)
Lemma paths_length w : good w → (length (paths w) ≤ W)%nat.
Proof.
  intros Hw.
  assert (HC : (list_sum ((λ l, count l (paths w)) <$> seq 0 W) ≤ W)%nat).
  { assert (HG : ∀ L, (list_sum ((λ l, count l (paths w)) <$> L) ≤ length L)%nat).
    { induction L as [|k L IH]; [done|]. rewrite fmap_cons. simpl list_sum. simpl length.
      pose proof (good_count w k Hw). lia. }
    etrans; [apply HG|]. by rewrite length_seq. }
  destruct Hw as [_ _ _ _ HP _]. etrans; [|exact HC]. clear HC. induction HP as [|p ps Hp HPs IH]; [simpl; lia|].
  rewrite (sum_add (λ l, Nat.b2n (bit (mask p) l)) (λ l, count l ps)) by done.
  pose proof (sum_lanes_pos (mask p) (path_mask _ _ Hp) (path_lanes _ _ Hp)). simpl length. lia.
Qed.

Definition measure (w : Warp) : nat := (S (Z.to_nat (max_steps c - steps w)) * S W + length (paths w))%nat.

Lemma measure_steps w w' : good w' → steps w < steps w' → steps w' ≤ max_steps c → (measure w' < measure w)%nat.
Proof. intros Hw' H1 H2. apply paths_length in Hw'. unfold measure. nia. Qed.

Lemma exec_ret_all w idx p : paths w !! idx = Some p → is_mask c (mask p) →
  ∃ w', exec_ret idx (mask p) w = Ret tt w' ∧ paths w' = delete idx (paths w) ∧ steps w' = steps w.
Proof.
  intros Hp Hm. unfold exec_ret, bind at 1, path_at. rewrite Hp. unfold bind at 1, modify at 1.
  assert (HZ : Z.land (mask p) (unot (mask p)) = 0).
  { assert (HK : is_mask c (Z.land (mask p) (unot (mask p)))) by (apply is_mask_land; [done..|apply u64_range]).
    apply (mask_eq W); [done|split; [done|apply pow2_pos; lia]|]. intros l Hl. rewrite bit_land, bit_unot, bit_0 by lia.
    by destruct (bit (mask p) l). }
  rewrite HZ. simpl. unfold bind, modify, get, when. simpl. by destruct (bool_decide _); eexists.
Qed.

Definition pass_result (w : Warp) (o : outcome Warp (option Z)) : Prop :=
  match o with
  | Ret None w' => reached w w' ∧ steps w' = steps w
  | Ret (Some _) w' => reached w w' ∧ (measure w' < measure w)%nat ∧ (steps w' = steps w ∨ steps w < steps w' ≤ max_steps c)
  | Exn e _ => warp_error e
  | Undef => False
  end.

Lemma pass_ok ts slice issued w : good w → state w = Ready → pass_result w (pass c ts slice issued w).
Proof.
  intros Hw Hst. unfold pass. destruct (negb (slice =? 0) && (slice <=? issued)).
  { split; [|done]. by apply ready_reached. }
  set (iss := if slice =? 0 then _ else _). unfold bind at 1, get.
  destruct (bool_decide_reflect (paths w = [])) as [EP|EP].
  { unfold bind, modify. split; [|done]. split_and!; [|intros l s Hl H; exists s; split; [|done]; by destruct H as [p Hp|HB]; [rewrite EP in Hp; apply elem_of_nil in Hp|by apply (gone isp (set_state Done w))]|done].
    destruct Hw as [[] ? ? ? ? ?]. split; try done. }
  destruct (yield_now w).
  { unfold bind, modify. destruct (good_yield w false Hw). split; [|done]. split_and!; [done..|]. unfold settled. simpl. by rewrite Hst. }
  destruct (select_path_ok w Hw EP) as (idx & ps & E & Hi & G & F). rewrite (bind_Ret _ _ _ _ _ E). clear E.
  set (w1 := set_paths ps w) in *. destruct (lookup_lt_is_Some_2 ps idx) as [p Hp]; [lia|].
  assert (Hp1 : paths w1 !! idx = Some p) by done. assert (Hst1 : state w1 = Ready) by done.
  assert (ES : steps w1 = steps w) by done. assert (EL : (length (paths w1) ≤ length (paths w))%nat) by (simpl; lia).
  clearbody w1. clear Hi. unfold path_at, bind at 1. rewrite Hp1.
  destruct (nth_z (body c) (pc p)) as [ins|] eqn:EI.
  - set (mb := if fast_enabled c then run_micro_batch c ts slice idx iss else ret (0, iss)).
    assert (HB : batch_result w1 0 (mb w1)).
    { unfold mb. destruct (fast_enabled c); [apply run_micro_batch_ok; [done..|by eapply lookup_lt_Some]|].
      split_and!; [by apply ready_reached|done|lia|lia|lia|done]. }
    unfold bind at 1. destruct (mb w1) as [[n i'] w2|e w2|]; [|done..].
    destruct HB as (R2 & S2 & N2 & L2 & M2 & Z2). cbn [fst snd]. destruct (Z.eqb_spec n 0) as [->|Hn].
    + rewrite (Z2 eq_refl) in *. unfold bind.
      pose proof (issue_ok ts w1 idx p ins G Hst1 Hp1 EI) as HI. destruct (issue c ts idx ins w1) as [[] w3|e w3|]; [|exact HI..].
      destruct HI as (R3 & E3 & M3). split; [by eapply reached_trans|]. split; [|lia].
      eapply Nat.lt_le_trans; [apply (measure_steps w1); [apply R3|lia|done]|]. unfold measure. rewrite ES. lia.
    + simpl. split; [by eapply reached_trans|]. split; [|lia].
      eapply Nat.lt_le_trans; [apply (measure_steps w1); [apply R2|lia|apply M2; lia]|]. unfold measure. rewrite ES. lia.
  - pose proof (good_path w1 idx p G Hp1) as Hpath. destruct (exec_ret_all w1 idx p Hp1 (path_mask _ _ Hpath)) as (w2 & E2 & P2 & S2).
    assert (HM : moves c isp w1 idx p (exec_ret idx (mask p) w1)).
    { apply exec_ret_moves; try done; [apply G|apply Hpath| |congruence].
      intros l Hl Hb. unfold tstep. by rewrite EI. }
    apply (moves_reached w1 idx p) in HM; [|done..]. rewrite E2 in HM. destruct HM as [R _].
    rewrite (bind_Ret _ _ _ _ _ E2). simpl. split; [by eapply reached_trans|]. split; [|left; congruence].
    unfold measure. rewrite P2, S2, ES, length_delete by (by eexists). apply lookup_lt_Some in Hp1. lia.
Qed.

(** ** The loop *)

Lemma settled_nonready w : state w = Ready ∨ settled c w → good w → settled c w.
Proof. intros [H|H] _; [|done]. unfold settled. by rewrite H. Qed.

Lemma run_loop_ok fuel ts slice issued w : good w → settled c w → (measure w < fuel)%nat →
  match run_loop c fuel ts slice issued w with
  | Ret _ w' => reached w w' ∧ steps w ≤ steps w' ≤ Z.max (steps w) (max_steps c)
  | Exn e _ => warp_error e
  | Undef => False
  end.
Proof.
  revert issued w. induction fuel as [|fuel IH]; intros issued w Hw HT HF; [lia|]. cbn [run_loop]. unfold bind at 1, get.
  destruct (bool_decide_reflect (state w = Ready)) as [Hst|Hst]; [|simpl; split; [by split_and!|lia]].
  pose proof (pass_ok ts slice issued w Hw Hst) as HP. unfold bind.
  destruct (pass c ts slice issued w) as [[i'|] w1|e w1|]; [| |exact HP..].
  - destruct HP as (R & HM & HS1). destruct R as (G & F & T). specialize (IH i' w1 G T ltac:(lia)).
    destruct (run_loop c fuel ts slice i' w1) as [[] w2|e w2|]; [|exact IH..]. destruct IH as [R2 S2].
    split; [by eapply reached_trans|]. lia.
  - destruct HP as (R & HS1). split; [done|]. simpl. lia.
Qed.

(** More fuel changes nothing. *)
Lemma run_loop_more fuel k ts slice issued w : run_loop c fuel ts slice issued w ≠ Undef →
  run_loop c (fuel + k) ts slice issued w = run_loop c fuel ts slice issued w.
Proof.
  revert issued w. induction fuel as [|fuel IH]; intros issued w HN; [done|]. cbn [run_loop Nat.add] in *.
  unfold bind, get in *. destruct (bool_decide (state w = Ready)); [|done]. destruct (pass c ts slice issued w) as [[i'|] w1|e w1|]; [|done..]. by apply IH.
Qed.

Definition turn_start_warp (w : Warp) : Warp :=
  set_paths ((λ p, if bool_decide (parked p = kThisTurn) then with_parked p kRunnable else p) <$> paths w) w.

Lemma turn_start_ok w : good w → settled c w → reached w (turn_start_warp w).
Proof.
  intros Hw HT. destruct (replaced w ((λ p, if bool_decide (parked p = kThisTurn) then with_parked p kRunnable else p) <$> paths w)) as [G F].
  - rewrite <- list_fmap_compose. apply list_fmap_ext. intros i p _. simpl. by case_bool_decide.
  - done.
  - split_and!; [done..|]. unfold settled, turn_start_warp in *. simpl. destruct (state w); [done| |].
    + destruct HT as (q & ins & b & EP & E1 & E2). rewrite EP. simpl.
      eexists _, ins, b. split; [done|]. split; [|done]. by case_bool_decide.
    + by rewrite HT.
Qed.

Lemma turn_ok slice w : good w → settled c w →
  match run_warp_until_yield c slice w with
  | Ret _ w' => reached w w' ∧ steps w ≤ steps w' ≤ Z.max (steps w) (max_steps c)
  | Exn e _ => warp_error e
  | Undef => False
  end.
Proof.
  intros Hw HT. unfold run_warp_until_yield, bind, get, modify. fold (turn_start_warp w).
  destruct (turn_start_ok w Hw HT) as (G & F & S).
  pose proof (run_loop_ok (loop_fuel c w) (steps w) slice 0 (turn_start_warp w) G S) as HL.
  destruct (run_loop c (loop_fuel c w) (steps w) slice 0 (turn_start_warp w)) as [[] w'|e w'|]; simpl in HL.
  - destruct HL as [R E]; [|by split; [eapply reached_trans|]].
    unfold measure, loop_fuel, turn_start_warp; simpl. rewrite length_fmap. nia.
  - apply HL. unfold measure, loop_fuel, turn_start_warp; simpl. rewrite length_fmap. nia.
  - apply HL. unfold measure, loop_fuel, turn_start_warp; simpl. rewrite length_fmap. nia.
Qed.

(** ** Every turn makes headway *)

Definition state_weight (s : WState) : nat := match s with Done => 0 | Ready => 1 | AtBarrier => 2 end.
Definition weight (w : Warp) : nat := (8 * measure w + 2 * Nat.b2n (yield_now w) + state_weight (state w))%nat.

Lemma weight_measure w w' : (measure w' < measure w)%nat → (weight w' < weight w)%nat.
Proof.
  intros H. unfold weight. assert (Nat.b2n (yield_now w') ≤ 1)%nat by (destruct (yield_now w'); simpl; lia).
  assert (state_weight (state w') ≤ 2)%nat by (destruct (state w'); simpl; lia). lia.
Qed.

Lemma pass_none ts slice issued w w' : state w = Ready → pass c ts slice issued w = Ret None w' →
  (negb (slice =? 0) && (slice <=? issued) = true ∧ w' = w) ∨ (weight w' < weight w)%nat.
Proof.
  intros Hst H. unfold pass in H. destruct (negb (slice =? 0) && (slice <=? issued)); [injection H as <-; by left|].
  unfold bind at 1, get in H. destruct (bool_decide (paths w = [])).
  { injection H as <-. right. change (8 * measure w + 2 * Nat.b2n (yield_now w) + 0 < weight w)%nat.
    unfold weight. rewrite Hst. cbn [state_weight]. lia. }
  destruct (yield_now w) eqn:EY.
  { injection H as <-. right. change (8 * measure w + 0 + state_weight (state w) < weight w)%nat.
    unfold weight. rewrite EY. cbn [Nat.b2n]. lia. }
  exfalso. unfold bind at 1 in H. destruct (select_path w) as [idx w1|e w1|]; [|done..].
  unfold bind at 1 in H. destruct (path_at idx w1) as [p w2|e w2|]; [|done..]. destruct (nth_z (body c) (pc p)) as [ins|].
  - unfold bind at 1 in H. match type of H with match ?m with _ => _ end = _ => destruct m as [[n i'] w3|e w3|] end; [|done..].
    cbn [fst snd] in H. destruct (n =? 0); [|done]. unfold bind in H. by destruct (issue c ts idx ins w3) as [[] ?| |].
  - unfold bind in H. by destruct (exec_ret idx (mask p) w2) as [[] ?| |].
Qed.

Lemma run_loop_weight fuel ts slice issued w w' : good w → settled c w → run_loop c fuel ts slice issued w = Ret tt w' →
  w' = w ∨ (weight w' < weight w)%nat.
Proof.
  revert issued w. induction fuel as [|fuel IH]; intros issued w Hw HT; [done|]. cbn [run_loop]. unfold bind at 1, get.
  destruct (bool_decide_reflect (state w = Ready)) as [Hst|Hst]; [|intros [= <-]; by left].
  pose proof (pass_ok ts slice issued w Hw Hst) as HP. pose proof (pass_none ts slice issued w) as HN.
  unfold bind. destruct (pass c ts slice issued w) as [[i'|] w1|e w1|]; [| |done..].
  - destruct HP as ((G & _ & T) & HM & _). intros HL. right. apply weight_measure in HM.
    destruct (IH i' w1 G T HL) as [->|]; [done|lia].
  - intros [= <-]. destruct (HN w1 Hst eq_refl) as [[_ ->]|]; [by left|by right].
Qed.

Lemma turn_weight slice w w' : good w → state w = Ready → 0 ≤ slice → run_warp_until_yield c slice w = Ret tt w' →
  (weight w' < weight w)%nat.
Proof.
  intros Hw Hst Hs. assert (HT : settled c w) by (unfold settled; by rewrite Hst).
  unfold run_warp_until_yield, bind at 1 2, get, modify. fold (turn_start_warp w).
  destruct (turn_start_ok w Hw HT) as (G & _ & T).
  assert (HWt : weight (turn_start_warp w) = weight w) by (unfold weight, measure, turn_start_warp; simpl; by rewrite length_fmap).
  assert (Hst' : state (turn_start_warp w) = Ready) by done. rewrite <- HWt. clear HWt Hw HT Hst.
  generalize dependent (turn_start_warp w). intros w0 G T Hst. destruct (loop_fuel c w) as [|fuel]; [done|]. cbn [run_loop].
  unfold bind at 1, get. rewrite bool_decide_eq_true_2 by done.
  pose proof (pass_ok (steps w) slice 0 w0 G Hst) as HP. pose proof (pass_none (steps w) slice 0 w0) as HN.
  unfold bind. destruct (pass c (steps w) slice 0 w0) as [[i'|] w1|e w1|]; [| |done..].
  - destruct HP as ((G1 & _ & T1) & HM & _). intros HL. apply weight_measure in HM.
    destruct (run_loop_weight fuel (steps w) slice i' w1 w' G1 T1 HL) as [->|]; [done|lia].
  - intros [= <-]. destruct (HN w1 Hst eq_refl) as [[HE _]|]; [|done].
    apply andb_true_iff in HE as [H1 H2]. apply Z.leb_le in H2. apply negb_true_iff, Z.eqb_neq in H1. lia.
Qed.
End turn.
