(* ===== verification/Passes.v ===== *)
(** * A batch is a run of passes

    run_micro_batch runs instructions of one path without going back to select_path
    between them; it stops wherever select_path would pick another path, merge two or
    boost one. Here: with the faster tiers and the batches, a turn does what it does
    with every instruction issued by the general loop. The two differ only in when a
    path that is alone was last issued, which the next select_path writes again. *)

From S2P Require Import Prelude Alu Isa Warp Lanes Thread Handlers Tiers Simt Turn.

(** ** What the paths and the step counter do not change *)

Definition set_ctl (ps : list Path) (n : Z) (w : Warp) : Warp := set_paths ps (set_steps n w).

Definition map_state {A} (f : Warp → Warp) (o : outcome Warp A) : outcome Warp A :=
  match o with Ret a w => Ret a (f w) | Exn e w => Exn e (f w) | Undef => Undef end.

Definition steady {A} (k : M Warp A) : Prop := ∀ ps n w, k (set_ctl ps n w) = map_state (set_ctl ps n) (k w).

Lemma steady_ret {A} (a : A) : steady (ret a).
Proof. done. Qed.
Lemma steady_throw {A} e : steady (throw (A:=A) e).
Proof. done. Qed.
Lemma steady_bind {A B} (m : M Warp A) (k : A → M Warp B) : steady m → (∀ a, steady (k a)) → steady (bind m k).
Proof. intros Hm Hk ps n w. unfold bind. rewrite Hm. destruct (m w) as [a w'|e w'|]; simpl; [apply Hk|done..]. Qed.
Lemma steady_modify f : (∀ ps n w, f (set_ctl ps n w) = set_ctl ps n (f w)) → steady (modify f).
Proof. intros H ps n w. unfold modify. simpl. by rewrite H. Qed.
Lemma steady_get {A} (k : Warp → M Warp A) : (∀ w, steady (k w)) → (∀ ps n w, k (set_ctl ps n w) = k w) →
  steady (bind get k).
Proof. intros H E ps n w. unfold bind, get. rewrite E. apply H. Qed.
Lemma steady_if {A} (b : bool) (k1 k2 : M Warp A) : steady k1 → steady k2 → steady (if b then k1 else k2).
Proof. by destruct b. Qed.

Create HintDb steady.
#[export] Hint Resolve steady_ret steady_throw steady_bind steady_modify steady_if : steady.

Section steady.
Context (c : Cfg).

Lemma steady_put32 i m f : steady (put32 c i m f).
Proof.
  intros ps n w. unfold put32, bind, dst32. simpl. destruct (nth_z (regs32 w) i); [|done].
  by destruct (nth_z (written32 w) i) as [[]|].
Qed.
Lemma steady_put64 i m f : steady (put64 c i m f).
Proof.
  intros ps n w. unfold put64, bind, dst64. simpl. destruct (nth_z (regs64 w) i); [|done].
  by destruct (nth_z (written64 w) i) as [[]|].
Qed.
Lemma steady_write_reg r m v b : steady (write_reg c r m v b).
Proof. unfold write_reg. repeat case_if; apply steady_put32 || apply steady_put64. Qed.
Lemma steady_read_pred r : steady (read_pred c r).
Proof.
  intros ps n w. unfold read_pred. simpl. destruct (if wide r then _ else _) as [[]|]; [|done..].
  by destruct (nth_z (preds w) (pred_index c r)).
Qed.
Lemma steady_set_pred r f : steady (set_pred c r f).
Proof.
  intros ps n w. unfold set_pred. simpl. destruct (if wide r then _ else _); [|done].
  destruct (nth_z (preds w) (pred_index c r)); [|done]. by destruct (wide r).
Qed.
Lemma steady_write_lanes r m b f : steady (write_lanes c r m b f).
Proof. unfold write_lanes. destruct (for_lanes c m f); [apply steady_write_reg|done]. Qed.
Lemma steady_write_carry r m b co f : steady (write_carry c r m b co f).
Proof.
  apply steady_get; [|done]. intros w. destruct (carry_lanes _ _ _ _ _). apply steady_bind; [by apply steady_modify|].
  intros _. apply steady_write_reg.
Qed.
#[local] Hint Resolve steady_put32 steady_put64 steady_write_reg steady_read_pred steady_set_pred
  steady_write_lanes steady_write_carry : steady.

Lemma steady_general o m : steady (general c o m).
Proof.
  apply steady_get; [|by destruct o]. intros w.
  destruct o; open_general; cbv zeta; auto 6 with steady.
  - destruct (sp_bop op) as [[[? ?] ?]|]; destruct (sp_q op); auto 8 with steady.
Qed.

Lemma steady_guard ins m : steady (guard c ins m).
Proof. unfold guard. auto 6 with steady. Qed.

Lemma steady_micro_carry u m co f : steady (micro_carry c u m co f).
Proof.
  apply steady_get; [|done]. intros w. apply steady_bind; [apply steady_put32|]. intros _.
  apply steady_if; [by apply steady_modify|done].
Qed.
#[local] Hint Resolve steady_micro_carry : steady.

Lemma steady_exec_micro u m : steady (exec_micro c u m).
Proof.
  apply steady_get; [|done]. intros w. destruct (micro_guard w u m); [|done]. apply steady_if; [done|].
  apply steady_get; [|by intros ps n w'; cbv zeta; destruct (mk u), (sub u)]. clear w. intros w. cbv zeta.
  destruct (mk u); try done; destruct (sub u); try done; open_micro; repeat (case_match; try done);
    unfold micro_set_pred; auto with steady.
Qed.

Lemma steady_plain_step m ins : steady (plain_step c m ins).
Proof.
  apply steady_bind; [apply steady_guard|]. intros fm. unfold when. apply steady_if; [apply steady_general|done].
Qed.
End steady.

(** ** Instructions issued by the general loop *)

Section passes.
Context (c : Cfg) (HW : (1 ≤ W c ≤ 64)%nat) (isp : Reg → bool) (HS : sregs_ok c).
Context (lanes : Z) (n32 n64 : nat) (HO : prog_ok c isp n32 n64).
#[local] Abbreviation W := (W c).
#[local] Abbreviation good := (wf_warp c lanes n32 n64).
#[local] Abbreviation slow := (slow c).

Lemma slow_step_plain ts idx ins w p : paths w !! idx = Some p → control (op ins) = false →
  step slow ts idx ins w = (plain_step c (mask p) ins ;;; set_pc idx (pc p + 1)) w.
Proof.
  intros Hp HC. unfold step, plain_step, path_at. unfold bind at 1. rewrite Hp.
  change (guard slow ins (mask p)) with (guard c ins (mask p)). unfold bind.
  destruct (guard c ins (mask p) w) as [fm w1|e w1|]; [|done..].
  assert (HD : when (negb (fm =? 0)) (dispatch slow (op ins) fm) w1 = when (negb (fm =? 0)) (general c (op ins) fm) w1)
    by (by destruct (fm =? 0)).
  destruct (op ins); try done; unfold bind; by rewrite HD.
Qed.

Lemma slow_step ts idx ins w p : good w → paths w !! idx = Some p → nth_z (body c) (pc p) = Some ins →
  step c ts idx ins w = step slow ts idx ins w.
Proof.
  intros Hw Hp Hi. destruct (control (op ins)) eqn:EC.
  - unfold step. destruct (op ins); done.
  - rewrite (slow_step_plain ts idx ins w p) by done.
    apply (step_plain c HW isp HS); [done..|apply Hw|by apply (good_path c lanes n32 n64 w idx)|].
    by apply (op_ok_at c isp lanes n32 n64 HO w p).
Qed.

Lemma slow_issue_step ts idx ins w p : paths w !! idx = Some p →
  issue slow ts idx ins w =
    (let w1 := set_steps (steps w + 1) w in
     if max_steps c <? steps w1 then Exn (Error ExecLimit) w1 else step slow ts idx ins w1).
Proof.
  intros Hp. unfold issue, bind at 1, modify. unfold bind at 1, get. cbv zeta. change (max_steps slow) with (max_steps c).
  destruct (max_steps c <? _); [done|]. unfold path_at, bind at 1. simpl paths. rewrite Hp. done.
Qed.

(** One instruction, through whichever tier takes it. *)
Lemma issue_is_slow ts idx ins w p : good w → paths w !! idx = Some p → nth_z (body c) (pc p) = Some ins →
  issue c ts idx ins w = issue slow ts idx ins w.
Proof.
  intros Hw Hp Hi.
  rewrite (issue_step c HW isp HS ts idx ins w p Hp Hi)
    by (apply Hw || apply (good_path c lanes n32 n64 w idx p Hw Hp) || by apply (op_ok_at c isp lanes n32 n64 HO w p)).
  rewrite (slow_issue_step ts idx ins w p Hp). cbv zeta. destruct (max_steps c <? _); [done|].
  apply (slow_step _ _ _ _ p); [|done..]. by apply (good_steps c isp lanes n32 n64).
Qed.

(** ** The batch's instructions *)

Lemma put64_no_exn i m f w e w' : put64 c i m f w ≠ Exn e w'.
Proof.
  unfold put64, bind, dst64. destruct (nth_z (regs64 w) i); [|done]. by destruct (nth_z (written64 w) i) as [[]|].
Qed.

Lemma set_pred_no_exn r f w e w' : set_pred c r f w ≠ Exn e w'.
Proof.
  unfold set_pred. destruct (if wide r then _ else _); [|done]. by destruct (nth_z (preds w) (pred_index c r)).
Qed.

Lemma then_true_no_exn (k : M Warp unit) w e w' : k w ≠ Exn e w' → (k ;;; ret true) w ≠ Exn e w'.
Proof. unfold bind. destruct (k w); [done|congruence|done]. Qed.

Lemma exec_micro_no_exn u m w e w' : exec_micro c u m w ≠ Exn e w'.
Proof.
  unfold exec_micro, bind at 1, get. destruct (micro_guard w u m) as [fm|]; [|done]. case_if; [done|].
  open_micro; unfold bind at 1, get. cbv zeta.
  destruct (mk u); try done; destruct (sub u); try done; repeat (case_match; try done); apply then_true_no_exn;
    try apply put32_no_exn; try apply put64_no_exn; try apply set_pred_no_exn.
  all: unfold micro_carry, bind, get; destruct (put32 c _ _ _ w) eqn:E; [|by apply put32_no_exn in E|done].
  all: by case_if.
Qed.

Lemma batch_iter_no_exn ts w u p w1 e w' : batch_iter c ts w u p w1 ≠ Exn e w'.
Proof.
  unfold batch_iter. case_bool_decide.
  - destruct (micro_guard w u (mask p)); [|done]. repeat case_if; done.
  - unfold bind. destruct (exec_micro c u (mask p) w1) as [[]| |] eqn:E; [done..| |done]. by apply exec_micro_no_exn in E.
Qed.

(** What the batch does at the path is what the general loop issues there. *)
Lemma batch_iter_issue ts w idx p ins next y w2 : good w → paths w !! idx = Some p → nth_z (body c) (pc p) = Some ins →
  mk (decode ins) ≠ MNone → steps w + 1 ≤ max_steps c →
  batch_iter c ts w (decode ins) p w = Ret (Some (next, y)) w2 →
  issue slow ts idx ins w = Ret tt (if y then set_yield true (advance idx next w2) else advance idx next w2).
Proof.
  intros Hw Hp Hi Hk HM. rewrite (slow_issue_step ts idx ins w p Hp). cbv zeta.
  replace (max_steps c <? steps (set_steps (steps w + 1) w)) with false by (symmetry; apply Z.ltb_ge; simpl; lia).
  set (w' := set_steps (steps w + 1) w). assert (Hp' : paths w' !! idx = Some p) by done.
  pose proof (good_path c lanes n32 n64 w idx p Hw Hp) as Hpath. assert (HR : wf_regs c w) by apply Hw.
  unfold batch_iter. destruct (bool_decide_reflect (mk (decode ins) = MBra)) as [EB|EB].
  - destruct (decode_bra_inv ins EB) as (t & Et & ->).
    assert (HG : match micro_guard w (decode ins) (mask p) with
       | Some fm => guard c ins (mask p) w = Ret fm w | None => True end).
    { unfold decode in *. destruct (decode_guard ins) as [u0|] eqn:EG; [|done].
      destruct (decode_op (op ins) u0) as [u|] eqn:EO; [|done]. simpl. destruct (decode_keeps _ _ _ EO) as (K1 & K2 & K3).
      by apply (decode_guarded c w (mask p) ins u0 EG u K1 K2 K3). }
    destruct (micro_guard w (decode ins) (mask p)) as [fm|]; [|done].
    destruct (negb (fm =? 0) && negb (fm =? mask p)) eqn:EU; [done|].
    assert (HG' : guard slow ins (mask p) w' = Ret fm w').
    { change (guard slow ins (mask p)) with (guard c ins (mask p)). change w' with (set_ctl (paths w) (steps w + 1) w). by rewrite (steady_guard c ins (mask p)), HG. }
    unfold step, path_at, bind at 1. rewrite Hp', (bind_Ret _ _ _ _ _ HG'), Et.
    unfold exec_bra, bind at 1, get. unfold bind at 1, path_at. rewrite Hp'.
    destruct (Z.eqb_spec fm 0) as [->|Hne]; simpl.
    { intros [= <- <- <-]. done. }
    simpl in EU. apply negb_false_iff, Z.eqb_eq in EU. subst fm.
    assert (HZ : Z.land (mask p) (unot (mask p)) = 0).
    { apply (mask_eq W); [apply is_mask_land; [done|apply Hpath|apply u64_range]|apply (is_mask_0 c); lia|].
      intros l Hl. rewrite bit_land, bit_unot, bit_0 by lia. by destruct (bit (mask p) l). }
    intros [= <- <- <-]. destruct ((t <=? pc p) && (kLongTurn <=? u64 (steps w + 1 - ts))) eqn:EY;
      unfold when, bind, modify; simpl; rewrite HZ; done.
  - unfold bind at 1. assert (Hc : control (op ins) = false).
    { destruct (control (op ins)) eqn:EC; [|done]. exfalso. destruct (decode_control ins EC Hk) as [t Et].
      unfold decode in *. destruct (decode_guard ins) as [u0|]; [|done]. rewrite Et in *. simpl in *. unfold decode_bra, need in *.
      by destruct (t <=? 4294967295). }
    assert (Ho := op_ok_at c isp lanes n32 n64 HO w p ins Hw Hi).
    destruct (exec_micro_tier c HW isp HS w (mask p) HR (path_mask _ _ Hpath) ins Ho Hk) as [->| ->]; [done|].
    rewrite (slow_step_plain ts idx ins w' p Hp' Hc).
    destruct (plain_step c (mask p) ins w) as [[] w1|e w1|] eqn:EP; simpl; [|done..]. intros [= <- <- <-].
    destruct (plain_step_ctl c HW isp HS w (mask p) ins w1 HR (path_mask _ _ Hpath) Ho EP) as (C1 & C2 & C3).
    change w' with (set_ctl (paths w) (steps w + 1) w). unfold bind. rewrite (steady_plain_step c (mask p) ins), EP. simpl.
    unfold advance, alter_path, set_ctl; simpl. by rewrite C2, C3.
Qed.
End passes.

(** ** When select_path stays *)

Lemma foldl_seq_S {A} (f : A → nat → A) a n : foldl f a (seq 0 (S n)) = f (foldl f a (seq 0 n)) n.
Proof. by rewrite seq_S, foldl_app. Qed.

(** The lowest pc among the runnable paths, when one is below all the others. *)
Definition lowest_step (ps : list Path) (best : option nat) (i : nat) : option nat :=
  match ps !! i with
  | Some p =>
      if runnable p then
        match best ≫= λ b, ps !! b with
        | Some q => if pc p <? pc q then Some i else best
        | None => Some i
        end
      else best
  | None => best
  end.

Lemma lowest_pc_is ps idx p : ps !! idx = Some p → runnable p = true →
  (∀ i q, i ≠ idx → ps !! i = Some q → runnable q = true → pc p < pc q) → lowest_pc ps = Some idx.
Proof.
  intros Hp HR HL. change (lowest_pc ps) with (foldl (lowest_step ps) None (seq 0 (length ps))).
  assert (HI : ∀ k, (k ≤ length ps)%nat →
    let acc := foldl (lowest_step ps) None (seq 0 k) in
    if (idx <? k)%nat then acc = Some idx
    else match acc with Some b => ∃ q, b ≠ idx ∧ ps !! b = Some q ∧ runnable q = true | None => True end).
  { induction k as [|k IH]; intros Hk; [done|]. cbv zeta. rewrite foldl_seq_S. specialize (IH ltac:(lia)). cbv zeta in IH.
    destruct (lookup_lt_is_Some_2 ps k) as [q Hq]; [lia|]. set (acc := foldl _ _ _) in *. unfold lowest_step. rewrite Hq.
    destruct (Nat.ltb_spec idx k).
    - rewrite IH. replace (idx <? S k)%nat with true by (symmetry; apply Nat.ltb_lt; lia). simpl. rewrite Hp.
      destruct (runnable q) eqn:Er; [|done]. specialize (HL k q ltac:(lia) Hq Er).
      by replace (pc q <? pc p) with false by (symmetry; apply Z.ltb_ge; lia).
    - destruct (decide (k = idx)) as [->|Hne].
      + rewrite Hp in Hq. injection Hq as <-. rewrite HR. replace (idx <? S idx)%nat with true by (symmetry; apply Nat.ltb_lt; lia).
        destruct acc as [b|]; [|done]. destruct IH as (q & Hb & Hq & Er). simpl. rewrite Hq.
        specialize (HL b q Hb Hq Er). by replace (pc p <? pc q) with true by (symmetry; apply Z.ltb_lt; lia).
      + replace (idx <? S k)%nat with false by (symmetry; apply Nat.ltb_ge; lia).
        destruct (runnable q) eqn:Er; [|done]. destruct acc as [b|]; simpl; [|by exists q].
        destruct IH as (q' & Hb & Hq' & Er'). rewrite Hq'. case_if; [by exists q|by exists q']. }
  specialize (HI (length ps) ltac:(lia)). cbv zeta in HI.
  apply lookup_lt_Some in Hp. by replace (idx <? length ps)%nat with true in HI by (symmetry; apply Nat.ltb_lt; lia).
Qed.

Lemma fold_none {A} (ps : list A) (f : option nat → nat → option nat) :
  (∀ i, (i < length ps)%nat → f None i = None) → foldl f None (seq 0 (length ps)) = None.
Proof.
  intros H. assert (HL : Forall (λ i, (i < length ps)%nat) (seq 0 (length ps))) by (apply Forall_forall; intros k Hk%elem_of_seq; lia).
  revert HL. generalize (seq 0 (length ps)). induction l as [|i L IH]; simpl; [done|]. inversion 1; subst. rewrite H by done. by apply IH.
Qed.

Lemma lowest_pc_none ps : (∀ q, q ∈ ps → runnable q = false) → lowest_pc ps = None.
Proof.
  intros H. apply (fold_none ps). intros i Hi. destruct (lookup_lt_is_Some_2 ps i Hi) as [q Hq]. rewrite Hq.
  by rewrite (H q) by (by eapply list_elem_of_lookup_2).
Qed.

Lemma starved_none n ps : (∀ q, q ∈ ps → runnable q = true → u64 (n - issued_at q) ≤ kStarvedSteps) → starved n ps = None.
Proof.
  intros H. apply (fold_none ps). intros i Hi. destruct (lookup_lt_is_Some_2 ps i Hi) as [q Hq]. rewrite Hq.
  destruct (runnable q) eqn:Er; [|done]. apply list_elem_of_lookup_2 in Hq. specialize (H q Hq Er).
  by replace (kStarvedSteps <? u64 (n - issued_at q)) with false by (symmetry; apply Z.ltb_ge; lia).
Qed.

Lemma boosted_none ps : (∀ q, q ∈ ps → boost q = 0) → boosted ps = None.
Proof.
  intros H. unfold boosted. destruct (list_find _ ps) as [[i q]|] eqn:E; [|done]. exfalso.
  apply list_find_Some in E as (Hq & HB & _). apply list_elem_of_lookup_2 in Hq. rewrite (H q Hq) in HB.
  simpl in HB. by rewrite andb_false_r in HB.
Qed.

Lemma absorb_id p rest : pc p ∉ (pc <$> rest) → absorb p rest = p.
Proof.
  induction rest as [|q rest IH]; [done|]. rewrite fmap_cons. intros [Hne Hr]%not_elem_of_cons. simpl. rewrite IH by done.
  by replace (pc q =? pc p) with false by (symmetry; apply Z.eqb_neq; congruence).
Qed.

Lemma others_id p rest : pc p ∉ (pc <$> rest) → others p rest = rest.
Proof.
  induction rest as [|q rest IH]; [done|]. rewrite fmap_cons. intros [Hne Hr]%not_elem_of_cons. unfold others in *.
  rewrite filter_cons_True by congruence. by rewrite IH.
Qed.

Lemma merge_id fuel ps : NoDup (pc <$> ps) → merge_paths fuel ps = ps.
Proof.
  revert ps. induction fuel as [|f IH]; intros [|p rest]; try done. rewrite fmap_cons. intros [H1 H2]%NoDup_cons.
  simpl. by rewrite absorb_id, others_id, IH.
Qed.

(** ** The warp in the middle of a batch *)

(** The paths between two instructions of a batch on [idx]. *)
Record calm (ps : list Path) (idx : nat) (n : Z) (p : Path) : Prop := {
  calm_here : ps !! idx = Some p;
  calm_distinct : ∀ i j q r, i ≠ j → i ≠ idx → j ≠ idx → ps !! i = Some q → ps !! j = Some r → pc q ≠ pc r;
  calm_boost : ∀ q, q ∈ ps → boost q = 0;
  calm_issued : u64 (n - issued_at p) ≤ kStarvedSteps;
  calm_runs : runnable p = true ∨ (idx = 0%nat ∧ ∀ q, q ∈ ps → runnable q = false) }.

Lemma would_switch_false ps idx n at_ : would_switch ps idx n at_ = false →
  ∀ i q, i ≠ idx → ps !! i = Some q →
    pc q ≠ at_ ∧ (runnable q = true → at_ ≤ pc q ∧ u64 (n - issued_at q) ≤ kStarvedSteps).
Proof.
  intros H i q Hi Hq. unfold would_switch in H. rewrite <- not_true_iff_false, existsb_exists in H.
  destruct (decide (pc q ≠ at_ ∧ (runnable q = true → at_ ≤ pc q ∧ u64 (n - issued_at q) ≤ kStarvedSteps))) as [|HN]; [done|].
  exfalso. apply H. exists (i, q). split.
  - apply list_elem_of_In. apply list_elem_of_lookup. exists i. by rewrite list_lookup_imap, Hq.
  - simpl. replace (Nat.eqb i idx) with false by (symmetry; by apply Nat.eqb_neq). simpl.
    destruct (Z.eqb_spec (pc q) at_); [done|]. simpl. destruct (runnable q); [|by destruct HN]. simpl.
    apply orb_true_iff. rewrite !Z.ltb_lt. destruct (Z.lt_ge_cases (pc q) at_); [by left|].
    destruct (Z.lt_ge_cases kStarvedSteps (u64 (n - issued_at q))); [by right|]. destruct HN. split; [done|]. intros _. lia.
Qed.

Lemma calm_NoDup ps idx n p : calm ps idx n p → would_switch ps idx n (pc p) = false → NoDup (pc <$> ps).
Proof.
  intros [Hp HD _ _ _] HS. pose proof (would_switch_false _ _ _ _ HS) as HF. apply NoDup_alt. intros i j x.
  rewrite !list_lookup_fmap. destruct (ps !! i) as [q|] eqn:Hi; [|done]. destruct (ps !! j) as [r|] eqn:Hj; [|done].
  simpl. intros [= <-] [= E]. destruct (decide (i = j)) as [|Hne]; [done|]. exfalso.
  destruct (decide (i = idx)) as [->|Hi']; [|destruct (decide (j = idx)) as [->|Hj']].
  - rewrite Hp in Hi. injection Hi as <-. destruct (HF j r (not_eq_sym Hne) Hj). congruence.
  - rewrite Hp in Hj. injection Hj as <-. destruct (HF i q Hi' Hi). congruence.
  - destruct (HD i j q r Hne Hi' Hj' Hi Hj). congruence.
Qed.

(** select_path picks the batch's path again. *)
Lemma select_calm w idx p : (1 < length (paths w))%nat → calm (paths w) idx (steps w) p →
  would_switch (paths w) idx (steps w) (pc p) = false → select_path w = Ret idx (stamp true idx w).
Proof.
  intros HL HC HS. pose proof (calm_NoDup _ _ _ _ HC HS) as HN. pose proof (would_switch_false _ _ _ _ HS) as HF.
  destruct HC as [Hp HD HB HI HR].
  assert (ES : ∀ q, q ∈ paths w → runnable q = true → u64 (steps w - issued_at q) ≤ kStarvedSteps).
  { intros q [i Hi]%list_elem_of_lookup Hr. destruct (decide (i = idx)) as [->|Hne].
    - rewrite Hp in Hi. injection Hi as <-. done.
    - by apply (HF i q Hne Hi). }
  assert (EL : default 0%nat (lowest_pc (paths w)) = idx).
  { destruct HR as [HR|[-> HR]].
    - rewrite (lowest_pc_is (paths w) idx p Hp HR); [done|]. intros i q Hne Hq Hr.
      destruct (HF i q Hne Hq) as [H1 H2]. destruct (H2 Hr). lia.
    - by rewrite lowest_pc_none. }
  unfold select_path, stamp, alter_path. destruct (paths w) as [|p1 [|p2 rest]] eqn:EP; [simpl in HL; lia..|].
  rewrite <- EP in *. clear EP. rewrite (merge_id _ _ HN), (boosted_none _ HB), (starved_none _ _ ES), EL, Hp.
  do 2 f_equal. apply list_eq. intros j. destruct (decide (j = idx)) as [->|Hne].
  - rewrite list_lookup_insert_eq by (by eapply lookup_lt_Some). by rewrite list_lookup_alter_eq, Hp.
  - by rewrite list_lookup_insert_ne, list_lookup_alter_ne.
Qed.

(** What select_path leaves when there is more than one path. *)
Definition key (p : Path) : Z * Parked := (pc p, parked p).

Lemma key_alter f (i : nat) (ps : list Path) : (∀ p, key (f p) = key p) → key <$> alter f i ps = key <$> ps.
Proof.
  intros H. apply list_eq. intros j. rewrite !list_lookup_fmap. destruct (decide (i = j)) as [<-|].
  - rewrite list_lookup_alter_eq. destruct (ps !! i); [|done]. simpl. by rewrite H.
  - by rewrite list_lookup_alter_ne.
Qed.

Lemma key_runnable p q : key p = key q → runnable p = runnable q.
Proof. unfold key, runnable. by intros [= _ ->]. Qed.

Lemma lowest_pc_picks ps :
  match lowest_pc ps with
  | Some b => ∃ p, ps !! b = Some p ∧ runnable p = true
  | None => ∀ q, q ∈ ps → runnable q = false
  end.
Proof.
  change (lowest_pc ps) with (foldl (lowest_step ps) None (seq 0 (length ps))).
  assert (HI : ∀ k, (k ≤ length ps)%nat →
    match foldl (lowest_step ps) None (seq 0 k) with
    | Some b => ∃ p, ps !! b = Some p ∧ runnable p = true
    | None => ∀ i q, (i < k)%nat → ps !! i = Some q → runnable q = false
    end).
  { induction k as [|k IH]; intros Hk; [simpl; lia|]. rewrite foldl_seq_S. specialize (IH ltac:(lia)).
    destruct (lookup_lt_is_Some_2 ps k) as [q Hq]; [lia|]. unfold lowest_step at 1. rewrite Hq.
    destruct (runnable q) eqn:Er.
    - destruct (foldl _ _ _) as [b|]; simpl; [|by exists q]. destruct IH as (p & Hp & Hr). rewrite Hp.
      case_if; [by exists q|by exists p].
    - destruct (foldl _ _ _) as [b|]; [done|]. intros i r Hi Hr. destruct (decide (i = k)) as [->|]; [congruence|].
      apply (IH i r); [lia|done]. }
  specialize (HI (length ps) ltac:(lia)). destruct (foldl _ _ _); [done|].
  intros q [i Hi]%list_elem_of_lookup. apply (HI i q); [by eapply lookup_lt_Some|done].
Qed.

Lemma starved_runs n ps b : starved n ps = Some b → ∃ p, ps !! b = Some p ∧ runnable p = true.
Proof.
  unfold starved. generalize (seq 0 (length ps)).
  assert (HI : ∀ L o, (∀ b, o = Some b → ∃ p, ps !! b = Some p ∧ runnable p = true) →
    foldl (λ pick i, match ps !! i with
      | Some p => if runnable p && (kStarvedSteps <? u64 (n - issued_at p))
                  then match pick ≫= λ b, ps !! b with Some q => if issued_at p <? issued_at q then Some i else pick | None => Some i end
                  else pick
      | None => pick end) o L = Some b → ∃ p, ps !! b = Some p ∧ runnable p = true).
  { induction L as [|i L IH]; intros o Ho; simpl; [apply Ho|]. apply IH. intros b'.
    destruct (ps !! i) as [p|] eqn:Hp; [|apply Ho]. destruct (runnable p && _) eqn:Er; [|apply Ho].
    apply andb_true_iff in Er as [Er _]. destruct (o ≫= _) as [q|].
    - case_if; [|apply Ho]. intros [= <-]. by exists p.
    - intros [= <-]. by exists p. }
  intros L. by apply HI.
Qed.

Lemma select_fresh w idx ps : select_path w = Ret idx (set_paths ps w) → (1 < length ps)%nat →
  NoDup (pc <$> ps) ∧ ∃ p, ps !! idx = Some p ∧ issued_at p = steps w ∧
    (runnable p = true ∨ (idx = 0%nat ∧ ∀ q, q ∈ ps → runnable q = false)).
Proof.
  intros H HL. unfold select_path in H. destruct (paths w) as [|p1 [|p2 rest]] eqn:EP.
  - simpl in H. done.
  - apply (f_equal (λ o, match o with Ret _ w => paths w | _ => [] end)) in H. simpl in H. rewrite <- H in HL. simpl in HL. lia.
  - rewrite <- EP in *. clear EP. set (ps0 := merge_paths (length (paths w)) (paths w)) in *.
    assert (HN : NoDup (pc <$> ps0)) by (by apply merge_distinct).
    set (st := match boosted ps0 with Some i => (Some i, ps0) | None => _ end) in *.
    assert (Hst : key <$> st.2 = key <$> ps0 ∧ ∀ i, st.1 = Some i → ∃ p, ps0 !! i = Some p ∧ runnable p = true).
    { unfold st. destruct (boosted ps0) as [i|] eqn:EB.
      - split; [done|]. intros i' [= <-]. unfold boosted in EB. destruct (list_find _ ps0) as [[j q]|] eqn:EF; [|done].
        injection EB as <-. apply list_find_Some in EF as (Hq & HB & _). apply andb_true_iff in HB as [HB _]. by exists q.
      - destruct (starved (steps w) ps0) as [i|] eqn:ES; simpl; [|done]. rewrite key_alter by done.
        split; [done|]. intros i' [= <-]. by apply starved_runs in ES. }
    destruct st as [pick ps1]. simpl in Hst. destruct Hst as [Hk1 Hr1].
    set (st2 := match pick with Some i => _ | None => _ end) in *.
    assert (Hst2 : key <$> st2.2 = key <$> ps0 ∧ ((∃ p, ps0 !! st2.1 = Some p ∧ runnable p = true) ∨
      (st2.1 = 0%nat ∧ ∀ q, q ∈ ps0 → runnable q = false))).
    { unfold st2. destruct pick as [i|]; simpl.
      - rewrite key_alter by done. split; [done|]. left. by apply Hr1.
      - split; [done|]. pose proof (lowest_pc_picks ps0) as HP. destruct (lowest_pc ps0); [by left|by right]. }
    destruct st2 as [b ps2]. simpl in Hst2. destruct Hst2 as [Hk2 Hr2].
    destruct (ps2 !! b) as [q|] eqn:Hq; [|done].
    assert (HPS : ps = <[b := with_issued q (steps w)]> ps2)
      by (by apply (f_equal (λ o, match o with Ret _ w => paths w | _ => [] end)) in H).
    assert (b = idx) as <- by (by apply (f_equal (λ o, match o with Ret a _ => a | _ => 0%nat end)) in H). clear H.
    assert (HK : key <$> ps = key <$> ps0).
    { rewrite HPS, list_fmap_insert, <- Hk2. apply list_insert_id. by rewrite list_lookup_fmap, Hq. }
    assert (HR : ∀ (l1 l2 : list Path) i p, key <$> l1 = key <$> l2 → l1 !! i = Some p → ∃ p', l2 !! i = Some p' ∧ key p = key p').
    { intros l1 l2 i p E Hp. assert (E' : (key <$> l1) !! i = (key <$> l2) !! i) by (by rewrite E).
      rewrite !list_lookup_fmap, Hp in E'. destruct (l2 !! i) as [p'|]; [|done]. simpl in E'. exists p'. split; [done|congruence]. }
    split.
    + assert (E : pc <$> ps = fst <$> (key <$> ps)) by (by rewrite <- list_fmap_compose).
      rewrite E, HK, <- list_fmap_compose. done.
    + exists (with_issued q (steps w)). split; [rewrite HPS; apply list_lookup_insert_eq; by eapply lookup_lt_Some|]. split; [done|].
      destruct Hr2 as [(p & Hp & Hr)|[-> Hr]].
      * left. destruct (HR ps2 ps0 b q Hk2 Hq) as (p' & Hp' & E). rewrite Hp in Hp'. injection Hp' as <-.
        rewrite <- Hr. apply key_runnable. by rewrite <- E.
      * right. split; [done|]. intros r [i Hi]%list_elem_of_lookup. destruct (HR ps ps0 i r HK Hi) as (p' & Hp' & E).
        rewrite (key_runnable _ _ E). apply Hr. by eapply list_elem_of_lookup_2.
Qed.

(** ** Warps that differ in a stamp *)

(** When a path that is the only one was last issued, and whether it waits: nothing
    reads them before select_path writes them again. *)
Definition restamp (p : Path) (k : Z) (x : Parked) : Path := with_issued (with_parked p x) k.
Definition same_but_stamp (w w' : Warp) : Prop :=
  set_paths [] w = set_paths [] w' ∧
  (paths w = paths w' ∨ ∃ p k x, paths w = [p] ∧ paths w' = [restamp p k x]).

#[export] Instance same_but_stamp_equiv : Equivalence same_but_stamp.
Proof.
  split.
  - intros w. split; [done|by left].
  - intros w w' [E H]. split; [done|]. destruct H as [H|(p & k & x & H1 & H2)]; [by left|right].
    exists (restamp p k x), (issued_at p), (parked p). split; [done|]. rewrite H1. by destruct p.
  - intros w1 w2 w3 [E1 H1] [E2 H2]. split; [congruence|].
    destruct H1 as [H1|(p & k & x & P1 & P2)]; [rewrite H1|]; [destruct H2 as [H2|(q & k' & x' & Q1 & Q2)]; [by left|right; by exists q, k', x']|].
    right. destruct H2 as [H2|(q & k' & x' & Q1 & Q2)].
    + exists p, k, x. split; [done|congruence].
    + exists p, k', x'. split; [done|]. rewrite P2 in Q1. injection Q1 as <-. by rewrite Q2.
Qed.

Lemma same_fields w w' : same_but_stamp w w' →
  state w = state w' ∧ yield_now w = yield_now w' ∧ steps w = steps w' ∧ (paths w = [] ↔ paths w' = []).
Proof.
  intros [E H]. apply (f_equal (λ w, (state w, yield_now w, steps w))) in E as E'. simpl in E'. injection E' as E1 E2 E3.
  split_and!; [done..|]. destruct H as [->|(p & k & x & -> & ->)]; done.
Qed.

Lemma set_paths_same ps w w' : set_paths [] w = set_paths [] w' → set_paths ps w = set_paths ps w'.
Proof. intros E. by apply (f_equal (set_paths ps)) in E. Qed.

Lemma same_select w w' : same_but_stamp w w' → select_path w = select_path w'.
Proof.
  intros H. destruct (same_fields w w' H) as (_ & _ & ES & _). destruct H as [E [H|(p & k & x & H1 & H2)]].
  - assert (w = w') as -> by (destruct w, w'; simpl in *; subst; injection E; intros; by subst). done.
  - unfold select_path. rewrite H1, H2, ES. f_equal. by apply set_paths_same.
Qed.

(** Outcomes that agree but for the stamp. *)
Definition agree {A} (o o' : outcome Warp A) : Prop :=
  match o, o' with
  | Ret a w, Ret a' w' => a = a' ∧ same_but_stamp w w'
  | Exn e w, Exn e' w' => e = e' ∧ same_but_stamp w w'
  | Undef, Undef => True
  | _, _ => False
  end.

#[export] Instance agree_equiv {A} : Equivalence (@agree A).
Proof.
  split.
  - intros [a w|e w|]; simpl; done.
  - intros [a w|e w|] [a' w'|e' w'|]; simpl; try done; intros [-> H]; by split.
  - intros [a w|e w|] [a' w'|e' w'|] [a2 w2|e2 w2|]; simpl; try done; intros [-> H] [-> H']; split; [done|by etrans|done|by etrans].
Qed.

Lemma same_pass c ts slice issued w w' : same_but_stamp w w' →
  pass c ts slice issued w = pass c ts slice issued w' ∨
  ∃ w1 w1', pass c ts slice issued w = Ret None w1 ∧ pass c ts slice issued w' = Ret None w1' ∧ same_but_stamp w1 w1'.
Proof.
  intros H. destruct (same_fields w w' H) as (E1 & E2 & E3 & E4). unfold pass.
  assert (HF : ∀ f, (∀ ps w, f (set_paths ps w) = set_paths ps (f w)) → (∀ w, paths (f w) = paths w) → same_but_stamp (f w) (f w')).
  { intros f F1 F2. destruct H as [E H]. split; [by rewrite <- !F1, E|by rewrite !F2]. }
  destruct (negb (slice =? 0) && (slice <=? issued)); [right; by exists w, w'|].
  unfold bind, get.
  destruct (bool_decide_reflect (paths w = [])) as [EP|EP].
  { right. rewrite bool_decide_eq_true_2 by (by apply E4). do 2 eexists. split; [done|]. split; [done|]. by apply HF. }
  rewrite (bool_decide_eq_false_2 (paths w' = [])) by (by rewrite <- E4). rewrite <- E2. destruct (yield_now w).
  { right. do 2 eexists. split; [done|]. split; [done|]. by apply HF. }
  left. by rewrite (same_select w w' H).
Qed.

Lemma same_run_loop c fuel ts slice issued w w' : same_but_stamp w w' →
  agree (run_loop c fuel ts slice issued w) (run_loop c fuel ts slice issued w').
Proof.
  destruct fuel as [|fuel]; [done|]. intros H. cbn [run_loop]. unfold bind, get.
  destruct (same_fields w w' H) as (E1 & _). rewrite <- E1. destruct (bool_decide (state w = Ready)); [|by split].
  destruct (same_pass c ts slice issued w w' H) as [E|(w1 & w1' & -> & -> & H1)]; [by rewrite E|by split].
Qed.

(** ** Rounds of the batch as passes *)

Lemma calm_stamp ps idx n p : calm ps idx n p → calm (alter (λ p, with_issued p n) idx ps) idx n (with_issued p n).
Proof.
  intros [Hp HD HB HI HR]. split.
  - by rewrite list_lookup_alter_eq, Hp.
  - intros i j q r Hij Hi Hj. rewrite !list_lookup_alter_ne by done. by apply HD.
  - intros q [j Hj]%list_elem_of_lookup. destruct (decide (j = idx)) as [->|Hne].
    + rewrite list_lookup_alter_eq, Hp in Hj. injection Hj as <-. simpl. apply HB. by eapply list_elem_of_lookup_2.
    + rewrite list_lookup_alter_ne in Hj by done. apply HB. by eapply list_elem_of_lookup_2.
  - simpl. rewrite Z.sub_diag. done.
  - destruct HR as [HR|[-> HR]]; [by left|right]. split; [done|]. intros q [j Hj]%list_elem_of_lookup.
    destruct (decide (j = 0%nat)) as [->|Hne].
    + rewrite list_lookup_alter_eq, Hp in Hj. injection Hj as <-. apply (HR p). by eapply list_elem_of_lookup_2.
    + rewrite list_lookup_alter_ne in Hj by done. apply HR. by eapply list_elem_of_lookup_2.
Qed.

Lemma calm_advance ps idx n p next : calm ps idx n p → issued_at p = n →
  calm (alter (λ p, with_pc p next) idx ps) idx (n + 1) (with_pc p next).
Proof.
  intros [Hp HD HB _ HR] HI. split.
  - by rewrite list_lookup_alter_eq, Hp.
  - intros i j q r Hij Hi Hj. rewrite !list_lookup_alter_ne by done. by apply HD.
  - intros q [j Hj]%list_elem_of_lookup. destruct (decide (j = idx)) as [->|Hne].
    + rewrite list_lookup_alter_eq, Hp in Hj. injection Hj as <-. simpl. apply HB. by eapply list_elem_of_lookup_2.
    + rewrite list_lookup_alter_ne in Hj by done. apply HB. by eapply list_elem_of_lookup_2.
  - simpl. rewrite HI. replace (n + 1 - n) with 1 by lia. done.
  - destruct HR as [HR|[-> HR]]; [by left|right]. split; [done|]. intros q [j Hj]%list_elem_of_lookup.
    destruct (decide (j = 0%nat)) as [->|Hne].
    + rewrite list_lookup_alter_eq, Hp in Hj. injection Hj as <-. apply (HR p). by eapply list_elem_of_lookup_2.
    + rewrite list_lookup_alter_ne in Hj by done. apply HR. by eapply list_elem_of_lookup_2.
Qed.

Lemma steady_batch_iter c ts w u p : steady (batch_iter c ts w u p).
Proof.
  unfold batch_iter. apply steady_if.
  - destruct (micro_guard w u (mask p)); [|done]. repeat case_if; done.
  - apply steady_bind; [apply steady_exec_micro|done].
Qed.

Section batch.
Context (c : Cfg) (HW : (1 ≤ W c ≤ 64)%nat) (isp : Reg → bool) (HS : sregs_ok c).
Context (lanes : Z) (n32 n64 : nat) (HO : prog_ok c isp n32 n64).
#[local] Abbreviation W := (W c).
#[local] Abbreviation good := (wf_warp c lanes n32 n64).
#[local] Abbreviation slow := (slow c).

(** With no slice the count of issued instructions is not read. *)
Lemma slow_pass_count ts i j w : pass slow ts 0 i w =
  match pass slow ts 0 j w with Ret (Some _) w' => Ret (Some i) w' | o => o end.
Proof.
  unfold pass. simpl. unfold bind, get. destruct (bool_decide (paths w = [])); [done|].
  destruct (yield_now w); [done|]. destruct (select_path w) as [idx w1|e w1|]; [|done..].
  destruct (path_at idx w1) as [p w2|e w2|]; [|done..]. destruct (nth_z (body c) (pc p)) as [ins|]; simpl.
  - by destruct (issue slow ts idx ins w2) as [[] ?| |].
  - by destruct (exec_ret idx (mask p) w2) as [[] ?| |].
Qed.

Lemma slow_loop_count fuel ts i j w : run_loop slow fuel ts 0 i w = run_loop slow fuel ts 0 j w.
Proof.
  revert i j w. induction fuel as [|fuel IH]; intros i j w; [done|]. cbn [run_loop]. unfold bind, get.
  destruct (bool_decide (state w = Ready)); [|done]. rewrite (slow_pass_count ts i j w).
  destruct (pass slow ts 0 j w) as [[k|] w'|e w'|]; [apply IH|done..].
Qed.

(** The general loop's pass, when it goes on to issue. *)
Lemma slow_pass ts slice issued w idx p ins w1 : (negb (slice =? 0) && (slice <=? issued)) = false →
  paths w ≠ [] → yield_now w = false → select_path w = Ret idx w1 → paths w1 !! idx = Some p →
  nth_z (body c) (pc p) = Some ins →
  pass slow ts slice issued w =
    match issue slow ts idx ins w1 with
    | Ret _ w2 => Ret (Some (if slice =? 0 then issued else issued + 1)) w2
    | Exn e w2 => Exn e w2
    | Undef => Undef
    end.
Proof.
  intros E1 E2 E3 E4 E5 E6. unfold pass. rewrite E1. unfold bind, get. rewrite bool_decide_eq_false_2, E3, E4 by done.
  unfold path_at. rewrite E5. simpl. rewrite E6. simpl. by destruct (issue slow ts idx ins w1) as [[] ?| |].
Qed.

Lemma batch_iter_ctl ts w idx p ins x w3 : good w → paths w !! idx = Some p → nth_z (body c) (pc p) = Some ins →
  mk (decode ins) ≠ MNone → batch_iter c ts w (decode ins) p w = Ret x w3 →
  paths w3 = paths w ∧ steps w3 = steps w ∧ yield_now w3 = yield_now w ∧ state w3 = state w.
Proof.
  intros Hw Hp Hi Hk. pose proof (good_path c lanes n32 n64 w idx p Hw Hp) as Hpath. assert (HR : wf_regs c w) by apply Hw.
  assert (Ho := op_ok_at c isp lanes n32 n64 HO w p ins Hw Hi). unfold batch_iter. case_bool_decide.
  - destruct (micro_guard w (decode ins) (mask p)); [|by intros [= _ <-]]. repeat case_if; by intros [= _ <-].
  - unfold bind. destruct (exec_micro_tier c HW isp HS w (mask p) HR (path_mask _ _ Hpath) ins Ho Hk) as [->| ->];
      [by intros [= _ <-]|].
    unfold plain_step, bind. destruct (guard c ins (mask p) w) as [fm w1|e w1|] eqn:EG; [|done..].
    destruct (guard_lanes c HW isp ins (mask p) w fm w1 HR (path_mask _ _ Hpath) EG) as (-> & Hf & _). unfold when.
    destruct (negb (fm =? 0)); [|by intros [= _ <-]].
    pose proof (general_spec c HW isp HS w fm HR Hf (op ins) Ho) as HH.
    destruct (general c (op ins) fm w) as [[] w1|e w1|]; [|done..]. intros [= _ <-].
    destruct HH as (_ & HC & _). unfold ctl in HC. by injection HC.
Qed.

Definition after_iter (y : bool) (idx : nat) (next : Z) (w : Warp) : Warp :=
  if y then set_yield true (advance idx next w) else advance idx next w.

(** An iteration of the batch against the general loop at the same place. *)
Lemma slow_round ts idx ins next y w1 p1 w3 ws ps : good w1 → paths w1 !! idx = Some p1 → nth_z (body c) (pc p1) = Some ins →
  mk (decode ins) ≠ MNone → steps w1 + 1 ≤ max_steps c → batch_iter c ts w1 (decode ins) p1 w1 = Ret (Some (next, y)) w3 →
  same_but_stamp w1 ws → good ws → paths ws !! idx = Some ps → place ps = place p1 →
  ∃ Ws, issue slow ts idx ins ws = Ret tt Ws ∧ same_but_stamp (after_iter y idx next w3) Ws.
Proof.
  intros G1 Hp1 Hi Hk HM HI HSS Gs Hps Hpl.
  destruct (batch_iter_ctl ts w1 idx p1 ins _ w3 G1 Hp1 Hi Hk HI) as (P3 & S3 & _).
  destruct (same_fields _ _ HSS) as (_ & _ & ES & _). destruct HSS as [E HP].
  assert (EW : ws = set_ctl (paths ws) (steps w1) w1).
  { etrans; [|exact (eq_sym (set_paths_same (paths ws) _ _ E))]. by destruct ws. }
  assert (ER : regs_of ws = regs_of w1) by (rewrite EW; done).
  assert (HB : batch_iter c ts ws (decode ins) ps ws = Ret (Some (next, y)) (set_ctl (paths ws) (steps w1) w3)).
  { rewrite <- (batch_iter_pc c ts w1 ws (decode ins) p1 ps Hpl (eq_sym ES) ER).
    rewrite EW at 1. by rewrite (steady_batch_iter c ts w1 (decode ins) p1), HI. }
  assert (Hi' : nth_z (body c) (pc ps) = Some ins) by (unfold place in Hpl; injection Hpl as -> _; done).
  pose proof (batch_iter_issue c HW isp HS lanes n32 n64 HO ts ws idx ps ins next y _ Gs Hps Hi' Hk ltac:(lia) HB) as HX.
  eexists. split; [exact HX|].
  assert (HA : same_but_stamp (advance idx next w3) (advance idx next (set_ctl (paths ws) (steps w1) w3))).
  { split; [unfold advance, alter_path, set_ctl; simpl; by rewrite S3|]. unfold advance, alter_path, set_ctl. simpl. rewrite P3.
    destruct HP as [->|(p & k & x & -> & ->)]; [by left|]. right.
    destruct idx; simpl; [by exists (with_pc p next), k, x|by exists p, k, x]. }
  unfold after_iter. destruct y; [|done]. destruct HA as [HA1 HA2]. split; [|done].
  by apply (f_equal (set_yield true)) in HA1.
Qed.

(** One or several paths, what the batch's next instruction starts from is what
    select_path gives the general loop. *)
Definition in_batch (w : Warp) (idx : nat) : Prop :=
  (idx < length (paths w))%nat ∧ ((1 < length (paths w))%nat → ∃ p, calm (paths w) idx (steps w) p).

Lemma select_in_batch w idx p : good w → in_batch w idx → paths w !! idx = Some p →
  (1 <? Z.of_nat (length (paths w))) && would_switch (paths w) idx (steps w) (pc p) = false →
  let w1 := stamp (1 <? Z.of_nat (length (paths w))) idx w in
  ∃ ws ps, select_path w = Ret idx ws ∧ same_but_stamp w1 ws ∧ good ws ∧ paths ws !! idx = Some ps ∧ place ps = place p.
Proof.
  intros Hw [Hi HC] Hp HS1. cbv zeta.
  assert (HGS : ∀ ws, select_path w = Ret idx ws → good ws).
  { intros ws E. destruct (select_path_ok c HW isp lanes n32 n64 w Hw) as (j & ps & E' & _ & G & _); [by intros EP; rewrite EP in Hp|].
    rewrite E in E'. by injection E' as -> ->. }
  destruct (Z.ltb_spec 1 (Z.of_nat (length (paths w)))) as [HL|HL].
  - destruct (HC ltac:(lia)) as [p' HC']. assert (p' = p) as -> by (pose proof (calm_here _ _ _ _ HC'); congruence).
    pose proof (select_calm w idx p ltac:(lia) HC' HS1) as E. exists (stamp true idx w), (with_issued p (steps w)).
    split; [done|]. split; [done|]. split; [by apply HGS|]. split; [|done]. simpl. by rewrite list_lookup_alter_eq, Hp.
  - assert (HO1 : paths w = [p] ∧ idx = 0%nat).
    { destruct (paths w) as [|q [|q' rest]]; [simpl in Hi; lia| |simpl in HL; lia]. destruct idx; [|simpl in Hi; lia]. by injection Hp as ->. }
    destruct HO1 as [EP ->]. eexists _, (restamp p (steps w) kRunnable). 
    assert (E : select_path w = Ret 0%nat (set_paths [restamp p (steps w) kRunnable] w)) by (unfold select_path; by rewrite EP).
    split; [exact E|]. split; [|split; [by apply HGS|done]]. simpl. split; [done|]. right. by exists p, (steps w), kRunnable.
Qed.

(** A path stamped twice in a pass is stamped once. *)
Lemma stamp_twice w idx p : paths w !! idx = Some p → stamp true idx (stamp true idx w) = stamp true idx w.
Proof.
  intros Hp. set (f := λ p, with_issued p (steps w)).
  assert (E : alter f idx (alter f idx (paths w)) = alter f idx (paths w)).
  { apply list_eq. intros j. destruct (decide (j = idx)) as [->|Hne]; [by rewrite !list_lookup_alter_eq, Hp|].
    by rewrite !list_lookup_alter_ne. }
  unfold stamp, alter_path. simpl. fold f. rewrite E. by destruct w.
Qed.

Lemma would_switch_stamp ps idx n at_ f : would_switch (alter f idx ps) idx n at_ = would_switch ps idx n at_.
Proof.
  unfold would_switch.
  assert (HG : ∀ (g : nat → Path → bool) (l1 l2 : list Path) k, length l1 = length l2 →
    (∀ i q1 q2, l1 !! i = Some q1 → l2 !! i = Some q2 → g (k + i)%nat q1 = g (k + i)%nat q2) →
    existsb (λ iq : nat * Path, g iq.1 iq.2) (imap (λ i, pair (k + i)%nat) l1) = existsb (λ iq : nat * Path, g iq.1 iq.2) (imap (λ i, pair (k + i)%nat) l2)).
  { intros g. induction l1 as [|q1 l1 IH]; intros [|q2 l2] k HL H; try done. simpl. f_equal; [by apply (H 0%nat)|].
    assert (EI : ∀ l : list Path, imap ((λ i, pair (k + i)%nat) ∘ S) l = imap (λ i, pair (S k + i)%nat) l).
    { intros l. apply imap_ext. intros i x _. simpl. f_equal. lia. }
    rewrite !EI. apply IH; [by injection HL|]. intros i r1 r2 H1 H2. replace (S k + i)%nat with (k + S i)%nat by lia. by apply H. }
  apply (HG (λ i q, negb (Nat.eqb i idx) && ((pc q =? at_) || (runnable q && ((pc q <? at_) || (kStarvedSteps <? u64 (n - issued_at q)))))) _ _ 0%nat).
  - apply length_alter.
  - intros i q1 q2 H1 H2. simpl. destruct (decide (i = idx)) as [->|Hne]; [by rewrite Nat.eqb_refl|].
    rewrite list_lookup_alter_ne in H1 by done. congruence.
Qed.

(** The slice is not used up, and the general loop goes on: its result from a warp
    is its result from any other on which select_path does the same. *)
Lemma slow_loop_select f ts slice issued w w' : (negb (slice =? 0) && (slice <=? issued)) = false →
  state w = Ready → state w' = Ready → paths w ≠ [] → paths w' ≠ [] → yield_now w = false → yield_now w' = false →
  select_path w = select_path w' →
  run_loop slow f ts slice issued w = run_loop slow f ts slice issued w'.
Proof.
  intros E1 S1 S2 P1 P2 Y1 Y2 E. destruct f as [|f]; [done|]. cbn [run_loop]. unfold bind at 1 3, get.
  rewrite S1, S2. simpl. unfold bind. unfold pass. rewrite E1. unfold bind, get.
  by rewrite !bool_decide_eq_false_2, Y1, Y2, E by done.
Qed.

Lemma in_batch_advance w idx p next w3 : in_batch w idx → paths w !! idx = Some p →
  paths w3 = paths (stamp (1 <? Z.of_nat (length (paths w))) idx w) → steps w3 = steps w →
  in_batch (advance idx next w3) idx.
Proof.
  intros [Hi HC] Hp P3 S3. unfold in_batch, advance, alter_path. simpl. rewrite !length_alter, P3, S3.
  unfold stamp. destruct (Z.ltb_spec 1 (Z.of_nat (length (paths w)))) as [HL|HL]; simpl; rewrite ?length_alter.
  - split; [done|]. intros _. destruct (HC ltac:(lia)) as [p' HC'].
    eexists. apply calm_advance; [by apply calm_stamp|done].
  - split; [done|]. lia.
Qed.

Lemma after_iter_good ts w1 idx p1 ins next y w3 : good w1 → state w1 = Ready → paths w1 !! idx = Some p1 →
  nth_z (body c) (pc p1) = Some ins → mk (decode ins) ≠ MNone →
  batch_iter c ts w1 (decode ins) p1 w1 = Ret (Some (next, y)) w3 →
  good (advance idx next w3) ∧ state (advance idx next w3) = Ready.
Proof.
  intros G S Hp Hi Hk HI.
  pose proof (batch_iter_ok c HW isp HS lanes n32 n64 HO ts w1 idx p1 ins G S Hp Hi Hk) as H. rewrite HI in H.
  destruct H as ((? & _) & ? & _). done.
Qed.

(** From the second instruction of a batch on: as many passes of the general loop. *)
Lemma batch_rest fuel ts slice idx n issued w w' n' i' w2 : 1 ≤ n → good w → state w = Ready → yield_now w = false →
  in_batch w idx → same_but_stamp w w' → batch_loop c fuel ts slice idx n issued w = Ret (n', i') w2 →
  ∃ k, ∀ f, agree (run_loop slow (k + f) ts slice issued w') (run_loop slow f ts slice i' w2).
Proof.
  revert n issued w w'. induction fuel as [|fuel IH]; intros n issued w w' Hn Hw Hst Hy HJ HSS; [done|].
  assert (Hstop : Ret (n, issued) w = Ret (n', i') w2 → ∃ k, ∀ f, agree (run_loop slow (k + f) ts slice issued w') (run_loop slow f ts slice i' w2)).
  { intros [= <- <- <-]. exists 0%nat. intros f. apply same_run_loop. by symmetry. }
  destruct (lookup_lt_is_Some_2 (paths w) idx (proj1 HJ)) as [p Hp].
  destruct (nth_z (micro c) (pc p)) as [u|] eqn:EU.
  2: { cbn [batch_loop]. unfold bind at 1, get. unfold bind at 1, path_at. rewrite Hp. cbv zeta. by rewrite EU. }
  rewrite (batch_loop_S _ _ _ _ _ _ _ _ p u) by done. cbv zeta.
  destruct (_ || _) eqn:EC; [done|]. rewrite !orb_false_iff in EC. destruct EC as [[[EK ES] EM] EW].
  apply bool_decide_eq_false in EK. apply Z.ltb_ge in EM.
  assert (Hn0 : (n =? 0) = false) by (apply Z.eqb_neq; lia). rewrite Hn0 in ES, EW |- *. simpl negb in *.
  rewrite andb_true_l in ES. rewrite !andb_true_r in EW |- *.
  unfold micro, build_micro in EU. rewrite nth_z_fmap in EU. destruct (nth_z (body c) (pc p)) as [ins|] eqn:EI; [|done].
  injection EU as <-. set (w1 := stamp (1 <? Z.of_nat (length (paths w))) idx w).
  destruct (stamp_ok c isp lanes n32 n64 (1 <? Z.of_nat (length (paths w))) w idx p Hw Hp) as (G1 & _ & p1 & Hp1 & E1).
  destruct (stamp_regs (1 <? Z.of_nat (length (paths w))) idx w) as (R1 & T1 & S1 & L1). fold w1 in G1, Hp1, R1, T1, S1, L1.
  rewrite (batch_iter_pc c ts w w1 (decode ins) p p1) by done.
  assert (EI1 : nth_z (body c) (pc p1) = Some ins) by (unfold place in E1; injection E1 as -> _; done).
  assert (Y1 : yield_now w1 = false) by (unfold w1, stamp; by destruct (1 <? _)).
  destruct (select_in_batch w idx p Hw HJ Hp EW) as (ws & ps & Esel & HS1 & Gs & Hps & Epl). fold w1 in HS1.
  assert (Hne : ∀ v q, paths v !! idx = Some q → paths v ≠ []) by (intros v q E EP; by rewrite EP in E).
  assert (Hst1 : state w1 = Ready) by (by rewrite T1).
  destruct (batch_iter c ts w1 (decode ins) p1 w1) as [[[next y]|] w3|e w3|] eqn:EB; [| |done..].
  - destruct (batch_iter_ctl ts w1 idx p1 ins _ w3 G1 Hp1 EI1 EK EB) as (P3 & S3 & Y3 & T3).
    destruct (slow_round ts idx ins next y w1 p1 w3 ws ps G1 Hp1 EI1 EK ltac:(lia) EB HS1 Gs Hps ltac:(congruence)) as (Ws & HI & HA).
    destruct (same_fields _ _ HSS) as (F1 & F2 & F3 & F4).
    assert (HP : pass slow ts slice issued w' = Ret (Some (if slice =? 0 then issued else issued + 1)) Ws).
    { rewrite (slow_pass ts slice issued w' idx ps ins ws); [by rewrite HI|done|by rewrite <- F4; apply (Hne w p)|congruence| |done|].
      - by rewrite <- (same_select _ _ HSS).
      - unfold place in Epl. injection Epl as -> _. done. }
    assert (HL : ∀ k f, run_loop slow (S k + f) ts slice issued w' = run_loop slow (k + f) ts slice (issued + 1) Ws).
    { intros k f. cbn [run_loop Nat.add]. unfold bind, get. rewrite <- F1, Hst. simpl. rewrite HP.
      destruct (Z.eqb_spec slice 0) as [->|]; [|done]. apply slow_loop_count. }
    destruct y.
    + intros [= <- <- <-]. exists 1%nat. intros f. rewrite (HL 0%nat f). apply same_run_loop. by symmetry.
    + intros HB. destruct (after_iter_good ts w1 idx p1 ins next false w3 G1 Hst1 Hp1 EI1 EK EB) as [GA SA].
      destruct (IH (n + 1) (issued + 1) (advance idx next w3) Ws) as [k Hk]; try done; [lia| | |].
      * simpl. by rewrite Y3.
      * apply (in_batch_advance w idx p next w3 HJ Hp); [done|congruence].
      * exists (S k). intros f. rewrite (HL k f). apply Hk.
  - pose proof (batch_iter_ok c HW isp HS lanes n32 n64 HO ts w1 idx p1 ins G1 Hst1 Hp1 EI1 EK) as HN. rewrite EB in HN. subst w3.
    intros [= <- <- <-]. exists 0%nat. intros f. simpl. transitivity (run_loop slow f ts slice issued w); [apply same_run_loop; by symmetry|].
    apply reflexive_eq. apply slow_loop_select; try done; [by apply (Hne w p)|by apply (Hne w1 p1)|].
    destruct HJ as [_ HC]. unfold w1 in *. destruct (Z.ltb_spec 1 (Z.of_nat (length (paths w)))) as [HL|HL]; [|done].
    destruct (HC ltac:(lia)) as [p' HC']. assert (p' = p) as -> by (pose proof (calm_here _ _ _ _ HC'); congruence).
    rewrite andb_true_l in EW. rewrite (select_calm w idx p), (select_calm (stamp true idx w) idx (with_issued p (steps w))); try done; try lia.
    + by rewrite (stamp_twice w idx p).
    + simpl. by apply calm_stamp.
    + simpl. by rewrite would_switch_stamp.
Qed.

Lemma batch_loop_no_exn fuel ts slice idx n issued w e w' : batch_loop c fuel ts slice idx n issued w ≠ Exn e w'.
Proof.
  revert n issued w. induction fuel as [|fuel IH]; intros n issued w; [done|].
  destruct (paths w !! idx) as [p|] eqn:Hp.
  2: { cbn [batch_loop]. unfold bind at 1, get. unfold bind at 1, path_at. by rewrite Hp. }
  destruct (nth_z (micro c) (pc p)) as [u|] eqn:EU.
  2: { cbn [batch_loop]. unfold bind at 1, get. unfold bind at 1, path_at. rewrite Hp. cbv zeta. by rewrite EU. }
  rewrite (batch_loop_S _ _ _ _ _ _ _ _ p u) by done. cbv zeta. destruct (_ || _); [done|].
  destruct (batch_iter _ _ _ _ _ _) as [[[next []]|] w1|e' w1|] eqn:EB; try done; try apply IH.
  by apply batch_iter_no_exn in EB.
Qed.

(** A batch as passes, its first instruction included. *)
Lemma batch_is_passes ts slice idx issued w p ins n' i' w2 : good w → state w = Ready → yield_now w = false →
  in_batch w idx → paths w !! idx = Some p → ((1 < length (paths w))%nat → issued_at p = steps w) →
  nth_z (body c) (pc p) = Some ins → n' ≠ 0 →
  batch_loop c (S (Z.to_nat (max_steps c - steps w))) ts slice idx 0 issued w = Ret (n', i') w2 →
  ∃ k Ws, issue slow ts idx ins w = Ret tt Ws ∧ ∀ f, agree (run_loop slow (k + f) ts slice issued Ws) (run_loop slow f ts slice i' w2).
Proof.
  intros Hw Hst Hy HJ Hp HQ Hi Hn.
  assert (EU : nth_z (micro c) (pc p) = Some (decode ins)) by (unfold micro, build_micro; by rewrite nth_z_fmap, Hi).
  rewrite (batch_loop_S _ _ _ _ _ _ _ _ p (decode ins)) by done. cbv zeta. rewrite !andb_false_r. simpl negb. simpl andb.
  destruct (_ || _) eqn:EC; [by intros [= <- _ _]|]. rewrite !orb_false_iff in EC. destruct EC as [[[EK _] EM] _].
  apply bool_decide_eq_false in EK. apply Z.ltb_ge in EM. unfold stamp. cbn [Z.eqb].
  destruct (batch_iter c ts w (decode ins) p w) as [[[next y]|] w3|e w3|] eqn:EB; [|by intros [= <- _ _]|done..].
  destruct (batch_iter_ctl ts w idx p ins _ w3 Hw Hp Hi EK EB) as (P3 & S3 & Y3 & T3).
  destruct (slow_round ts idx ins next y w p w3 w p Hw Hp Hi EK ltac:(lia) EB (reflexivity _) Hw Hp eq_refl) as (Ws & HI & HA).
  destruct y.
  - intros [= <- <- <-]. exists 0%nat, Ws. split; [done|]. intros f. apply same_run_loop. by symmetry.
  - intros HB. destruct (after_iter_good ts w idx p ins next false w3 Hw Hst Hp Hi EK EB) as [GA SA].
    destruct (batch_rest (Z.to_nat (max_steps c - steps w)) ts slice idx 1 issued (advance idx next w3) Ws n' i' w2) as [k Hk]; try done.
    + simpl. by rewrite Y3.
    + unfold in_batch, advance, alter_path. simpl. rewrite !length_alter, P3, S3. split; [apply HJ|]. intros HL.
      destruct (proj2 HJ HL) as [p' HC]. assert (p' = p) as -> by (pose proof (calm_here _ _ _ _ HC); congruence).
      eexists. by apply calm_advance, HQ.
    + exists k, Ws. split; [done|]. apply Hk.
Qed.

(** The rest of the general loop after a pass of the fast one. *)
Definition go_on (f : nat) (ts slice : Z) (o : outcome Warp (option Z)) : outcome Warp unit :=
  match o with
  | Ret (Some i) w => run_loop slow f ts slice i w
  | Ret None w => Ret tt w
  | Exn e w => Exn e w
  | Undef => Undef
  end.

Lemma run_loop_go_on f ts slice issued w : state w = Ready →
  run_loop slow (S f) ts slice issued w = go_on f ts slice (pass slow ts slice issued w).
Proof.
  intros Hst. cbn [run_loop]. unfold bind, get. rewrite Hst. simpl.
  by destruct (pass slow ts slice issued w) as [[]| |].
Qed.

Lemma pass_is_passes ts slice issued w : good w → state w = Ready →
  ∃ k, ∀ f, agree (run_loop slow (S k + f) ts slice issued w) (go_on f ts slice (pass c ts slice issued w)).
Proof.
  intros Hw Hst.
  assert (HK : pass slow ts slice issued w = pass c ts slice issued w →
    ∃ k, ∀ f, agree (run_loop slow (S k + f) ts slice issued w) (go_on f ts slice (pass c ts slice issued w))).
  { intros <-. exists 0%nat. intros f. cbn [Nat.add]. by rewrite run_loop_go_on. }
  destruct ((negb (slice =? 0) && (slice <=? issued))) eqn:E1; [apply HK; unfold pass; by rewrite E1|].
  destruct (bool_decide_reflect (paths w = [])) as [EP|EP].
  { apply HK. unfold pass. rewrite E1. unfold bind, get. by rewrite bool_decide_eq_true_2. }
  destruct (yield_now w) eqn:EY.
  { apply HK. unfold pass. rewrite E1. unfold bind, get. by rewrite bool_decide_eq_false_2, EY. }
  destruct (select_path_ok c HW isp lanes n32 n64 w Hw EP) as (idx & ps & E & Hi & G & _).
  set (w1 := set_paths ps w) in *. destruct (lookup_lt_is_Some_2 ps idx) as [p Hp]; [lia|].
  assert (Hp1 : paths w1 !! idx = Some p) by done.
  destruct (nth_z (body c) (pc p)) as [ins|] eqn:EI.
  2: { apply HK. unfold pass. rewrite E1. unfold bind, get. rewrite bool_decide_eq_false_2, EY, E by done.
       unfold path_at. rewrite Hp1. by simpl; rewrite EI. }
  set (iss := if slice =? 0 then issued else issued + 1).
  assert (ES : pass slow ts slice issued w =
    match issue slow ts idx ins w1 with Ret _ w2 => Ret (Some iss) w2 | Exn e w2 => Exn e w2 | Undef => Undef end)
    by (by apply (slow_pass ts slice issued w idx p ins w1)).
  assert (EF : pass c ts slice issued w =
    match (if fast_enabled c then run_micro_batch c ts slice idx iss else ret (0, iss)) w1 with
    | Ret nb w2 => if nb.1 =? 0 then match issue c ts idx ins w2 with Ret _ w3 => Ret (Some iss) w3 | Exn e w3 => Exn e w3 | Undef => Undef end
                   else Ret (Some nb.2) w2
    | Exn e w2 => Exn e w2 | Undef => Undef end).
  { unfold pass. rewrite E1. unfold bind, get. rewrite bool_decide_eq_false_2, EY, E by done. unfold path_at. rewrite Hp1, EI.
    set (mb := if fast_enabled c then run_micro_batch c ts slice idx iss else ret (0, iss)).
    fold iss. fold mb. destruct (mb w1) as [[n i'] w2| |]; [|done..]. cbn [fst snd]. destruct (n =? 0); [|done].
    by destruct (issue c ts idx ins w2) as [[] ?| |]. }
  assert (H0 : issue c ts idx ins w1 = issue slow ts idx ins w1) by (by apply (issue_is_slow c HW isp HS lanes n32 n64 HO ts idx ins w1 p)).
  destruct (fast_enabled c); [|apply HK; rewrite ES, EF; cbn [fst snd]; by rewrite <- H0].
  pose proof (run_micro_batch_ok c HW isp HS lanes n32 n64 HO ts slice idx iss w1 G Hst ltac:(simpl; lia)) as HB.
  destruct (run_micro_batch c ts slice idx iss w1) as [[n' i'] w2|e w2|] eqn:ER; [| |done].
  2: { exfalso. unfold run_micro_batch, bind, get in ER. destruct ((1 <? _) && _) in ER; [done|]. by apply batch_loop_no_exn in ER. }
  cbn [fst snd] in EF. destruct (Z.eqb_spec n' 0) as [->|Hn].
  { destruct HB as (_ & _ & _ & _ & _ & HZ). rewrite (HZ eq_refl), H0 in EF. apply HK. by rewrite ES, EF. }
  unfold run_micro_batch, bind, get in ER. destruct ((1 <? Z.of_nat (length (paths w1))) && negb (batch_ok w1 idx)) eqn:EB; [by injection ER as <- _ _|].
  assert (HF : (1 < length (paths w1))%nat → NoDup (pc <$> ps) ∧ issued_at p = steps w ∧
    (runnable p = true ∨ (idx = 0%nat ∧ ∀ q, q ∈ ps → runnable q = false))).
  { intros HL. destruct (select_fresh w idx ps E HL) as (HN & p' & Hp' & H1 & H2). assert (p' = p) as -> by congruence. done. }
  assert (HJ : in_batch w1 idx).
  { split; [simpl; lia|]. intros HL. exists p. destruct (HF HL) as (HN & HQ & HR).
    replace (1 <? Z.of_nat (length (paths w1))) with true in EB by (symmetry; apply Z.ltb_lt; lia). simpl in EB.
    apply negb_false_iff in EB. unfold batch_ok in EB. apply andb_true_iff in EB as [_ EB]. split; try done.
    - intros i j q r Hij _ _ Hq Hr EQ. apply Hij. apply (NoDup_lookup (pc <$> ps) i j (pc q) HN); rewrite list_lookup_fmap.
      + simpl in Hq. by rewrite Hq.
      + simpl in Hr. by rewrite Hr, EQ.
    - intros q Hq. rewrite forallb_forall in EB. apply Z.eqb_eq. apply EB. by apply list_elem_of_In.
    - rewrite HQ. simpl. by rewrite Z.sub_diag. }
  destruct (batch_is_passes ts slice idx iss w1 p ins n' i' w2 G Hst EY HJ Hp1 ltac:(intros HL; by destruct (HF HL) as (_ & ? & _)) EI Hn ER)
    as (k & Ws & HI & Hk).
  exists k. intros f. cbn [Nat.add]. rewrite run_loop_go_on, ES, HI by done. rewrite EF. simpl. apply Hk.
Qed.

(** ** A whole turn *)

Lemma loop_is_slow fuel ts slice issued w : good w → settled c w → run_loop c fuel ts slice issued w ≠ Undef →
  ∃ F, agree (run_loop slow F ts slice issued w) (run_loop c fuel ts slice issued w).
Proof.
  revert issued w. induction fuel as [|fuel IH]; intros issued w Hw HT HN; [done|]. cbn [run_loop] in *.
  unfold bind at 1, get in HN. unfold bind at 1, get.
  destruct (bool_decide_reflect (state w = Ready)) as [Hst|Hst].
  2: { exists 1%nat. cbn [run_loop]. unfold bind, get. by rewrite bool_decide_eq_false_2. }
  destruct (pass_is_passes ts slice issued w Hw Hst) as [k Hk].
  pose proof (pass_ok c HW isp HS lanes n32 n64 HO ts slice issued w Hw Hst) as HP.
  unfold bind in HN |- *. destruct (pass c ts slice issued w) as [[i'|] w1|e w1|]; [| |by exists (S k + 0)%nat; apply Hk|done].
  - destruct HP as ((G & _ & T) & _). destruct (IH i' w1 G T HN) as [F HF]. exists (S k + F)%nat. etrans; [apply Hk|exact HF].
  - exists (S k + 0)%nat. apply Hk.
Qed.

Lemma good_slow w : good w → wf_warp slow lanes n32 n64 w.
Proof.
  intros [[] H2 H3 H4 H5 H6]. split; try done. eapply Forall_impl; [exact H5|]. by intros p [].
Qed.

Lemma turn_is_slow slice w : good w → settled c w →
  agree (run_warp_until_yield slow slice w) (run_warp_until_yield c slice w).
Proof.
  intros Hw HT.
  pose proof (turn_ok c HW isp HS lanes n32 n64 HO slice w Hw HT) as H1.
  pose proof (turn_ok slow HW isp HS lanes n32 n64 HO slice w (good_slow w Hw) HT) as H2.
  unfold run_warp_until_yield, bind, get, modify in *. fold (turn_start_warp w) in *.
  destruct (turn_start_ok c isp lanes n32 n64 w Hw HT) as (G & _ & S).
  change (loop_fuel slow w) with (loop_fuel c w) in *.
  destruct (loop_is_slow (loop_fuel c w) (steps w) slice 0 (turn_start_warp w) G S) as [F HF].
  { intros E. by rewrite E in H1. }
  assert (HE : run_loop slow F (steps w) slice 0 (turn_start_warp w) = run_loop slow (loop_fuel c w) (steps w) slice 0 (turn_start_warp w)).
  { destruct (Nat.le_ge_cases F (loop_fuel c w)) as [L|L].
    - replace (loop_fuel c w) with (F + (loop_fuel c w - F))%nat by lia. symmetry. apply run_loop_more.
      intros E. rewrite E in HF. destruct (run_loop c _ _ _ _ _); done.
    - replace F with (loop_fuel c w + (F - loop_fuel c w))%nat by lia. apply run_loop_more. intros E. by rewrite E in H2. }
  by rewrite <- HE.
Qed.
End batch.
