(* ===== verification/Block.v ===== *)
(** * A block of warps (src/exec/interpreter.cpp)

    setup_block, step_block and run_block: a block's warps take turns, picked by a
    scheduler ([Picker], which the three schedulers of [Scheduler] implement), and
    those waiting at a barrier go on when no warp can run. What setup_block makes of
    shared memory, and the collectives step_block completes with a barrier, are left
    out with the instructions that use them; so are counted barriers. *)

From stdpp Require Import sorting.
From S2P Require Import Prelude Scheduler Alu Isa Warp Lanes Thread Handlers Tiers Simt Turn Passes.

(** ** Threads of a block *)

Record Launch := mkLaunch {
  l_width : nat; l_body : list Instr; l_regs32 : nat; l_regs64 : nat;
  l_max_steps : Z; l_strict : bool; l_fast : bool;
  ntid : Z * Z * Z; ctaid : Z * Z * Z; nctaid : Z * Z * Z }.

(** The lanes' ids, by counting up from the warp's first thread. *)
Fixpoint id_loop (L : list nat) (first total nx ny x y z live : Z) (tids : list (Z * Z * Z)) : Z * list (Z * Z * Z) :=
  match L with
  | [] => (live, tids)
  | lane :: L =>
      if total <=? first + Z.of_nat lane then (live, tids)
      else
        let live := Z.lor live (Z.shiftl 1 (Z.of_nat lane)) in
        let tids := <[lane := (x, y, z)]> tids in
        let x := u32 (x + 1) in
        if x =? nx then
          let y := u32 (y + 1) in
          if y =? ny then id_loop L first total nx ny 0 0 (u32 (z + 1)) live tids
          else id_loop L first total nx ny 0 y z live tids
        else id_loop L first total nx ny x y z live tids
  end.

Section block.
Context (g : Launch).

Definition nx : Z := (ntid g).1.1.
Definition ny : Z := (ntid g).1.2.
Definition nz : Z := (ntid g).2.
Definition total : Z := u64 (u64 (nx * ny) * nz).
Definition nwarps : nat := Z.to_nat (u64 (total + Z.of_nat (l_width g) - 1) / Z.of_nat (l_width g)).

(** The live lanes of warp [w], and the thread ids of its lanes. *)
Definition warp_ids (w : nat) : Z * list (Z * Z * Z) :=
  let first := u64 (u32 (Z.of_nat w) * Z.of_nat (l_width g)) in
  id_loop (seq 0 (l_width g)) first total nx ny
    (u32 (first mod nx)) (u32 ((first / nx) mod ny)) (u32 (first / u64 (nx * ny))) 0
    (replicate (l_width g) (0, 0, 0)).

(** What a special register reads as in a warp of those ids. *)
Definition sreg_value (tids : list (Z * Z * Z)) (s : Sreg) (l : nat) : Z :=
  let t := default (0, 0, 0) (tids !! l) in
  match s with
  | TidX => t.1.1 | TidY => t.1.2 | TidZ => t.2
  | NtidX => (ntid g).1.1 | NtidY => (ntid g).1.2 | NtidZ => (ntid g).2
  | CtaidX => (ctaid g).1.1 | CtaidY => (ctaid g).1.2 | CtaidZ => (ctaid g).2
  | NctaidX => (nctaid g).1.1 | NctaidY => (nctaid g).1.2 | NctaidZ => (nctaid g).2
  | LaneId => u32 (Z.of_nat l)
  end.

(** The warp's configuration: the launch's, with its own thread ids. *)
Definition warp_cfg (w : nat) : Cfg :=
  mkCfg (l_width g) (l_body g) (Z.of_nat (l_regs32 g)) (l_max_steps g) (l_strict g) (l_fast g)
    (sreg_value (warp_ids w).2).

(** A warp as setup_block leaves it. The register files are not cleared: [junk32] and
    [junk64] are what the buffers held. *)
Definition setup_warp (junk32 junk64 : nat → list (list Z)) (w : nat) : Warp :=
  let live := (warp_ids w).1 in
  mkWarp (if live =? 0 then Done else Ready)
    (if live =? 0 then [] else [mkPath 0 live kRunnable 0 0]) 0
    (junk32 w) (junk64 w) (replicate (l_regs32 g + l_regs64 g) 0)
    (replicate (l_regs32 g) false) (replicate (l_regs64 g) false) 0 false 0 0.

Record BlockState := mkBlock { warps : list Warp; block_done : bool; block_exited : bool }.

Definition setup_block (junk32 junk64 : nat → list (list Z)) : BlockState :=
  mkBlock (setup_warp junk32 junk64 <$> seq 0 nwarps) false false.

(** ** Turns *)

(** A scheduler: one of the runnable warps, and a bound on its turn (zero: none). *)
Class Picker (S : Type) := {
  pick_warp : list Z → M S Z;
  turn_slice : M S Z }.

Context {S : Type} `{!Picker S}.

Definition runnable_warps (ws : list Warp) : list Z :=
  omap (λ iw : nat * Warp, if bool_decide (state iw.2 = Ready) then Some (Z.of_nat iw.1) else None) (imap pair ws).

(** The warps waiting at a barrier go on. *)
Definition release (w : Warp) : Warp := if bool_decide (state w = AtBarrier) then set_state Ready w else w.
Definition any_waiting (ws : list Warp) : bool := existsb (λ w, bool_decide (state w = AtBarrier)) ws.

Definition step_block (slice : Z) : M (BlockState * S) bool := λ bs,
  let '(b, s) := bs in
  let runnable := runnable_warps (warps b) in
  if bool_decide (runnable = []) then
    if any_waiting (warps b) then Ret true (mkBlock (release <$> warps b) (block_done b) (block_exited b), s)
    else Ret false (mkBlock (warps b) true (block_exited b), s)
  else
    match pick_warp runnable s with
    | Ret picked s =>
        match turn_slice s with
        | Ret sched_slice s =>
            let turn := if negb (sched_slice =? 0) && ((slice =? 0) || (sched_slice <? slice)) then sched_slice else slice in
            match nth_z (warps b) picked with
            | Some w =>
                match run_warp_until_yield (warp_cfg (Z.to_nat picked)) turn w with
                | Ret _ w' =>
                    let ws := set_z (warps b) picked w' in
                    let exited := if bool_decide (state w' = Done) then forallb (λ w, bool_decide (state w = Done)) ws
                                  else block_exited b in
                    Ret true (mkBlock ws (block_done b) exited, s)
                | Exn e w' => Exn e (mkBlock (set_z (warps b) picked w') (block_done b) (block_exited b), s)
                | Undef => Undef
                end
            | None => Undef
            end
        | Exn e s => Exn e (b, s)
        | Undef => Undef
        end
    | Exn e s => Exn e (b, s)
    | Undef => Undef
    end.

Fixpoint block_loop (fuel : nat) : M (BlockState * S) unit :=
  match fuel with
  | O => undef
  | Datatypes.S fuel =>
      more <- step_block 0 ;;
      if more : bool then block_loop fuel else ret tt
  end.
End block.

(** ** The thread ids *)

(** The position of a thread in its block. *)
Definition coords (nx ny lin : Z) : Z * Z * Z := (lin mod nx, (lin / nx) mod ny, lin / (nx * ny)).

Lemma digit_succ a n : 0 < n → 0 ≤ a →
  if a mod n + 1 =? n then (a + 1) mod n = 0 ∧ (a + 1) / n = a / n + 1
  else (a + 1) mod n = a mod n + 1 ∧ (a + 1) / n = a / n.
Proof.
  intros Hn Ha. pose proof (Z.div_mod a n ltac:(lia)) as E. pose proof (Z.mod_pos_bound a n Hn).
  destruct (Z.eqb_spec (a mod n + 1) n).
  - assert (HQ : a + 1 = n * (a / n + 1) + 0) by lia. split; symmetry.
    + by apply (Z.mod_unique_pos _ _ (a / n + 1)); [lia|].
    + by apply (Z.div_unique_pos _ _ _ 0); [lia|].
  - assert (HQ : a + 1 = n * (a / n) + (a mod n + 1)) by lia. split; symmetry.
    + by apply (Z.mod_unique_pos _ _ (a / n)); [lia|].
    + by apply (Z.div_unique_pos _ _ _ (a mod n + 1)); [lia|].
Qed.

(** Counting a lane on: the loop's three ifs. *)
Lemma coords_succ nx ny lin : 0 < nx < 2 ^ 32 → 0 < ny < 2 ^ 32 → 0 ≤ lin < 2 ^ 32 - 1 →
  let '(x, y, z) := coords nx ny lin in
  coords nx ny (lin + 1) =
    if u32 (x + 1) =? nx then
      if u32 (y + 1) =? ny then (0, 0, u32 (z + 1)) else (0, u32 (y + 1), z)
    else (u32 (x + 1), y, z).
Proof.
  intros Hnx Hny Hlin. unfold coords.
  pose proof (digit_succ lin nx ltac:(lia) ltac:(lia)) as DX.
  pose proof (digit_succ (lin / nx) ny ltac:(lia) (Z.div_pos lin nx ltac:(lia) ltac:(lia))) as DY.
  pose proof (Z.mod_pos_bound lin nx ltac:(lia)). pose proof (Z.mod_pos_bound (lin / nx) ny ltac:(lia)).
  assert (HD : ∀ a, 0 ≤ a < 2 ^ 32 - 1 → ∀ b, 0 < b → 0 ≤ a / b < 2 ^ 32 - 1).
  { intros a Ha b Hb. split; [apply Z.div_pos; lia|]. pose proof (Z.div_le_upper_bound a b a Hb ltac:(nia)). lia. }
  assert (HZ : 0 ≤ lin / (nx * ny) < 2 ^ 32 - 1) by (apply HD; nia).
  rewrite !(u32_small (_ + 1)) by lia. rewrite <- !Z.div_div in * by lia.
  destruct (lin mod nx + 1 =? nx); destruct DX as [-> ->]; [|done].
  destruct ((lin / nx) mod ny + 1 =? ny); destruct DY as [-> ->]; done.
Qed.

(** Every lane below the block's size is live and has its own id. *)
Lemma id_loop_spec (W n : nat) nx ny total first : 0 < nx < 2 ^ 32 → 0 < ny < 2 ^ 32 → 0 ≤ first → total < 2 ^ 32 →
  ∀ k live tids, (k + n = W)%nat → length tids = W →
  let '(x, y, z) := coords nx ny (first + Z.of_nat k) in
  let r := id_loop (seq k n) first total nx ny x y z live tids in
  length r.2 = W ∧
  (∀ l, bit r.1 l = bit live l || (bool_decide (k ≤ l < W)%nat && (first + Z.of_nat l <? total))) ∧
  (∀ l, (k ≤ l < W)%nat → first + Z.of_nat l < total → r.2 !! l = Some (coords nx ny (first + Z.of_nat l))) ∧
  (∀ l, (l < k)%nat → r.2 !! l = tids !! l).
Proof.
  intros Hnx Hny Hfirst Htot. induction n as [|n IH]; intros k live tids Hk HL.
  { destruct (coords nx ny (first + Z.of_nat k)) as [[x y] z]. simpl. split_and!; [done| |lia|done].
    intros l. rewrite bool_decide_eq_false_2 by lia. by rewrite orb_false_r. }
  destruct (coords nx ny (first + Z.of_nat k)) as [[x y] z] eqn:EC. cbn [seq id_loop].
  destruct (Z.leb_spec total (first + Z.of_nat k)) as [HT|HT].
  { simpl. split_and!; [done| |lia|done]. intros l.
    replace (bool_decide (k ≤ l < W)%nat && (first + Z.of_nat l <? total)) with false; [by rewrite orb_false_r|].
    symmetry. case_bool_decide; [|done]. apply Z.ltb_ge. lia. }
  pose proof (coords_succ nx ny (first + Z.of_nat k) Hnx Hny ltac:(lia)) as HS. rewrite EC in HS. cbv zeta.
  set (live' := Z.lor live (Z.shiftl 1 (Z.of_nat k))). set (tids' := <[k := (x, y, z)]> tids).
  assert (HI : ∀ a b d, coords nx ny (first + Z.of_nat (S k)) = (a, b, d) →
    let r := id_loop (seq (S k) n) first total nx ny a b d live' tids' in
    length r.2 = W ∧
    (∀ l, bit r.1 l = bit live l || (bool_decide (k ≤ l < W)%nat && (first + Z.of_nat l <? total))) ∧
    (∀ l, (k ≤ l < W)%nat → first + Z.of_nat l < total → r.2 !! l = Some (coords nx ny (first + Z.of_nat l))) ∧
    (∀ l, (l < k)%nat → r.2 !! l = tids !! l)).
  { intros a b d E. specialize (IH (S k) live' tids' ltac:(lia) ltac:(by unfold tids'; rewrite length_insert)).
    rewrite E in IH. cbv zeta in *. destruct IH as (I1 & I2 & I3 & I4). split_and!; [done|..].
    - intros l. rewrite I2. unfold live'. rewrite bit_lor, bit_one. destruct (Nat.eqb_spec l k) as [->|Hne].
      + rewrite (bool_decide_eq_true_2 (k ≤ k < W)%nat) by lia.
        replace (first + Z.of_nat k <? total) with true by (symmetry; apply Z.ltb_lt; lia). by rewrite !orb_true_r.
      + rewrite orb_false_r. do 2 f_equal. apply bool_decide_ext. lia.
    - intros l Hl Hlt. destruct (decide (l = k)) as [->|Hne]; [|apply I3; lia].
      rewrite I4 by lia. unfold tids'. rewrite list_lookup_insert_eq by lia. by rewrite EC.
    - intros l Hl. rewrite I4 by lia. unfold tids'. by rewrite list_lookup_insert_ne by lia. }
  replace (first + Z.of_nat k + 1) with (first + Z.of_nat (S k)) in HS by lia.
  destruct (u32 (x + 1) =? nx); [destruct (u32 (y + 1) =? ny)|]; by apply HI.
Qed.

Lemma id_loop_mask c (HW : (1 ≤ Warp.W c ≤ 64)%nat) L first total nx ny : Forall (λ l, (l < Warp.W c)%nat) L →
  ∀ x y z live tids, is_mask c live → is_mask c (id_loop L first total nx ny x y z live tids).1.
Proof.
  induction 1 as [|l L Hl _ IH]; intros x y z live tids Hm; [done|]. cbn [id_loop]. destruct (total <=? first + Z.of_nat l); [done|].
  cbv zeta. assert (is_mask c (Z.lor live (Z.shiftl 1 (Z.of_nat l)))) by (apply is_mask_lor; [done..|by apply (one_lane c HW)]).
  repeat case_if; by apply IH.
Qed.

(** ** The threads of a launch *)

(** What a launch is checked to be: a warp of at most 64 lanes, a block of at least
    one thread and fewer than 2^32, 32-bit grid coordinates. *)
Record launch_ok (g : Launch) : Prop := {
  ok_width : (1 ≤ l_width g ≤ 64)%nat;
  ok_dims : 0 < nx g ∧ 0 < ny g ∧ 0 < nz g;
  ok_total : nx g * ny g * nz g < 2 ^ 32;
  ok_grid : ∀ t, t ∈ [ctaid g; nctaid g] → is_u32 t.1.1 ∧ is_u32 t.1.2 ∧ is_u32 t.2 }.

Section launch.
Context (g : Launch) (Hg : launch_ok g).
#[local] Abbreviation W := (l_width g).

Lemma dims_range : nx g < 2 ^ 32 ∧ ny g < 2 ^ 32 ∧ nz g < 2 ^ 32 ∧ nx g * ny g < 2 ^ 32.
Proof. destruct Hg as [_ (H1 & H2 & H3) HT _]. split_and!; nia. Qed.

Lemma total_eq : total g = nx g * ny g * nz g.
Proof.
  unfold total. pose proof dims_range. destruct Hg as [_ (H1 & H2 & H3) HT _].
  assert (0 < nx g * ny g) by nia. assert (0 < nx g * ny g * nz g) by nia.
  rewrite (u64_small (nx g * ny g)) by (unfold is_u64; lia). apply u64_small. unfold is_u64; lia.
Qed.

Lemma nwarps_spec w : (w < nwarps g)%nat ↔ Z.of_nat w * Z.of_nat W < total g.
Proof.
  unfold nwarps. pose proof (ok_width _ Hg). rewrite total_eq. destruct Hg as [_ (H1 & H2 & H3) HT _].
  set (t := nx g * ny g * nz g) in *. assert (0 < nx g * ny g) by nia. assert (0 < t) by (unfold t; nia).
  rewrite u64_small by (unfold is_u64; lia).
  assert (HQ : ∀ q, q < (t + Z.of_nat W - 1) / Z.of_nat W ↔ q * Z.of_nat W < t).
  { intros q. pose proof (Z.div_mod (t + Z.of_nat W - 1) (Z.of_nat W) ltac:(lia)).
    pose proof (Z.mod_pos_bound (t + Z.of_nat W - 1) (Z.of_nat W) ltac:(lia)). nia. }
  rewrite <- HQ. pose proof (Z.div_pos (t + Z.of_nat W - 1) (Z.of_nat W) ltac:(lia) ltac:(lia)). lia.
Qed.

(** The warp's lanes are the threads from [w * W] on. *)
Lemma warp_ids_spec w : (w < nwarps g)%nat → let first := Z.of_nat w * Z.of_nat W in
  length (warp_ids g w).2 = W ∧
  (∀ l, bit (warp_ids g w).1 l = bool_decide (l < W)%nat && (first + Z.of_nat l <? total g)) ∧
  (∀ l, (l < W)%nat → first + Z.of_nat l < total g → (warp_ids g w).2 !! l = Some (coords (nx g) (ny g) (first + Z.of_nat l))).
Proof.
  intros Hw%nwarps_spec. cbv zeta. pose proof (ok_width _ Hg). pose proof dims_range as (D1 & D2 & D3 & D4).
  pose proof total_eq as ET. destruct Hg as [_ (H1 & H2 & H3) HT _]. set (first := Z.of_nat w * Z.of_nat W) in *.
  assert (HF : 0 ≤ first < 2 ^ 32) by (unfold first in *; nia).
  unfold warp_ids. assert (EF : u64 (u32 (Z.of_nat w) * Z.of_nat W) = first).
  { rewrite u32_small by (unfold first in *; nia). apply u64_small. fold first. unfold is_u64; lia. }
  rewrite EF. cbv zeta.
  assert (EC : coords (nx g) (ny g) (first + Z.of_nat 0) = (u32 (first mod nx g), u32 ((first / nx g) mod ny g), u32 (first / u64 (nx g * ny g)))).
  { unfold coords. rewrite Z.add_0_r, (u64_small (nx g * ny g)) by (unfold is_u64; nia).
    pose proof (Z.mod_pos_bound first (nx g) H1). pose proof (Z.mod_pos_bound (first / nx g) (ny g) H2).
    assert (0 ≤ first / (nx g * ny g) < 2 ^ 32).
    { split; [apply Z.div_pos; nia|]. pose proof (Z.div_le_upper_bound first (nx g * ny g) first ltac:(nia) ltac:(nia)). lia. }
    by rewrite !u32_small by lia. }
  pose proof (id_loop_spec W W (nx g) (ny g) (total g) first ltac:(lia) ltac:(lia) ltac:(lia) ltac:(lia) 0 0
    (replicate W (0, 0, 0)) ltac:(lia) ltac:(apply length_replicate)) as HI.
  rewrite EC in HI. cbv zeta in HI. destruct HI as (I1 & I2 & I3 & _). split_and!; [done| |].
  - intros l. rewrite I2, bit_0. simpl. f_equal. apply bool_decide_ext. lia.
  - intros l Hl Hlt. apply I3; [lia|done].
Qed.

Lemma live_mask w : is_mask (warp_cfg g w) (warp_ids g w).1.
Proof.
  unfold warp_ids. apply id_loop_mask; [apply Hg| |].
  - apply Forall_forall. intros l Hl%elem_of_seq. simpl. lia.
  - split; [done|]. apply pow2_pos. lia.
Qed.

Lemma live_nonzero w : (w < nwarps g)%nat → (warp_ids g w).1 ≠ 0.
Proof.
  intros Hw E. destruct (warp_ids_spec w Hw) as (_ & HB & _). specialize (HB 0%nat). rewrite E, bit_0 in HB.
  rewrite bool_decide_eq_true_2 in HB by (pose proof (ok_width _ Hg); lia). apply nwarps_spec in Hw.
  symmetry in HB. simpl in HB. apply Z.ltb_ge in HB. lia.
Qed.
End launch.

(** The ids are 32-bit words. *)
Definition u32_triple (t : Z * Z * Z) : Prop := is_u32 t.1.1 ∧ is_u32 t.1.2 ∧ is_u32 t.2.

Lemma id_loop_u32 L first total nx ny : ∀ x y z live tids, u32_triple (x, y, z) → Forall u32_triple tids →
  Forall u32_triple (id_loop L first total nx ny x y z live tids).2.
Proof.
  assert (Z0 : is_u32 0) by (unfold is_u32; lia).
  induction L as [|l L IH]; intros x y z live tids Hx Ht; [done|]. cbn [id_loop]. destruct (total <=? _); [done|].
  assert (HF : Forall u32_triple (<[l := (x, y, z)]> tids)) by (by apply Forall_insert).
  destruct Hx as (H1 & H2 & H3). cbv zeta. repeat case_if; apply IH; try done; split_and!; simpl; done || apply u32_range.
Qed.

(** ** Running a block *)

(** The scheduler's side of a block: it picks one of the warps it is given, and its
    slice is not negative. *)
Class PickerOk (S : Type) `{!Picker S} (ok : S → Prop) (n : nat) : Prop := {
  pick_ok r s : ok s → runnable_ok (Z.of_nat n) r → ∃ p s', pick_warp r s = Ret p s' ∧ p ∈ r ∧ ok s';
  slice_ok s : ok s → ∃ k s', turn_slice s = Ret k s' ∧ 0 ≤ k ∧ ok s' }.

Section run.
Context (g : Launch) (Hg : launch_ok g) (isp : Reg → bool).
Context (HO : Forall (λ ins, op_ok isp (Z.of_nat (l_regs32 g)) (Z.of_nat (l_regs64 g)) (op ins)) (l_body g)).
Context (junk32 junk64 : nat → list (list Z)).
#[local] Abbreviation W := (l_width g).

(** The buffers the register files take over: of their sizes, whatever they hold. *)
Definition junk_ok : Prop := ∀ w,
  length (junk32 w) = l_regs32 g ∧ Forall (λ r : list Z, length r = W ∧ Forall is_u32 r) (junk32 w) ∧
  length (junk64 w) = l_regs64 g ∧ Forall (λ r : list Z, length r = W ∧ Forall is_u64 r) (junk64 w).
Context (HJ : junk_ok).

(** Every thread starts at the first instruction with registers that read as zero. *)
Definition zero_thread : Thread :=
  mkThread (replicate (l_regs32 g) 0) (replicate (l_regs64 g) 0)
    (replicate (l_regs32 g + l_regs64 g) false) false.

Lemma warp_sregs_ok w : (w < nwarps g)%nat → sregs_ok (warp_cfg g w).
Proof.
  intros Hw s l. unfold warp_cfg, sreg_value; simpl.
  assert (HT : u32_triple (default (0, 0, 0) ((warp_ids g w).2 !! l))).
  { assert (Z0 : u32_triple (0, 0, 0)) by (split_and!; unfold is_u32; simpl; lia).
    destruct ((warp_ids g w).2 !! l) as [t|] eqn:E; [|done]. simpl.
    assert (HF : Forall u32_triple (warp_ids g w).2).
    { unfold warp_ids. apply id_loop_u32; [split_and!; apply u32_range|]. by apply Forall_replicate. }
    by eapply Forall_lookup_1 in HF. }
  destruct HT as (T1 & T2 & T3). pose proof (dims_range g Hg) as (D1 & D2 & D3 & _). destruct Hg as [_ (H1 & H2 & H3) _ HGr].
  destruct (HGr (ctaid g)) as (C1 & C2 & C3); [left|]. destruct (HGr (nctaid g)) as (N1 & N2 & N3); [right; left|].
  unfold nx, ny, nz in *. destruct s; try done; try (unfold is_u32; lia). apply u32_range.
Qed.

Lemma lane_file_unwritten (regs : list (list Z)) n l : length regs = n → lane_file regs (replicate n false) l = replicate n 0.
Proof.
  revert n. induction regs as [|r regs IH]; intros [|n] HL; try done. unfold lane_file in *. simpl. f_equal. apply IH. by injection HL.
Qed.

Lemma data_flags_unwritten wd n : data_flags isp wd (replicate n false) = replicate n false.
Proof.
  unfold data_flags. apply list_eq. intros i. rewrite list_lookup_imap.
  destruct (decide (i < n)%nat); [by rewrite lookup_replicate_2|].
  by rewrite !(lookup_ge_None_2 (replicate n false)) by (rewrite length_replicate; lia).
Qed.

Lemma setup_view w l : view isp (setup_warp g junk32 junk64 w) l = zero_thread.
Proof.
  destruct (HJ w) as (J1 & _ & J3 & _). unfold view, setup_warp, zero_thread; simpl.
  rewrite !data_flags_unwritten, !lane_file_unwritten by done. f_equal; [|apply bit_0].
  by rewrite fmap_replicate, bit_0.
Qed.

Lemma setup_good w : (w < nwarps g)%nat →
  wf_warp (warp_cfg g w) (warp_ids g w).1 (l_regs32 g) (l_regs64 g) (setup_warp g junk32 junk64 w) ∧
  settled (warp_cfg g w) (setup_warp g junk32 junk64 w).
Proof.
  intros Hw. pose proof (live_nonzero g Hg w Hw) as HN. destruct (HJ w) as (J1 & J2 & J3 & J4).
  assert (HE : ((warp_ids g w).1 =? 0) = false) by (by apply Z.eqb_neq).
  unfold setup_warp. rewrite HE. split; [|done]. split; simpl; try done.
  - split; simpl; rewrite ?length_replicate; try done; try congruence; try lia.
    apply Forall_replicate. unfold is_u64; lia.
  - apply (is_mask_0 (warp_cfg g w)). apply Hg.
  - apply Forall_singleton. split; [apply (live_mask g Hg)|done|done].
  - intros l. rewrite bit_0. unfold count; simpl. unfold on_path; simpl. lia.
Qed.

(** ** The list of runnable warps *)

Fixpoint runnable_from (k : nat) (ws : list Warp) : list Z :=
  match ws with
  | [] => []
  | w :: ws => (if bool_decide (state w = Ready) then [Z.of_nat k] else []) ++ runnable_from (S k) ws
  end.

Lemma runnable_warps_from ws : runnable_warps ws = runnable_from 0 ws.
Proof.
  unfold runnable_warps. assert (HG : ∀ k, omap (λ iw : nat * Warp, if bool_decide (state iw.2 = Ready) then Some (Z.of_nat iw.1) else None)
    (imap (λ i, pair (k + i)%nat) ws) = runnable_from k ws); [|apply (HG 0%nat)].
  induction ws as [|w ws IH]; intros k; [done|]. cbn [imap runnable_from]. rewrite Nat.add_0_r.
  replace (imap ((λ i, pair (k + i)%nat) ∘ S) ws) with (imap (λ i, pair (S k + i)%nat) ws).
  2: { apply imap_ext. intros i x _. simpl. f_equal. lia. }
  simpl. destruct (bool_decide (state w = Ready)); [|exact (IH (S k))]. simpl. f_equal. exact (IH (S k)).
Qed.

Lemma elem_of_runnable_from k ws p : p ∈ runnable_from k ws ↔ ∃ i w, ws !! i = Some w ∧ state w = Ready ∧ p = Z.of_nat (k + i).
Proof.
  revert k. induction ws as [|w ws IH]; intros k; cbn [runnable_from].
  - split; [by intros ?%elem_of_nil|]. by intros (i & w & ? & _).
  - rewrite elem_of_app, IH. split.
    + intros [H|(i & w' & H1 & H2 & ->)].
      * case_bool_decide; [|by apply elem_of_nil in H]. apply list_elem_of_singleton in H as ->. exists 0%nat, w.
        split_and!; [done..|]. f_equal; lia.
      * exists (S i), w'. split_and!; [done..|]. f_equal; lia.
    + intros ([|i] & w' & H1 & H2 & ->).
      * injection H1 as ->. left. rewrite bool_decide_eq_true_2 by done. rewrite Nat.add_0_r. left.
      * right. exists i, w'. split_and!; [done..|]. f_equal; lia.
Qed.

Lemma runnable_from_sorted k ws : StronglySorted Z.lt (runnable_from k ws).
Proof.
  revert k. induction ws as [|w ws IH]; intros k; cbn [runnable_from]; [constructor|]. case_bool_decide; [|apply IH].
  simpl. constructor; [apply IH|]. apply Forall_forall. intros p (i & w' & _ & _ & ->)%elem_of_runnable_from. lia.
Qed.

Lemma runnable_warps_ok ws : runnable_warps ws ≠ [] → runnable_ok (Z.of_nat (length ws)) (runnable_warps ws).
Proof.
  rewrite runnable_warps_from. intros HN. split; [apply runnable_from_sorted|]. split; [|done].
  apply Forall_forall. intros p (i & w & H & _ & ->)%elem_of_runnable_from. apply lookup_lt_Some in H. lia.
Qed.

Lemma elem_of_runnable ws p : p ∈ runnable_warps ws → ∃ w, nth_z ws p = Some w ∧ state w = Ready ∧ 0 ≤ p.
Proof.
  rewrite runnable_warps_from. intros (i & w & H & HR & ->)%elem_of_runnable_from. exists w. split_and!; [|done|lia].
  apply nth_z_Some. split; [lia|]. by rewrite Nat2Z.id.
Qed.

Lemma no_runnable ws : runnable_warps ws = [] → ∀ i w, ws !! i = Some w → state w ≠ Ready.
Proof.
  rewrite runnable_warps_from. intros HN i w Hi HR.
  assert (HE : Z.of_nat (0 + i) ∈ runnable_from 0 ws) by (apply elem_of_runnable_from; by exists i, w).
  rewrite HN in HE. by apply elem_of_nil in HE.
Qed.

(** ** The invariant of a block *)

#[local] Abbreviation live w := ((warp_ids g w).1).

(** A warp of the block: well formed, its lanes where their own steps have taken them
    from the start. *)
Definition warp_ok (w : nat) (wp : Warp) : Prop :=
  wf_warp (warp_cfg g w) (live w) (l_regs32 g) (l_regs64 g) wp ∧ settled (warp_cfg g w) wp ∧
  follows (warp_cfg g w) isp (setup_warp g junk32 junk64 w) wp.

Record block_ok (b : BlockState) : Prop := {
  block_warps : length (warps b) = nwarps g;
  block_each : ∀ w wp, warps b !! w = Some wp → warp_ok w wp }.

Lemma setup_block_ok : block_ok (setup_block g junk32 junk64).
Proof.
  split; simpl; [by rewrite length_fmap, length_seq|]. intros w wp. rewrite list_lookup_fmap.
  destruct (seq 0 (nwarps g) !! w) as [k|] eqn:E; [|done]. apply lookup_seq in E as [-> Hw]. intros [= <-].
  simpl. destruct (setup_good w Hw). split_and!; [done..|reflexivity].
Qed.

Lemma warp_prog_ok w : prog_ok (warp_cfg g w) isp (l_regs32 g) (l_regs64 g).
Proof. exact HO. Qed.

Lemma warp_turn_ok w wp turn : (w < nwarps g)%nat → warp_ok w wp →
  match run_warp_until_yield (warp_cfg g w) turn wp with
  | Ret _ wp' => warp_ok w wp'
  | Exn e _ => warp_error e
  | Undef => False
  end.
Proof.
  intros Hw (H1 & H2 & H3).
  pose proof (turn_ok (warp_cfg g w) (ok_width _ Hg) isp (warp_sregs_ok w Hw) _ _ _ (warp_prog_ok w) turn wp H1 H2) as HT.
  destruct (run_warp_until_yield (warp_cfg g w) turn wp) as [[] wp'|e wp'|]; [|done..].
  destruct HT as [(G & F & S1) _]. split_and!; [done..|]. by etrans.
Qed.

Lemma release_ok w wp : (w < nwarps g)%nat → warp_ok w wp → warp_ok w (release wp).
Proof.
  intros Hw (H1 & H2 & H3). unfold release. case_bool_decide; [|done].
  destruct (same_place (warp_cfg g w) isp (live w) (l_regs32 g) (l_regs64 g) wp (set_state Ready wp)) as [G F]; try done.
  { destruct H1 as [[] ? ? ? ? ?]. by split. }
  split_and!; [done|done|by etrans].
Qed.

Lemma block_ok_insert b w wp wp' : block_ok b → warps b !! w = Some wp → warp_ok w wp' → ∀ d e, block_ok (mkBlock (<[w := wp']> (warps b)) d e).
Proof.
  intros [B1 B2] Hw Hwp d e. split; simpl; [by rewrite length_insert|]. intros k kp Hk.
  apply list_lookup_insert_Some in Hk as [(<- & <- & _)|[Hne Hk]]; [done|by apply B2].
Qed.

(** ** The weight of a block, which every step lowers *)

Definition block_weight (ws : list Warp) : nat := list_sum (weight (warp_cfg g 0) <$> ws).

Lemma block_weight_cons w ws : block_weight (w :: ws) = (weight (warp_cfg g 0) w + block_weight ws)%nat.
Proof. done. Qed.

Lemma block_weight_Permutation ws ws' : ws ≡ₚ ws' → block_weight ws = block_weight ws'.
Proof. intros H. unfold block_weight. apply list_sum_Permutation. by rewrite H. Qed.

Lemma block_weight_insert ws w wp wp' : ws !! w = Some wp → (weight (warp_cfg g 0) wp' < weight (warp_cfg g 0) wp)%nat →
  (block_weight (<[w := wp']> ws) < block_weight ws)%nat.
Proof.
  intros Hw HL. rewrite (block_weight_Permutation _ _ (insert_Permutation ws w wp wp' Hw)).
  rewrite (block_weight_Permutation _ _ (delete_Permutation ws w wp Hw)). rewrite !block_weight_cons. lia.
Qed.

Lemma release_weight wp : (weight (warp_cfg g 0) (release wp) ≤ weight (warp_cfg g 0) wp)%nat ∧
  (state wp = AtBarrier → (weight (warp_cfg g 0) (release wp) < weight (warp_cfg g 0) wp)%nat).
Proof.
  unfold release. case_bool_decide as H; [|done]. 
  assert (HE : weight (warp_cfg g 0) (set_state Ready wp) = (8 * measure (warp_cfg g 0) wp + 2 * Nat.b2n (yield_now wp) + 1)%nat) by done.
  rewrite HE. unfold weight. rewrite H. cbn [state_weight]. lia.
Qed.

Lemma block_weight_release ws : any_waiting ws = true → (block_weight (release <$> ws) < block_weight ws)%nat.
Proof.
  assert (HLe : ∀ ws, (block_weight (release <$> ws) ≤ block_weight ws)%nat).
  { intros us. induction us as [|w us IH]; [done|]. rewrite fmap_cons, !block_weight_cons. pose proof (release_weight w) as [HR _].
    by apply Nat.add_le_mono. }
  induction ws as [|w ws IH]; [done|]. rewrite fmap_cons, !block_weight_cons. pose proof (release_weight w) as [H1 H2].
  specialize (HLe ws). unfold any_waiting. cbn [existsb]. intros [H%bool_decide_eq_true|H]%orb_true_iff.
  - by apply Nat.add_lt_le_mono; [apply H2|].
  - by apply Nat.add_le_lt_mono; [|apply IH].
Qed.

(** ** Steps of a block *)

Section picker.
Context {S : Type} `{!Picker S} (ok : S → Prop) `{!PickerOk S ok (nwarps g)}.

Definition step_result (b : BlockState) (o : outcome (BlockState * S) bool) : Prop :=
  match o with
  | Ret true (b', s') => block_ok b' ∧ ok s' ∧ (block_weight (warps b') < block_weight (warps b))%nat
  | Ret false (b', s') => block_ok b' ∧ Forall (λ w, state w = Done) (warps b')
  | Exn e _ => warp_error e
  | Undef => False
  end.

Lemma step_block_ok slice b s : block_ok b → ok s → 0 ≤ slice → step_result b (step_block g slice (b, s)).
Proof.
  intros Hb Hs Hsl. unfold step_block. destruct (bool_decide_reflect (runnable_warps (warps b) = [])) as [HR|HR].
  - destruct (any_waiting (warps b)) eqn:EW; simpl.
    + split_and!; [|done|by apply block_weight_release]. destruct Hb as [B1 B2]. split; simpl; [by rewrite length_fmap|].
      intros w wp. rewrite list_lookup_fmap. destruct (warps b !! w) as [wp0|] eqn:E; [|done]. intros [= <-].
      apply release_ok; [|by apply B2]. apply lookup_lt_Some in E. lia.
    + split; [by destruct Hb|]. apply Forall_forall. intros w [i Hi]%list_elem_of_lookup.
      pose proof (no_runnable _ HR i w Hi) as HN. destruct (state w) eqn:ES; [done| |done]. exfalso.
      assert (HX : any_waiting (warps b) = true).
      { unfold any_waiting. apply existsb_exists. exists w. split; [by apply list_elem_of_In; eapply list_elem_of_lookup_2|].
        by apply bool_decide_eq_true. }
      congruence.
  - pose proof (runnable_warps_ok _ HR) as HO1. rewrite (block_warps _ Hb) in HO1.
    destruct (pick_ok (n := nwarps g) (runnable_warps (warps b)) s Hs HO1) as (p & s1 & -> & Hp & Hs1).
    destruct (slice_ok (n := nwarps g) s1 Hs1) as (k & s2 & -> & Hk & Hs2).
    destruct (elem_of_runnable _ _ Hp) as (w & Hw & Hst & Hp0). rewrite Hw.
    set (turn := if _ && _ then k else slice). assert (Hturn : 0 ≤ turn) by (unfold turn; by case_if).
    apply nth_z_Some in Hw as [_ Hw]. set (i := Z.to_nat p) in *.
    assert (Hi : (i < nwarps g)%nat) by (rewrite <- (block_warps _ Hb); by eapply lookup_lt_Some).
    pose proof (block_each _ Hb i w Hw) as Hwp. pose proof (warp_turn_ok i w turn Hi Hwp) as HT.
    destruct (run_warp_until_yield (warp_cfg g i) turn w) as [[] w'|e w'|] eqn:ER; [|done..].
    assert (HW : (weight (warp_cfg g 0) w' < weight (warp_cfg g 0) w)%nat).
    { destruct Hwp as (G & _ & _). apply (turn_weight (warp_cfg g i) (ok_width _ Hg) isp (warp_sregs_ok i Hi) _ _ _ (warp_prog_ok i) turn w w' G Hst Hturn ER). }
    assert (HZ : set_z (warps b) p w' = <[i := w']> (warps b)) by (apply set_z_insert; apply lookup_lt_Some in Hw; lia).
    rewrite HZ. simpl. split_and!; [by apply (block_ok_insert b i w w')|done|]. by apply (block_weight_insert _ i w).
Qed.

Lemma block_loop_ok fuel b s : block_ok b → ok s → (block_weight (warps b) < fuel)%nat →
  match block_loop g fuel (b, s) with
  | Ret _ (b', _) => block_ok b' ∧ Forall (λ w, state w = Done) (warps b')
  | Exn e _ => warp_error e
  | Undef => False
  end.
Proof.
  revert b s. induction fuel as [|fuel IH]; intros b s Hb Hs HF; [lia|]. cbn [block_loop].
  pose proof (step_block_ok 0 b s Hb Hs ltac:(lia)) as HS1. unfold bind.
  destruct (step_block g 0 (b, s)) as [[] [b1 s1]|e [b1 s1]|]; [|exact HS1..].
  destruct HS1 as (H1 & H2 & H3). apply IH; [done..|lia].
Qed.
End picker.
End run.

(** ** The schedulers *)

#[export] Instance scheduler_picker : Picker Scheduler := { pick_warp := pick; turn_slice := slice }.

Lemma runnable_length n r : runnable_ok (Z.of_nat n) r → (length r ≤ n)%nat.
Proof.
  intros (HS & HF & _). assert (HN : NoDup r).
  { clear HF. induction HS as [|x r HS IH HX]; constructor; [|done]. intros Hx. rewrite Forall_forall in HX. specialize (HX x Hx). lia. }
  transitivity (length (seqZ 0 (Z.of_nat n))); [|by rewrite length_seqZ, Nat2Z.id]. apply submseteq_length, NoDup_submseteq; [done|].
  intros x Hx. rewrite Forall_forall in HF. specialize (HF x Hx). apply elem_of_seqZ. lia.
Qed.

#[export] Instance scheduler_picker_ok n : Z.of_nat n < u64_max → PickerOk Scheduler (λ _, True) n.
Proof.
  intros Hn. split.
  - intros r s _ Hr. pose proof (runnable_length n r Hr) as HL. destruct Hr as (HS & HF & HN). unfold pick_warp, scheduler_picker, pick.
    destruct s as [last_|rng_|rng_ lr tick_ last_].
    + destruct (pick_round_spec last_ r HN HS) as (p & -> & Hp & _). by exists p, (RoundRobin p).
    + destruct (below_some (Z.of_nat (length r)) rng_ ltac:(lia)) as (i & rng' & -> & Hi).
      assert (0 < length r)%nat by (destruct r; [done|simpl; lia]).
      destruct (lookup_lt_is_Some_2 r (Z.to_nat i)) as [p Hp]; [lia|]. rewrite Hp. exists p, (RandomOrder rng').
      split_and!; [done|by eapply list_elem_of_lookup_2|done].
    + destruct (head r) as [front|] eqn:EH; [|by destruct r]. cbv zeta.
      destruct (oldest_loop_spec (1 <? Z.of_nat (length r)) last_ lr r front u64_max rng_) as (b & o & rng' & -> & _ & _ & HC).
      eexists b, _. split; [done|]. split; [|done]. destruct HC as [[-> _]|[? _]]; [|done]. destruct r; [done|]. injection EH as ->. left.
  - intros s _. unfold turn_slice, scheduler_picker, slice. destruct s as [last_|rng_|rng_ lr tick_ last_].
    + by exists 0, (RoundRobin last_).
    + destruct (below_some kMaxSlice rng_ ltac:(unfold kMaxSlice, u64_max; lia)) as (v & rng' & -> & Hv).
      exists (1 + v), (RandomOrder rng'). split_and!; [done|lia|done].
    + by exists 1, (Adversarial rng_ lr tick_ last_).
Qed.
