(* ===== verification/Spmd.v ===== *)
(** * A block computes what its threads compute one by one

    The theorems of the executor. A launch's threads each get one lane of one warp; a
    turn of a warp is type safe and ends; the tiers and the batches do not show; a
    barrier lets nobody through early; and a block that runs to its end leaves every
    thread with the registers the scalar machine of [Thread] gives it, whatever the
    scheduler and whatever the register buffers held. [Demo] runs a kernel that
    diverges and meets at a barrier. *)

From stdpp Require Import sorting.
From S2P Require Import Prelude Scheduler Alu Isa Warp Lanes Thread Handlers Tiers Simt Turn Passes Block.

(** ** Shared lemmas *)

Lemma tmove_det c l s s1 s2 : tmove c l s s1 → tmove c l s s2 → s1 = s2.
Proof. unfold tmove. congruence. Qed.

Lemma exited_stuck c l t s : ¬ tmove c l (Exited t) s.
Proof. done. Qed.

(** A thread that ends, ends one way. *)
Lemma exits_once c l s t1 t2 : rtc (tmove c l) s (Exited t1) → rtc (tmove c l) s (Exited t2) → t1 = t2.
Proof.
  intros H1. remember (Exited t1) as e eqn:E. revert E. induction H1 as [s|s s' e H _ IH]; intros E H2.
  - subst s. inversion H2 as [|? ? ? H]; subst; [done|]. by apply exited_stuck in H.
  - inversion H2 as [|? s2 ? H' H2']; subst; [by apply exited_stuck in H|].
    rewrite (tmove_det _ _ _ _ _ H' H) in H2'. by apply IH.
Qed.

Lemma coords_inv nx ny x y z : 0 < nx → 0 < ny → 0 ≤ x < nx → 0 ≤ y < ny → 0 ≤ z → coords nx ny (z * (nx * ny) + y * nx + x) = (x, y, z).
Proof.
  intros H1 H2 Hx Hy Hz. unfold coords. rewrite <- Z.div_div by lia.
  assert (E1 : (z * (nx * ny) + y * nx + x) / nx = z * ny + y).
  { symmetry. apply (Z.div_unique_pos _ _ _ x); [lia|]. ring. }
  assert (E2 : (z * (nx * ny) + y * nx + x) mod nx = x).
  { symmetry. apply (Z.mod_unique_pos _ _ (z * ny + y)); [lia|]. ring. }
  rewrite E1, E2. f_equal; [f_equal|].
  - symmetry. apply (Z.mod_unique_pos _ _ z); [lia|]. ring.
  - symmetry. apply (Z.div_unique_pos _ _ _ y); [lia|]. ring.
Qed.

Lemma coords_lin nx ny lin x y z : 0 < nx → 0 < ny → coords nx ny lin = (x, y, z) → lin = z * (nx * ny) + y * nx + x.
Proof.
  intros H1 H2. unfold coords. rewrite <- Z.div_div by lia. intros [= <- <- <-].
  pose proof (Z.div_mod lin nx ltac:(lia)). pose proof (Z.div_mod (lin / nx) ny ltac:(lia)). nia.
Qed.

Section run.
Context (g : Launch) (Hg : launch_ok g) (isp : Reg → bool).
Context (HO : Forall (λ ins, op_ok isp (Z.of_nat (l_regs32 g)) (Z.of_nat (l_regs64 g)) (op ins)) (l_body g)).
Context (junk32 junk64 : nat → list (list Z)) (HJ : junk_ok g junk32 junk64).
Context {S : Type} `{!Picker S} (ok : S → Prop) `{!PickerOk S ok (nwarps g)}.

Lemma block_loop_done fuel b s b' s' : block_ok g isp junk32 junk64 b → ok s → block_loop g fuel (b, s) = Ret tt (b', s') →
  block_ok g isp junk32 junk64 b' ∧ Forall (λ w, state w = Done) (warps b').
Proof.
  revert b s. induction fuel as [|fuel IH]; intros b s Hb Hs; [done|]. cbn [block_loop].
  pose proof (step_block_ok g Hg isp HO junk32 junk64 ok 0 b s Hb Hs ltac:(lia)) as HS1. unfold bind.
  destruct (step_block g 0 (b, s)) as [[] [b1 s1]|e [b1 s1]|]; [| |done..].
  - destruct HS1 as (H1 & H2 & _). by apply IH.
  - intros [= <- <-]. exact HS1.
Qed.

Lemma block_loop_more fuel k bs : block_loop g fuel bs ≠ Undef → block_loop g (fuel + k) bs = block_loop g fuel bs.
Proof.
  revert bs. induction fuel as [|fuel IH]; intros bs HN; [done|]. cbn [block_loop Nat.add] in *. unfold bind in *.
  destruct (step_block g 0 bs) as [[] bs1|e bs1|]; [by apply IH|done..].
Qed.

(** Where a live lane of a finished warp is. *)
Lemma done_lane w wp l : warp_ok g isp junk32 junk64 w wp → state wp = Done → (w < nwarps g)%nat → (l < l_width g)%nat →
  bit (warp_ids g w).1 l = true →
  rtc (tmove (warp_cfg g w) l) (Running 0 (zero_thread g)) (Exited (view isp wp l)).
Proof.
  intros (G & T & F) HD Hw Hl HB. unfold settled in T. rewrite HD in T.
  assert (HL : lane_is isp (setup_warp g junk32 junk64 w) l (Running 0 (zero_thread g))).
  { rewrite <- (setup_view g isp junk32 junk64 HJ w l).
    assert (HE : ((warp_ids g w).1 =? 0) = false) by (apply Z.eqb_neq; by apply live_nonzero).
    assert (HP : mkPath 0 (warp_ids g w).1 kRunnable 0 0 ∈ paths (setup_warp g junk32 junk64 w)).
    { unfold setup_warp. rewrite HE. left. }
    exact (on_a_path isp (setup_warp g junk32 junk64 w) l _ HP HB). }
  destruct (F l _ Hl HL) as (s' & HS' & HR). destruct HS' as [p Hp|]; [|done]. rewrite T in Hp. by apply elem_of_nil in Hp.
Qed.

(** A step of the block that goes on. *)
Definition block_step (bs bs' : BlockState * S) : Prop := ∃ slice, 0 ≤ slice ∧ step_block g slice bs = Ret true bs'.
Definition block_reachable (s0 : S) (bs : BlockState * S) : Prop := rtc block_step (setup_block g junk32 junk64, s0) bs.

Lemma block_reachable_ok s0 b s : ok s0 → block_reachable s0 (b, s) → block_ok g isp junk32 junk64 b ∧ ok s.
Proof.
  intros H0. unfold block_reachable.
  assert (HI : ∀ x y, rtc block_step x y → block_ok g isp junk32 junk64 x.1 → ok x.2 → block_ok g isp junk32 junk64 y.1 ∧ ok y.2).
  { induction 1 as [|[b1 s1] [b2 s2] z (k & Hk & H) _ IH]; [done|]. intros Hb1 Hs1.
    pose proof (step_block_ok g Hg isp HO junk32 junk64 ok k b1 s1 Hb1 Hs1 Hk) as HX. rewrite H in HX.
    destruct HX as (? & ? & _). by apply IH. }
  intros HR. apply (HI _ _ HR); [|done]. by apply setup_block_ok.
Qed.

(** ** A block and its threads *)

(** C2: when a block has run to its end, every thread of the launch has exited, and
    its lane holds the registers, predicates and carry its own run of the function from
    zeroed registers ends with: whatever the scheduler, the slices, the execution tiers,
    the order its paths diverged and met in, and what the register buffers held. *)
Theorem block_is_spmd fuel s0 b' s' w l : ok s0 →
  block_loop g fuel (setup_block g junk32 junk64, s0) = Ret tt (b', s') →
  (w < nwarps g)%nat → (l < l_width g)%nat → Z.of_nat w * Z.of_nat (l_width g) + Z.of_nat l < total g →
  ∃ wp, warps b' !! w = Some wp ∧ state wp = Done ∧
    rtc (tmove (warp_cfg g w) l) (Running 0 (zero_thread g)) (Exited (view isp wp l)).
Proof.
  intros H0 HR Hw Hl Ht.
  destruct (block_loop_done _ _ _ _ _ (setup_block_ok g Hg isp junk32 junk64 HJ) H0 HR) as [HB HD].
  destruct (lookup_lt_is_Some_2 (warps b') w) as [wp Hwp]; [by rewrite (block_warps _ _ _ _ _ HB)|].
  exists wp. split; [done|]. assert (HS1 : state wp = Done) by (by eapply Forall_lookup_1 in HD). split; [done|].
  apply done_lane; try done; [by apply (block_each _ _ _ _ _ HB)|].
  destruct (warp_ids_spec g Hg w Hw) as (_ & -> & _). rewrite bool_decide_eq_true_2 by done. simpl. by apply Z.ltb_lt.
Qed.

(** C8: a block always comes to an end: past a bound on its turns, its run is no
    longer a matter of how many are allowed, and is either every warp done or one of the
    five errors. *)
Theorem block_ends s0 : ok s0 → ∃ n o, (∀ fuel, (n < fuel)%nat → block_loop g fuel (setup_block g junk32 junk64, s0) = o) ∧
  match o with
  | Ret _ (b', _) => Forall (λ w, state w = Done) (warps b')
  | Exn e _ => warp_error e
  | Undef => False
  end.
Proof.
  intros H0. set (bs := (setup_block g junk32 junk64, s0)).
  set (n := block_weight g (warps (setup_block g junk32 junk64))). exists n, (block_loop g (Datatypes.S n) bs).
  pose proof (block_loop_ok g Hg isp HO junk32 junk64 ok (Datatypes.S n) _ s0 (setup_block_ok g Hg isp junk32 junk64 HJ) H0 ltac:(lia)) as HL.
  fold bs in HL. split.
  - intros fuel Hf. replace fuel with (Datatypes.S n + (fuel - Datatypes.S n))%nat by lia. apply block_loop_more.
    intros E. by rewrite E in HL.
  - destruct (block_loop g (Datatypes.S n) bs) as [[] [b' s']|e [b' s']|]; [by destruct HL|done|done].
Qed.

(** C10: a warp waiting at a barrier goes on only when every thread of the block has
    exited or is past a bar.sync. *)
Theorem barrier_release s0 b s slice m b' s' w wp wp' : ok s0 → block_reachable s0 (b, s) → 0 ≤ slice →
  step_block g slice (b, s) = Ret m (b', s') →
  warps b !! w = Some wp → state wp = AtBarrier → warps b' !! w = Some wp' → state wp' = Ready →
  ∀ v vp l, warps b !! v = Some vp → (l < l_width g)%nat → bit (warp_ids g v).1 l = true →
    bit (exited vp) l = true ∨
    ∃ q ins o, paths vp = [q] ∧ bit (mask q) l = true ∧ nth_z (l_body g) (pc q - 1) = Some ins ∧ op ins = OpBar o.
Proof.
  intros H0 HR Hsl HST Hw Hst Hw' Hst'. destruct (block_reachable_ok _ _ _ H0 HR) as [HB Hs].
  assert (HN : runnable_warps (warps b) = []).
  { destruct (decide (runnable_warps (warps b) = [])) as [|HN]; [done|]. exfalso. unfold step_block in HST.
    rewrite bool_decide_eq_false_2 in HST by done. destruct (pick_warp (runnable_warps (warps b)) s) as [p s1|? ?|] eqn:EP; [|done..].
    destruct (turn_slice s1) as [k s2|? ?|]; [|done..]. destruct (nth_z (warps b) p) as [u|] eqn:EU; [|done].
    pose proof (runnable_warps_ok _ HN) as HO1. rewrite (block_warps _ _ _ _ _ HB) in HO1.
    destruct (pick_ok (n := nwarps g) (runnable_warps (warps b)) s Hs HO1) as (p' & s1' & E & Hp & _).
    rewrite E in EP. injection EP as <- <-. destruct (elem_of_runnable _ _ Hp) as (u' & EU' & HRd & Hp0). rewrite EU in EU'. injection EU' as <-.
    match type of HST with match ?r with _ => _ end = _ => destruct r as [[] u'|? ?|] end; [|done..].
    injection HST as _ HE _. apply (f_equal warps) in HE. simpl in HE. rewrite <- HE in Hw'.
    apply nth_z_Some in EU as [_ EU]. rewrite set_z_insert in Hw' by (apply lookup_lt_Some in EU; lia).
    destruct (decide (w = Z.to_nat p')) as [->|Hne]; [congruence|]. rewrite list_lookup_insert_ne in Hw' by done. congruence. }
  intros v vp l Hv Hl Hb. destruct (block_each _ _ _ _ _ HB v vp Hv) as (G & T & _).
  pose proof (warp_places _ _ _ _ _ G l) as HC. rewrite Hb in HC.
  destruct (bit (exited vp) l) eqn:EX; [by left|right]. simpl in HC.
  pose proof (no_runnable _ HN v vp Hv) as HNR. unfold settled in T. destruct (state vp); [done| |].
  - destruct T as (q & ins & o & EQ & E1 & E2). exists q, ins, o. split_and!; [done| |done|done].
    rewrite EQ in HC. unfold count, on_path in HC. simpl in HC. destruct (bit (mask q) l); [done|simpl in HC; lia].
  - rewrite T in HC. unfold count in HC. simpl in HC. lia.
Qed.
End run.

(** C16: the registers a block ends with do not depend on the scheduler: two runs
    under any two schedulers, from any contents of the register buffers, that both end
    leave every thread the same. *)
Theorem schedule_independent g (Hg : launch_ok g) isp
    (HO : Forall (λ ins, op_ok isp (Z.of_nat (l_regs32 g)) (Z.of_nat (l_regs64 g)) (op ins)) (l_body g))
    j32 j64 k32 k64 (HJ : junk_ok g j32 j64) (HK : junk_ok g k32 k64)
    {S1} `{!Picker S1} (ok1 : S1 → Prop) `{!PickerOk S1 ok1 (nwarps g)}
    {S2} `{!Picker S2} (ok2 : S2 → Prop) `{!PickerOk S2 ok2 (nwarps g)}
    fuel1 fuel2 s1 s2 b1 b2 s1' s2' w l : ok1 s1 → ok2 s2 →
  block_loop g fuel1 (setup_block g j32 j64, s1) = Ret tt (b1, s1') →
  block_loop g fuel2 (setup_block g k32 k64, s2) = Ret tt (b2, s2') →
  (w < nwarps g)%nat → (l < l_width g)%nat → Z.of_nat w * Z.of_nat (l_width g) + Z.of_nat l < total g →
  ∃ w1 w2, warps b1 !! w = Some w1 ∧ warps b2 !! w = Some w2 ∧ view isp w1 l = view isp w2 l.
Proof.
  intros H1 H2 R1 R2 Hw Hl Ht.
  destruct (block_loop_done g Hg isp HO j32 j64 ok1 _ _ _ _ _ (setup_block_ok g Hg isp j32 j64 HJ) H1 R1) as [B1 D1].
  destruct (block_loop_done g Hg isp HO k32 k64 ok2 _ _ _ _ _ (setup_block_ok g Hg isp k32 k64 HK) H2 R2) as [B2 D2].
  destruct (lookup_lt_is_Some_2 (warps b1) w) as [w1 E1]; [by rewrite (block_warps _ _ _ _ _ B1)|].
  destruct (lookup_lt_is_Some_2 (warps b2) w) as [w2 E2]; [by rewrite (block_warps _ _ _ _ _ B2)|].
  exists w1, w2. split_and!; [done..|]. assert (HB : bit (warp_ids g w).1 l = true).
  { destruct (warp_ids_spec g Hg w Hw) as (_ & -> & _). rewrite bool_decide_eq_true_2 by done. simpl. by apply Z.ltb_lt. }
  eapply exits_once; [apply (done_lane g Hg isp j32 j64 HJ w w1)|apply (done_lane g Hg isp k32 k64 HK w w2)]; try done.
  - by apply (block_each _ _ _ _ _ B1).
  - by eapply Forall_lookup_1 in D1.
  - by apply (block_each _ _ _ _ _ B2).
  - by eapply Forall_lookup_1 in D2.
Qed.

(** C12: the threads of a block and the live lanes of its warps are the same: every
    position inside the block's dimensions is the thread id of exactly one live lane,
    and of one warp, and every live lane's id is such a position. *)
Theorem thread_ids g (Hg : launch_ok g) :
  (∀ x y z, 0 ≤ x < nx g → 0 ≤ y < ny g → 0 ≤ z < nz g →
    ∃ w l, (w < nwarps g)%nat ∧ bit (warp_ids g w).1 l = true ∧ (warp_ids g w).2 !! l = Some (x, y, z) ∧
      ∀ w' l', (w' < nwarps g)%nat → bit (warp_ids g w').1 l' = true → (warp_ids g w').2 !! l' = Some (x, y, z) →
        w' = w ∧ l' = l) ∧
  (∀ w l, (w < nwarps g)%nat → bit (warp_ids g w).1 l = true →
    ∃ x y z, (warp_ids g w).2 !! l = Some (x, y, z) ∧ 0 ≤ x < nx g ∧ 0 ≤ y < ny g ∧ 0 ≤ z < nz g).
Proof.
  pose proof (total_eq g Hg) as ET. destruct (ok_dims _ Hg) as (H1 & H2 & H3). pose proof (ok_width _ Hg) as HWd.
  assert (HL : ∀ w l, (w < nwarps g)%nat → bit (warp_ids g w).1 l = true → (l < l_width g)%nat ∧
    Z.of_nat w * Z.of_nat (l_width g) + Z.of_nat l < total g ∧
    (warp_ids g w).2 !! l = Some (coords (nx g) (ny g) (Z.of_nat w * Z.of_nat (l_width g) + Z.of_nat l))).
  { intros w l Hw HB. destruct (warp_ids_spec g Hg w Hw) as (_ & HE & HI). rewrite HE in HB.
    apply andb_true_iff in HB as [HB1%bool_decide_eq_true HB2%Z.ltb_lt]. split_and!; [done..|by apply HI]. }
  split.
  - intros x y z Hx Hy Hz. set (lin := z * (nx g * ny g) + y * nx g + x).
    assert (Hlin : 0 ≤ lin < total g).
    { rewrite ET. unfold lin. assert (y * nx g + x < nx g * ny g) by nia.
      assert (z * (nx g * ny g) + nx g * ny g ≤ nz g * (nx g * ny g)) by nia. nia. }
    set (w := Z.to_nat (lin / Z.of_nat (l_width g))). set (l := Z.to_nat (lin mod Z.of_nat (l_width g))).
    pose proof (Z.div_mod lin (Z.of_nat (l_width g)) ltac:(lia)) as ED.
    pose proof (Z.mod_pos_bound lin (Z.of_nat (l_width g)) ltac:(lia)) as EM.
    pose proof (Z.div_pos lin (Z.of_nat (l_width g)) ltac:(lia) ltac:(lia)) as EP.
    assert (EL : Z.of_nat w * Z.of_nat (l_width g) + Z.of_nat l = lin) by (unfold w, l; rewrite !Z2Nat.id by lia; lia).
    assert (Hw : (w < nwarps g)%nat) by (apply nwarps_spec; [done|lia]).
    assert (Hl : (l < l_width g)%nat) by (unfold l; lia).
    destruct (warp_ids_spec g Hg w Hw) as (_ & HB & HI).
    exists w, l. split_and!; [done| | |].
    + rewrite HB, bool_decide_eq_true_2 by done. simpl. apply Z.ltb_lt. lia.
    + rewrite (HI l Hl) by lia. rewrite EL. f_equal. unfold lin. by apply coords_inv; try lia.
    + intros w' l' Hw' HB' HI'. destruct (HL w' l' Hw' HB') as (Hl' & Hlt & HC).
      assert (HE : coords (nx g) (ny g) (Z.of_nat w' * Z.of_nat (l_width g) + Z.of_nat l') = (x, y, z)) by congruence.
      apply coords_lin in HE; [|done..]. fold lin in HE.
      assert (Z.of_nat w' = Z.of_nat w) by nia. lia.
  - intros w l Hw HB. destruct (HL w l Hw HB) as (Hl & Hlt & HC). rewrite HC. unfold coords.
    set (lin := Z.of_nat w * Z.of_nat (l_width g) + Z.of_nat l) in *. assert (0 ≤ lin) by (unfold lin; lia).
    do 3 eexists. split; [done|].
    split; [apply Z.mod_pos_bound; lia|]. split; [apply Z.mod_pos_bound; lia|].
    split; [apply Z.div_pos; nia|]. apply Z.div_lt_upper_bound; nia.
Qed.

(** ** A turn of a warp *)

(** C6: type safety of a turn: from a warp whose paths partition its live threads
    and whose registers have their widths and sizes, running a well-typed function, a
    turn never indexes out of a register file or past a list and always comes to an
    end; it leaves such a warp, or stops with one of five errors. *)
Theorem turn_typed c isp lanes n32 n64 slice w : (1 ≤ W c ≤ 64)%nat → sregs_ok c → prog_ok c isp n32 n64 →
  wf_warp c lanes n32 n64 w → settled c w →
  match run_warp_until_yield c slice w with
  | Ret _ w' => wf_warp c lanes n32 n64 w' ∧ settled c w'
  | Exn e _ => warp_error e
  | Undef => False
  end.
Proof.
  intros HW HS HO Hw HT. pose proof (turn_ok c HW isp HS lanes n32 n64 HO slice w Hw HT) as H.
  destruct (run_warp_until_yield c slice w) as [[] w'|e w'|]; [|done..]. destruct H as [(? & _ & ?) _]. done.
Qed.

(** C4: the execution tiers do not show: with pre-decoded instructions, their batches
    and the fast handlers, a turn ends as it does when every instruction goes through
    the general handlers one at a time: the same outcome, the same warp, but for when a
    path that is alone was last issued. *)
Theorem tiers_agree c isp lanes n32 n64 slice w : (1 ≤ W c ≤ 64)%nat → sregs_ok c → prog_ok c isp n32 n64 →
  wf_warp c lanes n32 n64 w → settled c w →
  agree (run_warp_until_yield (slow c) slice w) (run_warp_until_yield c slice w).
Proof. intros HW HS HO Hw HT. by apply (turn_is_slow c HW isp HS lanes n32 n64 HO). Qed.

(** ** A kernel that diverges and meets *)

Module Demo.

Definition u32_ty : Ty := mkTy KU 32.
Definition r (n : Z) : Reg := mkReg n false.
Definition rr (n : Z) : Operand := RegOperand (r n).
Definition p : Reg := r 4.
Definition isp (x : Reg) : bool := (id x =? 4) && negb (wide x).
Definition bin (o : IntBinOp) (d : Z) (a b : Operand) : Op := OpIntBin (mkIntBin o u32_ty (r d) a b false false false).
Definition always (o : Op) : Instr := mkInstr false false p o.

(** [r1 = tid.x < 2 ? r0 * 7 : r0 + 100;  bar.sync 0;  r3 = r1 * r1 + tid.y] *)
Definition kernel : list Instr :=
  [always (OpMov u32_ty (r 0) (SregOperand TidX));
   always (OpSetp (mkSetp Lt u32_ty p (rr 0) (ImmInt 2) None None));
   mkInstr true false p (OpBra 5);
   always (bin Add 1 (rr 0) (ImmInt 100));
   always (OpBra 6);
   always (bin Mul 1 (rr 0) (ImmInt 7));
   always (OpBar (ImmInt 0));
   always (OpMov u32_ty (r 2) (SregOperand TidY));
   always (OpMadLo (mkMadLo u32_ty (r 3) (rr 1) (rr 1) (rr 2) false false));
   always OpRet].

(** Ten threads in warps of four: the last warp is half empty. *)
Definition g : Launch := mkLaunch 4 kernel 5 0 50 false true (5, 2, 1) (0, 0, 0) (1, 1, 1).
Definition junk (v : Z) (_ : nat) : list (list Z) := replicate 5 (replicate 4 v).
Definition none (_ : nat) : list (list Z) := [].

Definition rr0 : Scheduler := RoundRobin 0.
Definition adv : Scheduler := Adversarial 42 [] 0 0.
Definition run (v : Z) (s : Scheduler) (fuel : nat) := block_loop g fuel (setup_block g (junk v) none, s).
Definition ended (o : outcome (BlockState * Scheduler) unit) : BlockState * Scheduler :=
  match o with Ret _ bs | Exn _ bs => bs | Undef => (mkBlock [] false false, rr0) end.
Definition fst_end : BlockState * Scheduler := Eval vm_compute in ended (run 7 rr0 20).
Definition snd_end : BlockState * Scheduler := Eval vm_compute in ended (run 9 adv 200).

(** The results: r3 of every thread. *)
Example results : (λ w, regs32 w !! 3%nat) <$> warps fst_end.1 =
  [Some [0; 49; 10404; 10609]; Some [10816; 1; 50; 10405]; Some [10610; 10817; 0; 0]].
Proof. vm_compute. reflexivity. Qed.

Lemma launch_g : launch_ok g.
Proof.
  split; [simpl; lia|unfold nx, ny, nz; simpl; lia|unfold nx, ny, nz; simpl; lia|].
  intros t Ht. repeat (apply elem_of_cons in Ht as [->|Ht]; [split_and!; unfold is_u32; simpl; lia|]). by apply elem_of_nil in Ht.
Qed.

Lemma typed : Forall (λ ins, op_ok isp (Z.of_nat (l_regs32 g)) (Z.of_nat (l_regs64 g)) (op ins)) (l_body g).
Proof. repeat constructor; simpl; unfold is_u64, u64; try lia. Qed.

Lemma junk_g v : is_u32 v → junk_ok g (junk v) none.
Proof.
  intros Hv w. split_and!; [done| |done|constructor]. apply Forall_replicate. split; [done|]. by apply Forall_replicate.
Qed.

#[local] Instance picker_g : PickerOk Scheduler (λ _, True) (nwarps g).
Proof. apply scheduler_picker_ok. vm_compute. reflexivity. Qed.

(** The block three and four turns on: waiting at the barrier, and let go. *)
Definition turns (k : nat) : outcome (BlockState * Scheduler) bool :=
  Nat.iter k (λ o, match o with Ret true bs => step_block g 0 bs | o => o end) (Ret true (setup_block g (junk 7) none, rr0)).
Definition state_of (o : outcome (BlockState * Scheduler) bool) : BlockState * Scheduler :=
  match o with Ret _ bs | Exn _ bs => bs | Undef => (mkBlock [] false false, rr0) end.
Definition b3 : BlockState * Scheduler := Eval vm_compute in state_of (turns 3).
Definition b4 : BlockState * Scheduler := Eval vm_compute in state_of (turns 4).

Lemma reach3 : block_reachable g (junk 7) none rr0 b3.
Proof.
  apply rtc_l with (state_of (turns 1)); [exists 0; split; [done|vm_compute; reflexivity]|].
  apply rtc_l with (state_of (turns 2)); [|apply rtc_once]; exists 0; (split; [done|vm_compute; reflexivity]).
Qed.
End Demo.

Section witnesses.
Import Demo.
#[local] Existing Instance picker_g.

Lemma block_is_spmd_witness : block_loop g 20 (setup_block g (junk 7) none, rr0) = Ret tt fst_end ∧
  ∃ wp, warps fst_end.1 !! 1%nat = Some wp ∧ state wp = Done ∧
    rtc (tmove (warp_cfg g 1) 2) (Running 0 (zero_thread g)) (Exited (view isp wp 2)).
Proof.
  split; [vm_compute; reflexivity|].
  apply (block_is_spmd g launch_g isp typed (junk 7) none (junk_g 7 ltac:(done)) (λ _, True) 20 rr0 fst_end.1 fst_end.2 1 2);
    [done|vm_compute; reflexivity|apply Nat.ltb_lt; vm_compute; reflexivity|simpl; lia|vm_compute; reflexivity].
Defined.

Lemma block_ends_witness : ∃ n o, (∀ fuel, (n < fuel)%nat → block_loop g fuel (setup_block g (junk 9) none, adv) = o) ∧
  match o with
  | Ret _ (b', _) => Forall (λ w, state w = Done) (warps b')
  | Exn e _ => warp_error e
  | Undef => False
  end.
Proof. apply (block_ends g launch_g isp typed (junk 9) none (junk_g 9 ltac:(done)) (λ _, True) adv). done. Defined.

Lemma barrier_release_witness : step_block g 0 b3 = Ret true b4 ∧
  ∀ v vp l, warps b3.1 !! v = Some vp → (l < l_width g)%nat → bit (warp_ids g v).1 l = true →
    bit (exited vp) l = true ∨
    ∃ q ins o, paths vp = [q] ∧ bit (mask q) l = true ∧ nth_z (l_body g) (pc q - 1) = Some ins ∧ op ins = OpBar o.
Proof.
  split; [vm_compute; reflexivity|].
  refine (barrier_release g launch_g isp typed (junk 7) none (junk_g 7 ltac:(done)) (λ _, True) rr0 b3.1 b3.2 0 true b4.1 b4.2 0
    _ _ I reach3 _ _ _ _ _ _); vm_compute; first [reflexivity|congruence].
Defined.

Lemma schedule_independent_witness : block_loop g 20 (setup_block g (junk 7) none, rr0) = Ret tt fst_end ∧
  block_loop g 200 (setup_block g (junk 9) none, adv) = Ret tt snd_end ∧
  ∃ w1 w2, warps fst_end.1 !! 0%nat = Some w1 ∧ warps snd_end.1 !! 0%nat = Some w2 ∧ view isp w1 3 = view isp w2 3.
Proof.
  split; [vm_compute; reflexivity|]. split; [vm_compute; reflexivity|].
  apply (schedule_independent g launch_g isp typed (junk 7) none (junk 9) none (junk_g 7 ltac:(done)) (junk_g 9 ltac:(done))
    (λ _, True) (λ _, True) 20 200 rr0 adv fst_end.1 snd_end.1 fst_end.2 snd_end.2 0 3);
    [done|done|vm_compute; reflexivity|vm_compute; reflexivity|apply Nat.ltb_lt; vm_compute; reflexivity|simpl; lia|vm_compute; reflexivity].
Defined.

Lemma thread_ids_witness : ∃ w l, (w < nwarps g)%nat ∧ bit (warp_ids g w).1 l = true ∧ (warp_ids g w).2 !! l = Some (3, 1, 0).
Proof.
  destruct (thread_ids g launch_g) as [H _].
  destruct (H 3 1 0 ltac:(vm_compute; split; congruence) ltac:(vm_compute; split; congruence) ltac:(vm_compute; split; congruence))
    as (w & l & H1 & H2 & H3 & _).
  exists w, l. split; [exact H1|]. split; [exact H2|exact H3].
Defined.

Lemma first_good : wf_warp (warp_cfg g 0) (warp_ids g 0).1 5 0 (setup_warp g (junk 7) none 0) ∧
  settled (warp_cfg g 0) (setup_warp g (junk 7) none 0).
Proof. apply (setup_good g launch_g (junk 7) none (junk_g 7 ltac:(done)) 0). apply Nat.ltb_lt. vm_compute. reflexivity. Qed.

Lemma first_sregs : sregs_ok (warp_cfg g 0).
Proof. apply (warp_sregs_ok g launch_g). apply Nat.ltb_lt. vm_compute. reflexivity. Qed.

Lemma turn_typed_witness : match run_warp_until_yield (warp_cfg g 0) 3 (setup_warp g (junk 7) none 0) with
  | Ret _ w' => wf_warp (warp_cfg g 0) (warp_ids g 0).1 5 0 w' ∧ settled (warp_cfg g 0) w'
  | Exn e _ => warp_error e
  | Undef => False
  end.
Proof.
  apply (turn_typed (warp_cfg g 0) isp (warp_ids g 0).1 5 0 3 (setup_warp g (junk 7) none 0));
    [simpl; lia|exact first_sregs|exact typed|exact (proj1 first_good)|exact (proj2 first_good)].
Defined.

Lemma tiers_agree_witness : agree (run_warp_until_yield (slow (warp_cfg g 0)) 0 (setup_warp g (junk 7) none 0))
  (run_warp_until_yield (warp_cfg g 0) 0 (setup_warp g (junk 7) none 0)).
Proof.
  apply (tiers_agree (warp_cfg g 0) isp (warp_ids g 0).1 5 0 0 (setup_warp g (junk 7) none 0));
    [simpl; lia|exact first_sregs|exact typed|exact (proj1 first_good)|exact (proj2 first_good)].
Defined.
End witnesses.
